(* ===== verification/_CoqProject ===== *)
-Q . S2P
Prelude.v
ForkTree.v
ForkTreeLoops.v
ForkTreeSpec.v
ForkTreeBranch.v
ForkTreeRevert.v
Authorities.v
AuthoritiesSpec.v
Changeset.v
ScaleCompact.v
ChangesetLayers.v
ChangesetSpec.v
Overlay.v
OverlaySpec.v
OverlayRoot.v
Allocator.v
AllocatorSpec.v
StateDbTypes.v
NonCanonical.v
NonCanonicalCount.v
NonCanonicalDiscard.v
NonCanonicalOps.v
NonCanonicalPins.v
NonCanonicalJournal.v
Pruning.v
StateDbExample.v
NonCanonicalSpec.v
PruningQueue.v
PruningWindow.v
PruningSpec.v
StateDb.v
StateDbPrune.v
StateDbRuns.v
StateDbServe.v
StateDbSpec.v
PoolTypes.v
PoolFuture.v
PoolReady.v
BasePool.v
PoolGraph.v
PoolRemove.v
PoolImport.v
PoolPrune.v
PoolBest.v
PoolOrder.v
PoolFutureSpec.v
PoolOps.v
PoolRequests.v
PoolLimits.v
PoolPruneTags.v
PoolSpec.v
PoolCorrect.v
BlockTree.v
BlockTreeSpec.v
Epochs.v
EpochsSpec.v
EpochsCorrect.v
Leaves.v
LeavesSpec.v
BlockBackend.v
BlockBackendSpec.v
