(* ===== verification/Prelude.v ===== *)
(** * A verification of parts of the patched polkadot-sdk

    The repository holds the crates of [substrate] that Serai builds on, under
    [src/polkadot-sdk/substrate], and the small tool that cuts them out of the SDK
    ([src/src]). This development models, as Rocq functions, parts of it that keep
    state and decide what a node does, and proves what they promise.

    ** What is modelled

    - The fork tree, [utils/fork-tree/src/lib.rs]: the forest of blocks above the last finalized
      one. [ForkTree] has every operation of the crate. [ForkTreeLoops] shows that its
      loops over work lists are the structural recursions they implement, and terminate;
      [ForkTreeSpec] and [ForkTreeBranch] give the operations their meaning on forests
      that agree with the ancestry of blocks (class [Ancestry]); [ForkTreeRevert] is about the filter with which
      its clients take out the descendants of a block.
    - The GRANDPA authority sets, [client/consensus/grandpa/src/authorities.rs]:
      [Authorities] has [AuthoritySet], with its standard changes in a fork tree and its forced
      changes in a sorted vector, and [AuthoritySetChanges]. [AuthoritiesSpec] proves
      the invariant and the effect of each operation, using the theorems of the tree.
    - The transactional change set, [primitives/state-machine/src/overlayed_changes/changeset.rs]:
      [Changeset] has the entries with their stack of versions, the lazy appends, the
      dirty keys and the two execution modes. [ChangesetLayers] defines the abstract
      stack of layers and proves what the two kinds of change set share, against the interface
      [VersionStack]; [ChangesetSpec] proves the refinement. [ScaleCompact] is a model
      of the length prefix, and shows that the laws asked of it ([CompactLaws]) can hold.
    - The overlay, [overlayed_changes/mod.rs] and [offchain.rs] there: [Overlay] composes a
      change set for the main storage, one for each child storage and one for the
      offchain storage, with the cached storage root. [OverlaySpec] proves that all of it
      behaves as one stack of views; [OverlayRoot] is about the root and draining.
    - The allocator of the runtime's heap, [client/allocator/src/freeing_bump.rs]:
      [Allocator] has the whole of it, headers in linear memory included. [AllocatorSpec] proves
      safety for a program that may write anything into the blocks it holds.
    - The state database, [client/state-db]: which states of which blocks a node keeps.
      [StateDbTypes] has what its parts share. [NonCanonical] is [src/noncanonical.rs], the blocks above
      the last canonical one; [NonCanonicalCount] (reference counts), [NonCanonicalDiscard] (subtrees that are
      discarded), [NonCanonicalOps] (the operations), [NonCanonicalPins] (blocks retained for a pin) and
      [NonCanonicalJournal] (the journal, and reading it back) lead to [NonCanonicalSpec]. [Pruning] is [src/pruning.rs], the window of canonical
      blocks, in memory or in the database; [PruningQueue] and [PruningWindow] lead to [PruningSpec]. [StateDb]
      is [src/lib.rs], which composes both; [StateDbPrune] (the pruning loop), [StateDbRuns] (the invariant of the whole) and [StateDbServe]
      (reading and opening) lead to [StateDbSpec]. [StateDbExample] is a chain and a codec to apply the theorems to.
    - The base of the transaction pool, [client/transaction-pool/src/graph]: the transactions a node has seen
      and may put into a block. [PoolTypes] has transactions, their tags and [tracked_map.rs]; [PoolFuture] is [future.rs], the
      transactions that wait for a tag; [PoolReady] is [ready.rs], the dependency graph of the others and the iterator that
      returns them best first; [BasePool] is [base_pool.rs], which moves transactions between the two. [PoolGraph] has
      the invariant of the graph, [PoolRemove], [PoolImport] and [PoolPrune] its operations, [PoolBest] and [PoolOrder] the
      iterator, [PoolFutureSpec] the other queue; [PoolOps], [PoolRequests], [PoolLimits] and [PoolPruneTags] are about
      the pool as a whole, [PoolSpec] about sequences of requests, and [PoolCorrect] has the theorems.
    - The tree of headers, [primitives/blockchain/src/header_metadata.rs] with [utils::is_descendent_of] of [client/api] and the
      metadata cache of [client/db]: [BlockTree] has the lowest common ancestor over cached links, the route between two
      blocks, and the closure that the fork trees are asked with; [BlockTreeSpec] has the theorems.
    - The forks of that tree: [Leaves] is [client/api/src/leaves.rs], the set of its leaves with the undoing of calls, and [BlockBackend] has
      what [primitives/blockchain/src/backend.rs] computes from them, the leaves and blocks that a finalized block displaces, the longest chain
      through a block and the blocks of forks, with the part of the finalization in [client/db] that uses it. [LeavesSpec] and [BlockBackendSpec]
      have the theorems.
    - The epochs of the block production, [client/consensus/epochs/src/lib.rs]: [Epochs] has the epoch changes, a fork tree of slots with a
      map of the epochs. [EpochsSpec] has the invariant and what each operation does to it, [EpochsCorrect] the theorems.

    The overlay is what the executor runs a block against, the allocator is what the
    block's code runs in; the transactions of the block come out of the pool; the changes that come out of it go into the state database; the fork tree
    and the authority sets decide which blocks are final, hence canonical there, and who may say so. The epochs, in a fork tree as well, tell who may make the next block; the tree of headers answers
    the questions of both about the ancestry of blocks, and its leaves are what may still be built on.

    ** How it is modelled

    A call ends in an [outcome]: [Ok], [Err], [Panic] (a failed [expect], an index out
    of range, a trapped overflow) or [Diverge]. A method that takes [&mut self] is a state
    transformer [M] that keeps the state at an error, as the code does. Machine integers
    are [N] with the overflow behaviour of their width; the class [Profile] says
    whether arithmetic traps and [debug_assert!] is compiled in, and the theorems hold for
    both. Code outside the repository is a parameter: the LRU map of the header metadata,
    the SCALE length prefix, the backend that computes roots, the linear memory, the codec and the keys of the
    state database, and the order in which a hash set is iterated (class [Iteration] for the pool), each with its documented behaviour as a hypothesis or a
    class of laws that is instantiated in the development. The fork tree and its clients take the closure that tells the ancestry of
    blocks as an argument, as in the code; their theorems are about a closure that answers with an [Ancestry], which that
    of the client does ([is_descendent_of_correct]).

    A [loop] carries fuel. It is always a number of rounds that the code cannot exceed (the
    size of the forest, of the vector, of the stack of transactions, or the number of a block), and
    the theorems exclude [Diverge], so no statement holds for lack of fuel.

    ** What the theorems show

    - Refinement: a change set answers every sequence of calls as a stack of finite maps does,
      and the overlay as a stack of views ([changeset_refines], [overlay_refines]).
    - Containment: a call into the runtime cannot close or change the transactions of its
      caller ([runtime_is_contained]).
    - Functional correctness of appends, of the storage root and its cache, of draining,
      of each operation of the fork tree and of the authority sets.
    - Safety of the heap: blocks never overlap, headers stay intact, no space is lost, and an
      error is final ([allocate_correct], [deallocate_correct], [heap_accounted],
      [errors_are_final]).
    - The state database keeps what it promises through any run with restarts: the state of every block that
      is in the overlay, canonical and not pruned, or pinned can be read ([state_db_runs]), and with a queue in memory the database holds
      nothing else ([database_exact]). The overlay ([overlay_runs], [canonicalize_correct], [pins_protect]) and both
      kinds of window ([window_refines]) have theorems of their own, and both open again as what was
      written ([reopen_correct], [window_reopened]); the pruning loop ends ([prune_window_stops]).
    - The pool stays well formed and never panics ([pool_well_formed]), loses no transaction without a report
      ([pool_import_correct], [prune_tags_correct], [enforce_limits_correct]), and its iterator returns what a direct definition of
      the order does ([best_iterator_correct], [report_invalid_correct]). This holds for transactions whose tags name slots: two that share
      a provided tag provide the same ones, none twice, and the tags are ranked, as an account's nonces are (class
      [Slots], with [nonce_slots] as its instance).
    - The closure the fork trees are asked with tells the ancestry of the tree of headers, whatever links the cache has kept
      ([is_descendent_of_correct], from [lowest_common_ancestor_correct]), and the route between two blocks is the path in the tree ([tree_route_correct]).
    - The leaf set holds the leaves of the tree ([leaf_set_refines]) and gives back what was done to it ([undo_correct]); a finalized block
      displaces exactly the branches it is not on ([displaced_leaves_correct]), the leaves that are left are those at or below
      it ([drop_displaced_leaves_correct]), and the longest chain is found ([longest_containing_correct]).
    - The child of a block is told the last epoch announced above it that has started ([descriptor_correct]), an announced epoch
      is found ([import_then_found]), finalization forgets nothing that the blocks to come need ([prune_finalized_preserves]),
      and the tree and the map stay together through all calls ([epochs_consistent]).
    - Where the code does not do what it means to: the storage root that is not refreshed
      by an append ([root_not_refreshed]), roots that are lost when the client fails
      ([finalize_client_error]), the element count that overflows ([append_at_max]), the
      bumper that wraps at four GiB ([bumper_wraps]), the dependency of a forced change that
      is not seen ([nested_dependency_ignored]), pins that are released too early ([unpin_loses_state],
      [unpin_before_sync]), a window that is never pruned ([window_stalls]), and transactions without such slots, which the
      pool returns before what they require, drops, or panics at ([replacement_breaks_order], [refused_import_loses_future] and the examples after them).

    ** What is not modelled

    Networking, RPC, the service and the executors are input and output around asynchronous
    runtimes. FRAME and the procedural macros are mostly generated code. Cryptography, the
    trie and the codec are external crates. Encoding derives, logging and metrics are left
    out everywhere. Of the state database, the nodes of a database with reference counts are not followed,
    only its metadata. Parts that would fit this development and are not in it yet: the
    layers above the base pool of [client/transaction-pool] (validation, views and listeners), the peer set controller of [client/network], and
    [primitives/arithmetic]. The migrations of the stored epochs and authority sets are left out as well.

    ** This file

    The vocabulary the other files share: outcomes and state, machine arithmetic, loops,
    sorting, binary search, and lemmas on lists. *)

From stdpp Require Export base list sorting gmap.
From Stdlib Require Export Lia.

(** ** Outcomes *)

(** How a call of a Rust function ends: it returns [Ok] or [Err], it panics, or
    the bound put on one of its loops is used up. *)
Inductive outcome (E A : Type) : Type :=
| Ok (a : A)
| Err (e : E)
| Panic
| Diverge.
Arguments Ok {E A} a.
Arguments Err {E A} e.
Arguments Panic {E A}.
Arguments Diverge {E A}.

Declare Scope model_scope.
Delimit Scope model_scope with model.
Open Scope model_scope.

(** Sequencing; the early exit is what [?] does. *)
Definition bind {E A B} (m : outcome E A) (k : A -> outcome E B) : outcome E B :=
  match m with
  | Ok a => k a
  | Err e => Err e
  | Panic => Panic
  | Diverge => Diverge
  end.

Notation "'let!' x := c 'in' k" := (bind c (fun x => k))
  (at level 10, x binder, c at level 100, k at level 200,
   format "'[v' 'let!'  x  :=  c  'in' '/' k ']'") : model_scope.

(** Conversion of the error, what [?] does through [From]. *)
Definition map_err {E E' A} (f : E -> E') (m : outcome E A) : outcome E' A :=
  match m with
  | Ok a => Ok a
  | Err e => Err (f e)
  | Panic => Panic
  | Diverge => Diverge
  end.

(** [Option::expect] and slice indexing. *)
Definition expect {E A} (o : option A) : outcome E A :=
  match o with Some a => Ok a | None => Panic end.

(** Short-circuit conjunction and disjunction whose right side may fail. *)
Definition and_then {E} (b : bool) (m : outcome E bool) : outcome E bool :=
  if b then m else Ok false.
Definition or_else {E} (b : bool) (m : outcome E bool) : outcome E bool :=
  if b then Ok true else m.
Infix "&&!" := and_then (at level 40, left associativity) : model_scope.
Infix "||!" := or_else (at level 50, left associativity) : model_scope.

(** Total correctness of a call: it returns and the result satisfies [Q], or it
    fails with an error that satisfies [QE]. *)
Definition post {E A} (m : outcome E A) (Q : A -> Prop) (QE : E -> Prop) : Prop :=
  match m with
  | Ok a => Q a
  | Err e => QE e
  | Panic | Diverge => False
  end.

Lemma post_bind {E A B} (m : outcome E A) (k : A -> outcome E B) Q QE :
  post m (fun a => post (k a) Q QE) QE -> post (bind m k) Q QE.
Proof. by destruct m. Qed.

Lemma post_mono {E A} (m : outcome E A) (Q Q' : A -> Prop) (QE QE' : E -> Prop) :
  (forall a, Q a -> Q' a) -> (forall e, QE e -> QE' e) ->
  post m Q QE -> post m Q' QE'.
Proof. destruct m; naive_solver. Qed.

(** ** State with errors *)

(** A method that takes [&mut self]: the state survives an error, with the
    changes made before the error was raised. *)
Definition M (S E A : Type) : Type := S -> S * outcome E A.

Definition ret {S E A} (a : A) : M S E A := fun s => (s, Ok a).
Definition bindM {S E A B} (m : M S E A) (k : A -> M S E B) : M S E B := fun s =>
  match m s with
  | (s', Ok a) => k a s'
  | (s', Err e) => (s', Err e)
  | (s', Panic) => (s', Panic)
  | (s', Diverge) => (s', Diverge)
  end.

Notation "'let*' x := c 'in' k" := (bindM c (fun x => k))
  (at level 10, x binder, c at level 100, k at level 200,
   format "'[v' 'let*'  x  :=  c  'in' '/' k ']'") : model_scope.

Definition get_state {S E} : M S E S := fun s => (s, Ok s).
Definition put_state {S E} (s' : S) : M S E unit := fun _ => (s', Ok tt).
Definition modify_state {S E} (f : S -> S) : M S E unit := fun s => (f s, Ok tt).
Definition throw {S E A} (e : E) : M S E A := fun s => (s, Err e).
Definition lift {S E A} (m : outcome E A) : M S E A := fun s => (s, m).

(** Running one step of a method. *)
Lemma bindM_ok {S E A B} (m : M S E A) (k : A -> M S E B) s s' a :
  m s = (s', Ok a) -> bindM m k s = k a s'.
Proof. unfold bindM. by intros ->. Qed.

Lemma bindM_err {S E A B} (m : M S E A) (k : A -> M S E B) s s' e :
  m s = (s', Err e) -> bindM m k s = (s', Err e).
Proof. unfold bindM. by intros ->. Qed.

Lemma bindM_lift {S E A B} (o : outcome E A) (k : A -> M S E B) s a :
  o = Ok a -> bindM (lift o) k s = k a s.
Proof. by intros ->. Qed.

Lemma bindM_get {S E B} (k : S -> M S E B) s : bindM get_state k s = k s s.
Proof. done. Qed.
Lemma bindM_put {S E B} (k : unit -> M S E B) s s' : bindM (put_state s') k s = k tt s'.
Proof. done. Qed.
Lemma bindM_modify {S E B} (k : unit -> M S E B) f s : bindM (modify_state f) k s = k tt (f s).
Proof. done. Qed.
Lemma bindM_ret {S E A B} (k : A -> M S E B) x s : bindM (ret x) k s = k x s.
Proof. done. Qed.

(** [run_steps] runs the steps that only read or write the state. *)
Create HintDb model.
#[export] Hint Rewrite @bindM_get @bindM_put @bindM_modify @bindM_ret : model.
Ltac run_steps := autorewrite with model; cbv iota beta.

(** [step_with H] runs the next step of a method, whose result [H] states. *)
Ltac step_with H := first [rewrite (bindM_lift _ _ _ _ H) | rewrite (bindM_ok _ _ _ _ _ H)].

(** [expect] on a [Result]. *)
Definition expectM {S E E' A} (m : M S E A) : M S E' A := fun s =>
  match m s with
  | (s', Ok a) => (s', Ok a)
  | (s', Err _) | (s', Panic) => (s', Panic)
  | (s', Diverge) => (s', Diverge)
  end.

Definition map_errM {S E E' A} (f : E -> E') (m : M S E A) : M S E' A := fun s =>
  let '(s', o) := m s in (s', map_err f o).

(** [match] on the [Result] of a call. *)
Definition caught {S E E' A} (m : M S E A) : M S E' (E + A) := fun s =>
  match m s with
  | (s', Ok a) => (s', Ok (inr a))
  | (s', Err e) => (s', Ok (inl e))
  | (s', Panic) => (s', Panic)
  | (s', Diverge) => (s', Diverge)
  end.

(** ** Machine arithmetic *)

(** How the program was built: whether arithmetic traps on overflow, and whether
    [debug_assert!] is compiled in. The results hold for every choice. *)
Class Profile : Type := {
  overflow_checks : bool;
  debug_assertions : bool
}.

(** A build without checks, and one with them. *)
Definition release : Profile := {| overflow_checks := false; debug_assertions := false |}.
Definition debug : Profile := {| overflow_checks := true; debug_assertions := true |}.

Definition u32_MAX : N := 4294967295.
Definition u64_MAX : N := 18446744073709551615.
Definition usize_MAX : N := 18446744073709551615.

(** The value of an operation at a width of [max], given its exact value. *)
Definition overflowing {E} `{!Profile} (max n : N) : outcome E N :=
  if (n <=? max)%N then Ok n else if overflow_checks then Panic else Ok (n mod (max + 1))%N.

Definition add_u32 {E} `{!Profile} (a b : N) : outcome E N := overflowing u32_MAX (a + b).

Definition add_u64 {E} `{!Profile} (a b : N) : outcome E N := overflowing u64_MAX (a + b).

Definition sub_u32 {E} `{!Profile} (a b : N) : outcome E N :=
  if (b <=? a)%N then Ok (a - b)%N
  else if overflow_checks then Panic else Ok (u32_MAX + 1 + a - b)%N.

Definition sub_u64 {E} `{!Profile} (a b : N) : outcome E N :=
  if (b <=? a)%N then Ok (a - b)%N
  else if overflow_checks then Panic else Ok (u64_MAX + 1 + a - b)%N.

Definition mul_u32 {E} `{!Profile} (a b : N) : outcome E N := overflowing u32_MAX (a * b).

(** [a << b]: the shift traps when it is as wide as the type, and drops the bits
    that leave the word. *)
Definition shl_u32 {E} `{!Profile} (a b : N) : outcome E N :=
  if (32 <=? b)%N && overflow_checks then Panic
  else Ok (N.shiftl a (b mod 32) mod (u32_MAX + 1))%N.

Definition shl_u64 {E} `{!Profile} (a b : N) : outcome E N :=
  if (64 <=? b)%N && overflow_checks then Panic
  else Ok (N.shiftl a (b mod 64) mod (u64_MAX + 1))%N.

(** Subtraction of sizes. *)
Definition sub_usize {E} `{!Profile} (a b : nat) : outcome E nat :=
  if b <=? a then Ok (a - b)
  else if overflow_checks then Panic
  else Ok (N.to_nat (usize_MAX + 1 + N.of_nat a - N.of_nat b)).

Definition debug_assert {E} `{!Profile} (b : bool) : outcome E unit :=
  if debug_assertions && negb b then Panic else Ok tt.

(** Operations whose exact value fits. *)
Section arithmetic.
Context `{!Profile}.

Lemma add_u32_eq {E} a b : (a + b <= u32_MAX)%N -> add_u32 (E := E) a b = Ok (a + b)%N.
Proof. unfold add_u32, overflowing. by intros ->%N.leb_le. Qed.

Lemma sub_u32_eq {E} a b : (b <= a)%N -> sub_u32 (E := E) a b = Ok (a - b)%N.
Proof. unfold sub_u32. by intros ->%N.leb_le. Qed.

Lemma add_u64_eq {E} a b : (a + b <= u64_MAX)%N -> add_u64 (E := E) a b = Ok (a + b)%N.
Proof. unfold add_u64, overflowing. by intros ->%N.leb_le. Qed.

Lemma sub_u64_eq {E} a b : (b <= a)%N -> sub_u64 (E := E) a b = Ok (a - b)%N.
Proof. unfold sub_u64. by intros ->%N.leb_le. Qed.

Lemma sub_usize_eq {E} a b : b <= a -> sub_usize (E := E) a b = Ok (a - b).
Proof. unfold sub_usize. by intros ->%Nat.leb_le. Qed.
End arithmetic.

(** [to_le_bytes] and [from_le_bytes] of an integer of [k] bytes. *)
Fixpoint to_le (k : nat) (n : N) : list N :=
  match k with
  | O => []
  | S k => (n mod 256)%N :: to_le k (n / 256)
  end.

Definition from_le (l : list N) : N := foldr (fun b acc => (b + 256 * acc)%N) 0%N l.

Lemma to_le_length k n : length (to_le k n) = k.
Proof. revert n. induction k as [|k IH]; intros n; simpl; [done|]. by rewrite IH. Qed.

Lemma from_to_le k n : (n < 256 ^ N.of_nat k)%N -> from_le (to_le k n) = n.
Proof.
  revert n. induction k as [|k IH]; intros n Hn.
  - change (256 ^ N.of_nat 0)%N with 1%N in Hn. simpl. lia.
  - rewrite Nat2N.inj_succ, N.pow_succ_r' in Hn. simpl. unfold from_le in IH. rewrite IH.
    + pose proof (N.div_mod' n 256). lia.
    + by apply N.Div0.div_lt_upper_bound.
Qed.

(** ** Loops *)

(** [for x in l { .. }] *)
Fixpoint for_each {S E A} (f : A -> M S E unit) (l : list A) : M S E unit :=
  match l with
  | [] => ret tt
  | x :: l' => let* _ := f x in for_each f l'
  end.

(** The same with variables of the caller that the body assigns. *)
Fixpoint for_fold {S E A L} (f : A -> L -> M S E L) (l : list A) (acc : L) : M S E L :=
  match l with
  | [] => ret acc
  | x :: l' => let* acc' := f x acc in for_fold f l' acc'
  end.

(** [iter().position(..)] with a test that may panic. *)
Fixpoint position {E A} (f : A -> outcome E bool) (l : list A) : outcome E (option nat) :=
  match l with
  | [] => Ok None
  | x :: l' =>
      let! found := f x in
      if found then Ok (Some 0) else
      let! i := position f l' in Ok (S <$> i)
  end.

Lemma position_ok {E A} (f : A -> outcome E bool) (g : A -> bool) (l : list A) :
  (forall x, x ∈ l -> f x = Ok (g x)) ->
  (exists i x, position f l = Ok (Some i) /\ l !! i = Some x /\ g x = true) \/
  (position f l = Ok None /\ forall x, x ∈ l -> g x = false).
Proof.
  induction l as [|x l IH]; intros Hf; simpl; [right; split; [done|by intros x ?%elem_of_nil]|].
  rewrite Hf by by left. cbn [bind]. destruct (g x) eqn:Hg; [left; by exists 0, x|].
  destruct IH as [(i & y & -> & Hy & Hgy)|[-> Hall]].
  - intros y Hy. apply Hf. by right.
  - left. by exists (S i), y.
  - right. split; [done|]. intros y [->|Hy]%elem_of_cons; auto.
Qed.

(** What one run of a loop body asks for. *)
Inductive control (L A : Type) : Type :=
| Continue (l : L)
| Break (a : A).
Arguments Continue {L A} l.
Arguments Break {L A} a.

(** [loop { .. }] with local state [L], cut off after [fuel] rounds. *)
Fixpoint loop {E L A} (fuel : nat) (body : L -> outcome E (control L A)) (l : L)
  : outcome E A :=
  match fuel with
  | 0 => Diverge
  | S fuel =>
      let! r := body l in
      match r with
      | Continue l' => loop fuel body l'
      | Break a => Ok a
      end
  end.

(** The same loop where the body also changes the object state. *)
Fixpoint loopM {S E L A} (fuel : nat) (body : L -> M S E (control L A)) (l : L)
  : M S E A :=
  match fuel with
  | 0 => lift Diverge
  | Datatypes.S fuel =>
      let* r := body l in
      match r with
      | Continue l' => loopM fuel body l'
      | Break a => ret a
      end
  end.

(** Rule for loops: an invariant, and a measure that bounds the rounds. *)
Lemma loop_post {E L A} (body : L -> outcome E (control L A))
    (I : L -> Prop) (m : L -> nat) Q QE :
  (forall l, I l ->
     post (body l)
       (fun r => match r with
                 | Continue l' => I l' /\ m l' < m l
                 | Break a => Q a
                 end) QE) ->
  forall fuel l, I l -> m l < fuel -> post (loop fuel body l) Q QE.
Proof.
  intros Hbody fuel. induction fuel as [|fuel IH]; intros l HI Hm; [lia|].
  simpl. apply post_bind. eapply post_mono; [| |by apply Hbody]; [|done].
  intros [l'|a]; [intros [? ?]; apply IH; [done|lia]|done].
Qed.

(** Total correctness of a stateful call, and the rule for its loops. *)
Definition postM {S E A} (m : M S E A) (s : S) (Q : A -> S -> Prop) (QE : E -> S -> Prop) : Prop :=
  match m s with
  | (s', Ok a) => Q a s'
  | (s', Err e) => QE e s'
  | (_, Panic) | (_, Diverge) => False
  end.

(** Enough for a call that cannot fail. *)
Lemma postM_returns {S E A} (m : M S E A) s Q :
  postM m s Q (fun _ _ => False) -> exists s' a, m s = (s', Ok a) /\ Q a s'.
Proof. unfold postM. destruct (m s) as [s' [a| | |]]; naive_solver. Qed.

Lemma postM_intro {S E A} (m : M S E A) s s' a (Q : A -> S -> Prop) QE :
  m s = (s', Ok a) -> Q a s' -> postM m s Q QE.
Proof. unfold postM. by intros ->. Qed.

Lemma postM_bind {S E A B} (m : M S E A) (k : A -> M S E B) s Q QE :
  postM m s (fun a s' => postM (k a) s' Q QE) QE -> postM (bindM m k) s Q QE.
Proof. unfold postM, bindM. by destruct (m s) as [s' []]. Qed.

Lemma postM_get {S E B} (k : S -> M S E B) s Q QE : postM (bindM get_state k) s Q QE = postM (k s) s Q QE.
Proof. done. Qed.
Lemma postM_put {S E B} (k : unit -> M S E B) s s' Q QE :
  postM (bindM (put_state s') k) s Q QE = postM (k tt) s' Q QE.
Proof. done. Qed.
Lemma postM_modify {S E B} (k : unit -> M S E B) f s Q QE :
  postM (bindM (modify_state f) k) s Q QE = postM (k tt) (f s) Q QE.
Proof. done. Qed.
Lemma postM_lift {S E A B} (o : outcome E A) (k : A -> M S E B) s a Q QE :
  o = Ok a -> postM (bindM (lift o) k) s Q QE = postM (k a) s Q QE.
Proof. by intros ->. Qed.
#[export] Hint Rewrite @postM_get @postM_put @postM_modify : model.

Lemma postM_mono {S E A} (m : M S E A) s (Q Q' : A -> S -> Prop) (QE QE' : E -> S -> Prop) :
  postM m s Q QE -> (forall a s', Q a s' -> Q' a s') -> (forall e s', QE e s' -> QE' e s') ->
  postM m s Q' QE'.
Proof. unfold postM. destruct (m s) as [s' []]; naive_solver. Qed.

Lemma loopM_post {S E L A} (body : L -> M S E (control L A))
    (I : L -> S -> Prop) (m : L -> S -> nat) Q QE :
  (forall l s, I l s ->
     postM (body l) s
       (fun r s' => match r with
                    | Continue l' => I l' s' /\ m l' s' < m l s
                    | Break a => Q a s'
                    end) QE) ->
  forall fuel l s, I l s -> m l s < fuel -> postM (loopM fuel body l) s Q QE.
Proof.
  intros Hbody fuel. induction fuel as [|fuel IH]; intros l s HI Hm; [lia|].
  specialize (Hbody l s HI). unfold postM, bindM in *. simpl. unfold bindM.
  destruct (body l s) as [s' [[l'|a]| | |]]; try done.
  destruct Hbody as [HI' Hlt]. apply IH; [done|lia].
Qed.

(** A loop that has ended within [k] rounds gives the same with more of them. *)
Definition ends {E L A} (body : L -> outcome E (control L A)) (k : nat) (l : L)
    (o : outcome E A) : Prop := loop k body l = o /\ o <> Diverge.

Lemma ends_step {E L A} (body : L -> outcome E (control L A)) k l l' o :
  body l = Ok (Continue l') -> ends body k l' o -> ends body (S k) l o.
Proof. unfold ends. simpl. intros -> [Hl Ho]. done. Qed.

Lemma ends_now {E L A} (body : L -> outcome E (control L A)) l a :
  body l = Ok (Break a) -> ends body 1 l (Ok a).
Proof. unfold ends. simpl. by intros ->. Qed.

Lemma ends_err {E L A} (body : L -> outcome E (control L A)) l e :
  body l = Err e -> ends body 1 l (Err e).
Proof. unfold ends. simpl. by intros ->. Qed.

Lemma ends_mono {E L A} (body : L -> outcome E (control L A)) k k' l o :
  k <= k' -> ends body k l o -> ends body k' l o.
Proof.
  unfold ends. intros Hk [Hl Ho]. split; [|done]. revert k' l Hk Hl.
  induction k as [|k IH]; intros k' l Hk Hl; simpl in Hl; [congruence|].
  destruct k' as [|k']; [lia|]. simpl.
  destruct (body l) as [[l'|a]| | |]; simpl in *; try done. by apply IH; [lia|].
Qed.

(** ** Sorting *)

(** [slice::sort_by_key] is a stable sort: elements with equal keys keep their
    order. Insertion from the right is the unique such result. *)
Section sort.
Context {A : Type} (le : A -> A -> bool).

Fixpoint sort_insert (x : A) (l : list A) : list A :=
  match l with
  | [] => [x]
  | y :: l' => if le x y then x :: l else y :: sort_insert x l'
  end.

Definition sort_by (l : list A) : list A := foldr sort_insert [] l.

Lemma sort_insert_perm x l : sort_insert x l ≡ₚ x :: l.
Proof.
  induction l as [|y l IH]; simpl; [done|].
  destruct (le x y); [done|]. rewrite IH. apply Permutation_swap.
Qed.

Lemma sort_by_perm l : sort_by l ≡ₚ l.
Proof. induction l as [|x l IH]; simpl; [done|]. by rewrite sort_insert_perm, IH. Qed.

Lemma sort_by_length l : length (sort_by l) = length l.
Proof. by rewrite sort_by_perm. Qed.

Lemma sort_by_sorted :
  (forall x y, le x y = false -> le y x = true) ->
  forall l, Sorted (fun x y => le x y = true) (sort_by l).
Proof.
  intros Htot l. induction l as [|x l IH]; simpl; [constructor|].
  induction IH as [|y l' Hl' IH' Hhd]; simpl; [by repeat constructor|].
  destruct (le x y) eqn:Hxy; [by repeat constructor|].
  constructor; [done|]. destruct l' as [|z l'']; simpl; [by constructor; apply Htot|].
  destruct (le x z); constructor; [by apply Htot|by inversion Hhd].
Qed.

(** A list that is in order already is left as it is. *)
Lemma sort_by_id l : Sorted (fun x y => le x y = true) l -> sort_by l = l.
Proof.
  induction 1 as [|x l Hl IH Hhd]; simpl; [done|]. rewrite IH.
  destruct Hhd as [|y l' Hy]; simpl; [done|]. by rewrite Hy.
Qed.

(** A total order sorts permutations of one list the same. *)
Lemma sort_by_unique :
  (forall x y, le x y = false -> le y x = true) ->
  (forall x y z, le x y = true -> le y z = true -> le x z = true) ->
  (forall x y, le x y = true -> le y x = true -> x = y) ->
  forall l k, l ≡ₚ k -> sort_by l = sort_by k.
Proof.
  intros Htot Htrans Hanti l k Hlk.
  set (R := fun x y => le x y = true).
  assert (Transitive R) by (intros x y z; apply Htrans).
  assert (AntiSymm (=) R) by (intros x y; apply Hanti).
  apply (StronglySorted_unique_strong R).
  - intros x y _ _. apply Hanti.
  - apply Sorted_StronglySorted; [done|by apply sort_by_sorted].
  - apply Sorted_StronglySorted; [done|by apply sort_by_sorted].
  - by rewrite !sort_by_perm.
Qed.
End sort.

Lemma sort_by_map {A B} (f : A -> B) (leA : A -> A -> bool) (leB : B -> B -> bool) l :
  (forall x y, leB (f x) (f y) = leA x y) -> sort_by leB (map f l) = map f (sort_by leA l).
Proof.
  intros Hle. induction l as [|x l IH]; simpl; [done|]. rewrite IH.
  generalize (sort_by leA l) as k. induction k as [|y k IHk]; simpl; [done|].
  rewrite Hle. destruct (leA x y); simpl; congruence.
Qed.

(** ** Binary search *)

Section search.
Context {A : Type} (f : A -> comparison).

(** The loop of [slice::binary_search_by]: the candidates are the [size] elements from
    [base] on. The right side of the result is where the element would be inserted. *)
Fixpoint search_loop (fuel base size : nat) (l : list A) : nat :=
  match fuel with
  | 0 => base
  | S fuel =>
      if size <=? 1 then base
      else
        let half := size / 2 in
        let mid := base + half in
        let base := match f <$> l !! mid with Some Gt => base | _ => mid end in
        search_loop fuel base (size - half) l
  end.

Definition binary_search_by (l : list A) : nat + nat :=
  match l with
  | [] => inr 0
  | _ =>
      let base := search_loop (length l) 0 (length l) l in
      match f <$> l !! base with
      | Some Eq => inl base
      | Some Lt => inr (S base)
      | _ => inr base
      end
  end.

(** [Result::unwrap_or_else(|i| i)] on the result. *)
Definition search_index (l : list A) : nat :=
  match binary_search_by l with inl i | inr i => i end.

(** The list is sorted as far as [f] can tell. *)
Definition ordered_by (l : list A) : Prop :=
  forall i j x y, i <= j -> l !! i = Some x -> l !! j = Some y ->
    (f x = Gt -> f y = Gt) /\ (f y = Lt -> f x = Lt).

Lemma search_loop_ok l fuel : ordered_by l -> forall base size,
  size <= fuel -> 1 <= size -> base + size <= length l ->
  (forall j x, base + size <= j -> l !! j = Some x -> f x = Gt) ->
  (base = 0 \/ exists x, l !! base = Some x /\ f x <> Gt) ->
  let b := search_loop fuel base size l in
  b < length l /\ (forall j x, b < j -> l !! j = Some x -> f x = Gt) /\
  (b = 0 \/ exists x, l !! b = Some x /\ f x <> Gt).
Proof.
  intros Hord. induction fuel as [|fuel IH]; intros base size Hfuel Hsize Hlen Hgt Hbase; [lia|].
  cbn [search_loop]. destruct (Nat.leb_spec size 1).
  { split_and!; [lia| |done]. intros j x Hj. apply Hgt. lia. }
  assert (1 <= size / 2 < size) as Hhalf by (split; [apply Nat.div_le_lower_bound|apply Nat.div_lt]; lia).
  destruct (lookup_lt_is_Some_2 l (base + size / 2) ltac:(lia)) as [y Hy]. rewrite Hy. cbn [fmap option_fmap option_map].
  destruct (f y) eqn:Hfy.
  1, 2: apply IH; try lia; [intros j x Hj; apply Hgt; lia|right; exists y; split; [done|congruence]].
  apply IH; try lia; [|done]. intros j x Hj Hx.
  apply (Hord (base + size / 2) j y x); [|done..].
  pose proof (Nat.Div0.mul_div_le size 2). lia.
Qed.

Lemma binary_search_ok l : ordered_by l ->
  match binary_search_by l with
  | inl i => exists x, l !! i = Some x /\ f x = Eq
  | inr i => i <= length l /\ (forall j x, j < i -> l !! j = Some x -> f x = Lt) /\
      (forall j x, i <= j -> l !! j = Some x -> f x = Gt)
  end.
Proof.
  intros Hord. destruct l as [|x0 l']; [split_and!; [done|intros; lia|done]|].
  set (l := x0 :: l') in *. unfold binary_search_by. cbv iota beta. fold l. set (b := search_loop _ _ _ _).
  destruct (search_loop_ok l (length l) Hord 0 (length l)) as (Hlt & Hgt & Hb); try lia.
  { simpl. lia. } { intros j x Hj Hx%lookup_lt_Some. lia. }
  fold b in Hlt, Hgt, Hb. destruct (lookup_lt_is_Some_2 l b Hlt) as [y Hy]. rewrite Hy. simpl.
  destruct (f y) eqn:Hfy; [by exists y| |].
  - split_and!; [done| |intros j x Hj; by apply Hgt]. intros j x Hj Hx.
    by apply (Hord j b x y ltac:(lia)).
  - destruct Hb as [->|(y' & Hy' & Hf)]; [|congruence]. split_and!; [lia|intros; lia|].
    intros j x _ Hx. by apply (Hord 0 j y x ltac:(lia)).
Qed.
End search.

(** ** Lists *)

Lemma max_list_perm (l k : list nat) : l ≡ₚ k -> max_list l = max_list k.
Proof. induction 1; simpl; lia. Qed.

Lemma alter_app_middle {A} (f : A -> A) (l k : list A) x :
  alter f (length l) (l ++ x :: k) = l ++ f x :: k.
Proof. induction l as [|y l IH]; simpl; [done|]. by f_equal. Qed.

Lemma tail_drop {A} n (l : list A) : tail (drop n l) = drop (S n) l.
Proof. revert n. by induction l as [|x l IH]; intros [|n]; simpl. Qed.

Lemma sorted_lookup_lt {A B} (R : relation B) (key : A -> B) l i j x y :
  StronglySorted R (map key l) -> i < j -> l !! i = Some x -> l !! j = Some y -> R (key x) (key y).
Proof.
  revert i j. induction l as [|z l IH]; intros i j Hs Hij Hx Hy; [done|].
  inversion Hs as [|? ? Hs' Hall]; subst.
  destruct i as [|i], j as [|j]; simpl in *; simplify_eq; [lia| |lia|].
  - rewrite Forall_forall in Hall. apply Hall, list_elem_of_fmap_2. by eapply list_elem_of_lookup_2.
  - apply (IH i j); [done|lia|done..].
Qed.

Lemma sorted_lookup {A B} (R : relation B) `{!Reflexive R} (key : A -> B) l i j x y :
  StronglySorted R (map key l) -> i <= j -> l !! i = Some x -> l !! j = Some y -> R (key x) (key y).
Proof.
  intros Hs Hij Hx Hy. destruct (decide (i = j)) as [->|]; [by simplify_eq|].
  eapply sorted_lookup_lt; [done| |done|done]. lia.
Qed.

(** Altering each position once is [map], in whatever order. *)
Lemma foldr_alter_seq {A} (f : A -> A) (l : list A) :
  foldr (fun i => alter f i) l (rev (seq 0 (length l))) = map f l.
Proof.
  enough (forall k m : list A, foldr (fun i => alter f i) (k ++ m) (rev (seq (length k) (length m)))
            = k ++ map f m) as Hgen by apply (Hgen [] l).
  intros k m. revert k. induction m as [|x m IH]; intros k; simpl; [done|].
  rewrite foldr_app. simpl. rewrite alter_app_middle, (cons_middle (f x) k).
  rewrite app_assoc. specialize (IH (k ++ [f x])). rewrite length_app in IH. simpl in IH.
  rewrite Nat.add_1_r in IH. rewrite IH. by rewrite <- app_assoc.
Qed.

(** Reading every position of a list in turn. *)
Lemma map_seq_lookup {A B} (f : option A -> B) (l : list A) :
  map (fun i => f (l !! i)) (seq 0 (length l)) = map (fun x => f (Some x)) l.
Proof.
  induction l as [|x l IH]; simpl; [done|]. f_equal. by rewrite <- seq_shift, map_map.
Qed.

Lemma filter_all {A} (f : A -> bool) (l : list A) : (forall x, x ∈ l -> f x = true) -> List.filter f l = l.
Proof.
  induction l as [|x l IH]; intros Hf; simpl; [done|].
  rewrite Hf by by left. f_equal. apply IH. intros. apply Hf. by right.
Qed.

Lemma filter_none {A} (f : A -> bool) (l : list A) : (forall x, x ∈ l -> f x = false) -> List.filter f l = [].
Proof.
  induction l as [|x l IH]; intros Hf; simpl; [done|].
  rewrite Hf by by left. apply IH. intros. apply Hf. by right.
Qed.

Lemma filter_perm {A} (f : A -> bool) (l k : list A) :
  l ≡ₚ k -> List.filter f l ≡ₚ List.filter f k.
Proof.
  induction 1 as [|x l k _ IH|x y l|]; simpl; repeat case_match; try done;
    [by constructor|by constructor|by etrans].
Qed.

(** Two parts of a list told apart by a test are what the test selects. *)
Lemma filter_partition {A} (f : A -> bool) (l k all : list A) :
  l ++ k ≡ₚ all -> (forall x, x ∈ l -> f x = true) -> (forall x, x ∈ k -> f x = false) ->
  l ≡ₚ List.filter f all /\ k ≡ₚ List.filter (fun x => negb (f x)) all.
Proof.
  intros Hall Hl Hk. split; rewrite <- (filter_perm _ _ _ Hall), List.filter_app.
  - rewrite (filter_all f l), (filter_none f k) by done. by rewrite app_nil_r.
  - rewrite filter_none, filter_all; [done|..]; intros x Hx; [by rewrite Hk|by rewrite Hl].
Qed.

Lemma elem_of_filter_true {A} (f : A -> bool) (k : list A) x :
  x ∈ List.filter f k <-> x ∈ k /\ f x = true.
Proof. by rewrite !list_elem_of_In, filter_In. Qed.

Lemma forallb_false {A} (f : A -> bool) (l : list A) :
  forallb f l = false <-> exists x, x ∈ l /\ f x = false.
Proof.
  induction l as [|x l IH]; simpl; [split; [done|by intros (x & ?%elem_of_nil & _)]|].
  rewrite andb_false_iff, IH. setoid_rewrite elem_of_cons. naive_solver.
Qed.

Lemma existsb_false {A} (f : A -> bool) (l : list A) :
  existsb f l = false <-> forall x, x ∈ l -> f x = false.
Proof.
  induction l as [|x l IH]; simpl; [split; [by intros _ x ?%elem_of_nil|done]|].
  rewrite orb_false_iff, IH. setoid_rewrite elem_of_cons. naive_solver.
Qed.

Lemma existsb_true {A} (f : A -> bool) (l : list A) :
  existsb f l = true <-> exists x, x ∈ l /\ f x = true.
Proof. rewrite existsb_exists. by setoid_rewrite list_elem_of_In. Qed.

Lemma elem_of_concat {A} (ls : list (list A)) x : x ∈ concat ls <-> exists l, l ∈ ls /\ x ∈ l.
Proof. rewrite list_elem_of_In, in_concat. by setoid_rewrite list_elem_of_In. Qed.

Lemma elem_of_rev {A} (l : list A) x : x ∈ rev l <-> x ∈ l.
Proof. by rewrite !list_elem_of_In, <- in_rev. Qed.

Lemma partition_perm {A} (f : A -> bool) (k : list A) :
  List.filter f k ++ List.filter (fun x => negb (f x)) k ≡ₚ k.
Proof.
  induction k as [|c k IH]; simpl; [done|]. destruct (f c); simpl.
  - by rewrite IH.
  - by rewrite <- Permutation_middle, IH.
Qed.

Lemma filter_filter_impl {A} (f g : A -> bool) (l : list A) :
  (forall x, x ∈ l -> f x = true -> g x = true) -> List.filter f (List.filter g l) = List.filter f l.
Proof.
  induction l as [|x l IH]; intros Hfg; simpl; [done|]. specialize (Hfg x ltac:(by left)) as Hx.
  destruct (g x); simpl; [|destruct (f x); [by specialize (Hx eq_refl)|]];
    rewrite IH by (intros; apply Hfg; [by right|done]); done.
Qed.

Lemma filter_ext_elem {A} (f g : A -> bool) (l : list A) :
  (forall x, x ∈ l -> f x = g x) -> List.filter f l = List.filter g l.
Proof.
  induction l as [|x l IH]; intros Hfg; simpl; [done|].
  rewrite Hfg by by left. rewrite IH; [done|]. intros y Hy. apply Hfg. by right.
Qed.

Lemma filter_filter_and {A} (f g : A -> bool) (l : list A) :
  List.filter f (List.filter g l) = List.filter (fun x => f x && g x) l.
Proof.
  induction l as [|x l IH]; simpl; [done|]. destruct (g x); simpl; rewrite IH; [by rewrite andb_true_r|].
  by rewrite andb_false_r.
Qed.

Lemma filter_or_perm {A} (f g : A -> bool) (l : list A) :
  (forall x, x ∈ l -> f x = true -> g x = false) ->
  List.filter f l ++ List.filter g l ≡ₚ List.filter (fun x => f x || g x) l.
Proof.
  induction l as [|x l IH]; intros Hfg; simpl; [done|]. specialize (Hfg x ltac:(by left)) as Hx.
  specialize (IH (fun y Hy => Hfg y ltac:(by right))).
  destruct (f x); [rewrite Hx by done; simpl; by rewrite IH|].
  destruct (g x); simpl; [|done]. by rewrite <- Permutation_middle, IH.
Qed.

(** What one test selects, and what another selects of the rest. *)
Lemma filter_then_perm {A} (f g : A -> bool) (l : list A) :
  List.filter f l ++ List.filter g (List.filter (fun x => negb (f x)) l) ≡ₚ List.filter (fun x => f x || g x) l.
Proof.
  induction l as [|x l IH]; simpl; [done|].
  destruct (f x); simpl; [by rewrite IH|]. destruct (g x); simpl; [|done].
  by rewrite <- Permutation_middle, IH.
Qed.

Lemma filter_concat {A} (f : A -> bool) (ls : list (list A)) :
  List.filter f (concat ls) = concat (map (List.filter f) ls).
Proof. induction ls as [|l ls IH]; simpl; [done|]. by rewrite List.filter_app, IH. Qed.

Lemma delete_filter {A B} (key : A -> B) (f : A -> bool) (l : list A) i x :
  NoDup (map key l) -> l !! i = Some x -> (forall y, y ∈ l -> f y = false <-> key y = key x) ->
  delete i l = List.filter f l.
Proof.
  revert i. induction l as [|y l IH]; intros i Hnd Hx Hf; [done|].
  apply NoDup_cons in Hnd as [Hny Hnd]. destruct i as [|i]; simpl in *; [injection Hx as ->|].
  - rewrite (proj2 (Hf x ltac:(by left))) by done. symmetry. apply filter_all. intros z Hz.
    destruct (f z) eqn:Hfz; [done|]. apply Hf in Hfz; [|by right]. destruct Hny. rewrite <- Hfz.
    by apply list_elem_of_fmap_2.
  - destruct (f y) eqn:Hfy.
    + f_equal. apply IH; [done|done|]. intros z Hz. apply Hf. by right.
    + apply Hf in Hfy; [|by left]. destruct Hny. rewrite Hfy. apply list_elem_of_fmap_2.
      by eapply list_elem_of_lookup_2.
Qed.

Lemma filter_sublist {A} (f : A -> bool) (l : list A) : List.filter f l `sublist_of` l.
Proof.
  induction l as [|x l IH]; simpl; [done|]. destruct (f x); [by constructor|by apply sublist_cons].
Qed.

Lemma filter_map {A B} (g : A -> B) (f : B -> bool) (l : list A) :
  List.filter f (map g l) = map g (List.filter (fun x => f (g x)) l).
Proof. induction l as [|x l IH]; simpl; [done|]. destruct (f (g x)); simpl; by rewrite IH. Qed.
