(* ===== verification/ForkTree.v ===== *)
(** * The fork tree

    Model of [substrate/utils/fork-tree/src/lib.rs]: a forest of blocks that are
    not finalized yet. A mutable reference to a node is a path of indices from the
    roots, so that the loops which hold a stack of such references run on the
    forest they modify. *)

From S2P Require Import Prelude.

Inductive Error (E : Type) : Type :=
| Duplicate
| UnfinalizedAncestor
| Revert
| Client (e : E).
Arguments Duplicate {E}.
Arguments UnfinalizedAncestor {E}.
Arguments Revert {E}.
Arguments Client {E} e.

Inductive FinalizationResult (V : Type) : Type :=
| Changed (v : option V)
| Unchanged.
Arguments Changed {V} v.
Arguments Unchanged {V}.

Inductive FilterAction : Type :=
| Remove
| KeepNode
| KeepTree.

Inductive Node (H V : Type) : Type := mkNode {
  hash : H;
  number : N;
  data : V;
  children : list (Node H V)
}.
Arguments mkNode {H V} hash number data children.
Arguments hash {H V} n.
Arguments number {H V} n.
Arguments data {H V} n.
Arguments children {H V} n.

Record ForkTree (H V : Type) : Type := mkForkTree {
  roots : list (Node H V);
  best_finalized_number : option N
}.
Arguments mkForkTree {H V} roots best_finalized_number.
Arguments roots {H V} f.
Arguments best_finalized_number {H V} f.

Definition set_children {H V} (l : list (Node H V)) (n : Node H V) : Node H V :=
  mkNode (hash n) (number n) (data n) l.

Definition set_roots {H V} (l : list (Node H V)) (t : ForkTree H V) : ForkTree H V :=
  mkForkTree l (best_finalized_number t).

Definition set_best {H V} (b : option N) (t : ForkTree H V) : ForkTree H V :=
  mkForkTree (roots t) b.

(** Number of nodes of a tree and of a forest; the bound of the loops below. *)
Fixpoint node_size {H V} (n : Node H V) : nat :=
  S (list_sum (map node_size (children n))).
Definition forest_size {H V} (l : list (Node H V)) : nat := list_sum (map node_size l).

(** ** References to nodes *)

Fixpoint get_node {H V} (l : list (Node H V)) (p : list nat) : option (Node H V) :=
  match p with
  | [] => None
  | [i] => l !! i
  | i :: p' => l !! i ≫= fun n => get_node (children n) p'
  end.

Fixpoint modify_node {H V} (f : Node H V -> Node H V) (p : list nat)
    (l : list (Node H V)) : list (Node H V) :=
  match p with
  | [] => l
  | [i] => alter f i l
  | i :: p' => alter (fun n => set_children (modify_node f p' (children n)) n) i l
  end.

(** [Vec::remove] and [Vec::swap_remove]; both panic out of range. *)
Definition vec_remove {E A} (i : nat) (l : list A) : outcome E (A * list A) :=
  let! x := expect (l !! i) in Ok (x, delete i l).

Definition vec_swap_remove {E A} (i : nat) (l : list A) : outcome E (A * list A) :=
  let! x := expect (l !! i) in
  let! y := expect (last l) in
  Ok (x, take (length l - 1) (<[i := y]> l)).

Section ops.
Context {H : Type} `{!EqDecision H} {V : Type}.

(** [ForkTree::new] *)
Definition new : ForkTree H V := mkForkTree [] None.

(** [Node::max_depth]: the loop over a stack of nodes with their heights. *)
Definition max_depth_body {E} (s : nat * list (Node H V * nat))
  : outcome E (control (nat * list (Node H V * nat)) nat) :=
  let '(max, stack) := s in
  match stack with
  | [] => Ok (Break max)
  | (node, height) :: stack' =>
      let max := if max <? height then height else max in
      Ok (Continue (max, rev (map (fun n => (n, S height)) (children node)) ++ stack'))
  end.

Definition max_depth_run {E} (n : Node H V) : outcome E nat :=
  loop (S (node_size n)) max_depth_body (0, [(n, 0)]).

Definition max_depth (n : Node H V) : nat :=
  match max_depth_run (E := False) n with Ok d => d | _ => 0 end.

(** [sort_by_key(|n| Reverse(n.max_depth()))] *)
Definition sort_by_depth (l : list (Node H V)) : list (Node H V) :=
  sort_by (fun a b => max_depth b <=? max_depth a) l.

(** [ForkTree::rebalance] *)
Definition rebalance_body {E} (s : list (Node H V) * list (list nat))
  : outcome E (control (list (Node H V) * list (list nat)) (list (Node H V))) :=
  let '(roots, stack) := s in
  match stack with
  | [] => Ok (Break roots)
  | node :: stack' =>
      let! n := expect (get_node roots node) in
      let roots := modify_node (fun n => set_children (sort_by_depth (children n)) n) node roots in
      Ok (Continue
            (roots,
             rev (map (fun i => node ++ [i]) (seq 0 (length (children n)))) ++ stack'))
  end.

Definition rebalance {E} : M (ForkTree H V) E unit :=
  let* t := get_state in
  let roots0 := sort_by_depth (roots t) in
  let* roots1 := lift (loop (S (forest_size roots0)) rebalance_body
                   (roots0, rev (map (fun i => [i]) (seq 0 (length roots0))))) in
  put_state (set_roots roots1 t).

(** ** Iteration *)

(** [ForkTreeIterator]; the stack has its top first. *)
Definition iter_next (stack : list (Node H V)) : option (Node H V * list (Node H V)) :=
  match stack with
  | [] => None
  | node :: stack' => Some (node, children node ++ stack')
  end.

Fixpoint iter_collect (fuel : nat) (stack : list (Node H V)) : list (Node H V) :=
  match fuel with
  | 0 => []
  | S fuel =>
      match iter_next stack with
      | None => []
      | Some (node, stack') => node :: iter_collect fuel stack'
      end
  end.

(** [ForkTree::node_iter], [ForkTree::iter] and [ForkTree::roots] *)
Definition node_iter (t : ForkTree H V) : list (Node H V) :=
  iter_collect (forest_size (roots t)) (roots t).

Definition node_entry (n : Node H V) : H * N * V := (hash n, number n, data n).

Definition iter (t : ForkTree H V) : list (H * N * V) := map node_entry (node_iter t).

Definition roots_iter (t : ForkTree H V) : list (H * N * V) := map node_entry (roots t).

(** [RemovedIterator], which owns its nodes; the stack has its top last. *)
Fixpoint removed_collect (fuel : nat) (stack : list (Node H V)) : list (H * N * V) :=
  match fuel with
  | 0 => []
  | S fuel =>
      match last stack with
      | None => []
      | Some node =>
          node_entry node ::
          removed_collect fuel (take (length stack - 1) stack ++ rev (children node))
      end
  end.

Definition removed_iter (stack : list (Node H V)) : list (H * N * V) :=
  removed_collect (forest_size stack) stack.

(** ** Search *)

Section ancestry.
(** [is_descendent_of base target], which may fail with an error of the client. *)
Context {E : Type} (is_descendent_of : H -> H -> E + bool).

(** The [?] on a call of [is_descendent_of]. *)
Definition descends (base target : H) : outcome (Error E) bool :=
  match is_descendent_of base target with
  | inl e => Err (Client e)
  | inr b => Ok b
  end.

(** The inner loop of [find_node_index_where]; its state is the stack, top first,
    with the index of the next child to visit, and the flag [is_descendent]. It
    ends with the stack left and the flags [found] and [is_descendent]. *)
Definition find_inner_body (h : H) (num : N) (predicate : V -> bool)
    (s : list (Node H V * nat) * bool)
  : outcome (Error E) (control (list (Node H V * nat) * bool)
                               (list (Node H V * nat) * bool * bool)) :=
  let '(stack, is_descendent) := s in
  match stack with
  | [] => Ok (Break ([], false, is_descendent))
  | (node, i) :: stack' =>
      if (i <? length (children node)) && negb is_descendent then
        let! child := expect (children node !! i) in
        let stack'' := (node, S i) :: stack' in
        Ok (Continue (if (number child <? num)%N then (child, 0) :: stack'' else stack'',
                      is_descendent))
      else
        let! d := is_descendent ||! descends (hash node) h in
        if d then
          if predicate (data node) then Ok (Break (stack', true, true))
          else Ok (Continue (stack', true))
        else Ok (Continue (stack', is_descendent))
  end.

(** The outer loop, over the roots from [root_idx] on. The stack is empty whenever
    the inner loop ends without having found a node. *)
Fixpoint find_outer (h : H) (num : N) (predicate : V -> bool) (root_idx : nat)
    (l : list (Node H V)) : outcome (Error E) (option (list nat)) :=
  match l with
  | [] => Ok None
  | root :: l' =>
      if (num <=? number root)%N then find_outer h num predicate (S root_idx) l'
      else
        let! r := loop (2 * node_size root + 1) (find_inner_body h num predicate) ([(root, 0)], false) in
        let '(stack, found, is_descendent) := r in
        if found then Ok (Some (root_idx :: rev (map (fun x => pred (snd x)) stack)))
        else if is_descendent then Ok None
        else find_outer h num predicate (S root_idx) l'
  end.

(** [ForkTree::find_node_index_where] *)
Definition find_node_index_where (h : H) (num : N) (predicate : V -> bool)
    (t : ForkTree H V) : outcome (Error E) (option (list nat)) :=
  find_outer h num predicate 0 (roots t).

(** [ForkTree::find_node_where] *)
Definition find_node_where (h : H) (num : N) (predicate : V -> bool)
    (t : ForkTree H V) : outcome (Error E) (option (Node H V)) :=
  let! maybe_path := find_node_index_where h num predicate t in
  match maybe_path with
  | None => Ok None
  | Some path => let! n := expect (get_node (roots t) path) in Ok (Some n)
  end.

(** [ForkTree::find_node_where_mut]: the reference returned is a path. *)
Definition find_node_where_mut (h : H) (num : N) (predicate : V -> bool)
    (t : ForkTree H V) : outcome (Error E) (option (list nat)) :=
  let! maybe_path := find_node_index_where h num predicate t in
  match maybe_path with
  | None => Ok None
  | Some path => let! _ := expect (get_node (roots t) path) in Ok (Some path)
  end.

(** The guard that [import] and the finalizing methods start with. *)
Definition check_best (num : N) (t : ForkTree H V) : outcome (Error E) unit :=
  match best_finalized_number t with
  | Some best => if (num <=? best)%N then Err Revert else Ok tt
  | None => Ok tt
  end.

(** [ForkTree::import] *)
Definition import (h : H) (num : N) (d : V) : M (ForkTree H V) (Error E) bool :=
  let* t := get_state in
  let* _ := lift (check_best num t) in
  let* parent := lift (find_node_where_mut h num (fun _ => true) t) in
  let* siblings := lift (match parent with
                   | Some path => let! n := expect (get_node (roots t) path) in Ok (children n)
                   | None => Ok (roots t)
                   end) in
  if existsb (fun elem => bool_decide (hash elem = h)) siblings then throw Duplicate
  else
    let siblings' := siblings ++ [mkNode h num d []] in
    let* _ := put_state (match parent with
                   | Some path => set_roots (modify_node (set_children siblings') path (roots t)) t
                   | None => set_roots siblings' t
                   end) in
    let* _ := (if length siblings' =? 1 then rebalance else ret tt) in
    ret (match parent with Some _ => false | None => true end).

(** ** Finalization *)

(** [ForkTree::finalize_root_at] *)
Definition finalize_root_at (position : nat) : M (ForkTree H V) (Error E) V :=
  let* t := get_state in
  let* x := lift (vec_swap_remove position (roots t)) in
  let node := fst x in
  let* _ := put_state (mkForkTree (children node) (Some (number node))) in
  ret (data node).

(** [ForkTree::finalize_root] *)
Definition finalize_root (h : H) : M (ForkTree H V) (Error E) (option V) :=
  let* t := get_state in
  match list_find (fun node => hash node = h) (roots t) with
  | None => ret None
  | Some (position, _) => let* d := finalize_root_at position in ret (Some d)
  end.

(** The loop that refuses to finalize a descendant of a root. *)
Fixpoint check_roots (h : H) (num : N) (l : list (Node H V)) : outcome (Error E) unit :=
  match l with
  | [] => Ok tt
  | root :: l' =>
      let! d := (number root <? num)%N &&! descends (hash root) h in
      if d then Err UnfinalizedAncestor else check_roots h num l'
  end.

(** The loop that pushes back the roots to keep, after [self.roots] was taken. *)
Fixpoint retain_roots (keep : Node H V -> outcome (Error E) bool) changed
    (l : list (Node H V)) : M (ForkTree H V) (Error E) bool :=
  match l with
  | [] => ret changed
  | root :: l' =>
      let* b := lift (keep root) in
      if b then
        let* _ := modify_state (fun t => set_roots (roots t ++ [root]) t) in
        retain_roots keep changed l'
      else retain_roots keep true l'
  end.

(** [ForkTree::finalize] *)
Definition finalize (h : H) (num : N) : M (ForkTree H V) (Error E) (FinalizationResult V) :=
  let* t := get_state in
  let* _ := lift (check_best num t) in
  let* fin := finalize_root h in
  match fin with
  | Some root => ret (Changed (Some root))
  | None =>
      let* _ := lift (check_roots h num (roots t)) in
      let* _ := put_state (set_roots [] t) in
      let* changed := retain_roots
        (fun root => (num <? number root)%N &&! descends h (hash root))
        false (roots t) in
      let* _ := modify_state (set_best (Some num)) in
      ret (if changed then Changed None else Unchanged)
  end.

(** The loop of [finalize_with_ancestors] over [idx] and [changed]. *)
Definition finalize_ancestors_body (h : H) (num : N) (l : nat * bool)
  : M (ForkTree H V) (Error E) (control (nat * bool) (FinalizationResult V)) :=
  let '(idx, changed) := l in
  let* t := get_state in
  if idx =? length (roots t) then
    let* _ := modify_state (set_best (Some num)) in
    ret (Break (if changed then Changed None else Unchanged))
  else
    let* root := lift (expect (roots t !! idx)) in
    let is_finalized := bool_decide (hash root = h) in
    let* is_descendant := lift (negb is_finalized && (num <? number root)%N &&! descends h (hash root)) in
    let* is_ancestor := lift (negb is_finalized && negb is_descendant && (number root <? num)%N
                             &&! descends (hash root) h) in
    if is_finalized then
      let* d := finalize_root_at idx in ret (Break (Changed (Some d)))
    else if is_descendant then ret (Continue (S idx, changed))
    else if is_ancestor then
      let* x := lift (vec_swap_remove idx (roots t)) in
      let* _ := put_state (set_roots (snd x ++ children (fst x)) t) in
      ret (Continue (idx, true))
    else
      let* x := lift (vec_swap_remove idx (roots t)) in
      let* _ := put_state (set_roots (snd x) t) in
      ret (Continue (idx, true)).

(** [ForkTree::finalize_with_ancestors] *)
Definition finalize_with_ancestors (h : H) (num : N)
  : M (ForkTree H V) (Error E) (FinalizationResult V) :=
  let* t := get_state in
  let* _ := lift (check_best num t) in
  let* fin := finalize_root h in
  match fin with
  | Some root => ret (Changed (Some root))
  | None => loopM (S (forest_size (roots t))) (finalize_ancestors_body h num) (0, false)
  end.

(** The loop that refuses to finalize past a child. *)
Fixpoint check_children (h : H) (num : N) (l : list (Node H V)) : outcome (Error E) unit :=
  match l with
  | [] => Ok tt
  | child :: l' =>
      let! d := (number child <=? num)%N &&!
             (bool_decide (hash child = h) ||! descends (hash child) h) in
      if d then Err UnfinalizedAncestor else check_children h num l'
  end.

(** The first node of [l] that passes the predicate and is [h] or an ancestor of
    it, with its position; fails when [h] is past one of its children. *)
Fixpoint find_finalized (h : H) (num : N) (predicate : V -> bool) (i : nat)
    (l : list (Node H V)) : outcome (Error E) (option (nat * Node H V)) :=
  match l with
  | [] => Ok None
  | node :: l' =>
      let! d := predicate (data node) &&!
             (bool_decide (hash node = h) ||! descends (hash node) h) in
      if d then let! _ := check_children h num (children node) in Ok (Some (i, node))
      else find_finalized h num predicate (S i) l'
  end.

(** [ForkTree::finalizes_any_with_descendent_if] *)
Definition finalizes_any_with_descendent_if (h : H) (num : N) (predicate : V -> bool)
    (t : ForkTree H V) : outcome (Error E) (option bool) :=
  let! _ := check_best num t in
  let! r := find_finalized h num predicate 0 (node_iter t) in
  Ok (match r with
      | None => None
      | Some (_, node) =>
          Some (existsb (fun root => bool_decide (hash root = hash node)) (roots t))
      end).

(** [ForkTree::finalize_with_descendent_if] *)
Definition finalize_with_descendent_if (h : H) (num : N) (predicate : V -> bool)
  : M (ForkTree H V) (Error E) (FinalizationResult V) :=
  let* t := get_state in
  let* _ := lift (check_best num t) in
  let* position := lift (find_finalized h num predicate 0 (roots t)) in
  let* node_data := match position with
              | Some (i, _) => let* d := finalize_root_at i in ret (Some d)
              | None => ret None
              end in
  let* t := get_state in
  let* _ := put_state (set_roots [] t) in
  let* changed := retain_roots
    (fun root =>
       let! a := (num <? number root)%N &&! descends h (hash root) in
       (a || (number root =? num)%N && bool_decide (hash root = h)) ||! descends (hash root) h)
    false (roots t) in
  let* _ := modify_state (set_best (Some num)) in
  ret (match node_data, changed with
        | Some d, _ => Changed (Some d)
        | None, true => Changed None
        | None, false => Unchanged
        end).

(** ** Pruning *)

(** The children of [curr] are scanned for the ancestor of [h]. *)
Fixpoint find_ancestor_idx (h : H) (num : N) (idx : nat) (l : list (Node H V))
  : outcome (Error E) (option nat) :=
  match l with
  | [] => Ok None
  | child :: l' =>
      let! d := (number child <? num)%N &&! descends (hash child) h in
      if d then Ok (Some idx) else find_ancestor_idx h num (S idx) l'
  end.

(** The loop that walks down from the new root; its state is the reference [curr]
    and the vector [removed]. *)
Definition prune_body (h : H) (num : N) (s : list nat * list (Node H V))
  : M (ForkTree H V) (Error E)
      (control (list nat * list (Node H V)) (list nat * list (Node H V))) :=
  let '(curr, removed) := s in
  let* t := get_state in
  let* node := lift (expect (get_node (roots t) curr)) in
  let* maybe_ancestor_idx := lift (find_ancestor_idx h num 0 (children node)) in
  match maybe_ancestor_idx with
  | None => ret (Break (curr, removed))
  | Some ancestor_idx =>
      let* x := lift (vec_remove ancestor_idx (children node)) in
      let '(next, next_siblings) := x in
      let* _ := put_state (set_roots (modify_node (set_children [next]) curr (roots t)) t) in
      ret (Continue (curr ++ [0], removed ++ next_siblings))
  end.

(** The loop over the children taken from [curr]. *)
Fixpoint prune_children (h : H) (num : N) (curr : list nat) (removed : list (Node H V))
    (l : list (Node H V)) : M (ForkTree H V) (Error E) (list (Node H V)) :=
  match l with
  | [] => ret removed
  | child :: l' =>
      let* b := lift ((number child =? num)%N && bool_decide (hash child = h) ||!
                   ((num <? number child)%N &&! descends h (hash child))) in
      if b then
        let* _ := modify_state (fun t => set_roots (modify_node
               (fun n => set_children (children n ++ [child]) n) curr (roots t)) t) in
        prune_children h num curr removed l'
      else prune_children h num curr (removed ++ [child]) l'
  end.

(** The detached root and what is left of the old forest. *)
Definition detach (path : list nat) (l : list (Node H V))
  : outcome (Error E) (Node H V * list (Node H V)) :=
  let! i := expect (last path) in
  let prefix := take (length path - 1) path in
  match prefix with
  | [] => vec_remove i l
  | _ =>
      let! parent := expect (get_node l prefix) in
      let! x := vec_remove i (children parent) in
      Ok (fst x, modify_node (set_children (snd x)) prefix l)
  end.

(** [ForkTree::prune]; the iterator returned is given by its stack. *)
Definition prune (h : H) (num : N) (predicate : V -> bool)
  : M (ForkTree H V) (Error E) (list (Node H V)) :=
  let* t := get_state in
  let* maybe_path := lift (find_node_index_where h num predicate t) in
  match maybe_path with
  | None => ret []
  | Some new_root_path =>
      let* x := lift (detach new_root_path (roots t)) in
      let '(root, removed) := x in
      let* _ := put_state (set_roots [root] t) in
      let* y := loopM (S (node_size root)) (prune_body h num) ([0], removed) in
      let '(curr, removed) := y in
      let* t := get_state in
      let* node := lift (expect (get_node (roots t) curr)) in
      let* _ := put_state (set_roots (modify_node (set_children []) curr (roots t)) t) in
      let* removed := prune_children h num curr removed (children node) in
      let* _ := rebalance in
      ret removed
  end.

End ancestry.

(** [ForkTree::drain_filter]: one level of the queue. *)
Fixpoint drain_level (filter : H -> N -> V -> FilterAction)
    (retained : list (N * Node H V)) (removed : list (Node H V))
    (next_queue queue : list (N * Node H V))
  : list (N * Node H V) * list (Node H V) * list (N * Node H V) :=
  match queue with
  | [] => (retained, removed, next_queue)
  | (parent_idx, node) :: queue' =>
      match filter (hash node) (number node) (data node) with
      | KeepNode =>
          let node_idx := N.of_nat (length retained) in
          drain_level filter (retained ++ [(parent_idx, set_children [] node)]) removed
            (next_queue ++ map (fun child => (node_idx, child)) (rev (children node))) queue'
      | KeepTree => drain_level filter (retained ++ [(parent_idx, node)]) removed next_queue queue'
      | Remove => drain_level filter retained (removed ++ [node]) next_queue queue'
      end
  end.

Definition drain_body {E} (filter : H -> N -> V -> FilterAction)
    (s : list (N * Node H V) * list (Node H V) * list (N * Node H V))
  : outcome E (control (list (N * Node H V) * list (Node H V) * list (N * Node H V))
                       (list (N * Node H V) * list (Node H V))) :=
  let '(retained, removed, queue) := s in
  match queue with
  | [] => Ok (Break (retained, removed))
  | _ => Ok (Continue (drain_level filter retained removed [] queue))
  end.

End ops.

(** The loop that reattaches the nodes of a level-order vector to their parents,
    at the end of [map] and of [drain_filter]. *)
Definition rebuild_body {E H V} (s : list (N * Node H V) * list (Node H V))
  : outcome E (control (list (N * Node H V) * list (Node H V)) (list (Node H V))) :=
  let '(output, roots) := s in
  match last output with
  | None => Ok (Break roots)
  | Some (parent_index, node) =>
      let output := take (length output - 1) output in
      if (parent_index =? usize_MAX)%N then Ok (Continue (output, roots ++ [node]))
      else
        let! _ := expect (output !! N.to_nat parent_index) in
        Ok (Continue
              (alter (fun x => (x.1, set_children (children x.2 ++ [node]) x.2))
                 (N.to_nat parent_index) output, roots))
  end.

Definition rebuild {E H V} (output : list (N * Node H V)) (roots : list (Node H V))
  : outcome E (list (Node H V)) :=
  loop (S (length output)) rebuild_body (output, roots).

Definition drain_filter {E H V} `{!EqDecision H} (filter : H -> N -> V -> FilterAction)
  : M (ForkTree H V) E (list (Node H V)) :=
  let* t := get_state in
  let* _ := put_state (set_roots [] t) in
  let* x := lift (loop (S (forest_size (roots t))) (drain_body filter)
              ([], [], map (fun node => (usize_MAX, node)) (rev (roots t)))) in
  let '(retained, removed) := x in
  let* roots := lift (rebuild retained []) in
  let* _ := put_state (set_roots roots t) in
  let* _ := (if length removed =? 0 then ret tt else rebalance) in
  ret removed.

(** [ForkTree::map]; [f] may change a state [S] of its own. *)
Fixpoint map_level {H V W S} (f : S -> H -> N -> V -> S * W) (st : S)
    (output : list (N * Node H W)) (next_queue queue : list (N * Node H V))
  : S * list (N * Node H W) * list (N * Node H V) :=
  match queue with
  | [] => (st, output, next_queue)
  | (parent_index, node) :: queue' =>
      let '(st, new_data) := f st (hash node) (number node) (data node) in
      let new_node := mkNode (hash node) (number node) new_data [] in
      let node_id := N.of_nat (length output) in
      map_level f st (output ++ [(parent_index, new_node)])
        (next_queue ++ map (fun child => (node_id, child)) (rev (children node))) queue'
  end.

Definition map_body {E H V W S} (f : S -> H -> N -> V -> S * W)
    (s : S * list (N * Node H W) * list (N * Node H V))
  : outcome E (control (S * list (N * Node H W) * list (N * Node H V))
                       (S * list (N * Node H W))) :=
  let '(st, output, queue) := s in
  match queue with
  | [] => Ok (Break (st, output))
  | _ => Ok (Continue (map_level f st output [] queue))
  end.

Definition map_tree {E H V W S} (f : S -> H -> N -> V -> S * W) (st : S) (t : ForkTree H V)
  : outcome E (S * ForkTree H W) :=
  let! x := loop (Datatypes.S (forest_size (roots t))) (map_body f)
        (st, [], map (fun node => (usize_MAX, node)) (rev (roots t))) in
  let '(st, output) := x in
  let! roots := rebuild output [] in
  Ok (st, mkForkTree roots (best_finalized_number t)).
