(* ===== verification/ForkTreeLoops.v ===== *)
(** * The loops of the fork tree

    The loops of [ForkTree] run over explicit stacks and queues. Here each of them
    is shown equal to a function defined by recursion on the tree; the bounds on
    the number of rounds are part of those equations. *)

From S2P Require Import Prelude ForkTree.

(** ** Recursion on trees *)

Lemma Node_tree_ind {H V} (P : Node H V -> Prop) :
  (forall h num d l, Forall P l -> P (mkNode h num d l)) -> forall n, P n.
Proof.
  intros Hind. fix IH 1. intros [h num d l]. apply Hind.
  induction l as [|c l IHl]; constructor; [apply IH|apply IHl].
Qed.

Ltac tree_induction n :=
  induction n as [? ? ? l IHl] using Node_tree_ind; rewrite ?Forall_forall in IHl.

Section trees.
Context {H V : Type}.
Implicit Types (n : Node H V) (l : list (Node H V)).

(** Length of the longest branch below a node. *)
Fixpoint depth (n : Node H V) : nat :=
  max_list (map (fun c => S (depth c)) (children n)).

(** The nodes of a tree and of a forest, parents before children. *)
Fixpoint preorder (n : Node H V) : list (Node H V) :=
  n :: concat (map preorder (children n)).
Definition nodes (l : list (Node H V)) : list (Node H V) := concat (map preorder l).

Lemma preorder_unfold n : preorder n = n :: nodes (children n).
Proof. by destruct n. Qed.

Lemma nodes_cons n l : nodes (n :: l) = n :: nodes (children n) ++ nodes l.
Proof. unfold nodes at 1. simpl. by rewrite preorder_unfold. Qed.

Lemma nodes_app l k : nodes (l ++ k) = nodes l ++ nodes k.
Proof. unfold nodes. by rewrite map_app, concat_app. Qed.

Lemma nodes_perm l k : l ≡ₚ k -> nodes l ≡ₚ nodes k.
Proof.
  induction 1; unfold nodes in *; simpl;
    [done|by apply Permutation_app_head| |by etrans].
  rewrite !app_assoc. apply Permutation_app_tail, Permutation_app_comm.
Qed.

Lemma node_size_unfold n : node_size n = S (forest_size (children n)).
Proof. by destruct n. Qed.

Lemma forest_size_cons n l : forest_size (n :: l) = S (forest_size (children n) + forest_size l).
Proof. unfold forest_size at 1. simpl. by rewrite node_size_unfold. Qed.

Lemma forest_size_app l k : forest_size (l ++ k) = forest_size l + forest_size k.
Proof. unfold forest_size. by rewrite map_app, list_sum_app. Qed.

Lemma forest_size_perm l k : l ≡ₚ k -> forest_size l = forest_size k.
Proof. induction 1; rewrite ?forest_size_cons; lia. Qed.

Lemma forest_size_rev l : forest_size (rev l) = forest_size l.
Proof. apply forest_size_perm. by rewrite <- Permutation_rev. Qed.

Lemma preorder_length n : length (preorder n) = node_size n.
Proof.
  tree_induction n. rewrite preorder_unfold, node_size_unfold. simpl. f_equal.
  unfold nodes, forest_size.
  induction l as [|c l IH]; simpl; [done|].
  rewrite length_app, IHl, IH by set_solver. done.
Qed.

Lemma nodes_length l : length (nodes l) = forest_size l.
Proof.
  induction l as [|n l IH]; [done|]. rewrite nodes_cons, forest_size_cons.
  simpl. rewrite length_app, IH. pose proof (preorder_length n) as Hn.
  rewrite preorder_unfold, node_size_unfold in Hn. simpl in Hn. lia.
Qed.

Lemma nodes_children_in n l : n ∈ l -> forall c, c ∈ nodes (children n) -> c ∈ nodes l.
Proof.
  induction l as [|m l IH]; [set_solver|]. rewrite nodes_cons. set_solver.
Qed.

Lemma elem_of_nodes n l :
  n ∈ nodes l <-> exists r, r ∈ l /\ (n = r \/ n ∈ nodes (children r)).
Proof. induction l as [|m l IH]; [set_solver|]. rewrite nodes_cons. set_solver. Qed.

Lemma nodes_root n l : n ∈ l -> n ∈ nodes l.
Proof. rewrite elem_of_nodes. eauto. Qed.

(** Every node of a forest comes before its children, hence induction on the
    position in the forest. *)
Lemma nodes_ind (P : Node H V -> Prop) l :
  (forall n, n ∈ l -> P n) ->
  (forall n c, n ∈ nodes l -> P n -> c ∈ children n -> P c) ->
  forall n, n ∈ nodes l -> P n.
Proof.
  remember (forest_size l) as k eqn:Hk. revert l Hk.
  induction k as [k IH] using lt_wf_ind. intros l -> Hroot Hchild n.
  destruct l as [|m l]; [set_solver|].
  rewrite nodes_cons in *. rewrite forest_size_cons in IH.
  intros [->|[Hn|Hn]%elem_of_app]%elem_of_cons; [by apply Hroot; left| |].
  - eapply (IH (forest_size (children m))); [lia|done| | |done].
    + intros c Hc. apply (Hchild m); [by left|apply Hroot; by left|done].
    + intros n' c Hn'. apply Hchild. set_solver.
  - eapply (IH (forest_size l)); [lia|done| | |done].
    + intros c Hc. apply Hroot. by right.
    + intros n' c Hn'. apply Hchild. set_solver.
Qed.

Lemma nodes_below l n c : n ∈ nodes l -> c ∈ nodes (children n) -> c ∈ nodes l.
Proof.
  intros Hn. revert n Hn c.
  apply (nodes_ind (fun n => forall c, c ∈ nodes (children n) -> c ∈ nodes l)).
  - intros n Hn c. by apply nodes_children_in.
  - intros n n' Hn IH Hn' c Hc. apply IH. by eapply nodes_children_in.
Qed.

End trees.

(** ** Depth *)

Section depth.
Context {H : Type} `{!EqDecision H} {V : Type}.
Implicit Types (n : Node H V) (l : list (Node H V)).

Lemma depth_unfold n : depth n = max_list (map (fun c => S (depth c)) (children n)).
Proof. by destruct n. Qed.

Lemma max_list_app (l k : list nat) : max_list (l ++ k) = max_list l `max` max_list k.
Proof. induction l as [|x l IH]; simpl; [done|]. rewrite IH. lia. Qed.

Lemma max_list_rev (l : list nat) : max_list (rev l) = max_list l.
Proof. induction l as [|x l IH]; simpl; [done|]. rewrite max_list_app, IH. simpl. lia. Qed.

Lemma max_list_add k (l : list nat) :
  k `max` max_list (map (fun x => k + S x) l) = k + max_list (map S l).
Proof. induction l as [|x l IH]; simpl; lia. Qed.

Lemma forest_size_snd (st : list (Node H V * nat)) h l :
  forest_size (map fst (rev (map (fun n => (n, h)) l) ++ st)) =
  forest_size l + forest_size (map fst st).
Proof.
  rewrite map_app, forest_size_app, map_rev, map_map, forest_size_rev. f_equal.
  simpl. by rewrite map_id.
Qed.

Lemma max_depth_run_depth {E} n : max_depth_run (E := E) n = Ok (depth n).
Proof.
  enough (post (max_depth_run (E := E) n) (fun d => d = depth n) (fun _ => False)) as Hp.
  { destruct (max_depth_run n); simpl in Hp; naive_solver. }
  unfold max_depth_run.
  apply (loop_post _
    (fun s => s.1 `max` max_list (map (fun x => x.2 + depth x.1) s.2) = depth n)
    (fun s => forest_size (map fst s.2))).
  - intros [mx [|[node h] st]]; simpl; [lia|]. intros Hinv. split.
    + rewrite map_app, max_list_app, map_rev, max_list_rev, map_map.
      rewrite depth_unfold in Hinv. simpl.
      pose proof (max_list_add h (map depth (children node))) as Hadd.
      rewrite !map_map in Hadd.
      rewrite (map_ext _ (fun x => h + S (depth x))) by (intros; simpl; lia).
      destruct (Nat.ltb_spec mx h); lia.
    + rewrite forest_size_snd, forest_size_cons. lia.
  - simpl. lia.
  - simpl. rewrite forest_size_cons, node_size_unfold. simpl. unfold forest_size at 2. simpl. lia.
Qed.

Lemma max_depth_depth n : max_depth n = depth n.
Proof. unfold max_depth. by rewrite max_depth_run_depth. Qed.

End depth.

(** ** Iterators *)

Section iterators.
Context {H : Type} `{!EqDecision H} {V : Type}.
Implicit Types (n : Node H V) (l : list (Node H V)).

Lemma iter_collect_nodes fuel l :
  forest_size l <= fuel -> iter_collect fuel l = nodes l.
Proof.
  revert l. induction fuel as [|fuel IH]; intros [|n l] Hf;
    rewrite ?forest_size_cons in Hf; try done; [lia|].
  simpl. rewrite nodes_cons. f_equal. rewrite IH, nodes_app; [done|].
  rewrite forest_size_app. lia.
Qed.

Lemma node_iter_nodes (t : ForkTree H V) : node_iter t = nodes (roots t).
Proof. by apply iter_collect_nodes. Qed.

Lemma last_snoc_take {A} (l : list A) (x : A) :
  last l = Some x -> l = take (length l - 1) l ++ [x].
Proof.
  intros Hl. apply last_Some in Hl as [k ->]. rewrite length_app. simpl.
  replace (length k + 1 - 1) with (length k) by lia. by rewrite take_app_length.
Qed.

Lemma removed_collect_nodes fuel l :
  forest_size l <= fuel ->
  removed_collect fuel l = map node_entry (nodes (rev l)).
Proof.
  revert l. induction fuel as [|fuel IH]; intros l Hf.
  - destruct l as [|n l]; [done|]. rewrite forest_size_cons in Hf. lia.
  - simpl. destruct (last l) as [n|] eqn:Hl; [|by apply last_None in Hl as ->].
    apply last_snoc_take in Hl. remember (take _ l) as k. subst l.
    rewrite forest_size_app, forest_size_cons in Hf.
    rewrite rev_app_distr. simpl. rewrite nodes_cons. simpl. f_equal.
    rewrite IH; [|rewrite forest_size_app, forest_size_rev; lia].
    by rewrite rev_app_distr, rev_involutive, nodes_app.
Qed.

Lemma removed_iter_nodes l : removed_iter l = map node_entry (nodes (rev l)).
Proof. by apply removed_collect_nodes. Qed.

End iterators.

(** ** References *)

(** Two references to different branches, neither above the other. *)
Fixpoint indep (p q : list nat) : Prop :=
  match p, q with
  | i :: p', j :: q' => i <> j \/ indep p' q'
  | _, _ => False
  end.

Section paths.
Context {H V : Type}.
Implicit Types (n : Node H V) (l : list (Node H V)).

Lemma children_set l n : children (set_children l n) = l.
Proof. done. Qed.

Lemma set_children_set l k n : set_children l (set_children k n) = set_children l n.
Proof. done. Qed.

Lemma set_children_id n : set_children (children n) n = n.
Proof. by destruct n. Qed.

Lemma get_node_cons i p l :
  p <> [] -> get_node l (i :: p) = (l !! i ≫= fun n => get_node (children n) p).
Proof. by destruct p. Qed.

Lemma modify_node_cons (f : Node H V -> Node H V) i p l :
  p <> [] ->
  modify_node f (i :: p) l = alter (fun n => set_children (modify_node f p (children n)) n) i l.
Proof. by destruct p. Qed.

Lemma get_node_snoc p i l :
  p <> [] -> get_node l (p ++ [i]) = (get_node l p ≫= fun n => children n !! i).
Proof.
  revert l. induction p as [|j p IH]; intros l Hp; [done|].
  destruct p as [|k p]; [done|].
  rewrite <- app_comm_cons, !get_node_cons by (simpl; done).
  destruct (l !! j) as [n|]; simpl; [|done]. by apply IH.
Qed.

Lemma modify_node_snoc (f : Node H V -> Node H V) p i l :
  p <> [] ->
  modify_node f (p ++ [i]) l =
  modify_node (fun n => set_children (alter f i (children n)) n) p l.
Proof.
  revert l. induction p as [|j p IH]; intros l Hp; [done|].
  destruct p as [|k p]; [done|].
  rewrite <- app_comm_cons, !modify_node_cons by (simpl; done).
  apply list_alter_ext; [|done]. intros n _. by rewrite IH.
Qed.

Lemma modify_node_compose (f g : Node H V -> Node H V) p l :
  modify_node f p (modify_node g p l) = modify_node (fun n => f (g n)) p l.
Proof.
  revert l. induction p as [|i p IH]; intros l; [done|]. destruct p as [|j p].
  - simpl. by rewrite list_alter_alter_eq.
  - rewrite !(modify_node_cons _ i (j :: p)) by done. rewrite list_alter_alter_eq.
    apply list_alter_ext; [|done]. intros n _. unfold compose. by rewrite children_set, set_children_set, IH.
Qed.

Lemma modify_node_ext (f g : Node H V -> Node H V) p l :
  (forall n, get_node l p = Some n -> f n = g n) -> modify_node f p l = modify_node g p l.
Proof.
  revert l. induction p as [|i p IH]; intros l Hfg; [done|]. destruct p as [|j p].
  - apply list_alter_ext; [|done]. intros n Hn. by apply Hfg.
  - rewrite !(modify_node_cons _ i (j :: p)) by done.
    apply list_alter_ext; [|done]. intros n Hn. f_equal. apply IH. intros m Hm. apply Hfg.
    rewrite get_node_cons by done. by rewrite Hn.
Qed.

Lemma modify_node_id (f : Node H V -> Node H V) p l :
  (forall n, f n = n) -> modify_node f p l = l.
Proof.
  intros Hf. revert l. induction p as [|i p IH]; intros l; [done|]. destruct p as [|j p].
  - by apply list_alter_id.
  - rewrite modify_node_cons by done. apply list_alter_id. intros n. by rewrite IH, set_children_id.
Qed.

Lemma get_modify_eq (f : Node H V -> Node H V) p l n :
  get_node l p = Some n -> get_node (modify_node f p l) p = Some (f n).
Proof.
  revert l. induction p as [|i p IH]; intros l Hn; [done|]. destruct p as [|j p].
  - simpl in *. by rewrite list_lookup_alter_eq, Hn.
  - rewrite modify_node_cons, !get_node_cons in * by done.
    rewrite list_lookup_alter_eq. destruct (l !! i) as [m|]; [|done]. simpl in *. by apply IH.
Qed.

Lemma get_modify_indep (f : Node H V -> Node H V) p q l :
  indep p q -> get_node (modify_node f p l) q = get_node l q.
Proof.
  revert q l. induction p as [|i p IH]; intros q l Hi; [done|].
  destruct q as [|j q]; [done|]. simpl in Hi. destruct (decide (i = j)) as [<-|Hij].
  - destruct Hi as [|Hi]; [done|]. destruct p as [|i' p]; [done|]. destruct q as [|j' q]; [done|].
    rewrite modify_node_cons, !get_node_cons, list_lookup_alter_eq by done.
    destruct (l !! i) as [m|]; [exact (IH _ (children m) Hi)|done].
  - assert (forall g, alter g i l !! j = l !! j) as Hne by (intros; by apply list_lookup_alter_ne).
    destruct p as [|i' p]; [|rewrite modify_node_cons by done]; destruct q as [|j' q];
      simpl; by rewrite ?Hne.
Qed.

Lemma modify_modify_indep (f g : Node H V -> Node H V) p q l :
  indep p q ->
  modify_node f p (modify_node g q l) = modify_node g q (modify_node f p l).
Proof.
  revert q l. induction p as [|i p IH]; intros q l Hi; [done|].
  destruct q as [|j q]; [done|]. simpl in Hi. destruct (decide (i = j)) as [<-|Hij].
  - destruct Hi as [|Hi]; [done|]. destruct p as [|i' p]; [done|]. destruct q as [|j' q]; [done|].
    rewrite !(modify_node_cons _ i (i' :: p)), !(modify_node_cons _ i (j' :: q)) by done.
    rewrite !list_alter_alter_eq. apply list_alter_ext; [|done]. intros n _.
    unfold compose. by rewrite !children_set, !set_children_set, IH.
  - assert (forall p' (h : Node H V -> Node H V) i', exists h',
        forall l', modify_node h (i' :: p') l' = alter h' i' l') as Halter.
    { intros [|k p'] h i'; eexists; intros; [done|]. by rewrite modify_node_cons. }
    destruct (Halter p f i) as [f' Hf], (Halter q g j) as [g' Hg].
    rewrite !Hf, !Hg. by apply list_alter_alter_ne.
Qed.

Lemma indep_sym p q : indep p q -> indep q p.
Proof. revert q. induction p as [|i p IH]; intros [|j q]; simpl; naive_solver. Qed.

Lemma indep_app p q r : indep p q -> indep (p ++ r) q.
Proof. revert q. induction p as [|i p IH]; intros [|j q]; simpl; naive_solver. Qed.

Lemma indep_siblings p i j : i <> j -> indep (p ++ [i]) (p ++ [j]).
Proof. induction p as [|k p IH]; simpl; naive_solver. Qed.

Lemma get_node_nodes p l n : get_node l p = Some n -> n ∈ nodes l.
Proof.
  revert l. induction p as [|i p IH]; intros l Hn; [done|]. destruct p as [|j p].
  - apply nodes_root. by eapply list_elem_of_lookup_2.
  - rewrite get_node_cons in Hn by done. destruct (l !! i) as [m|] eqn:Hm; [|done].
    eapply nodes_children_in; [by eapply list_elem_of_lookup_2|by apply IH].
Qed.

End paths.

(** ** Rebalancing *)

Section rebalance.
Context {H : Type} `{!EqDecision H} {V : Type}.
Implicit Types (n : Node H V) (l : list (Node H V)).

(** The children of every node, deepest branch first. *)
Fixpoint balance (n : Node H V) : Node H V :=
  set_children (sort_by (fun a b => depth b <=? depth a) (map balance (children n))) n.
Definition balance_forest (l : list (Node H V)) : list (Node H V) :=
  sort_by (fun a b => depth b <=? depth a) (map balance l).

Lemma sort_by_depth_eq l : sort_by_depth l = sort_by (fun a b => depth b <=? depth a) l.
Proof.
  unfold sort_by_depth.
  rewrite <- (map_id l) at 1. rewrite (sort_by_map id (fun a b => depth b <=? depth a)).
  - by rewrite map_id.
  - intros. by rewrite !max_depth_depth.
Qed.

Lemma balance_unfold n : balance n = set_children (balance_forest (children n)) n.
Proof. by destruct n. Qed.

Lemma depth_balance n : depth (balance n) = depth n.
Proof.
  tree_induction n. rewrite balance_unfold, !depth_unfold. simpl.
  apply max_list_perm. unfold balance_forest. rewrite sort_by_perm, map_map.
  apply Permutation_refl', map_ext_in. intros c Hc. by rewrite IHl by by apply list_elem_of_In.
Qed.

(** Sorting before or after the subtrees are rebalanced is the same. *)
Lemma balance_forest_sort l : balance_forest l = map balance (sort_by_depth l).
Proof.
  rewrite sort_by_depth_eq. apply sort_by_map. intros. by rewrite !depth_balance.
Qed.

Definition sort_children n : Node H V := set_children (sort_by_depth (children n)) n.
Definition child_paths (p : list nat) (k : nat) : list (list nat) :=
  rev (map (fun i => p ++ [i]) (seq 0 k)).

Lemma balance_by_children p l n :
  get_node l p = Some n -> p <> [] ->
  foldr (modify_node balance) (modify_node sort_children p l)
    (child_paths p (length (children n))) = modify_node balance p l.
Proof.
  intros Hn Hp. unfold child_paths. rewrite <- map_rev.
  assert (forall ks k, foldr (modify_node balance) (modify_node sort_children p k)
            (map (fun i => p ++ [i]) ks) =
          modify_node (fun n => set_children
            (foldr (fun i => alter balance i) (sort_by_depth (children n)) ks) n) p k) as Hmap.
  { intros ks k. induction ks as [|i ks IH]; [done|]. simpl.
    rewrite IH, modify_node_snoc, modify_node_compose by done. done. }
  rewrite Hmap. apply modify_node_ext. intros m Hm. assert (m = n) as -> by congruence.
  rewrite balance_unfold, balance_forest_sort.
  replace (length (children n)) with (length (sort_by_depth (children n)))
    by (by rewrite sort_by_depth_eq, sort_by_length).
  by rewrite foldr_alter_seq.
Qed.

Lemma foldr_modify_indep (f g : Node H V -> Node H V) p st l :
  Forall (indep p) st ->
  foldr (modify_node f) (modify_node g p l) st = modify_node g p (foldr (modify_node f) l st).
Proof.
  induction 1 as [|q st Hq Hst IH]; [done|]. simpl. rewrite IH.
  by rewrite (modify_modify_indep g) by done.
Qed.

Lemma foldr_get_indep (f : Node H V -> Node H V) p st l :
  Forall (indep p) st -> get_node (foldr (modify_node f) l st) p = get_node l p.
Proof.
  induction 1 as [|q st Hq Hst IH]; [done|]. simpl.
  by rewrite get_modify_indep by by apply indep_sym.
Qed.

(** The references on the stack: valid and on different branches. *)
Definition stack_ok l (st : list (list nat)) : Prop :=
  Forall (fun p => p <> [] /\ is_Some (get_node l p)) st /\ ForallOrdPairs indep st.
Definition stack_size l (st : list (list nat)) : nat :=
  list_sum (map (fun p => from_option node_size 0 (get_node l p)) st).

Lemma stack_size_indep f p st l :
  Forall (indep p) st -> stack_size (modify_node f p l) st = stack_size l st.
Proof.
  unfold stack_size. induction 1 as [|q st Hq Hst IH]; [done|]. simpl.
  by rewrite IH, get_modify_indep.
Qed.

Lemma stack_size_app l st st' : stack_size l (st ++ st') = stack_size l st + stack_size l st'.
Proof. unfold stack_size. by rewrite map_app, list_sum_app. Qed.

Lemma elem_of_child_paths p k q :
  q ∈ child_paths p k -> exists i, q = p ++ [i] /\ i < k.
Proof.
  unfold child_paths. rewrite list_elem_of_In, <- in_rev, in_map_iff.
  intros (i & <- & Hi%in_seq). exists i. split; [done|lia].
Qed.

Lemma child_paths_indep p k : ForallOrdPairs indep (child_paths p k).
Proof.
  unfold child_paths. induction k as [|k IH]; [constructor|].
  rewrite seq_S, map_app, rev_app_distr. simpl. constructor; [|done].
  apply Forall_forall. intros q (i & -> & Hi)%elem_of_child_paths.
  apply indep_siblings. lia.
Qed.

Lemma ForallOrdPairs_app {A} (R : A -> A -> Prop) (l k : list A) :
  ForallOrdPairs R l -> ForallOrdPairs R k -> (forall x y, x ∈ l -> y ∈ k -> R x y) ->
  ForallOrdPairs R (l ++ k).
Proof.
  intros Hl Hk HR. induction Hl as [|x l Hx Hl IH]; [done|]. simpl. constructor.
  - apply Forall_app; split; [done|]. apply Forall_forall. intros. apply HR; [by left|done].
  - apply IH. intros. apply HR; [by right|done].
Qed.

Lemma stack_size_children p l n :
  get_node l p = Some n -> p <> [] ->
  stack_size (modify_node sort_children p l) (child_paths p (length (children n))) =
  forest_size (children n).
Proof.
  intros Hn Hp. unfold stack_size, child_paths.
  assert (forest_size (children n) = forest_size (sort_by_depth (children n))) as ->.
  { apply forest_size_perm. by rewrite sort_by_depth_eq, sort_by_perm. }
  assert (length (children n) = length (sort_by_depth (children n))) as ->.
  { by rewrite sort_by_depth_eq, sort_by_length. }
  rewrite <- forest_size_rev, map_rev, map_map. unfold forest_size. rewrite map_rev.
  do 2 f_equal. etrans; [|exact (map_seq_lookup (from_option node_size 0) _)].
  apply map_ext. intros i. by rewrite get_node_snoc, (get_modify_eq sort_children _ _ _ Hn).
Qed.

Lemma rebalance_step l p st :
  stack_ok l (p :: st) ->
  exists n, get_node l p = Some n /\
    let l' := modify_node sort_children p l in
    let st' := child_paths p (length (children n)) ++ st in
    stack_ok l' st' /\
    foldr (modify_node balance) l' st' = foldr (modify_node balance) l (p :: st) /\
    stack_size l' st' < stack_size l (p :: st).
Proof.
  intros [[[Hp [n Hn]] Hst]%Forall_cons Hind]. inversion_clear Hind as [|? ? Hps Hind'].
  exists n. split; [done|]. split_and!.
  - split.
    + apply Forall_app; split.
      * apply Forall_forall. intros q (i & -> & Hi)%elem_of_child_paths.
        split; [by destruct p|].
        rewrite get_node_snoc, (get_modify_eq _ _ _ _ Hn) by done. simpl.
        apply lookup_lt_is_Some. by rewrite sort_by_depth_eq, sort_by_length.
      * rewrite Forall_forall in *. intros q Hq. specialize (Hst q Hq).
        by rewrite get_modify_indep by by apply Hps.
    + apply ForallOrdPairs_app; [apply child_paths_indep|done|].
      intros ? q (i & -> & _)%elem_of_child_paths Hq. apply indep_app.
      by rewrite Forall_forall in Hps; apply Hps.
  - rewrite foldr_app, foldr_modify_indep by done. simpl.
    apply balance_by_children; [|done]. by rewrite foldr_get_indep.
  - rewrite stack_size_app, stack_size_children, stack_size_indep by done.
    unfold stack_size at 2. simpl. rewrite Hn. simpl. rewrite node_size_unfold.
    unfold stack_size. lia.
Qed.

Lemma stack_size_roots l :
  stack_size l (rev (map (fun i => [i]) (seq 0 (length l)))) = forest_size l.
Proof.
  unfold stack_size. rewrite <- forest_size_rev, map_rev, map_map.
  unfold forest_size. rewrite map_rev. do 2 f_equal.
  exact (map_seq_lookup (from_option node_size 0) l).
Qed.

Lemma stack_ok_roots l : stack_ok l (rev (map (fun i => [i]) (seq 0 (length l)))).
Proof.
  split; [|apply (child_paths_indep [])].
  apply Forall_forall. intros q (i & -> & Hi)%(elem_of_child_paths []).
  split; [done|]. by apply lookup_lt_is_Some.
Qed.

(** [rebalance] never fails and sorts the children of every node. *)
Lemma rebalance_eq {E} (t : ForkTree H V) :
  rebalance (E := E) t = (set_roots (balance_forest (roots t)) t, Ok tt).
Proof.
  set (l := sort_by_depth (roots t)).
  set (st := rev (map (fun i => [i]) (seq 0 (length l)))).
  assert (foldr (modify_node balance) l st = balance_forest (roots t)) as Hfin.
  { unfold st. rewrite <- map_rev, balance_forest_sort.
    rewrite <- (foldr_alter_seq balance). fold l.
    by induction (rev (seq 0 (length l))) as [|i ks IH]; simpl; [|rewrite IH]. }
  enough (post (loop (E := E) (S (forest_size l)) rebalance_body (l, st))
            (fun r => r = balance_forest (roots t)) (fun _ => False)) as Hp.
  { unfold rebalance, get_state, lift, put_state, bindM. fold l st.
    destruct (loop _ _ _); simpl in Hp; naive_solver. }
  apply (loop_post _
    (fun s => stack_ok s.1 s.2 /\ foldr (modify_node balance) s.1 s.2 = balance_forest (roots t))
    (fun s => stack_size s.1 s.2)).
  - intros [k [|p st']]; simpl; [naive_solver|]. intros [Hok Heq].
    destruct (rebalance_step k p st' Hok) as (n & Hn & Hok' & Heq' & Hlt).
    rewrite Hn. simpl. split; [|done]. split; [done|]. etrans; [exact Heq'|done].
  - split; [apply stack_ok_roots|done].
  - simpl. unfold st. rewrite stack_size_roots. lia.
Qed.

Lemma balance_nodes_entry n : map node_entry (preorder (balance n)) ≡ₚ map node_entry (preorder n).
Proof.
  tree_induction n. rewrite !preorder_unfold, balance_unfold. simpl. constructor.
  unfold balance_forest. rewrite (nodes_perm _ (map balance l)) by apply sort_by_perm.
  induction l as [|c l IH]; [done|]. simpl. rewrite !nodes_cons.
  specialize (IHl c ltac:(by left)) as Hc. rewrite !preorder_unfold in Hc.
  rewrite !app_comm_cons, !map_app, <- Hc, <- !preorder_unfold.
  apply Permutation_app_head, IH. intros x Hx. apply IHl. by right.
Qed.

Lemma balance_forest_entries l :
  map node_entry (nodes (balance_forest l)) ≡ₚ map node_entry (nodes l).
Proof.
  unfold balance_forest. rewrite (nodes_perm _ (map balance l)) by apply sort_by_perm.
  induction l as [|c l IH]; [done|]. simpl. rewrite !nodes_cons.
  pose proof (balance_nodes_entry c) as Hc. rewrite !preorder_unfold in Hc.
  by rewrite !app_comm_cons, !map_app, Hc, IH.
Qed.

End rebalance.

(** ** Search *)

Section search.
Context {H : Type} `{!EqDecision H} {V E : Type} (is_descendent_of : H -> H -> E + bool).
Context (h : H) (num : N) (predicate : V -> bool).
Implicit Types (n : Node H V) (l : list (Node H V)).

(** The search by recursion: [None] when [h] does not descend from the tree,
    [Some None] when it does but no ancestor of [h] passes the predicate, else the
    path below the node to the deepest ancestor that does. *)
Definition search_children (search : Node H V -> outcome (Error E) (option (option (list nat)))) :=
  fix go (i : nat) (l : list (Node H V)) : outcome (Error E) (option (nat * option (list nat))) :=
    match l with
    | [] => Ok None
    | c :: l' =>
        if (number c <? num)%N then
          let! r := search c in
          match r with
          | Some o => Ok (Some (i, o))
          | None => go (S i) l'
          end
        else go (S i) l'
    end.

Definition here n : option (list nat) := if predicate (data n) then Some [] else None.

Fixpoint search (n : Node H V) : outcome (Error E) (option (option (list nat))) :=
  let! r := search_children search 0 (children n) in
  match r with
  | Some (i, Some p) => Ok (Some (Some (i :: p)))
  | Some (_, None) => Ok (Some (here n))
  | None =>
      let! d := descends is_descendent_of (hash n) h in
      Ok (if d then Some (here n) else None)
  end.

Fixpoint search_roots (i : nat) (l : list (Node H V)) : outcome (Error E) (option (list nat)) :=
  match l with
  | [] => Ok None
  | root :: l' =>
      if (num <=? number root)%N then search_roots (S i) l'
      else
        let! r := search root in
        match r with
        | Some (Some p) => Ok (Some (i :: p))
        | Some None => Ok None
        | None => search_roots (S i) l'
        end
  end.

Lemma search_unfold n :
  search n =
  let! r := search_children search 0 (children n) in
  match r with
  | Some (i, Some p) => Ok (Some (Some (i :: p)))
  | Some (_, None) => Ok (Some (here n))
  | None =>
      let! d := descends is_descendent_of (hash n) h in
      Ok (if d then Some (here n) else None)
  end.
Proof. by destruct n. Qed.

Notation body := (find_inner_body is_descendent_of h num predicate).

(** The machine ends within [k] rounds, with the result [v] when of its final
    stack only the child indices are kept. *)
Definition view (x : list (Node H V * nat) * bool * bool) : list nat * bool * bool :=
  (map (fun y => pred (snd y)) x.1.1, x.1.2, x.2).
Definition vends k s (v : outcome (Error E) (list nat * bool * bool)) : Prop :=
  exists o, ends body k s o /\ (let! x := o in Ok (view x)) = v.

Lemma vends_step k s s' v : body s = Ok (Continue s') -> vends k s' v -> vends (S k) s v.
Proof. intros Hs (o & Ho & Hv). exists o. split; [by eapply ends_step|done]. Qed.

Lemma vends_mono k k' s v : k <= k' -> vends k s v -> vends k' s v.
Proof. intros Hk (o & Ho & Hv). exists o. split; [by eapply ends_mono|done]. Qed.

(** What is left to show, after a node was searched with [r] as the result, for
    the machine to end with [v]; and after some children of [n] were searched. *)
Definition resume (r : outcome (Error E) (option (option (list nat)))) st k
    (v : outcome (Error E) (list nat * bool * bool)) : Prop :=
  match r with
  | Ok None => vends k (st, false) v
  | Ok (Some None) => vends k (st, true) v
  | Ok (Some (Some p)) => v = Ok (rev p ++ map (fun y => pred (snd y)) st, true, true)
  | Err e => v = Err e
  | Panic | Diverge => False
  end.

Definition resume_children (r : outcome (Error E) (option (nat * option (list nat)))) n st k
    (v : outcome (Error E) (list nat * bool * bool)) : Prop :=
  match r with
  | Ok None => vends k ((n, length (children n)) :: st, false) v
  | Ok (Some (j, None)) => vends k ((n, S j) :: st, true) v
  | Ok (Some (j, Some p)) => v = Ok (rev p ++ j :: map (fun y => pred (snd y)) st, true, true)
  | Err e => v = Err e
  | Panic | Diverge => False
  end.

Definition simulates n : Prop := forall st k v,
  resume (search n) st k v -> vends (2 * node_size n - 1 + k) ((n, 0) :: st, false) v.

Lemma node_size_pos n : 0 < node_size n.
Proof. rewrite node_size_unfold. lia. Qed.

(** One round: advance to child [i] of the node on top. *)
Lemma step_child n i c st k v :
  children n !! i = Some c ->
  vends k (if (number c <? num)%N then (c, 0) :: (n, S i) :: st else (n, S i) :: st, false) v ->
  vends (S k) ((n, i) :: st, false) v.
Proof.
  intros Hc He. eapply vends_step; [|exact He]. simpl.
  assert (i < length (children n)) as Hi by by eapply lookup_lt_Some.
  rewrite (proj2 (Nat.ltb_lt _ _) Hi). simpl. by rewrite Hc.
Qed.

(** One round: a node known to be an ancestor. *)
Lemma step_ancestor n i st k v :
  resume (Ok (Some (here n))) st k v -> vends (S k) ((n, i) :: st, true) v.
Proof.
  unfold here. destruct (predicate (data n)) eqn:Hp; simpl.
  - intros ->. eexists. split; [eapply (ends_mono _ 1); [lia|apply ends_now]|].
    + simpl. rewrite andb_false_r. simpl. by rewrite Hp.
    + done.
  - apply vends_step. simpl. rewrite andb_false_r. simpl. by rewrite Hp.
Qed.

(** One round: all children of the node on top were visited in vain. *)
Lemma step_leave n i st k v :
  length (children n) <= i ->
  resume (let! d := descends is_descendent_of (hash n) h in
          Ok (if d then Some (here n) else None)) st k v ->
  vends (S k) ((n, i) :: st, false) v.
Proof.
  intros Hi Hr.
  assert (body ((n, i) :: st, false) =
    let! d := descends is_descendent_of (hash n) h in
    if d then if predicate (data n) then Ok (Break (st, true, true)) else Ok (Continue (st, true))
    else Ok (Continue (st, false))) as Hbody.
  { simpl. by rewrite (proj2 (Nat.ltb_ge _ _) Hi). }
  unfold descends in Hr, Hbody.
  destruct (is_descendent_of (hash n) h) as [e|[|]]; cbn [bind resume] in *.
  - subst v. eexists. split; [eapply (ends_mono _ 1); [lia|by apply ends_err]|done].
  - unfold here in Hr. destruct (predicate (data n)).
    + subst v. eexists. split; [eapply (ends_mono _ 1); [lia|by apply ends_now]|done].
    + by eapply vends_step.
  - by eapply vends_step.
Qed.

Lemma children_simulated n l :
  Forall simulates l -> forall i, drop i (children n) = l ->
  forall st k v, resume_children (search_children search i l) n st k v ->
    vends (2 * forest_size l + k) ((n, i) :: st, false) v.
Proof.
  intros Hl. induction Hl as [|c l Hc Hl IH]; intros i Hdrop st k v.
  - assert (length (children n) <= i) as Hlen.
    { apply (f_equal length) in Hdrop. rewrite length_drop in Hdrop. simpl in Hdrop. lia. }
    intros (o & [He Ho] & Hv). exists o. split; [|done]. split; [|done].
    destruct k as [|k]; simpl in *; [congruence|].
    rewrite (proj2 (Nat.ltb_ge _ _) Hlen). by rewrite Nat.ltb_irrefl in He.
  - assert (children n !! i = Some c) as Hi.
    { rewrite <- (Nat.add_0_r i), <- lookup_drop, Hdrop. done. }
    assert (drop (S i) (children n) = l) as Hdrop'.
    { rewrite <- Nat.add_1_r, <- drop_drop, Hdrop. done. }
    specialize (IH (S i) Hdrop' st k v). pose proof (node_size_pos c) as Hpos.
    rewrite forest_size_cons. rewrite node_size_unfold in Hpos.
    intros Hr. eapply vends_mono; [|apply (step_child n i c st (2 * node_size c - 1 +
      (2 * forest_size l + k)) v Hi)]; [rewrite node_size_unfold; lia|].
    simpl in Hr. destruct (number c <? num)%N; [|eapply vends_mono; [|by apply IH]; lia].
    apply Hc. destruct (search c) as [[[p|]|]|e| |]; simpl in *; [done| |by apply IH|done..].
    eapply vends_mono; [|exact Hr]. lia.
Qed.

Lemma node_simulated n : simulates n.
Proof.
  tree_induction n. set (n := mkNode _ _ _ l). intros st k v Hr.
  assert (node_size n = S (forest_size l)) as -> by apply node_size_unfold.
  eapply vends_mono; [|eapply (children_simulated n l); [by apply Forall_forall|done|]];
    [instantiate (1 := S k); lia|].
  rewrite search_unfold in Hr. simpl in Hr.
  destruct (search_children search 0 l) as [[[j [p|]]|]|e| |]; simpl in *; [| | |done..].
  - by rewrite <- app_assoc in Hr.
  - by apply step_ancestor.
  - by apply step_leave.
Qed.

Lemma search_total n : post (search n) (fun _ => True) (fun _ => True).
Proof.
  tree_induction n. rewrite search_unfold. simpl.
  assert (forall i, post (search_children search i l) (fun _ => True) (fun _ => True)) as Hl.
  { induction l as [|c l IH]; intros i; simpl; [done|].
    destruct (number c <? num)%N; [|apply IH; set_solver].
    specialize (IHl c ltac:(by left)) as Hc.
    destruct (search c) as [[|]| | |]; simpl; try done. apply IH. set_solver. }
  specialize (Hl 0). destruct (search_children search 0 l) as [[[? [?|]]|]| | |]; simpl; try done.
  unfold descends. by destruct (is_descendent_of _ _).
Qed.

Lemma find_outer_search i l : find_outer is_descendent_of h num predicate i l = search_roots i l.
Proof.
  revert i. induction l as [|root l IH]; intros i; simpl; [done|].
  destruct (num <=? number root)%N; [apply IH|].
  pose proof (node_simulated root [] 1) as Hsim. pose proof (search_total root) as Htot.
  pose proof (node_size_pos root) as Hpos.
  assert (forall d, vends 1 ([], d) (Ok ([], false, d))) as Hempty.
  { intros d. eexists. split; [by apply ends_now|done]. }
  assert (forall v, vends (2 * node_size root - 1 + 1) ([(root, 0)], false) v ->
    exists o, loop (2 * node_size root + 1) body ([(root, 0)], false) = o /\
      (let! x := o in Ok (view x)) = v) as Hrun.
  { intros v Hv. eapply (vends_mono _ (2 * node_size root + 1)) in Hv; [|lia].
    destruct Hv as (o & [He _] & Hv). by exists o. }
  destruct (search root) as [[[p|]|]|e| |]; simpl in *; [| | | |done|done];
    edestruct Hrun as (o & -> & Ho);
    [by apply Hsim| |by apply Hsim, Hempty| |by apply Hsim, Hempty| |by apply Hsim|];
    destruct o as [[[st f] d]| | |]; simpl in *; simplify_eq; simpl; try done.
  by rewrite Ho, app_nil_r, rev_involutive.
Qed.

End search.

(** ** Level order *)

Section rebuild.
Context {H V : Type}.
Implicit Types (n : Node H V) (out : list (N * Node H V)).

Lemma rebuild_nil {E} (rs : list (Node H V)) : rebuild (E := E) [] rs = Ok rs.
Proof. done. Qed.

Lemma rebuild_snoc {E} out p n rs :
  rebuild (E := E) (out ++ [(p, n)]) rs =
  if (p =? usize_MAX)%N then rebuild out (rs ++ [n])
  else if N.to_nat p <? length out then
    rebuild (alter (fun x => (x.1, set_children (children x.2 ++ [n]) x.2)) (N.to_nat p) out) rs
  else Panic.
Proof.
  unfold rebuild. rewrite length_app, Nat.add_1_r. cbn [loop]. unfold rebuild_body at 1.
  rewrite last_snoc, length_app. simpl length. replace (length out + 1 - 1) with (length out) by lia.
  rewrite take_app_length. destruct (p =? usize_MAX)%N; [done|]. rewrite length_alter.
  destruct (Nat.ltb_spec (N.to_nat p) (length out)) as [Hp|Hp].
  - apply lookup_lt_is_Some in Hp as [x Hx]. by rewrite Hx.
  - apply lookup_ge_None in Hp. by rewrite Hp.
Qed.

(** The children at the end of the vector go to their parent, in order. *)
Lemma rebuild_attach {E} pre p n post cs rs :
  (N.of_nat (length pre) < usize_MAX)%N ->
  rebuild (E := E)
    (pre ++ (p, n) :: post ++ map (fun c => (N.of_nat (length pre), c)) (rev cs)) rs =
  rebuild (pre ++ (p, set_children (children n ++ cs) n) :: post) rs.
Proof.
  intros Hlt. revert n. induction cs as [|c cs IH]; intros n; simpl.
  - by rewrite !app_nil_r, set_children_id.
  - rewrite map_app. simpl. rewrite app_comm_cons, !app_assoc, <- (app_assoc pre).
    rewrite rebuild_snoc, (proj2 (N.eqb_neq _ _)), Nat2N.id by lia.
    rewrite length_app. simpl.
    rewrite (proj2 (Nat.ltb_lt _ _)) by lia.
    rewrite alter_app_middle. simpl. rewrite IH, children_set, set_children_set.
    by rewrite <- app_assoc.
Qed.

Lemma rebuild_roots {E} (l rs : list (Node H V)) :
  rebuild (E := E) (map (fun n => (usize_MAX, n)) (rev l)) rs = Ok (rs ++ l).
Proof.
  revert rs. induction l as [|n l IH]; intros rs; simpl; [by rewrite app_nil_r|].
  rewrite map_app. simpl. rewrite rebuild_snoc, N.eqb_refl, IH. by rewrite <- app_assoc.
Qed.

End rebuild.

(** The nodes of a queue, with their subtrees transformed. *)
Definition images {H V W} (keep : Node H V -> option (Node H W)) (queue : list (N * Node H V))
  : list (N * Node H W) :=
  flat_map (fun x => map (fun n => (x.1, n)) (option_list (keep x.2))) queue.

Lemma images_app {H V W} (keep : Node H V -> option (Node H W)) q q' :
  images keep (q ++ q') = images keep q ++ images keep q'.
Proof. apply flat_map_app. Qed.

Lemma images_siblings {H V W} (keep : Node H V -> option (Node H W)) k l :
  images keep (map (fun c => (k, c)) (rev l)) =
  map (fun c => (k, c)) (rev (flat_map (fun c => option_list (keep c)) l)).
Proof.
  induction l as [|c l IH]; [done|]. simpl.
  rewrite map_app, images_app, IH, rev_app_distr, map_app. f_equal.
  unfold images. simpl. rewrite app_nil_r. by destruct (keep c).
Qed.

(** ** [map] *)

Section map.
Context {H V W S : Type} (g : H -> N -> V -> W).

Fixpoint map_node (n : Node H V) : Node H W :=
  mkNode (hash n) (number n) (g (hash n) (number n) (data n)) (map map_node (children n)).

Definition pure_fn (st : S) (h : H) (num : N) (d : V) : S * W := (st, g h num d).

Lemma map_node_unfold n :
  map_node n =
  set_children ([] ++ flat_map (fun c => option_list (Some (map_node c))) (children n))
    (mkNode (hash n) (number n) (g (hash n) (number n) (data n)) []).
Proof.
  destruct n as [h num d l]. unfold set_children. simpl. f_equal.
Qed.

Lemma map_level_spec {E} st (output : list (N * Node H W)) next_queue queue :
  (N.of_nat (length output + length queue) <= usize_MAX)%N ->
  let r := map_level pure_fn st output next_queue queue in
  r.1.1 = st /\ length r.1.2 = length output + length queue /\
  forest_size (map snd r.2) + length queue =
    forest_size (map snd next_queue) + forest_size (map snd queue) /\
  forall rs, rebuild (E := E) (r.1.2 ++ images (Some ∘ map_node) r.2) rs =
    rebuild (output ++ images (Some ∘ map_node) queue ++ images (Some ∘ map_node) next_queue) rs.
Proof.
  revert output next_queue.
  induction queue as [|[p n] queue IH]; intros output next_queue Hlt; simpl.
  { split_and!; auto with lia. }
  specialize (IH (output ++ [(p, mkNode (hash n) (number n) (g (hash n) (number n) (data n)) [])])
    (next_queue ++ map (fun c => (N.of_nat (length output), c)) (rev (children n)))).
  rewrite length_app in IH. simpl in Hlt, IH.
  destruct IH as (Hst & Hlen & Hsize & Hre); [lia|]. split_and!; [done|lia| |].
  - rewrite forest_size_cons. rewrite map_app, forest_size_app, map_map in Hsize. simpl in Hsize.
    rewrite map_id, forest_size_rev in Hsize. lia.
  - intros rs. rewrite Hre, images_app, images_siblings, map_node_unfold, <- app_assoc. simpl.
    rewrite (app_assoc (images _ queue)). apply rebuild_attach. lia.
Qed.

Lemma map_tree_eq {E} st (t : ForkTree H V) :
  (N.of_nat (forest_size (roots t)) < usize_MAX)%N ->
  map_tree (E := E) pure_fn st t =
  Ok (st, mkForkTree (map map_node (roots t)) (best_finalized_number t)).
Proof.
  intros Hsize. unfold map_tree.
  set (q0 := map (fun node => (usize_MAX, node)) (rev (roots t))).
  enough (post (loop (E := E) (Datatypes.S (forest_size (roots t))) (map_body pure_fn) (st, [], q0))
    (fun x => x.1 = st /\ rebuild (E := E) x.2 [] = Ok (map map_node (roots t))) (fun _ => False)) as Hp.
  { destruct (loop _ _ _) as [[st' out]| | |]; simpl in *; [|done..].
    destruct Hp as [-> ->]. done. }
  assert (forest_size (map snd q0) = forest_size (roots t)) as Hq0.
  { unfold q0. rewrite map_map. simpl. by rewrite map_id, forest_size_rev. }
  apply (loop_post _
    (fun s => s.1.1 = st /\ length s.1.2 + forest_size (map snd s.2) <= forest_size (roots t) /\
       rebuild (E := E) (s.1.2 ++ images (Some ∘ map_node) s.2) [] = Ok (map map_node (roots t)))
    (fun s => forest_size (map snd s.2))).
  - intros [[st' out] queue] (Hst & Hlen & Hre). simpl in *.
    destruct queue as [|x queue]; [by rewrite app_nil_r in Hre|]. cbn [post].
    assert (length (x :: queue) <= forest_size (map snd (x :: queue))) as Hle.
    { clear. induction (x :: queue) as [|[? ?] ? IH]; simpl; [lia|].
      rewrite forest_size_cons. lia. }
    destruct (map_level_spec (E := E) st' out [] (x :: queue)) as (Hst' & Hlen' & Hsize' & Hre').
    { lia. }
    change (forest_size (map snd [])) with 0 in Hsize'. rewrite app_nil_r in Hre'.
    destruct (map_level _ _ _ _ _) as [[st'' out'] queue'] eqn:Elev. simpl fst in *. simpl snd in *.
    split; [split_and!|].
    + congruence.
    + simpl in *. lia.
    + rewrite Hre'. exact Hre.
    + simpl length in Hsize'. lia.
  - simpl. split_and!; [done|lia|].
    unfold q0. rewrite images_siblings, rebuild_roots. done.
  - simpl. lia.
Qed.

End map.

(** ** [drain_filter] *)

Section drain.
Context {H : Type} `{!EqDecision H} {V : Type} (filter : H -> N -> V -> FilterAction).
Implicit Types (n : Node H V) (l : list (Node H V)).

(** What is kept of a tree, and the subtrees taken out of it. *)
Fixpoint kept (n : Node H V) : option (Node H V) :=
  match filter (hash n) (number n) (data n) with
  | KeepNode => Some (set_children (flat_map (fun c => option_list (kept c)) (children n)) n)
  | KeepTree => Some n
  | Remove => None
  end.
Definition kept_forest l : list (Node H V) := flat_map (fun c => option_list (kept c)) l.

Fixpoint dropped (n : Node H V) : list (Node H V) :=
  match filter (hash n) (number n) (data n) with
  | KeepNode => flat_map dropped (children n)
  | KeepTree => []
  | Remove => [n]
  end.

Lemma kept_unfold n :
  kept n =
  match filter (hash n) (number n) (data n) with
  | KeepNode => Some (set_children (kept_forest (children n)) n)
  | KeepTree => Some n
  | Remove => None
  end.
Proof. by destruct n. Qed.

Lemma dropped_unfold n :
  dropped n =
  match filter (hash n) (number n) (data n) with
  | KeepNode => flat_map dropped (children n)
  | KeepTree => []
  | Remove => [n]
  end.
Proof. by destruct n. Qed.

Lemma flat_map_rev_perm {A B} (f : A -> list B) (l : list A) : flat_map f (rev l) ≡ₚ flat_map f l.
Proof. by rewrite !flat_map_concat_map, <- Permutation_rev. Qed.

Lemma drain_level_spec {E} retained removed next_queue queue :
  (N.of_nat (length retained + length queue) <= usize_MAX)%N ->
  let r := drain_level filter retained removed next_queue queue in
  length r.1.1 <= length retained + length queue /\
  forest_size (map snd r.2) + length queue <=
    forest_size (map snd next_queue) + forest_size (map snd queue) /\
  r.1.2 ++ flat_map (dropped ∘ snd) r.2 ≡ₚ
    removed ++ flat_map (dropped ∘ snd) queue ++ flat_map (dropped ∘ snd) next_queue /\
  forall rs, rebuild (E := E) (r.1.1 ++ images kept r.2) rs =
    rebuild (retained ++ images kept queue ++ images kept next_queue) rs.
Proof.
  revert retained removed next_queue.
  induction queue as [|[p n] queue IH]; intros retained removed next_queue Hlt; simpl.
  { split_and!; auto with lia. }
  simpl in Hlt. unfold images at 2. simpl. rewrite kept_unfold, dropped_unfold, forest_size_cons.
  destruct (filter (hash n) (number n) (data n)).
  - destruct (IH retained (removed ++ [n]) next_queue) as (Hlen & Hsize & Hperm & Hre); [lia|].
    split_and!; [lia|lia| |done]. by rewrite Hperm, <- app_assoc.
  - destruct (IH (retained ++ [(p, set_children [] n)]) removed
      (next_queue ++ map (fun c => (N.of_nat (length retained), c)) (rev (children n))))
      as (Hlen & Hsize & Hperm & Hre); [rewrite length_app; simpl; lia|].
    rewrite length_app in Hlen. simpl in Hlen.
    rewrite map_app, forest_size_app, map_map in Hsize. simpl in Hsize.
    rewrite map_id, forest_size_rev in Hsize.
    split_and!; [lia|lia| |].
    + rewrite Hperm, flat_map_app. apply Permutation_app_head.
      rewrite <- (flat_map_rev_perm dropped (children n)).
      rewrite (flat_map_concat_map (dropped ∘ snd) (map _ _)), map_map, <- flat_map_concat_map.
      unfold compose at 3. simpl. solve_Permutation.
    + intros rs. rewrite Hre, images_app, images_siblings, <- app_assoc. simpl.
      rewrite (app_assoc (images _ queue)), rebuild_attach by lia. done.
  - destruct (IH (retained ++ [(p, n)]) removed next_queue) as (Hlen & Hsize & Hperm & Hre);
      [rewrite length_app; simpl; lia|].
    rewrite length_app in Hlen. simpl in Hlen. split_and!; [lia|lia|done|].
    intros rs. by rewrite Hre, <- app_assoc.
Qed.

Lemma drain_loop_spec {E} (rs : list (Node H V)) :
  (N.of_nat (forest_size rs) < usize_MAX)%N ->
  post (loop (E := E) (S (forest_size rs)) (drain_body filter)
          ([], [], map (fun node => (usize_MAX, node)) (rev rs)))
    (fun x => rebuild (E := E) x.1 [] = Ok (kept_forest rs) /\
       x.2 ≡ₚ flat_map dropped rs) (fun _ => False).
Proof.
  intros Hsize. set (q0 := map (fun node => (usize_MAX, node)) (rev rs)).
  assert (forest_size (map snd q0) = forest_size rs) as Hq0.
  { unfold q0. rewrite map_map. simpl. by rewrite map_id, forest_size_rev. }
  apply (loop_post _
    (fun s => length s.1.1 + forest_size (map snd s.2) <= forest_size rs /\
       s.1.2 ++ flat_map (dropped ∘ snd) s.2 ≡ₚ flat_map dropped rs /\
       rebuild (E := E) (s.1.1 ++ images kept s.2) [] = Ok (kept_forest rs))
    (fun s => forest_size (map snd s.2))).
  - intros [[retained removed] queue] (Hlen & Hperm & Hre). simpl in *.
    destruct queue as [|x queue]; [by simpl in *; rewrite app_nil_r in *|]. cbn [post].
    assert (length (x :: queue) <= forest_size (map snd (x :: queue))) as Hle.
    { clear. induction (x :: queue) as [|[? ?] ? IH]; simpl; [lia|].
      rewrite forest_size_cons. lia. }
    destruct (drain_level_spec (E := E) retained removed [] (x :: queue))
      as (Hlen' & Hsize' & Hperm' & Hre'); [lia|].
    change (forest_size (map snd [])) with 0 in Hsize'. rewrite app_nil_r in Hre', Hperm'.
    destruct (drain_level _ _ _ _ _) as [[retained' removed'] queue'] eqn:Elev.
    simpl fst in *. simpl snd in *. split; [split_and!|].
    + simpl in *. lia.
    + by rewrite Hperm'.
    + rewrite Hre'. exact Hre.
    + simpl length in Hsize'. lia.
  - simpl. split_and!; [lia| |].
    + unfold q0. rewrite flat_map_concat_map, map_map, <- flat_map_concat_map.
      apply flat_map_rev_perm.
    + unfold q0. by rewrite images_siblings, rebuild_roots.
  - simpl. lia.
Qed.

Lemma drain_filter_eq {E} (t : ForkTree H V) :
  (N.of_nat (forest_size (roots t)) < usize_MAX)%N ->
  exists removed, removed ≡ₚ flat_map dropped (roots t) /\
    drain_filter (E := E) filter t =
    (set_roots (if length removed =? 0 then kept_forest (roots t)
                else balance_forest (kept_forest (roots t))) t, Ok removed).
Proof.
  intros Hsize. pose proof (drain_loop_spec (E := E) (roots t) Hsize) as Hp.
  unfold drain_filter, get_state, put_state, lift, ret, bindM.
  destruct (loop _ _ _) as [[retained removed]| | |]; simpl in *; [|done..].
  destruct Hp as [Hre Hperm]. exists removed. split; [done|]. rewrite Hre.
  destruct (length removed =? 0); [done|]. by rewrite rebalance_eq.
Qed.

(** Nothing is lost: what is kept and what is taken out make up the forest. *)
Lemma kept_dropped_entries l :
  map node_entry (nodes (kept_forest l)) ++ map node_entry (nodes (flat_map dropped l)) ≡ₚ
  map node_entry (nodes l).
Proof.
  assert (forall n, map node_entry (nodes (option_list (kept n))) ++
    map node_entry (nodes (dropped n)) ≡ₚ map node_entry (preorder n) ->
    forall k, map node_entry (nodes (kept_forest k)) ++ map node_entry (nodes (flat_map dropped k)) ≡ₚ
      map node_entry (nodes k) ->
    map node_entry (nodes (kept_forest (n :: k))) ++
      map node_entry (nodes (flat_map dropped (n :: k))) ≡ₚ map node_entry (nodes (n :: k)))
    as Hcons.
  { intros n Hn k Hk. unfold kept_forest, nodes in *. simpl in *.
    rewrite !map_app, !concat_app, !map_app, <- Hn, <- Hk. solve_Permutation. }
  assert (forall n, map node_entry (nodes (option_list (kept n))) ++
    map node_entry (nodes (dropped n)) ≡ₚ map node_entry (preorder n)) as Hnode.
  { clear l. intros n. tree_induction n.
    rewrite kept_unfold, dropped_unfold, preorder_unfold. simpl.
    case_match; simpl; rewrite ?nodes_cons; simpl; rewrite ?app_nil_r; [done| |done].
    constructor. induction l as [|c l IH]; [done|]. apply Hcons; [apply IHl; by left|].
    apply IH. intros x Hx. apply IHl. by right. }
  induction l as [|n l IH]; [done|]. by apply Hcons.
Qed.

End drain.
