(* ===== verification/ForkTreeSpec.v ===== *)
(** * Correctness of the fork tree

    The clients of the fork tree pass [is_descendent_of], the ancestry of blocks in
    a chain of blocks. [Ancestry] states what such a relation satisfies; a forest is
    well formed when it agrees with it. Under these hypotheses the operations of
    [ForkTree] are given their meaning in terms of the set of blocks in the forest. *)

From S2P Require Import Prelude ForkTree ForkTreeLoops.

#[local] Arguments get_node : simpl never.
#[local] Arguments modify_node : simpl never.

(** ** Ancestry *)

(** [anc a b]: the block [b] is a strict descendant of [a]. The ancestors of a block
    form a chain, and numbers grow along it. *)
Class Ancestry {H : Type} (anc : H -> H -> bool) (height : H -> N) : Prop := {
  anc_trans a b c : anc a b = true -> anc b c = true -> anc a c = true;
  anc_chain a b c : anc a c = true -> anc b c = true -> a = b \/ anc a b = true \/ anc b a = true;
  anc_height a b : anc a b = true -> (height a < height b)%N
}.

(** Blocks named by the branch that leads to them: the model of [Ancestry] used on
    concrete inputs. *)
Fixpoint strict_prefix (a b : list nat) : bool :=
  match a, b with
  | [], _ :: _ => true
  | x :: a', y :: b' => (x =? y) && strict_prefix a' b'
  | _, _ => false
  end.
Definition branch_height (b : list nat) : N := N.of_nat (length b).

#[export] Instance branch_ancestry : Ancestry strict_prefix branch_height.
Proof.
  assert (forall x y : nat, (x =? y) = true -> x = y) as Heqb by apply Nat.eqb_eq.
  split; unfold branch_height.
  - intros a. induction a as [|x a IH]; intros [|y b] [|z c]; simpl; try discriminate; try done.
    intros [->%Heqb Ha]%andb_prop [->%Heqb Hb]%andb_prop.
    rewrite Nat.eqb_refl. by eapply IH.
  - intros a. induction a as [|x a IH]; intros [|y b] [|z c]; simpl; try discriminate; try tauto.
    intros [->%Heqb Ha]%andb_prop [->%Heqb Hb]%andb_prop. rewrite Nat.eqb_refl. simpl.
    destruct (IH b c Ha Hb) as [->|[|]]; tauto.
  - intros a. induction a as [|x a IH]; intros [|y b]; simpl; try discriminate; [lia|].
    intros [_ Ha]%andb_prop. specialize (IH b Ha). lia.
Qed.

Section spec.
Context {H : Type} `{!EqDecision H} {V E : Type}.
Context (anc : H -> H -> bool) (height : H -> N) `{!Ancestry anc height}.
Implicit Types (n r : Node H V) (l : list (Node H V)) (t : ForkTree H V).

Definition is_descendent_of (a b : H) : E + bool := inr (anc a b).

Lemma anc_irrefl a : anc a a = false.
Proof. destruct (anc a a) eqn:Ha; [|done]. apply anc_height in Ha. lia. Qed.

Lemma anc_asym a b : anc a b = true -> anc b a = false.
Proof.
  intros Hab. destruct (anc b a) eqn:Hba; [|done].
  apply anc_height in Hab, Hba. lia.
Qed.

Lemma descends_anc a b : descends (E := E) is_descendent_of a b = Ok (anc a b).
Proof. done. Qed.

(** ** Well-formed forests *)

Definition unrelated (a b : H) : Prop := a <> b /\ anc a b = false /\ anc b a = false.

(** Children descend from their parent; siblings are on different branches. *)
Inductive wf_node : Node H V -> Prop :=
| wf_node_intro n :
    number n = height (hash n) ->
    Forall (fun c => anc (hash n) (hash c) = true) (children n) ->
    ForallOrdPairs unrelated (map hash (children n)) ->
    Forall wf_node (children n) ->
    wf_node n.

Definition wf_forest l : Prop :=
  ForallOrdPairs unrelated (map hash l) /\ Forall wf_node l.

Definition wf t : Prop := wf_forest (roots t).

Lemma wf_children n : wf_node n -> wf_forest (children n).
Proof. inversion 1; done. Qed.

Lemma wf_number n : wf_node n -> number n = height (hash n).
Proof. inversion 1; done. Qed.

Lemma wf_child n c : wf_node n -> c ∈ children n -> anc (hash n) (hash c) = true.
Proof. inversion 1 as [? _ Hc _ _]; subst. rewrite Forall_forall in Hc. apply Hc. Qed.

Lemma unrelated_sym a b : unrelated a b -> unrelated b a.
Proof. unfold unrelated. naive_solver. Qed.

Lemma pairwise_elem (R : H -> H -> Prop) l n r :
  (forall a b, R a b -> R b a) -> ForallOrdPairs R (map hash l) -> n ∈ l -> r ∈ l ->
  n = r \/ R (hash n) (hash r).
Proof.
  intros Hsym. induction l as [|m l IH]; simpl; [set_solver|].
  inversion_clear 1 as [|? ? Hm Hl]. rewrite Forall_forall in Hm.
  rewrite !elem_of_cons. intros [->|Hn] [->|Hr]; [by left| | |by apply IH].
  - right. apply Hm. by apply list_elem_of_fmap_2.
  - right. apply Hsym, Hm. by apply list_elem_of_fmap_2.
Qed.

Lemma wf_siblings l n r :
  wf_forest l -> n ∈ l -> r ∈ l -> n = r \/ unrelated (hash n) (hash r).
Proof. intros [Hl _]. apply (pairwise_elem _ _ _ _ unrelated_sym Hl). Qed.

Lemma pairwise_perm (R : H -> H -> Prop) (l k : list H) :
  (forall a b, R a b -> R b a) -> l ≡ₚ k -> ForallOrdPairs R l -> ForallOrdPairs R k.
Proof.
  intros Hsym. induction 1 as [|x l k Hlk IH|x y l|]; intros Hl; [done| | |by auto].
  - inversion_clear Hl as [|? ? Hx Hl']. constructor; [|by apply IH]. by rewrite <- Hlk.
  - inversion_clear Hl as [|? ? Hy Hl']. inversion_clear Hl' as [|? ? Hx Hl].
    rewrite Forall_cons in Hy. destruct Hy as [Hyx Hy].
    repeat constructor; auto.
Qed.

Lemma wf_forest_perm l k : l ≡ₚ k -> wf_forest l -> wf_forest k.
Proof.
  intros Hlk [Hl Hw]. split; [|by rewrite <- Hlk].
  eapply pairwise_perm; [exact unrelated_sym| |exact Hl]. by apply Permutation_map.
Qed.

Lemma wf_forest_cons n l :
  wf_forest (n :: l) <->
  wf_node n /\ wf_forest l /\ (forall m, m ∈ l -> unrelated (hash n) (hash m)).
Proof.
  split.
  - intros [Hl Hw]. inversion_clear Hl as [|? ? Hn Hl']. inversion_clear Hw.
    split_and!; [done|by split|]. intros m Hm. rewrite Forall_forall in Hn. apply Hn.
    by apply list_elem_of_fmap_2.
  - intros (Hn & [Hl Hw] & Hu). split; [|by constructor]. constructor; [|done].
    apply Forall_forall. intros a (m & -> & Hm)%list_elem_of_fmap. by apply Hu.
Qed.

Lemma wf_nodes l n : wf_forest l -> n ∈ nodes l -> wf_node n.
Proof.
  intros [_ Hw] Hn. revert n Hn. apply nodes_ind.
  - by apply Forall_forall.
  - intros n c _ Hn Hc. apply wf_children in Hn as [_ Hn]. rewrite Forall_forall in Hn. by apply Hn.
Qed.

(** Below a node there are only descendants of it. *)
Lemma wf_below n : wf_node n -> forall m, m ∈ nodes (children n) -> anc (hash n) (hash m) = true.
Proof.
  intros Hn. apply nodes_ind.
  - intros c Hc. by apply wf_child.
  - intros m c Hm Hnm Hc. apply anc_trans with (hash m); [done|].
    eapply wf_child; [|done]. by eapply wf_nodes; [apply wf_children|].
Qed.

(** The root above a node. *)
Lemma wf_root_of l n :
  wf_forest l -> n ∈ nodes l ->
  exists r, r ∈ l /\ wf_node r /\
    (n = r \/ n ∈ nodes (children r) /\ anc (hash r) (hash n) = true).
Proof.
  intros Hl (r & Hr & Hn)%elem_of_nodes. exists r.
  assert (wf_node r) as Hwr by by eapply wf_nodes; [|by apply nodes_root].
  split_and!; [done|done|]. destruct Hn as [->|Hn]; [by left|right; by auto using wf_below].
Qed.

(** A descendant in the forest is found below its ancestor. *)
Lemma wf_subtree l n m :
  wf_forest l -> n ∈ nodes l -> m ∈ nodes l -> anc (hash n) (hash m) = true ->
  m ∈ nodes (children n).
Proof.
  remember (forest_size l) as k eqn:Hk. revert l Hk.
  induction k as [k IH] using lt_wf_ind. intros l -> Hl Hn Hm Hnm.
  destruct (wf_root_of l n Hl Hn) as (r & Hr & Hwr & Hrn).
  destruct (wf_root_of l m Hl Hm) as (r' & Hr' & Hwr' & Hrm).
  assert (anc (hash r) (hash m) = true) as Hrm'.
  { destruct Hrn as [->|[_ Hrn]]; [done|by eapply anc_trans]. }
  assert (r = r') as <-.
  { destruct (wf_siblings l r r' Hl Hr Hr') as [->|(Hne & Ha & Hb)]; [done|].
    destruct Hrm as [->|[_ Hrm]]; [congruence|].
    destruct (anc_chain _ _ _ Hrm' Hrm) as [|[|]]; congruence. }
  destruct Hrm as [->|[Hrm _]]; [by rewrite anc_irrefl in Hrm'|].
  destruct Hrn as [->|[Hrn _]]; [done|].
  assert (forest_size (children r) < forest_size l) as Hlt.
  { apply list_elem_of_split in Hr as (l1 & l2 & ->).
    rewrite forest_size_app, forest_size_cons. lia. }
  eapply IH; [exact Hlt|done|by apply wf_children|done..].
Qed.

(** ** Search *)

Section find.
Context (h : H) (predicate : V -> bool).
Notation search := (search (E := E) is_descendent_of h (height h) predicate).
Notation search_children := (search_children (E := E) (height h)).

(** The node a path below [n] leads to. *)
Definition get_from n (p : list nat) : option (Node H V) :=
  match p with [] => Some n | _ => get_node (children n) p end.

Lemma get_node_from i p l : get_node l (i :: p) = (l !! i ≫= fun n => get_from n p).
Proof. destruct p; [|done]. unfold get_node. simpl. by destruct (l !! i). Qed.

(** [n] is the lowest of the nodes in [l] that is above [h] and passes. *)
Definition deepest l n : Prop :=
  n ∈ l /\ anc (hash n) h = true /\ predicate (data n) = true /\
  forall m, m ∈ l -> anc (hash m) h = true -> predicate (data m) = true ->
    m = n \/ anc (hash m) (hash n) = true.

Definition none_passes l : Prop :=
  forall m, m ∈ l -> anc (hash m) h = true -> predicate (data m) = false.

(** What a search below [n] has found. *)
Definition found n (o : option (list nat)) : Prop :=
  match o with
  | Some p => exists m, get_from n p = Some m /\ deepest (preorder n) m
  | None => none_passes (preorder n)
  end.

Definition search_ok n : Prop :=
  if anc (hash n) h then exists o, search n = Ok (Some o) /\ found n o
  else search n = Ok None.

Lemma search_children_none i l :
  Forall search_ok l -> Forall (fun c => anc (hash c) h = false) l ->
  search_children search i l = Ok None.
Proof.
  intros Hok Hno. revert i. induction l as [|c l IH]; intros i; simpl; [done|].
  inversion_clear Hok as [|? ? Hc Hl]. inversion_clear Hno as [|? ? Hnc Hnl].
  unfold search_ok in Hc. rewrite Hnc in Hc.
  destruct (number c <? height h)%N; [rewrite Hc; simpl|]; by apply IH.
Qed.

Lemma search_children_some l1 c l2 o i :
  Forall search_ok l1 -> Forall (fun c => anc (hash c) h = false) l1 ->
  number c = height (hash c) -> anc (hash c) h = true -> search c = Ok (Some o) ->
  search_children search i (l1 ++ c :: l2) = Ok (Some (i + length l1, o)).
Proof.
  intros Hok Hno Hnum Hc Ho. revert i. induction l1 as [|c' l1 IH]; intros i; simpl.
  - rewrite (proj2 (N.ltb_lt _ _)) by (rewrite Hnum; by apply anc_height).
    rewrite Ho. simpl. by rewrite Nat.add_0_r.
  - inversion_clear Hok as [|? ? Hc' Hl]. inversion_clear Hno as [|? ? Hnc Hnl].
    unfold search_ok in Hc'. rewrite Hnc in Hc'.
    rewrite <- Nat.add_succ_comm.
    destruct (number c' <? height h)%N; [rewrite Hc'; simpl|]; by apply IH.
Qed.

(** The siblings of an ancestor of [h] have no node above [h]. *)
Lemma other_branches l1 c l2 m :
  wf_forest (l1 ++ c :: l2) -> anc (hash c) h = true ->
  m ∈ nodes l1 \/ m ∈ nodes l2 -> anc (hash m) h = false.
Proof.
  intros Hwf Hc Hm. destruct (anc (hash m) h) eqn:Hmh; [|done].
  assert (m ∈ nodes (l1 ++ c :: l2) /\ exists r, r ∈ l1 ++ l2 /\ (m = r \/ m ∈ nodes (children r)))
    as [Hm' (r & Hr & Hmr)].
  { split; [rewrite nodes_app, nodes_cons; set_solver|].
    destruct Hm as [Hm|Hm]; apply elem_of_nodes in Hm as (r & Hr & Hm); exists r; set_solver. }
  assert (wf_forest (c :: l1 ++ l2)) as Hwf'.
  { eapply wf_forest_perm; [|exact Hwf]. by rewrite Permutation_middle. }
  apply wf_forest_cons in Hwf' as (_ & Hwf' & Hu). destruct (Hu r Hr) as (Hne & Ha & Hb).
  assert (anc (hash r) h = true) as Hrh.
  { destruct Hmr as [->|Hmr]; [done|]. apply anc_trans with (hash m); [|done].
    apply wf_below; [|done]. eapply wf_nodes; [exact Hwf'|by apply nodes_root]. }
  destruct (anc_chain _ _ _ Hc Hrh) as [|[|]]; congruence.
Qed.

Lemma first_ancestor l :
  Forall (fun c => anc (hash c) h = false) l \/
  exists l1 c l2, l = l1 ++ c :: l2 /\ anc (hash c) h = true /\
    Forall (fun c => anc (hash c) h = false) l1.
Proof.
  induction l as [|c l IH]; [by left|]. destruct (anc (hash c) h) eqn:Hc.
  - right. by exists [], c, l.
  - destruct IH as [Hl|(l1 & c' & l2 & -> & Hc' & Hl1)]; [left; by constructor|].
    right. exists (c :: l1), c', l2. split_and!; [done..|by constructor].
Qed.

(** Nodes of a node's subtree above [h], when the branch to [h] is known. *)
Lemma above_in_branch n l1 c l2 m :
  wf_node n -> children n = l1 ++ c :: l2 -> anc (hash c) h = true ->
  m ∈ preorder n -> anc (hash m) h = true -> m = n \/ m ∈ preorder c.
Proof.
  intros Hn Hl Hc. rewrite preorder_unfold, elem_of_cons. intros [->|Hm] Hmh; [by left|].
  right. apply wf_children in Hn. rewrite Hl in *.
  rewrite nodes_app, nodes_cons, app_comm_cons, <- preorder_unfold, !elem_of_app in Hm.
  destruct Hm as [Hm|[Hm|Hm]]; [|done|];
    rewrite (other_branches l1 c l2 m Hn Hc) in Hmh by eauto; done.
Qed.

Lemma found_leaf n :
  wf_node n -> Forall (fun c => anc (hash c) h = false) (children n) ->
  anc (hash n) h = true -> found n (here predicate n).
Proof.
  intros Hn Hno Hnh.
  assert (forall m, m ∈ preorder n -> anc (hash m) h = true -> m = n) as Honly.
  { intros m. rewrite preorder_unfold, elem_of_cons. intros [->|Hm] Hmh; [done|].
    destruct (wf_root_of _ m (wf_children n Hn) Hm) as (c & Hc & _ & Hmc).
    rewrite Forall_forall in Hno. specialize (Hno c Hc).
    destruct Hmc as [->|[_ Hcm]]; [congruence|].
    rewrite (anc_trans (hash c) (hash m) h) in Hno; done. }
  unfold here. destruct (predicate (data n)) eqn:Hp.
  - exists n. split; [done|]. split_and!; auto. rewrite preorder_unfold. by left.
  - intros m Hm Hmh. by rewrite (Honly m).
Qed.

Lemma found_branch n l1 c l2 o :
  wf_node n -> children n = l1 ++ c :: l2 -> anc (hash c) h = true -> found c o ->
  found n (match o with Some p => Some (length l1 :: p) | None => here predicate n end).
Proof.
  intros Hn Hl Hc Hfound.
  assert (c ∈ children n) as Hcl by (rewrite Hl; set_solver).
  assert (anc (hash n) h = true) as Hnh.
  { apply anc_trans with (hash c); [by apply wf_child|done]. }
  assert (forall m, m ∈ preorder c -> m ∈ nodes (children n)) as Hbelow.
  { intros m. rewrite preorder_unfold, elem_of_cons. intros Hm. apply elem_of_nodes. eauto. }
  destruct o as [p|]; simpl in *.
  - destruct Hfound as (m & Hm & Hin & Hmh & Hp & Hdeep). exists m. split.
    { rewrite Hl. change (get_node (l1 ++ c :: l2) (length l1 :: p) = Some m).
      by rewrite get_node_from, list_lookup_middle. }
    split_and!; [|done|done|].
    + rewrite preorder_unfold. right. by apply Hbelow.
    + intros m' Hm' Hmh' Hp'.
      destruct (above_in_branch n l1 c l2 m' Hn Hl Hc Hm' Hmh') as [->|Hm'']; [|by auto].
      right. auto using wf_below.
  - unfold here. destruct (predicate (data n)) eqn:Hp.
    + exists n. split; [done|]. split_and!; [rewrite preorder_unfold; by left|done|done|].
      intros m' Hm' Hmh' Hp'.
      destruct (above_in_branch n l1 c l2 m' Hn Hl Hc Hm' Hmh') as [->|Hm'']; [by left|].
      specialize (Hfound m' Hm'' Hmh'). congruence.
    + intros m' Hm' Hmh'.
      destruct (above_in_branch n l1 c l2 m' Hn Hl Hc Hm' Hmh') as [->|Hm'']; auto.
Qed.

Lemma search_correct n : wf_node n -> search_ok n.
Proof.
  tree_induction n. set (n := mkNode _ _ _ l). intros Hn.
  assert (forall c, c ∈ l -> wf_node c) as Hwl.
  { intros c Hc. apply wf_children in Hn as [_ Hn]. rewrite Forall_forall in Hn. by apply Hn. }
  assert (forall k, k ⊆ l -> Forall search_ok k) as Hok.
  { intros k Hk. apply Forall_forall. intros c Hc. by apply IHl; auto. }
  unfold search_ok. rewrite search_unfold. change (children n) with l.
  destruct (first_ancestor l) as [Hno|(l1 & c & l2 & -> & Hc & Hl1)].
  - rewrite search_children_none by auto. cbn [bind]. rewrite descends_anc. cbn [bind].
    destruct (anc (hash n) h) eqn:Hnh; [|done]. eexists. split; [done|]. by apply found_leaf.
  - assert (c ∈ l1 ++ c :: l2) as Hcl by set_solver.
    assert (anc (hash n) h = true) as Hnh.
    { apply anc_trans with (hash c); [by apply wf_child|done]. }
    pose proof (IHl c Hcl (Hwl c Hcl)) as Hsc. unfold search_ok in Hsc. rewrite Hc in Hsc.
    destruct Hsc as (o & Ho & Hfound).
    rewrite (search_children_some l1 c l2 o 0); [|apply Hok; set_solver|done|
      by apply wf_number, Hwl|done|done].
    rewrite Hnh. pose proof (found_branch n l1 c l2 o Hn eq_refl Hc Hfound) as Hn'.
    destruct o; simpl; eauto.
Qed.

Lemma search_roots_correct i l :
  wf_forest l ->
  match search_roots (E := E) is_descendent_of h (height h) predicate i l with
  | Ok (Some (j :: p)) => exists n, i <= j /\ get_node l (j - i :: p) = Some n /\ deepest (nodes l) n
  | Ok None => none_passes (nodes l)
  | _ => False
  end.
Proof.
  revert i. induction l as [|r l IH]; intros i Hwf; simpl; [by intros m Hm%elem_of_nil|].
  pose proof Hwf as (Hr & Hl & Hu)%wf_forest_cons. specialize (IH (S i) Hl).
  pose proof (search_correct r Hr) as Hs. unfold search_ok in Hs.
  destruct (anc (hash r) h) eqn:Hrh.
  - pose proof (anc_height _ _ Hrh) as Hlt. rewrite <- (wf_number _ Hr) in Hlt.
    rewrite (proj2 (N.leb_gt _ _) Hlt). destruct Hs as (o & -> & Hfound). simpl.
    assert (forall m, m ∈ nodes (r :: l) -> anc (hash m) h = true -> m ∈ preorder r) as Honly.
    { intros m Hm Hmh. rewrite nodes_cons, app_comm_cons, <- preorder_unfold, elem_of_app in Hm.
      destruct Hm as [Hm|Hm]; [done|].
      rewrite (other_branches [] r l m Hwf Hrh) in Hmh by eauto. done. }
    destruct o as [p|]; simpl in *; [|by intros m Hm Hmh; auto].
    destruct Hfound as (m & Hm & Hin & Hmh & Hp & Hdeep). exists m.
    rewrite Nat.sub_diag, get_node_from. simpl. split_and!; [done|done|].
    split_and!; auto. rewrite nodes_cons, app_comm_cons, <- preorder_unfold. set_solver.
  - assert (forall m, m ∈ nodes (r :: l) -> anc (hash m) h = true -> m ∈ nodes l) as Honly.
    { intros m Hm Hmh. rewrite nodes_cons, elem_of_cons, elem_of_app in Hm.
      destruct Hm as [->|[Hm|Hm]]; [congruence| |done].
      rewrite (anc_trans (hash r) (hash m) h) in Hrh by auto using wf_below. done. }
    assert (forall m, m ∈ nodes l -> m ∈ nodes (r :: l)) as Hin.
    { intros m Hm. rewrite nodes_cons, elem_of_cons, elem_of_app. auto. }
    assert (forall s, s = search_roots (E := E) is_descendent_of h (height h) predicate (S i) l ->
      match s with
      | Ok (Some (j :: p)) => exists n, i <= j /\ get_node (r :: l) (j - i :: p) = Some n /\
          deepest (nodes (r :: l)) n
      | Ok None => none_passes (nodes (r :: l))
      | _ => False
      end) as Hnext.
    { intros s ->. destruct (search_roots _ _ _ _ (S i) l) as [[[|j p]|]| | |]; try done.
      - destruct IH as (n & Hj & Hn & Hnin & Hnh & Hp & Hdeep). exists n. split_and!; [lia| |].
        + replace (j - i) with (S (j - S i)) by lia. by rewrite get_node_from in Hn |- *.
        + split_and!; auto.
      - intros m Hm Hmh. auto. }
    destruct (height h <=? number r)%N; [by apply Hnext|]. rewrite Hs. by apply Hnext.
Qed.

Lemma find_index_correct t :
  wf t ->
  match find_node_index_where (E := E) is_descendent_of h (height h) predicate t with
  | Ok (Some p) => exists n, get_node (roots t) p = Some n /\ deepest (nodes (roots t)) n
  | Ok None => none_passes (nodes (roots t))
  | _ => False
  end.
Proof.
  intros Hwf. unfold find_node_index_where. rewrite find_outer_search.
  pose proof (search_roots_correct 0 (roots t) Hwf) as Hs.
  destruct (search_roots _ _ _ _ _ _) as [[[|j p]|]| | |]; try done.
  destruct Hs as (n & _ & Hn & Hd). rewrite Nat.sub_0_r in Hn. eauto.
Qed.

End find.

(** ** Changes at a reference *)

Lemma wf_forest_hashes l k :
  map hash l = map hash k -> Forall wf_node k -> wf_forest l -> wf_forest k.
Proof. intros Hlk Hk [Hl _]. split; [by rewrite <- Hlk|done]. Qed.

Lemma map_hash_alter (f : Node H V -> Node H V) i l :
  (forall n, l !! i = Some n -> hash (f n) = hash n) -> map hash (alter f i l) = map hash l.
Proof.
  revert i. induction l as [|n l IH]; intros [|i] Hf; simpl; [done|done| |].
  - f_equal. by apply Hf.
  - f_equal. by apply IH.
Qed.

Lemma Forall_alter_lookup {A} (P : A -> Prop) f i (l : list A) :
  Forall P l -> (forall x, l !! i = Some x -> P x -> P (f x)) -> Forall P (alter f i l).
Proof.
  intros Hl Hf. revert i Hf. induction Hl as [|x l Hx Hl IH]; intros [|i] Hf; simpl; [done|done| |].
  - constructor; [by apply Hf|done].
  - constructor; [done|]. by apply IH.
Qed.

Lemma wf_set_children n k :
  wf_node n -> wf_forest k -> Forall (fun c => anc (hash n) (hash c) = true) k ->
  wf_node (set_children k n).
Proof. intros Hn [Hk1 Hk2] Hanc. constructor; simpl; try done. by apply wf_number. Qed.

Lemma wf_modify (f : Node H V -> Node H V) p l n :
  wf_forest l -> get_node l p = Some n -> hash (f n) = hash n -> (wf_node n -> wf_node (f n)) ->
  wf_forest (modify_node f p l).
Proof.
  revert l. induction p as [|i p IH]; intros l Hl Hn Hh Hf; [done|].
  destruct p as [|j p].
  - change (wf_forest (alter f i l)). change (l !! i = Some n) in Hn.
    eapply wf_forest_hashes; [symmetry; apply map_hash_alter| |exact Hl].
    + intros m Hm. congruence.
    + apply Forall_alter_lookup; [apply Hl|]. intros m Hm. assert (m = n) as -> by congruence. done.
  - rewrite modify_node_cons by done. rewrite get_node_cons in Hn by done.
    eapply wf_forest_hashes; [symmetry; by apply map_hash_alter| |exact Hl].
    apply Forall_alter_lookup; [apply Hl|]. intros m Hm Hwm. rewrite Hm in Hn. simpl in Hn.
    specialize (IH (children m) (wf_children m Hwm) Hn Hh Hf).
    apply wf_set_children; [done|done|].
    assert (map hash (modify_node f (j :: p) (children m)) = map hash (children m)) as Heq.
    { destruct p as [|k p]; [|rewrite modify_node_cons by done].
      - apply map_hash_alter. intros m' Hm'. change (children m !! j = Some n) in Hn. congruence.
      - by apply map_hash_alter. }
    apply Forall_forall. intros c Hc. apply (list_elem_of_fmap_2 hash) in Hc.
    change (hash <$> ?x) with (map hash x) in Hc. rewrite Heq in Hc.
    apply list_elem_of_fmap in Hc as (c' & -> & Hc'). by apply wf_child.
Qed.

Lemma wf_balance n : wf_node n -> wf_node (balance n).
Proof.
  tree_induction n. intros Hn. rewrite balance_unfold.
  assert (balance_forest l ≡ₚ map balance l) as Hperm by apply sort_by_perm.
  assert (map hash (map balance l) = map hash l) as Hhash.
  { rewrite map_map. apply map_ext. by intros []. }
  apply wf_set_children; [done| |].
  - eapply wf_forest_perm; [symmetry; exact Hperm|].
    eapply wf_forest_hashes; [symmetry; exact Hhash| |by apply (wf_children _ Hn)].
    apply Forall_forall. intros c (c' & -> & Hc')%list_elem_of_fmap.
    apply IHl; [done|]. apply wf_children in Hn as [_ Hn]. rewrite Forall_forall in Hn. by apply Hn.
  - simpl. rewrite Hperm. apply Forall_forall. intros c (c' & -> & Hc')%list_elem_of_fmap.
    apply (wf_child _ c' Hn) in Hc'. by destruct c'.
Qed.

Lemma wf_balance_forest l : wf_forest l -> wf_forest (balance_forest l).
Proof.
  intros Hl. eapply wf_forest_perm; [symmetry; apply sort_by_perm|].
  eapply wf_forest_hashes; [| |exact Hl].
  - rewrite map_map. apply map_ext. by intros [].
  - apply Forall_forall. intros c (c' & -> & Hc')%list_elem_of_fmap. apply wf_balance.
    destruct Hl as [_ Hl]. rewrite Forall_forall in Hl. by apply Hl.
Qed.

(** The entries of a forest where the children of one node are replaced. *)
Definition entries l : list (H * N * V) := map node_entry (nodes l).

Lemma entries_app l k : entries (l ++ k) = entries l ++ entries k.
Proof. unfold entries. by rewrite nodes_app, map_app. Qed.

Lemma entries_cons n l : entries (n :: l) = node_entry n :: entries (children n) ++ entries l.
Proof. unfold entries. rewrite nodes_cons. simpl. by rewrite map_app. Qed.

Lemma entries_perm l k : l ≡ₚ k -> entries l ≡ₚ entries k.
Proof. intros Hlk. unfold entries. by rewrite (nodes_perm l k). Qed.

Lemma modify_children_entries p l n k :
  get_node l p = Some n ->
  entries (modify_node (set_children k) p l) ++ entries (children n) ≡ₚ entries k ++ entries l.
Proof.
  revert l. induction p as [|i p IH]; intros l Hn; [done|].
  assert (forall (f : Node H V -> Node H V) m, l !! i = Some m -> node_entry (f m) = node_entry m ->
    entries (children (f m)) ++ entries (children n) ≡ₚ entries k ++ entries (children m) ->
    entries (alter f i l) ++ entries (children n) ≡ₚ entries k ++ entries l) as Halter.
  { intros f m Hm Hf Hc. apply list_elem_of_split_length in Hm as (l1 & l2 & -> & ->).
    rewrite alter_app_middle, !entries_app, !entries_cons, Hf.
    transitivity (node_entry m :: entries l1 ++
      (entries (children (f m)) ++ entries (children n)) ++ entries l2); [solve_Permutation|].
    rewrite Hc. solve_Permutation. }
  destruct p as [|j p].
  - apply (Halter _ n); [done..|]. rewrite children_set. done.
  - rewrite modify_node_cons by done. rewrite get_node_cons in Hn by done.
    destruct (l !! i) as [m|] eqn:Hm; [|done]. apply (Halter _ m); [done|done|].
    by apply IH.
Qed.

(** ** Import *)

(** A known block is a child of the deepest ancestor it has in the forest. *)
Lemma known_is_sibling l n m :
  wf_forest l -> deepest (hash m) (fun _ => true) (nodes l) n -> m ∈ nodes l ->
  m ∈ children n.
Proof.
  intros Hl (Hn & Hnm & _ & Hdeep) Hm. pose proof (wf_nodes l n Hl Hn) as Hwn.
  pose proof (wf_subtree l n m Hl Hn Hm Hnm) as Hsub.
  destruct (wf_root_of _ m (wf_children n Hwn) Hsub) as (c & Hc & _ & [->|[_ Hcm]]); [done|].
  pose proof (wf_child n c Hwn Hc) as Hnc.
  assert (c ∈ nodes l) as Hcl by (eapply nodes_below; [exact Hn|by apply nodes_root]).
  destruct (Hdeep c Hcl Hcm eq_refl) as [->|Hcn]; [by rewrite anc_irrefl in Hnc|].
  by rewrite (anc_asym _ _ Hnc) in Hcn.
Qed.

(** Without an ancestor in the forest, a known block is a root. *)
Lemma known_is_root l m :
  wf_forest l -> none_passes (hash m) (fun _ => true) (nodes l) -> m ∈ nodes l -> m ∈ l.
Proof.
  intros Hl Hno Hm. destruct (wf_root_of l m Hl Hm) as (r & Hr & _ & [->|[_ Hrm]]); [done|].
  specialize (Hno r (nodes_root r l Hr) Hrm). done.
Qed.

Lemma existsb_hash h l :
  existsb (fun elem => bool_decide (hash elem = h)) l = true <-> exists m, m ∈ l /\ hash m = h.
Proof.
  rewrite existsb_exists. setoid_rewrite bool_decide_eq_true. setoid_rewrite list_elem_of_In. done.
Qed.

Lemma known_iff_sibling h l n :
  wf_forest l -> deepest h (fun _ => true) (nodes l) n ->
  (exists m, m ∈ children n /\ hash m = h) <-> h ∈ map hash (nodes l).
Proof.
  intros Hl Hd. split.
  - intros (m & Hm & <-). apply list_elem_of_fmap_2. eapply nodes_below; [apply Hd|].
    by apply nodes_root.
  - intros (m & -> & Hm)%list_elem_of_fmap. exists m. split; [|done]. by eapply known_is_sibling.
Qed.

Lemma known_iff_root h l :
  wf_forest l -> none_passes h (fun _ => true) (nodes l) ->
  (exists m, m ∈ l /\ hash m = h) <-> h ∈ map hash (nodes l).
Proof.
  intros Hl Hd. split.
  - intros (m & Hm & <-). by apply list_elem_of_fmap_2, nodes_root.
  - intros (m & -> & Hm)%list_elem_of_fmap. exists m. split; [|done]. by apply known_is_root.
Qed.

(** A new leaf next to siblings it is not related to. *)
Lemma wf_snoc_leaf l h d :
  wf_forest l -> (forall m, m ∈ l -> unrelated (hash m) h) ->
  wf_forest (l ++ [mkNode h (height h) d []]).
Proof.
  intros Hl Hu. eapply wf_forest_perm; [apply Permutation_cons_append|].
  apply wf_forest_cons. split_and!; [by repeat constructor|done|].
  intros m Hm. by apply unrelated_sym, Hu.
Qed.

Definition too_old t (num : N) : Prop :=
  exists best, best_finalized_number t = Some best /\ (num <= best)%N.

Lemma check_best_cases t num :
  check_best (E := E) num t = Ok tt /\ ~ too_old t num \/
  check_best (E := E) num t = Err Revert /\ too_old t num.
Proof.
  unfold check_best, too_old. destruct (best_finalized_number t) as [best|]; [|naive_solver].
  destruct (N.leb_spec num best); [right|left]; split; [done|eauto|done|].
  intros (? & [= <-] & ?). lia.
Qed.

Definition maybe_balance (b : bool) l : list (Node H V) := if b then balance_forest l else l.

Lemma wf_maybe_balance b l : wf_forest l -> wf_forest (maybe_balance b l).
Proof. destruct b; [apply wf_balance_forest|done]. Qed.

Lemma maybe_balance_entries b l :
  map node_entry (nodes (maybe_balance b l)) ≡ₚ map node_entry (nodes l).
Proof. destruct b; [apply balance_forest_entries|done]. Qed.

(** [import] once the search for the parent has ended. *)
Lemma import_eq h num d t o :
  check_best (E := E) num t = Ok tt ->
  find_node_index_where (E := E) is_descendent_of h num (fun _ => true) t = Ok o ->
  match o with Some p => is_Some (get_node (roots t) p) | None => True end ->
  import (E := E) is_descendent_of h num d t =
  let siblings := match o with
                  | Some p => from_option children [] (get_node (roots t) p)
                  | None => roots t
                  end in
  if existsb (fun elem => bool_decide (hash elem = h)) siblings then (t, Err Duplicate)
  else
    let siblings' := siblings ++ [mkNode h num d []] in
    (set_roots (maybe_balance (length siblings' =? 1)
                  match o with
                  | Some p => modify_node (set_children siblings') p (roots t)
                  | None => siblings'
                  end) t,
     Ok (match o with Some _ => false | None => true end)).
Proof.
  intros Hb Hf Ho. unfold import, find_node_where_mut, get_state, lift, put_state, throw, ret, bindM.
  rewrite Hb, Hf. cbn [bind].
  destruct o as [p|]; [destruct Ho as [n Hn]; rewrite Hn; cbn [bind expect]; rewrite ?Hn|];
    cbn [bind expect from_option].
  - destruct (existsb _ _); [done|]. unfold maybe_balance.
    destruct (length _ =? 1); [|done]. by rewrite rebalance_eq.
  - destruct (existsb _ _); [done|]. unfold maybe_balance.
    destruct (length _ =? 1); [|done]. by rewrite rebalance_eq.
Qed.

Lemma not_known_sibling h l :
  existsb (fun elem => bool_decide (hash elem = h)) l = false ->
  forall m, m ∈ l -> hash m <> h.
Proof.
  intros Hno m Hm <-. assert (existsb (fun elem => bool_decide (hash elem = hash m)) l = true) as He.
  { apply existsb_hash. eauto. }
  congruence.
Qed.

(** The deepest ancestor of a new block takes it as a child. *)
Lemma wf_new_child h d l n :
  wf_forest l -> deepest h (fun _ => true) (nodes l) n ->
  (forall m, m ∈ nodes l -> anc h (hash m) = false) ->
  existsb (fun elem => bool_decide (hash elem = h)) (children n) = false ->
  wf_node (set_children (children n ++ [mkNode h (height h) d []]) n).
Proof.
  intros Hl (Hn & Hnh & _ & Hdeep) Hord Hex.
  assert (wf_node n) as Hwn by by eapply wf_nodes.
  assert (forall m, m ∈ children n -> m ∈ nodes l) as Hin.
  { intros m Hm. eapply nodes_below; [exact Hn|by apply nodes_root]. }
  apply wf_set_children; [done| |].
  - apply wf_snoc_leaf; [by apply wf_children|]. intros m Hm.
    pose proof (wf_child n m Hwn Hm) as Hnm.
    split_and!; [by eapply not_known_sibling| |by apply Hord, Hin].
    destruct (anc (hash m) h) eqn:Hmh; [|done].
    destruct (Hdeep m (Hin m Hm) Hmh eq_refl) as [->|Hmn]; [by rewrite anc_irrefl in Hnm|].
    by rewrite (anc_asym _ _ Hmn) in Hnm.
  - apply Forall_app. split; [apply Forall_forall; intros; by apply wf_child|].
    by repeat constructor.
Qed.

(** Importing a block; [import_correct] states it for the users of the tree. *)
Lemma import_ok h d t :
  wf t ->
  (forall n, n ∈ nodes (roots t) -> anc h (hash n) = false) ->
  match import (E := E) is_descendent_of h (height h) d t with
  | (t', Ok is_root) =>
      ~ too_old t (height h) /\ h ∉ map hash (nodes (roots t)) /\
      wf t' /\ best_finalized_number t' = best_finalized_number t /\
      map node_entry (nodes (roots t')) ≡ₚ (h, height h, d) :: map node_entry (nodes (roots t)) /\
      (is_root = true <-> forall n, n ∈ nodes (roots t) -> anc (hash n) h = false)
  | (t', Err Duplicate) =>
      t' = t /\ ~ too_old t (height h) /\ h ∈ map hash (nodes (roots t))
  | (t', Err Revert) => t' = t /\ too_old t (height h)
  | _ => False
  end.
Proof.
  intros Hwf Hord. pose proof (find_index_correct h (fun _ => true) t Hwf) as Hfind.
  destruct (check_best_cases t (height h)) as [[Hb Hold]|[Hb Hold]].
  2: { unfold import, get_state, lift, bindM. by rewrite Hb. }
  destruct (find_node_index_where _ _ _ _ _) as [[p|]| | |] eqn:Hf; try done.
  - destruct Hfind as (n & Hn & Hd). rewrite (import_eq h _ d t (Some p) Hb Hf) by eauto.
    rewrite Hn. simpl. pose proof (known_iff_sibling h _ n Hwf Hd) as Hknown.
    destruct (existsb _ (children n)) eqn:Hex.
    { split_and!; [done|done|]. apply Hknown. by apply existsb_hash. }
    pose proof (wf_new_child h d _ n Hwf Hd Hord Hex) as Hleaf.
    split_and!; [done| | |done| |].
    + rewrite <- Hknown. intros (m & Hm & Hmh). by eapply not_known_sibling.
    + apply wf_maybe_balance. by eapply wf_modify.
    + simpl. rewrite maybe_balance_entries.
      pose proof (modify_children_entries p _ n
        (children n ++ [mkNode h (height h) d []]) Hn) as Hent.
      rewrite entries_app, <- app_assoc, (Permutation_app_comm (entries (children n))) in Hent.
      by apply Permutation_app_inv_r in Hent.
    + split; [done|]. intros Hno. destruct Hd as (Hnin & Hnh & _). by rewrite Hno in Hnh.
  - rewrite (import_eq h _ d t None Hb Hf) by done. simpl.
    pose proof (known_iff_root h _ Hwf Hfind) as Hknown.
    assert (forall m, m ∈ nodes (roots t) -> anc (hash m) h = false) as Hno.
    { intros m Hm. destruct (anc (hash m) h) eqn:Hmh; [|done]. by specialize (Hfind m Hm Hmh). }
    destruct (existsb _ (roots t)) eqn:Hex.
    { split_and!; [done|done|]. apply Hknown. by apply existsb_hash. }
    split_and!; [done| | |done| |done].
    + rewrite <- Hknown. intros (m & Hm & Hmh). by eapply not_known_sibling.
    + apply wf_maybe_balance, wf_snoc_leaf; [done|]. intros m Hm.
      split_and!; [by eapply not_known_sibling|by apply Hno, nodes_root|by apply Hord, nodes_root].
    + simpl. rewrite maybe_balance_entries, nodes_app, map_app, Permutation_app_comm. done.
Qed.

(** C33: importing a block in order. The block is refused exactly when it is not
    above the last finalized one or is in the tree already, and then the tree is
    left as it was. Otherwise the tree stays well formed and holds exactly one more
    block; the result says whether the block has no ancestor in the tree. *)
Theorem import_correct h d t :
  wf t ->
  (forall n, n ∈ nodes (roots t) -> anc h (hash n) = false) ->
  match import (E := E) is_descendent_of h (height h) d t with
  | (t', Ok is_root) =>
      ~ too_old t (height h) /\ h ∉ map hash (nodes (roots t)) /\
      wf t' /\ best_finalized_number t' = best_finalized_number t /\
      map node_entry (nodes (roots t')) ≡ₚ (h, height h, d) :: map node_entry (nodes (roots t)) /\
      (is_root = true <-> forall n, n ∈ nodes (roots t) -> anc (hash n) h = false)
  | (t', Err Duplicate) =>
      t' = t /\ ~ too_old t (height h) /\ h ∈ map hash (nodes (roots t))
  | (t', Err Revert) => t' = t /\ too_old t (height h)
  | _ => False
  end.
Proof. apply import_ok. Qed.

(** The search finds the deepest ancestor of a block that passes the predicate,
    and finds none only when no ancestor in the tree passes; it neither panics nor
    runs forever. *)
Theorem find_node_where_correct h predicate t :
  wf t ->
  match find_node_where (E := E) is_descendent_of h (height h) predicate t with
  | Ok (Some n) =>
      n ∈ nodes (roots t) /\ anc (hash n) h = true /\ predicate (data n) = true /\
      forall m, m ∈ nodes (roots t) -> anc (hash m) h = true -> predicate (data m) = true ->
        m = n \/ anc (hash m) (hash n) = true
  | Ok None =>
      forall m, m ∈ nodes (roots t) -> anc (hash m) h = true -> predicate (data m) = false
  | _ => False
  end.
Proof.
  intros Hwf. pose proof (find_index_correct h predicate t Hwf) as Hfind.
  unfold find_node_where. destruct (find_node_index_where _ _ _ _ _) as [[p|]| | |]; try done.
  destruct Hfind as (n & Hn & Hd). cbn [bind]. by rewrite Hn.
Qed.

(** ** Finalization *)

(** The nodes of the forest that descend from [h], in order. *)
Definition below h l : list (Node H V) := List.filter (fun n => anc h (hash n)) (nodes l).

Lemma below_app h l k : below h (l ++ k) = below h l ++ below h k.
Proof. unfold below. by rewrite nodes_app, List.filter_app. Qed.

Lemma below_cons h r l : below h (r :: l) = below h [r] ++ below h l.
Proof. apply (below_app h [r] l). Qed.

Lemma below_perm h l k : l ≡ₚ k -> below h l ≡ₚ below h k.
Proof. intros Hlk. by apply filter_perm, nodes_perm. Qed.

(** The root [r] is a descendant of [h], it is [h], or it is on another branch. *)
Lemma below_descendant h r : wf_node r -> anc h (hash r) = true -> below h [r] = nodes [r].
Proof.
  intros Hr Hh. apply filter_all. intros n. rewrite nodes_cons. simpl. rewrite app_nil_r, elem_of_cons.
  intros [->|Hn]; [done|]. eapply anc_trans; [done|]. by apply wf_below.
Qed.

Lemma below_itself r : wf_node r -> below (hash r) [r] = nodes (children r).
Proof.
  intros Hr. unfold below. rewrite nodes_cons. simpl. rewrite anc_irrefl, app_nil_r.
  apply filter_all. by apply wf_below.
Qed.

Lemma below_unrelated h r : wf_node r -> unrelated (hash r) h -> below h [r] = [].
Proof.
  intros Hr (Hne & Ha & Hb). apply filter_none. intros n. rewrite nodes_cons. simpl.
  rewrite app_nil_r, elem_of_cons. intros [->|Hn]; [done|].
  destruct (anc h (hash n)) eqn:Hhn; [|done].
  destruct (anc_chain _ _ _ (wf_below r Hr n Hn) Hhn) as [|[|]]; congruence.
Qed.

Lemma below_forest_unrelated h l :
  wf_forest l -> (forall r, r ∈ l -> unrelated (hash r) h) -> below h l = [].
Proof.
  induction l as [|r l IH]; intros Hl Hu; [done|]. apply wf_forest_cons in Hl as (Hr & Hl & _).
  rewrite below_cons, below_unrelated, IH by set_solver. done.
Qed.

Lemma below_root h l i r :
  wf_forest l -> l !! i = Some r -> hash r = h -> below h l = nodes (children r).
Proof.
  intros Hl Hi <-. apply list_elem_of_split_length in Hi as (l1 & l2 & -> & ->).
  assert (wf_forest (r :: l1 ++ l2)) as Hl'.
  { eapply wf_forest_perm; [|exact Hl]. by rewrite Permutation_middle. }
  apply wf_forest_cons in Hl' as (Hr & Hl12 & Hu).
  rewrite below_app, below_cons, below_itself by done.
  pose proof (below_forest_unrelated (hash r) (l1 ++ l2) Hl12) as Hno.
  rewrite below_app in Hno.
  destruct (app_eq_nil _ _ (Hno (fun m Hm => unrelated_sym _ _ (Hu m Hm)))) as [-> ->].
  by rewrite app_nil_r.
Qed.

Lemma list_find_hash h l i r :
  list_find (fun node => hash node = h) l = Some (i, r) -> l !! i = Some r /\ hash r = h.
Proof. intros (Hi & Hr & _)%list_find_Some. done. Qed.

Lemma finalize_root_at_eq i t r :
  roots t !! i = Some r ->
  finalize_root_at (E := E) i t = (mkForkTree (children r) (Some (number r)), Ok (data r)).
Proof.
  intros Hi. unfold finalize_root_at, vec_swap_remove, get_state, put_state, lift, ret, bindM.
  rewrite Hi. cbn [expect bind]. destruct (last (roots t)) eqn:Hl; [done|].
  apply last_None in Hl. by rewrite Hl in Hi.
Qed.

Lemma finalize_root_cases h t :
  (exists r, r ∈ roots t /\ hash r = h /\
     finalize_root (E := E) h t = (mkForkTree (children r) (Some (number r)), Ok (Some (data r))) /\
     (wf t -> below h (roots t) = nodes (children r))) \/
  (forall r, r ∈ roots t -> hash r <> h) /\ finalize_root (E := E) h t = (t, Ok None).
Proof.
  unfold finalize_root, get_state, bindM.
  destruct (list_find _ (roots t)) as [[i r]|] eqn:Hf.
  - apply list_find_hash in Hf as [Hi Hr]. left. exists r.
    split_and!; [by eapply list_elem_of_lookup_2|done| |].
    + by rewrite (finalize_root_at_eq i t r Hi).
    + intros Hwf. by eapply below_root.
  - right. split; [|done]. apply list_find_None in Hf. rewrite Forall_forall in Hf. done.
Qed.

Lemma check_roots_cases h l :
  wf_forest l ->
  check_roots (E := E) is_descendent_of h (height h) l = Ok tt /\
    (forall r, r ∈ l -> anc (hash r) h = false) \/
  check_roots (E := E) is_descendent_of h (height h) l = Err UnfinalizedAncestor /\
    exists r, r ∈ l /\ anc (hash r) h = true.
Proof.
  induction l as [|r l IH]; intros Hl; simpl; [left; set_solver|].
  apply wf_forest_cons in Hl as (Hr & Hl & _). specialize (IH Hl).
  rewrite descends_anc. unfold and_then. rewrite (wf_number r Hr).
  destruct (anc (hash r) h) eqn:Hrh.
  - rewrite (proj2 (N.ltb_lt _ _) (anc_height _ _ Hrh)). simpl. right. set_solver.
  - assert (forall b : bool, (if b then Ok false else @Ok (Error E) bool false) = Ok false) as ->
      by by intros [].
    simpl. destruct IH as [[-> Hno]|[-> Hyes]]; [left|right]; set_solver.
Qed.

(** The loop over the roots that were taken out of the tree. *)
Lemma retain_roots_eq (keep : Node H V -> outcome (Error E) bool) (k : Node H V -> bool) c l t :
  (forall r, r ∈ l -> keep r = Ok (k r)) ->
  retain_roots keep c l t =
  (set_roots (roots t ++ List.filter k l) t, Ok (c || negb (forallb k l))).
Proof.
  revert c t. induction l as [|r l IH]; intros c t Hk; simpl.
  - unfold ret. rewrite app_nil_r, orb_false_r. by destruct t.
  - unfold lift, bindM, modify_state. rewrite Hk by by left.
    destruct (k r); rewrite IH by (intros; apply Hk; by right); simpl.
    + rewrite <- app_assoc. done.
    + by rewrite orb_true_r.
Qed.

Lemma wf_forest_filter k l : wf_forest l -> wf_forest (List.filter k l).
Proof.
  induction l as [|r l IH]; intros Hl; simpl; [done|]. apply wf_forest_cons in Hl as (Hr & Hl & Hu).
  destruct (k r); [|by apply IH]. apply wf_forest_cons. split_and!; [done|by apply IH|].
  intros m. rewrite list_elem_of_In, filter_In, <- list_elem_of_In. intros [Hm _]. by apply Hu.
Qed.

Lemma retained_below h l :
  wf_forest l -> (forall r, r ∈ l -> hash r <> h) -> (forall r, r ∈ l -> anc (hash r) h = false) ->
  nodes (List.filter (fun r => anc h (hash r)) l) = below h l.
Proof.
  induction l as [|r l IH]; intros Hl Hne Hno; [done|]. apply wf_forest_cons in Hl as (Hr & Hl & _).
  rewrite below_cons. simpl. specialize (IH Hl). destruct (anc h (hash r)) eqn:Hhr.
  - rewrite below_descendant, <- IH by set_solver. by apply (nodes_app [r]).
  - rewrite below_unrelated, <- IH; [done|set_solver..|].
    split_and!; [apply Hne; by left|apply Hno; by left|done].
Qed.

Lemma ltb_anc h r :
  wf_node r -> (height h <? number r)%N &&! descends (E := E) is_descendent_of h (hash r) =
  Ok (anc h (hash r)).
Proof.
  intros Hr. rewrite (wf_number r Hr). unfold and_then. rewrite descends_anc.
  destruct (anc h (hash r)) eqn:Hhr; [|by destruct (_ <? _)%N].
  by rewrite (proj2 (N.ltb_lt _ _) (anc_height _ _ Hhr)).
Qed.

(** C34: finalizing a block. The call is refused when the block is not above the last
    finalized one, or when one of its ancestors is still in the tree, and then the
    tree is left as it was. Otherwise exactly the descendants of the block stay, in
    order; the value is returned when the block was a root. *)
Theorem finalize_correct h t :
  wf t ->
  match finalize (E := E) is_descendent_of h (height h) t with
  | (t', Ok r) =>
      ~ too_old t (height h) /\ (forall n, n ∈ roots t -> anc (hash n) h = false) /\
      wf t' /\ best_finalized_number t' = Some (height h) /\
      nodes (roots t') = below h (roots t) /\
      match r with
      | Changed (Some d) => exists n, n ∈ roots t /\ hash n = h /\ data n = d
      | Changed None => (forall n, n ∈ roots t -> hash n <> h) /\ roots t' <> roots t
      | Unchanged => roots t' = roots t
      end
  | (t', Err Revert) => t' = t /\ too_old t (height h)
  | (t', Err UnfinalizedAncestor) =>
      t' = t /\ ~ too_old t (height h) /\ exists n, n ∈ roots t /\ anc (hash n) h = true
  | _ => False
  end.
Proof.
  intros Hwf. unfold finalize, get_state, lift, bindM.
  destruct (check_best_cases t (height h)) as [[-> Hold]|[-> Hold]]; [|done].
  destruct (finalize_root_cases h t) as [(r & Hr & Hh & -> & Hbelow)|[Hne ->]].
  - assert (wf_node r) as Hwr by by eapply wf_nodes; [exact Hwf|apply nodes_root].
    split_and!; [done| | | | |].
    + intros n Hn. destruct (wf_siblings _ n r Hwf Hn Hr) as [->|(? & ? & ?)]; [|congruence].
      rewrite Hh. apply anc_irrefl.
    + by apply wf_children.
    + simpl. by rewrite (wf_number r Hwr), Hh.
    + simpl. by rewrite Hbelow.
    + exists r. done.
  - destruct (check_roots_cases h (roots t) Hwf) as [[-> Hno]|[-> Hyes]]; [|done].
    unfold put_state, modify_state, ret.
    rewrite (retain_roots_eq _ (fun r => anc h (hash r))).
    2: { intros r Hr. apply ltb_anc. by eapply wf_nodes; [exact Hwf|apply nodes_root]. }
    simpl. split_and!; [done|done|by apply wf_forest_filter|done|by apply retained_below|].
    destruct (forallb _ (roots t)) eqn:Hall; simpl.
    + apply filter_all. rewrite forallb_forall in Hall. intros n Hn. by apply Hall, list_elem_of_In.
    + split; [done|]. intros Heq.
      assert (forallb (fun r => anc h (hash r)) (roots t) = true) as Htrue; [|congruence].
      rewrite <- Heq. apply forallb_forall. intros n [_ Hn]%filter_In. done.
Qed.

Lemma swap_remove_eq {E'} l1 (x : Node H V) l2 :
  exists l2', l2' ≡ₚ l2 /\
    vec_swap_remove (E := E') (length l1) (l1 ++ x :: l2) = Ok (x, l1 ++ l2').
Proof.
  unfold vec_swap_remove. rewrite list_lookup_middle by done. cbn [expect bind].
  destruct l2 as [|y l2] using rev_ind.
  - exists []. split; [done|]. rewrite last_snoc. cbn [expect bind].
    rewrite insert_app_r_alt, Nat.sub_diag, length_app by lia. simpl.
    rewrite take_app_le, take_ge by lia. by rewrite app_nil_r.
  - exists (y :: l2). split; [by rewrite Permutation_cons_append|].
    rewrite app_comm_cons, app_assoc, last_snoc. cbn [expect bind].
    rewrite <- app_assoc. simpl. rewrite insert_app_r_alt, Nat.sub_diag by lia. simpl.
    change (y :: l2 ++ [y]) with ((y :: l2) ++ [y]). rewrite (app_assoc l1 (y :: l2)).
    rewrite take_app_length'; [done|]. rewrite !length_app. simpl. rewrite ?length_app. simpl. lia.
Qed.

Lemma wf_open l r :
  wf_forest (r :: l) -> wf_forest (l ++ children r).
Proof.
  intros (Hr & Hl & Hu)%wf_forest_cons. induction l as [|m l IH]; simpl; [by apply wf_children|].
  apply wf_forest_cons in Hl as (Hm & Hl & Hum). apply wf_forest_cons.
  split_and!; [done|apply IH; set_solver|].
  intros c [Hc|Hc]%elem_of_app; [by apply Hum|].
  pose proof (wf_child r c Hr Hc) as Hrc.
  destruct (Hu m) as (Hne & Ha & Hb); [by left|]. split_and!.
  - intros Heq. congruence.
  - destruct (anc (hash m) (hash c)) eqn:Hmc; [|done].
    destruct (anc_chain _ _ _ Hrc Hmc) as [|[|]]; congruence.
  - destruct (anc (hash c) (hash m)) eqn:Hcm; [|done].
    rewrite (anc_trans _ _ _ Hrc Hcm) in Ha. done.
Qed.

Lemma below_ancestor h r : wf_node r -> anc (hash r) h = true -> below h [r] = below h (children r).
Proof.
  intros Hr Hrh. unfold below. rewrite nodes_cons. simpl. by rewrite (anc_asym _ _ Hrh), app_nil_r.
Qed.

Lemma drop_length_app {A} (l k : list A) : drop (length l) (l ++ k) = k.
Proof. by rewrite drop_app_length. Qed.

(** The roots before [idx] descend from [h]; what descends from [h] stays. *)
Record opening h (t0 : ForkTree H V) (l : nat * bool) (t : ForkTree H V) : Prop := {
  opening_wf : wf t;
  opening_below : below h (roots t) ≡ₚ below h (roots t0);
  opening_sub : forall n, n ∈ nodes (roots t) -> n ∈ nodes (roots t0);
  opening_changed : l.2 = false -> roots t = roots t0;
  opening_split : exists l1 l2, roots t = l1 ++ l2 /\ length l1 = l.1 /\
                    Forall (fun r => anc h (hash r) = true) l1
}.

(** What finalizing [h] makes of the tree, and what the result says. *)
Definition finalized_to h (t0 : ForkTree H V) (r : FinalizationResult V) (t : ForkTree H V) : Prop :=
  wf t /\ best_finalized_number t = Some (height h) /\
  nodes (roots t) ≡ₚ below h (roots t0) /\
  match r with
  | Changed (Some d) => exists n, n ∈ nodes (roots t0) /\ hash n = h /\ data n = d
  | Changed None => True
  | Unchanged => roots t = roots t0
  end.

Lemma below_all h l :
  wf_forest l -> Forall (fun r => anc h (hash r) = true) l -> below h l = nodes l.
Proof.
  induction l as [|r l IH]; intros Hl Hall; [done|]. apply wf_forest_cons in Hl as (Hr & Hl & _).
  inversion_clear Hall. rewrite below_cons, below_descendant, IH by done.
  by rewrite <- (nodes_app [r]).
Qed.

(** One round: the root at [idx] is opened or dropped. *)
Lemma opening_replace h t0 t l1 r l2 l2' k c :
  opening h t0 (length l1, c) t -> roots t = l1 ++ r :: l2 -> l2' ≡ₚ l2 ->
  Forall (fun r => anc h (hash r) = true) l1 ->
  wf_forest (l1 ++ l2' ++ k) -> below h [r] = below h k -> k = [] \/ k = children r ->
  opening h t0 (length l1, true) (set_roots (l1 ++ l2' ++ k) t) /\
  forest_size (drop (length l1) (l1 ++ l2' ++ k)) < forest_size (drop (length l1) (roots t)).
Proof.
  intros Hop Hroots Hperm Hl1 Hwf Hk Hsub. split; [split|].
  - done.
  - simpl. rewrite <- (opening_below _ _ _ _ Hop), Hroots.
    rewrite !below_app, below_cons, Hk, (below_perm h l2' l2) by done.
    rewrite (Permutation_app_comm (below h k)). done.
  - simpl. intros n Hn. apply (opening_sub _ _ _ _ Hop). rewrite Hroots.
    rewrite nodes_app, nodes_cons. rewrite !nodes_app, (nodes_perm _ _ Hperm) in Hn.
    destruct Hsub as [->| ->]; set_solver.
  - done.
  - exists l1, (l2' ++ k). done.
  - rewrite Hroots, !drop_length_app, forest_size_app, forest_size_cons.
    rewrite (forest_size_perm l2' l2) by done. destruct Hsub as [->| ->]; [|lia].
    unfold forest_size at 2. simpl. lia.
Qed.

(** One round: the root at [idx] descends from [h] and stays. *)
Lemma opening_advance h t0 t l1 r l2 c :
  opening h t0 (length l1, c) t -> roots t = l1 ++ r :: l2 ->
  Forall (fun r => anc h (hash r) = true) l1 -> anc h (hash r) = true ->
  opening h t0 (S (length l1), c) t /\
  forest_size (drop (S (length l1)) (roots t)) < forest_size (drop (length l1) (roots t)).
Proof.
  intros [Hwf Hbelow Hsub Hc _] Hroots Hl1 Hr. split.
  - split; [done..|]. exists (l1 ++ [r]), l2. rewrite <- app_assoc, length_app, Nat.add_1_r.
    split_and!; [done|done|]. apply Forall_app. by repeat constructor.
  - rewrite Hroots, (drop_length_app l1), forest_size_cons.
    assert (drop (S (length l1)) (l1 ++ r :: l2) = l2) as ->; [|lia].
    rewrite <- (drop_length_app (l1 ++ [r]) l2) at 2.
    by rewrite length_app, <- app_assoc, Nat.add_1_r.
Qed.

Lemma finalize_ancestors_round h t0 (l : nat * bool) t :
  opening h t0 l t ->
  postM (finalize_ancestors_body (E := E) is_descendent_of h (height h) l) t
    (fun c t' => match c with
       | Continue l' => opening h t0 l' t' /\
           forest_size (drop l'.1 (roots t')) < forest_size (drop l.1 (roots t))
       | Break r => finalized_to h t0 r t'
       end) (fun _ _ => False).
Proof.
  destruct l as [idx changed]. intros Hop.
  pose proof Hop as [Hwf Hbelow Hsub Hch (l1 & l2 & Hroots & Hlen & Hl1)]. simpl in Hlen. subst idx.
  unfold finalize_ancestors_body, postM, bindM, get_state, modify_state, put_state, ret, lift.
  unfold wf in Hwf. rewrite Hroots. rewrite Hroots in Hwf. destruct l2 as [|r l2].
  { rewrite app_nil_r, Nat.eqb_refl in *. split_and!; [unfold wf; simpl; by rewrite Hroots|done|..].
    - simpl. by rewrite <- Hbelow, Hroots, below_all.
    - destruct changed; [done|]. by apply Hch. }
  rewrite (proj2 (Nat.eqb_neq _ _)) by (rewrite length_app; simpl; lia).
  rewrite list_lookup_middle by done. cbn [expect].
  assert (wf_forest (r :: l1 ++ l2)) as Hwf'.
  { eapply wf_forest_perm; [|exact Hwf]. by rewrite Permutation_middle. }
  pose proof Hwf' as (Hr & Hl12 & _)%wf_forest_cons.
  rewrite !descends_anc, (wf_number r Hr). unfold and_then.
  destruct (swap_remove_eq (E' := Error E) l1 r l2) as (l2' & Hl2' & Hrem).
  destruct (bool_decide_reflect (hash r = h)) as [Heq|Hne]; simpl.
  { rewrite (finalize_root_at_eq _ t r) by (by rewrite Hroots, list_lookup_middle).
    split_and!; [by apply wf_children|simpl; by rewrite (wf_number r Hr), Heq|..].
    - simpl. rewrite <- Hbelow, Hroots. by erewrite below_root; [|done|apply list_lookup_middle|].
    - exists r. split; [|done]. apply Hsub, nodes_root. rewrite Hroots. set_solver. }
  assert (forall b : bool, (if b then Ok false else @Ok (Error E) bool false) = Ok false) as Hfalse
    by by intros [].
  rewrite <- Hroots. destruct (anc h (hash r)) eqn:Hhr.
  { rewrite (proj2 (N.ltb_lt _ _) (anc_height _ _ Hhr)). simpl. by eapply opening_advance. }
  rewrite Hfalse, Hroots. cbn [negb andb]. destruct (anc (hash r) h) eqn:Hrh.
  - rewrite (proj2 (N.ltb_lt _ _) (anc_height _ _ Hrh)). rewrite Hrem. cbn [fst snd].
    rewrite <- app_assoc, <- Hroots.
    eapply opening_replace; [done..| |by apply below_ancestor|by right].
    rewrite app_assoc. apply wf_open. eapply wf_forest_perm; [|exact Hwf']. by rewrite Hl2'.
  - rewrite Hfalse, Hrem. cbn [fst snd]. rewrite <- Hroots, <- (app_nil_r l2').
    eapply opening_replace; [done..| |by apply below_unrelated|by left].
    rewrite app_nil_r. eapply wf_forest_perm; [|exact Hl12]. by rewrite Hl2'.
Qed.

(** Finalizing a block together with its ancestors never meets an unfinalized
    ancestor. Exactly the descendants of the block stay, and the loop over the roots
    ends: it opens or drops a root, or moves on, in every round. *)
Theorem finalize_with_ancestors_correct h t :
  wf t ->
  match finalize_with_ancestors (E := E) is_descendent_of h (height h) t with
  | (t', Ok r) => ~ too_old t (height h) /\ finalized_to h t r t'
  | (t', Err Revert) => t' = t /\ too_old t (height h)
  | _ => False
  end.
Proof.
  intros Hwf. unfold finalize_with_ancestors, get_state, lift, bindM.
  destruct (check_best_cases t (height h)) as [[-> Hold]|[-> Hold]]; [|done].
  destruct (finalize_root_cases h t) as [(r & Hr & Hh & -> & Hbelow)|[Hne ->]].
  - assert (wf_node r) as Hwr by by eapply wf_nodes; [exact Hwf|apply nodes_root].
    split; [done|]. split_and!;
      [by apply wf_children|simpl; by rewrite (wf_number r Hwr), Hh|simpl; by rewrite Hbelow|].
    exists r. split; [by apply nodes_root|done].
  - assert (opening h t (0, false) t) as Hop.
    { split; [done..|]. by exists [], (roots t). }
    pose proof (loopM_post (finalize_ancestors_body (E := E) is_descendent_of h (height h))
      (opening h t) (fun s t' => forest_size (drop s.1 (roots t'))) (finalized_to h t)
      (fun _ _ => False) (finalize_ancestors_round h t) (S (forest_size (roots t))) (0, false) t
      Hop (Nat.lt_succ_diag_r _)) as Hloop.
    unfold postM in Hloop. by destruct (loopM _ _ _ t) as [t' [r| | |]].
Qed.

(** ** Pruning *)

(** Every block is in a well-formed forest at most once. *)
Lemma wf_NoDup l : wf_forest l -> NoDup (map hash (nodes l)).
Proof.
  remember (forest_size l) as k eqn:Hk. revert l Hk.
  induction k as [k IH] using lt_wf_ind. intros [|r l] -> Hl; [constructor|].
  pose proof Hl as (Hr & Hl' & Hu)%wf_forest_cons. rewrite forest_size_cons in IH.
  rewrite nodes_cons. simpl. rewrite map_app. apply NoDup_cons. split; [|apply NoDup_app; split_and!].
  - intros [Hx|Hx]%elem_of_app; apply list_elem_of_fmap in Hx as (m & Heq & Hm).
    + apply wf_below in Hm; [|done]. by rewrite Heq, anc_irrefl in Hm.
    + destruct (wf_root_of l m Hl' Hm) as (r' & Hr' & _ & Hrm). destruct (Hu r' Hr') as (Hne & Ha & Hb).
      destruct Hrm as [->|[_ Hrm]]; congruence.
  - eapply IH; [|done|by apply wf_children]. lia.
  - intros x (m & -> & Hm)%list_elem_of_fmap (m' & Heq & Hm')%list_elem_of_fmap.
    apply wf_below in Hm; [|done].
    destruct (wf_root_of l m' Hl' Hm') as (r' & Hr' & _ & Hrm). destruct (Hu r' Hr') as (Hne & Ha & Hb).
    destruct Hrm as [->|[_ Hrm]]; [congruence|]. rewrite <- Heq in Hrm.
    destruct (anc_chain _ _ _ Hm Hrm) as [|[|]]; congruence.
  - eapply IH; [|done|done]. lia.
Qed.

Definition entry_hash (e : H * N * V) : H := e.1.1.

Lemma entries_hashes l : map entry_hash (entries l) = map hash (nodes l).
Proof. unfold entries. rewrite map_map. apply map_ext. by intros []. Qed.

(** Parts of a well-formed forest share no block. *)
Lemma entries_disjoint l k1 k2 x :
  wf_forest l -> entries k1 ++ entries k2 ≡ₚ entries l ->
  x ∈ map hash (nodes k1) -> x ∈ map hash (nodes k2) -> False.
Proof.
  intros Hl Hperm. apply wf_NoDup in Hl. rewrite <- entries_hashes, <- Hperm, map_app in Hl.
  rewrite !entries_hashes in Hl. apply NoDup_app in Hl as (_ & Hdisj & _). apply Hdisj.
Qed.

Lemma entries_in l k x :
  entries l ≡ₚ entries k -> x ∈ map hash (nodes l) -> x ∈ map hash (nodes k).
Proof. intros Hperm. rewrite <- !entries_hashes. by rewrite Hperm. Qed.

Lemma delete_entries i l n :
  l !! i = Some n -> entries (delete i l) ++ entries [n] ≡ₚ entries l.
Proof.
  intros Hi. rewrite <- entries_app. apply entries_perm.
  etrans; [|symmetry; by apply delete_Permutation].
  symmetry. apply Permutation_cons_append.
Qed.

Lemma detach_eq p l n :
  get_node l p = Some n ->
  exists rest, detach (E := E) p l = Ok (n, rest) /\ entries rest ++ entries [n] ≡ₚ entries l.
Proof.
  intros Hn. destruct p as [|i p _] using rev_ind; [done|].
  unfold detach. rewrite last_snoc, length_app. cbn [expect bind length].
  replace (length p + 1 - 1) with (length p) by lia. rewrite take_app_length.
  unfold vec_remove. destruct p as [|j p].
  - change (l !! i = Some n) in Hn. rewrite Hn. cbn [expect bind].
    eexists. split; [done|]. by apply delete_entries.
  - rewrite get_node_snoc in Hn by done. destruct (get_node l (j :: p)) as [m|] eqn:Hm; [|done].
    simpl in Hn. cbn [expect bind]. rewrite Hn. cbn [expect bind fst snd]. eexists. split; [done|].
    apply delete_entries in Hn as Hd.
    pose proof (modify_children_entries _ l m (delete i (children m)) Hm) as Hent.
    rewrite <- Hd, (Permutation_app_comm (entries (delete i (children m))) (entries [n])) in Hent.
    rewrite app_assoc, (Permutation_app_comm (entries (delete i (children m))) (entries l)) in Hent.
    by apply Permutation_app_inv_r in Hent.
Qed.

Section prune.
Context (h : H) (n0 : Node H V).

(** Blocks on one branch with [h]. *)
Definition on_branch (x : H) : bool := anc x h || bool_decide (x = h) || anc h x.

(** What [prune] keeps when [n0] becomes the root. *)
Definition survives (x : H) : bool :=
  (bool_decide (x = hash n0) || anc (hash n0) x) && on_branch x.

Lemma on_branch_false x : on_branch x = false <-> unrelated x h.
Proof.
  unfold on_branch, unrelated. rewrite !orb_false_iff, bool_decide_eq_false. naive_solver.
Qed.

(** A tree whose root is on another branch is on another branch as a whole. *)
Lemma off_branch r x :
  wf_node r -> on_branch (hash r) = false -> x ∈ map hash (nodes [r]) -> on_branch x = false.
Proof.
  intros Hr Hoff (m & -> & Hm)%list_elem_of_fmap. rewrite nodes_cons in Hm. simpl in Hm.
  rewrite app_nil_r, elem_of_cons in Hm. destruct Hm as [->|Hm]; [done|].
  pose proof (wf_below r Hr m Hm) as Hrm. apply on_branch_false in Hoff as (Hne & Ha & Hb).
  apply on_branch_false. split_and!.
  - intros Heq. congruence.
  - destruct (anc (hash m) h) eqn:Hmh; [|done]. by rewrite (anc_trans _ _ _ Hrm Hmh) in Ha.
  - destruct (anc h (hash m)) eqn:Hhm; [|done].
    destruct (anc_chain _ _ _ Hrm Hhm) as [|[|]]; congruence.
Qed.

Lemma off_branch_forest l x :
  wf_forest l -> (forall r, r ∈ l -> on_branch (hash r) = false) ->
  x ∈ map hash (nodes l) -> on_branch x = false.
Proof.
  intros Hl Hoff (m & -> & Hm)%list_elem_of_fmap.
  apply elem_of_nodes in Hm as (r & Hr & Hm). eapply (off_branch r); [|by apply Hoff|].
  - by eapply wf_nodes; [exact Hl|apply nodes_root].
  - apply list_elem_of_fmap_2. rewrite nodes_cons. set_solver.
Qed.

(** The siblings of an ancestor of [h] are on other branches. *)
Lemma sibling_off_branch (c m : Node H V) :
  unrelated (hash c) (hash m) -> anc (hash c) h = true -> on_branch (hash m) = false.
Proof.
  intros (Hne & Ha & Hb) Hc. apply on_branch_false. split_and!.
  - intros Heq. congruence.
  - destruct (anc (hash m) h) eqn:Hmh; [|done].
    destruct (anc_chain _ _ _ Hc Hmh) as [|[|]]; congruence.
  - destruct (anc h (hash m)) eqn:Hhm; [|done]. by rewrite (anc_trans _ _ _ Hc Hhm) in Ha.
Qed.

Lemma find_ancestor_idx_cases i l :
  wf_forest l ->
  find_ancestor_idx (E := E) is_descendent_of h (height h) i l = Ok None /\
    (forall c, c ∈ l -> anc (hash c) h = false) \/
  exists l1 c l2, l = l1 ++ c :: l2 /\ anc (hash c) h = true /\
    find_ancestor_idx (E := E) is_descendent_of h (height h) i l = Ok (Some (i + length l1)).
Proof.
  revert i. induction l as [|c l IH]; intros i Hl; simpl; [left; set_solver|].
  apply wf_forest_cons in Hl as (Hc & Hl & _). rewrite descends_anc, (wf_number c Hc). unfold and_then.
  destruct (anc (hash c) h) eqn:Hch.
  - rewrite (proj2 (N.ltb_lt _ _) (anc_height _ _ Hch)). right. exists [], c, l.
    by rewrite Nat.add_0_r.
  - assert (forall b : bool, (if b then Ok false else @Ok (Error E) bool false) = Ok false) as ->
      by by intros [].
    cbn [bind]. destruct (IH (S i) Hl) as [[-> Hno]|(l1 & c' & l2 & -> & Hc' & ->)].
    + left. set_solver.
    + right. exists (c :: l1), c', l2. split_and!; [done|done|]. simpl. by rewrite Nat.add_succ_r.
Qed.

(** The state of the walk: the reference [curr] and the nodes above it are ancestors
    of [h], the nodes taken out are on other branches. *)
Record walking (t : ForkTree H V) (all : list (H * N * V)) (s : list nat * list (Node H V)) : Prop := {
  walking_wf : wf t;
  walking_entries : entries (roots t) ++ entries s.2 ≡ₚ all;
  walking_removed : forall x, x ∈ map hash (nodes s.2) -> survives x = false;
  walking_under : forall x, x ∈ map hash (nodes (roots t)) -> x = hash n0 \/ anc (hash n0) x = true;
  walking_curr : exists node, get_node (roots t) s.1 = Some node /\ s.1 <> [] /\
    anc (hash node) h = true /\
    forall x, x ∈ map hash (nodes (roots t)) ->
      x ∈ map hash (nodes (children node)) \/ anc x h = true
}.

Lemma survives_off_branch x : on_branch x = false -> survives x = false.
Proof. unfold survives. intros ->. apply andb_false_r. Qed.

Lemma walking_step t all curr removed node l1 c l2 :
  walking t all (curr, removed) -> get_node (roots t) curr = Some node ->
  children node = l1 ++ c :: l2 -> anc (hash c) h = true ->
  let t' := set_roots (modify_node (set_children [c]) curr (roots t)) t in
  walking t' all (curr ++ [0], removed ++ l1 ++ l2) /\ get_node (roots t') (curr ++ [0]) = Some c.
Proof.
  intros [Hwf Hall Hrem Hunder (node' & Hn' & Hcurr & Hnh & Habove)] Hn Hl Hc t'. simpl in *.
  assert (node' = node) as -> by congruence. clear Hn'.
  assert (wf_node node) as Hwn by by eapply wf_nodes; [exact Hwf|eapply get_node_nodes].
  assert (c ∈ children node) as Hcn by (rewrite Hl; set_solver).
  assert (wf_forest (c :: l1 ++ l2)) as Hwl.
  { eapply wf_forest_perm; [|by apply (wf_children node)]. rewrite Hl. by rewrite Permutation_middle. }
  pose proof Hwl as (Hwc & Hwl12 & Hu)%wf_forest_cons.
  assert (wf t') as Hwf'.
  { eapply wf_modify; [exact Hwf|exact Hn|done|]. intros _. apply wf_set_children; [done| |].
    - apply wf_forest_cons. split_and!; [done|by split; constructor|set_solver].
    - repeat constructor. by apply wf_child. }
  assert (entries (roots t') ++ entries (l1 ++ l2) ≡ₚ entries (roots t)) as Hent.
  { pose proof (modify_children_entries curr _ node [c] Hn) as Hent.
    assert (entries (children node) ≡ₚ entries (l1 ++ l2) ++ entries [c]) as Hch.
    { rewrite Hl, <- entries_app. apply entries_perm. rewrite <- Permutation_middle.
      apply Permutation_cons_append. }
    rewrite Hch, (Permutation_app_comm (entries [c])), app_assoc in Hent.
    by apply Permutation_app_inv_r in Hent. }
  assert (get_node (roots t') (curr ++ [0]) = Some c) as Hgc.
  { simpl. rewrite get_node_snoc, (get_modify_eq _ _ _ _ Hn) by done. done. }
  assert (forall x, x ∈ map hash (nodes (roots t')) -> x ∈ map hash (nodes (roots t))) as Hsub.
  { intros x Hx. rewrite <- entries_hashes, <- Hent, map_app, !entries_hashes. set_solver. }
  split; [|done]. split; simpl.
  - done.
  - rewrite <- Hall, <- Hent, (entries_app removed), !app_assoc.
    rewrite <- !app_assoc. apply Permutation_app_head, Permutation_app_comm.
  - intros x. rewrite nodes_app, map_app. intros [Hx|Hx]%elem_of_app; [by apply Hrem|].
    apply survives_off_branch. eapply off_branch_forest; [exact Hwl12| |exact Hx].
    intros m Hm. eapply sibling_off_branch; [by apply Hu|done].
  - intros x Hx. by apply Hunder, Hsub.
  - exists c. split_and!; [done|by destruct curr|done|]. intros x Hx.
    destruct (Habove x (Hsub x Hx)) as [Hin|]; [|by right]. rewrite Hl in Hin.
    rewrite nodes_app, nodes_cons, map_app in Hin. simpl in Hin. rewrite map_app in Hin.
    rewrite !elem_of_app, elem_of_cons, elem_of_app in Hin.
    assert (x ∉ map hash (nodes (l1 ++ l2))) as Hnot.
    { intros Hx2. exact (entries_disjoint _ _ _ x Hwf Hent Hx Hx2). }
    rewrite nodes_app, map_app, elem_of_app in Hnot.
    destruct Hin as [?|[->|[?|?]]]; [tauto|by right|by left|tauto].
Qed.

Definition node_size_at (t : ForkTree H V) (p : list nat) : nat :=
  from_option node_size 0 (get_node (roots t) p).

Lemma node_size_child n c : c ∈ children n -> node_size c < node_size n.
Proof.
  intros (l1 & l2 & Hl)%list_elem_of_split. rewrite !node_size_unfold, Hl.
  rewrite forest_size_app, forest_size_cons. lia.
Qed.

Lemma prune_round all s t :
  walking t all s ->
  postM (prune_body (E := E) is_descendent_of h (height h) s) t
    (fun c t' => best_finalized_number t' = best_finalized_number t /\
       match c with
       | Continue s' => walking t' all s' /\ node_size_at t' s'.1 < node_size_at t s.1
       | Break s' => s' = s /\ t' = t /\ exists node, get_node (roots t) s.1 = Some node /\
           forall c, c ∈ children node -> anc (hash c) h = false
       end) (fun _ _ => False).
Proof.
  destruct s as [curr removed]. intros Hw. pose proof Hw as [Hwf _ _ _ (node & Hn & _)]. simpl in Hn.
  unfold prune_body, postM, bindM, get_state, put_state, ret, lift. rewrite Hn. cbn [expect].
  assert (wf_node node) as Hwn by by eapply wf_nodes; [exact Hwf|eapply get_node_nodes].
  destruct (find_ancestor_idx_cases 0 (children node) (wf_children node Hwn))
    as [[-> Hno]|(l1 & c & l2 & Hl & Hc & ->)].
  - split_and!; [done..|]. eauto.
  - unfold vec_remove. rewrite Hl. simpl. rewrite list_lookup_middle by done. cbn [expect bind].
    rewrite delete_middle.
    destruct (walking_step t all curr removed node l1 c l2 Hw Hn Hl Hc) as [Hw' Hc'].
    split_and!; [done|done|]. unfold node_size_at. simpl. rewrite Hn. simpl in Hc'. rewrite Hc'.
    simpl. apply node_size_child. rewrite Hl. set_solver.
Qed.

(** The test of the last loop: [h] itself or a descendant of it. *)
Definition at_or_below (c : Node H V) : bool := bool_decide (hash c = h) || anc h (hash c).

Lemma prune_children_eq curr l removed t :
  Forall wf_node l ->
  prune_children (E := E) is_descendent_of h (height h) curr removed l t =
  (set_roots (modify_node (fun n => set_children (children n ++ List.filter at_or_below l) n)
                curr (roots t)) t,
   Ok (removed ++ List.filter (fun c => negb (at_or_below c)) l)).
Proof.
  revert removed t. induction l as [|c l IH]; intros removed t Hl; simpl.
  - rewrite modify_node_id, app_nil_r; [by destruct t|]. intros n.
    by rewrite app_nil_r, set_children_id.
  - inversion_clear Hl as [|? ? Hc Hl']. unfold bindM, lift, modify_state.
    assert ((number c =? height h)%N && bool_decide (hash c = h) ||!
      ((height h <? number c)%N &&! descends (E := E) is_descendent_of h (hash c)) =
      Ok (at_or_below c)) as ->.
    { rewrite ltb_anc by done. rewrite (wf_number c Hc). unfold or_else, at_or_below.
      destruct (bool_decide_reflect (hash c = h)) as [<-|Hne]; [by rewrite N.eqb_refl|].
      by rewrite andb_false_r. }
    destruct (at_or_below c); rewrite IH by done; simpl.
    + unfold set_roots. simpl. rewrite modify_node_compose. do 2 f_equal.
      apply modify_node_ext. intros n _. by rewrite children_set, set_children_set, <- app_assoc.
    + by rewrite <- app_assoc.
Qed.

(** The children kept by the last loop are on the branch of [h], with all that is
    below them; the others are not. *)
Lemma kept_on_branch k x :
  wf_forest k -> x ∈ map hash (nodes (List.filter at_or_below k)) -> on_branch x = true.
Proof.
  intros Hk (m & -> & Hm)%list_elem_of_fmap. apply elem_of_nodes in Hm as (c & Hc & Hm).
  apply elem_of_filter_true in Hc as [Hc Hab].
  unfold at_or_below in Hab. rewrite orb_true_iff, bool_decide_eq_true in Hab.
  assert (wf_node c) as Hcw by by eapply wf_nodes; [exact Hk|apply nodes_root].
  unfold on_branch. rewrite !orb_true_iff, bool_decide_eq_true. destruct Hm as [->|Hm]; [tauto|].
  apply wf_below in Hm; [|done]. right. destruct Hab as [<-|Hab]; [done|]. by eapply anc_trans.
Qed.

Lemma out_off_branch k x :
  wf_forest k -> (forall c, c ∈ k -> anc (hash c) h = false) ->
  x ∈ map hash (nodes (List.filter (fun c => negb (at_or_below c)) k)) -> on_branch x = false.
Proof.
  intros Hk Hno. apply off_branch_forest; [by apply wf_forest_filter|].
  intros c [Hc Hab]%elem_of_filter_true. apply on_branch_false.
  unfold at_or_below in Hab. rewrite negb_true_iff, orb_false_iff, bool_decide_eq_false in Hab.
  split_and!; [apply Hab|by apply Hno|apply Hab].
Qed.

(** What the last loop leaves, once no child of [curr] is an ancestor of [h]. *)
Lemma prune_end t all curr removed node :
  walking t all (curr, removed) -> get_node (roots t) curr = Some node ->
  (forall c, c ∈ children node -> anc (hash c) h = false) ->
  let kept := List.filter at_or_below (children node) in
  let out := List.filter (fun c => negb (at_or_below c)) (children node) in
  let l := modify_node (set_children kept) curr (roots t) in
  wf_forest l /\ entries l ++ entries (removed ++ out) ≡ₚ all /\
  (forall x, x ∈ map hash (nodes l) -> survives x = true) /\
  (forall x, x ∈ map hash (nodes (removed ++ out)) -> survives x = false).
Proof.
  intros [Hwf Hall Hrem Hunder (node' & Hn' & Hcurr & Hnh & Habove)] Hn Hno kept out l. simpl in *.
  assert (node' = node) as -> by congruence. clear Hn'.
  assert (wf_node node) as Hwn by by eapply wf_nodes; [exact Hwf|eapply get_node_nodes].
  pose proof (wf_children node Hwn) as Hwc.
  assert (entries kept ++ entries out ≡ₚ entries (children node)) as Hsplit.
  { rewrite <- entries_app. apply entries_perm, partition_perm. }
  assert (entries l ++ entries out ≡ₚ entries (roots t)) as Hent.
  { pose proof (modify_children_entries curr _ node kept Hn) as Hent.
    rewrite <- Hsplit, (Permutation_app_comm (entries kept) (entries out)), app_assoc in Hent.
    rewrite (Permutation_app_comm (entries kept) (entries (roots t))) in Hent.
    by apply Permutation_app_inv_r in Hent. }
  assert (wf_forest l) as Hwl.
  { eapply wf_modify; [exact Hwf|exact Hn|done|]. intros _.
    apply wf_set_children; [done|by apply wf_forest_filter|].
    apply Forall_forall. intros c [Hc _]%elem_of_filter_true. by apply wf_child. }
  split_and!; [done| | |].
  - rewrite <- Hall, <- Hent, entries_app. solve_Permutation.
  - intros x Hx. assert (x ∈ map hash (nodes (roots t))) as Hx'.
    { rewrite <- entries_hashes, <- Hent, map_app, !entries_hashes. set_solver. }
    unfold survives. assert (bool_decide (x = hash n0) || anc (hash n0) x = true) as ->.
    { apply orb_true_iff. rewrite bool_decide_eq_true. by apply Hunder. }
    destruct (Habove x Hx') as [Hin|Hxh]; [|unfold on_branch; by rewrite Hxh].
    rewrite <- entries_hashes, <- Hsplit, map_app, !entries_hashes in Hin.
    apply elem_of_app in Hin as [Hin|Hin]; [|destruct (entries_disjoint _ _ _ x Hwf Hent Hx Hin)].
    by apply (kept_on_branch (children node)).
  - intros x. rewrite nodes_app, map_app. intros [Hx|Hx]%elem_of_app; [by apply Hrem|].
    apply survives_off_branch. by apply (out_off_branch (children node)).
Qed.

(** The walk starts at the detached root. *)
Lemma walking_start t rest best :
  wf t -> n0 ∈ nodes (roots t) -> anc (hash n0) h = true ->
  entries rest ++ entries [n0] ≡ₚ entries (roots t) ->
  walking (mkForkTree [n0] best) (entries (roots t)) ([0], rest).
Proof.
  intros Hwf Hn0 Hh Hent. assert (wf_node n0) as Hwn by by eapply wf_nodes.
  assert (hash n0 ∈ map hash (nodes [n0])) as Hin0.
  { rewrite nodes_cons. apply list_elem_of_fmap_2. by left. }
  split; simpl.
  - apply wf_forest_cons. split_and!; [done|by split; constructor|set_solver].
  - by rewrite Permutation_app_comm.
  - intros x Hx. unfold survives. apply andb_false_iff. left.
    apply orb_false_iff. rewrite bool_decide_eq_false. split.
    + intros ->. exact (entries_disjoint _ _ _ _ Hwf Hent Hx Hin0).
    + destruct (anc (hash n0) x) eqn:Hanc; [|done].
      assert (x ∈ map hash (nodes (roots t))) as Hx'.
      { rewrite <- entries_hashes, <- Hent, map_app, !entries_hashes. set_solver. }
      apply list_elem_of_fmap in Hx' as (m & -> & Hm).
      pose proof (wf_subtree _ n0 m Hwf Hn0 Hm Hanc) as Hsub.
      destruct (entries_disjoint _ _ _ _ Hwf Hent Hx).
      apply list_elem_of_fmap_2. rewrite nodes_cons. set_solver.
  - intros x (m & -> & Hm)%list_elem_of_fmap. rewrite nodes_cons, app_nil_r in Hm.
    apply elem_of_cons in Hm as [->|Hm]; [by left|right; by apply wf_below].
  - exists n0. split_and!; [done|done|done|]. intros x (m & -> & Hm)%list_elem_of_fmap.
    rewrite nodes_cons, app_nil_r in Hm. apply elem_of_cons in Hm as [->|Hm]; [by right|left].
    by apply list_elem_of_fmap_2.
Qed.

Lemma prune_walk all t fuel s :
  walking t all s -> node_size_at t s.1 < fuel ->
  postM (loopM fuel (prune_body (E := E) is_descendent_of h (height h)) s) t
    (fun s' t' => walking t' all s' /\ best_finalized_number t' = best_finalized_number t /\
       exists node, get_node (roots t') s'.1 = Some node /\
         forall c, c ∈ children node -> anc (hash c) h = false) (fun _ _ => False).
Proof.
  intros Hw Hfuel.
  eapply (loopM_post _
    (fun s' t' => walking t' all s' /\ best_finalized_number t' = best_finalized_number t)
    (fun s' t' => node_size_at t' s'.1)); [|done|done].
  intros s' t' [Hw' Hb']. pose proof (prune_round all s' t' Hw') as Hround.
  unfold postM in *. destruct (prune_body _ _ _ s' t') as [t'' [[s''|s'']| | |]]; try done.
  - destruct Hround as (Hb & Hw'' & Hlt). split_and!; [done|congruence|done].
  - destruct Hround as (Hb & -> & -> & Hno). split_and!; done.
Qed.

End prune.

(** Pruning to a block. When no ancestor of the block passes the predicate the
    tree is left as it was. Otherwise the deepest one that passes becomes the root:
    of the blocks at or below it those on one branch with the pruned block stay,
    and the iterator returned yields every other block of the tree exactly once. *)
Theorem prune_correct h predicate t :
  wf t ->
  match prune (E := E) is_descendent_of h (height h) predicate t with
  | (t', Ok removed) =>
      wf t' /\ best_finalized_number t' = best_finalized_number t /\
      match find_node_where (E := E) is_descendent_of h (height h) predicate t with
      | Ok (Some n0) =>
          entries (roots t') ≡ₚ
            List.filter (fun e => survives h n0 (entry_hash e)) (entries (roots t)) /\
          removed_iter removed ≡ₚ
            List.filter (fun e => negb (survives h n0 (entry_hash e))) (entries (roots t))
      | _ => t' = t /\ removed = []
      end
  | _ => False
  end.
Proof.
  intros Hwf. pose proof (find_index_correct h predicate t Hwf) as Hfind.
  unfold prune, find_node_where, bindM, get_state, put_state, ret, lift.
  destruct (find_node_index_where _ _ _ _ _) as [[p|]| | |]; try done.
  destruct Hfind as (n0 & Hn0 & Hin & Hh & _). cbn [bind]. rewrite Hn0. cbn [expect bind].
  destruct (detach_eq p (roots t) n0 Hn0) as (rest & -> & Hent).
  pose proof (walking_start h n0 t rest (best_finalized_number t) Hwf Hin Hh Hent) as Hw.
  pose proof (prune_walk h n0 _ _ (S (node_size n0)) _ Hw (Nat.lt_succ_diag_r _)) as Hwalk.
  unfold postM in Hwalk. unfold set_roots at 1.
  destruct (loopM _ _ _ _) as [t1 [[curr removed]| | |]]; try done.
  destruct Hwalk as (Hw1 & Hb1 & node & Hn1 & Hno). simpl in Hn1, Hb1. rewrite Hn1. cbn [expect].
  assert (wf_node node) as Hwn.
  { eapply wf_nodes; [apply (walking_wf _ _ _ _ _ Hw1)|by eapply get_node_nodes]. }
  rewrite prune_children_eq by apply (wf_children node Hwn). cbn [fst snd].
  rewrite rebalance_eq. cbn [fst snd].
  destruct (prune_end h n0 t1 _ curr removed node Hw1 Hn1 Hno) as (Hwl & Hall & Hin' & Hout).
  unfold set_roots. cbn [roots best_finalized_number]. rewrite modify_node_compose.
  erewrite modify_node_ext by (intros; by rewrite children_set, set_children_set).
  split_and!; [by apply wf_balance_forest|done|..].
  - etrans; [apply balance_forest_entries|]. eapply filter_partition; [exact Hall|..];
      intros e He; [apply Hin'|apply Hout]; rewrite <- entries_hashes; by apply list_elem_of_fmap_2.
  - rewrite removed_iter_nodes, <- (nodes_perm _ _ (Permutation_rev _)).
    eapply filter_partition; [exact Hall|..];
      intros e He; [apply Hin'|apply Hout]; rewrite <- entries_hashes; by apply list_elem_of_fmap_2.
Qed.

End spec.

(** ** Operations that do not depend on ancestry *)

Section structure.
Context {H : Type} `{!EqDecision H} {V E : Type}.
Implicit Types (n : Node H V) (t : ForkTree H V).

(** Siblings are in order of decreasing depth. *)
Definition depth_sorted (l : list (Node H V)) : Prop :=
  Sorted (fun a b => (max_depth b <=? max_depth a) = true) l.

Lemma depth_sorted_balance (l : list (Node H V)) : depth_sorted (balance_forest l).
Proof.
  unfold depth_sorted.
  assert (forall a b : Node H V, (max_depth b <=? max_depth a) = (depth b <=? depth a)) as Hd
    by (intros; by rewrite !max_depth_depth).
  assert (Sorted (fun a b => (depth b <=? depth a) = true) (balance_forest l)) as Hs.
  { apply sort_by_sorted. intros x y. rewrite Nat.leb_gt, Nat.leb_le. lia. }
  induction Hs as [|x k Hk IH Hx]; constructor; [done|].
  destruct Hx; constructor. by rewrite Hd.
Qed.

(** [rebalance] keeps the blocks of the tree and leaves the roots, and the
    children of every node, in order of decreasing [max_depth]. *)
Theorem rebalance_correct t :
  match rebalance (E := E) t with
  | (t', Ok _) =>
      best_finalized_number t' = best_finalized_number t /\
      map node_entry (nodes (roots t')) ≡ₚ map node_entry (nodes (roots t)) /\
      depth_sorted (roots t') /\
      forall n, n ∈ nodes (roots t') -> depth_sorted (children n)
  | _ => False
  end.
Proof.
  rewrite rebalance_eq. split_and!; [done|apply balance_forest_entries|apply depth_sorted_balance|].
  simpl. intros n Hn. enough (exists m, n = balance m) as [m ->].
  { rewrite balance_unfold. apply depth_sorted_balance. }
  revert n Hn. apply nodes_ind.
  - intros n Hn. unfold balance_forest in Hn. rewrite sort_by_perm in Hn.
    apply list_elem_of_fmap in Hn as (m & -> & _). eauto.
  - intros n c _ [m ->] Hc. rewrite balance_unfold in Hc. simpl in Hc. unfold balance_forest in Hc.
    rewrite sort_by_perm in Hc. apply list_elem_of_fmap in Hc as (m' & -> & _). eauto.
Qed.

(** [map] with a function that only looks at its arguments is the map over the
    tree: two queues and the reassembly of the nodes by parent index end with the
    same shape and order. The bound keeps indices apart from [usize::MAX]. *)
Theorem map_correct {W S} (g : H -> N -> V -> W) (st : S) t :
  (N.of_nat (length (node_iter t)) < usize_MAX)%N ->
  map_tree (E := E) (fun s h num d => (s, g h num d)) st t =
  Ok (st, mkForkTree (map (map_node g) (roots t)) (best_finalized_number t)).
Proof. rewrite node_iter_nodes, nodes_length. apply map_tree_eq. Qed.

(** [drain_filter] takes out the subtrees the filter refuses and keeps the rest
    of the tree in place, sorted again when something was taken out; the iterator
    returned and the new tree make up the blocks of the old one. *)
Theorem drain_filter_correct filter t :
  (N.of_nat (length (node_iter t)) < usize_MAX)%N ->
  match drain_filter (E := E) filter t with
  | (t', Ok removed) =>
      best_finalized_number t' = best_finalized_number t /\
      removed ≡ₚ flat_map (dropped filter) (roots t) /\
      roots t' = (if length removed =? 0 then kept_forest filter (roots t)
                  else balance_forest (kept_forest filter (roots t))) /\
      iter t' ++ removed_iter removed ≡ₚ iter t
  | _ => False
  end.
Proof.
  rewrite node_iter_nodes, nodes_length. intros Hsize.
  destruct (drain_filter_eq filter (E := E) t Hsize) as (removed & Hperm & ->).
  split_and!; [done|done|done|]. unfold iter. rewrite !node_iter_nodes, removed_iter_nodes.
  rewrite <- (nodes_perm _ _ (Permutation_rev _)), (nodes_perm _ _ Hperm).
  rewrite <- (kept_dropped_entries filter (roots t)).
  simpl. destruct (length removed =? 0); [done|]. by rewrite balance_forest_entries.
Qed.

(** ** Errors of the client *)

Lemma retain_roots_client (keep : Node H V -> outcome (Error E) bool) c l t t' e :
  retain_roots keep c l t = (t', Err e) ->
  exists l1 r l2, l = l1 ++ r :: l2 /\ keep r = Err e /\
    (forall m, m ∈ l1 -> exists b, keep m = Ok b) /\
    t' = set_roots (roots t ++ List.filter (fun m => match keep m with Ok b => b | _ => false end) l1) t.
Proof.
  revert c t. induction l as [|r l IH]; intros c t; simpl; [done|].
  unfold bindM, lift, modify_state. destruct (keep r) as [b|e'| |] eqn:Hr; [|intros [= <- ->]|done..].
  - intros Hret. assert (exists c' t1, retain_roots keep c' l t1 = (t', Err e) /\
      t1 = set_roots (roots t ++ if b then [r] else []) t) as (c' & t1 & Hret' & ->).
    { destruct b; [by eauto|]. exists true, t. rewrite app_nil_r. by destruct t. }
    destruct (IH _ _ Hret') as (l1 & m & l2 & -> & Hm & Hl1 & ->).
    exists (r :: l1), m, l2. split_and!; [done|done|set_solver|]. simpl. rewrite Hr.
    unfold set_roots. simpl. rewrite <- app_assoc. by destruct b.
  - exists [], r, l. split_and!; [done|done|set_solver|]. simpl. rewrite app_nil_r. by destruct t.
Qed.

Lemma finalize_root_none h t t1 (o : outcome (Error E) (option V)) :
  finalize_root h t = (t1, o) -> (forall e, o <> Err e) /\ (o = Ok None -> t1 = t).
Proof.
  unfold finalize_root, finalize_root_at, get_state, bindM, lift, put_state, ret, vec_swap_remove.
  destruct (list_find _ (roots t)) as [[i x]|]; [|by intros [= <- <-]].
  by destruct (roots t !! i), (last (roots t)); intros [= <- <-].
Qed.

(** When [is_descendent_of] fails while [finalize] goes through the roots it has
    taken out, the call returns that error and the tree is left with the roots kept
    so far only: the root at which it failed, and the roots after it, are gone,
    although no block was finalized. *)
Theorem finalize_client_error (is_desc : H -> H -> E + bool) h num t t' e :
  finalize is_desc h num t = (t', Err (Client e)) ->
  best_finalized_number t' = best_finalized_number t /\
  (t' = t \/
   exists l1 r l2, roots t = l1 ++ r :: l2 /\ is_desc h (hash r) = inl e /\
     roots t' = List.filter (fun m => (num <? number m)%N &&
                   match is_desc h (hash m) with inr b => b | inl _ => false end) l1).
Proof.
  unfold finalize, get_state, lift, bindM, put_state, modify_state, ret.
  destruct (check_best (E := E) num t) as [[]|e'| |] eqn:Hb; try done.
  2: { unfold check_best in Hb. repeat case_match; congruence. }
  destruct (finalize_root h t) as [t1 [[d|]|e'| |]] eqn:Hf; try done.
  all: destruct (finalize_root_none _ _ _ _ Hf) as [Herr Hnone].
  2: by destruct (Herr e').
  rewrite (Hnone eq_refl).
  destruct (check_roots is_desc h num (roots t)) as [[]|e'| |]; try done; [|by intros [= <- ->]; auto].
  destruct (retain_roots _ false (roots t) _) as [t2 [c|e'| |]] eqn:Hret; try done.
  intros [= <- ->]. apply retain_roots_client in Hret as (l1 & r & l2 & Hl & Hr & Hl1 & ->).
  split; [done|]. right. exists l1, r, l2. unfold and_then, descends in *.
  split_and!; [done| |].
  - destruct (num <? number r)%N; [|done]. destruct (is_desc h (hash r)); congruence.
  - simpl. apply List.filter_ext_in. intros m _. destruct (num <? number m)%N; [|done].
    by destruct (is_desc h (hash m)).
Qed.

End structure.

(** ** The theorems on a concrete tree *)

(** Two roots; below [[1]] a fork at the second block. *)
Definition sample : ForkTree (list nat) nat :=
  mkForkTree
    [ mkNode [1] 1 10
        [ mkNode [1; 1] 2 11 [mkNode [1; 1; 1] 3 12 []; mkNode [1; 1; 2; 1] 4 13 []];
          mkNode [1; 2] 2 14 [] ];
      mkNode [2] 1 20 [] ] None.

Lemma sample_wf : wf strict_prefix branch_height sample.
Proof. split; repeat (first [done | constructor]). Qed.

Lemma import_correct_witness :
  exists t', import (E := unit) (is_descendent_of strict_prefix) [1; 2; 7] 3 15 sample = (t', Ok false) /\
    wf strict_prefix branch_height t'.
Proof.
  pose proof (import_correct (E := unit) strict_prefix branch_height [1; 2; 7] 15 sample sample_wf) as Hi.
  eexists. split; [vm_compute; reflexivity|]. apply Hi.
  by apply Forall_forall; repeat constructor.
Defined.

Lemma finalize_correct_witness :
  exists t', finalize (E := unit) (is_descendent_of strict_prefix) [1] 1 sample =
      (t', Ok (Changed (Some 10))) /\
    wf strict_prefix branch_height t' /\ nodes (roots t') = below strict_prefix [1] (roots sample).
Proof.
  pose proof (finalize_correct (E := unit) strict_prefix branch_height [1] sample sample_wf) as Hf.
  eexists. split; [vm_compute; reflexivity|]. split; apply Hf.
Defined.

(** The relation of a client whose database fails on one block. *)
Definition failing (a b : list nat) : unit + bool :=
  if decide (b = [2]) then inl tt else inr (strict_prefix a b).

