(* ===== verification/ForkTreeBranch.v ===== *)
(** * Finalizing along a branch

    What [finalize_with_descendent_if] and [finalizes_any_with_descendent_if] do to a
    well-formed tree. Both look for a node that passes a predicate and is at or above the
    finalized block; among the roots there is at most one on each branch. *)

From S2P Require Import Prelude ForkTree ForkTreeLoops ForkTreeSpec.

Section branch.
Context {H : Type} `{!EqDecision H} {V E : Type}.
Context (anc : H -> H -> bool) (height : H -> N) `{!Ancestry anc height}.
Context (h : H) (predicate : V -> bool).
Implicit Types (n r c : Node H V) (l : list (Node H V)) (t : ForkTree H V).

(** The block is [h] or an ancestor of it. *)
Definition at_or_above (x : H) : bool := bool_decide (x = h) || anc x h.

(** The node a call looks for, and whether [h] is past one of its children. *)
Definition passes n : bool := predicate (data n) && at_or_above (hash n).
Definition past_child n : bool := existsb (fun c => at_or_above (hash c)) (children n).

Lemma at_or_above_height x : at_or_above x = true -> (height x <= height h)%N.
Proof.
  unfold at_or_above. intros [->%bool_decide_eq_true|Hx%anc_height]%orb_true_iff; lia.
Qed.

Lemma at_or_above_related x y :
  at_or_above x = true -> at_or_above y = true -> ~ unrelated anc x y.
Proof.
  unfold at_or_above, unrelated.
  intros [->%bool_decide_eq_true|Hx]%orb_true_iff [->%bool_decide_eq_true|Hy]%orb_true_iff (Hne & Hxy & Hyx);
    try congruence. destruct (anc_chain _ _ _ Hx Hy) as [?|[?|?]]; congruence.
Qed.

Lemma check_children_ok r : wf_node anc height r ->
  check_children (E := E) (is_descendent_of anc) h (height h) (children r) =
  if past_child r then Err UnfinalizedAncestor else Ok tt.
Proof.
  intros Hr%wf_children. unfold past_child. destruct Hr as [_ Hr].
  induction Hr as [|c l Hc Hl IH]; [done|]. cbn [check_children existsb]. rewrite IH.
  assert ((number c <=? height h)%N &&! (bool_decide (hash c = h) ||! descends (is_descendent_of anc) (hash c) h) =
    Ok (E := Error E) (at_or_above (hash c))) as ->.
  { rewrite (wf_number _ _ _ Hc). destruct (at_or_above (hash c)) eqn:Ha.
    - pose proof (at_or_above_height _ Ha) as ->%N.leb_le. unfold at_or_above in Ha.
      unfold and_then, or_else. rewrite descends_anc. destruct (bool_decide _); [done|]. by rewrite <- Ha.
    - unfold at_or_above in Ha. apply orb_false_iff in Ha as [-> Ha]. simpl. rewrite descends_anc, Ha.
      by destruct (_ <=? _)%N. }
  by destruct (at_or_above (hash c)).
Qed.

Lemma find_finalized_ok l i : Forall (wf_node anc height) l ->
  find_finalized (E := E) (is_descendent_of anc) h (height h) predicate i l =
  match list_find (fun n => passes n = true) l with
  | None => Ok None
  | Some (j, n) => if past_child n then Err UnfinalizedAncestor else Ok (Some (i + j, n))
  end.
Proof.
  intros Hl. revert i. induction Hl as [|n l Hn Hl IH]; intros i; [done|]. cbn [find_finalized list_find].
  assert (predicate (data n) &&! (bool_decide (hash n = h) ||! descends (is_descendent_of anc) (hash n) h) =
    Ok (E := Error E) (passes n)) as ->.
  { unfold passes, at_or_above. simpl. rewrite descends_anc.
    by destruct (predicate (data n)); simpl; [destruct (bool_decide _)|]. }
  cbn [bind]. destruct (passes n) eqn:Hp.
  - rewrite decide_True by done. rewrite (check_children_ok n Hn), Nat.add_0_r. by destruct (past_child n).
  - rewrite decide_False by done. rewrite IH.
    destruct (list_find _ l) as [[j m]|]; simpl; [|done]. by rewrite Nat.add_succ_r.
Qed.

(** At most one root is at or above [h]. *)
Lemma one_root t n r : wf anc height t -> n ∈ roots t -> r ∈ roots t ->
  at_or_above (hash n) = true -> at_or_above (hash r) = true -> n = r.
Proof.
  intros Hwf Hn Hr Hpn Hpr. destruct (wf_siblings _ _ _ _ _ Hwf Hn Hr) as [?|Hu]; [done|].
  by destruct (at_or_above_related _ _ Hpn Hpr).
Qed.

(** The roots that stay: those on one branch with [h]. *)
Lemma keep_eq r : wf_node anc height r ->
  (let! a := (height h <? number r)%N &&! descends (is_descendent_of anc) h (hash r) in
   (a || (number r =? height h)%N && bool_decide (hash r = h)) ||!
     descends (is_descendent_of anc) (hash r) h) =
  Ok (E := Error E) (on_branch anc h (hash r)).
Proof.
  intros Hr. rewrite (wf_number _ _ _ Hr), !descends_anc. unfold on_branch.
  destruct (anc h (hash r)) eqn:Hb.
  - pose proof (anc_height _ _ Hb) as ->%N.ltb_lt. simpl. by rewrite !orb_true_r.
  - assert ((height h <? height (hash r))%N &&! Ok false = Ok (E := Error E) false) as -> by (by destruct (_ <? _)%N).
    cbn [bind]. destruct (decide (hash r = h)) as [->|Hne].
    + rewrite N.eqb_refl, !bool_decide_true by done. by destruct (anc h h).
    + rewrite bool_decide_false by done. rewrite andb_false_r. by rewrite !orb_false_r.
Qed.

(** What the call answers when the passing root, if any, is [o]. *)
Definition finalized_tree (l : list (Node H V)) : ForkTree H V :=
  mkForkTree (List.filter (fun r => on_branch anc h (hash r)) l) (Some (height h)).

Lemma finalize_descendent_ok t : wf anc height t ->
  finalize_with_descendent_if (E := E) (is_descendent_of anc) h (height h) predicate t =
  match check_best (E := E) (height h) t with
  | Ok _ =>
      match list_find (fun n => passes n = true) (roots t) with
      | Some (_, r) =>
          if past_child r then (t, Err UnfinalizedAncestor)
          else (finalized_tree (children r), Ok (Changed (Some (data r))))
      | None =>
          (finalized_tree (roots t),
           Ok (if forallb (fun r => on_branch anc h (hash r)) (roots t) then Unchanged else Changed None))
      end
  | _ => (t, Err Revert)
  end.
Proof.
  intros [Hu Hwf]. unfold finalize_with_descendent_if. run_steps.
  destruct (check_best_cases (E := E) t (height h)) as [[Hb _]|[Hb _]]; unfold bindM at 1, lift at 1; rewrite Hb; [|done].
  unfold bindM at 1, lift at 1. rewrite (find_finalized_ok _ _ Hwf).
  destruct (list_find _ (roots t)) as [[j r]|] eqn:Hfind.
  - destruct (past_child r); [done|]. apply list_find_Some in Hfind as (Hj & _ & _). simpl (0 + j).
    assert (wf_node anc height r) as Hr.
    { rewrite Forall_forall in Hwf. apply Hwf. by eapply list_elem_of_lookup_2. }
    destruct (wf_children _ _ _ Hr) as [_ Hc]. rewrite Forall_forall in Hc.
    unfold bindM at 1 2. rewrite (finalize_root_at_eq _ _ _ Hj). unfold ret at 1.
    unfold bindM at 1, get_state. unfold bindM at 1, put_state. unfold bindM at 1.
    rewrite (retain_roots_eq _ (fun r => on_branch anc h (hash r))) by (intros; by apply keep_eq, Hc). done.
  - unfold ret at 1. unfold bindM at 1 2, get_state. unfold bindM at 1, put_state. unfold bindM at 1.
    rewrite Forall_forall in Hwf.
    rewrite (retain_roots_eq _ (fun r => on_branch anc h (hash r))) by (intros; by apply keep_eq, Hwf).
    unfold bindM, modify_state, ret, finalized_tree, set_best, set_roots. simpl. by destruct (forallb _ _).
Qed.

Lemma finalized_tree_wf l : wf_forest anc height l -> wf anc height (finalized_tree l).
Proof. apply wf_forest_filter. Qed.

Lemma finalizes_any_ok t : wf anc height t ->
  finalizes_any_with_descendent_if (E := E) (is_descendent_of anc) h (height h) predicate t =
  match check_best (E := E) (height h) t with
  | Ok _ =>
      match list_find (fun n => passes n = true) (nodes (roots t)) with
      | Some (_, n) =>
          if past_child n then Err UnfinalizedAncestor
          else Ok (Some (existsb (fun root => bool_decide (hash root = hash n)) (roots t)))
      | None => Ok None
      end
  | _ => Err Revert
  end.
Proof.
  intros Hwf. unfold finalizes_any_with_descendent_if.
  destruct (check_best_cases (E := E) t (height h)) as [[-> _]|[-> _]]; [|done]. cbn [bind].
  rewrite node_iter_nodes, find_finalized_ok.
  - destruct (list_find _ _) as [[j n]|]; [|done]. by destruct (past_child n).
  - apply Forall_forall. intros n Hn. by eapply wf_nodes.
Qed.

(** A node with the hash of a root is that root. *)
Lemma same_hash_root t n : wf anc height t -> n ∈ nodes (roots t) ->
  existsb (fun root => bool_decide (hash root = hash n)) (roots t) = true -> n ∈ roots t.
Proof.
  intros Hwf Hn (r & Hr%list_elem_of_In & Heq%bool_decide_eq_true)%existsb_exists.
  pose proof (wf_NoDup _ _ _ Hwf) as Hnd.
  apply list_elem_of_lookup in Hn as [i Hi]. pose proof (nodes_root _ _ Hr) as [j Hj]%list_elem_of_lookup.
  assert (i = j) as ->; [|congruence].
  eapply NoDup_lookup; [exact Hnd| |]; rewrite list_lookup_fmap; [by rewrite Hi|rewrite Hj; simpl; congruence].
Qed.
End branch.
