(* ===== verification/ForkTreeRevert.v ===== *)
(** * Reverting to a block

    What [drain_filter] does with the filter of the [revert] methods that use a fork tree: it keeps
    what is at or above the block, goes on below that, removes what is below the block and keeps the
    other branches.  Exactly the blocks below it are taken out. *)

From S2P Require Import Prelude ForkTree ForkTreeLoops ForkTreeSpec ForkTreeBranch.

Lemma filter_pairs {A} (R : A -> A -> Prop) {B} (g : B -> A) (f : B -> bool) l :
  ForallOrdPairs R (map g l) -> ForallOrdPairs R (map g (List.filter f l)).
Proof.
  induction l as [|x l IH]; simpl; [done|]. inversion 1 as [|? ? Hx Hl]; subst.
  destruct (f x); simpl; [|by apply IH]. constructor; [|by apply IH].
  rewrite Forall_forall in *. intros y (z & -> & [Hz _]%elem_of_filter_true)%list_elem_of_fmap.
  apply Hx. by apply list_elem_of_fmap_2.
Qed.

Section revert.
Context {H : Type} `{!EqDecision H} {V : Type}.
Context (anc : H -> H -> bool) (height : H -> N) `{!Ancestry anc height} (h : H).
Implicit Types (n : Node H V) (l : list (Node H V)) (t : ForkTree H V).

(** Not below [h]. *)
Definition not_after (e : H * N * V) : bool := negb (anc h e.1.1).

Context (rf : H -> N -> V -> FilterAction).
Context (Hrf : forall n, wf_node anc height n -> rf (hash n) (number n) (data n) =
  if at_or_above anc h (hash n) then KeepNode else if anc h (hash n) then Remove else KeepTree).

Lemma after_children n m : wf_node anc height n -> at_or_above anc h (hash n) = false ->
  m ∈ nodes [n] -> anc h (hash m) = anc h (hash n).
Proof.
  intros Hn Ha Hm. rewrite nodes_cons in Hm. simpl in Hm.
  rewrite app_nil_r, elem_of_cons in Hm. destruct Hm as [->|Hm]; [done|].
  pose proof (wf_below _ _ n Hn m Hm) as Hnm. unfold at_or_above in Ha.
  apply orb_false_iff in Ha as [Hne%bool_decide_eq_false Ha].
  destruct (anc h (hash n)) eqn:Hh; [by eapply anc_trans|].
  destruct (anc h (hash m)) eqn:Hhm; [|done].
  destruct (anc_chain _ _ _ Hhm Hnm) as [?|[?|?]]; congruence.
Qed.

Lemma kept_forest_entries l :
  Forall (fun n => wf_node anc height n -> map node_entry (nodes (option_list (kept rf n))) =
                   List.filter not_after (map node_entry (nodes [n]))) l ->
  Forall (wf_node anc height) l ->
  map node_entry (nodes (kept_forest rf l)) = List.filter not_after (map node_entry (nodes l)).
Proof.
  induction 1 as [|n l Hn _ IH]; inversion 1; subst; [done|]. unfold kept_forest. simpl.
  rewrite nodes_app, map_app, Hn by done. change (n :: l) with ([n] ++ l).
  rewrite nodes_app, map_app, List.filter_app. f_equal. by apply IH.
Qed.

Lemma kept_entries n : wf_node anc height n ->
  map node_entry (nodes (option_list (kept rf n))) =
  List.filter not_after (map node_entry (nodes [n])).
Proof.
  induction n as [x num d l IH] using Node_tree_ind. intros Hn. rewrite kept_unfold, Hrf by done.
  destruct (at_or_above anc h (hash _)) eqn:Ha; [|destruct (anc h (hash _)) eqn:Hb].
  - change (option_list (Some ?k)) with [k]. rewrite !nodes_cons. change (nodes []) with (@nil (Node H V)). rewrite !app_nil_r.
    cbn [map]. change (node_entry (set_children _ _)) with (x, num, d). change (node_entry (mkNode x num d l)) with (x, num, d).
    cbn [List.filter]. assert (not_after (x, num, d) = true) as ->.
    { unfold not_after. simpl in *. unfold at_or_above in Ha.
      apply orb_true_iff in Ha as [->%bool_decide_eq_true|Ha]; [by rewrite (anc_irrefl _ height)|].
      by rewrite (anc_asym _ height _ _ Ha). }
    f_equal. apply kept_forest_entries; [done|]. by destruct (wf_children _ _ _ Hn).
  - symmetry. apply filter_none. intros e (m & -> & Hm)%list_elem_of_fmap.
    unfold not_after. simpl. by rewrite (after_children _ m Hn Ha Hm), Hb.
  - symmetry. apply filter_all. intros e (m & -> & Hm)%list_elem_of_fmap.
    unfold not_after. simpl. by rewrite (after_children _ m Hn Ha Hm), Hb.
Qed.

(** The nodes kept at one level are some of those that were there. *)
Lemma kept_hash n n' : kept rf n = Some n' -> hash n' = hash n.
Proof. rewrite kept_unfold. by destruct (rf _ _ _); intros [= <-]. Qed.

Lemma kept_forest_hashes l :
  map hash (kept_forest rf l) = map hash (List.filter (fun n => bool_decide (is_Some (kept rf n))) l).
Proof.
  induction l as [|n l IH]; [done|]. unfold kept_forest in *. simpl.
  destruct (kept rf n) as [n'|] eqn:Hk.
  - rewrite bool_decide_true by (by eexists). simpl. by rewrite IH, (kept_hash _ _ Hk).
  - rewrite bool_decide_false by (by intros [? ?]). done.
Qed.

Lemma wf_kept n n' : wf_node anc height n -> kept rf n = Some n' -> wf_node anc height n'.
Proof.
  revert n'. induction n as [x num d l IH] using Node_tree_ind. intros n' Hn. rewrite kept_unfold.
  destruct (rf _ _ _); [done| |by intros [= <-]]. intros [= <-].
  pose proof (wf_children _ _ _ Hn) as [Hu Hw]. simpl in Hu, Hw.
  assert (forall m', m' ∈ kept_forest rf l -> exists m, m ∈ l /\ kept rf m = Some m') as Hin.
  { intros c' Hc'. unfold kept_forest in Hc'. rewrite list_elem_of_In, in_flat_map in Hc'.
    destruct Hc' as (c & Hc%list_elem_of_In & Hk). exists c. split; [done|].
    destruct (kept rf c); simpl in Hk; [by destruct Hk as [->|[]]|done]. }
  rewrite Forall_forall in IH, Hw. apply wf_set_children; [done|split|].
  - cbn [children]. rewrite kept_forest_hashes. by apply filter_pairs.
  - apply Forall_forall. intros c' (c & Hc & Hk)%Hin. by apply (IH c Hc); [apply Hw|].
  - apply Forall_forall. intros c' (c & Hc & Hk)%Hin. rewrite (kept_hash _ _ Hk). by apply (wf_child _ _ _ c Hn).
Qed.

Lemma wf_kept_forest l : wf_forest anc height l -> wf_forest anc height (kept_forest rf l).
Proof.
  intros [Hu Hw]. split.
  - rewrite kept_forest_hashes. by apply filter_pairs.
  - apply Forall_forall. intros m Hm. unfold kept_forest in Hm. rewrite list_elem_of_In, in_flat_map in Hm.
    destruct Hm as (n & Hn%list_elem_of_In & Hk). rewrite Forall_forall in Hw.
    destruct (kept rf n) eqn:Heq; simpl in Hk; [|done]. destruct Hk as [->|[]]. by eapply wf_kept; [apply Hw|].
Qed.

Lemma drain_revert_ok {E} t : wf anc height t -> (N.of_nat (length (iter t)) < usize_MAX)%N ->
  exists t' removed, drain_filter (E := E) rf t = (t', Ok removed) /\ wf anc height t' /\
    best_finalized_number t' = best_finalized_number t /\
    map node_entry (nodes (roots t')) ≡ₚ List.filter not_after (map node_entry (nodes (roots t))) /\
    removed_iter removed ≡ₚ List.filter (fun e => negb (not_after e)) (map node_entry (nodes (roots t))).
Proof.
  intros Hwf Hsize. unfold iter in Hsize. rewrite length_map, node_iter_nodes, nodes_length in Hsize.
  destruct (drain_filter_eq rf (E := E) t Hsize) as (removed & Hrem & Hdrain).
  assert (map node_entry (nodes (kept_forest rf (roots t))) = List.filter not_after (map node_entry (nodes (roots t)))) as Hkept.
  { apply kept_forest_entries; [|apply Hwf]. apply Forall_forall. intros n _. apply kept_entries. }
  eexists _, removed. split; [done|]. split_and!.
  - unfold wf. simpl. pose proof (wf_kept_forest _ Hwf). destruct (_ =? 0); [done|by apply wf_balance_forest].
  - done.
  - rewrite <-Hkept. simpl. destruct (_ =? 0); [done|by rewrite balance_forest_entries].
  - rewrite removed_iter_nodes, <-(nodes_perm _ _ (Permutation_rev _)), (nodes_perm _ _ Hrem).
    pose proof (kept_dropped_entries rf (roots t)) as Hall. rewrite Hkept in Hall.
    apply (Permutation_app_inv_l (List.filter not_after (map node_entry (nodes (roots t))))). rewrite Hall.
    clear. induction (map node_entry (nodes (roots t))) as [|e l IH]; [done|]. simpl. destruct (not_after e); simpl; [by rewrite <-IH|].
    by rewrite <-Permutation_middle, <-IH.
Qed.
End revert.
