(* ===== verification/Authorities.v ===== *)
(** * GRANDPA authority sets

    Model of [client/consensus/grandpa/src/authorities.rs]: the current authorities, the
    pending standard changes in a fork tree, the pending forced changes in a sorted vector, and the
    log of the blocks at which the set changed. The block number type, a parameter of the source
    with an order and an addition, is [N]; the set id is a [u64]. The log lines, the
    telemetry, the lock around the shared set and the codec are left out. *)

From S2P Require Import Prelude ForkTree.

(** The errors of [AuthoritySet]; the number is the one of the unsatisfied dependency. *)
Inductive Error (E : Type) : Type :=
| InvalidAuthoritySet
| Client (e : E)
| DuplicateAuthoritySetChange
| MultiplePendingForcedAuthoritySetChanges
| ForcedAuthoritySetChangeDependencyUnsatisfied (n : N)
| ForkTreeError (e : ForkTree.Error E).
Arguments InvalidAuthoritySet {E}.
Arguments Client {E} e.
Arguments DuplicateAuthoritySetChange {E}.
Arguments MultiplePendingForcedAuthoritySetChanges {E}.
Arguments ForcedAuthoritySetChangeDependencyUnsatisfied {E} n.
Arguments ForkTreeError {E} e.

(** [From<fork_tree::Error<E>>] *)
Definition from_fork_tree {E} (err : ForkTree.Error E) : Error E :=
  match err with
  | ForkTree.Client e => Client e
  | Duplicate => DuplicateAuthoritySetChange
  | err => ForkTreeError err
  end.

Inductive DelayKind : Type :=
| Finalized
| Best (median_last_finalized : N).

(** [AuthorityList]: identifiers with weights. *)
Notation AuthorityList Id := (list (Id * N)).

Record PendingChange (Id H : Type) : Type := mkChange {
  next_authorities : AuthorityList Id;
  delay : N;
  canon_height : N;
  canon_hash : H;
  delay_kind : DelayKind
}.
Arguments mkChange {Id H} next_authorities delay canon_height canon_hash delay_kind.
Arguments next_authorities {Id H} p.
Arguments delay {Id H} p.
Arguments canon_height {Id H} p.
Arguments canon_hash {Id H} p.
Arguments delay_kind {Id H} p.

Definition effective_number {Id H} (c : PendingChange Id H) : N := (canon_height c + delay c)%N.

(** ** The log of changes *)

(** [AuthoritySetChanges]: set ids with the number of the last block of the set. *)
Notation AuthoritySetChanges := (list (N * N)).

Inductive AuthoritySetChangeId : Type :=
| Latest
| Set_ (set_id block_number : N)
| Unknown.

Record SetIdConflict : Type := mkConflict { conflicting_id : N }.

Definition log_append (set_id block_number : N) (log : AuthoritySetChanges) : AuthoritySetChanges :=
  log ++ [(set_id, block_number)].

(** The position of a block number in the log. *)
Definition by_number (block_number : N) (entry : N * N) : comparison :=
  (entry.2 ?= block_number)%N.

Definition get_set_id (block_number : N) (log : AuthoritySetChanges) : AuthoritySetChangeId :=
  if match last log with Some x => (x.2 <? block_number)%N | None => false end then Latest
  else
    match log !! search_index (by_number block_number) log with
    | Some (set_id, last_block) =>
        if (search_index (by_number block_number) log =? 0) && negb (set_id =? 0)%N then Unknown
        else Set_ set_id last_block
    | None => Unknown
    end.

Definition log_insert `{!Profile} (block_number : N)
  : M AuthoritySetChanges SetIdConflict unit :=
  let* log := get_state in
  let idx := search_index (by_number block_number) log in
  let* set_id := lift (
    if idx =? 0 then Ok 0%N
    else let! prev := expect (log !! (idx - 1)) in add_u64 prev.1 1) in
  let* conflict := lift (
    negb (idx =? length log) &&! (let! next := expect (log !! idx) in Ok (next.1 =? set_id)%N)) in
  if conflict then throw (mkConflict set_id)
  else put_state (take idx log ++ (set_id, block_number) :: drop idx log).

Definition iter_from (block_number : N) (log : AuthoritySetChanges)
  : option AuthoritySetChanges :=
  let idx := match binary_search_by (by_number block_number) log with inl n => S n | inr b => b end in
  match log !! idx with
  | Some (set_id, _) =>
      if (idx =? 0) && negb (set_id =? 0)%N then None else Some (drop idx log)
  | None => Some (drop idx log)
  end.

(** ** The set *)

Record AuthoritySet (Id H : Type) : Type := mkSet {
  current_authorities : AuthorityList Id;
  set_id : N;
  pending_standard_changes : ForkTree H (PendingChange Id H);
  pending_forced_changes : list (PendingChange Id H);
  authority_set_changes : AuthoritySetChanges
}.
Arguments mkSet {Id H}.
Arguments current_authorities {Id H} a.
Arguments set_id {Id H} a.
Arguments pending_standard_changes {Id H} a.
Arguments pending_forced_changes {Id H} a.
Arguments authority_set_changes {Id H} a.

Record Status (H : Type) : Type := mkStatus {
  changed : bool;
  new_set_block : option (H * N)
}.
Arguments mkStatus {H}.
Arguments changed {H} s.
Arguments new_set_block {H} s.

Section set.
Context {P : Profile} {Id H : Type} `{!EqDecision H}.
Implicit Types (a : AuthoritySet Id H) (c : PendingChange Id H).

Definition set_standard (t : ForkTree H (PendingChange Id H)) a : AuthoritySet Id H :=
  mkSet (current_authorities a) (set_id a) t (pending_forced_changes a) (authority_set_changes a).
Definition set_forced (l : list (PendingChange Id H)) a : AuthoritySet Id H :=
  mkSet (current_authorities a) (set_id a) (pending_standard_changes a) l (authority_set_changes a).

Definition invalid_authority_list (authorities : AuthorityList Id) : bool :=
  match authorities with [] => true | _ => false end ||
  existsb (fun x => (x.2 =? 0)%N) authorities.

Definition genesis (initial : AuthorityList Id) : option (AuthoritySet Id H) :=
  if invalid_authority_list initial then None else Some (mkSet initial 0 ForkTree.new [] []).

(** [AuthoritySet::new] *)
Definition new_set (authorities : AuthorityList Id) (set_id : N)
    (standard : ForkTree H (PendingChange Id H)) (forced : list (PendingChange Id H))
    (log : AuthoritySetChanges) : option (AuthoritySet Id H) :=
  if invalid_authority_list authorities then None
  else Some (mkSet authorities set_id standard forced log).

Definition current a : N * AuthorityList Id := (set_id a, current_authorities a).

(** A call on the tree of standard changes. *)
Definition on_standard {E E' A} (f : E -> E') (m : M (ForkTree H (PendingChange Id H)) E A)
  : M (AuthoritySet Id H) E' A := fun a =>
  let '(t, r) := map_errM f m (pending_standard_changes a) in (set_standard t a, r).

Section ancestry.
Context {E : Type} (is_descendent_of : H -> H -> E + bool).

(** A call with [?], and one with [unwrap_or_default()]. *)
Definition descends_or_fail (base target : H) : outcome (Error E) bool :=
  match is_descendent_of base target with inl e => Err (Client e) | inr b => Ok b end.
Definition descends_or_false (base target : H) : bool :=
  match is_descendent_of base target with inl _ => false | inr b => b end.

(** The filter that [revert] hands to the tree. *)
Definition revert_filter (h : H) (num : N) (node_hash : H) (node_num : N)
    (_ : PendingChange Id H) : FilterAction :=
  if (node_num <=? num)%N && (descends_or_false node_hash h || bool_decide (node_hash = h))
  then KeepNode
  else if (num <? node_num)%N && descends_or_false h node_hash then Remove
  else KeepTree.

Definition revert {X} (h : H) (num : N) : M (AuthoritySet Id H) X unit :=
  let* _ := on_standard id (drain_filter (revert_filter h num)) in
  modify_state (fun a => set_forced
    (List.filter (fun c => negb (descends_or_false h (canon_hash c))) (pending_forced_changes a)) a).

(** The first change of [l] that was signalled on the chain of [best_hash]. *)
Fixpoint first_on_chain (best_hash : H) (l : list (PendingChange Id H))
  : outcome (Error E) (option (H * N)) :=
  match l with
  | [] => Ok None
  | c :: l' =>
      let! d := descends_or_fail (canon_hash c) best_hash in
      if d then Ok (Some (canon_hash c, canon_height c)) else first_on_chain best_hash l'
  end.

Definition next_change (best_hash : H) a : outcome (Error E) (option (H * N)) :=
  let! forced := first_on_chain best_hash (pending_forced_changes a) in
  let! standard := first_on_chain best_hash
    (map (fun x => x.2) (roots_iter (pending_standard_changes a))) in
  Ok (match forced, standard with
      | Some forced, Some standard =>
          Some (if (forced.2 <? standard.2)%N then forced else standard)
      | Some forced, None => Some forced
      | None, standard => standard
      end).

Definition add_standard_change (pending : PendingChange Id H)
  : M (AuthoritySet Id H) (Error E) unit :=
  let* _ := on_standard from_fork_tree
    (import is_descendent_of (canon_hash pending) (canon_height pending) pending) in
  ret tt.

(** The checks of a forced change against those that are pending. *)
Fixpoint check_forced (pending : PendingChange Id H) (l : list (PendingChange Id H))
  : outcome (Error E) unit :=
  match l with
  | [] => Ok tt
  | c :: l' =>
      if bool_decide (canon_hash c = canon_hash pending) then Err DuplicateAuthoritySetChange
      else
        let! d := descends_or_fail (canon_hash c) (canon_hash pending) in
        if d then Err MultiplePendingForcedAuthoritySetChanges else check_forced pending l'
  end.

(** The order of the vector: by effective number, then by the number of the signal. *)
Definition forced_key c : N * N := (effective_number c, canon_height c).
Definition compare_key (x y : N * N) : comparison :=
  match (x.1 ?= y.1)%N with Eq => (x.2 ?= y.2)%N | r => r end.

Definition add_forced_change (pending : PendingChange Id H)
  : M (AuthoritySet Id H) (Error E) unit :=
  let* a := get_state in
  let l := pending_forced_changes a in
  let* _ := lift (check_forced pending l) in
  let idx := search_index (fun c => compare_key (forced_key c) (forced_key pending)) l in
  put_state (set_forced (take idx l ++ pending :: drop idx l) a).

Definition add_pending_change (pending : PendingChange Id H)
  : M (AuthoritySet Id H) (Error E) unit :=
  if invalid_authority_list (next_authorities pending) then throw InvalidAuthoritySet
  else
    match delay_kind pending with
    | Best _ => add_forced_change pending
    | Finalized => add_standard_change pending
    end.

Definition pending_changes a : list (PendingChange Id H) :=
  map (fun x => x.2) (iter (pending_standard_changes a)) ++ pending_forced_changes a.

(** [Iterator::min_by_key]: the first of the least elements. *)
Fixpoint min_by_key {A} (key : A -> N) (l : list A) : option A :=
  match l with
  | [] => None
  | x :: l' =>
      match min_by_key key l' with
      | Some y => Some (if (key y <? key x)%N then y else x)
      | None => Some x
      end
  end.

Definition current_limit (min : N) a : option N :=
  effective_number <$>
    min_by_key effective_number
      (List.filter (fun c => (min <=? effective_number c)%N)
         (map (fun x => x.2) (roots_iter (pending_standard_changes a)))).

Fixpoint take_while {A} (p : A -> bool) (l : list A) : list A :=
  match l with
  | [] => []
  | x :: l' => if p x then x :: take_while p l' else []
  end.

(** The standard changes that a forced change depends on must have been applied. *)
Fixpoint check_dependencies (c : PendingChange Id H) (median_last_finalized : N)
    (l : list (PendingChange Id H)) : outcome (Error E) unit :=
  match l with
  | [] => Ok tt
  | standard :: l' =>
      let! d := (effective_number standard <=? median_last_finalized)%N &&!
                descends_or_fail (canon_hash standard) (canon_hash c) in
      if d then Err (ForcedAuthoritySetChangeDependencyUnsatisfied (effective_number standard))
      else check_dependencies c median_last_finalized l'
  end.

(** The loop over the forced changes that take effect at the best block. *)
Fixpoint apply_forced (best_hash : H) a (l : list (PendingChange Id H))
  : outcome (Error E) (option (N * AuthoritySet Id H)) :=
  match l with
  | [] => Ok None
  | c :: l' =>
      let! d := bool_decide (canon_hash c = best_hash) ||! descends_or_fail (canon_hash c) best_hash in
      if d then
        match delay_kind c with
        | Finalized => Panic
        | Best median_last_finalized =>
            let! _ := check_dependencies c median_last_finalized
              (map (fun x => x.2) (roots_iter (pending_standard_changes a))) in
            let! id := add_u64 (set_id a) 1 in
            Ok (Some (median_last_finalized,
              mkSet (next_authorities c) id ForkTree.new []
                (log_append (set_id a) median_last_finalized (authority_set_changes a))))
        end
      else apply_forced best_hash a l'
  end.

Definition apply_forced_changes (best_hash : H) (best_number : N) a
  : outcome (Error E) (option (N * AuthoritySet Id H)) :=
  apply_forced best_hash a
    (List.filter (fun c => (effective_number c =? best_number)%N)
       (take_while (fun c => (effective_number c <=? best_number)%N) (pending_forced_changes a))).

(** The loop that puts back the forced changes to keep. *)
Definition keep_forced (h : H) (num : N) c : M (AuthoritySet Id H) (Error E) unit :=
  let* keep := lift ((num <? effective_number c)%N &&! descends_or_fail h (canon_hash c)) in
  if keep then modify_state (fun a => set_forced (pending_forced_changes a ++ [c]) a) else ret tt.

Definition apply_standard_changes (h : H) (num : N) : M (AuthoritySet Id H) (Error E) (Status H) :=
  let* result := on_standard from_fork_tree
    (finalize_with_descendent_if is_descendent_of h num (fun c => (effective_number c <=? num)%N)) in
  match result with
  | Changed change =>
      let* a := get_state in
      let* _ := put_state (set_forced [] a) in
      let* _ := for_each (keep_forced h num) (pending_forced_changes a) in
      match change with
      | Some c =>
          let* a := get_state in
          let log := log_append (set_id a) num (authority_set_changes a) in
          let* _ := put_state (mkSet (next_authorities c) (set_id a) (pending_standard_changes a)
                                 (pending_forced_changes a) log) in
          let* a := get_state in
          let* id := lift (add_u64 (set_id a) 1) in
          let* _ := put_state (mkSet (current_authorities a) id (pending_standard_changes a)
                                 (pending_forced_changes a) (authority_set_changes a)) in
          ret (mkStatus true (Some (h, num)))
      | None => ret (mkStatus true None)
      end
  | Unchanged => ret (mkStatus false None)
  end.

Definition enacts_standard_change (h : H) (num : N) a : outcome (Error E) (option bool) :=
  map_err ForkTreeError
    (finalizes_any_with_descendent_if is_descendent_of h num
       (fun c => (effective_number c =? num)%N) (pending_standard_changes a)).
End ancestry.
End set.
