(* ===== verification/AuthoritiesSpec.v ===== *)
(** * Correctness of the authority sets

    Blocks are related by an [Ancestry], as for the fork tree. [set_ok] is the invariant of
    an [AuthoritySet]: the lists of authorities are valid, the tree of standard changes is
    well formed, the forced changes are sorted and on different forks, and the log numbers the
    sets that ended from zero. [evolves] are the sets that the operations lead to. *)

From S2P Require Import Prelude ForkTree ForkTreeLoops ForkTreeSpec ForkTreeBranch ForkTreeRevert Authorities.

(** ** The order of the forced changes *)

Definition key_lt (x y : N * N) : Prop := (x.1 < y.1 \/ x.1 = y.1 /\ x.2 < y.2)%N.
Definition key_le (x y : N * N) : Prop := (x.1 < y.1 \/ x.1 = y.1 /\ x.2 <= y.2)%N.

#[local] Instance key_le_refl : Reflexive key_le.
Proof. intros x. unfold key_le. lia. Qed.

Lemma compare_key_spec x y : CompareSpec (x = y) (key_lt x y) (key_lt y x) (compare_key x y).
Proof.
  destruct x as [x1 x2], y as [y1 y2]. unfold compare_key, key_lt. simpl.
  destruct (N.compare_spec x1 y1); [|constructor; lia..].
  destruct (N.compare_spec x2 y2); constructor; subst; try lia. done.
Qed.

(** A list sorted by a key is ordered for the search of a key. *)
Lemma sorted_ordered {A} (key : A -> N * N) k l :
  StronglySorted key_le (map key l) -> ordered_by (fun c => compare_key (key c) k) l.
Proof.
  intros Hs i j x y Hij Hx Hy.
  assert (key_le (key x) (key y)) as Hxy.
  { by apply (sorted_lookup key_le key l i j). }
  revert Hxy. generalize (key x) (key y). intros kx ky Hxy. unfold key_le in Hxy.
  destruct (compare_key_spec kx k) as [->|?|?], (compare_key_spec ky k) as [->|?|?];
    unfold key_lt in *; split; intros; try done; lia.
Qed.

Lemma sorted_insert {A} (key : A -> N * N) c l :
  StronglySorted key_le (map key l) ->
  let idx := search_index (fun d => compare_key (key d) (key c)) l in
  StronglySorted key_le (map key (take idx l ++ c :: drop idx l)).
Proof.
  intros Hs idx. pose proof (binary_search_ok _ l (sorted_ordered key (key c) l Hs)) as Hb.
  assert (forall j x, l !! j = Some x -> (j < idx -> key_le (key x) (key c)) /\
                                        (idx <= j -> key_le (key c) (key x))) as Hidx.
  { intros j x Hx. unfold idx, search_index in *.
    destruct (binary_search_by _ l) as [i|i].
    - destruct Hb as (y & Hy & Heq). destruct (compare_key_spec (key y) (key c)) as [Hk| |]; try done.
      rewrite <- Hk.
      split; intros; [apply (sorted_lookup key_le key l j i); [done|lia|done..]|by apply (sorted_lookup key_le key l i j)].
    - destruct Hb as (_ & Hlt & Hgt). split; intros Hj.
      + specialize (Hlt j x Hj Hx). destruct (compare_key_spec (key x) (key c)) as [?|Hk|?]; [done| |done].
        unfold key_le, key_lt in *. lia.
      + specialize (Hgt j x Hj Hx). destruct (compare_key_spec (key x) (key c)) as [?|?|Hk]; [done|done|].
        unfold key_le, key_lt in *. lia. }
  rewrite map_app. cbn [map]. rewrite <- (take_drop idx l), map_app in Hs at 1.
  apply StronglySorted_app in Hs as (Hcross & Ht & Hd). apply StronglySorted_app.
  split_and!; [|done|constructor; [done|]].
  - intros x y Hx Hy. apply elem_of_cons in Hy as [->|Hy]; [|by apply Hcross].
    apply list_elem_of_fmap in Hx as (d & -> & [j Hj]%list_elem_of_lookup).
    apply lookup_take_Some in Hj as [Hj Hlt]. by apply (Hidx j d Hj).
  - apply Forall_forall. intros y (d & -> & [j Hj]%list_elem_of_lookup)%list_elem_of_fmap.
    rewrite lookup_drop in Hj. apply (Hidx _ d Hj). lia.
Qed.

(** ** The invariant *)

Section authorities.
Context {P : Profile} {Id H : Type} `{!EqDecision H} {E : Type}.
Context (anc : H -> H -> bool) (height : H -> N) `{!Ancestry anc height}.
Implicit Types (a : AuthoritySet Id H) (c : PendingChange Id H).

Notation desc := (is_descendent_of (E := E) anc).
Notation standard a := (pending_standard_changes a).
Notation forced a := (pending_forced_changes a).

Definition valid_list (l : list (Id * N)) : Prop := l <> [] /\ forall x, x ∈ l -> x.2 <> 0%N.

(** A node of the tree holds the change signalled in its block. *)
Definition entry_ok (e : H * N * PendingChange Id H) : Prop :=
  canon_hash e.2 = e.1.1 /\ canon_height e.2 = e.1.2 /\ delay_kind e.2 = Finalized /\
  valid_list (next_authorities e.2).

Definition forced_ok c : Prop :=
  (exists m, delay_kind c = Best m) /\ canon_height c = height (canon_hash c) /\
  valid_list (next_authorities c).

(** The sets that ended are numbered from zero. *)
Definition log_ok (id : N) (log : list (N * N)) : Prop :=
  map fst log = map N.of_nat (seq 0 (length log)) /\ id = N.of_nat (length log).

Record set_ok a : Prop := {
  ok_current : valid_list (current_authorities a);
  ok_tree : wf anc height (standard a);
  ok_standard : Forall entry_ok (map node_entry (nodes (roots (standard a))));
  ok_forced : Forall forced_ok (forced a);
  ok_sorted : StronglySorted key_le (map forced_key (forced a));
  ok_forks : ForallOrdPairs (unrelated anc) (map canon_hash (forced a));
  ok_log : log_ok (set_id a) (authority_set_changes a)
}.

Lemma invalid_list_iff (l : list (Id * N)) :
  invalid_authority_list l = false <-> valid_list l.
Proof.
  unfold invalid_authority_list, valid_list. rewrite orb_false_iff.
  assert (existsb (fun x => (x.2 =? 0)%N) l = false <-> forall x, x ∈ l -> x.2 <> 0%N) as ->.
  { rewrite <- not_true_iff_false, existsb_exists. split.
    - intros Hn x Hx Hz. apply Hn. exists x. by rewrite <- list_elem_of_In, N.eqb_eq.
    - intros Hn (x & Hx%list_elem_of_In & Hz%N.eqb_eq). by apply (Hn x). }
  destruct l; naive_solver.
Qed.

Lemma log_append_ok id n log : log_ok id log -> log_ok (id + 1) (log_append id n log).
Proof.
  intros [Hlog ->]. unfold log_ok, log_append. rewrite map_app, length_app, seq_app, map_app, Hlog.
  simpl. split; [done|lia].
Qed.

Lemma root_entry a n : set_ok a -> n ∈ nodes (roots (standard a)) -> entry_ok (node_entry n).
Proof.
  intros Ha Hn. pose proof (ok_standard _ Ha) as Hall. rewrite Forall_forall in Hall.
  by apply Hall, list_elem_of_fmap_2.
Qed.

(** *** New changes *)

Lemma forced_unrelated (l : list (PendingChange Id H)) c idx :
  ForallOrdPairs (unrelated anc) (map canon_hash l) ->
  (forall d, d ∈ l -> unrelated anc (canon_hash d) (canon_hash c)) ->
  ForallOrdPairs (unrelated anc) (map canon_hash (take idx l ++ c :: drop idx l)).
Proof.
  intros Hl Hc. eapply (pairwise_perm _ (canon_hash c :: map canon_hash l)).
  - apply unrelated_sym.
  - rewrite map_app. cbn [map]. rewrite <- Permutation_middle. apply perm_skip.
    by rewrite <- map_app, take_drop.
  - constructor; [|done]. apply Forall_forall. intros x (d & -> & Hd)%list_elem_of_fmap.
    by apply unrelated_sym, Hc.
Qed.

Lemma check_forced_ok c l :
  match check_forced desc c l with
  | Ok _ => forall d, d ∈ l -> canon_hash d <> canon_hash c /\ anc (canon_hash d) (canon_hash c) = false
  | Err DuplicateAuthoritySetChange => exists d, d ∈ l /\ canon_hash d = canon_hash c
  | Err MultiplePendingForcedAuthoritySetChanges =>
      exists d, d ∈ l /\ anc (canon_hash d) (canon_hash c) = true
  | _ => False
  end.
Proof.
  induction l as [|d l IH]; simpl; [by intros d ?%elem_of_nil|].
  destruct (decide (canon_hash d = canon_hash c)) as [Heq|Hne].
  { rewrite bool_decide_true by done. exists d. by split; [constructor|]. }
  rewrite bool_decide_false by done. unfold descends_or_fail. simpl.
  destruct (anc (canon_hash d) (canon_hash c)) eqn:Hd; [exists d; by split; [constructor|]|].
  destruct (check_forced desc c l) as [|[]| |]; try done.
  - intros x [->|Hx]%elem_of_cons; [done|by apply IH].
  - destruct IH as (x & Hx & ?). exists x. by split; [constructor|].
  - destruct IH as (x & Hx & ?). exists x. by split; [constructor|].
Qed.

(** Changes are signalled in order: the block of a new one is not above a pending one. *)
Definition in_order a c : Prop :=
  canon_height c = height (canon_hash c) /\
  (forall n, n ∈ nodes (roots (standard a)) -> anc (canon_hash c) (hash n) = false) /\
  (forall d, d ∈ forced a -> anc (canon_hash c) (canon_hash d) = false).

(** What [add_pending_change] does. *)
Definition added a c a' : Prop :=
  match delay_kind c with
  | Best _ =>
      forced a' ≡ₚ c :: forced a /\ standard a' = standard a /\
      forall d, d ∈ forced a -> unrelated anc (canon_hash d) (canon_hash c)
  | Finalized =>
      forced a' = forced a /\ ~ too_old (standard a) (canon_height c) /\
      iter (standard a') ≡ₚ (canon_hash c, canon_height c, c) :: iter (standard a)
  end /\
  current a' = current a /\ authority_set_changes a' = authority_set_changes a.

Definition refused a c (e : Error E) : Prop :=
  match e with
  | InvalidAuthoritySet => ~ valid_list (next_authorities c)
  | DuplicateAuthoritySetChange =>
      canon_hash c ∈ map canon_hash (pending_changes a)
  | MultiplePendingForcedAuthoritySetChanges =>
      (exists m, delay_kind c = Best m) /\
      exists d, d ∈ forced a /\ anc (canon_hash d) (canon_hash c) = true
  | ForkTreeError Revert => delay_kind c = Finalized /\ too_old (standard a) (canon_height c)
  | _ => False
  end.

Lemma add_forced_ok a c m : set_ok a -> in_order a c -> valid_list (next_authorities c) ->
  delay_kind c = Best m ->
  match add_forced_change desc c a with
  | (a', Ok _) => set_ok a' /\ added a c a'
  | (a', Err e) => a' = a /\ refused a c e
  | _ => False
  end.
Proof.
  intros Ha (Hh & _ & Hord) Hv Hk. unfold add_forced_change.
  run_steps. cbv zeta.
  pose proof (check_forced_ok c (forced a)) as Hc. unfold bindM, lift.
  destruct (check_forced desc c (forced a)) as [|[]| |]; try done.
  - set (idx := search_index _ _). unfold put_state.
    assert (forall d, d ∈ forced a -> unrelated anc (canon_hash d) (canon_hash c)) as Hu.
    { intros d Hd. destruct (Hc d Hd). split_and!; [done|done|by apply Hord]. }
    assert (take idx (forced a) ++ c :: drop idx (forced a) ≡ₚ c :: forced a) as Hp.
    { rewrite <- Permutation_middle. by rewrite take_drop. }
    split; [|unfold added; rewrite Hk; by split_and!].
    destruct Ha. constructor; simpl; try done; [|by apply sorted_insert|by apply forced_unrelated].
    rewrite Hp. constructor; [|done]. split_and!; [by eexists|done|done].
  - split; [done|]. destruct Hc as (d & Hd & Heq). simpl. rewrite <- Heq. apply list_elem_of_fmap_2.
    unfold pending_changes. apply elem_of_app. by right.
  - split; [done|]. split; [by eexists|done].
Qed.

Lemma standard_hashes a h : set_ok a -> h ∈ map hash (nodes (roots (standard a))) ->
  h ∈ map canon_hash (pending_changes a).
Proof.
  intros Ha (n & -> & Hn)%list_elem_of_fmap. destruct (root_entry _ _ Ha Hn) as (Hh & _).
  simpl in Hh. rewrite <- Hh. apply list_elem_of_fmap_2. unfold pending_changes. apply elem_of_app. left.
  unfold iter. rewrite node_iter_nodes. apply (list_elem_of_fmap_2 (fun x => x.2) _ (node_entry n)).
  by apply list_elem_of_fmap_2.
Qed.

Lemma add_standard_ok a c : set_ok a -> in_order a c -> valid_list (next_authorities c) ->
  delay_kind c = Finalized ->
  match add_standard_change desc c a with
  | (a', Ok _) => set_ok a' /\ added a c a'
  | (a', Err e) => a' = a /\ refused a c e
  | _ => False
  end.
Proof.
  intros Ha (Hh & Hord & _) Hv Hk. unfold add_standard_change, on_standard, map_errM, bindM.
  pose proof (import_ok (E := E) anc height (canon_hash c) c (standard a) (ok_tree _ Ha) Hord) as Hi.
  rewrite <- Hh in Hi. destruct (import _ _ _ _ _) as [t' [r|[]| |]]; simpl; try done.
  - destruct Hi as (Hold & _ & Hwf & _ & Hperm & _). split.
    + destruct Ha. constructor; simpl; try done. rewrite Hperm. constructor; [|done]. done.
    + unfold added. rewrite Hk. split_and!; try done. simpl. unfold iter. by rewrite !node_iter_nodes.
  - destruct Hi as (-> & _ & Hin). split; [by destruct a|]. by apply standard_hashes.
  - destruct Hi as (-> & Hold). split; [by destruct a|]. done.
Qed.

Lemma add_pending_ok a c : set_ok a -> in_order a c ->
  match add_pending_change desc c a with
  | (a', Ok _) => set_ok a' /\ added a c a'
  | (a', Err e) => a' = a /\ refused a c e
  | _ => False
  end.
Proof.
  intros Ha Hord. unfold add_pending_change. destruct (invalid_authority_list _) eqn:Hv.
  - simpl. split; [done|]. rewrite <- invalid_list_iff, Hv. done.
  - apply invalid_list_iff in Hv. destruct (delay_kind c) as [|m] eqn:Hk.
    + by apply add_standard_ok.
    + by eapply add_forced_ok.
Qed.

(** *** Finalized blocks *)

(** The forced changes that stay when [h] is finalized. *)
Definition stays (h : H) c : bool := (height h <? effective_number c)%N && anc h (canon_hash c).

Lemma keep_forced_all h l a :
  for_each (keep_forced desc h (height h)) l a =
  (set_forced (forced a ++ List.filter (stays h) l) a, Ok tt).
Proof.
  revert a. induction l as [|c l IH]; intros a; simpl.
  { unfold ret. rewrite app_nil_r. by destruct a. }
  unfold bindM, keep_forced, lift, descends_or_fail. simpl.
  assert ((height h <? effective_number c)%N &&! Ok (anc h (canon_hash c)) = Ok (E := Error E) (stays h c)) as Hs.
  { unfold stays. by destruct (_ <? _)%N. }
  unfold bindM. rewrite Hs. destruct (stays h c); unfold modify_state, ret; rewrite IH; simpl; [|done].
  by rewrite <- app_assoc.
Qed.

(** The set once the change at the root [r] has been enacted by the block [h]. *)
Definition enacted (h : H) (r : Node H (PendingChange Id H)) a : AuthoritySet Id H :=
  mkSet (next_authorities (data r)) (set_id a + 1) (finalized_tree anc height h (children r))
    (List.filter (stays h) (forced a)) (log_append (set_id a) (height h) (authority_set_changes a)).

Definition due (h : H) c : bool := (effective_number c <=? height h)%N.

Lemma apply_standard_eq h a : set_ok a -> (set_id a < u64_MAX)%N ->
  apply_standard_changes desc h (height h) a =
  match check_best (E := E) (height h) (standard a) with
  | Ok _ =>
      match list_find (fun n => passes anc h (due h) n = true) (roots (standard a)) with
      | Some (_, r) =>
          if past_child anc h r then (a, Err (ForkTreeError UnfinalizedAncestor))
          else (enacted h r a, Ok (mkStatus true (Some (h, height h))))
      | None =>
          let a' := set_standard (finalized_tree anc height h (roots (standard a))) a in
          if forallb (fun r => on_branch anc h (hash r)) (roots (standard a))
          then (a', Ok (mkStatus false None))
          else (set_forced (List.filter (stays h) (forced a)) a', Ok (mkStatus true None))
      end
  | _ => (a, Err (ForkTreeError Revert))
  end.
Proof.
  intros Ha Hid. unfold apply_standard_changes, on_standard, map_errM, bindM at 1.
  change (fun c => (effective_number c <=? height h)%N) with (due h).
  rewrite (finalize_descendent_ok anc height h (due h) _ (ok_tree _ Ha)).
  destruct (check_best_cases (E := E) (standard a) (height h)) as [[-> _]|[-> _]]; [|by destruct a].
  destruct (list_find _ _) as [[j r]|].
  - destruct (past_child anc h r); [by destruct a|]. cbn [map_err].
    unfold bindM, get_state, put_state, lift, ret. rewrite keep_forced_all. simpl.
    by rewrite add_u64_eq by lia.
  - destruct (forallb _ _); [done|]. cbn [map_err]. unfold bindM, get_state, put_state, ret.
    by rewrite keep_forced_all.
Qed.

(** *** Fewer pending changes *)

Lemma filter_sorted {A} (R : relation A) {B} (g : B -> A) (f : B -> bool) l :
  StronglySorted R (map g l) -> StronglySorted R (map g (List.filter f l)).
Proof.
  induction l as [|x l IH]; simpl; [done|]. inversion 1 as [|? ? Hl Hx]; subst.
  destruct (f x); simpl; [|by apply IH]. constructor; [by apply IH|].
  rewrite Forall_forall in *. intros y (z & -> & [Hz _]%elem_of_filter_true)%list_elem_of_fmap.
  apply Hx. by apply list_elem_of_fmap_2.
Qed.

(** The invariant with another tree, fewer forced changes, and a new or the same set. *)
Lemma set_ok_less a t f a' : set_ok a -> wf anc height t ->
  (forall n, n ∈ nodes (roots t) -> exists n', n' ∈ nodes (roots (standard a)) /\ node_entry n = node_entry n') ->
  standard a' = t -> forced a' = List.filter f (forced a) ->
  valid_list (current_authorities a') -> log_ok (set_id a') (authority_set_changes a') -> set_ok a'.
Proof.
  intros Ha Hwf Hsub <- Hf Hv Hlog. destruct Ha. constructor; rewrite ?Hf; try done.
  - apply Forall_forall. intros e (n & -> & (n' & Hn' & ->)%Hsub)%list_elem_of_fmap.
    rewrite Forall_forall in ok_standard0. by apply ok_standard0, list_elem_of_fmap_2.
  - apply Forall_forall. intros c [Hc _]%elem_of_filter_true. rewrite Forall_forall in ok_forced0. by apply ok_forced0.
  - by apply filter_sorted.
  - by apply filter_pairs.
Qed.

Lemma nodes_filter_sub (f : Node H (PendingChange Id H) -> bool) l n :
  n ∈ nodes (List.filter f l) -> n ∈ nodes l.
Proof.
  rewrite !elem_of_nodes. intros (r & [Hr _]%elem_of_filter_true & Hn). by exists r.
Qed.

Lemma apply_standard_kept h a : set_ok a -> (set_id a < u64_MAX)%N ->
  set_ok (apply_standard_changes desc h (height h) a).1.
Proof.
  intros Ha Hid. rewrite (apply_standard_eq h a Ha Hid).
  destruct (check_best _ _); [|done..].
  destruct (list_find _ _) as [[j r]|] eqn:Hfind.
  - destruct (past_child anc h r); [done|].
    apply list_find_Some in Hfind as (Hr%list_elem_of_lookup_2 & _ & _).
    assert (r ∈ nodes (roots (standard a))) as Hn by (by apply nodes_root).
    destruct (root_entry _ _ Ha Hn) as (_ & _ & _ & Hv).
    eapply set_ok_less; [done| | |done|done|done|].
    + apply wf_forest_filter, wf_children. eapply wf_nodes; [apply Ha|done].
    + intros n Hin%nodes_filter_sub. exists n. split; [|done]. apply elem_of_nodes. exists r. auto.
    + apply log_append_ok, Ha.
  - cbv zeta. destruct (forallb _ _); simpl; (eapply (set_ok_less a _ (fun c => _)); [done| | |done| |apply Ha|apply Ha]).
    + apply wf_forest_filter, Ha.
    + intros n Hin%nodes_filter_sub. by exists n.
    + simpl. symmetry. by apply (filter_all (fun _ => true)).
    + apply wf_forest_filter, Ha.
    + intros n Hin%nodes_filter_sub. by exists n.
    + done.
Qed.

(** *** Forced changes *)

(** In a sorted vector the changes due at [n] are not cut off. *)
Lemma take_while_due n l : StronglySorted key_le (map forced_key l) ->
  List.filter (fun c => (effective_number c =? n)%N)
    (take_while (fun c => (effective_number c <=? n)%N) l) =
  List.filter (fun c => (effective_number c =? n)%N) (l : list (PendingChange Id H)).
Proof.
  induction l as [|c l IH]; simpl; [done|]. inversion 1 as [|? ? Hl Hc]; subst.
  destruct (N.leb_spec (effective_number c) n) as [Hle|Hlt]; simpl; [by rewrite IH|].
  destruct (N.eqb_spec (effective_number c) n); [lia|]. symmetry. apply filter_none. intros d Hd.
  rewrite Forall_forall in Hc. specialize (Hc (forced_key d) ltac:(by apply list_elem_of_fmap_2)).
  unfold key_le, forced_key in Hc. simpl in Hc. apply N.eqb_neq. lia.
Qed.

(** A standard change that the forced change [c] has to wait for. *)
Definition dependency a c (m : N) (s : PendingChange Id H) : Prop :=
  s ∈ map data (roots (standard a)) /\ (effective_number s <= m)%N /\
  anc (canon_hash s) (canon_hash c) = true.

Lemma roots_data a : map (fun x => x.2) (roots_iter (standard a)) = map data (roots (standard a)).
Proof. unfold roots_iter. rewrite map_map. done. Qed.

Lemma check_dependencies_ok c m l :
  match check_dependencies desc c m l with
  | Ok _ => forall s, s ∈ l -> (effective_number s <= m)%N -> anc (canon_hash s) (canon_hash c) = false
  | Err (ForcedAuthoritySetChangeDependencyUnsatisfied n) =>
      exists s, s ∈ l /\ effective_number s = n /\ (n <= m)%N /\ anc (canon_hash s) (canon_hash c) = true
  | _ => False
  end.
Proof.
  induction l as [|s l IH]; simpl; [by intros s ?%elem_of_nil|].
  destruct (N.leb_spec (effective_number s) m) as [Hle|Hlt]; simpl.
  - unfold descends_or_fail. simpl. destruct (anc _ _) eqn:Hs; [exists s; by split_and!; [constructor|..]|].
    destruct (check_dependencies _ _ _ _) as [|[]| |]; try done.
    + intros x [->|Hx]%elem_of_cons; [done|by apply IH].
    + destruct IH as (x & Hx & ?). exists x. by split; [constructor|].
  - destruct (check_dependencies _ _ _ _) as [|[]| |]; try done.
    + intros x [->|Hx]%elem_of_cons ?; [lia|by apply IH].
    + destruct IH as (x & Hx & ?). exists x. by split; [constructor|].
Qed.

(** The set that the forced change [c] with median [m] starts. *)
Definition forced_set a c (m : N) : AuthoritySet Id H :=
  mkSet (next_authorities c) (set_id a + 1) ForkTree.new []
    (log_append (set_id a) m (authority_set_changes a)).

Definition forced_outcome (best : H) a (l : list (PendingChange Id H))
    (r : outcome (Error E) (option (N * AuthoritySet Id H))) : Prop :=
  match r with
  | Ok None => forall c, c ∈ l -> at_or_above anc best (canon_hash c) = false
  | Ok (Some (m, a')) => exists c, c ∈ l /\ at_or_above anc best (canon_hash c) = true /\
      delay_kind c = Best m /\ (forall s, ~ dependency a c m s) /\ a' = forced_set a c m
  | Err (ForcedAuthoritySetChangeDependencyUnsatisfied n) =>
      exists c m s, c ∈ l /\ at_or_above anc best (canon_hash c) = true /\ delay_kind c = Best m /\
        dependency a c m s /\ effective_number s = n
  | _ => False
  end.

Lemma apply_forced_ok best a l : Forall forced_ok l -> (set_id a < u64_MAX)%N ->
  forced_outcome best a l (apply_forced desc best a l).
Proof.
  intros Hl Hid. induction Hl as [|c l Hc Hl IH]; simpl; [by intros c ?%elem_of_nil|].
  assert (bool_decide (canon_hash c = best) ||! descends_or_fail desc (canon_hash c) best =
    Ok (E := Error E) (at_or_above anc best (canon_hash c))) as Heq.
  { unfold at_or_above, descends_or_fail, or_else. simpl. by destruct (bool_decide _). }
  rewrite Heq. cbn [bind]. destruct (at_or_above anc best (canon_hash c)) eqn:Hat.
  - destruct Hc as ((m & Hm) & _). rewrite Hm, roots_data.
    pose proof (check_dependencies_ok c m (map data (roots (standard a)))) as Hd.
    destruct (check_dependencies _ _ _ _) as [|[]| |]; try done; cbn [bind].
    + rewrite add_u64_eq by lia. cbn [bind]. exists c. split_and!; [constructor|done|done| |done].
      intros s (Hs & Hle & Ha). by rewrite (Hd s Hs Hle) in Ha.
    + destruct Hd as (s & Hs & <- & Hle & Ha). exists c, m, s. by split_and!; [constructor|..].
  - unfold forced_outcome in *. destruct (apply_forced desc best a l) as [[[m a']|]|[]| |]; try done.
    + destruct IH as (d & Hd & ?). exists d. by split; [constructor|].
    + intros d [->|Hd]%elem_of_cons; [done|by apply IH].
    + destruct IH as (d & m & s & Hd & ?). exists d, m, s. by split; [constructor|].
Qed.

Lemma apply_forced_changes_ok best num a : set_ok a -> (set_id a < u64_MAX)%N ->
  forced_outcome best a (List.filter (fun c => (effective_number c =? num)%N) (forced a))
    (apply_forced_changes desc best num a).
Proof.
  intros Ha Hid. unfold apply_forced_changes. rewrite take_while_due by apply Ha.
  apply apply_forced_ok; [|done]. apply Forall_forall. intros c [Hc _]%elem_of_filter_true.
  pose proof (ok_forced _ Ha) as Hall. rewrite Forall_forall in Hall. by apply Hall.
Qed.

Lemma forced_set_ok a c m : set_ok a -> c ∈ forced a -> set_ok (forced_set a c m).
Proof.
  intros Ha Hc. pose proof (ok_forced _ Ha) as Hall. rewrite Forall_forall in Hall.
  destruct (Hall c Hc) as (_ & _ & Hv).
  constructor; simpl; [done|by split; constructor|constructor..|]. apply log_append_ok, Ha.
Qed.

(** *** Reverting *)

Section revert.
Context (h : H).
Notation rf := (revert_filter (Id := Id) desc h (height h)).
Implicit Types (n : Node H (PendingChange Id H)) (l : list (Node H (PendingChange Id H))).

Lemma revert_filter_ok n : wf_node anc height n ->
  rf (hash n) (number n) (data n) =
  if at_or_above anc h (hash n) then KeepNode else if anc h (hash n) then Remove else KeepTree.
Proof.
  intros Hn. unfold revert_filter, descends_or_false. simpl. rewrite (wf_number _ _ _ Hn).
  rewrite (orb_comm (anc (hash n) h)). fold (at_or_above anc h (hash n)).
  destruct (at_or_above anc h (hash n)) eqn:Ha.
  - by pose proof (at_or_above_height anc height h _ Ha) as ->%N.leb_le.
  - rewrite andb_false_r. destruct (anc h (hash n)) eqn:Hb; [|by rewrite andb_false_r].
    by pose proof (anc_height _ _ Hb) as ->%N.ltb_lt.
Qed.

Lemma revert_ok {X} a : set_ok a -> (N.of_nat (length (iter (standard a))) < usize_MAX)%N ->
  exists a', revert (X := X) desc h (height h) a = (a', Ok tt) /\ set_ok a' /\
    iter (standard a') ≡ₚ List.filter (not_after anc h) (iter (standard a)) /\
    best_finalized_number (standard a') = best_finalized_number (standard a) /\
    forced a' = List.filter (fun c => negb (anc h (canon_hash c))) (forced a) /\
    current a' = current a /\ authority_set_changes a' = authority_set_changes a.
Proof.
  intros Ha Hsize.
  destruct (drain_revert_ok anc height h rf revert_filter_ok (E := X) (standard a) (ok_tree _ Ha) Hsize)
    as (t' & removed & Hdrain & Hwf' & Hbest & Hperm & _).
  unfold revert, on_standard, map_errM, bindM. rewrite Hdrain. simpl map_err. cbv iota beta.
  eexists. split; [done|]. split_and!; try done.
  - eapply (set_ok_less a t'); [done|done| |done|done|apply Ha|apply Ha].
    intros n Hn. apply (list_elem_of_fmap_2 node_entry) in Hn. rewrite Hperm in Hn.
    apply elem_of_filter_true in Hn as [(n' & Heq & Hn')%list_elem_of_fmap _]. by exists n'.
  - unfold iter. by rewrite !node_iter_nodes.
Qed.
End revert.

(** ** Runs *)

(** The sets reached from a genesis set by signalled changes, finalized blocks, forced
    changes and reverts, whatever the calls return. *)
Inductive evolves : AuthoritySet Id H -> Prop :=
| evolves_genesis l a : genesis l = Some a -> evolves a
| evolves_add a c : evolves a -> in_order a c -> evolves (add_pending_change desc c a).1
| evolves_standard a h : evolves a -> (set_id a < u64_MAX)%N ->
    evolves (apply_standard_changes desc h (height h) a).1
| evolves_forced a best num m a' : evolves a -> (set_id a < u64_MAX)%N ->
    apply_forced_changes desc best num a = Ok (Some (m, a')) -> evolves a'
| evolves_revert a h : evolves a -> (N.of_nat (length (iter (standard a))) < usize_MAX)%N ->
    evolves (revert (X := E) desc h (height h) a).1.

Lemma evolves_ok a : evolves a -> set_ok a.
Proof.
  induction 1 as [l a Hg|a c _ IH Hord|a h _ IH Hid|a best num m a' _ IH Hid Hrun|a h _ IH Hsize].
  - unfold genesis in Hg. destruct (invalid_authority_list l) eqn:Hl; [done|].
    injection Hg as <-. apply invalid_list_iff in Hl.
    constructor; simpl; [done|by split; constructor|constructor..|done].
  - pose proof (add_pending_ok a c IH Hord) as Hadd.
    destruct (add_pending_change desc c a) as [a' []]; simpl; try done; [by destruct Hadd|by destruct Hadd as [-> _]].
  - by apply apply_standard_kept.
  - pose proof (apply_forced_changes_ok best num a IH Hid) as Hf. rewrite Hrun in Hf.
    destruct Hf as (c & [Hc _]%elem_of_filter_true & _ & _ & _ & ->). by apply forced_set_ok.
  - destruct (revert_ok (X := E) h a IH Hsize) as (a' & -> & Ha' & _). done.
Qed.

(** ** Properties *)

(** C27: Every set that the operations lead to satisfies the invariant: all lists of
    authorities, current and pending, are non-empty with positive weights, so the voter set
    built from the current one exists; the tree agrees with the ancestry of the blocks and
    holds standard changes only; the forced changes are sorted and on different forks; and
    the log numbers the ended sets from zero up to the current id. *)
Theorem authority_sets_valid a : evolves a -> set_ok a.
Proof. apply evolves_ok. Qed.

(** Signalling a change in order. It is refused exactly for the reasons the errors
    name, without a change; otherwise it is the only new pending change, in the tree or in the
    sorted vector, and a forced change is on a fork of its own. *)
Theorem add_pending_change_correct a c : evolves a -> in_order a c ->
  match add_pending_change desc c a with
  | (a', Ok _) => valid_list (next_authorities c) /\ added a c a'
  | (a', Err e) => a' = a /\ refused a c e
  | _ => False
  end.
Proof.
  intros Ha%evolves_ok Hord. pose proof (add_pending_ok a c Ha Hord) as Hadd.
  destruct (add_pending_change desc c a) as [a' [u| | |]] eqn:Hrun; try done.
  split; [|by apply Hadd]. apply invalid_list_iff. unfold add_pending_change in Hrun.
  by destruct (invalid_authority_list _).
Qed.

(** C18: Finalizing a block. The change at a root on its branch is enacted if it is due, by
    that block, and the set, its id, the log and both collections of pending changes become
    what they should. Without such a change the set stays, and the changes of other forks
    are dropped. The call is refused, and changes nothing, for a block that is not above the last
    finalized one, and for one past a second change of the branch. *)
Theorem apply_standard_changes_correct a h : evolves a -> (set_id a < u64_MAX)%N ->
  match apply_standard_changes desc h (height h) a with
  | (a', Ok st) =>
      ~ too_old (standard a) (height h) /\
      ((exists r, r ∈ roots (standard a) /\ due h (data r) = true /\
          at_or_above anc h (hash r) = true /\
          (forall n, n ∈ children r -> at_or_above anc h (hash n) = false) /\
          a' = enacted h r a /\ st = mkStatus true (Some (h, height h))) \/
       ((forall r, r ∈ roots (standard a) -> at_or_above anc h (hash r) = true -> due h (data r) = false) /\
          current a' = current a /\ authority_set_changes a' = authority_set_changes a /\
          standard a' = finalized_tree anc height h (roots (standard a)) /\ new_set_block st = None /\
          (changed st = true <-> exists r, r ∈ roots (standard a) /\ on_branch anc h (hash r) = false) /\
          forced a' = (if changed st then List.filter (stays h) (forced a) else forced a)))
  | (a', Err (ForkTreeError Revert)) => a' = a /\ too_old (standard a) (height h)
  | (a', Err (ForkTreeError UnfinalizedAncestor)) => a' = a /\
      exists r n, r ∈ roots (standard a) /\ due h (data r) = true /\ n ∈ children r /\
        at_or_above anc h (hash n) = true
  | _ => False
  end.
Proof.
  intros Ha%evolves_ok Hid. rewrite (apply_standard_eq h a Ha Hid).
  destruct (check_best_cases (E := E) (standard a) (height h)) as [[-> Hold]|[-> Hold]]; [|done].
  destruct (list_find _ _) as [[j r]|] eqn:Hfind.
  - apply list_find_Some in Hfind as (Hr%list_elem_of_lookup_2 & Hp & _).
    unfold passes in Hp. apply andb_prop in Hp as [Hdue Hat].
    destruct (past_child anc h r) eqn:Hpast.
    + split; [done|]. apply existsb_exists in Hpast as (n & Hn%list_elem_of_In & Hna). by exists r, n.
    + split; [done|]. left. exists r. split_and!; try done.
      intros n Hn. unfold past_child in Hpast. rewrite existsb_false in Hpast. by apply Hpast.
  - rewrite list_find_None, Forall_forall in Hfind. cbv zeta.
    assert (forall r, r ∈ roots (standard a) -> at_or_above anc h (hash r) = true -> due h (data r) = false) as Hnone.
    { intros r Hr Hat. specialize (Hfind r Hr). unfold passes in Hfind. rewrite Hat, andb_true_r in Hfind.
      by apply not_true_iff_false. }
    destruct (forallb _ _) eqn:Hall; (split; [done|]); right; (split_and!; try done).
    + split; [done|]. intros (r & Hr & Hoff). rewrite forallb_forall in Hall.
      by rewrite (Hall r) in Hoff by (by apply list_elem_of_In).
    + split; [|done]. intros _. by apply forallb_false in Hall.
Qed.

(** When the check before an import says that a block enacts a change that can be
    applied, finalizing it applies a change at that block. *)
Theorem enacts_standard_change_sound a h : evolves a -> (set_id a < u64_MAX)%N ->
  enacts_standard_change desc h (height h) a = Ok (Some true) ->
  exists a' st, apply_standard_changes desc h (height h) a = (a', Ok st) /\
    new_set_block st = Some (h, height h) /\ set_id a' = (set_id a + 1)%N.
Proof.
  intros Ha%evolves_ok Hid. unfold enacts_standard_change. rewrite (apply_standard_eq h a Ha Hid).
  pose proof (ok_tree _ Ha) as Hwf. rewrite (finalizes_any_ok anc height h _ _ Hwf).
  destruct (check_best (E := E) (height h) (standard a)); [|done..].
  destruct (list_find _ (nodes (roots (standard a)))) as [[j n]|] eqn:Hn; [|done].
  destruct (past_child anc h n) eqn:Hpast; [done|]. intros [= Hroot].
  apply list_find_Some in Hn as (Hin%list_elem_of_lookup_2 & Hp & _).
  apply (same_hash_root anc height) in Hroot; [|done|done].
  unfold passes in Hp. apply andb_prop in Hp as [Heq%N.eqb_eq Hat].
  assert (passes anc h (due h) n = true) as Hpn.
  { unfold passes, due. by rewrite Hat, Heq, N.leb_refl. }
  destruct (list_find _ (roots (standard a))) as [[i r]|] eqn:Hr.
  - apply list_find_Some in Hr as (Hr%list_elem_of_lookup_2 & Hpr & _).
    unfold passes in Hpr. apply andb_prop in Hpr as [_ Hatr].
    assert (r = n) as -> by (by apply (one_root anc height h (standard a))).
    rewrite Hpast. by eexists _, _.
  - rewrite list_find_None, Forall_forall in Hr. by destruct (Hr n Hroot).
Qed.

(** C38: A new best block. The forced change that takes effect at its number on its branch,
    of which there is at most one, starts the next set, unless a standard change at a
    root of the tree that is due at its median comes before it; the call does not modify
    the old set. *)
Theorem apply_forced_changes_correct a best num : evolves a -> (set_id a < u64_MAX)%N ->
  forced_outcome best a (List.filter (fun c => (effective_number c =? num)%N) (forced a))
    (apply_forced_changes desc best num a) /\
  (forall c d, c ∈ forced a -> d ∈ forced a -> at_or_above anc best (canon_hash c) = true ->
     at_or_above anc best (canon_hash d) = true -> canon_hash c = canon_hash d).
Proof.
  intros Ha%evolves_ok Hid. split; [by apply apply_forced_changes_ok|].
  intros c d Hc Hd Hatc Hatd. destruct (decide (canon_hash c = canon_hash d)) as [|Hne]; [done|].
  destruct (at_or_above_related anc height best _ _ Hatc Hatd).
  pose proof (ok_forks _ Ha) as Hf. revert Hf Hc Hd. generalize (forced a) as l.
  induction l as [|x l IH]; simpl; [by intros _ ?%elem_of_nil|].
  inversion 1 as [|? ? Hx Hl]; subst. rewrite Forall_forall in Hx.
  intros [->|Hc]%elem_of_cons [->|Hd]%elem_of_cons; [done| | |by apply IH].
  - by apply Hx, list_elem_of_fmap_2.
  - by apply unrelated_sym, Hx, list_elem_of_fmap_2.
Qed.

(** Reverting to a block forgets exactly the pending changes signalled after it on its
    branch, standard and forced, and leaves the rest of the set alone. *)
Theorem revert_correct a h : evolves a -> (N.of_nat (length (iter (standard a))) < usize_MAX)%N ->
  exists a', revert (X := E) desc h (height h) a = (a', Ok tt) /\
    iter (standard a') ≡ₚ List.filter (fun e => negb (anc h e.1.1)) (iter (standard a)) /\
    best_finalized_number (standard a') = best_finalized_number (standard a) /\
    forced a' = List.filter (fun c => negb (anc h (canon_hash c))) (forced a) /\
    current a' = current a /\ authority_set_changes a' = authority_set_changes a.
Proof.
  intros Ha%evolves_ok Hsize. destruct (revert_ok (X := E) h a Ha Hsize) as (a' & Hrun & _ & Hrest). by exists a'.
Qed.
End authorities.

(** ** The log and the limit *)

Lemma search_number_ok b log : StronglySorted N.lt (map snd log) ->
  let idx := search_index (by_number b) log in
  (forall j x, j < idx -> log !! j = Some x -> (x.2 < b)%N) /\
  (forall j x, idx <= j -> log !! j = Some x -> (b <= x.2)%N).
Proof.
  intros Hs. assert (forall i j x y, i < j -> log !! i = Some x -> log !! j = Some y -> (x.2 < y.2)%N) as Hlt.
  { intros i j x y Hij. by apply (sorted_lookup_lt N.lt snd log i j). }
  assert (ordered_by (by_number b) log) as Hord.
  { intros i j x y Hij Hx Hy. unfold by_number. rewrite !N.compare_gt_iff, !N.compare_lt_iff.
    destruct (decide (i = j)) as [->|]; [by simplify_eq|]. pose proof (Hlt i j x y ltac:(lia) Hx Hy). lia. }
  pose proof (binary_search_ok _ _ Hord) as Hb. unfold search_index.
  destruct (binary_search_by _ log) as [i|i].
  - destruct Hb as (y & Hy & Heq%N.compare_eq_iff). split; intros j x Hj Hx.
    + pose proof (Hlt j i x y Hj Hx Hy). lia.
    + destruct (decide (i = j)) as [->|]; [simplify_eq; lia|]. pose proof (Hlt i j y x ltac:(lia) Hy Hx). lia.
  - destruct Hb as (_ & Hbelow & Habove). split; intros j x Hj Hx.
    + by apply N.compare_lt_iff, (Hbelow j x).
    + specialize (Habove j x Hj Hx). apply N.compare_gt_iff in Habove. lia.
Qed.

Lemma min_by_key_ok {A} (key : A -> N) l :
  match min_by_key key l with
  | Some x => x ∈ l /\ forall y, y ∈ l -> (key x <= key y)%N
  | None => l = []
  end.
Proof.
  induction l as [|x l IH]; simpl; [done|]. destruct (min_by_key key l) as [y|].
  - destruct IH as [Hy Hmin]. destruct (N.ltb_spec (key y) (key x)).
    + split; [by constructor|]. intros z [->|Hz]%elem_of_cons; [lia|by apply Hmin].
    + split; [constructor|]. intros z [->|Hz]%elem_of_cons; [lia|]. specialize (Hmin z Hz). lia.
  - subst l. split; [constructor|]. intros z [->|Hz]%elem_of_cons; [lia|by apply elem_of_nil in Hz].
Qed.

(** The set that was in force at a block, in a log whose sets are numbered from zero and
    whose block numbers grow: the one whose last block is the first not below the block. *)
Theorem get_set_id_correct id log b : log_ok id log -> StronglySorted N.lt (map snd log) ->
  match get_set_id b log with
  | Latest => log <> [] /\ forall x, x ∈ log -> (x.2 < b)%N
  | Set_ i n => log !! N.to_nat i = Some (i, n) /\ (b <= n)%N /\
      forall j x, j < N.to_nat i -> log !! j = Some x -> (x.2 < b)%N
  | Unknown => log = []
  end.
Proof.
  intros [Hids _] Hs. unfold get_set_id. destruct (search_number_ok b log Hs) as [Hbelow Habove].
  set (idx := search_index (by_number b) log) in *.
  destruct (last log) as [x|] eqn:Hlast.
  2: { apply last_None in Hlast as ->. done. }
  assert (log <> []) as Hne by (by intros ->). apply last_Some in Hlast as [l' Hlog].
  assert (log !! length l' = Some x) as Hx by (rewrite Hlog; by apply list_lookup_middle).
  destruct (N.ltb_spec x.2 b) as [Hlt|Hge].
  - split; [done|]. intros y [j Hj]%list_elem_of_lookup. destruct (decide (idx <= j)); [|apply (Hbelow j); [lia|done]].
    pose proof (Habove (length l') x) as Hab. apply lookup_lt_Some in Hj as Hlen. rewrite Hlog, length_app in Hlen.
    simpl in Hlen. specialize (Hab ltac:(lia) Hx). lia.
  - destruct (log !! idx) as [[i n]|] eqn:Hi.
    + assert (i = N.of_nat idx) as ->.
      { assert (map fst log !! idx = Some i) as Hid by (rewrite list_lookup_fmap; by rewrite Hi).
        rewrite Hids, list_lookup_fmap, lookup_seq_lt in Hid by (by eapply lookup_lt_Some). by injection Hid. }
      assert ((idx =? 0) && negb (N.of_nat idx =? 0)%N = false) as ->.
      { destruct (Nat.eqb_spec idx 0) as [->|]; done. }
      rewrite Nat2N.id. split_and!; [done| |exact Hbelow]. by apply (Habove idx (N.of_nat idx, n)).
    + apply lookup_ge_None in Hi. apply lookup_lt_Some in Hx as Hlen.
      pose proof (Hbelow (length l') x ltac:(lia) Hx). lia.
Qed.

(** [current_limit] is the least number, among those not below the given one, at which a
    change at a root of the tree takes effect. *)
Theorem current_limit_least {Id H} (a : AuthoritySet Id H) min :
  match current_limit min a with
  | Some n => (min <= n)%N /\
      (exists r, r ∈ roots (pending_standard_changes a) /\ effective_number (data r) = n) /\
      forall r, r ∈ roots (pending_standard_changes a) ->
        (min <= effective_number (data r))%N -> (n <= effective_number (data r))%N
  | None => forall r, r ∈ roots (pending_standard_changes a) -> (effective_number (data r) < min)%N
  end.
Proof.
  unfold current_limit. rewrite roots_data. set (l := List.filter _ _).
  assert (forall c, c ∈ l <-> c ∈ map data (roots (pending_standard_changes a)) /\ (min <= effective_number c)%N) as Hl.
  { intros c. unfold l. by rewrite elem_of_filter_true, N.leb_le. }
  pose proof (min_by_key_ok effective_number l) as Hmin. destruct (min_by_key effective_number l) as [c|]; simpl.
  - destruct Hmin as [Hc Hleast]. apply Hl in Hc as [(r & -> & Hr)%list_elem_of_fmap Hge].
    split_and!; [done|by exists r|]. intros r' Hr' Hge'. apply Hleast, Hl. by split; [apply list_elem_of_fmap_2|].
  - intros r Hr. apply N.nle_gt. intros Hge. assert (data r ∈ l) as Hin; [|by rewrite Hmin in Hin; apply elem_of_nil in Hin].
    apply Hl. by split; [apply list_elem_of_fmap_2|].
Qed.

(** ** Concrete sets *)

Section samples.
#[local] Existing Instance debug.
Notation desc := (is_descendent_of (E := unit) strict_prefix).
Notation evolves := (evolves (Id := nat) (E := unit) strict_prefix branch_height).

Definition first_set : AuthoritySet nat (list nat) := mkSet [(7, 1%N)] 0 ForkTree.new [] [].

(** A standard change due at block 2 of one fork, and a forced one due at block 3 of another. *)
Definition standard_change : PendingChange nat (list nat) := mkChange [(8, 1%N)] 1 1 [0] Finalized.
Definition forced_change : PendingChange nat (list nat) := mkChange [(9, 1%N)] 2 1 [1] (Best 0).
Definition with_standard : AuthoritySet nat (list nat) := (add_pending_change desc standard_change first_set).1.
Definition with_both : AuthoritySet nat (list nat) := (add_pending_change desc forced_change with_standard).1.

(** Blocks of a concrete list, one by one. *)
Ltac each_block :=
  let x := fresh in let Hx := fresh in
  intros x Hx; vm_compute in Hx;
  repeat (apply elem_of_cons in Hx as [->|Hx]; [reflexivity|]); by apply elem_of_nil in Hx.

Lemma with_standard_evolves : evolves with_standard.
Proof.
  apply evolves_add; [by apply (evolves_genesis _ _ [(7, 1%N)])|]. split_and!; [done|each_block|each_block].
Qed.

Lemma forced_in_order : in_order strict_prefix branch_height with_standard forced_change.
Proof. split_and!; [done|each_block|each_block]. Qed.

Lemma with_both_evolves : evolves with_both.
Proof. apply evolves_add; [apply with_standard_evolves|apply forced_in_order]. Qed.

Lemma authority_sets_valid_witness :
  set_ok strict_prefix branch_height with_both /\ length (pending_changes with_both) = 2.
Proof.
  split; [|vm_compute; reflexivity].
  exact (authority_sets_valid strict_prefix branch_height with_both with_both_evolves).
Defined.

Lemma apply_standard_changes_correct_witness : exists a',
  apply_standard_changes desc [0; 0] 2 with_both = (a', Ok (mkStatus true (Some ([0; 0], 2%N)))) /\
  current a' = (1%N, [(8, 1%N)]).
Proof.
  pose proof (apply_standard_changes_correct (E := unit) strict_prefix branch_height with_both [0; 0]
    with_both_evolves ltac:(vm_compute; reflexivity)) as H.
  assert ((apply_standard_changes desc [0; 0] 2 with_both).2 = Ok (mkStatus true (Some ([0; 0], 2%N)))) as Hr
    by (vm_compute; reflexivity).
  change (branch_height [0; 0]) with 2%N in H.
  destruct (apply_standard_changes desc [0; 0] 2 with_both) as [a' r]. simpl in Hr. subst r.
  destruct H as [_ [(r & Hin & _ & _ & _ & -> & _)|(_ & _ & _ & _ & Hno & _)]]; [|done].
  eexists. split; [done|]. vm_compute in Hin. apply list_elem_of_singleton in Hin as ->. reflexivity.
Defined.

Lemma apply_forced_changes_correct_witness : exists m a',
  apply_forced_changes desc [1; 0; 0] 3 with_both = Ok (Some (m, a')) /\
  a' = forced_set with_both forced_change 0.
Proof.
  destruct (apply_forced_changes_correct (E := unit) strict_prefix branch_height with_both [1; 0; 0] 3) as [H _];
    [apply with_both_evolves|vm_compute; reflexivity|].
  destruct (apply_forced_changes desc [1; 0; 0] 3 with_both) as [[[m a']|]|[]| |] eqn:Hrun; try (by vm_compute in Hrun).
  exists m, a'. split; [done|]. destruct H as (c & Hin & _ & Hk & _ & ->).
  vm_compute in Hin. apply list_elem_of_singleton in Hin as ->. vm_compute in Hk. by injection Hk as <-.
Defined.

(** Two standard changes on one branch, the second of which takes effect first, and a forced one. *)
Definition late_change : PendingChange nat (list nat) := mkChange [(8, 1%N)] 10 1 [0] Finalized.
Definition early_change : PendingChange nat (list nat) := mkChange [(9, 1%N)] 0 2 [0; 0] Finalized.
Definition hasty_change : PendingChange nat (list nat) := mkChange [(10, 1%N)] 0 3 [0; 0; 0] (Best 5).
Definition nested : AuthoritySet nat (list nat) :=
  (add_pending_change desc hasty_change
     (add_pending_change desc early_change (add_pending_change desc late_change first_set).1).1).1.

(** Only the roots of the tree are looked at for dependencies: a set exists where a forced
    change is applied although a standard change that its block descends from, and that
    takes effect before its median, is still pending below a root. *)
Theorem nested_dependency_ignored :
  evolves nested /\ early_change ∈ pending_changes nested /\
  (effective_number early_change < 5)%N /\
  strict_prefix (canon_hash early_change) (canon_hash hasty_change) = true /\
  apply_forced_changes desc [0; 0; 0] 3 nested = Ok (Some (5%N, forced_set nested hasty_change 5)).
Proof.
  split_and!; [|vm_compute; set_solver|done|done|vm_compute; reflexivity].
  repeat (apply evolves_add; [|split_and!; [done|each_block|each_block]]).
  by apply (evolves_genesis _ _ [(7, 1%N)]).
Qed.
End samples.
