(* ===== verification/Changeset.v ===== *)
(** * The transactional overlay storage

    [sp_state_machine::overlayed_changes::changeset], with the [Extrinsics] of
    [overlayed_changes] and the [StorageAppend] of [ext].

    A map keeps, for each key, one version per transaction that wrote it; each open
    transaction keeps the set of keys it wrote. Versions and transactions are listed
    newest first here, where the code has them at the end of a vector. The compact
    encoding of lengths belongs to [parity-scale-codec], and is a parameter. *)

From S2P Require Import Prelude.

Notation bytes := (list N).
Notation StorageKey := bytes.
Notation StorageValue := bytes.

(** ** The compact encoding of a [u32] *)

Class Compact : Type := {
  compact_encode : N -> bytes;
  compact_decode : bytes -> option N;
  compact_len : N -> nat
}.

(** What the codec documents: decoding reads back what was encoded, whatever
    follows it, and accepts nothing but encodings; [compact_len] is the size. *)
Class CompactLaws `{!Compact} : Prop := {
  compact_decode_encode n rest :
    (n <= u32_MAX)%N -> compact_decode (compact_encode n ++ rest) = Some n;
  compact_decode_inv data n :
    compact_decode data = Some n ->
    (n <= u32_MAX)%N /\ exists rest, data = compact_encode n ++ rest;
  compact_len_encode n : (n <= u32_MAX)%N -> compact_len n = length (compact_encode n)
}.

(** ** [Extrinsics] *)

Definition Extrinsics := list N.

Definition extrinsics_insert (ext : N) (l : Extrinsics) : Extrinsics :=
  if decide (last l = Some ext) then l else l ++ [ext].

Definition extrinsics_extend (other l : Extrinsics) : Extrinsics := l ++ other.

Definition copy_extrinsics_into (l : Extrinsics) (dest : gset N) : gset N :=
  dest ∪ list_to_set l.

(** ** Data *)

Inductive NoOpenTransaction : Type := mkNoOpenTransaction.
Inductive AlreadyInRuntime : Type := mkAlreadyInRuntime.
Inductive NotInRuntime : Type := mkNotInRuntime.

Inductive ExecutionMode : Type :=
| Client
| Runtime.

Record InnerValue (V : Type) : Type := mkInner {
  value : V;
  extrinsics : Extrinsics
}.
Arguments mkInner {V} value extrinsics.
Arguments value {V} i.
Arguments extrinsics {V} i.

Record OverlayedEntry (V : Type) : Type := mkEntry {
  transactions : list (InnerValue V)
}.
Arguments mkEntry {V} transactions.
Arguments transactions {V} o.

Inductive StorageEntry : Type :=
| Set_ (data : StorageValue)
| Remove
| Append (data : StorageValue) (current_length : N) (materialized_length : option N)
    (parent_size : option nat).

Record OverlayedMap (K V : Type) `{!EqDecision K, !Countable K} : Type := mkMap {
  changes : gmap K (OverlayedEntry V);
  dirty_keys : list (gset K);
  num_client_transactions : nat;
  execution_mode : ExecutionMode
}.
Arguments mkMap {K V _ _} changes dirty_keys num_client_transactions execution_mode.
Arguments changes {K V _ _} o.
Arguments dirty_keys {K V _ _} o.
Arguments num_client_transactions {K V _ _} o.
Arguments execution_mode {K V _ _} o.

Notation OverlayedValue := (OverlayedEntry StorageEntry).
Notation OverlayedChangeSet := (OverlayedMap StorageKey StorageEntry).

(** The order of the keys of a [BTreeMap]. *)
Class KeyOrd (K : Type) : Type := key_leb : K -> K -> bool.

Fixpoint bytes_leb (a b : bytes) : bool :=
  match a, b with
  | [], _ => true
  | _ :: _, [] => false
  | x :: a', y :: b' => (x <? y)%N || ((x =? y)%N && bytes_leb a' b')
  end.
#[export] Instance bytes_ord : KeyOrd bytes := bytes_leb.

(** [BTreeMap::iter] *)
Definition btree_iter {K A} `{!EqDecision K, !Countable K, !KeyOrd K} (m : gmap K A)
  : list (K * A) :=
  sort_by (fun x y => key_leb x.1 y.1) (map_to_list m).

(** ** [StorageAppend] *)

Section storage_append.
Context `{!Profile, !Compact} {E : Type}.

Definition extract_length (data : StorageValue) : option N := compact_decode data.

Definition encoded_len (length : option N) : nat :=
  match length with Some l => compact_len l | None => 0 end.

(** [Vec::splice] panics on a range past the end. *)
Definition replace_length (old_length : option N) (new_length : N) (data : StorageValue)
  : outcome E StorageValue :=
  let old_len_encoded_len := encoded_len old_length in
  if old_len_encoded_len <=? length data
  then Ok (compact_encode new_length ++ drop old_len_encoded_len data)
  else Panic.

Definition append_raw (v : StorageValue) (data : StorageValue) : StorageValue := data ++ v.

(** ** [StorageEntry] *)

Definition materialize_in_place (e : StorageEntry) : outcome E StorageEntry :=
  match e with
  | Append data current_length materialized_length parent_size =>
      if decide (materialized_length = Some current_length) then Ok e
      else
        let! data := replace_length materialized_length current_length data in
        Ok (Append data current_length (Some current_length) parent_size)
  | _ => Ok e
  end.

(** [as_option], with the entry it leaves behind. *)
Definition as_option (e : StorageEntry) : outcome E (StorageEntry * option StorageValue) :=
  let! e := materialize_in_place e in
  Ok (e, match e with
         | Append data _ _ _ | Set_ data => Some data
         | Remove => None
         end).

Definition to_option (e : StorageEntry) : outcome E (option StorageValue) :=
  let! r := as_option e in Ok (snd r).

Definition restore_append_to_parent (parent : StorageEntry) (current_data : StorageValue)
    (current_materialized : option N) (target_parent_size : nat) : outcome E StorageEntry :=
  match parent with
  | Append _ parent_length parent_materialized parent_parent_size =>
      let prev := encoded_len parent_materialized in
      let new := encoded_len current_materialized in
      let delta := (new - prev) + (prev - new) in
      let! target_parent_size :=
        if new <=? prev then sub_usize target_parent_size delta
        else Ok (target_parent_size + delta) in
      Ok (Append (take target_parent_size current_data) parent_length current_materialized
            parent_parent_size)
  | _ => Ok parent
  end.
End storage_append.

(** ** [OverlayedEntry] *)

Section entry.
Context {E V : Type}.
Implicit Types e : OverlayedEntry V.

Definition default_entry : OverlayedEntry V := mkEntry [].

Definition value_ref e : outcome E V :=
  let! t := expect (head (transactions e)) in Ok (value t).

Definition into_value e : outcome E V :=
  let! t := expect (head (transactions e)) in Ok (value t).

Definition entry_extrinsics e : gset N :=
  foldr (fun t dest => copy_extrinsics_into (extrinsics t) dest) ∅ (rev (transactions e)).

(** [value_mut] followed by an assignment through the reference. *)
Definition set_value_mut (v : V) e : outcome E (OverlayedEntry V) :=
  match transactions e with
  | [] => Panic
  | t :: l => Ok (mkEntry (mkInner v (extrinsics t) :: l))
  end.

Definition pop_transaction e : outcome E (InnerValue V * OverlayedEntry V) :=
  match transactions e with
  | [] => Panic
  | t :: l => Ok (t, mkEntry l)
  end.

(** [transaction_extrinsics_mut] followed by the update of the set. *)
Definition update_extrinsics (f : Extrinsics -> Extrinsics) e : outcome E (OverlayedEntry V) :=
  match transactions e with
  | [] => Panic
  | t :: l => Ok (mkEntry (mkInner (value t) (f (extrinsics t)) :: l))
  end.

Definition push_transaction (v : V) e : OverlayedEntry V :=
  mkEntry (mkInner v [] :: transactions e).

(** The last lines of [set], [append] and [set_offchain]. *)
Definition record_extrinsic (at_extrinsic : option N) e : outcome E (OverlayedEntry V) :=
  match at_extrinsic with
  | Some extrinsic => update_extrinsics (extrinsics_insert extrinsic) e
  | None => Ok e
  end.

Definition is_nil {A} (l : list A) : bool := match l with [] => true | _ => false end.

Definition entry_set_offchain (v : V) (first_write_in_tx : bool) (at_extrinsic : option N) e
  : outcome E (OverlayedEntry V) :=
  let! e :=
    if first_write_in_tx || is_nil (transactions e) then Ok (push_transaction v e)
    else set_value_mut v e in
  record_extrinsic at_extrinsic e.
End entry.

Section overlayed_value.
Context `{!Profile, !Compact} {E : Type}.
Implicit Types e : OverlayedValue.

(** [restore_append_to_parent] on the second newest version. *)
Definition restore_second (data : StorageValue) (materialized : option N) (parent_size : nat)
    (l : list (InnerValue StorageEntry)) : outcome E (list (InnerValue StorageEntry)) :=
  match l with
  | cur :: parent :: rest =>
      let! v := restore_append_to_parent (value parent) data materialized parent_size in
      Ok (cur :: mkInner v (extrinsics parent) :: rest)
  | _ => Panic
  end.

(** [OverlayedEntry::<StorageEntry>::set] *)
Definition entry_set (v : option StorageValue) (first_write_in_tx : bool)
    (at_extrinsic : option N) e : outcome E OverlayedValue :=
  let v := match v with Some data => Set_ data | None => Remove end in
  let! e :=
    if first_write_in_tx || is_nil (transactions e) then Ok (push_transaction v e)
    else
      let! old_value := value_ref e in
      let set_prev :=
        match old_value with
        | Append data _ materialized_length (Some parent_size) =>
            Some (data, materialized_length, parent_size)
        | _ => None
        end in
      let! e := set_value_mut v e in
      match set_prev with
      | Some (data, current_materialized, parent_size) =>
          let! _ := debug_assert (2 <=? length (transactions e)) in
          let! l := restore_second data current_materialized parent_size (transactions e) in
          Ok (mkEntry l)
      | None => Ok e
      end in
  record_extrinsic at_extrinsic e.

(** What [append] makes of a stored value: [Some] length of the list and its bytes. *)
Definition append_to_value (element data : StorageValue) : outcome E (StorageValue * N * option N) :=
  match extract_length data with
  | Some len =>
      let! len' := add_u32 len 1 in
      Ok (append_raw element data, len', Some len)
  | None => Ok (element, 1%N, None)
  end.

(** [OverlayedEntry::<StorageEntry>::append]; [init] is called at most once. *)
Definition entry_append (element : StorageValue) (first_write_in_tx : bool)
    (init : outcome E StorageValue) (at_extrinsic : option N) e : outcome E OverlayedValue :=
  let! e :=
    match transactions e with
    | [] =>
        let! init_value := init in
        let! r := append_to_value element init_value in
        let '(data, current_length, materialized_length) := r in
        Ok (push_transaction (Append data current_length materialized_length None) e)
    | old :: l =>
        if first_write_in_tx then
          match value old with
          | Remove => Ok (push_transaction (Append element 1 None None) e)
          | Append data current_length materialized_length parent_size =>
              let parent_len := length data in
              let! current_length' := add_u32 current_length 1 in
              let parent := Append [] current_length materialized_length parent_size in
              Ok (push_transaction
                    (Append (append_raw element data) current_length' materialized_length
                       (Some parent_len))
                    (mkEntry (mkInner parent (extrinsics old) :: l)))
          | Set_ prev =>
              let! r := append_to_value element prev in
              let '(data, current_length, materialized_length) := r in
              Ok (push_transaction (Append data current_length materialized_length None) e)
          end
        else
          match value old with
          | Remove => set_value_mut (Append element 1 None None) e
          | Set_ data =>
              let! r := append_to_value element data in
              let '(data, current_length, materialized_length) := r in
              set_value_mut (Append data current_length materialized_length None) e
          | Append data current_length materialized_length parent_size =>
              let! current_length := add_u32 current_length 1 in
              set_value_mut
                (Append (append_raw element data) current_length materialized_length parent_size) e
          end
    end in
  record_extrinsic at_extrinsic e.

(** [OverlayedEntry::<StorageEntry>::value], with the entry it leaves behind. *)
Definition entry_value e : outcome E (OverlayedValue * option StorageValue) :=
  let! v := value_ref e in
  let! r := as_option v in
  let! e := set_value_mut (fst r) e in
  Ok (e, snd r).
End overlayed_value.

(** ** [OverlayedMap] *)

Section overlayed_map.
Context {K V : Type} `{!EqDecision K, !Countable K, !KeyOrd K}.
Context (iter_set : gset K -> list K).
Implicit Types m : OverlayedMap K V.

Definition default_map : OverlayedMap K V := mkMap ∅ [] 0 Client.

Definition set_changes c m : OverlayedMap K V :=
  mkMap c (dirty_keys m) (num_client_transactions m) (execution_mode m).
Definition set_dirty_keys d m : OverlayedMap K V :=
  mkMap (changes m) d (num_client_transactions m) (execution_mode m).
Definition set_mode x m : OverlayedMap K V :=
  mkMap (changes m) (dirty_keys m) (num_client_transactions m) x.

(** [insert_dirty], with the sets it leaves behind. *)
Definition insert_dirty (sets : list (gset K)) (key : K) : list (gset K) * bool :=
  match sets with
  | [] => ([], false)
  | dk :: l => (({[key]} ∪ dk) :: l, bool_decide (key ∉ dk))
  end.

Definition transaction_depth m : nat := length (dirty_keys m).

Definition spawn_child m : OverlayedMap K V :=
  mkMap ∅ (repeat ∅ (transaction_depth m)) (num_client_transactions m) (execution_mode m).

Definition is_empty m : bool := bool_decide (changes m = ∅).

(** [changes.entry(key).or_default()], updated under the flag of [insert_dirty]. *)
Definition update_entry {E} (key : K)
    (f : bool -> OverlayedEntry V -> outcome E (OverlayedEntry V)) : M (OverlayedMap K V) E unit :=
  let* m := get_state in
  let overlayed := default default_entry (changes m !! key) in
  let '(dirty, first_write_in_tx) := insert_dirty (dirty_keys m) key in
  let* overlayed := lift (f first_write_in_tx overlayed) in
  put_state (set_changes (<[key := overlayed]> (changes m)) (set_dirty_keys dirty m)).

Definition set_offchain {E} (key : K) (v : V) (at_extrinsic : option N)
  : M (OverlayedMap K V) E unit :=
  update_entry key (fun first_write => entry_set_offchain v first_write at_extrinsic).

Definition changes_iter m : list (K * OverlayedEntry V) := btree_iter (changes m).

(** Maps a fallible function over a list, first failure first. *)
Fixpoint traverse {E A B} (f : A -> outcome E B) (l : list A) : outcome E (list B) :=
  match l with
  | [] => Ok []
  | x :: l' => let! y := f x in let! k := traverse f l' in Ok (y :: k)
  end.

Definition drain_committed {E} m : outcome E (list (K * V)) :=
  if transaction_depth m =? 0 then
    traverse (fun kv => let! r := pop_transaction kv.2 in Ok (kv.1, value (fst r)))
      (changes_iter m)
  else Panic.

Definition has_open_runtime_transactions m : bool :=
  num_client_transactions m <? transaction_depth m.

Definition enter_runtime : M (OverlayedMap K V) AlreadyInRuntime unit :=
  let* m := get_state in
  match execution_mode m with
  | Runtime => throw mkAlreadyInRuntime
  | Client => put_state (mkMap (changes m) (dirty_keys m) (transaction_depth m) Runtime)
  end.

Definition start_transaction {E} : M (OverlayedMap K V) E unit :=
  modify_state (fun m => set_dirty_keys (∅ :: dirty_keys m) m).

(** The test and [dirty_keys.pop()] that open [close_transaction]. *)
Definition pop_dirty_keys : M (OverlayedMap K V) NoOpenTransaction (gset K) :=
  let* m := get_state in
  if match execution_mode m with Runtime => true | Client => false end &&
     negb (has_open_runtime_transactions m)
  then throw mkNoOpenTransaction
  else
    match dirty_keys m with
    | [] => throw mkNoOpenTransaction
    | dk :: l => let* _ := put_state (set_dirty_keys l m) in ret dk
    end.

(** Whether the version being committed meets one of the transaction below. *)
Definition has_predecessor (key : K) (overlayed : OverlayedEntry V) m
  : OverlayedMap K V * bool :=
  match dirty_keys m with
  | dk :: l => (set_dirty_keys (({[key]} ∪ dk) :: l) m, bool_decide (key ∈ dk))
  | [] => (m, 1 <? length (transactions overlayed))
  end.

(** What is left of a key after a version was rolled back. *)
Definition put_or_remove (key : K) (overlayed : OverlayedEntry V) m : OverlayedMap K V :=
  if is_nil (transactions overlayed) then set_changes (delete key (changes m)) m
  else set_changes (<[key := overlayed]> (changes m)) m.

Definition close_key_offchain (rollback : bool) (key : K)
  : M (OverlayedMap K V) NoOpenTransaction unit :=
  let* m := get_state in
  let* overlayed := lift (expect (changes m !! key)) in
  if rollback then
    let* r := lift (pop_transaction overlayed) in
    put_state (put_or_remove key (snd r) m)
  else
    let '(m, predecessor) := has_predecessor key overlayed m in
    let* _ := put_state m in
    if predecessor then
      let* r := lift (pop_transaction overlayed) in
      let '(dropped_tx, overlayed) := r in
      let* overlayed := lift (set_value_mut (value dropped_tx) overlayed) in
      let* overlayed :=
        lift (update_extrinsics (extrinsics_extend (extrinsics dropped_tx)) overlayed) in
      put_state (set_changes (<[key := overlayed]> (changes m)) m)
    else ret tt.

Definition close_transaction_offchain (rollback : bool)
  : M (OverlayedMap K V) NoOpenTransaction unit :=
  let* dk := pop_dirty_keys in
  for_each (close_key_offchain rollback) (iter_set dk).

Definition rollback_transaction_offchain := close_transaction_offchain true.
Definition commit_transaction_offchain := close_transaction_offchain false.

(** The loop of [exit_runtime]: roll back what the runtime left open. *)
Definition exit_body {E} (rollback : M (OverlayedMap K V) NoOpenTransaction unit) (_ : unit)
  : M (OverlayedMap K V) E (control unit unit) :=
  let* m := get_state in
  if has_open_runtime_transactions m then
    let* _ := expectM rollback in ret (Continue tt)
  else ret (Break tt).

Definition exit_runtime_with (rollback : M (OverlayedMap K V) NoOpenTransaction unit)
  : M (OverlayedMap K V) NotInRuntime unit :=
  let* m := get_state in
  match execution_mode m with
  | Client => throw mkNotInRuntime
  | Runtime =>
      let* _ := put_state (set_mode Client m) in
      loopM (S (transaction_depth m)) (exit_body rollback) tt
  end.

Definition exit_runtime_offchain := exit_runtime_with rollback_transaction_offchain.
End overlayed_map.

(** ** [OverlayedChangeSet] *)

Section changeset.
Context `{!Profile, !Compact} (iter_set : gset StorageKey -> list StorageKey).
Implicit Types m : OverlayedChangeSet.

(** [From<StorageMap>] *)
Definition from_storage (storage : gmap StorageKey StorageValue) : OverlayedChangeSet :=
  mkMap ((fun v => mkEntry [mkInner (Set_ v) []]) <$> storage) [] 0 Client.

(** The rollback of one key in [close_transaction]. *)
Definition rollback_entry {E} (overlayed : OverlayedValue) : outcome E OverlayedValue :=
  let! r := pop_transaction overlayed in
  let '(t, overlayed) := r in
  match value t with
  | Append data _ materialized_length (Some parent_size) =>
      let! _ := debug_assert (negb (is_nil (transactions overlayed))) in
      let! parent := value_ref overlayed in
      let! v := restore_append_to_parent parent data materialized_length parent_size in
      set_value_mut v overlayed
  | _ => Ok overlayed
  end.

(** The merge of a committed version into the one below it. *)
Definition commit_entry {E} (overlayed : OverlayedValue) : outcome E OverlayedValue :=
  let! r := pop_transaction overlayed in
  let '(committed_tx, overlayed) := r in
  let! parent := value_ref overlayed in
  let! overlayed :=
    match value committed_tx, parent with
    | Append data current_length materialized_length (Some _), Append _ _ _ keep_me =>
        set_value_mut (Append data current_length materialized_length keep_me) overlayed
    | v, _ =>
        let! overlayed := set_value_mut v overlayed in
        match parent with
        | Append data _ materialized_length (Some parent_size) =>
            let! _ := debug_assert (2 <=? length (transactions overlayed)) in
            let! _ := sub_usize (length (transactions overlayed)) 2 in
            match transactions overlayed with
            | _ :: _ :: _ =>
                let! l := restore_second data materialized_length parent_size
                            (transactions overlayed) in
                Ok (mkEntry l)
            | _ => Ok overlayed
            end
        | _ => Ok overlayed
        end
    end in
  update_extrinsics (extrinsics_extend (extrinsics committed_tx)) overlayed.

Definition close_key (rollback : bool) (key : StorageKey)
  : M OverlayedChangeSet NoOpenTransaction unit :=
  let* m := get_state in
  let* overlayed := lift (expect (changes m !! key)) in
  if rollback then
    let* overlayed := lift (rollback_entry overlayed) in
    put_state (put_or_remove key overlayed m)
  else
    let '(m, predecessor) := has_predecessor key overlayed m in
    let* _ := put_state m in
    if predecessor then
      let* overlayed := lift (commit_entry overlayed) in
      put_state (set_changes (<[key := overlayed]> (changes m)) m)
    else ret tt.

Definition close_transaction (rollback : bool) : M OverlayedChangeSet NoOpenTransaction unit :=
  let* dk := pop_dirty_keys in
  for_each (close_key rollback) (iter_set dk).

Definition rollback_transaction := close_transaction true.
Definition commit_transaction := close_transaction false.

Definition exit_runtime : M OverlayedChangeSet NotInRuntime unit :=
  exit_runtime_with rollback_transaction.

(** [OverlayedMap::get] followed by [OverlayedEntry::value]. *)
Definition get_value {E} (key : StorageKey)
  : M OverlayedChangeSet E (option (option StorageValue)) :=
  let* m := get_state in
  match changes m !! key with
  | None => ret None
  | Some overlayed =>
      let* r := lift (entry_value overlayed) in
      let* _ := put_state (set_changes (<[key := fst r]> (changes m)) m) in
      ret (Some (snd r))
  end.

Definition set {E} (key : StorageKey) (v : option StorageValue) (at_extrinsic : option N)
  : M OverlayedChangeSet E unit :=
  update_entry key (fun first_write => entry_set v first_write at_extrinsic).

Definition append_storage {E} (key : StorageKey) (element : StorageValue)
    (init : outcome E StorageValue) (at_extrinsic : option N) : M OverlayedChangeSet E unit :=
  update_entry key (fun first_write => entry_append element first_write init at_extrinsic).

(** One key of [clear_where]; the entry is the one in the map. *)
Definition clear_key {E} (at_extrinsic : option N) (count : N) (kv : StorageKey * OverlayedValue)
  : M OverlayedChangeSet E N :=
  let* v := lift (value_ref kv.2) in
  let* count :=
    match v with
    | Set_ _ | Append _ _ _ _ => lift (add_u32 count 1)
    | Remove => ret count
    end in
  let* _ := set kv.1 None at_extrinsic in
  ret count.

Fixpoint clear_loop {E} (at_extrinsic : option N) (l : list (StorageKey * OverlayedValue))
    (count : N) : M OverlayedChangeSet E N :=
  match l with
  | [] => ret count
  | kv :: l' =>
      let* count := clear_key at_extrinsic count kv in
      clear_loop at_extrinsic l' count
  end.

Definition clear_where {E} (predicate : StorageKey -> OverlayedValue -> bool)
    (at_extrinsic : option N) : M OverlayedChangeSet E N :=
  let* m := get_state in
  clear_loop at_extrinsic (List.filter (fun kv => predicate kv.1 kv.2) (changes_iter m)) 0.

(** The entries after a key, in the order of the keys. *)
Definition changes_after (key : StorageKey) m : list (StorageKey * OverlayedValue) :=
  List.filter (fun kv => negb (bytes_leb kv.1 key)) (changes_iter m).
End changeset.
