(* ===== verification/ScaleCompact.v ===== *)
(** * A model of the compact encoding

    The overlay is verified for any encoding that satisfies [CompactLaws]. This is
    the one SCALE documents, for [u32]: the two low bits of the first byte select one,
    two, four or five bytes in little endian, and the shortest form is the only one. *)

From S2P Require Import Prelude Changeset.

#[local] Open Scope N_scope.

Definition scale_encode (n : N) : bytes :=
  if n <? 64 then to_le 1 (4 * n)
  else if n <? 16384 then to_le 2 (4 * n + 1)
  else if n <? 1073741824 then to_le 4 (4 * n + 2)
  else 3 :: to_le 4 n.

(** The number read, before the check that it was in its shortest form. *)
Definition scale_read (data : bytes) : N :=
  match head data with
  | None => 0
  | Some b =>
      match b mod 4 with
      | 0 => from_le (take 1 data) / 4
      | 1 => from_le (take 2 data) / 4
      | 2 => from_le (take 4 data) / 4
      | _ => from_le (take 4 (tail data))
      end
  end.

Definition scale_decode (data : bytes) : option N :=
  let n := scale_read data in
  if (n <=? u32_MAX) && bool_decide (take (length (scale_encode n)) data = scale_encode n)
  then Some n else None.

#[export] Instance scale_compact : Compact := {
  compact_encode := scale_encode;
  compact_decode := scale_decode;
  compact_len := fun n => length (scale_encode n)
}.

Lemma to_le_app k n rest : take k (to_le k n ++ rest) = to_le k n.
Proof. apply take_app_length'. by rewrite to_le_length. Qed.

Lemma scale_read_encode n rest : n <= u32_MAX -> scale_read (scale_encode n ++ rest) = n.
Proof.
  unfold u32_MAX, scale_encode, scale_read. intros Hn.
  assert (forall m b, m mod 4 = b -> b < 4 -> (m mod 256) mod 4 = b) as Hmod.
  { intros m b <- _. change 256 with (4 * 64). rewrite N.Div0.mod_mul_r.
    rewrite (N.mul_comm 4), N.Div0.mod_add. apply N.Div0.mod_mod. }
  assert (forall b, b < 4 -> (4 * n + b) mod 4 = b /\ (4 * n + b) / 4 = n) as Hdiv.
  { intros b Hb. rewrite (N.mul_comm 4), N.add_comm, N.Div0.mod_add, N.div_add, N.mod_small, N.div_small by lia. lia. }
  destruct (Hdiv 0 ltac:(lia)) as [Hm0 Hd0]. rewrite N.add_0_r in Hm0, Hd0.
  destruct (Hdiv 1 ltac:(lia)) as [Hm1 Hd1]. destruct (Hdiv 2 ltac:(lia)) as [Hm2 Hd2].
  repeat match goal with |- context [?a <? ?b] => destruct (N.ltb_spec a b) end.
  - cbn [to_le app head]. rewrite (Hmod _ 0) by (done || lia).
    change ((4 * n) mod 256 :: rest) with (to_le 1 (4 * n) ++ rest). rewrite to_le_app, from_to_le; [done|].
    change (256 ^ N.of_nat 1) with 256. lia.
  - change (head (to_le 2 (4 * n + 1) ++ rest)) with (Some ((4 * n + 1) mod 256)).
    cbv beta iota. rewrite (Hmod _ 1) by (done || lia). rewrite to_le_app, from_to_le; [done|].
    change (256 ^ N.of_nat 2) with 65536. lia.
  - change (head (to_le 4 (4 * n + 2) ++ rest)) with (Some ((4 * n + 2) mod 256)).
    cbv beta iota. rewrite (Hmod _ 2) by (done || lia). rewrite to_le_app, from_to_le; [done|].
    change (256 ^ N.of_nat 4) with 4294967296. lia.
  - cbn [app head tail]. change (3 mod 4) with 3. cbv beta iota. rewrite to_le_app, from_to_le; [done|].
    change (256 ^ N.of_nat 4) with 4294967296. lia.
Qed.

#[export] Instance scale_laws : CompactLaws.
Proof.
  split; simpl.
  - intros n rest Hn. unfold scale_decode. rewrite scale_read_encode by done.
    rewrite (proj2 (N.leb_le _ _)), take_app_length by done. by rewrite bool_decide_eq_true_2.
  - intros data n. unfold scale_decode. destruct (N.leb_spec (scale_read data) u32_MAX); [|done].
    simpl. case_bool_decide as Htake; [|done]. intros [= <-]. split; [done|].
    exists (drop (length (scale_encode (scale_read data))) data). rewrite <- Htake at 1. by rewrite take_drop.
  - done.
Qed.
