(* ===== verification/ChangesetLayers.v ===== *)
(** * Layers and their representation

    A change set is a stack of layers, one finite map per open transaction on top of
    the committed one: a write goes to the top layer, a commit merges it into the one
    below, a rollback drops it. The versions per key, the dirty sets and the buffers
    that appends hand over from one version to the next implement this stack. *)

From S2P Require Import Prelude Changeset.

(** ** The stack of layers *)

(** A value together with the extrinsics that wrote it in its layer. *)
Notation version A := (A * Extrinsics)%type.

Section layers.
Context {K A : Type} `{!EqDecision K, !Countable K}.

Definition layers : Type := list (gmap K (version A)).
Implicit Types (ls : layers) (k : K).

Definition record (at_extrinsic : option N) (l : Extrinsics) : Extrinsics :=
  match at_extrinsic with Some x => extrinsics_insert x l | None => l end.

(** The column of a key: what each layer says about it. *)
Definition column ls k : list (option (version A)) := map (fun l => l !! k) ls.

Fixpoint somes {B} (c : list (option B)) : list B :=
  match c with
  | [] => []
  | Some x :: c' => x :: somes c'
  | None :: c' => somes c'
  end.

(** The newest version of a key. *)
Definition visible ls k : option (version A) := head (somes (column ls k)).

Definition layers_set (k : K) (a : A) (at_extrinsic : option N) ls : layers :=
  match ls with
  | [] => []
  | l :: ls' =>
      <[k := (a, record at_extrinsic (default [] (snd <$> l !! k)))]> l :: ls'
  end.

Definition merge_version (new old : (version A)) : (version A) :=
  (fst new, extrinsics_extend (snd new) (snd old)).

Definition layers_commit ls : layers :=
  match ls with
  | l :: l' :: ls' => union_with (fun new old => Some (merge_version new old)) l l' :: ls'
  | _ => ls
  end.

(** The keys some layer has a version of. *)
Definition known ls : gset K := foldr (fun l s => dom l ∪ s) ∅ ls.

(** Writing [a] over every known key that passes [q]. *)
Definition layers_clear (a : A) (q : K -> bool) (at_extrinsic : option N) ls : layers :=
  match ls with
  | [] => []
  | l :: ls' =>
      merge (fun o (u : option unit) =>
          match u with
          | Some _ => Some (a, record at_extrinsic (default [] (snd <$> o)))
          | None => o
          end) l (gset_to_gmap tt (filter (fun k => q k = true) (known ls))) :: ls'
  end.

(** The same on one column. *)
Definition column_set (a : A) (at_extrinsic : option N) (c : list (option (version A)))
  : list (option (version A)) :=
  match c with
  | [] => []
  | o :: c' => Some (a, record at_extrinsic (default [] (snd <$> o))) :: c'
  end.

Definition column_commit (c : list (option (version A))) : list (option (version A)) :=
  match c with
  | o :: o' :: c' => union_with (fun new old => Some (merge_version new old)) o o' :: c'
  | _ => c
  end.

Lemma column_layers_set k a x ls : column (layers_set k a x ls) k = column_set a x (column ls k).
Proof. destruct ls; simpl; [done|]. by rewrite lookup_insert_eq. Qed.

Lemma column_layers_set_ne k k' a x ls : k <> k' -> column (layers_set k a x ls) k' = column ls k'.
Proof. intros Hne. destruct ls; simpl; [done|]. by rewrite lookup_insert_ne. Qed.

Lemma column_layers_commit k ls : column (layers_commit ls) k = column_commit (column ls k).
Proof. destruct ls as [|l [|l' ls]]; simpl; [done..|]. by rewrite lookup_union_with. Qed.

Lemma column_tail k ls : column (tail ls) k = tail (column ls k).
Proof. by destruct ls. Qed.

Lemma elem_of_known k ls : k ∈ known ls <-> somes (column ls k) <> [].
Proof.
  induction ls as [|l ls IH]; simpl; [set_solver|]. rewrite elem_of_union, elem_of_dom, IH.
  destruct (l !! k); simpl; split; [done|by left; eauto|by intros [[? ?]|]|by right].
Qed.

Lemma column_layers_clear a q k x ls :
  column (layers_clear a q x ls) k =
  if q k && bool_decide (k ∈ known ls) then column_set a x (column ls k) else column ls k.
Proof.
  destruct ls as [|l ls]; simpl; [by destruct (_ && _)|].
  rewrite lookup_merge, lookup_gset_to_gmap. unfold diag_None.
  destruct (q k) eqn:Hq; simpl.
  - destruct (decide (k ∈ dom l ∪ known ls)) as [Hk|Hk].
    + rewrite option_guard_True, bool_decide_eq_true_2 by (rewrite ?elem_of_filter; done).
      by case_match.
    + rewrite option_guard_False, bool_decide_eq_false_2 by (rewrite ?elem_of_filter; naive_solver).
      by case_match.
  - rewrite option_guard_False by (rewrite elem_of_filter, Hq; naive_solver). by case_match.
Qed.

Lemma layers_set_length k a x ls : length (layers_set k a x ls) = length ls.
Proof. by destruct ls. Qed.

Lemma layers_commit_length ls : length (layers_commit ls) = pred (length ls) \/ length ls <= 1.
Proof. destruct ls as [|l [|l' ls]]; simpl; lia. Qed.

(** Layers are determined by their columns. *)
Lemma layers_ext ls ls' :
  length ls = length ls' -> (forall k, column ls k = column ls' k) -> ls = ls'.
Proof.
  revert ls'. induction ls as [|l ls IH]; intros [|l' ls'] Hlen Hcol; simpl in *; try done.
  f_equal.
  - apply map_eq. intros k. specialize (Hcol k). by simplify_eq.
  - apply IH; [lia|]. intros k. specialize (Hcol k). by simplify_eq.
Qed.
End layers.
Arguments layers K A {_ _}.

(** ** Representation of the layers *)

(** What a key contributes to the map: its versions, and in which of the open
    transactions it is dirty. *)
Section representation.
Context {K V A : Type} `{!EqDecision K, !Countable K}.
Context (versions_ok : list (InnerValue V) -> list (version A) -> Prop).
Implicit Types (m : OverlayedMap K V) (ls : layers K A) (k : K).

Definition marks (sets : list (gset K)) k : list bool := map (fun d => bool_decide (k ∈ d)) sets.

Definition slice m k : option (OverlayedEntry V) * list bool :=
  (changes m !! k, marks (dirty_keys m) k).

Definition column_ok (s : option (OverlayedEntry V) * list bool) (c : list (option (version A)))
  : Prop :=
  (exists b, map (fun o => bool_decide (is_Some o)) c = s.2 ++ [b]) /\
  match s.1 with
  | None => somes c = []
  | Some e => somes c <> [] /\ versions_ok (transactions e) (somes c)
  end.

(** The map [m] stands for the layers [ls]. *)
Definition represents m ls : Prop :=
  length ls = S (transaction_depth m) /\ forall k, column_ok (slice m k) (column ls k).
Lemma insert_dirty_marks (sets : list (gset K)) k dirty first :
  insert_dirty sets k = (dirty, first) ->
  length dirty = length sets /\ (forall k', k' <> k -> marks dirty k' = marks sets k') /\
  marks dirty k = match marks sets k with [] => [] | _ :: l => true :: l end /\
  first = match marks sets k with [] => false | b :: _ => negb b end.
Proof.
  unfold insert_dirty. destruct sets as [|d sets]; intros [= <- <-]; [done|].
  split; [done|]. split; [|split].
  - intros k' Hne. simpl. f_equal. apply bool_decide_ext. set_solver.
  - simpl. by rewrite bool_decide_eq_true_2 by set_solver.
  - simpl. apply bool_decide_not.
Qed.

(** Opening a transaction puts an empty layer on top. *)
Lemma represents_start m ls :
  represents m ls -> represents (set_dirty_keys (∅ :: dirty_keys m) m) (∅ :: ls).
Proof.
  intros [Hlen Hcol]. split; [by simpl; rewrite Hlen|]. intros k. destruct (Hcol k) as [[b Hb] Hk].
  unfold slice in *. simpl. rewrite lookup_empty. split; [|done]. exists b. simpl in *.
  rewrite Hb. by rewrite bool_decide_eq_false_2 by set_solver.
Qed.

(** The keys of the map are those the layers know. *)
Lemma represents_known m ls : represents m ls -> known ls = dom (changes m).
Proof.
  intros [_ Hcol]. apply set_eq. intros k. rewrite elem_of_known, elem_of_dom.
  destruct (Hcol k) as [_ Hk]. unfold slice in Hk. simpl in Hk.
  destruct (changes m !! k) as [e|]; [|by rewrite Hk; split; [done|intros [? ?]]].
  split; [by eauto|]. by destruct Hk.
Qed.

Lemma represents_keys `{!KeyOrd K} m ls :
  represents m ls -> map fst (changes_iter m) ≡ₚ elements (known ls).
Proof.
  intros Hm. unfold changes_iter, btree_iter. rewrite sort_by_perm, (represents_known _ _ Hm).
  apply NoDup_Permutation; [apply NoDup_fst_map_to_list|apply NoDup_elements|].
  intros k. rewrite elem_of_elements, elem_of_dom, list_elem_of_fmap. split.
  - intros ([k' e] & -> & He%elem_of_map_to_list). by exists e.
  - intros [e He]. exists (k, e). by rewrite elem_of_map_to_list.
Qed.

(** A map without entries stands for empty layers. *)
Lemma represents_empty m ls : represents m ls -> changes m = ∅ -> ls = repeat ∅ (length ls).
Proof.
  intros [_ Hcol] Hm. apply layers_ext; [by rewrite repeat_length|]. intros k.
  destruct (Hcol k) as [_ Hk]. unfold slice in Hk. rewrite Hm, lookup_empty in Hk. simpl in Hk. clear Hcol Hm.
  induction ls as [|l ls IH]; simpl in *; [done|]. rewrite lookup_empty.
  destruct (l !! k); [done|]. by rewrite <- IH.
Qed.
End representation.

(** ** What the versions of one key promise to the map *)

(** [versions_ok vs as]: the versions [vs] stand for the values [as]. Rolling back
    gives up the newest value, committing merges it into the one below. *)
Class VersionStack {V A : Type} (versions_ok : list (InnerValue V) -> list (version A) -> Prop)
    (rollback commit : OverlayedEntry V -> outcome NoOpenTransaction (OverlayedEntry V)) : Prop := {
  versions_length vs l : versions_ok vs l -> length vs = length l;
  versions_nil : versions_ok [] [];
  rollback_ok vs a l :
    versions_ok vs (a :: l) ->
    exists vs', rollback (mkEntry vs) = Ok (mkEntry vs') /\ versions_ok vs' l;
  commit_ok vs a b l :
    versions_ok vs (a :: b :: l) ->
    exists vs', commit (mkEntry vs) = Ok (mkEntry vs') /\ versions_ok vs' (merge_version a b :: l)
}.

Section generic.
Context {K V A : Type} `{!EqDecision K, !Countable K}.
Context (versions_ok : list (InnerValue V) -> list (version A) -> Prop).
Context (rollback_entry commit_entry : OverlayedEntry V -> outcome NoOpenTransaction (OverlayedEntry V)).
Context `{!VersionStack versions_ok rollback_entry commit_entry}.
Implicit Types (m : OverlayedMap K V) (ls : layers K A) (k : K).
Notation column_ok := (column_ok versions_ok).
Notation represents := (represents versions_ok).

(** The fields that only the closing of transactions and the mode switch change. *)
Definition same_frame m m' : Prop :=
  transaction_depth m' = transaction_depth m /\
  num_client_transactions m' = num_client_transactions m /\
  execution_mode m' = execution_mode m.

(** Everything but the key [k] is as it was. *)
Definition only_changes k m m' : Prop :=
  same_frame m m' /\ forall k', k' <> k -> slice m' k' = slice m k'.

Lemma versions_cons vs a l : versions_ok vs (a :: l) -> exists v vs', vs = v :: vs'.
Proof. intros Hvs%versions_length. destruct vs; simpl in *; [done|by eauto]. Qed.

Lemma versions_nil_inv vs : versions_ok vs [] -> vs = [].
Proof. intros Hvs%versions_length. by destruct vs. Qed.

Lemma column_ok_some e marks c : somes c <> [] ->
  (exists b, map (fun o => bool_decide (is_Some o)) c = marks ++ [b]) ->
  versions_ok e (somes c) -> column_ok (Some (mkEntry e), marks) c.
Proof. by split. Qed.

(** The versions of a key, none when it is not in the map. *)
Lemma column_versions s c : column_ok s c -> versions_ok (transactions (default default_entry s.1)) (somes c).
Proof. intros [_ Hc]. destruct s as [[e|] marks]; simpl in *; [apply Hc|]. rewrite Hc. apply versions_nil. Qed.

Lemma column_cons s c : column_ok s c -> exists o c', c = o :: c'.
Proof. intros [[b Hb] _]. destruct c; [by destruct s.2|by eauto]. Qed.

(** *** Writes *)

(** A version is pushed exactly when the top layer has none for the key. *)
Lemma first_write_none e marks o c :
  column_ok (e, marks) (o :: c) ->
  match marks with [] => false | b :: _ => negb b end ||
    is_nil (transactions (default default_entry e)) = bool_decide (o = None).
Proof.
  intros Hc. pose proof (column_versions _ _ Hc) as Hvs%versions_length.
  destruct Hc as [[b Hb] _]. simpl in *. destruct marks as [|b' marks].
  - destruct c; [|by destruct c]. destruct o; simpl in *; by destruct (transactions _).
  - injection Hb as <- _. destruct o; simpl in *; [|done]. by destruct (transactions _).
Qed.

(** A write to a key of a represented map is a write to the top layer. *)
Lemma update_entry_ok {E} (f : bool -> OverlayedEntry V -> outcome E (OverlayedEntry V)) k a x m ls :
  represents m ls ->
  (forall first vs o c, column ls k = o :: c -> versions_ok vs (somes (o :: c)) ->
     first || is_nil vs = bool_decide (o = None) ->
     exists vs', f first (mkEntry vs) = Ok (mkEntry vs') /\
       versions_ok vs' ((a, record x (default [] (snd <$> o))) :: somes c)) ->
  exists m', update_entry k f m = (m', Ok tt) /\
    represents m' (layers_set k a x ls) /\ only_changes k m m'.
Proof.
  intros [Hlen Hcol] Hf. destruct (column_cons _ _ (Hcol k)) as (o & c & Hc).
  pose proof (Hcol k) as Hk. rewrite Hc in Hk. pose proof (first_write_none _ _ _ _ Hk) as Hfirst.
  pose proof (column_versions _ _ Hk) as Hvs. destruct Hk as [[b Hb] _]. simpl in Hvs, Hb.
  unfold update_entry, get_state, bindM, lift, put_state.
  destruct (insert_dirty (dirty_keys m) k) as [dirty first] eqn:Hd.
  apply insert_dirty_marks in Hd as (Hdlen & Hne & Heq & ->).
  destruct (Hf _ _ o c Hc Hvs Hfirst) as (vs' & Hf' & Hvs').
  destruct (default default_entry (changes m !! k)) as [vs]. simpl in Hf'. rewrite Hf'.
  eexists. split; [done|]. split; [split|split; [by unfold same_frame, transaction_depth|]].
  - rewrite layers_set_length, Hlen. unfold transaction_depth. simpl. by rewrite Hdlen.
  - intros k'. unfold slice. simpl. destruct (decide (k' = k)) as [->|Hk'].
    + rewrite lookup_insert_eq, column_layers_set, Hc, Heq. apply column_ok_some; [done| |done].
      simpl. destruct (marks _ k) as [|b' l]; injection Hb as ? Hb; rewrite Hb; by eexists.
    + rewrite lookup_insert_ne, column_layers_set_ne, Hne by done. apply Hcol.
  - intros k' Hk'. unfold slice. simpl. by rewrite lookup_insert_ne, Hne.
Qed.
(** *** Closing a transaction *)

(** The common shape of [close_key] and [close_key_offchain]. *)
Definition close_key_with (rollback : bool) (k : K) : M (OverlayedMap K V) NoOpenTransaction unit :=
  let* m := get_state in
  let* overlayed := lift (expect (changes m !! k)) in
  if rollback then
    let* overlayed := lift (rollback_entry overlayed) in
    put_state (put_or_remove k overlayed m)
  else
    let '(m, predecessor) := has_predecessor k overlayed m in
    let* _ := put_state m in
    if predecessor then
      let* overlayed := lift (commit_entry overlayed) in
      put_state (set_changes (<[k := overlayed]> (changes m)) m)
    else ret tt.

Definition close_column (rollback : bool) (c : list (option (version A))) : list (option (version A)) :=
  if rollback then tail c else column_commit c.

Definition close_layers (rollback : bool) ls : layers K A :=
  if rollback then tail ls else layers_commit ls.

(** A key the closed transaction did not write. *)
Lemma close_column_clean rollback e marks c :
  column_ok (e, false :: marks) c -> column_ok (e, marks) (close_column rollback c).
Proof.
  intros [[b Hb] He]. destruct c as [|[x|] c]; simpl in *; [done|done|]. injection Hb as Hb.
  assert (close_column rollback (None :: c) = c) as ->.
  { destruct rollback; [done|]. destruct c as [|o c]; [by destruct marks|]. by destruct o. }
  split; [by exists b|done].
Qed.

Lemma set_changes_slice k e m k' :
  slice (set_changes (<[k := e]> (changes m)) m) k' =
  if decide (k' = k) then (Some e, marks (dirty_keys m) k) else slice m k'.
Proof.
  unfold slice. simpl. destruct (decide (k' = k)) as [->|]; [by rewrite lookup_insert_eq|].
  by rewrite lookup_insert_ne.
Qed.

Lemma put_or_remove_slice k e m k' :
  slice (put_or_remove k e m) k' =
  if decide (k' = k) then (if is_nil (transactions e) then None else Some e, marks (dirty_keys m) k)
  else slice m k'.
Proof.
  unfold put_or_remove. destruct (is_nil _); [|apply set_changes_slice].
  unfold slice. simpl. destruct (decide (k' = k)) as [->|]; [by rewrite lookup_delete_eq|].
  by rewrite lookup_delete_ne.
Qed.

Lemma close_key_rollback k m c :
  column_ok (changes m !! k, true :: marks (dirty_keys m) k) c ->
  exists m', close_key_with true k m = (m', Ok tt) /\ only_changes k m m' /\
    column_ok (slice m' k) (tail c).
Proof.
  intros [[b Hb] He]. destruct c as [|[x|] c]; simpl in *; [done| |done]. injection Hb as Hb.
  destruct (changes m !! k) as [[vs]|] eqn:Hk; simpl in *; [|done]. destruct He as [_ He].
  destruct (rollback_ok _ _ _ He) as (vs' & Hr & Hvs').
  unfold close_key_with, get_state, bindM, lift, put_state. rewrite Hk. simpl. rewrite Hr.
  eexists. split; [done|]. split; [split|].
  - unfold put_or_remove. by destruct (is_nil _).
  - intros k' Hne. rewrite put_or_remove_slice. by destruct (decide (k' = k)).
  - rewrite put_or_remove_slice, decide_True by done. split; simpl; [by exists b|].
    destruct vs' as [|v vs']; simpl; [apply versions_length in Hvs'|split; [|done]].
    + by destruct (somes c).
    + intros Hnil. assert (v :: vs' = []) by (apply versions_nil_inv; rewrite <- Hnil; exact Hvs'). done.
Qed.

Lemma has_predecessor_ok k e m c :
  column_ok (Some e, true :: marks (dirty_keys m) k) c ->
  exists x o c' m', c = Some x :: o :: c' /\
    has_predecessor k e m = (m', bool_decide (is_Some o)) /\
    changes m' = changes m /\ only_changes k m m' /\
    marks (dirty_keys m') k = match marks (dirty_keys m) k with [] => [] | _ :: l => true :: l end.
Proof.
  intros [[b Hb] [_ He]]. destruct c as [|[x|] [|o c]]; simpl in *; try done.
  { by destruct (marks _ k). }
  injection Hb as Hb. unfold has_predecessor. exists x, o, c.
  pose proof (versions_length _ _ He) as Hlen. destruct (dirty_keys m) as [|d l] eqn:Hd; simpl in *.
  - exists m. destruct c; [|by destruct c]. split_and!; [done| |done|by split|by rewrite Hd].
    rewrite Hlen. by destruct o.
  - injection Hb as Ho Hb. rewrite <- Ho. eexists. split_and!; [done|done|done| |].
    + split; [by unfold same_frame, transaction_depth; simpl; rewrite Hd|]. intros k' Hne. unfold slice. simpl.
      rewrite Hd. simpl. do 2 f_equal. apply bool_decide_ext. set_solver.
    + simpl. by rewrite bool_decide_eq_true_2 by set_solver.
Qed.

Lemma only_changes_trans k m1 m2 m3 :
  only_changes k m1 m2 -> only_changes k m2 m3 -> only_changes k m1 m3.
Proof.
  intros [(? & ? & ?) H12] [(? & ? & ?) H23]. split; [split_and!; congruence|].
  intros k' Hne. by rewrite H23, H12.
Qed.

Lemma close_key_commit k m c :
  column_ok (changes m !! k, true :: marks (dirty_keys m) k) c ->
  exists m', close_key_with false k m = (m', Ok tt) /\ only_changes k m m' /\
    column_ok (slice m' k) (column_commit c).
Proof.
  intros Hc. destruct (changes m !! k) as [e|] eqn:Hk.
  2: { destruct Hc as [[b Hb] He]. by destruct c as [|[x|] c]. }
  destruct (has_predecessor_ok k e m c Hc) as (x & o & c' & m' & -> & Hp & Hch & Honly & Hm').
  destruct Hc as [[b Hb] [_ He]]. injection Hb as Hb. destruct e as [vs].
  unfold close_key_with, get_state, bindM, lift, put_state. rewrite Hk. simpl. rewrite Hp.
  assert (exists b', true :: map (fun o => bool_decide (is_Some o)) c' = marks (dirty_keys m') k ++ [b']) as Hb'.
  { rewrite Hm'. destruct (marks _ k); injection Hb as ? Hb; rewrite Hb; by eexists. }
  destruct o as [y|]; simpl in *.
  - destruct (commit_ok _ _ _ _ He) as (vs' & Hcm & Hvs'). rewrite Hcm. eexists. split; [done|]. split.
    + eapply only_changes_trans; [exact Honly|]. split; [done|]. intros k' Hne.
      rewrite set_changes_slice. by destruct (decide (k' = k)).
    + rewrite set_changes_slice, decide_True by done. by split.
  - exists m'. split; [done|]. split; [done|]. unfold slice. rewrite Hch, Hk. by split.
Qed.
Lemma close_key_ok rollback k m c :
  column_ok (changes m !! k, true :: marks (dirty_keys m) k) c ->
  exists m', close_key_with rollback k m = (m', Ok tt) /\ only_changes k m m' /\
    column_ok (slice m' k) (close_column rollback c).
Proof. destruct rollback; [apply close_key_rollback|apply close_key_commit]. Qed.

Lemma close_loop_ok rollback (cols : K -> list (option (version A))) keys m :
  NoDup keys ->
  (forall k, k ∈ keys -> column_ok (changes m !! k, true :: marks (dirty_keys m) k) (cols k)) ->
  exists m', for_each (close_key_with rollback) keys m = (m', Ok tt) /\ same_frame m m' /\
    (forall k, k ∈ keys -> column_ok (slice m' k) (close_column rollback (cols k))) /\
    (forall k, k ∉ keys -> slice m' k = slice m k).
Proof.
  intros Hnd. revert m. induction Hnd as [|k keys Hk Hnd IH]; intros m Hok.
  { exists m. split_and!; [done|done|set_solver|done]. }
  destruct (close_key_ok rollback k m (cols k)) as (m1 & Hrun & [Hframe Hother] & Hm1); [apply Hok; set_solver|].
  assert (forall k', k' ∈ keys -> slice m1 k' = slice m k') as Hsame.
  { intros k' Hk'. apply Hother. by intros ->. }
  destruct (IH m1) as (m' & Hrun' & Hframe' & Hdone & Hrest).
  { intros k' Hk'. pose proof (Hsame k' Hk') as Heq. unfold slice in Heq.
    injection Heq as -> ->. apply Hok. set_solver. }
  exists m'. simpl. unfold bindM. rewrite Hrun. split_and!; [done| | |].
  - destruct Hframe as (? & ? & ?), Hframe' as (? & ? & ?). split_and!; congruence.
  - intros k' [->|Hk']%elem_of_cons; [|by apply Hdone]. by rewrite Hrest.
  - intros k' [Hne Hk']%not_elem_of_cons. rewrite Hrest, Hother by done. done.
Qed.

Context (iter_set : gset K -> list K) (iter_set_perm : forall s, iter_set s ≡ₚ elements s).

Definition close_with (rollback : bool) : M (OverlayedMap K V) NoOpenTransaction unit :=
  let* dk := pop_dirty_keys in
  for_each (close_key_with rollback) (iter_set dk).

(** A transaction is open, and is not one of the client's while in the runtime. *)
Definition closable m : bool :=
  (0 <? transaction_depth m) &&
  match execution_mode m with
  | Client => true
  | Runtime => has_open_runtime_transactions m
  end.

Lemma close_refused rollback m :
  closable m = false -> close_with rollback m = (m, Err mkNoOpenTransaction).
Proof.
  unfold closable, close_with, pop_dirty_keys, bindM, get_state, throw, transaction_depth.
  destruct (dirty_keys m) as [|d l]; simpl; [by destruct (_ && _)|].
  destruct (execution_mode m); simpl; [done|]. by intros ->.
Qed.

Lemma pop_dirty_ok m :
  closable m = true ->
  exists dk l, dirty_keys m = dk :: l /\ pop_dirty_keys m = (set_dirty_keys l m, Ok dk).
Proof.
  unfold closable, pop_dirty_keys, bindM, get_state, put_state, ret, transaction_depth.
  destruct (dirty_keys m) as [|d l]; simpl; [done|]. intros Hc. exists d, l. split; [done|].
  destruct (execution_mode m); simpl; [done|]. by rewrite Hc.
Qed.

(** Closing a transaction of a represented map closes the top layer. *)
Lemma close_ok rollback m ls :
  represents m ls -> closable m = true ->
  exists m', close_with rollback m = (m', Ok tt) /\ represents m' (close_layers rollback ls) /\
    S (transaction_depth m') = transaction_depth m /\
    num_client_transactions m' = num_client_transactions m /\
    execution_mode m' = execution_mode m.
Proof.
  intros [Hlen Hcol] (dk & l & Hd & Hpop)%pop_dirty_ok.
  assert (forall k, column_ok (changes m !! k, bool_decide (k ∈ dk) :: marks l k) (column ls k)) as Hk.
  { intros k. specialize (Hcol k). unfold slice in Hcol. by rewrite Hd in Hcol. }
  assert (forall k, k ∈ iter_set dk <-> k ∈ dk) as Hin.
  { intros k. by rewrite iter_set_perm, elem_of_elements. }
  destruct (close_loop_ok rollback (column ls) (iter_set dk) (set_dirty_keys l m))
    as (m' & Hrun & (Hdepth & Hnum & Hmode) & Hdone & Hrest).
  { rewrite iter_set_perm. apply NoDup_elements. }
  { intros k Hin'%Hin. specialize (Hk k). by rewrite bool_decide_eq_true_2 in Hk. }
  unfold transaction_depth in *. simpl in *.
  exists m'. unfold close_with, bindM. rewrite Hpop, Hrun, Hd. split_and!; [done| |by rewrite Hdepth|done|done].
  assert (forall k, column (close_layers rollback ls) k = close_column rollback (column ls k)) as Hcl.
  { intros k. destruct rollback; [apply column_tail|apply column_layers_commit]. }
  split; [rewrite Hd in Hlen; unfold transaction_depth; rewrite Hdepth|].
  - destruct rollback, ls as [|? [|? ?]]; simpl in *; lia.
  - intros k. rewrite Hcl. destruct (decide (k ∈ dk)) as [Hkin|Hkin]; [by apply Hdone, Hin|].
    rewrite Hrest by by rewrite Hin. unfold slice. simpl. apply close_column_clean.
    specialize (Hk k). by rewrite bool_decide_eq_false_2 in Hk.
Qed.

(** *** Leaving the runtime *)

(** What is left when only [n] transactions are open. *)
Definition unwound m ls n m' : Prop :=
  execution_mode m' = Client /\ num_client_transactions m' = num_client_transactions m /\
  transaction_depth m' = n /\ represents m' (drop (transaction_depth m - n) ls).

Lemma exit_round m ls n m' :
  unwound m ls n m' -> num_client_transactions m <= n <= transaction_depth m ->
  if num_client_transactions m <? n then
    exists m'', exit_body (E := NotInRuntime) (close_with true) tt m' = (m'', Ok (Continue tt)) /\
      unwound m ls (pred n) m''
  else exit_body (E := NotInRuntime) (close_with true) tt m' = (m', Ok (Break tt)).
Proof.
  intros (Hmode & Hnum & Hdepth & Hr) Hn. unfold exit_body, get_state, bindM, expectM, ret.
  assert (has_open_runtime_transactions m' = (num_client_transactions m <? n)) as ->.
  { unfold has_open_runtime_transactions. by rewrite Hnum, Hdepth. }
  destruct (Nat.ltb_spec (num_client_transactions m) n) as [Hlt|]; [|done].
  destruct (close_ok true m' _ Hr) as (m'' & -> & Hr' & Hd & Hnum' & Hmode').
  { unfold closable. rewrite Hmode, Hdepth. destruct n; [lia|done]. }
  exists m''. split; [done|]. split_and!; [congruence|congruence|lia|]. simpl in Hr'.
  replace (transaction_depth m - pred n) with (S (transaction_depth m - n)) by lia.
  by rewrite <- tail_drop.
Qed.

Lemma exit_loop m ls fuel n m' :
  unwound m ls n m' -> num_client_transactions m <= n <= transaction_depth m -> n < fuel ->
  exists m'', loopM fuel (exit_body (E := NotInRuntime) (close_with true)) tt m' = (m'', Ok tt) /\
    unwound m ls (num_client_transactions m) m''.
Proof.
  revert n m'. induction fuel as [|fuel IH]; intros n m' Hun Hn Hf; [lia|].
  pose proof (exit_round m ls n m' Hun Hn) as Hround. simpl. unfold bindM.
  destruct (Nat.ltb_spec (num_client_transactions m) n).
  - destruct Hround as (m'' & -> & Hun'). apply (IH (pred n)); [done|lia|lia].
  - rewrite Hround. exists m'. split; [done|].
    by replace (num_client_transactions m) with n by lia.
Qed.

(** Leaving the runtime rolls back exactly the transactions the runtime left open. *)
Lemma exit_runtime_ok m ls :
  represents m ls -> execution_mode m = Runtime -> num_client_transactions m <= transaction_depth m ->
  exists m', exit_runtime_with (close_with true) m = (m', Ok tt) /\
    unwound m ls (num_client_transactions m) m'.
Proof.
  intros Hr Hmode Hle. unfold exit_runtime_with, get_state, bindM, put_state. rewrite Hmode.
  destruct (exit_loop m ls (S (transaction_depth m)) (transaction_depth m) (set_mode Client m))
    as (m' & -> & Hun); [|lia|lia|by exists m'].
  split_and!; [done|done|done|]. by rewrite Nat.sub_diag.
Qed.
End generic.

(** ** Versions kept as they are: the offchain overlay *)

Section plain.
Context {V : Type}.

Definition plain_ok (vs : list (InnerValue V)) (l : list (version V)) : Prop :=
  map (fun t => (value t, extrinsics t)) vs = l.

Definition plain_rollback (e : OverlayedEntry V) : outcome NoOpenTransaction (OverlayedEntry V) :=
  let! r := pop_transaction e in Ok (snd r).

Definition plain_commit (e : OverlayedEntry V) : outcome NoOpenTransaction (OverlayedEntry V) :=
  let! r := pop_transaction e in
  let '(dropped_tx, e) := r in
  let! e := set_value_mut (value dropped_tx) e in
  update_extrinsics (extrinsics_extend (extrinsics dropped_tx)) e.

#[export] Instance plain_stack : VersionStack plain_ok plain_rollback plain_commit.
Proof.
  unfold plain_ok. split.
  - intros vs l <-. by rewrite length_map.
  - done.
  - intros [|v vs] a l; [done|]. intros [= <- <-]. by exists vs.
  - intros [|v [|w vs]] a b l; [done..|]. intros [= <- <- <-]. by eexists (mkInner _ _ :: vs).
Qed.

Context {K : Type} `{!EqDecision K, !Countable K}.

Lemma close_key_offchain_eq rollback (k : K) (m : OverlayedMap K V) :
  close_key_offchain rollback k m = close_key_with plain_rollback plain_commit rollback k m.
Proof.
  unfold close_key_offchain, close_key_with, plain_rollback, plain_commit, bindM, get_state, lift,
    put_state, ret. destruct (changes m !! k) as [[vs]|]; simpl; [|done].
  destruct rollback; [by destruct vs|]. destruct (has_predecessor k _ m) as [m' [|]]; [|done].
  by destruct vs as [|v [|w vs]].
Qed.

Lemma close_transaction_offchain_eq iter_set rollback (m : OverlayedMap K V) :
  close_transaction_offchain iter_set rollback m =
  close_with plain_rollback plain_commit iter_set rollback m.
Proof.
  unfold close_transaction_offchain, close_with, bindM.
  destruct (pop_dirty_keys m) as [m' [dk| | |]]; [|done..].
  revert m'. induction (iter_set dk) as [|k l IH]; intros m'; simpl; [done|].
  unfold bindM. rewrite close_key_offchain_eq.
  by destruct (close_key_with _ _ _ _ _) as [m'' [[]| | |]].
Qed.

Lemma exit_runtime_ext (f g : M (OverlayedMap K V) NoOpenTransaction unit) m :
  (forall m, f m = g m) -> exit_runtime_with f m = exit_runtime_with g m.
Proof.
  intros Hfg. unfold exit_runtime_with, bindM, get_state, put_state.
  destruct (execution_mode m); [done|]. generalize (set_mode Client m) as m'.
  generalize (S (transaction_depth m)) as fuel. intros fuel.
  induction fuel as [|fuel IH]; intros m'; simpl; [done|].
  unfold bindM, exit_body, bindM, get_state, expectM.
  destruct (has_open_runtime_transactions m'); [|done]. rewrite Hfg. destruct (g m') as [m2 [| | |]]; simpl; [apply IH|done..].
Qed.
End plain.
