(* ===== verification/ChangesetSpec.v ===== *)
(** * Correctness of the storage overlay

    The versions of a key move one buffer from transaction to transaction as elements
    are appended to it, and fix the length prefix only when the value is read. They
    still stand for one value per layer, so that the change set implements the stack
    of layers; the theorems compare the two as machines that take the same calls. *)

From S2P Require Import Prelude Changeset ChangesetLayers.

(** ** Versions that hand over their buffers: the storage overlay *)

Section storage.
Context {P : Profile} {C : Compact} {L : CompactLaws}.
Implicit Types (vs : list (InnerValue StorageEntry)) (l : list (version (option StorageValue))).

Definition encoded_prefix (materialized : option N) : bytes :=
  match materialized with Some m => compact_encode m | None => [] end.

Definition fits (n : option N) : Prop := match n with Some m => (m <= u32_MAX)%N | None => True end.

(** [stack_ok taken vs l]: the versions stand for the values, newest first. The
    newest one has given its buffer to the version above it when [taken] is
    [Some (size, body)]: [size] is the number of bytes it gave away, and [body]
    the elements now in the buffer, of which its own are a prefix. *)
Fixpoint stack_ok (taken : option (nat * bytes)) vs l : Prop :=
  match vs, l with
  | [], [] => taken = None
  | v :: vs', (a, x) :: l' =>
      extrinsics v = x /\
      match value v with
      | Set_ data => taken = None /\ a = Some data /\ stack_ok None vs' l'
      | Remove => taken = None /\ a = None /\ stack_ok None vs' l'
      | Append data current_length materialized parent_size =>
          exists body, a = Some (compact_encode current_length ++ body) /\
            (current_length <= u32_MAX)%N /\ fits materialized /\
            match taken with
            | None => data = encoded_prefix materialized ++ body
            | Some (size, above) =>
                body `prefix_of` above /\ size = length (encoded_prefix materialized) + length body
            end /\
            stack_ok (match parent_size with Some n => Some (n, body) | None => None end) vs' l'
      end
  | _, _ => False
  end.

Lemma encoded_len_prefix m : fits m -> encoded_len m = length (encoded_prefix m).
Proof. destruct m as [n|]; simpl; [|done]. apply compact_len_encode. Qed.

Lemma stack_ok_length taken vs l : stack_ok taken vs l -> length vs = length l.
Proof.
  revert taken l. induction vs as [|v vs IH]; intros taken [|[a x] l]; simpl; try done.
  intros [_ Hv]. f_equal. destruct (value v); [by eapply IH, Hv..|].
  destruct Hv as (body & _ & _ & _ & _ & Hvs). by eapply IH.
Qed.

(** The buffer comes back with what was added above cut off. *)
Lemma restore_ok {E} above data materialized size v vs a x l :
  stack_ok (Some (size, above)) (v :: vs) ((a, x) :: l) -> fits materialized ->
  data = encoded_prefix materialized ++ above ->
  exists w, restore_append_to_parent (E := E) (value v) data materialized size = Ok w /\
    stack_ok None (mkInner w (extrinsics v) :: vs) ((a, x) :: l).
Proof.
  simpl. intros [Hx Hv] Hfit ->. destruct (value v) as [d| |d n pm ps]; [by destruct Hv..|].
  destruct Hv as (body & Ha & Hn & Hpm & [[extra ->] ->] & Hvs).
  unfold restore_append_to_parent. rewrite !encoded_len_prefix by done.
  set (p := length (encoded_prefix pm)). set (q := length (encoded_prefix materialized)).
  assert ((if q <=? p then sub_usize (E := E) (p + length body) (q - p + (p - q))
           else Ok (p + length body + (q - p + (p - q)))) = Ok (q + length body)) as ->.
  { unfold sub_usize. destruct (Nat.leb_spec q p); [|f_equal; lia].
    destruct (Nat.leb_spec (q - p + (p - q)) (p + length body)); [f_equal; lia|lia]. }
  simpl. eexists. split; [done|]. simpl. split; [done|]. exists body. split_and!; try done.
  rewrite take_app_ge by lia. f_equal. subst q.
  replace (_ - _) with (length body) by lia. by rewrite take_app_length.
Qed.
Lemma stack_ok_taken t vs l :
  stack_ok (Some t) vs l -> exists v vs' a x l', vs = v :: vs' /\ l = (a, x) :: l'.
Proof. destruct vs as [|v vs], l as [|[a x] l]; simpl; try done. intros _. by eexists _, _, _, _, _. Qed.

(** The buffer above may grow. *)
Lemma stack_ok_longer size body above vs l :
  stack_ok (Some (size, body)) vs l -> body `prefix_of` above -> stack_ok (Some (size, above)) vs l.
Proof.
  intros Hvs Hpre. destruct (stack_ok_taken _ _ _ Hvs) as (v & vs' & a & x & l' & -> & ->). simpl in *.
  destruct Hvs as [Hx Hv]. split; [done|]. destruct (value v) as [| |d n m ps]; [by destruct Hv..|].
  destruct Hv as (body' & -> & Hn & Hm & [Hbody ->] & Hv). exists body'. split_and!; try done. by etrans.
Qed.

Lemma rollback_entry_ok {E} vs a l :
  stack_ok None vs (a :: l) ->
  exists vs', rollback_entry (E := E) (mkEntry vs) = Ok (mkEntry vs') /\ stack_ok None vs' l.
Proof.
  destruct vs as [|v vs], a as [a x]; simpl; [done|]. intros [Hx Hv]. unfold rollback_entry. simpl.
  destruct (value v) as [d| |d n m [size|]]; [by exists vs; naive_solver..| |by exists vs; naive_solver].
  destruct Hv as (body & -> & Hn & Hm & -> & Hvs).
  destruct (stack_ok_taken _ _ _ Hvs) as (w & vs' & b & y & l' & -> & ->).
  destruct (restore_ok (E := E) _ _ _ _ _ _ _ _ _ Hvs Hm eq_refl) as (w' & Hw & Hok).
  unfold debug_assert. rewrite andb_false_r. simpl. rewrite Hw. simpl. by eexists.
Qed.

(** The second newest version gets its buffer back when the newest is replaced. *)
Lemma restore_second_ok {E} above data materialized size cur vs l :
  stack_ok (Some (size, above)) vs l -> fits materialized ->
  data = encoded_prefix materialized ++ above ->
  exists vs', restore_second (E := E) data materialized size (cur :: vs) = Ok (cur :: vs') /\
    stack_ok None vs' l /\ vs <> [].
Proof.
  intros Hvs Hm Hd. destruct (stack_ok_taken _ _ _ Hvs) as (w & vs' & b & y & l' & -> & ->).
  destruct (restore_ok (E := E) _ _ _ _ _ _ _ _ _ Hvs Hm Hd) as (w' & Hw & Hok).
  unfold restore_second. rewrite Hw. simpl. by eexists.
Qed.

(** A version without a buffer of its own parent can be put on any stack. *)
Definition fresh (v : StorageEntry) (a : option StorageValue) : Prop :=
  match v with
  | Set_ data => a = Some data
  | Remove => a = None
  | Append data n m None => exists body, a = Some (compact_encode n ++ body) /\
      (n <= u32_MAX)%N /\ fits m /\ data = encoded_prefix m ++ body
  | Append _ _ _ (Some _) => False
  end.

Lemma stack_ok_fresh v x a vs l :
  fresh v a -> stack_ok None vs l -> stack_ok None (mkInner v x :: vs) ((a, x) :: l).
Proof. destruct v as [d| |d n m [size|]]; simpl; try done. intros (body & Hb) Hvs. naive_solver. Qed.

(** Replacing the newest version by a fresh one. *)
Lemma replace_ok {E} v vs w a x b y l :
  stack_ok None (v :: vs) ((b, y) :: l) -> fresh w a ->
  exists vs',
    match value v with
    | Append data _ materialized (Some size) =>
        restore_second (E := E) data materialized size (mkInner w x :: vs) = Ok (mkInner w x :: vs') /\
        2 <= length (mkInner w x :: vs)
    | _ => vs' = vs
    end /\ stack_ok None (mkInner w x :: vs') ((a, x) :: l).
Proof.
  simpl. intros [_ Hv] Hw. destruct (value v) as [d| |d n m [size|]];
    [by exists vs; split; [done|apply stack_ok_fresh; naive_solver]..| |
     by exists vs; split; [done|apply stack_ok_fresh; naive_solver]].
  destruct Hv as (body & -> & Hn & Hm & -> & Hvs).
  destruct (restore_second_ok (E := E) _ _ _ _ (mkInner w x) _ _ Hvs Hm eq_refl) as (vs' & Hr & Hok & Hne).
  exists vs'. split; [|by apply stack_ok_fresh]. split; [done|]. destruct vs; simpl; [done|lia].
Qed.

(** The newest version is fresh, or continues the buffer of the one below. *)
Lemma stack_ok_top v vs a x l :
  stack_ok None (v :: vs) ((a, x) :: l) ->
  extrinsics v = x /\
  ((fresh (value v) a /\ stack_ok None vs l) \/
   exists n m size body, value v = Append (encoded_prefix m ++ body) n m (Some size) /\
     a = Some (compact_encode n ++ body) /\ (n <= u32_MAX)%N /\ fits m /\
     stack_ok (Some (size, body)) vs l).
Proof.
  simpl. intros [Hx Hv]. split; [done|]. destruct (value v) as [d| |d n m [size|]]; simpl.
  - left. naive_solver.
  - left. naive_solver.
  - right. destruct Hv as (body & -> & Hn & Hm & -> & Hvs). by eexists _, _, _, _.
  - left. naive_solver.
Qed.

Lemma commit_continued {E} n m size body v w vs a x b y l :
  value v = Append (encoded_prefix m ++ body) n m (Some size) -> (n <= u32_MAX)%N -> fits m ->
  a = Some (compact_encode n ++ body) -> extrinsics v = x ->
  stack_ok (Some (size, body)) (w :: vs) ((b, y) :: l) ->
  exists vs', commit_entry (E := E) (mkEntry (v :: w :: vs)) = Ok (mkEntry vs') /\
    stack_ok None vs' (merge_version (a, x) (b, y) :: l).
Proof.
  intros Hv Hn Hm -> Hx [Hy Hw]. unfold commit_entry, merge_version. simpl. rewrite Hv.
  destruct (value w) as [d| |d n' m' ps]; [by destruct Hw..|].
  destruct Hw as (body' & -> & Hn' & Hm' & [[extra ->] _] & Hvs). simpl.
  eexists. split; [done|]. simpl. split; [by rewrite Hx, Hy|].
  exists (body' ++ extra). split_and!; [done..|]. destruct ps as [n''|]; [|done].
  eapply stack_ok_longer; [done|]. by apply prefix_app_r.
Qed.

Lemma commit_fresh {E} v w vs a x b y l :
  fresh (value v) a -> extrinsics v = x -> stack_ok None (w :: vs) ((b, y) :: l) ->
  exists vs', commit_entry (E := E) (mkEntry (v :: w :: vs)) = Ok (mkEntry vs') /\
    stack_ok None vs' (merge_version (a, x) (b, y) :: l).
Proof.
  intros Hv Hx Hw. assert (extrinsics w = y) as Hy by apply Hw.
  destruct (replace_ok (E := E) w vs (value v) a y b y l Hw Hv) as (vs' & Hr & Hok).
  exists (mkInner (value v) (y ++ x) :: vs'). split; [|by destruct Hok].
  unfold commit_entry, debug_assert, sub_usize. simpl. rewrite Hy, Hx.
  destruct (value v) as [d| |d n m [?|]]; [| |done|];
    destruct (value w) as [d'| |d' n' m' [size|]]; simpl in *; simplify_eq; try done;
    destruct Hr as [Hr Hlen]; (destruct vs as [|u vs]; simpl in Hlen; [lia|]);
    rewrite andb_false_r; simpl; simpl in Hr; by rewrite Hr.
Qed.

Lemma commit_entry_ok {E} vs a b l :
  stack_ok None vs (a :: b :: l) ->
  exists vs', commit_entry (E := E) (mkEntry vs) = Ok (mkEntry vs') /\
    stack_ok None vs' (merge_version a b :: l).
Proof.
  intros Hvs. pose proof (stack_ok_length _ _ _ Hvs) as Hlen. destruct a as [a x], b as [b y].
  destruct vs as [|v [|w vs]]; [done..|].
  apply stack_ok_top in Hvs as [Hx [[Hv Hw]|(n & m & size & body & Hv & Ha & Hn & Hm & Hw)]].
  - by apply commit_fresh.
  - by eapply commit_continued.
Qed.

#[export] Instance storage_stack :
  VersionStack (stack_ok None) rollback_entry commit_entry.
Proof.
  split; [apply stack_ok_length|done|apply rollback_entry_ok|apply commit_entry_ok].
Qed.
Lemma record_extrinsic_ok {E V} x v y (vs : list (InnerValue V)) :
  record_extrinsic (E := E) x (mkEntry (mkInner v y :: vs)) = Ok (mkEntry (mkInner v (record x y) :: vs)).
Proof. by destruct x. Qed.

(** The extrinsics of the newest version do not matter to the buffers. *)
Lemma stack_ok_extrinsics taken v x y vs a l :
  stack_ok taken (mkInner v x :: vs) ((a, x) :: l) -> stack_ok taken (mkInner v y :: vs) ((a, y) :: l).
Proof. simpl. by intros [_ Hv]. Qed.

Lemma entry_set_ok {E} v first x vs o c :
  stack_ok None vs (somes (o :: c)) -> first || is_nil vs = bool_decide (o = None) ->
  exists vs', entry_set (E := E) v first x (mkEntry vs) = Ok (mkEntry vs') /\
    stack_ok None vs' ((v, record x (default [] (snd <$> o))) :: somes c).
Proof.
  intros Hvs Hfirst. unfold entry_set. simpl. rewrite Hfirst.
  set (w := match v with Some data => Set_ data | None => Remove end).
  assert (fresh w v) as Hw by by destruct v.
  destruct o as [[a y]|]; simpl in *.
  - destruct vs as [|u vs]; [done|]. pose proof Hvs as [Hy _]. simpl.
    destruct (replace_ok (E := E) u vs w v y a y _ Hvs Hw) as (vs' & Hr & Hok).
    exists (mkInner w (record x y) :: vs'). split; [|by eapply stack_ok_extrinsics]. rewrite Hy.
    unfold debug_assert.
    destruct (value u) as [d| |d n m [size|]]; simplify_eq; simpl; try apply record_extrinsic_ok.
    destruct Hr as [Hr Hlen]. destruct vs as [|t vs]; simpl in Hlen; [lia|].
    rewrite andb_false_r. simpl in *. rewrite Hr. apply record_extrinsic_ok.
  - unfold push_transaction. simpl. rewrite record_extrinsic_ok. eexists. split; [done|].
    by apply stack_ok_fresh.
Qed.

(** ** Appending to a list *)

(** The value [element] is appended to: it counts as the empty list when it is
    removed or does not start with a length. *)
Definition appended {E} (element : StorageValue) (cur : option StorageValue)
  : outcome E StorageValue :=
  match cur with
  | None => Ok (compact_encode 1 ++ element)
  | Some data =>
      match compact_decode data with
      | None => Ok (compact_encode 1 ++ element)
      | Some n =>
          let! n' := add_u32 n 1 in
          Ok (compact_encode n' ++ drop (length (compact_encode n)) data ++ element)
      end
  end.

Lemma add_u32_fits {E} a b c : add_u32 (E := E) a b = Ok c -> (c <= u32_MAX)%N.
Proof.
  unfold add_u32, overflowing. destruct (N.leb_spec (a + b) u32_MAX); [by intros [= <-]|].
  destruct overflow_checks; intros [= <-]. pose proof (N.mod_lt (a + b) (u32_MAX + 1)). lia.
Qed.

Lemma append_to_value_ok {E} element data v :
  appended (E := E) element (Some data) = Ok v ->
  exists d n m, append_to_value (E := E) element data = Ok (d, n, m) /\ fresh (Append d n m None) (Some v).
Proof.
  unfold appended, append_to_value, extract_length, append_raw.
  destruct (compact_decode data) as [n|] eqn:Hd.
  - apply compact_decode_inv in Hd as [Hn [rest ->]].
    destruct (add_u32 n 1) as [n'| | |] eqn:Hn'; simpl; [intros [= <-]|done..].
    eexists _, _, _. split; [done|]. exists (rest ++ element). rewrite drop_app_length.
    split_and!; [done|by eapply add_u32_fits|done|by rewrite <- app_assoc].
  - intros [= <-]. eexists _, _, _. split; [done|]. by exists element.
Qed.

Lemma append_to_value_panic {E} element data :
  appended (E := E) element (Some data) = Panic -> append_to_value (E := E) element data = Panic.
Proof.
  unfold appended, append_to_value, extract_length. destruct (compact_decode data) as [n|]; [|done].
  by destruct (add_u32 n 1).
Qed.

Lemma appended_continued {E} element n body v :
  (n <= u32_MAX)%N -> appended (E := E) element (Some (compact_encode n ++ body)) = Ok v ->
  exists n', add_u32 (E := E) n 1 = Ok n' /\ (n' <= u32_MAX)%N /\
    v = compact_encode n' ++ body ++ element.
Proof.
  intros Hn. unfold appended. rewrite compact_decode_encode by done.
  destruct (add_u32 n 1) as [n'| | |] eqn:Hn'; simpl; [intros [= <-]|done..].
  rewrite drop_app_length. eexists. split_and!; [done|by eapply add_u32_fits|done].
Qed.
(** The first version of a key in a transaction, on top of older ones. *)
Lemma append_first_ok {E} element v u vs a y l :
  stack_ok None (u :: vs) ((a, y) :: l) -> appended (E := E) element a = Ok v ->
  exists w vs', entry_append (E := E) element true (Ok []) None (mkEntry (u :: vs)) =
      Ok (mkEntry (mkInner w [] :: vs')) /\
    stack_ok None (mkInner w [] :: vs') ((Some v, []) :: (a, y) :: l).
Proof.
  intros Hvs Hv. unfold entry_append. simpl. pose proof Hvs as [Hy Hu].
  destruct (value u) as [d| |d n m ps] eqn:Hval.
  - destruct Hu as (_ & -> & Hu). destruct (append_to_value_ok _ _ _ Hv) as (d' & n & m & -> & Hf).
    eexists _, _. split; [done|]. by apply stack_ok_fresh.
  - destruct Hu as (_ & -> & Hu). injection Hv as <-. eexists _, _. split; [done|].
    apply stack_ok_fresh; [by exists element|done].
  - destruct Hu as (body & -> & Hn & Hm & -> & Hu).
    destruct (appended_continued _ _ _ _ Hn Hv) as (n' & -> & Hn' & ->). simpl.
    eexists _, _. split; [done|]. split; [done|]. exists (body ++ element). unfold append_raw.
    split_and!; [done|done|done|by rewrite <- app_assoc|]. split; [done|]. exists body.
    split_and!; [done|done|done|by apply prefix_app_r|by rewrite length_app|done].
Qed.

(** A further append in the same transaction. *)
Lemma append_again_ok {E} element v u vs a y l :
  stack_ok None (u :: vs) ((a, y) :: l) -> appended (E := E) element a = Ok v ->
  exists w, entry_append (E := E) element false (Ok []) None (mkEntry (u :: vs)) =
      Ok (mkEntry (mkInner w y :: vs)) /\
    stack_ok None (mkInner w y :: vs) ((Some v, y) :: l).
Proof.
  intros Hvs Hv. unfold entry_append. simpl. pose proof Hvs as [Hy Hu].
  destruct (value u) as [d| |d n m ps] eqn:Hval.
  - destruct Hu as (_ & -> & Hu). destruct (append_to_value_ok _ _ _ Hv) as (d' & n & m & -> & Hf).
    unfold set_value_mut. simpl. rewrite Hy. eexists. split; [done|]. by apply stack_ok_fresh.
  - destruct Hu as (_ & -> & Hu). injection Hv as <-. unfold set_value_mut. simpl. rewrite Hy.
    eexists. split; [done|]. apply stack_ok_fresh; [by exists element|done].
  - destruct Hu as (body & -> & Hn & Hm & -> & Hu).
    destruct (appended_continued _ _ _ _ Hn Hv) as (n' & -> & Hn' & ->).
    unfold set_value_mut, append_raw. simpl. rewrite Hy.
    eexists. split; [done|]. split; [done|]. exists (body ++ element).
    split_and!; [done|done|done|by rewrite <- app_assoc|]. destruct ps as [size|]; [|done].
    eapply stack_ok_longer; [done|]. by apply prefix_app_r.
Qed.
Lemma entry_append_record {E} element first (init : outcome E StorageValue) x u vs :
  entry_append element first init x (mkEntry (u :: vs)) =
  let! e := entry_append element first (Ok []) None (mkEntry (u :: vs)) in record_extrinsic x e.
Proof. unfold entry_append. simpl. destruct (if first then _ else _) as [e| | |]; done. Qed.

(** The value an append finds: the newest version, or the one in the backend. *)
Definition append_base (i : StorageValue) (top : option (version (option StorageValue)))
  : option StorageValue := default (Some i) (fst <$> top).

Lemma entry_append_ok {E} element first i x vs o c v :
  stack_ok None vs (somes (o :: c)) -> first || is_nil vs = bool_decide (o = None) ->
  appended (E := E) element (append_base i (head (somes (o :: c)))) = Ok v ->
  exists vs', entry_append (E := E) element first (Ok i) x (mkEntry vs) = Ok (mkEntry vs') /\
    stack_ok None vs' ((Some v, record x (default [] (snd <$> o))) :: somes c).
Proof.
  intros Hvs Hfirst. destruct vs as [|u vs].
  - rewrite orb_true_r in Hfirst. symmetry in Hfirst. apply bool_decide_eq_true in Hfirst as ->.
    simpl in *. destruct (somes c); [|done]. simpl.
    intros (d & n & m & Hd & Hf)%append_to_value_ok. unfold entry_append. simpl. rewrite Hd. simpl.
    unfold push_transaction. rewrite record_extrinsic_ok. eexists. split; [done|]. by apply stack_ok_fresh.
  - rewrite orb_false_r in Hfirst. subst first. rewrite entry_append_record.
    destruct (somes (o :: c)) as [|[a y] l] eqn:Hs; [done|]. simpl. intros Hv.
    destruct o as [[b z]|]; simpl in *.
    + injection Hs as -> -> <-. destruct (append_again_ok (E := E) _ _ _ _ _ _ _ Hvs Hv) as (w & Hw & Hok).
      rewrite Hw. simpl. rewrite record_extrinsic_ok. eexists.
      split; [done|]. by eapply stack_ok_extrinsics.
    + destruct (append_first_ok (E := E) _ _ _ _ _ _ _ Hvs Hv) as (w & vs' & Hw & Hok).
      rewrite Hw. simpl. rewrite record_extrinsic_ok. eexists.
      split; [done|]. rewrite Hs. by eapply stack_ok_extrinsics.
Qed.

(** Reading a value leaves it materialized, and stands for the same. *)
Lemma entry_value_ok {E} vs a x l :
  stack_ok None vs ((a, x) :: l) ->
  exists vs', entry_value (E := E) (mkEntry vs) = Ok (mkEntry vs', a) /\ stack_ok None vs' ((a, x) :: l).
Proof.
  intros Hvs. destruct vs as [|u vs]; [done|]. pose proof Hvs as [Hx Hu].
  unfold entry_value, value_ref, as_option, materialize_in_place, set_value_mut. simpl.
  destruct u as [w y]. simpl in *. subst y. destruct w as [d| |d n m ps]; simpl.
  - exists (mkInner (Set_ d) x :: vs). split; [|done]. by destruct Hu as (_ & -> & _).
  - exists (mkInner Remove x :: vs). split; [|done]. by destruct Hu as (_ & -> & _).
  - destruct Hu as (body & -> & Hn & Hm & -> & Hu). case_decide as Hmn; simpl.
    { subst m. by eexists (mkInner (Append _ n _ ps) x :: vs). }
    unfold replace_length. rewrite encoded_len_prefix by done.
    rewrite (proj2 (Nat.leb_le _ _)) by (rewrite length_app; lia). rewrite drop_app_length. simpl.
    eexists. split; [done|]. split; [done|]. by exists body.
Qed.

(** ** The storage overlay implements the stack of layers *)

Implicit Types (m : OverlayedChangeSet) (ls : layers StorageKey (option StorageValue)) (k : StorageKey).

Definition overlay m ls : Prop := represents (stack_ok None) m ls.

Lemma set_refines {E} k v x m ls :
  overlay m ls ->
  exists m', set (E := E) k v x m = (m', Ok tt) /\ overlay m' (layers_set k v x ls) /\
    only_changes k m m'.
Proof.
  intros Hm. eapply update_entry_ok; [tc_solve|exact Hm|]. intros first vs o c _. apply entry_set_ok.
Qed.

(** The only way an append does not return is a list of [u32::MAX] elements. *)
Lemma entry_append_panic {E} element first i x vs o c :
  stack_ok None vs (somes (o :: c)) -> first || is_nil vs = bool_decide (o = None) ->
  appended (E := E) element (append_base i (head (somes (o :: c)))) = Panic ->
  entry_append (E := E) element first (Ok i) x (mkEntry vs) = Panic.
Proof.
  intros Hvs Hfirst. destruct vs as [|u vs].
  - rewrite orb_true_r in Hfirst. symmetry in Hfirst. apply bool_decide_eq_true in Hfirst as ->.
    simpl in *. destruct (somes c); [|done]. intros Hp%append_to_value_panic.
    unfold entry_append. simpl. by rewrite Hp.
  - destruct (somes (o :: c)) as [|[a y] l]; [done|]. destruct Hvs as [_ Hu].
    unfold entry_append. simpl. intros Hp. enough ((if first then _ else _) = Panic) as -> by done.
    destruct (value u) as [d| |d n m ps]; [destruct Hu as (_ & -> & _)..|].
    + rewrite (append_to_value_panic _ _ Hp). by destruct first.
    + done.
    + destruct Hu as (body & -> & Hn & _). simpl in Hp. rewrite compact_decode_encode in Hp by done.
      destruct (add_u32 n 1); [done|done| |done]. by destruct first.
Qed.

Lemma appended_cases {E} element cur :
  appended (E := E) element cur = Panic \/ exists v, appended (E := E) element cur = Ok v.
Proof.
  destruct cur as [data|]; simpl; [|by eauto]. destruct (compact_decode data) as [n|]; [|by eauto].
  unfold add_u32, overflowing. repeat case_match; simpl; eauto.
Qed.

(** The lazy append, which leaves the length prefix behind and moves the buffer from
    the version below into the new one, stands for the append that decodes the list
    and writes it back with its length. *)
Lemma append_refines {E} k element i x m ls :
  overlay m ls ->
  match appended (E := E) element (append_base i (visible ls k)) with
  | Ok v =>
      exists m', append_storage (E := E) k element (Ok i) x m = (m', Ok tt) /\
        overlay m' (layers_set k (Some v) x ls) /\ only_changes k m m'
  | Panic => append_storage (E := E) k element (Ok i) x m = (m, Panic)
  | _ => False
  end.
Proof.
  intros Hm. unfold visible.
  destruct (appended_cases (E := E) element (append_base i (head (somes (column ls k))))) as [Hv|[v Hv]];
    rewrite Hv.
  - pose proof (proj2 Hm k) as Hk. destruct (column_cons _ _ _ Hk) as (o & c & Hc). rewrite Hc in Hk, Hv.
    unfold append_storage, update_entry, get_state, bindM, lift.
    destruct (insert_dirty (dirty_keys m) k) as [dirty first] eqn:Hd.
    apply insert_dirty_marks in Hd as (_ & _ & _ & ->).
    pose proof (first_write_none _ _ _ _ _ _ _ Hk) as Hfirst. eapply column_versions in Hk; [|tc_solve].
    destruct (default _ _) as [vs]. erewrite entry_append_panic; [done|done..].
  - eapply update_entry_ok; [tc_solve|exact Hm|]. intros first vs o c Hc Hvs Hfirst.
    rewrite Hc in Hv. by apply entry_append_ok.
Qed.

Lemma get_refines {E} k m ls :
  overlay m ls ->
  exists m', get_value (E := E) k m = (m', Ok (fst <$> visible ls k)) /\ overlay m' ls /\ only_changes k m m'.
Proof.
  intros [Hlen Hcol]. unfold get_value, get_state, bindM, lift, put_state, ret, visible.
  pose proof (Hcol k) as [[b Hb] Hk]. unfold slice in Hk. simpl in *.
  destruct (changes m !! k) as [[vs]|] eqn:Hm.
  2: { rewrite Hk. simpl. exists m. by split_and!. }
  destruct Hk as [Hne Hvs]. destruct (somes (column ls k)) as [|[a x] l] eqn:Hs; [done|].
  destruct (entry_value_ok (E := E) vs _ _ _ Hvs) as (vs' & -> & Hvs'). simpl.
  eexists. split; [done|]. split; [split; [done|]|split; [done|]].
  - intros k'. rewrite set_changes_slice. destruct (decide (k' = k)) as [->|]; [|apply Hcol].
    split; simpl; [by exists b|]. by rewrite Hs.
  - intros k' Hk'. rewrite set_changes_slice. by destruct (decide (k' = k)).
Qed.

Lemma start_refines m ls :
  overlay m ls -> overlay (set_dirty_keys (∅ :: dirty_keys m) m) (∅ :: ls).
Proof. apply represents_start. Qed.

(** *** [clear_where] *)

(** The key has a value. *)
Definition present ls k : bool :=
  match visible ls k with Some (Some _, _) => true | _ => false end.

(** A [u32] counted up from [count]. *)
Fixpoint count_up {E} (n : nat) (count : N) : outcome E N :=
  match n with
  | 0 => Ok count
  | S n => let! count := add_u32 count 1 in count_up n count
  end.

Lemma value_ref_present {E} k e m ls :
  overlay m ls -> changes m !! k = Some e ->
  exists v, value_ref (E := E) e = Ok v /\
    present ls k = match v with Set_ _ | Append _ _ _ _ => true | Remove => false end.
Proof.
  intros [_ Hcol] Hk. destruct (Hcol k) as [_ Hv]. unfold slice in Hv. rewrite Hk in Hv.
  destruct Hv as [Hne Hv]. unfold present, visible, value_ref. destruct e as [[|v vs]]; simpl in *.
  - by destruct (somes (column ls k)).
  - destruct (somes (column ls k)) as [|[a x] l]; [done|]. destruct Hv as [_ Hv]. eexists. split; [done|].
    simpl. destruct (value v); simpl in *; [destruct Hv as (_ & -> & _)..|destruct Hv as (? & -> & _)]; done.
Qed.

Lemma clear_loop_ok {E} x (l : list (StorageKey * OverlayedValue)) m ls count :
  overlay m ls -> NoDup (map fst l) -> (forall kv, kv ∈ l -> changes m !! kv.1 = Some kv.2) ->
  match count_up (E := E) (length (List.filter (fun kv => present ls kv.1) l)) count with
  | Ok n => exists m', clear_loop (E := E) x l count m = (m', Ok n) /\
      overlay m' (foldl (fun ls k => layers_set k None x ls) ls (map fst l)) /\ same_frame m m'
  | o => snd (clear_loop (E := E) x l count m) = o
  end.
Proof.
  revert m ls count. induction l as [|[k e] l IH]; intros m ls count Hm Hnd Hl.
  { simpl. by exists m. }
  destruct (value_ref_present (E := E) k e m ls Hm) as (v & Hv & Hpr); [by apply (Hl (k, e)); left|].
  inversion_clear Hnd as [|? ? Hk Hnd'].
  destruct (set_refines (E := E) k None x m ls Hm) as (m1 & Hset & Hm1 & Hframe & Hother).
  assert (forall kv, kv ∈ l -> changes m1 !! kv.1 = Some kv.2) as Hl'.
  { intros kv Hin. assert (kv.1 <> k) as Hne by (intros <-; apply Hk; by apply list_elem_of_fmap_2).
    specialize (Hother _ Hne). unfold slice in Hother. injection Hother as -> _. apply Hl. by right. }
  assert (List.filter (fun kv => present (layers_set k None x ls) kv.1) l =
          List.filter (fun kv => present ls kv.1) l) as Hfil.
  { apply List.filter_ext_in. intros kv Hin%list_elem_of_In. unfold present, visible.
    rewrite column_layers_set_ne; [done|]. intros ->. apply Hk. by apply list_elem_of_fmap_2. }
  assert (forall c, match count_up (E := E) (length (List.filter (fun kv => present ls kv.1) l)) c with
    | Ok n => exists m', clear_loop (E := E) x l c m1 = (m', Ok n) /\
        overlay m' (foldl (fun ls k => layers_set k None x ls) ls (map fst ((k, e) :: l))) /\ same_frame m m'
    | o => snd (clear_loop (E := E) x l c m1) = o
    end) as Hrest.
  { intros c. specialize (IH m1 _ c Hm1 Hnd' Hl'). rewrite Hfil in IH. destruct (count_up _ _); [|done..].
    destruct IH as (m' & Hrun & Hm' & (? & ? & ?)). exists m'. split_and!; [done|done|].
    destruct Hframe as (? & ? & ?). split_and!; congruence. }
  clear IH. cbn [clear_loop List.filter fst]. unfold clear_key, bindM, lift, ret. cbn [fst snd].
  rewrite Hv, Hpr.
  destruct v; [|rewrite Hset; by apply Hrest|]; cbn [length count_up bind];
    (destruct (add_u32 count 1); [rewrite Hset; by apply Hrest|done..]).
Qed.

(** The keys that [clear_where] goes through. *)
Lemma clear_keys_ok q m ls :
  overlay m ls ->
  let l := List.filter (fun kv => q kv.1) (changes_iter m) in
  NoDup (map fst l) /\ (forall kv, kv ∈ l -> changes m !! kv.1 = Some kv.2) /\
  forall k, k ∈ map fst l <-> q k = true /\ k ∈ known ls.
Proof.
  intros [_ Hcol] l. assert (l ≡ₚ List.filter (fun kv => q kv.1) (map_to_list (changes m))) as Hl.
  { apply filter_perm, sort_by_perm. }
  assert (forall kv, kv ∈ l <-> q kv.1 = true /\ changes m !! kv.1 = Some kv.2) as Hin.
  { intros [k e]. rewrite Hl, elem_of_filter_true, elem_of_map_to_list. naive_solver. }
  split_and!.
  - rewrite Hl, <- (filter_map fst q).
    eapply sublist_NoDup; [apply (NoDup_fst_map_to_list (changes m))|apply filter_sublist].
  - by intros kv [_ Hkv]%Hin.
  - intros k. rewrite elem_of_known. destruct (Hcol k) as [_ Hk]. unfold slice in Hk. simpl in Hk.
    rewrite list_elem_of_fmap. split.
    + intros ([k' e] & -> & [Hq Hke]%Hin). simpl in *. rewrite Hke in Hk. by destruct Hk.
    + intros [Hq Hne]. destruct (changes m !! k) as [e|] eqn:Hke; [|done].
      exists (k, e). by rewrite Hin.
Qed.

Lemma foldl_set_column x keys ls k :
  NoDup keys ->
  column (foldl (fun ls k => layers_set k None x ls) ls keys) k =
  if decide (k ∈ keys) then column_set None x (column ls k) else column ls k.
Proof.
  intros Hnd. revert ls. induction Hnd as [|k' keys Hk' Hnd IH]; intros ls; simpl; [done|].
  rewrite IH. destruct (decide (k = k')) as [->|Hne].
  - rewrite decide_False, decide_True by set_solver. apply column_layers_set.
  - rewrite column_layers_set_ne by done.
    destruct (decide (k ∈ keys)), (decide (k ∈ k' :: keys)); set_solver.
Qed.

Lemma clear_refines {E} (p : StorageKey -> OverlayedValue -> bool) q x m ls :
  overlay m ls -> (forall k e, p k e = q k) ->
  match count_up (E := E) (size (filter (fun k => q k && present ls k = true) (known ls))) 0 with
  | Ok n => exists m', clear_where (E := E) p x m = (m', Ok n) /\
      overlay m' (layers_clear None q x ls) /\ same_frame m m'
  | o => snd (clear_where (E := E) p x m) = o
  end.
Proof.
  intros Hm Hp. destruct (clear_keys_ok q m ls Hm) as (Hnd & Hl & Hkeys).
  set (l := List.filter _ _) in *. pose proof (clear_loop_ok (E := E) x l m ls 0 Hm Hnd Hl) as Hloop.
  assert (foldl (fun ls k => layers_set k None x ls) ls (map fst l) = layers_clear None q x ls) as <-.
  { apply layers_ext.
    - transitivity (length ls); [|by destruct ls]. generalize (map fst l) as keys. intros keys.
      clear. revert ls. induction keys as [|k keys IH]; intros ls; simpl; [done|].
      by rewrite IH, layers_set_length.
    - intros k. rewrite foldl_set_column, column_layers_clear by done.
      destruct (decide (k ∈ map fst l)) as [[-> Hk]%Hkeys|Hk]; [by rewrite bool_decide_eq_true_2|].
      destruct (q k) eqn:Hq; simpl; [|done]. rewrite bool_decide_eq_false_2; [done|].
      intros Hkn. apply Hk, Hkeys. done. }
  assert (size (filter (fun k => q k && present ls k = true) (known ls)) =
    length (List.filter (fun kv => present ls kv.1) l)) as ->.
  { rewrite <- (length_map fst), <- filter_map. unfold size, set_size. simpl.
    apply Permutation_length, NoDup_Permutation; [apply NoDup_elements| |].
    - eapply sublist_NoDup; [exact Hnd|apply filter_sublist].
    - intros k. rewrite elem_of_elements, elem_of_filter, andb_true_iff, elem_of_filter_true, Hkeys. tauto. }
  unfold clear_where, bindM, get_state.
  rewrite (List.filter_ext (fun kv => p kv.1 kv.2) (fun kv => q kv.1)) by (intros; apply Hp). exact Hloop.
Qed.

(** A change set without content, with [n] transactions open: a new one, or one
    spawned for a child trie. *)
Lemma empty_overlay n c mode : overlay (mkMap ∅ (repeat ∅ n) c mode) (repeat ∅ (S n)).
Proof.
  induction n as [|n IH]; [|by apply start_refines in IH].
  split; [done|]. intros k. split; [by exists false|done].
Qed.

(** ** The overlay as a machine *)

Context (iter_set : gset StorageKey -> list StorageKey) (iter_set_perm : forall s, iter_set s ≡ₚ elements s).

Lemma close_transaction_eq rollback m :
  close_transaction iter_set rollback m =
  close_with rollback_entry commit_entry iter_set rollback m.
Proof. done. Qed.

(** The calls of a client, with what they return. *)
Inductive op : Type :=
| OSet k (v : option StorageValue) (x : option N)
| OAppend k (element init : StorageValue) (x : option N)
| OGet k
| OClear (q : StorageKey -> bool) (x : option N)
| OStart
| OCommit
| ORollback
| OEnter
| OExit.

Inductive reply : Type :=
| RUnit
| RValue (v : option (option StorageValue))
| RCount (n : N).

Inductive refusal : Type :=
| RefusedClose (e : NoOpenTransaction)
| RefusedEnter (e : AlreadyInRuntime)
| RefusedExit (e : NotInRuntime).

Definition done_with {S E A} (m : M S E A) : M S E reply := let* _ := m in ret RUnit.

Definition step (o : op) : M OverlayedChangeSet refusal reply :=
  match o with
  | OSet k v x => done_with (set k v x)
  | OAppend k element init x => done_with (append_storage k element (Ok init) x)
  | OGet k => let* v := get_value k in ret (RValue v)
  | OClear q x => let* n := clear_where (fun k _ => q k) x in ret (RCount n)
  | OStart => done_with start_transaction
  | OCommit => done_with (map_errM RefusedClose (commit_transaction iter_set))
  | ORollback => done_with (map_errM RefusedClose (rollback_transaction iter_set))
  | OEnter => done_with (map_errM RefusedEnter enter_runtime)
  | OExit => done_with (map_errM RefusedExit (exit_runtime iter_set))
  end.

(** The specification: layers, and how many of them are protected. *)
Record spec_state : Type := mkSpec {
  spec_layers : layers StorageKey (option StorageValue);
  spec_client : nat;
  spec_mode : ExecutionMode
}.
Implicit Types a : spec_state.

Definition spec_depth a : nat := pred (length (spec_layers a)).
Definition with_layers a ls : spec_state := mkSpec ls (spec_client a) (spec_mode a).
Definition in_runtime a : bool := match spec_mode a with Runtime => true | Client => false end.

Definition spec_close (rollback : bool) a : outcome refusal (spec_state * reply) :=
  if (0 <? spec_depth a) && (negb (in_runtime a) || (spec_client a <? spec_depth a))
  then Ok (with_layers a (close_layers rollback (spec_layers a)), RUnit)
  else Err (RefusedClose mkNoOpenTransaction).

Definition spec_step (o : op) a : outcome refusal (spec_state * reply) :=
  let ls := spec_layers a in
  match o with
  | OSet k v x => Ok (with_layers a (layers_set k v x ls), RUnit)
  | OAppend k element init x =>
      let! v := appended element (append_base init (visible ls k)) in
      Ok (with_layers a (layers_set k (Some v) x ls), RUnit)
  | OGet k => Ok (a, RValue (fst <$> visible ls k))
  | OClear q x =>
      let! n := count_up (size (filter (fun k => q k && present ls k = true) (known ls))) 0 in
      Ok (with_layers a (layers_clear None q x ls), RCount n)
  | OStart => Ok (with_layers a (∅ :: ls), RUnit)
  | OCommit => spec_close false a
  | ORollback => spec_close true a
  | OEnter =>
      if in_runtime a then Err (RefusedEnter mkAlreadyInRuntime)
      else Ok (mkSpec ls (spec_depth a) Runtime, RUnit)
  | OExit =>
      if in_runtime a
      then Ok (mkSpec (drop (spec_depth a - spec_client a) ls) (spec_client a) Client, RUnit)
      else Err (RefusedExit mkNotInRuntime)
  end.

(** The change set is in the state the specification is in. *)
Definition implements m a : Prop :=
  overlay m (spec_layers a) /\ num_client_transactions m = spec_client a /\
  execution_mode m = spec_mode a /\ (in_runtime a = true -> spec_client a <= spec_depth a).

Lemma implements_depth m a : implements m a -> transaction_depth m = spec_depth a.
Proof. intros [[Hlen _] _]. unfold spec_depth. by rewrite Hlen. Qed.

Lemma implements_closable m a :
  implements m a ->
  closable m = (0 <? spec_depth a) && (negb (in_runtime a) || (spec_client a <? spec_depth a)).
Proof.
  intros Hm. pose proof (implements_depth _ _ Hm) as Hd. destruct Hm as (_ & Hc & Hmode & _).
  unfold closable, has_open_runtime_transactions, in_runtime. rewrite Hd, Hc, Hmode.
  by destruct (spec_mode a).
Qed.

(** An operation that only changes the top layer. *)
Lemma implements_top m a m' ls :
  implements m a -> same_frame m m' -> overlay m' ls -> implements m' (with_layers a ls).
Proof.
  intros Hm (Hd & Hc & Hmode) Hm'. pose proof (implements_depth _ _ Hm) as Hdepth.
  destruct Hm as ([Hlen _] & Hcl & Hmo & Hin). split_and!; [done|by rewrite Hc|by rewrite Hmode|].
  intros Hr. specialize (Hin Hr). unfold spec_depth in *. simpl. destruct Hm' as [-> _]. lia.
Qed.

(** The outcome of a call from [m] is the one of the specification. *)
Definition answers m (res : OverlayedChangeSet * outcome refusal reply)
    (spec : outcome refusal (spec_state * reply)) : Prop :=
  match spec with
  | Ok (a', r) => exists m', res = (m', Ok r) /\ implements m' a'
  | Err e => res = (m, Err e)
  | Panic => res.2 = Panic
  | Diverge => False
  end.

Lemma close_implements rollback m a :
  implements m a -> closable m = true ->
  exists m', close_transaction iter_set rollback m = (m', Ok tt) /\
    implements m' (with_layers a (close_layers rollback (spec_layers a))).
Proof.
  intros Hm Hcl. pose proof (implements_depth _ _ Hm) as Hd. destruct Hm as (Hov & Hc & Hmode & Hin).
  destruct (close_ok _ _ _ iter_set iter_set_perm rollback m _ Hov Hcl) as (m' & Hrun & Hov' & Hd' & Hc' & Hmode').
  exists m'. split; [done|]. split_and!; [done|by rewrite Hc'|by rewrite Hmode'|].
  intros Hr. unfold spec_depth. simpl. destruct Hov' as [-> _]. simpl.
  unfold closable, has_open_runtime_transactions in Hcl. rewrite Hmode, Hc in Hcl.
  unfold in_runtime in Hr. simpl in Hr. destruct (spec_mode a); [done|].
  apply andb_prop in Hcl as [_ Hlt%Nat.ltb_lt]. lia.
Qed.

Lemma close_answers rollback m a :
  implements m a ->
  answers m (done_with (map_errM RefusedClose (close_transaction iter_set rollback)) m) (spec_close rollback a).
Proof.
  intros Hm. unfold spec_close. rewrite <- (implements_closable _ _ Hm).
  unfold done_with, bindM, map_errM. destruct (closable m) eqn:Hcl.
  - destruct (close_implements rollback m a Hm Hcl) as (m' & -> & Hm'). by exists m'.
  - rewrite close_transaction_eq. by rewrite close_refused.
Qed.

Lemma enter_implements m a :
  implements m a -> spec_mode a = Client ->
  exists m', enter_runtime m = (m', Ok tt) /\ implements m' (mkSpec (spec_layers a) (spec_depth a) Runtime).
Proof.
  intros Hm Hmode. pose proof (implements_depth _ _ Hm) as Hd. destruct Hm as (Hov & Hc & Hmo & _).
  unfold enter_runtime, bindM, get_state. rewrite Hmo, Hmode. eexists. split; [done|]. by split_and!.
Qed.

Lemma enter_answers m a : implements m a -> answers m (step OEnter m) (spec_step OEnter a).
Proof.
  intros Hm. simpl. unfold in_runtime, done_with, map_errM, bindM. destruct (spec_mode a) eqn:Hmode.
  - destruct (enter_implements m a Hm Hmode) as (m' & -> & Hm'). by exists m'.
  - destruct Hm as (_ & _ & Hmo & _). unfold enter_runtime, bindM, get_state. by rewrite Hmo, Hmode.
Qed.

Lemma exit_implements m a :
  implements m a -> spec_mode a = Runtime ->
  exists m', exit_runtime iter_set m = (m', Ok tt) /\
    implements m' (mkSpec (drop (spec_depth a - spec_client a) (spec_layers a)) (spec_client a) Client).
Proof.
  intros Hm Hmode. pose proof (implements_depth _ _ Hm) as Hd. destruct Hm as (Hov & Hc & Hmo & Hin).
  rewrite Hmode in Hmo. unfold in_runtime in Hin. rewrite Hmode in Hin. specialize (Hin eq_refl).
  destruct (exit_runtime_ok _ rollback_entry commit_entry iter_set iter_set_perm m _ Hov Hmo) as (m' & Hrun & Hun);
    [lia|]. unfold exit_runtime. change (rollback_transaction iter_set) with
    (close_with rollback_entry commit_entry iter_set true). rewrite Hrun.
  destruct Hun as (Hmode' & Hc' & Hd' & Hov'). exists m'. split; [done|].
  rewrite Hd, Hc in Hov'. split_and!; [done|by rewrite Hc'|done|done].
Qed.

Lemma exit_answers m a : implements m a -> answers m (step OExit m) (spec_step OExit a).
Proof.
  intros Hm. simpl. unfold in_runtime, done_with, bindM, map_errM. destruct (spec_mode a) eqn:Hmode.
  - destruct Hm as (_ & _ & Hmo & _). unfold exit_runtime, exit_runtime_with, bindM, get_state.
    by rewrite Hmo, Hmode.
  - destruct (exit_implements m a Hm Hmode) as (m' & -> & Hm'). by exists m'.
Qed.

Lemma count_up_cases {E} n c : count_up (E := E) n c = Panic \/ exists r, count_up (E := E) n c = Ok r.
Proof.
  revert c. induction n as [|n IH]; intros c; simpl; [by eauto|]. unfold add_u32, overflowing.
  repeat case_match; simpl; eauto.
Qed.

Lemma clear_answers q x m a :
  implements m a -> answers m (step (OClear q x) m) (spec_step (OClear q x) a).
Proof.
  intros Hm. pose proof Hm as [Hov _].
  pose proof (clear_refines (E := refusal) (fun k _ => q k) q x m _ Hov (fun _ _ => eq_refl)) as Hcl.
  simpl. unfold bindM, ret. destruct (count_up_cases (E := refusal)
    (size (filter (fun k => q k && present (spec_layers a) k = true) (known (spec_layers a)))) 0) as [Hn|[n Hn]];
    rewrite Hn in *; simpl.
  - destruct (clear_where _ _ _) as [? [| | |]]; done.
  - destruct Hcl as (m' & -> & Hm' & Hf). exists m'. split; [done|]. by eapply implements_top.
Qed.

Lemma step_answers o m a : implements m a -> answers m (step o m) (spec_step o a).
Proof.
  intros Hm. pose proof Hm as (Hov & Hc & Hmode & Hin).
  destruct o; try (by apply close_answers);
    [| | |by apply clear_answers| |by apply enter_answers|by apply exit_answers];
    unfold step, spec_step, done_with, bindM, ret.
  - destruct (set_refines (E := refusal) k v x m _ Hov) as (m' & -> & Hm' & Hf & _).
    exists m'. split; [done|]. by eapply implements_top.
  - pose proof (append_refines (E := refusal) k element init x m _ Hov) as Happ.
    destruct (appended _ _) as [v| | |]; try done; [|by rewrite Happ].
    destruct Happ as (m' & -> & Hm' & Hf & _). exists m'. split; [done|]. by eapply implements_top.
  - destruct (get_refines (E := refusal) k m _ Hov) as (m' & -> & Hm' & Hf & _).
    exists m'. split; [done|]. destruct a. by eapply (implements_top _ _ _ _ Hm).
  - eexists. split; [done|]. split_and!; [by apply start_refines|done|done|].
    intros Hr. specialize (Hin Hr). unfold spec_depth in *. simpl. lia.
Qed.

(** A sequence of calls, up to the first panic, and what each of them returned. *)
Fixpoint run (ops : list op) m : OverlayedChangeSet * list (outcome refusal reply) :=
  match ops with
  | [] => (m, [])
  | o :: ops' =>
      match step o m with
      | (m', Ok r) => let '(m'', l) := run ops' m' in (m'', Ok r :: l)
      | (m', Err e) => let '(m'', l) := run ops' m' in (m'', Err e :: l)
      | (m', r) => (m', [r])
      end
  end.

Fixpoint spec_run (ops : list op) a : option spec_state * list (outcome refusal reply) :=
  match ops with
  | [] => (Some a, [])
  | o :: ops' =>
      match spec_step o a with
      | Ok (a', r) => let '(a'', l) := spec_run ops' a' in (a'', Ok r :: l)
      | Err e => let '(a'', l) := spec_run ops' a in (a'', Err e :: l)
      | Panic => (None, [Panic])
      | Diverge => (None, [Diverge])
      end
  end.

Lemma run_simulates ops m a :
  implements m a ->
  (run ops m).2 = (spec_run ops a).2 /\
  forall a', (spec_run ops a).1 = Some a' -> implements (run ops m).1 a'.
Proof.
  revert m a. induction ops as [|o ops IH]; intros m a Hm; simpl.
  { split; [done|]. by intros a' [= <-]. }
  pose proof (step_answers o m a Hm) as Hans. destruct (spec_step o a) as [[a1 r]|e| |]; simpl in Hans.
  - destruct Hans as (m1 & -> & Hm1). destruct (IH m1 a1 Hm1) as [Hl Ha].
    destruct (run ops m1), (spec_run ops a1). simpl in *. split; [by f_equal|done].
  - rewrite Hans. destruct (IH m a Hm) as [Hl Ha].
    destruct (run ops m), (spec_run ops a). simpl in *. split; [by f_equal|done].
  - destruct (step o m) as [m1 x]. simpl in Hans. by subst x.
  - done.
Qed.

(** C1: from a new change set, every sequence of writes, appends, reads, clears,
    transaction starts, commits and rollbacks, and switches into and out of the
    runtime returns what the stack of layers returns, errors included; it panics
    only where the specification does, on an overflow of a checked [u32]. *)
Theorem changeset_refines ops :
  (run ops default_map).2 = (spec_run ops (mkSpec [∅] 0 Client)).2 /\
  forall a', (spec_run ops (mkSpec [∅] 0 Client)).1 = Some a' -> implements (run ops default_map).1 a'.
Proof. apply run_simulates. split_and!; [apply (empty_overlay 0)|done|done|done]. Qed.

(** *** Protection of the client's transactions *)

(** In the runtime, over the layers [base] that are not to be touched. *)
Definition protects (base : layers StorageKey (option StorageValue)) a : Prop :=
  spec_mode a = Runtime /\ spec_client a = length base /\
  exists top, top <> [] /\ spec_layers a = top ++ base.

Definition runtime_op (o : op) : bool := match o with OEnter | OExit => false | _ => true end.

Lemma protects_top base a ls :
  protects base a -> (exists top, top <> [] /\ ls = top ++ base) -> protects base (with_layers a ls).
Proof. by intros (Hmode & Hc & _) Htop. Qed.

Lemma protects_close rollback base a a' r :
  protects base a -> spec_close rollback a = Ok (a', r) -> protects base a'.
Proof.
  intros Hp. unfold spec_close. destruct (_ && _) eqn:Hg; [|done]. intros [= <- _].
  apply protects_top; [done|]. destruct Hp as (Hmode & Hc & top & _ & Hls).
  unfold spec_depth, in_runtime in Hg. rewrite Hmode, Hc, Hls in Hg. simpl in Hg.
  apply andb_prop in Hg as [_ Hlt%Nat.ltb_lt]. rewrite length_app in Hlt. rewrite Hls.
  destruct top as [|l [|l' top]]; simpl in Hlt; [lia..|].
  destruct rollback; simpl; [by exists (l' :: top)|]. by eexists (_ :: top).
Qed.

Lemma runtime_step o base a a' r :
  runtime_op o = true -> protects base a -> spec_step o a = Ok (a', r) -> protects base a'.
Proof.
  intros Ho Hp. pose proof Hp as (Hmode & Hc & [|l top] & Hne & Hls); [done|]. clear Hne.
  destruct o; try done; unfold spec_step; rewrite ?Hls;
    try (by apply protects_close); try (destruct (appended _ _); simpl; try done);
    try (destruct (count_up _ _); simpl; try done); intros [= <- _]; try done;
    (apply protects_top; [done|]); first [by exists (∅ :: l :: top)|by eexists (_ :: top)].
Qed.

Lemma runtime_run ops base a a' :
  forallb runtime_op ops = true -> protects base a -> (spec_run ops a).1 = Some a' -> protects base a'.
Proof.
  revert a. induction ops as [|o ops IH]; intros a; simpl; [by intros _ Hp [= <-]|].
  intros [Ho Hops]%andb_prop Hp. destruct (spec_step o a) as [[a1 x]|e| |] eqn:Hstep; try done.
  - intros Ha'. apply (IH a1); [done|by eapply runtime_step|]. by destruct (spec_run ops a1).
  - intros Ha'. apply (IH a); [done..|]. by destruct (spec_run ops a).
Qed.

Lemma step_total o a :
  (exists x, spec_step o a = Ok x) \/ (exists e, spec_step o a = Err e) \/ spec_step o a = Panic.
Proof.
  destruct o; simpl; unfold spec_close; try (case_match; by eauto); try (by eauto).
  - destruct (appended_cases (E := refusal) element (append_base init (visible (spec_layers a) k)))
      as [->|[v ->]]; simpl; eauto.
  - destruct (count_up_cases (E := refusal)
      (size (filter (fun k => q k && present (spec_layers a) k = true) (known (spec_layers a)))) 0)
      as [->|[v ->]]; simpl; eauto.
Qed.

Lemma spec_run_app ops ops' a :
  (spec_run (ops ++ ops') a).1 = (spec_run ops a).1 ≫= fun a' => (spec_run ops' a').1.
Proof.
  revert a. induction ops as [|o ops IH]; intros a; simpl; [done|].
  destruct (spec_step o a) as [[a1 x]|e| |]; simpl; try done.
  - specialize (IH a1). destruct (spec_run ops a1), (spec_run (ops ++ ops') a1). done.
  - specialize (IH a). destruct (spec_run ops a), (spec_run (ops ++ ops') a). done.
Qed.

(** The last call of a sequence runs where the others lead. *)
Lemma spec_run_last ops o a a' :
  (spec_run ops a).1 = Some a' -> last (spec_run (ops ++ [o]) a).2 = last (spec_run [o] a').2.
Proof.
  revert a. induction ops as [|o' ops IH]; intros a; simpl; [by intros [= ->]|].
  assert (forall b r, (spec_run ops b).1 = Some a' ->
    last (r :: (spec_run (ops ++ [o]) b).2) = last (spec_run [o] a').2) as Hcons.
  { intros b r Hb. specialize (IH b Hb). rewrite last_cons, IH. simpl.
    by destruct (spec_step o a') as [[? ?]| | |]. }
  destruct (spec_step o' a) as [[a1 x]|e| |]; try done.
  - specialize (Hcons a1 (Ok x)). destruct (spec_run ops a1), (spec_run (ops ++ [o]) a1). apply Hcons.
  - specialize (Hcons a (Err e)). destruct (spec_run ops a), (spec_run (ops ++ [o]) a). apply Hcons.
Qed.

Lemma spec_run_total ops a : Panic ∉ (spec_run ops a).2 -> exists a', (spec_run ops a).1 = Some a'.
Proof.
  revert a. induction ops as [|o ops IH]; intros a; simpl; [by eauto|].
  destruct (step_total o a) as [[[a1 x] ->]|[[e ->]| ->]]; simpl.
  - specialize (IH a1). destruct (spec_run ops a1). set_solver.
  - specialize (IH a). destruct (spec_run ops a). set_solver.
  - set_solver.
Qed.

(** C7: whatever the runtime does between entering and leaving, as long as nothing
    panics, the client finds its transactions as many as before, and every layer
    below the innermost one as it was; in particular a rollback then restores
    exactly the state from before that transaction. *)
Theorem runtime_is_contained ops m c inner base :
  implements m (mkSpec (inner :: base) c Client) ->
  forallb runtime_op ops = true ->
  Panic ∉ (run (OEnter :: ops ++ [OExit]) m).2 ->
  exists inner', implements (run (OEnter :: ops ++ [OExit]) m).1
    (mkSpec (inner' :: base) (length base) Client).
Proof.
  intros Hm Hops Hpanic. destruct (run_simulates (OEnter :: ops ++ [OExit]) m _ Hm) as [Hl Hfin].
  rewrite Hl in Hpanic. destruct (spec_run_total _ _ Hpanic) as [a' Ha'].
  specialize (Hfin a' Ha'). simpl in Ha'. unfold spec_depth in Ha'. simpl in Ha'.
  destruct (spec_run (ops ++ [OExit]) _) as [o rs] eqn:Hrun. simpl in Ha'. subst o.
  pose proof (spec_run_app ops [OExit] (mkSpec (inner :: base) (length base) Runtime)) as Happ.
  rewrite Hrun in Happ. simpl in Happ. destruct (spec_run ops _) as [[a1|] rs1] eqn:Hops1; [|done].
  assert (protects base a1) as (Hmode & Hc & top & Hne & Hls).
  { eapply runtime_run; [done| |by rewrite Hops1]. split_and!; [done|done|]. by exists [inner]. }
  simpl in Happ. unfold in_runtime in Happ. rewrite Hmode in Happ. simpl in Happ.
  injection Happ as ->. unfold spec_depth in Hfin. rewrite Hls, Hc, length_app in Hfin.
  destruct (exists_last Hne) as (top' & l' & ->). exists l'. rewrite length_app in Hfin. simpl in Hfin.
  replace (pred _ - _) with (length top') in Hfin by lia.
  by rewrite <- app_assoc, drop_app_length in Hfin.
Qed.

(** *** Appending to a list *)

(** Appends to one key, some of them after opening a transaction. *)
Definition append_ops k (init : StorageValue) (x : option N) (es : list (bool * StorageValue)) : list op :=
  flat_map (fun e : bool * StorageValue => (if fst e then [OStart] else []) ++ [OAppend k (snd e) init x]) es.

Lemma visible_set k v x ls :
  ls <> [] -> exists y, visible (layers_set k (Some v) x ls) k = Some (Some v, y).
Proof. intros Hne. unfold visible. rewrite column_layers_set. destruct ls; [done|]. by eexists. Qed.

Lemma appended_below {E} element n body :
  (n < u32_MAX)%N ->
  appended (E := E) element (Some (compact_encode n ++ body)) = Ok (compact_encode (n + 1) ++ body ++ element).
Proof.
  intros Hn. unfold appended. rewrite compact_decode_encode by lia. unfold add_u32, overflowing.
  rewrite (proj2 (N.leb_le _ _)) by lia. simpl. by rewrite drop_app_length.
Qed.

(** The lists that an append finds and leaves. *)
Definition holds_list (init : StorageValue) k n body a : Prop :=
  spec_layers a <> [] /\ append_base init (visible (spec_layers a) k) = Some (compact_encode n ++ body).

Lemma spec_append k init x nested element a n body :
  holds_list init k n body a -> (n < u32_MAX)%N ->
  exists a', (spec_run (append_ops k init x [(nested, element)]) a).1 = Some a' /\
    holds_list init k (n + 1) (body ++ element) a' /\ is_Some (visible (spec_layers a') k).
Proof.
  intros [Hne Hbase] Hn. unfold append_ops. simpl. rewrite app_nil_r.
  assert (exists ls, ls <> [] /\ append_base init (visible ls k) = Some (compact_encode n ++ body) /\
    (spec_run ((if nested then [OStart] else []) ++ [OAppend k element init x]) a).1 =
    (spec_run [OAppend k element init x] (with_layers a ls)).1) as (ls & Hls & Hbase' & ->).
  { destruct nested; simpl.
    - exists (∅ :: spec_layers a). split_and!; [done| |].
      + unfold visible. simpl. by rewrite lookup_empty.
      + by destruct (bind _ _) as [[? ?]| | |].
    - exists (spec_layers a). by destruct a. }
  simpl. rewrite Hbase', appended_below by done. simpl.
  destruct (visible_set k (compact_encode (n + 1) ++ body ++ element) x ls Hls) as [y Hy].
  eexists. split; [done|]. split; [split|]; simpl.
  - by destruct ls.
  - unfold append_base. by rewrite Hy.
  - rewrite Hy. by eexists.
Qed.

Lemma spec_appends k init x es a n body :
  holds_list init k n body a -> (n + N.of_nat (length es) <= u32_MAX)%N ->
  exists a', (spec_run (append_ops k init x es) a).1 = Some a' /\
    holds_list init k (n + N.of_nat (length es)) (body ++ concat (map snd es)) a' /\
    (es <> [] -> is_Some (visible (spec_layers a') k)).
Proof.
  revert a n body. induction es as [|[nested e] es IH]; intros a n body Ha Hn.
  { exists a. simpl. by rewrite N.add_0_r, app_nil_r. }
  simpl length in Hn. destruct (spec_append k init x nested e a n body Ha) as (a1 & Hrun & Ha1 & Hsome); [lia|].
  destruct (IH a1 _ _ Ha1) as (a' & Hrun' & Ha' & Hsome'); [lia|]. exists a'. split_and!.
  - change (append_ops k init x ((nested, e) :: es)) with
      (((if nested then [OStart] else []) ++ [OAppend k e init x]) ++ append_ops k init x es).
    unfold append_ops in Hrun. simpl in Hrun. rewrite app_nil_r in Hrun.
    by rewrite spec_run_app, Hrun.
  - cbn [length map concat snd]. rewrite app_assoc.
    by replace (n + N.of_nat (S (length es)))%N with (n + 1 + N.of_nat (length es))%N by lia.
  - intros _. destruct es; [|by apply Hsome']. by injection Hrun' as <-.
Qed.

(** C8: reading a key after elements were appended to it, in the same or in nested
    transactions, gives the list that was there, or in the backend, followed by the
    elements in order, under a length prefix that counts them all. *)
Theorem appends_read_back k init x e es m a n body :
  implements m a -> append_base init (visible (spec_layers a) k) = Some (compact_encode n ++ body) ->
  (n + N.of_nat (length (e :: es)) <= u32_MAX)%N ->
  last (run (append_ops k init x (e :: es) ++ [OGet k]) m).2 =
  Some (Ok (RValue (Some (Some (compact_encode (n + N.of_nat (length (e :: es))) ++
                                body ++ concat (map snd (e :: es))))))).
Proof.
  intros Hm Hbase Hn. rewrite (proj1 (run_simulates _ _ _ Hm)).
  destruct (spec_appends k init x (e :: es) a n body) as (a' & Hrun & [_ Hbase'] & Hsome); [|done|].
  { split; [|done]. destruct Hm as [[Hlen _] _]. by destruct (spec_layers a). }
  rewrite (spec_run_last _ _ _ _ Hrun). simpl. destruct (Hsome ltac:(done)) as [[v y] Hv].
  rewrite Hv in *. unfold append_base in Hbase'. simpl in *. by simplify_eq.
Qed.

(** A list of [u32::MAX] elements. The next append panics in a build that checks
    for overflow; in any other it leaves the elements in place under a length of 0. *)
Theorem append_at_max k element init x m a body :
  implements m a -> append_base init (visible (spec_layers a) k) = Some (compact_encode u32_MAX ++ body) ->
  (run [OAppend k element init x; OGet k] m).2 =
  if overflow_checks then [Panic]
  else [Ok RUnit; Ok (RValue (Some (Some (compact_encode 0 ++ body ++ element))))].
Proof.
  intros Hm Hbase. rewrite (proj1 (run_simulates _ _ _ Hm)). simpl. rewrite Hbase. simpl.
  rewrite compact_decode_encode by done. unfold add_u32, overflowing. simpl.
  destruct overflow_checks; [done|]. simpl. rewrite drop_app_length. change (_ mod _)%N with 0%N.
  destruct (visible_set k (compact_encode 0 ++ body ++ element) x (spec_layers a)) as [y Hy]; [|by rewrite Hy].
  destruct Hm as [[Hlen _] _]. by destruct (spec_layers a).
Qed.
End storage.

(** ** The theorems on concrete calls *)

From S2P Require Import ScaleCompact.

(** A committed list of two one-byte elements, and one transaction. *)
Definition sample_ops : list op := [OSet [7] (Some (scale_encode 2 ++ [1; 2])) None; OStart]%N.
Definition sample_map {P : Profile} : OverlayedChangeSet := (run elements sample_ops default_map).1.
Definition sample_committed : gmap StorageKey (version (option StorageValue)) :=
  {[ [7%N] := (Some (scale_encode 2 ++ [1; 2])%N, []) ]}.

Lemma sample_implements {P : Profile} : implements sample_map (mkSpec [∅; sample_committed] 0 Client).
Proof.
  apply (run_simulates elements (fun s => reflexivity _) sample_ops default_map (mkSpec [∅] 0 Client)); [|done].
  split_and!; [apply (empty_overlay 0)|done|done|done].
Qed.

(** An append in a transaction, rolled back. *)
Lemma changeset_refines_witness :
  (run (P := debug) elements (sample_ops ++ [OAppend [7] [3] [] None; OGet [7]; ORollback; OGet [7]; ORollback])%N
    default_map).2 =
  [Ok RUnit; Ok RUnit; Ok RUnit; Ok (RValue (Some (Some [12; 1; 2; 3]))); Ok RUnit;
   Ok (RValue (Some (Some [8; 1; 2]))); Err (RefusedClose mkNoOpenTransaction)]%N.
Proof.
  rewrite (proj1 (changeset_refines (P := debug) elements (fun s => reflexivity _) _)).
  vm_compute. reflexivity.
Defined.

(** The runtime appends to the list and leaves a transaction open. *)
Lemma runtime_is_contained_witness :
  exists inner', implements
    (run (P := debug) elements
       (OEnter :: [OAppend [7] [3] [] None; OStart; OSet [8] (Some [1]) None]%N ++ [OExit])
       (sample_map (P := debug))).1
    (mkSpec [inner'; sample_committed] 1 Client).
Proof.
  apply (runtime_is_contained (P := debug) elements (fun s => reflexivity _) _ _ 0 ∅ [sample_committed]).
  - apply sample_implements.
  - reflexivity.
  - match goal with |- _ ∉ ?l => let l' := eval vm_compute in l in change (Panic ∉ l') end.
    rewrite !not_elem_of_cons. by split_and!; [..|apply not_elem_of_nil].
Defined.

Lemma appends_read_back_witness :
  last (run (P := debug) elements
    (append_ops [7] [] None [(false, [3]); (true, [4])] ++ [OGet [7]])%N (sample_map (P := debug))).2 =
  Some (Ok (RValue (Some (Some [16; 1; 2; 3; 4]%N)))).
Proof.
  apply (appends_read_back (P := debug) elements (fun s => reflexivity _) [7%N] [] None (false, [3%N])
    [(true, [4%N])] _ _ 2 [1; 2]%N (sample_implements (P := debug))).
  - reflexivity.
  - vm_compute. discriminate.
Defined.

