(* ===== verification/Overlay.v ===== *)
(** * The overlay of all storages

    [sp_state_machine::overlayed_changes]: the change sets of the main storage, of the
    child tries and of the offchain storage, which open and close their transactions
    together, and the cache of the storage root. The backend and the codec of the
    values it returns are parameters; the iteration orders of hash maps and sets are
    parameters too. The counters of [StateMachineStats] are not bounded here. *)

From S2P Require Import Prelude Changeset.

(** ** Data *)

(** [sp_storage::ChildInfo], with its only kind of child trie. *)
Inductive ChildInfo : Type := ParentKeyId (data : bytes).

Definition storage_key (c : ChildInfo) : StorageKey := let '(ParentKeyId data) := c in data.

(** [b":child_storage:default:"], the prefix of [ChildType::ParentKeyId]. *)
Definition DEFAULT_CHILD_STORAGE_KEY_PREFIX : bytes :=
  [58; 99; 104; 105; 108; 100; 95; 115; 116; 111; 114; 97; 103; 101; 58;
   100; 101; 102; 97; 117; 108; 116; 58]%N.

Definition prefixed_storage_key (c : ChildInfo) : StorageKey :=
  DEFAULT_CHILD_STORAGE_KEY_PREFIX ++ storage_key c.

Definition try_update (c other : ChildInfo) : bool := bool_decide (storage_key c = storage_key other).

Inductive StateVersion : Type := V0 | V1.
#[export] Instance StateVersion_eq_dec : EqDecision StateVersion.
Proof. solve_decision. Defined.

Inductive OffchainOverlayedChange : Type :=
| OffchainRemove
| SetValue (data : bytes).

Notation OffchainKey := (bytes * bytes)%type.
Notation OffchainOverlayedChanges := (OverlayedMap OffchainKey OffchainOverlayedChange).

#[export] Instance offchain_key_ord : KeyOrd OffchainKey := fun a b =>
  if decide (a.1 = b.1) then bytes_leb a.2 b.2 else bytes_leb a.1 b.1.

Inductive IndexOperation : Type :=
| IndexInsert (extrinsic : N) (hash : bytes) (size : N)
| IndexRenew (extrinsic : N) (hash : bytes).

Record StateMachineStats : Type := mkStats {
  reads_modified : N;
  bytes_read_modified : N;
  writes_overlay : N;
  bytes_writes_overlay : N
}.

Definition tally_read_modified (data_bytes : N) (s : StateMachineStats) : StateMachineStats :=
  mkStats (reads_modified s + 1) (bytes_read_modified s + data_bytes)
    (writes_overlay s) (bytes_writes_overlay s).

Definition tally_write_overlay (data_bytes : N) (s : StateMachineStats) : StateMachineStats :=
  mkStats (reads_modified s) (bytes_read_modified s)
    (writes_overlay s + 1) (bytes_writes_overlay s + data_bytes).

Notation delta := (list (StorageKey * option StorageValue)).

(** What is used of [trait Backend], of its transactions, and of the hash it computes. *)
Class Backend (Out Tx BErr : Type) : Type := {
  backend_storage : StorageKey -> BErr + option StorageValue;
  backend_child_storage_root : ChildInfo -> delta -> StateVersion -> Out * bool * Tx;
  backend_storage_root : delta -> StateVersion -> Out * Tx;
  tx_empty : Tx;
  consolidate : Tx -> Tx -> Tx;
  out_encode : Out -> bytes;
  out_decode : bytes -> option Out;
  empty_child_trie_root : Out
}.

Record StorageTransactionCache (Out Tx : Type) : Type := mkCache {
  transaction : Tx;
  transaction_storage_root : Out;
  state_version : StateVersion
}.
Arguments mkCache {Out Tx} transaction transaction_storage_root state_version.
Arguments transaction {Out Tx} s.
Arguments transaction_storage_root {Out Tx} s.
Arguments state_version {Out Tx} s.

Record OverlayedChanges (Out Tx : Type) : Type := mkOverlay {
  top : OverlayedChangeSet;
  children : gmap StorageKey (OverlayedChangeSet * ChildInfo);
  offchain : OffchainOverlayedChanges;
  transaction_index_ops : list IndexOperation;
  collect_extrinsics : bool;
  stats : StateMachineStats;
  storage_transaction_cache : option (StorageTransactionCache Out Tx)
}.
Arguments mkOverlay {Out Tx} top children offchain transaction_index_ops collect_extrinsics stats
  storage_transaction_cache.
Arguments top {Out Tx} o.
Arguments children {Out Tx} o.
Arguments offchain {Out Tx} o.
Arguments transaction_index_ops {Out Tx} o.
Arguments collect_extrinsics {Out Tx} o.
Arguments stats {Out Tx} o.
Arguments storage_transaction_cache {Out Tx} o.

Record StorageChanges (Out Tx : Type) : Type := mkStorageChanges {
  main_storage_changes : delta;
  child_storage_changes : list (StorageKey * delta);
  offchain_storage_changes : list (OffchainKey * OffchainOverlayedChange);
  changes_transaction : Tx;
  changes_storage_root : Out;
  transaction_index_changes : list IndexOperation
}.
Arguments mkStorageChanges {Out Tx} main_storage_changes child_storage_changes
  offchain_storage_changes changes_transaction changes_storage_root transaction_index_changes.

(** [b":extrinsic_index"], [b"storage"] and the index of changes outside extrinsics. *)
Definition EXTRINSIC_INDEX : bytes :=
  [58; 101; 120; 116; 114; 105; 110; 115; 105; 99; 95; 105; 110; 100; 101; 120]%N.
Definition STORAGE_PREFIX : bytes := [115; 116; 111; 114; 97; 103; 101]%N.
Definition NO_EXTRINSIC_INDEX : N := u32_MAX.

(** ** Operations *)

Section overlay.
Context {P : Profile} {C : Compact} {Out Tx BErr : Type}.
(** [<u32 as Decode>::decode], and the orders of iteration. *)
Context (u32_decode : bytes -> option N).
Context (iter_set : gset StorageKey -> list StorageKey).
Context (iter_offchain : gset OffchainKey -> list OffchainKey).
Notation overlay := (OverlayedChanges Out Tx).
Implicit Types s : OverlayedChanges Out Tx.

Definition default_overlay : overlay :=
  mkOverlay default_map ∅ default_map [] false (mkStats 0 0 0 0) None.

Definition set_top t s : overlay :=
  mkOverlay t (children s) (offchain s) (transaction_index_ops s) (collect_extrinsics s) (stats s)
    (storage_transaction_cache s).
Definition set_children c s : overlay :=
  mkOverlay (top s) c (offchain s) (transaction_index_ops s) (collect_extrinsics s) (stats s)
    (storage_transaction_cache s).
Definition set_offchain_map o s : overlay :=
  mkOverlay (top s) (children s) o (transaction_index_ops s) (collect_extrinsics s) (stats s)
    (storage_transaction_cache s).
Definition set_index_ops l s : overlay :=
  mkOverlay (top s) (children s) (offchain s) l (collect_extrinsics s) (stats s)
    (storage_transaction_cache s).
Definition set_stats t s : overlay :=
  mkOverlay (top s) (children s) (offchain s) (transaction_index_ops s) (collect_extrinsics s) t
    (storage_transaction_cache s).
Definition set_cache c s : overlay :=
  mkOverlay (top s) (children s) (offchain s) (transaction_index_ops s) (collect_extrinsics s)
    (stats s) c.
Definition set_collect_extrinsics b s : overlay :=
  mkOverlay (top s) (children s) (offchain s) (transaction_index_ops s) b (stats s)
    (storage_transaction_cache s).

(** A method of the main change set, and of the offchain one. *)
Definition on_top {E A : Type} (f : M OverlayedChangeSet E A) : M overlay E A := fun s =>
  let '(t, r) := f (top s) in (set_top t s, r).
Definition on_offchain {E A : Type} (f : M OffchainOverlayedChanges E A) : M overlay E A := fun s =>
  let '(o, r) := f (offchain s) in (set_offchain_map o s, r).

(** A method of the child change set stored under a key. *)
Definition on_child {E A : Type} (key : StorageKey) (f : M OverlayedChangeSet E A) : M overlay E A := fun s =>
  match children s !! key with
  | None => (s, Panic)
  | Some (cs, info) =>
      let '(cs', r) := f cs in (set_children (<[key := (cs', info)]> (children s)) s, r)
  end.

(** [for (_, (changeset, _)) in self.children.iter_mut()] with [expect] on each. *)
Definition for_children {E E' : Type} (f : M OverlayedChangeSet E unit) : M overlay E' unit :=
  let* s := get_state in
  for_each (fun key => on_child key (expectM f)) (iter_set (dom (children s))).

Definition overlay_is_empty s : bool := is_empty (top s) && bool_decide (children s = ∅).

(** [value.map(|x| x.len() as u64).unwrap_or(0)] *)
Definition value_len (v : option StorageValue) : N :=
  match v with Some x => N.of_nat (length x) | None => 0 end.

Definition storage {E : Type} (key : StorageKey) : M overlay E (option (option StorageValue)) :=
  let* v := on_top (get_value key) in
  match v with
  | None => ret None
  | Some value =>
      let* _ := modify_state (fun s => set_stats (tally_read_modified (value_len value) (stats s)) s) in
      ret (Some value)
  end.

Definition mark_dirty {E : Type} : M overlay E unit := modify_state (set_cache None).

Definition child_storage {E : Type} (info : ChildInfo) (key : StorageKey)
  : M overlay E (option (option StorageValue)) :=
  let* s := get_state in
  match children s !! storage_key info with
  | None => ret None
  | Some _ =>
      let* v := on_child (storage_key info) (get_value key) in
      match v with
      | None => ret None
      | Some value =>
          let* _ := modify_state
            (fun s => set_stats (tally_read_modified (value_len value) (stats s)) s) in
          ret (Some value)
      end
  end.

Definition extrinsic_index {E : Type} : M overlay E (option N) :=
  let* s := get_state in
  if collect_extrinsics s then
    let* v := storage EXTRINSIC_INDEX in
    ret (Some (match v with
               | Some (Some idx) => default NO_EXTRINSIC_INDEX (u32_decode idx)
               | _ => NO_EXTRINSIC_INDEX
               end))
  else ret None.

Definition tally_write {E : Type} (n : N) : M overlay E unit :=
  modify_state (fun s => set_stats (tally_write_overlay n (stats s)) s).

Definition set_storage {E : Type} (key : StorageKey) (val : option StorageValue) : M overlay E unit :=
  let* _ := mark_dirty in
  let* _ := tally_write (value_len val) in
  let* x := extrinsic_index in
  on_top (set key val x).

Definition overlay_append_storage {E : Type} (key : StorageKey) (element : StorageValue)
    (init : outcome E StorageValue) : M overlay E unit :=
  let* x := extrinsic_index in
  let* _ := tally_write (N.of_nat (length element)) in
  on_top (append_storage key element init x).

(** [children.entry(storage_key).or_insert_with(spawn_child)] and the update of its info. *)
Definition child_entry {E : Type} (info : ChildInfo) : M overlay E unit :=
  let* s := get_state in
  let '(cs, old) := default (spawn_child (top s), info) (children s !! storage_key info) in
  let* _ := put_state (set_children (<[storage_key info := (cs, old)]> (children s)) s) in
  lift (debug_assert (try_update old info)).

Definition set_child_storage {E : Type} (info : ChildInfo) (key : StorageKey) (val : option StorageValue)
  : M overlay E unit :=
  let* _ := mark_dirty in
  let* x := extrinsic_index in
  let* _ := tally_write (value_len val) in
  let* _ := child_entry info in
  on_child (storage_key info) (set key val x).

(** [slice::starts_with] *)
Definition starts_with (prefix key : bytes) : bool :=
  bool_decide (take (length prefix) key = prefix).

Definition clear_child_storage {E : Type} (info : ChildInfo) : M overlay E N :=
  let* _ := mark_dirty in
  let* x := extrinsic_index in
  let* _ := child_entry info in
  on_child (storage_key info) (clear_where (fun _ _ => true) x).

Definition clear_prefix {E : Type} (prefix : bytes) : M overlay E N :=
  let* _ := mark_dirty in
  let* x := extrinsic_index in
  on_top (clear_where (fun key _ => starts_with prefix key) x).

Definition clear_child_prefix {E : Type} (info : ChildInfo) (prefix : bytes) : M overlay E N :=
  let* _ := mark_dirty in
  let* x := extrinsic_index in
  let* _ := child_entry info in
  on_child (storage_key info) (clear_where (fun key _ => starts_with prefix key) x).

Definition overlay_transaction_depth s : nat := transaction_depth (top s).

Definition overlay_start_transaction {E : Type} : M overlay E unit :=
  let* _ := on_top start_transaction in
  let* _ := for_children (E := E) start_transaction in
  on_offchain start_transaction.

(** [retain_map] with the rollback of each child; empty change sets are dropped. *)
Definition rollback_child {E : Type} (key : StorageKey) : M overlay E unit :=
  let* _ := on_child key (expectM (rollback_transaction iter_set)) in
  modify_state (fun s =>
    match children s !! key with
    | Some (cs, _) => if is_empty cs then set_children (delete key (children s)) s else s
    | None => s
    end).

Definition overlay_rollback_transaction : M overlay NoOpenTransaction unit :=
  let* _ := mark_dirty in
  let* _ := on_top (rollback_transaction iter_set) in
  let* s := get_state in
  let* _ := for_each rollback_child (iter_set (dom (children s))) in
  on_offchain (expectM (rollback_transaction_offchain iter_offchain)).

Definition overlay_commit_transaction : M overlay NoOpenTransaction unit :=
  let* _ := on_top (commit_transaction iter_set) in
  let* _ := for_children (commit_transaction iter_set) in
  on_offchain (expectM (commit_transaction_offchain iter_offchain)).

Definition overlay_enter_runtime : M overlay AlreadyInRuntime unit :=
  let* _ := on_top enter_runtime in
  let* _ := for_children enter_runtime in
  on_offchain (expectM enter_runtime).

Definition overlay_exit_runtime : M overlay NotInRuntime unit :=
  let* _ := on_top (exit_runtime iter_set) in
  let* _ := for_children (exit_runtime iter_set) in
  on_offchain (expectM (exit_runtime_offchain iter_offchain)).

(** [offchain::OffchainOverlayedChanges] *)
Definition offchain_set {E : Type} (prefix key v : bytes) : M OffchainOverlayedChanges E unit :=
  set_offchain (prefix, key) (SetValue v) None.
Definition offchain_remove {E : Type} (prefix key : bytes) : M OffchainOverlayedChanges E unit :=
  set_offchain (prefix, key) OffchainRemove None.
Definition offchain_get {E : Type} (prefix key : bytes) (o : OffchainOverlayedChanges)
  : outcome E (option OffchainOverlayedChange) :=
  match changes o !! (prefix, key) with
  | None => Ok None
  | Some e => let! v := value_ref e in Ok (Some v)
  end.

(** [into_iter], and [drain], which leaves the default in place. *)
Definition offchain_into_iter {E : Type} (o : OffchainOverlayedChanges)
  : outcome E (list (OffchainKey * OffchainOverlayedChange)) :=
  traverse (fun kv => let! v := into_value kv.2 in Ok (kv.1, v)) (changes_iter o).
Definition offchain_drain {E : Type}
  : M OffchainOverlayedChanges E (list (OffchainKey * OffchainOverlayedChange)) :=
  let* o := get_state in
  let* _ := put_state default_map in
  lift (offchain_into_iter o).

Definition offchain_drain_committed {E : Type}
  : M overlay E (list (OffchainKey * OffchainOverlayedChange)) := on_offchain offchain_drain.

Definition set_offchain_storage {E : Type} (key : bytes) (v : option bytes) : M overlay E unit :=
  match v with
  | Some x => on_offchain (offchain_set STORAGE_PREFIX key x)
  | None => on_offchain (offchain_remove STORAGE_PREFIX key)
  end.

Definition add_transaction_index {E : Type} (op : IndexOperation) : M overlay E unit :=
  modify_state (fun s => set_index_ops (transaction_index_ops s ++ [op]) s).

Definition iter_after (key : StorageKey) s : list (StorageKey * OverlayedValue) :=
  changes_after key (top s).

Definition child_iter_after (skey key : StorageKey) s : list (StorageKey * OverlayedValue) :=
  match children s !! skey with
  | Some (cs, _) => changes_after key cs
  | None => []
  end.

(** [From<Storage>]: the initial storage of a chain. *)
Definition from_initial (storage_top : gmap StorageKey StorageValue)
    (children_default : gmap StorageKey (gmap StorageKey StorageValue * ChildInfo)) : overlay :=
  mkOverlay (from_storage storage_top)
    ((fun v => (from_storage (fst v), snd v)) <$> children_default)
    default_map [] false (mkStats 0 0 0 0) None.

(** ** The storage root *)

(** [changes_mut().map(|(k, v)| (k, v.value()))]: every value, materialized in place. *)
Fixpoint values_of {E : Type} (keys : list StorageKey) : M OverlayedChangeSet E delta :=
  match keys with
  | [] => ret []
  | k :: l =>
      let* v := get_value k in
      let* rest := values_of l in
      ret (match v with Some x => (k, x) :: rest | None => rest end)
  end.

Definition delta_of {E : Type} : M OverlayedChangeSet E delta :=
  let* m := get_state in values_of (map fst (changes_iter m)).

Fixpoint child_deltas {E : Type} (keys : list StorageKey) : M overlay E (list (ChildInfo * delta)) :=
  match keys with
  | [] => ret []
  | key :: l =>
      let* s := get_state in
      let* d := on_child key delta_of in
      let* rest := child_deltas l in
      ret (match children s !! key with
           | Some (_, info) => (info, d) :: rest
           | None => rest
           end)
  end.

Context `{B : !Backend Out Tx BErr}.

(** [Backend::full_storage_root]: child tries first, their roots are part of the delta. *)
Definition full_storage_root (d : delta) (cds : list (ChildInfo * delta)) (v : StateVersion)
  : Out * Tx :=
  let '(txs, child_roots) :=
    foldl (fun acc cd =>
      let '(root, empty, tx) := backend_child_storage_root (fst cd) (snd cd) v in
      (consolidate (fst acc) tx,
       snd acc ++ [(prefixed_storage_key (fst cd), if (empty : bool) then None else Some (out_encode root))]))
      (tx_empty, []) cds in
  let '(root, parent_txs) := backend_storage_root (d ++ child_roots) v in
  (root, consolidate txs parent_txs).

(** The part of [storage_root] after the cache was found not to hold. *)
Definition compute_root {E : Type} (v : StateVersion) : M overlay E (Out * bool) :=
  let* d := on_top delta_of in
  let* s := get_state in
  let* cds := child_deltas (iter_set (dom (children s))) in
  let '(root, tx) := full_storage_root d cds v in
  let* _ := modify_state (set_cache (Some (mkCache tx root v))) in
  ret (root, false).

Definition storage_root {E : Type} (v : StateVersion) : M overlay E (Out * bool) :=
  let* s := get_state in
  match storage_transaction_cache s with
  | Some cache =>
      if decide (state_version cache = v) then ret (transaction_storage_root cache, true)
      else compute_root v
  | None => compute_root v
  end.

(** The root a value decodes to, or the one of an empty child trie. *)
Definition root_or_empty (v : option StorageValue) : Out :=
  default empty_child_trie_root (v ≫= out_decode).

Definition child_storage_root (info : ChildInfo) (v : StateVersion) : M overlay BErr (Out * bool) :=
  let skey := storage_key info in
  let pkey := prefixed_storage_key info in
  let* s := get_state in
  match storage_transaction_cache s with
  | Some _ =>
      let* x := storage pkey in
      match x with
      | Some value => ret (root_or_empty value, true)
      | None =>
          match backend_storage pkey with
          | inl e => throw e
          | inr value => ret (root_or_empty value, true)
          end
      end
  | None =>
      match children s !! skey with
      | Some (_, old) =>
          let* d := on_child skey delta_of in
          let '(root, is_empty, _) := backend_child_storage_root old d v in
          let* _ := set_storage pkey (if (is_empty : bool) then None else Some (out_encode root)) in
          let* _ := mark_dirty in
          ret (root, false)
      | None =>
          match backend_storage pkey with
          | inl e => throw e
          | inr value => ret (root_or_empty value, false)
          end
      end
  end.

(** [take(&mut self.top).drain_committed()], with the values as options. *)
Definition drained {E : Type} (m : OverlayedChangeSet) : outcome E delta :=
  let! l := drain_committed m in
  traverse (fun kv => let! v := to_option kv.2 in Ok (kv.1, v)) l.

Fixpoint drain_children {E : Type} (l : list (StorageKey * (OverlayedChangeSet * ChildInfo)))
  : outcome E (list (StorageKey * delta)) :=
  match l with
  | [] => Ok []
  | (key, (cs, _)) :: l' =>
      let! d := drained cs in
      let! rest := drain_children l' in
      Ok ((key, d) :: rest)
  end.

(** [into_iter] of the map of child tries. *)
Fixpoint entries_of {A} (keys : list StorageKey) (c : gmap StorageKey A) : list (StorageKey * A) :=
  match keys with
  | [] => []
  | k :: l => match c !! k with Some x => (k, x) :: entries_of l c | None => entries_of l c end
  end.

Definition drain_storage_changes {E : Type} (v : StateVersion) : M overlay E (StorageChanges Out Tx) :=
  let* s := get_state in
  let* cache :=
    match storage_transaction_cache s with
    | Some cache => let* _ := modify_state (set_cache None) in ret cache
    | None =>
        let* _ := storage_root v in
        let* s := get_state in
        let* _ := modify_state (set_cache None) in
        lift (expect (storage_transaction_cache s))
    end in
  let* s := get_state in
  let* _ := modify_state (set_top default_map) in
  let* main := lift (drained (top s)) in
  let* _ := modify_state (set_children ∅) in
  let* childs := lift (drain_children
    (entries_of (iter_set (dom (children s))) (children s))) in
  let* off := offchain_drain_committed in
  let* _ := modify_state (set_index_ops []) in
  ret (mkStorageChanges main childs off (transaction cache) (transaction_storage_root cache)
         (transaction_index_ops s)).
End overlay.
