(* ===== verification/OverlaySpec.v ===== *)
(** * Correctness of the overlay of all storages

    The main storage, every child trie and the offchain storage are stacks of layers
    of one height. The overlay keeps them so: a child trie that appears inside
    transactions starts with as many empty layers, one that is left without changes
    is forgotten, and the calls that close transactions never meet a change set out
    of step. *)

From S2P Require Import Prelude Changeset ChangesetLayers ChangesetSpec Overlay.

Set Default Proof Using "Type*".

(** ** The view of the layers *)

Section spec.
Context {P : Profile} {C : Compact} {L : CompactLaws} {Out Tx BErr : Type}.
Context (u32_decode : bytes -> option N).
Context (iter_set : gset StorageKey -> list StorageKey) (iter_set_perm : forall s, iter_set s ≡ₚ elements s).
Context (iter_offchain : gset OffchainKey -> list OffchainKey)
  (iter_offchain_perm : forall s, iter_offchain s ≡ₚ elements s).
Notation overlay := (OverlayedChanges Out Tx).
Notation storage_layers := (layers StorageKey (option StorageValue)).
Implicit Types (s : OverlayedChanges Out Tx) (ls : layers StorageKey (option StorageValue)).

Record view : Type := mkView {
  v_top : storage_layers;
  v_child : StorageKey -> storage_layers;
  v_off : layers OffchainKey OffchainOverlayedChange;
  v_client : nat;
  v_mode : ExecutionMode;
  v_collect : bool
}.
Implicit Types (v : view) (info : ChildInfo).

Definition height v : nat := length (v_top v).
Definition top_spec v : spec_state := mkSpec (v_top v) (v_client v) (v_mode v).
Definition child_spec v k : spec_state := mkSpec (v_child v k) (v_client v) (v_mode v).

(** A child trie without a change set has no versions in any layer. *)
Definition child_agrees v (o : option (OverlayedChangeSet * ChildInfo)) k : Prop :=
  length (v_child v k) = height v /\
  match o with
  | None => v_child v k = repeat ∅ (height v)
  | Some (cs, info) => storage_key info = k /\ implements cs (child_spec v k)
  end.

Definition off_agrees v (o : OffchainOverlayedChanges) : Prop :=
  represents plain_ok o (v_off v) /\ length (v_off v) = height v /\
  num_client_transactions o = v_client v /\ execution_mode o = v_mode v.

Record agrees s v : Prop := {
  agrees_top : implements (top s) (top_spec v);
  agrees_child k : child_agrees v (children s !! k) k;
  agrees_off : off_agrees v (offchain s);
  agrees_collect : collect_extrinsics s = v_collect v
}.

(** *** What the calls do to the view *)

Definition view_top v ls : view := mkView ls (v_child v) (v_off v) (v_client v) (v_mode v) (v_collect v).
Definition view_child v k ls : view :=
  mkView (v_top v) (fun k' => if decide (k' = k) then ls else v_child v k') (v_off v)
    (v_client v) (v_mode v) (v_collect v).
Definition view_off v lo : view := mkView (v_top v) (v_child v) lo (v_client v) (v_mode v) (v_collect v).

(** The same function on every stack. *)
Definition view_all v (f : forall {K A} `{Countable K}, layers K A -> layers K A) : view :=
  mkView (f (v_top v)) (fun k => f (v_child v k)) (f (v_off v)) (v_client v) (v_mode v) (v_collect v).

Definition spec_index v : option N :=
  if v_collect v then
    Some (match fst <$> visible (v_top v) EXTRINSIC_INDEX with
          | Some (Some idx) => default NO_EXTRINSIC_INDEX (u32_decode idx)
          | _ => NO_EXTRINSIC_INDEX
          end)
  else None.

Inductive call : Type :=
| CSet (key : StorageKey) (val : option StorageValue)
| CAppend (key : StorageKey) (element init : StorageValue)
| CGet (key : StorageKey)
| CClearPrefix (prefix : bytes)
| CSetChild (info : ChildInfo) (key : StorageKey) (val : option StorageValue)
| CGetChild (info : ChildInfo) (key : StorageKey)
| CClearChild (info : ChildInfo)
| CClearChildPrefix (info : ChildInfo) (prefix : bytes)
| CSetOffchain (key : bytes) (val : option bytes)
| CAddIndex (op : IndexOperation)
| CStart
| CCommit
| CRollback
| CEnter
| CExit.

Definition perform (c : call) : M overlay refusal reply :=
  match c with
  | CSet key val => done_with (set_storage u32_decode key val)
  | CAppend key element init => done_with (overlay_append_storage u32_decode key element (Ok init))
  | CGet key => let* r := storage key in ret (RValue r)
  | CClearPrefix prefix => let* n := clear_prefix u32_decode prefix in ret (RCount n)
  | CSetChild info key val => done_with (set_child_storage u32_decode info key val)
  | CGetChild info key => let* r := child_storage info key in ret (RValue r)
  | CClearChild info => let* n := clear_child_storage u32_decode info in ret (RCount n)
  | CClearChildPrefix info prefix =>
      let* n := clear_child_prefix u32_decode info prefix in ret (RCount n)
  | CSetOffchain key val => done_with (set_offchain_storage key val)
  | CAddIndex op => done_with (add_transaction_index op)
  | CStart => done_with (overlay_start_transaction iter_set)
  | CCommit => done_with (map_errM RefusedClose (overlay_commit_transaction iter_set iter_offchain))
  | CRollback => done_with (map_errM RefusedClose (overlay_rollback_transaction iter_set iter_offchain))
  | CEnter => done_with (map_errM RefusedEnter (overlay_enter_runtime iter_set))
  | CExit => done_with (map_errM RefusedExit (overlay_exit_runtime iter_set iter_offchain))
  end.

Definition view_closable v : bool :=
  (1 <? height v) &&
  match v_mode v with Client => true | Runtime => v_client v <? pred (height v) end.

Definition view_close (rollback : bool) v : outcome refusal (view * reply) :=
  if view_closable v
  then Ok (view_all v (fun _ _ _ _ => close_layers rollback), RUnit)
  else Err (RefusedClose mkNoOpenTransaction).

(** The number of keys that pass [q] and have a value. *)
Definition clear_count (q : StorageKey -> bool) ls : nat :=
  size (filter (fun k => q k && present ls k = true) (known ls)).

Definition spec_call (c : call) v : outcome refusal (view * reply) :=
  let x := spec_index v in
  match c with
  | CSet key val => Ok (view_top v (layers_set key val x (v_top v)), RUnit)
  | CAppend key element init =>
      let! r := appended element (append_base init (visible (v_top v) key)) in
      Ok (view_top v (layers_set key (Some r) x (v_top v)), RUnit)
  | CGet key => Ok (v, RValue (fst <$> visible (v_top v) key))
  | CClearPrefix prefix =>
      let! n := count_up (clear_count (starts_with prefix) (v_top v)) 0 in
      Ok (view_top v (layers_clear None (starts_with prefix) x (v_top v)), RCount n)
  | CSetChild info key val =>
      let k := storage_key info in
      Ok (view_child v k (layers_set key val x (v_child v k)), RUnit)
  | CGetChild info key => Ok (v, RValue (fst <$> visible (v_child v (storage_key info)) key))
  | CClearChild info =>
      let k := storage_key info in
      let! n := count_up (clear_count (fun _ => true) (v_child v k)) 0 in
      Ok (view_child v k (layers_clear None (fun _ => true) x (v_child v k)), RCount n)
  | CClearChildPrefix info prefix =>
      let k := storage_key info in
      let! n := count_up (clear_count (starts_with prefix) (v_child v k)) 0 in
      Ok (view_child v k (layers_clear None (starts_with prefix) x (v_child v k)), RCount n)
  | CSetOffchain key val =>
      let change := match val with Some d => SetValue d | None => OffchainRemove end in
      Ok (view_off v (layers_set (STORAGE_PREFIX, key) change None (v_off v)), RUnit)
  | CAddIndex _ => Ok (v, RUnit)
  | CStart => Ok (view_all v (fun _ _ _ _ l => ∅ :: l), RUnit)
  | CCommit => view_close false v
  | CRollback => view_close true v
  | CEnter =>
      match v_mode v with
      | Runtime => Err (RefusedEnter mkAlreadyInRuntime)
      | Client => Ok (mkView (v_top v) (v_child v) (v_off v) (pred (height v)) Runtime (v_collect v), RUnit)
      end
  | CExit =>
      match v_mode v with
      | Client => Err (RefusedExit mkNotInRuntime)
      | Runtime =>
          let n := pred (height v) - v_client v in
          Ok (mkView (drop n (v_top v)) (fun k => drop n (v_child v k)) (drop n (v_off v))
                (v_client v) Client (v_collect v), RUnit)
      end
  end.

(** ** Proof rules *)

(** The call returns [r] and leaves the overlay at the view [v]. *)
Definition yields {E A} (m : M overlay E A) s (r : A) v : Prop :=
  exists s', m s = (s', Ok r) /\ agrees s' v.

(** The call ends as the specification says, started at the view [v]. *)
Definition conforms {E A} (m : M overlay E A) s v (spec : outcome E (view * A)) : Prop :=
  match spec with
  | Ok (v', r) => yields m s r v'
  | Err e => exists s', m s = (s', Err e) /\ agrees s' v
  | Panic => (m s).2 = Panic
  | Diverge => False
  end.

Lemma yields_bind {E A B} (m : M overlay E A) (k : A -> M overlay E B) s a v b v' :
  yields m s a v -> (forall s', agrees s' v -> yields (k a) s' b v') -> yields (bindM m k) s b v'.
Proof. intros (s1 & Hm & Hs1) Hk. unfold yields, bindM. rewrite Hm. by apply Hk. Qed.

Lemma conforms_bind {E A B} (m : M overlay E A) (k : A -> M overlay E B) s a v spec :
  yields m s a v -> (forall s', agrees s' v -> conforms (k a) s' v spec) -> conforms (bindM m k) s v spec.
Proof.
  intros (s1 & Hm & Hs1) Hk. specialize (Hk s1 Hs1). unfold conforms, yields, bindM in *. by rewrite Hm.
Qed.

Lemma yields_get {E A} (k : overlay -> M overlay E A) s b v :
  yields (k s) s b v -> yields (let* s := get_state in k s) s b v.
Proof. done. Qed.

Lemma yields_ret {E A} (r : A) s v : agrees s v -> yields (E := E) (ret r) s r v.
Proof. intros Hs. by exists s. Qed.

(** Fields that are not part of the view. *)
Lemma yields_modify {E} f s v :
  agrees s v -> (forall s', agrees s' v -> agrees (f s') v) -> yields (E := E) (modify_state f) s tt v.
Proof. intros Hs Hf. exists (f s). split; [done|by apply Hf]. Qed.

Lemma agrees_stats t s v : agrees s v -> agrees (set_stats t s) v.
Proof. by intros []. Qed.
Lemma agrees_cache c s v : agrees s v -> agrees (set_cache c s) v.
Proof. by intros []. Qed.
Lemma agrees_index l s v : agrees s v -> agrees (set_index_ops l s) v.
Proof. by intros []. Qed.

Lemma implements_frame m a m' :
  implements m a -> same_frame m m' -> ChangesetSpec.overlay m' (spec_layers a) -> implements m' a.
Proof. intros Hm Hf Hov. destruct a. by apply (implements_top _ _ _ _ Hm Hf Hov). Qed.

(** *** The main storage *)

Lemma agrees_set_top s v t ls :
  agrees s v -> length ls = height v -> implements t (mkSpec ls (v_client v) (v_mode v)) ->
  agrees (set_top t s) (view_top v ls).
Proof.
  intros [Htop Hchild Hoff Hcol] Hlen Ht. split; [done| | |done].
  - intros k. unfold child_agrees, height in *. simpl. rewrite Hlen. apply Hchild.
  - unfold off_agrees, height in *. simpl. by rewrite Hlen.
Qed.

Lemma view_top_id v : view_top v (v_top v) = v.
Proof. by destruct v. Qed.

Lemma storage_yields {E} key s v :
  agrees s v -> yields (E := E) (storage key) s (fst <$> visible (v_top v) key) v.
Proof.
  intros Hs. unfold storage. eapply yields_bind with (v := v).
  - destruct (get_refines (E := E) key (top s) (v_top v)) as (t & Hget & Ht & Hf & _).
    { apply (agrees_top _ _ Hs). }
    exists (set_top t s). unfold on_top. rewrite Hget. split; [done|]. rewrite <- (view_top_id v) at 1.
    apply agrees_set_top; [done|done|]. eapply implements_frame; [apply (agrees_top _ _ Hs)|done|done].
  - intros s' Hs'. destruct (fst <$> visible (v_top v) key); [|by apply yields_ret].
    eapply yields_bind; [apply yields_modify; [done|intros; by apply agrees_stats]|].
    intros. by apply yields_ret.
Qed.

Lemma extrinsic_index_yields {E} s v :
  agrees s v -> yields (E := E) (extrinsic_index u32_decode) s (spec_index v) v.
Proof.
  intros Hs. unfold extrinsic_index, spec_index. eapply yields_bind with (a := s); [by exists s|].
  intros s' Hs'. rewrite (agrees_collect _ _ Hs). destruct (v_collect v); [|by apply yields_ret].
  eapply yields_bind; [by apply storage_yields|]. intros. by apply yields_ret.
Qed.

(** What comes before a write. *)
Lemma mark_dirty_yields {E} s v : agrees s v -> yields (E := E) mark_dirty s tt v.
Proof. intros Hs. apply yields_modify; [done|]. intros. by apply agrees_cache. Qed.
Lemma tally_write_yields {E} n s v : agrees s v -> yields (E := E) (tally_write n) s tt v.
Proof. intros Hs. apply yields_modify; [done|]. intros. by apply agrees_stats. Qed.

Lemma conforms_map {E A B} (f : A -> B) (m : M overlay E A) s v spec :
  conforms m s v spec ->
  conforms (let* r := m in ret (f r)) s v (let! r := spec in Ok (fst r, f (snd r))).
Proof.
  unfold conforms, yields, bindM, ret. destruct spec as [[v' r]|e| |]; simpl; [..|done].
  - intros (s' & -> & Hs'). by exists s'.
  - intros (s' & -> & Hs'). by exists s'.
  - by destruct (m s) as [s' [| | |]].
Qed.

(** A method of the main change set after reads and bookkeeping. *)
Lemma on_top_conforms {E A} (f : M OverlayedChangeSet E A) s v (spec : outcome E (storage_layers * A)) :
  agrees s v ->
  match spec with
  | Ok (ls, r) => exists t, f (top s) = (t, Ok r) /\ same_frame (top s) t /\ ChangesetSpec.overlay t ls
  | Panic => (f (top s)).2 = Panic
  | _ => False
  end ->
  conforms (on_top f) s v (let! r := spec in Ok (view_top v (fst r), snd r)).
Proof.
  intros Hs. unfold conforms, yields, on_top. destruct spec as [[ls r]|e| |]; simpl; try done.
  - intros (t & -> & Hf & Ht). eexists. split; [done|]. apply agrees_set_top; [done| |].
    + destruct Ht as [-> _]. destruct Hf as (-> & _). rewrite (implements_depth _ _ (agrees_top _ _ Hs)).
      unfold spec_depth, height. simpl. destruct (agrees_top _ _ Hs) as [[Hlen _] _]. simpl in Hlen. lia.
    + apply (implements_top _ _ _ _ (agrees_top _ _ Hs) Hf Ht).
  - by destruct (f (top s)).
Qed.

Lemma set_storage_conforms {E} key val s v :
  agrees s v ->
  conforms (E := E) (set_storage u32_decode key val) s v
    (Ok (view_top v (layers_set key val (spec_index v) (v_top v)), tt)).
Proof.
  intros Hs. unfold set_storage.
  eapply conforms_bind; [by apply mark_dirty_yields|]. intros s1 Hs1.
  eapply conforms_bind; [by apply tally_write_yields|]. intros s2 Hs2.
  eapply conforms_bind; [by apply extrinsic_index_yields|]. intros s3 Hs3.
  apply (on_top_conforms _ _ _ (Ok (_, tt)) Hs3).
  destruct (set_refines (E := E) key val (spec_index v) (top s3) (v_top v)) as (t & -> & Ht & Hf & _);
    [apply (agrees_top _ _ Hs3)|by exists t].
Qed.

Lemma append_storage_conforms {E} key element init s v :
  agrees s v ->
  conforms (E := E) (overlay_append_storage u32_decode key element (Ok init)) s v
    (let! r := appended element (append_base init (visible (v_top v) key)) in
     Ok (view_top v (layers_set key (Some r) (spec_index v) (v_top v)), tt)).
Proof.
  intros Hs. unfold overlay_append_storage.
  eapply conforms_bind; [by apply extrinsic_index_yields|]. intros s1 Hs1.
  eapply conforms_bind; [by apply tally_write_yields|]. intros s2 Hs2.
  pose proof (append_refines (E := E) key element init (spec_index v) (top s2) (v_top v)
    (proj1 (agrees_top _ _ Hs2))) as Happ.
  destruct (appended _ _) as [r|e| |]; try done.
  - apply (on_top_conforms _ _ _ (Ok (_, tt)) Hs2). destruct Happ as (t & -> & Ht & Hf & _). by exists t.
  - apply (on_top_conforms _ _ _ Panic Hs2). by rewrite Happ.
Qed.

Lemma clear_top_conforms {E} (q : StorageKey -> bool) s v x :
  agrees s v ->
  conforms (E := E) (on_top (clear_where (fun key _ => q key) x)) s v
    (let! n := count_up (clear_count q (v_top v)) 0 in Ok (view_top v (layers_clear None q x (v_top v)), n)).
Proof.
  intros Hs. pose proof (clear_refines (E := E) (fun key _ => q key) q x (top s) (v_top v)
    (proj1 (agrees_top _ _ Hs)) (fun _ _ => eq_refl)) as Hcl. unfold clear_count.
  destruct (count_up_cases (E := E) (size (filter (fun k => q k && present (v_top v) k = true)
    (known (v_top v)))) 0) as [Hn|[n Hn]]; rewrite Hn in *.
  - by apply (on_top_conforms _ _ _ Panic Hs).
  - apply (on_top_conforms _ _ _ (Ok (_, n)) Hs). destruct Hcl as (t & -> & Ht & Hf). by exists t.
Qed.

Lemma clear_prefix_conforms {E} prefix s v :
  agrees s v ->
  conforms (E := E) (clear_prefix u32_decode prefix) s v
    (let! n := count_up (clear_count (starts_with prefix) (v_top v)) 0 in
     Ok (view_top v (layers_clear None (starts_with prefix) (spec_index v) (v_top v)), n)).
Proof.
  intros Hs. unfold clear_prefix.
  eapply conforms_bind; [by apply mark_dirty_yields|]. intros s1 Hs1.
  eapply conforms_bind; [by apply extrinsic_index_yields|]. intros s2 Hs2. by apply clear_top_conforms.
Qed.

(** *** Child tries *)

Lemma agrees_set_child s v k cs info ls :
  agrees s v -> storage_key info = k -> length ls = height v ->
  implements cs (mkSpec ls (v_client v) (v_mode v)) ->
  agrees (set_children (<[k := (cs, info)]> (children s)) s) (view_child v k ls).
Proof.
  intros [Htop Hchild Hoff Hcol] Hk Hlen Hcs. split; [done| |done|done].
  intros k'. unfold child_agrees, child_spec, height in *. simpl.
  destruct (decide (k' = k)) as [->|Hne]; [by rewrite lookup_insert_eq|].
  rewrite lookup_insert_ne by done. apply Hchild.
Qed.

Lemma agrees_same_child s v k cs info :
  agrees s v -> storage_key info = k -> implements cs (child_spec v k) ->
  agrees (set_children (<[k := (cs, info)]> (children s)) s) v.
Proof.
  intros Hs Hk Hcs. pose proof (agrees_child _ _ Hs k) as [Hlen _].
  destruct (agrees_set_child s v k cs info _ Hs Hk Hlen Hcs) as [Htop Hchild Hoff Hcol].
  split; [done| |done|done]. intros k'. specialize (Hchild k').
  unfold child_agrees, child_spec, height in *. simpl in *. by destruct (decide (k' = k)) as [->|].
Qed.

(** The entry of a child trie is there, with the layers it had. *)
Lemma child_entry_yields {E} info s v :
  agrees s v ->
  exists s' cs old, child_entry (E := E) info s = (s', Ok tt) /\ agrees s' v /\
    children s' !! storage_key info = Some (cs, old) /\ storage_key old = storage_key info /\
    implements cs (child_spec v (storage_key info)).
Proof.
  intros Hs. unfold child_entry, bindM, get_state, put_state, lift.
  pose proof (agrees_child _ _ Hs (storage_key info)) as [Hlen Hc].
  set (e := default _ _). assert (storage_key e.2 = storage_key info /\
    implements e.1 (child_spec v (storage_key info))) as [Hkey Himp].
  { subst e. destruct (children s !! storage_key info) as [[cs old]|]; simpl; [done|]. split; [done|].
    pose proof (agrees_top _ _ Hs) as (Hov & Hcl & Hmo & Hin). unfold child_spec. rewrite Hc.
    assert (height v = S (transaction_depth (top s))) as Hh by apply Hov.
    split_and!; [rewrite Hh; apply empty_overlay|done|done|].
    intros Hr. specialize (Hin Hr). unfold spec_depth in *. simpl in *. by rewrite repeat_length. }
  destruct e as [cs old]. simpl in Hkey, Himp. unfold debug_assert, try_update.
  rewrite bool_decide_eq_true_2, andb_false_r by done.
  eexists _, cs, old. split; [done|]. split; [by apply agrees_same_child|].
  simpl. by rewrite lookup_insert_eq.
Qed.

(** A method of a child change set, after its entry was made. *)
Lemma on_child_conforms {E A} info (f : M OverlayedChangeSet E A) s v
    (spec : outcome E (storage_layers * A)) :
  agrees s v ->
  (forall cs, implements cs (child_spec v (storage_key info)) ->
   match spec with
   | Ok (ls, r) => exists cs', f cs = (cs', Ok r) /\ same_frame cs cs' /\ ChangesetSpec.overlay cs' ls
   | Panic => (f cs).2 = Panic
   | _ => False
   end) ->
  conforms (let* _ := child_entry info in on_child (storage_key info) f) s v
    (let! r := spec in Ok (view_child v (storage_key info) (fst r), snd r)).
Proof.
  intros Hs Hf. destruct (child_entry_yields (E := E) info s v Hs) as (s1 & cs & old & He & Hs1 & Hk & Hkey & Himp).
  specialize (Hf cs Himp). unfold conforms, yields, bindM, on_child. rewrite He, Hk.
  destruct spec as [[ls r]|e| |]; simpl in *; try done.
  - destruct Hf as (cs' & -> & Hfr & Hcs'). eexists. split; [done|]. apply agrees_set_child; [done|done| |].
    + pose proof (agrees_child _ _ Hs (storage_key info)) as [Hlen _].
      destruct Hcs' as [-> _]. destruct Hfr as (-> & _). rewrite (implements_depth _ _ Himp).
      unfold spec_depth. simpl. destruct Himp as [[Hl _] _]. simpl in Hl. lia.
    + apply (implements_top _ _ _ _ Himp Hfr Hcs').
  - by destruct (f cs).
Qed.

Lemma set_child_storage_conforms {E} info key val s v :
  agrees s v ->
  conforms (E := E) (set_child_storage u32_decode info key val) s v
    (Ok (view_child v (storage_key info)
           (layers_set key val (spec_index v) (v_child v (storage_key info))), tt)).
Proof.
  intros Hs. unfold set_child_storage.
  eapply conforms_bind; [by apply mark_dirty_yields|]. intros s1 Hs1.
  eapply conforms_bind; [by apply extrinsic_index_yields|]. intros s2 Hs2.
  eapply conforms_bind; [by apply tally_write_yields|]. intros s3 Hs3.
  apply (on_child_conforms _ _ _ _ (Ok (_, tt)) Hs3). intros cs Hcs.
  destruct (set_refines (E := E) key val (spec_index v) cs _ (proj1 Hcs)) as (t & -> & Ht & Hf & _). by exists t.
Qed.

Lemma clear_child_conforms {E} info (q : StorageKey -> bool) s v :
  agrees s v ->
  conforms (E := E)
    (let* _ := mark_dirty in
     let* x := extrinsic_index u32_decode in
     let* _ := child_entry info in
     on_child (storage_key info) (clear_where (fun key _ => q key) x)) s v
    (let! n := count_up (clear_count q (v_child v (storage_key info))) 0 in
     Ok (view_child v (storage_key info)
           (layers_clear None q (spec_index v) (v_child v (storage_key info))), n)).
Proof.
  intros Hs. eapply conforms_bind; [by apply mark_dirty_yields|]. intros s1 Hs1.
  eapply conforms_bind; [by apply extrinsic_index_yields|]. intros s2 Hs2.
  pose proof (fun cs (Hcs : implements cs (child_spec v (storage_key info))) =>
    clear_refines (E := E) (fun key _ => q key) q (spec_index v) cs _ (proj1 Hcs) (fun _ _ => eq_refl)) as Hcl.
  unfold clear_count. simpl in Hcl. destruct (count_up_cases (E := E) (size (filter (fun k => q k &&
    present (v_child v (storage_key info)) k = true) (known (v_child v (storage_key info))))) 0)
    as [Hn|[n Hn]]; rewrite Hn in *.
  - by apply (on_child_conforms _ _ _ _ Panic Hs2).
  - apply (on_child_conforms _ _ _ _ (Ok (_, n)) Hs2). intros cs Hcs.
    destruct (Hcl cs Hcs) as (t & -> & Ht & Hf). by exists t.
Qed.

Lemma visible_empty n (k : StorageKey) : visible (repeat ∅ n : storage_layers) k = None.
Proof. unfold visible. induction n as [|n IH]; simpl; [done|]. by rewrite lookup_empty. Qed.

Lemma child_storage_yields {E} info key s v :
  agrees s v ->
  yields (E := E) (child_storage info key) s (fst <$> visible (v_child v (storage_key info)) key) v.
Proof.
  intros Hs. unfold child_storage. apply yields_get.
  pose proof (agrees_child _ _ Hs (storage_key info)) as [_ Hc].
  destruct (children s !! storage_key info) as [[cs old]|] eqn:Hk.
  2: { rewrite Hc, visible_empty. by apply yields_ret. }
  destruct Hc as [Hkey Himp].
  destruct (get_refines (E := E) key cs _ (proj1 Himp)) as (cs' & Hget & Hcs' & Hf & _).
  eapply yields_bind with (v := v).
  - unfold yields, on_child. rewrite Hk, Hget. eexists. split; [done|].
    apply agrees_same_child; [done|done|]. by eapply implements_frame.
  - intros s' Hs'. simpl. destruct (fst <$> visible _ key); [|by apply yields_ret].
    eapply yields_bind; [apply yields_modify; [done|intros; by apply agrees_stats]|].
    intros. by apply yields_ret.
Qed.

(** *** The offchain storage *)

Lemma agrees_set_off s v o lo :
  agrees s v -> off_agrees (view_off v lo) o -> agrees (set_offchain_map o s) (view_off v lo).
Proof. by intros []. Qed.

Lemma entry_set_offchain_ok {E V} (a : V) first x vs o c :
  plain_ok vs (somes (o :: c)) -> first || is_nil vs = bool_decide (o = None) ->
  exists vs', entry_set_offchain (E := E) a first x (mkEntry vs) = Ok (mkEntry vs') /\
    plain_ok vs' ((a, record x (default [] (snd <$> o))) :: somes c).
Proof.
  unfold plain_ok, entry_set_offchain. intros Hvs Hfirst. simpl. rewrite Hfirst.
  destruct o as [[b y]|]; simpl in *.
  - destruct vs as [|w vs]; [done|]. injection Hvs as _ Hy Hvs. unfold set_value_mut. simpl.
    rewrite record_extrinsic_ok. eexists. split; [done|]. simpl. by rewrite Hy, Hvs.
  - unfold push_transaction. simpl. rewrite record_extrinsic_ok. eexists. split; [done|].
    simpl. by rewrite Hvs.
Qed.

Lemma set_offchain_conforms {E} key change s v :
  agrees s v ->
  conforms (E := E) (on_offchain (set_offchain key change None)) s v
    (Ok (view_off v (layers_set key change None (v_off v)), tt)).
Proof.
  intros Hs. destruct (agrees_off _ _ Hs) as (Hr & Hlen & Hc & Hm).
  destruct (update_entry_ok (E := E) _ _ _ (fun first => entry_set_offchain change first None) key change None
    _ _ Hr) as (o & Ho & Hr' & (Hd & Hc' & Hm') & _).
  { intros first vs c l _. apply entry_set_offchain_ok. }
  eexists. split; [unfold on_offchain, set_offchain; by rewrite Ho|]. apply agrees_set_off; [done|].
  split_and!; [done| |by rewrite Hc'|by rewrite Hm']. simpl. rewrite layers_set_length. done.
Qed.

(** *** All change sets together *)

Notation entry := (option (OverlayedChangeSet * ChildInfo)).

Lemma same_children s : set_children (children s) s = s.
Proof. by destruct s. Qed.

Lemma children_loop {E} (step : StorageKey -> M overlay E unit) (R : StorageKey -> entry -> entry -> Prop) keys s :
  NoDup keys ->
  (forall k s', k ∈ keys -> children s' !! k = children s !! k ->
     exists o, step k s' = (set_children (partial_alter (fun _ => o) k (children s')) s', Ok tt) /\
       R k (children s !! k) o) ->
  exists c, for_each step keys s = (set_children c s, Ok tt) /\
    (forall k, k ∈ keys -> R k (children s !! k) (c !! k)) /\
    (forall k, k ∉ keys -> c !! k = children s !! k).
Proof.
  intros Hnd. revert s. induction Hnd as [|k keys Hk Hnd IH]; intros s Hstep.
  { exists (children s). simpl. unfold ret. rewrite same_children. split_and!; [done|by intros k ?%not_elem_of_nil|done]. }
  destruct (Hstep k s) as (o & Hrun & Ho); [by left|done|].
  set (s1 := set_children (partial_alter (fun _ => o) k (children s)) s).
  assert (forall k', k' <> k -> children s1 !! k' = children s !! k') as Hne.
  { intros k' Hne. simpl. by rewrite lookup_partial_alter_ne. }
  destruct (IH s1) as (c & Hrun' & Hin & Hout).
  { intros k' s' Hk' Hs'. rewrite Hne by by intros ->. apply Hstep; [by right|]. rewrite Hs'.
    apply Hne. by intros ->. }
  exists c. cbn [for_each]. unfold bindM. rewrite Hrun. fold s1. rewrite Hrun'. split_and!; [done| |].
  - intros k' [->|Hk']%elem_of_cons.
    + rewrite Hout by done. simpl. by rewrite lookup_partial_alter_eq.
    + rewrite <- Hne by by intros ->. by apply Hin.
  - intros k' [Hne' Hk']%not_elem_of_cons. rewrite Hout by done. by apply Hne.
Qed.

Lemma for_children_ok {E E' : Type} (f : M OverlayedChangeSet E unit) (Q : StorageKey -> OverlayedChangeSet -> Prop) s :
  (forall k cs info, children s !! k = Some (cs, info) -> exists cs', f cs = (cs', Ok tt) /\ Q k cs') ->
  exists c, for_children iter_set (E' := E') f s = (set_children c s, Ok tt) /\
    forall k, match children s !! k with
              | None => c !! k = None
              | Some (_, info) => exists cs', c !! k = Some (cs', info) /\ Q k cs'
              end.
Proof.
  intros Hf. assert (forall k, k ∈ iter_set (dom (children s)) <-> is_Some (children s !! k)) as Hdom.
  { intros k. by rewrite iter_set_perm, elem_of_elements, elem_of_dom. }
  destruct (children_loop (fun key => on_child key (expectM (E' := E') f))
    (fun k o o' => match o with
                   | None => o' = None
                   | Some (_, info) => exists cs', o' = Some (cs', info) /\ Q k cs'
                   end) (iter_set (dom (children s))) s) as (c & Hrun & Hin & Hout).
  { rewrite iter_set_perm. apply NoDup_elements. }
  { intros k s' [[cs info] Hk]%Hdom Hs'. rewrite Hk in *. destruct (Hf _ _ _ Hk) as (cs' & Hcs & HQ).
    exists (Some (cs', info)). unfold on_child, expectM. rewrite Hs', Hcs. split; [done|by exists cs']. }
  exists c. split; [done|]. intros k. destruct (decide (k ∈ iter_set (dom (children s)))) as [Hk|Hk].
  - by apply Hin.
  - rewrite Hout by done. rewrite Hdom, <- eq_None_not_Some in Hk. by rewrite Hk.
Qed.

(** The parts of an overlay at a new view make up an overlay at it. *)
Lemma agrees_parts s v v' t c o :
  agrees s v -> v_collect v' = v_collect v -> implements t (top_spec v') ->
  (forall k, child_agrees v' (c !! k) k) -> off_agrees v' o ->
  agrees (set_offchain_map o (set_children c (set_top t s))) v'.
Proof. intros [_ _ _ Hcol] Hv' Ht Hc Ho. split; [done|done|done|]. by rewrite Hv'. Qed.

Lemma children_agree s v v' (c : gmap StorageKey (OverlayedChangeSet * ChildInfo)) :
  agrees s v ->
  (forall k, length (v_child v' k) = height v') ->
  (forall k, v_child v k = repeat ∅ (height v) -> v_child v' k = repeat ∅ (height v')) ->
  (forall k, match children s !! k with
             | None => c !! k = None
             | Some (_, info) => exists cs', c !! k = Some (cs', info) /\ implements cs' (child_spec v' k)
             end) ->
  forall k, child_agrees v' (c !! k) k.
Proof.
  intros Hs Hlen Hempty Hc k. specialize (Hc k). destruct (agrees_child _ _ Hs k) as [_ Hk].
  split; [done|]. destruct (children s !! k) as [[cs info]|].
  - destruct Hc as (cs' & -> & Hcs'). by destruct Hk.
  - rewrite Hc. by apply Hempty.
Qed.

Lemma child_height s v k : agrees s v -> length (v_child v k) = height v.
Proof. intros Hs. apply (agrees_child _ _ Hs k). Qed.

Lemma start_yields {E} s v :
  agrees s v ->
  yields (E := E) (overlay_start_transaction iter_set) s tt (view_all v (fun _ _ _ _ l => ∅ :: l)).
Proof.
  intros Hs. set (v' := view_all _ _).
  assert (forall m a, implements m a -> exists m', start_transaction (E := E) m = (m', Ok tt) /\
    implements m' (with_layers a (∅ :: spec_layers a))) as Hstart.
  { intros m a (Hov & Hc & Hmode & Hin). eexists. split; [done|]. split_and!; [by apply start_refines|done|done|].
    intros Hr. specialize (Hin Hr). unfold spec_depth in *. simpl. lia. }
  destruct (Hstart _ _ (agrees_top _ _ Hs)) as (t & Ht & Himp).
  destruct (for_children_ok (E := E) (E' := E) start_transaction (fun k cs => implements cs (child_spec v' k)) (set_top t s))
    as (c & Hrun & Hc).
  { intros k cs info Hk. destruct (agrees_child _ _ Hs k) as [_ Hk']. simpl in Hk. rewrite Hk in Hk'.
    apply (Hstart cs _ (proj2 Hk')). }
  destruct (agrees_off _ _ Hs) as (Hr & Hlen & Hcl & Hmo).
  eexists. unfold overlay_start_transaction, bindM, on_top. rewrite Ht, Hrun. split; [done|].
  eapply agrees_parts; [done|done|done| |].
  - eapply children_agree; [done| | |exact Hc].
    + intros k. simpl. by rewrite (child_height _ _ _ Hs).
    + intros k Hk. simpl. by rewrite Hk.
  - split_and!; [by apply represents_start|by simpl; rewrite Hlen|done|done].
Qed.

Lemma close_layers_length {K A} `{Countable K} rollback (l : layers K A) :
  1 < length l -> length (close_layers rollback l) = pred (length l).
Proof. destruct rollback, l as [|x [|y l]]; simpl; lia. Qed.

Lemma close_layers_empty rollback n :
  1 < n -> close_layers rollback (repeat ∅ n : storage_layers) = repeat ∅ (pred n).
Proof.
  destruct n as [|[|n]]; [lia|lia|]. intros _. destruct rollback; [done|]. simpl. by f_equal.
Qed.

Section close.
Context (rollback : bool) s v (Hs : agrees s v) (Hcl : view_closable v = true).
Notation v' := (view_all v (fun _ _ _ _ => close_layers rollback)).

Lemma view_tall : 1 < height v.
Proof. unfold view_closable in Hcl. by apply andb_prop in Hcl as [?%Nat.ltb_lt _]. Qed.

(** All change sets can close a transaction when the view says so. *)
Lemma implements_closable_view m ls :
  implements m (mkSpec ls (v_client v) (v_mode v)) -> length ls = height v -> closable m = true.
Proof.
  intros Hm Hlen. rewrite (implements_closable _ _ Hm). unfold view_closable in Hcl. unfold spec_depth, in_runtime.
  simpl. rewrite Hlen. pose proof view_tall. apply andb_prop in Hcl as [_ Hmode].
  rewrite (proj2 (Nat.ltb_lt 0 (pred (height v)))) by lia. by destruct (v_mode v).
Qed.

Lemma close_top :
  exists t, close_transaction iter_set rollback (top s) = (t, Ok tt) /\ implements t (top_spec v').
Proof.
  apply (close_implements iter_set iter_set_perm rollback (top s) (top_spec v) (agrees_top _ _ Hs)).
  by eapply implements_closable_view; [apply (agrees_top _ _ Hs)|].
Qed.

Lemma close_child k cs info :
  children s !! k = Some (cs, info) ->
  exists cs', close_transaction iter_set rollback cs = (cs', Ok tt) /\ implements cs' (child_spec v' k).
Proof.
  intros Hk. destruct (agrees_child _ _ Hs k) as [Hlen Hk']. rewrite Hk in Hk'. destruct Hk' as [_ Hcs].
  apply (close_implements iter_set iter_set_perm rollback cs _ Hcs). by eapply implements_closable_view.
Qed.

Lemma close_off :
  exists o, close_transaction_offchain iter_offchain rollback (offchain s) = (o, Ok tt) /\ off_agrees v' o.
Proof.
  destruct (agrees_off _ _ Hs) as (Hr & Hlen & Hc & Hm). rewrite close_transaction_offchain_eq.
  destruct (close_ok _ plain_rollback plain_commit iter_offchain iter_offchain_perm rollback _ _ Hr)
    as (o & -> & Hr' & Hd & Hc' & Hm').
  { pose proof view_tall. unfold closable, has_open_runtime_transactions. rewrite Hm, Hc.
    assert (transaction_depth (offchain s) = pred (height v)) as -> by (destruct Hr as [Hl _]; lia).
    unfold view_closable in Hcl. apply andb_prop in Hcl as [_ Hmode].
    rewrite (proj2 (Nat.ltb_lt 0 (pred (height v)))) by lia. by destruct (v_mode v). }
  exists o. split; [done|]. split_and!; [done| |by rewrite Hc'|by rewrite Hm']. unfold height. simpl.
  rewrite !close_layers_length by (rewrite ?Hlen; apply view_tall). by rewrite Hlen.
Qed.

Lemma close_child_heights k :
  length (v_child v' k) = height v' /\
  (v_child v k = repeat ∅ (height v) -> v_child v' k = repeat ∅ (height v')).
Proof.
  pose proof view_tall as Htall. pose proof (child_height s v k Hs) as Hlen. unfold height in *. simpl.
  rewrite !close_layers_length by lia. split; [by rewrite Hlen|]. intros ->. by rewrite close_layers_empty.
Qed.
End close.

Lemma commit_yields s v :
  agrees s v -> view_closable v = true ->
  yields (overlay_commit_transaction iter_set iter_offchain) s tt
    (view_all v (fun _ _ _ _ => close_layers false)).
Proof.
  intros Hs Hcl. set (v' := view_all _ _). destruct (close_top false s v Hs Hcl) as (t & Ht & Himp).
  destruct (for_children_ok (E' := NoOpenTransaction) (commit_transaction iter_set)
    (fun k cs => implements cs (child_spec v' k)) (set_top t s)) as (c & Hrun & Hc).
  { intros k cs info Hk. by apply (close_child false s v Hs Hcl k cs info). }
  destruct (close_off false s v Hs Hcl) as (o & Ho & Hoff).
  eexists. unfold overlay_commit_transaction, bindM, on_top, commit_transaction. rewrite Ht.
  unfold commit_transaction in Hrun. rewrite Hrun. unfold on_offchain, expectM, commit_transaction_offchain.
  simpl. rewrite Ho. split; [done|]. eapply agrees_parts; [done|done|done| |done].
  eapply children_agree; [done|..|exact Hc]; intros k; by apply (close_child_heights false s v Hs Hcl).
Qed.

(** Rolling back the child tries: those without changes are dropped. *)
Lemma rollback_children_ok s s1 v :
  agrees s v -> view_closable v = true -> children s1 = children s ->
  let v' := view_all v (fun _ _ _ _ => close_layers true) in
  exists c, for_each (rollback_child (E := NoOpenTransaction) iter_set) (iter_set (dom (children s))) s1 =
      (set_children c s1, Ok tt) /\
    forall k, child_agrees v' (c !! k) k.
Proof.
  intros Hs Hcl Hs1 v'. assert (forall k, k ∈ iter_set (dom (children s)) <-> is_Some (children s !! k)) as Hdom.
  { intros k. by rewrite iter_set_perm, elem_of_elements, elem_of_dom. }
  assert (forall k, length (v_child v' k) = height v' /\
    (v_child v k = repeat ∅ (height v) -> v_child v' k = repeat ∅ (height v'))) as Hh
    by apply (close_child_heights true s v Hs Hcl).
  destruct (children_loop (rollback_child (E := NoOpenTransaction) iter_set)
    (fun k _ o => child_agrees v' o k) (iter_set (dom (children s))) s1) as (c & Hrun & Hin & Hout).
  { rewrite iter_set_perm. apply NoDup_elements. }
  { intros k s' [[cs info] Hk]%Hdom Hs'. rewrite Hs1, Hk in Hs'.
    destruct (close_child true s v Hs Hcl k cs info Hk) as (cs' & Hrun & Himp).
    exists (if is_empty cs' then None else Some (cs', info)). split.
    - unfold rollback_child, bindM, on_child, expectM, rollback_transaction, modify_state.
      rewrite Hs', Hrun. simpl. rewrite lookup_insert_eq. destruct (is_empty cs'); [|done].
      unfold set_children. simpl. by rewrite delete_insert_eq.
    - destruct (agrees_child _ _ Hs k) as [_ Hk']. rewrite Hk in Hk'. split; [apply Hh|].
      destruct (is_empty cs') eqn:He; [|by destruct Hk'].
      unfold is_empty in He. apply bool_decide_eq_true in He.
      rewrite <- (proj1 (Hh k)). eapply represents_empty; [apply (proj1 Himp)|done]. }
  exists c. split; [done|]. intros k. destruct (decide (k ∈ iter_set (dom (children s)))) as [Hk|Hk].
  - by apply Hin.
  - rewrite Hout, Hs1 by done. rewrite Hdom, <- eq_None_not_Some in Hk. rewrite Hk. split; [apply Hh|].
    apply Hh. destruct (agrees_child _ _ Hs k) as [_ Hk']. by rewrite Hk in Hk'.
Qed.

Lemma rollback_yields s v :
  agrees s v -> view_closable v = true ->
  yields (overlay_rollback_transaction iter_set iter_offchain) s tt
    (view_all v (fun _ _ _ _ => close_layers true)).
Proof.
  intros Hs Hcl. unfold overlay_rollback_transaction.
  eapply yields_bind; [by apply mark_dirty_yields|]. clear s Hs. intros s Hs.
  destruct (close_top true s v Hs Hcl) as (t & Ht & Himp).
  destruct (rollback_children_ok s (set_top t s) v Hs Hcl eq_refl) as (c & Hrun & Hc).
  destruct (close_off true s v Hs Hcl) as (o & Ho & Hoff).
  unfold yields, bindM, on_top, rollback_transaction, get_state. rewrite Ht.
  eexists. simpl. rewrite Hrun. unfold on_offchain, expectM, rollback_transaction_offchain. simpl. rewrite Ho.
  split; [done|]. by eapply agrees_parts.
Qed.

(** No change set closes a transaction when the view refuses it. *)
Lemma close_refused_view rollback s v :
  agrees s v -> view_closable v = false ->
  close_transaction iter_set rollback (top s) = (top s, Err mkNoOpenTransaction).
Proof.
  intros Hs Hcl. rewrite close_transaction_eq. apply close_refused.
  rewrite (implements_closable _ _ (agrees_top _ _ Hs)). unfold view_closable in Hcl.
  unfold spec_depth, in_runtime. simpl. fold (height v).
  destruct (height v) as [|[|n]]; [done..|]. simpl in *. by destruct (v_mode v).
Qed.

Lemma set_top_id s : set_top (top s) s = s.
Proof. by destruct s. Qed.

Lemma close_conforms (rollback : bool) s v :
  agrees s v ->
  conforms (map_errM RefusedClose (if rollback then overlay_rollback_transaction iter_set iter_offchain
                                   else overlay_commit_transaction iter_set iter_offchain)) s v
    (let! r := view_close rollback v in Ok (fst r, tt)).
Proof.
  intros Hs. unfold view_close. destruct (view_closable v) eqn:Hcl; simpl; unfold map_errM.
  - destruct rollback.
    + destruct (rollback_yields s v Hs Hcl) as (s' & Hrun & Hs'). exists s'. by rewrite Hrun.
    + destruct (commit_yields s v Hs Hcl) as (s' & Hrun & Hs'). exists s'. by rewrite Hrun.
  - destruct rollback.
    + exists (set_cache None s). split; [|by apply agrees_cache].
      unfold overlay_rollback_transaction, mark_dirty, modify_state, bindM, on_top, rollback_transaction. simpl.
      by rewrite (close_refused_view true _ _ Hs Hcl).
    + exists s. split; [|done]. unfold overlay_commit_transaction, bindM, on_top, commit_transaction.
      rewrite (close_refused_view false _ _ Hs Hcl). by rewrite set_top_id.
Qed.

Lemma enter_conforms s v :
  agrees s v ->
  conforms (map_errM RefusedEnter (overlay_enter_runtime iter_set)) s v
    (let! r := spec_call CEnter v in Ok (fst r, tt)).
Proof.
  intros Hs. simpl. unfold map_errM. destruct (v_mode v) eqn:Hmode; simpl.
  - set (v' := mkView _ _ _ _ _ _).
    destruct (enter_implements _ _ (agrees_top _ _ Hs) Hmode) as (t & Ht & Himp).
    destruct (for_children_ok (E' := AlreadyInRuntime) enter_runtime
      (fun k cs => implements cs (child_spec v' k)) (set_top t s)) as (c & Hrun & Hc).
    { intros k cs info Hk. destruct (agrees_child _ _ Hs k) as [Hlen Hk']. simpl in Hk. rewrite Hk in Hk'.
      destruct (enter_implements cs _ (proj2 Hk') Hmode) as (cs' & Hcs & Hcs'). exists cs'. split; [done|].
      unfold spec_depth in Hcs'. simpl in Hcs'. by rewrite Hlen in Hcs'. }
    destruct (agrees_off _ _ Hs) as (Hr & Hlen & Hcl & Hmo).
    assert (transaction_depth (offchain s) = pred (height v)) as Hd by (destruct Hr as [Hl _]; lia).
    eexists. unfold overlay_enter_runtime, bindM, on_top. rewrite Ht, Hrun.
    unfold on_offchain, expectM, enter_runtime, bindM, get_state. simpl. rewrite Hmo, Hmode. split; [done|].
    eapply agrees_parts; [done|done|done| |by rewrite Hd; split_and!].
    eapply children_agree; [done| |done|exact Hc]. intros k. apply (child_height _ _ k Hs).
  - exists s. split; [|done]. unfold overlay_enter_runtime, bindM, on_top, enter_runtime, get_state. simpl.
    destruct (agrees_top _ _ Hs) as (_ & _ & Hm & _). simpl in Hm. unfold bindM. rewrite Hm, Hmode.
    simpl. by rewrite set_top_id.
Qed.

Lemma exit_conforms s v :
  agrees s v ->
  conforms (map_errM RefusedExit (overlay_exit_runtime iter_set iter_offchain)) s v
    (let! r := spec_call CExit v in Ok (fst r, tt)).
Proof.
  intros Hs. simpl. unfold map_errM. destruct (v_mode v) eqn:Hmode; simpl.
  { exists s. split; [|done]. unfold overlay_exit_runtime, exit_runtime, exit_runtime_with, bindM, on_top, get_state.
    destruct (agrees_top _ _ Hs) as (_ & _ & Hm & _). simpl in Hm. rewrite Hm, Hmode.
    simpl. by rewrite set_top_id. }
  set (v' := mkView _ _ _ _ _ _).
  destruct (exit_implements iter_set iter_set_perm _ _ (agrees_top _ _ Hs) Hmode) as (t & Ht & Himp).
  destruct (for_children_ok (E' := NotInRuntime) (exit_runtime iter_set)
    (fun k cs => implements cs (child_spec v' k)) (set_top t s)) as (c & Hrun & Hc).
  { intros k cs info Hk. destruct (agrees_child _ _ Hs k) as [Hlen Hk']. simpl in Hk. rewrite Hk in Hk'.
    destruct (exit_implements iter_set iter_set_perm cs _ (proj2 Hk') Hmode) as (cs' & Hcs & Hcs').
    exists cs'. split; [done|]. unfold spec_depth in Hcs'. simpl in Hcs'. by rewrite Hlen in Hcs'. }
  destruct (agrees_off _ _ Hs) as (Hr & Hlen & Hcl & Hmo). rewrite Hmode in Hmo.
  assert (transaction_depth (offchain s) = pred (height v)) as Hd by (destruct Hr as [Hl _]; lia).
  assert (v_client v <= pred (height v)) as Hle.
  { destruct (agrees_top _ _ Hs) as (_ & _ & _ & Hin). apply Hin. unfold in_runtime. simpl. by rewrite Hmode. }
  destruct (exit_runtime_ok _ plain_rollback plain_commit iter_offchain iter_offchain_perm _ _ Hr Hmo)
    as (o & Ho & Hmo' & Hcl' & Hd' & Hr'); [lia|].
  unfold unwound in *. eexists.
  unfold overlay_exit_runtime, bindM, on_top. rewrite Ht, Hrun.
  unfold on_offchain, expectM, exit_runtime_offchain. simpl.
  rewrite (exit_runtime_ext _ (close_with plain_rollback plain_commit iter_offchain true))
    by apply close_transaction_offchain_eq.
  rewrite Ho. split; [done|]. rewrite Hd, Hcl in Hr'. eapply agrees_parts; [done|done|done| |].
  - eapply children_agree; [done|..|exact Hc]; intros k; unfold height; simpl; rewrite ?length_drop.
    + by rewrite (child_height _ _ k Hs).
    + intros ->. unfold height. generalize (pred (length (v_top v)) - v_client v) as i.
      generalize (length (v_top v)) as n. induction n as [|n IH]; intros [|i]; by simpl.
  - split_and!; [done| |by rewrite Hcl'|done]. unfold height. simpl. rewrite !length_drop. by rewrite Hlen.
Qed.

(** ** The overlay as a machine *)

Lemma conforms_done (m : M overlay refusal unit) s v spec (spec' : outcome refusal (view * reply)) :
  conforms m s v spec -> (let! r := spec in Ok (fst r, RUnit)) = spec' -> conforms (done_with m) s v spec'.
Proof. intros Hm <-. apply (conforms_map (fun _ => RUnit) m s v spec Hm). Qed.

Lemma conforms_count (m : M overlay refusal N) s v spec (spec' : outcome refusal (view * reply)) :
  conforms m s v spec -> (let! r := spec in Ok (fst r, RCount (snd r))) = spec' ->
  conforms (let* n := m in ret (RCount n)) s v spec'.
Proof. intros Hm <-. apply (conforms_map RCount m s v spec Hm). Qed.

Lemma call_conforms c s v : agrees s v -> conforms (perform c) s v (spec_call c v).
Proof.
  intros Hs. destruct c; unfold perform.
  - eapply conforms_done; [by apply set_storage_conforms|done].
  - eapply conforms_done; [by apply append_storage_conforms|]. simpl. by destruct (appended _ _).
  - eapply conforms_bind; [by apply storage_yields|]. intros s' Hs'. by exists s'.
  - eapply conforms_count; [by apply clear_prefix_conforms|]. simpl. by destruct (count_up _ _).
  - eapply conforms_done; [by apply set_child_storage_conforms|done].
  - eapply conforms_bind; [by apply child_storage_yields|]. intros s' Hs'. by exists s'.
  - eapply conforms_count; [by apply (clear_child_conforms info (fun _ => true))|]. simpl. by destruct (count_up _ _).
  - eapply conforms_count; [by apply clear_child_conforms|]. simpl. by destruct (count_up _ _).
  - destruct val; (eapply conforms_done; [by apply set_offchain_conforms|done]).
  - eapply conforms_done with (spec := Ok (v, tt)); [|done].
    eexists. split; [done|]. by apply agrees_index.
  - eapply conforms_done with (spec := Ok (_, tt)); [by apply start_yields|done].
  - eapply conforms_done; [apply (close_conforms false s v Hs)|]. simpl. unfold view_close. by destruct (view_closable v).
  - eapply conforms_done; [apply (close_conforms true s v Hs)|]. simpl. unfold view_close. by destruct (view_closable v).
  - eapply conforms_done; [by apply enter_conforms|]. simpl. by destruct (v_mode v).
  - eapply conforms_done; [by apply exit_conforms|]. simpl. by destruct (v_mode v).
Qed.

(** A sequence of calls, up to the first panic, and what each of them returned. *)
Fixpoint perform_all (cs : list call) s : overlay * list (outcome refusal reply) :=
  match cs with
  | [] => (s, [])
  | c :: cs' =>
      match perform c s with
      | (s', Ok r) => let '(s'', l) := perform_all cs' s' in (s'', Ok r :: l)
      | (s', Err e) => let '(s'', l) := perform_all cs' s' in (s'', Err e :: l)
      | (s', r) => (s', [r])
      end
  end.

Fixpoint spec_all (cs : list call) v : option view * list (outcome refusal reply) :=
  match cs with
  | [] => (Some v, [])
  | c :: cs' =>
      match spec_call c v with
      | Ok (v', r) => let '(v'', l) := spec_all cs' v' in (v'', Ok r :: l)
      | Err e => let '(v'', l) := spec_all cs' v in (v'', Err e :: l)
      | Panic => (None, [Panic])
      | Diverge => (None, [Diverge])
      end
  end.

Lemma calls_conform cs s v :
  agrees s v ->
  (perform_all cs s).2 = (spec_all cs v).2 /\
  forall v', (spec_all cs v).1 = Some v' -> agrees (perform_all cs s).1 v'.
Proof.
  revert s v. induction cs as [|c cs IH]; intros s v Hs; simpl.
  { split; [done|]. by intros v' [= <-]. }
  pose proof (call_conforms c s v Hs) as Hc. destruct (spec_call c v) as [[v1 r]|e| |]; simpl in Hc.
  - destruct Hc as (s1 & -> & Hs1). destruct (IH s1 v1 Hs1) as [Hl Hv].
    destruct (perform_all cs s1), (spec_all cs v1). simpl in *. split; [by f_equal|done].
  - destruct Hc as (s1 & -> & Hs1). destruct (IH s1 v Hs1) as [Hl Hv].
    destruct (perform_all cs s1), (spec_all cs v). simpl in *. split; [by f_equal|done].
  - destruct (perform c s) as [s1 x]. simpl in Hc. by subst x.
  - done.
Qed.

(** The view of a new overlay. *)
Definition empty_view : view := mkView [∅] (fun _ => [∅]) [∅] 0 Client false.

Lemma default_agrees : agrees default_overlay empty_view.
Proof.
  split; [|done| |done].
  - split_and!; [apply (empty_overlay 0)|done|done|done].
  - split_and!; [|done..]. split; [done|]. intros k. split; [by exists false|done].
Qed.

End spec.
