(* ===== verification/OverlayRoot.v ===== *)
(** * The cached storage root

    The overlay remembers the root it computed last. It is the root of the changes as
    the current transaction sees them as long as the calls that change them reset the
    cache; two calls do not. *)

From S2P Require Import Prelude Changeset ChangesetLayers ChangesetSpec Overlay OverlaySpec.

Set Default Proof Using "Type*".

Create HintDb root.

(** ** The changes in the order of their keys *)

Lemma bytes_leb_total a b : bytes_leb a b = false -> bytes_leb b a = true.
Proof.
  revert b. induction a as [|x a IH]; intros [|y b]; simpl; try done.
  destruct (N.ltb_spec x y), (N.eqb_spec x y), (N.ltb_spec y x), (N.eqb_spec y x); simpl; try lia; try done.
  apply IH.
Qed.

Lemma bytes_leb_trans a b c : bytes_leb a b = true -> bytes_leb b c = true -> bytes_leb a c = true.
Proof.
  revert b c. induction a as [|x a IH]; intros [|y b] [|z c]; simpl; try done.
  destruct (N.ltb_spec x y), (N.eqb_spec x y), (N.ltb_spec y z), (N.eqb_spec y z), (N.ltb_spec x z), (N.eqb_spec x z);
    simpl; try lia; try done. apply IH.
Qed.

Lemma bytes_leb_antisym a b : bytes_leb a b = true -> bytes_leb b a = true -> a = b.
Proof.
  revert b. induction a as [|x a IH]; intros [|y b]; simpl; try done.
  destruct (N.ltb_spec x y), (N.eqb_spec x y), (N.ltb_spec y x), (N.eqb_spec y x); simpl; try lia; try done.
  subst. intros. f_equal. by apply IH.
Qed.

(** What the layers say of every key they know. *)
Definition delta_spec (ls : layers StorageKey (option StorageValue)) : delta :=
  map (fun k => (k, default None (fst <$> visible ls k))) (sort_by bytes_leb (elements (known ls))).

Section root.
Context {P : Profile} {C : Compact} {L : CompactLaws} {Out Tx BErr : Type} {B : Backend Out Tx BErr}.
Context (u32_decode : bytes -> option N).
Context (iter_set : gset StorageKey -> list StorageKey) (iter_set_perm : forall s, iter_set s ≡ₚ elements s).
Context (iter_offchain : gset OffchainKey -> list OffchainKey)
  (iter_offchain_perm : forall s, iter_offchain s ≡ₚ elements s).
Notation overlay := (OverlayedChanges Out Tx).
Implicit Types (s : OverlayedChanges Out Tx) (m : OverlayedChangeSet) (a : spec_state) (v : view)
  (ls : layers StorageKey (option StorageValue)) (key : StorageKey) (info : ChildInfo).

Lemma changes_iter_keys m ls :
  ChangesetSpec.overlay m ls -> map fst (changes_iter m) = sort_by bytes_leb (elements (known ls)).
Proof.
  intros Hm. transitivity (sort_by bytes_leb (map fst (map_to_list (changes m)))).
  { unfold changes_iter, btree_iter. by rewrite (sort_by_map fst (fun x y => bytes_leb x.1 y.1)). }
  apply sort_by_unique; [apply bytes_leb_total|apply bytes_leb_trans|apply bytes_leb_antisym|].
  rewrite <- (represents_keys _ _ _ Hm). unfold changes_iter, btree_iter. by rewrite sort_by_perm.
Qed.

Lemma values_of_ok {E} keys m a :
  implements m a -> Forall (fun k => is_Some (visible (spec_layers a) k)) keys ->
  exists m', values_of (E := E) keys m =
      (m', Ok (map (fun k => (k, default None (fst <$> visible (spec_layers a) k))) keys)) /\
    implements m' a.
Proof.
  intros Hm Hkeys. revert m Hm. induction Hkeys as [|k keys [x Hk] Hkeys IH]; intros m Hm; [by exists m|].
  destruct (get_refines (E := E) k m _ (proj1 Hm)) as (m1 & Hget & Hm1 & Hf & _).
  destruct (IH m1) as (m' & Hrun & Hm'); [by eapply implements_frame|].
  exists m'. simpl. unfold bindM, ret. rewrite Hget, Hrun, Hk. done.
Qed.

Lemma visible_known ls k : k ∈ known ls <-> is_Some (visible ls k).
Proof.
  rewrite elem_of_known. unfold visible. destruct (somes (column ls k)); simpl.
  - split; [done|by intros [? ?]].
  - split; [by eauto|done].
Qed.

Lemma delta_of_ok {E} m a :
  implements m a ->
  exists m', delta_of (E := E) m = (m', Ok (delta_spec (spec_layers a))) /\ implements m' a.
Proof.
  intros Hm. unfold delta_of, bindM, get_state. rewrite (changes_iter_keys m _ (proj1 Hm)).
  apply (values_of_ok _ _ _ Hm). apply Forall_forall. intros k. rewrite sort_by_perm, elem_of_elements.
  apply visible_known.
Qed.

(** ** The root *)

(** What the child tries contribute; [keys] are those with a change set. *)
Definition child_deltas_spec (keys : list StorageKey) v : list (ChildInfo * delta) :=
  map (fun k => (ParentKeyId k, delta_spec (v_child v k))) keys.

Definition root_spec (keys : gset StorageKey) v (ver : StateVersion) : Out * Tx :=
  full_storage_root (delta_spec (v_top v)) (child_deltas_spec (iter_set keys) v) ver.

Lemma child_deltas_ok {E} keys s v :
  agrees s v -> Forall (fun k => k ∈ dom (children s)) keys ->
  exists s', child_deltas (E := E) keys s = (s', Ok (child_deltas_spec keys v)) /\ agrees s' v /\
    dom (children s') = dom (children s) /\ storage_transaction_cache s' = storage_transaction_cache s.
Proof.
  intros Hs Hkeys. revert s Hs Hkeys. induction keys as [|k keys IH]; intros s Hs Hkeys; [by exists s|].
  inversion_clear Hkeys as [|? ? Hk Hkeys']. apply elem_of_dom in Hk as [[cs info] Hk].
  pose proof (agrees_child _ _ Hs k) as [_ Hc]. rewrite Hk in Hc. destruct Hc as [Hkey Himp].
  destruct (delta_of_ok (E := E) cs _ Himp) as (cs' & Hd & Himp').
  set (s1 := set_children (<[k := (cs', info)]> (children s)) s).
  assert (dom (children s1) = dom (children s)) as Hdom.
  { simpl. apply dom_insert_lookup_L. by eauto. }
  destruct (IH s1) as (s' & Hrun & Hs' & Hdom' & Hcache).
  { by apply agrees_same_child. }
  { by rewrite Hdom. }
  exists s'. simpl. unfold bindM, get_state, ret, on_child. rewrite Hk, Hd. fold s1. rewrite Hrun.
  destruct info as [d]. simpl in Hkey. subst d. split_and!; [done|done|by rewrite Hdom', Hdom|done].
Qed.

Lemma compute_root_ok {E} ver s v :
  agrees s v ->
  exists s', compute_root (E := E) iter_set ver s =
      (s', Ok (fst (root_spec (dom (children s)) v ver), false)) /\ agrees s' v /\
    dom (children s') = dom (children s) /\
    storage_transaction_cache s' =
      Some (mkCache (snd (root_spec (dom (children s)) v ver)) (fst (root_spec (dom (children s)) v ver)) ver).
Proof.
  intros Hs. destruct (delta_of_ok (E := E) (top s) _ (agrees_top _ _ Hs)) as (t & Hd & Himp).
  assert (agrees (set_top t s) v) as Hs1.
  { rewrite <- (view_top_id v) at 1. by apply agrees_set_top. }
  destruct (child_deltas_ok (E := E) (iter_set (dom (children s))) _ v Hs1) as (s2 & Hc & Hs2 & Hdom & _).
  { apply Forall_forall. intros k. by rewrite iter_set_perm, elem_of_elements. }
  unfold compute_root, bindM, on_top, get_state, modify_state, ret. rewrite Hd. simpl in Hc. simpl. rewrite Hc.
  unfold root_spec. simpl. destruct (full_storage_root _ _ _) as [root tx].
  eexists. split; [done|]. split_and!; [by apply agrees_cache|done|done].
Qed.

(** The cached root is the one that would be computed now. *)
Definition cache_valid s v : Prop :=
  forall c, storage_transaction_cache s = Some c ->
    (transaction_storage_root c, transaction c) = root_spec (dom (children s)) v (state_version c).

Lemma storage_root_ok {E} ver s v :
  agrees s v -> cache_valid s v ->
  exists s' cached, storage_root (E := E) iter_set ver s =
      (s', Ok (fst (root_spec (dom (children s)) v ver), cached)) /\ agrees s' v /\ cache_valid s' v.
Proof.
  intros Hs Hc. destruct (compute_root_ok (E := E) ver s v Hs) as (s' & Hrun & Hs' & Hdom & Hcache).
  assert (cache_valid s' v) as Hc'.
  { intros c Hcs. rewrite Hcache in Hcs. injection Hcs as <-. simpl. rewrite Hdom. by destruct (root_spec _ _ _). }
  unfold storage_root, bindM, get_state. destruct (storage_transaction_cache s) as [c|] eqn:Hcs.
  - case_decide as Hv; [|by exists s', false]. exists s, true. split_and!; [|done|done].
    unfold ret. rewrite <- Hv, <- (Hc c Hcs). done.
  - by exists s', false.
Qed.

(** ** Calls that leave the cache alone, and calls that reset it *)

Definition inert {E A} (m : M overlay E A) : Prop :=
  forall s, storage_transaction_cache (m s).1 = storage_transaction_cache s.
Definition resets {E A} (m : M overlay E A) : Prop :=
  forall s, storage_transaction_cache (m s).1 = None.
Definition keeps_children {E A} (m : M overlay E A) : Prop :=
  forall s, dom (children (m s).1) = dom (children s).

Lemma inert_bind {E A A'} (m : M overlay E A) (k : A -> M overlay E A') :
  inert m -> (forall r, inert (k r)) -> inert (bindM m k).
Proof.
  intros Hm Hk s. unfold bindM. specialize (Hm s). destruct (m s) as [s1 [r| | |]]; simpl in *; try done.
  by rewrite Hk.
Qed.

Lemma keeps_bind {E A A'} (m : M overlay E A) (k : A -> M overlay E A') :
  keeps_children m -> (forall r, keeps_children (k r)) -> keeps_children (bindM m k).
Proof.
  intros Hm Hk s. unfold bindM. specialize (Hm s). destruct (m s) as [s1 [r| | |]]; simpl in *; try done.
  by rewrite Hk.
Qed.

Lemma resets_bind {E A} (k : unit -> M overlay E A) :
  (forall r, inert (k r)) -> resets (let* r := mark_dirty in k r).
Proof. intros Hk s. unfold bindM, mark_dirty, modify_state. by rewrite Hk. Qed.

Lemma inert_get {E} : inert (E := E) get_state.
Proof. done. Qed.
Lemma inert_ret {E A} (r : A) : inert (E := E) (ret r).
Proof. done. Qed.
Lemma inert_lift {E A} (o : outcome E A) : inert (lift o).
Proof. done. Qed.
Lemma inert_on_top {E A} (f : M OverlayedChangeSet E A) : inert (on_top f).
Proof. intros s. unfold on_top. by destruct (f (top s)). Qed.
Lemma inert_on_offchain {E A} (f : M OffchainOverlayedChanges E A) : inert (on_offchain f).
Proof. intros s. unfold on_offchain. by destruct (f (offchain s)). Qed.
Lemma inert_on_child {E A} key (f : M OverlayedChangeSet E A) : inert (on_child key f).
Proof. intros s. unfold on_child. destruct (children s !! key) as [[cs info]|]; [|done]. by destruct (f cs). Qed.
Lemma inert_tally {E} n : inert (E := E) (tally_write n).
Proof. done. Qed.
Lemma inert_child_entry {E} info : inert (E := E) (child_entry info).
Proof. intros s. unfold child_entry, bindM, get_state, put_state. by destruct (default _ _). Qed.

Lemma keeps_on_top {E A} (f : M OverlayedChangeSet E A) : keeps_children (on_top f).
Proof. intros s. unfold on_top. by destruct (f (top s)). Qed.
Lemma keeps_on_offchain {E A} (f : M OffchainOverlayedChanges E A) : keeps_children (on_offchain f).
Proof. intros s. unfold on_offchain. by destruct (f (offchain s)). Qed.
Lemma keeps_on_child {E A} key (f : M OverlayedChangeSet E A) : keeps_children (on_child key f).
Proof.
  intros s. unfold on_child. destruct (children s !! key) as [[cs info]|] eqn:Hk; [|done].
  destruct (f cs). simpl. apply dom_insert_lookup_L. by eauto.
Qed.

Hint Resolve inert_bind inert_get inert_ret inert_lift inert_on_top inert_on_offchain inert_on_child
  inert_tally inert_child_entry keeps_bind keeps_on_top keeps_on_offchain keeps_on_child : root.

Lemma inert_for_each {E A} (f : A -> M overlay E unit) l : (forall x, inert (f x)) -> inert (for_each f l).
Proof. intros Hf. induction l as [|x l IH]; simpl; auto with root. Qed.
Lemma keeps_for_each {E A} (f : A -> M overlay E unit) l :
  (forall x, keeps_children (f x)) -> keeps_children (for_each f l).
Proof. intros Hf. induction l as [|x l IH]; simpl; auto with root. by intros s. Qed.

Lemma inert_storage {E} key : inert (E := E) (storage key).
Proof. apply inert_bind; [auto with root|]. by intros [r|] s. Qed.
Lemma inert_extrinsic_index {E} : inert (E := E) (extrinsic_index u32_decode).
Proof. apply inert_bind; [done|]. intros s. destruct (collect_extrinsics s); auto using inert_storage with root. Qed.
Hint Resolve inert_for_each keeps_for_each inert_storage inert_extrinsic_index : root.

(** Calls after which a cached root would not be reset although it may change. *)
Definition forgets_cache (c : call) : bool :=
  match c with CAppend _ _ _ | CExit => true | _ => false end.

Definition marks_dirty (c : call) : bool :=
  match c with
  | CSet _ _ | CClearPrefix _ | CSetChild _ _ _ | CClearChild _ | CClearChildPrefix _ _ | CRollback => true
  | _ => false
  end.

Notation perform := (perform (Out := Out) (Tx := Tx) u32_decode iter_set iter_offchain).

Lemma resets_map {E A A'} (m : M overlay E A) (k : A -> M overlay E A') :
  resets m -> (forall r, inert (k r)) -> resets (bindM m k).
Proof.
  intros Hm Hk s. unfold bindM. specialize (Hm s). destruct (m s) as [s1 [r| | |]]; simpl in *; try done.
  by rewrite Hk.
Qed.

Lemma resets_map_err {E E' A} (f : E -> E') (m : M overlay E A) : resets m -> resets (map_errM f m).
Proof. intros Hm s. unfold map_errM. specialize (Hm s). by destruct (m s). Qed.
Lemma inert_map_err {E E' A} (f : E -> E') (m : M overlay E A) : inert m -> inert (map_errM f m).
Proof. intros Hm s. unfold map_errM. specialize (Hm s). by destruct (m s). Qed.
Lemma keeps_map_err {E E' A} (f : E -> E') (m : M overlay E A) : keeps_children m -> keeps_children (map_errM f m).
Proof. intros Hm s. unfold map_errM. specialize (Hm s). by destruct (m s). Qed.
Hint Resolve resets_map resets_map_err inert_map_err keeps_map_err : root.

Lemma inert_rollback_child {E} key : inert (E := E) (rollback_child iter_set key).
Proof.
  apply inert_bind; [auto with root|]. intros _ s. simpl.
  destruct (children s !! key) as [[cs info]|]; [|done]. by destruct (is_empty cs).
Qed.
Hint Resolve inert_rollback_child : root.

Lemma marks_dirty_resets c : marks_dirty c = true -> resets (perform c).
Proof.
  destruct c; try done; intros _; simpl; unfold done_with; (apply resets_map; [|by intros r s]);
    try apply resets_map_err; apply resets_bind; auto 10 with root.
Qed.

Lemma keeps_ret {E A} (r : A) : keeps_children (E := E) (ret r).
Proof. done. Qed.
Lemma keeps_get {E} : keeps_children (E := E) get_state.
Proof. done. Qed.
Lemma keeps_tally {E} n : keeps_children (E := E) (tally_write n).
Proof. done. Qed.
Lemma keeps_storage {E} key : keeps_children (E := E) (storage key).
Proof. apply keeps_bind; [auto with root|]. by intros [r|] s. Qed.
Lemma keeps_extrinsic_index {E} : keeps_children (E := E) (extrinsic_index u32_decode).
Proof.
  apply keeps_bind; [done|]. intros s. destruct (collect_extrinsics s); auto using keeps_storage, keeps_ret with root.
Qed.
Hint Resolve keeps_ret keeps_get keeps_tally keeps_storage keeps_extrinsic_index : root.

Lemma child_storage_quiet {E} info key :
  inert (E := E) (child_storage info key) /\ keeps_children (E := E) (child_storage info key).
Proof.
  unfold child_storage. split.
  - apply inert_bind; [done|]. intros s. destruct (children s !! _); [|done].
    apply inert_bind; [auto with root|]. by intros [r|].
  - apply keeps_bind; [done|]. intros s. destruct (children s !! _); [|done].
    apply keeps_bind; [auto with root|]. by intros [r|].
Qed.

(** The other calls do not touch the cache, nor which child tries there are. *)
Lemma quiet_call c : marks_dirty c = false -> inert (perform c) /\ keeps_children (perform c).
Proof.
  destruct c; try done; intros _; simpl;
    unfold done_with, overlay_append_storage, overlay_start_transaction, overlay_commit_transaction,
      overlay_enter_runtime, overlay_exit_runtime, for_children;
    try (destruct val; simpl); try (by split); try (by split; auto 20 with root).
  split; [apply inert_bind|apply keeps_bind]; auto with root; apply child_storage_quiet.
Qed.

Lemma delta_spec_ext ls ls' :
  (forall k, fst <$> visible ls' k = fst <$> visible ls k) -> delta_spec ls' = delta_spec ls.
Proof.
  intros Hv. unfold delta_spec. assert (known ls' = known ls) as ->.
  { apply set_eq. intros k. rewrite !visible_known. specialize (Hv k).
    destruct (visible ls' k), (visible ls k); simpl in *; try done; split; intros; by eauto. }
  apply map_ext. intros k. by rewrite Hv.
Qed.

Lemma visible_commit ls k : fst <$> visible (layers_commit ls) k = fst <$> visible ls k.
Proof.
  unfold visible. rewrite column_layers_commit. destruct ls as [|l [|l' ls]]; simpl; [done..|].
  by destruct (l !! k), (l' !! k).
Qed.

(** A call that leaves the cache alone leaves what it was computed from alone. *)
Lemma quiet_view c v v' r keys ver :
  marks_dirty c = false -> forgets_cache c = false -> spec_call u32_decode c v = Ok (v', r) ->
  root_spec keys v' ver = root_spec keys v ver.
Proof.
  intros Hd Hf. unfold root_spec, child_deltas_spec.
  enough (spec_call u32_decode c v = Ok (v', r) ->
    delta_spec (v_top v') = delta_spec (v_top v) /\
    forall k, delta_spec (v_child v' k) = delta_spec (v_child v k)) as Henough.
  { intros Hc. destruct (Henough Hc) as [-> Hk]. f_equal. apply map_ext. intros k. by rewrite Hk. }
  destruct c; try done; simpl.
  - by intros [= <- _].
  - by intros [= <- _].
  - by intros [= <- _].
  - by intros [= <- _].
  - intros [= <- _]. simpl. split; intros; apply delta_spec_ext; intros k'; unfold visible; simpl;
      by rewrite lookup_empty.
  - unfold view_close. destruct (view_closable v); [|done]. intros [= <- _]. simpl.
    split; intros; apply delta_spec_ext; intros k'; apply visible_commit.
  - destruct (v_mode v); [|done]. by intros [= <- _].
Qed.

Lemma cache_valid_call c s v s' x :
  agrees s v -> cache_valid s v -> forgets_cache c = false -> perform c s = (s', x) -> x <> Panic ->
  exists v', agrees s' v' /\ cache_valid s' v'.
Proof.
  intros Hs Hc Hf Hrun Hx.
  pose proof (call_conforms u32_decode iter_set iter_set_perm iter_offchain iter_offchain_perm c s v Hs) as Hcall.
  assert (forall v', (marks_dirty c = false -> forall keys ver, root_spec keys v' ver = root_spec keys v ver) ->
    cache_valid s' v') as Hvalid.
  { intros v' Hroot c' Hc'. destruct (marks_dirty c) eqn:Hd.
    - pose proof (marks_dirty_resets c Hd s) as Hnone. rewrite Hrun in Hnone. simpl in Hnone. congruence.
    - destruct (quiet_call c Hd) as [Hin Hkeep]. specialize (Hin s). specialize (Hkeep s).
      rewrite Hrun in Hin, Hkeep. simpl in *. rewrite Hkeep, Hroot by done. apply Hc. congruence. }
  unfold conforms, yields in Hcall. rewrite Hrun in Hcall.
  destruct (spec_call u32_decode c v) as [[v' r]|e| |] eqn:Hspec.
  - destruct Hcall as (s1 & [= <- ->] & Hs1). exists v'. split; [done|]. apply Hvalid. intros Hd keys ver.
    by eapply quiet_view.
  - destruct Hcall as (s1 & [= <- ->] & Hs1). exists v. split; [done|]. by apply Hvalid.
  - done.
  - done.
Qed.

(** The states reached by calls other than the two that forget the cache, with
    storage roots computed in between. *)
Inductive reached : overlay -> Prop :=
| reached_new : reached default_overlay
| reached_call c s s' x :
    reached s -> forgets_cache c = false -> perform c s = (s', x) -> x <> Panic -> reached s'
| reached_root ver s s' (x : outcome refusal (Out * bool)) :
    reached s -> storage_root iter_set ver s = (s', x) -> reached s'.

Lemma reached_all cs s :
  reached s -> forallb (fun c => negb (forgets_cache c)) cs = true ->
  Panic ∉ (perform_all u32_decode iter_set iter_offchain cs s).2 ->
  reached (perform_all u32_decode iter_set iter_offchain cs s).1.
Proof.
  revert s. induction cs as [|c cs IH]; intros s Hs; simpl; [done|].
  intros [Hc%negb_true_iff Hcs]%andb_prop. destruct (perform c s) as [s1 x] eqn:Hrun.
  assert (x <> Panic -> reached s1) as Hs1 by (intros; by eapply reached_call).
  specialize (IH s1). destruct x as [r|e| |];
    [..|by intros Hp; exfalso; apply Hp; left|by intros _; apply Hs1];
    destruct (perform_all _ _ _ cs s1) as [s2 l]; simpl in *; intros [_ Hp]%not_elem_of_cons; auto.
Qed.

Lemma reached_valid s : reached s -> exists v, agrees s v /\ cache_valid s v.
Proof.
  induction 1 as [|c s s' x _ (v & Hs & Hc) Hf Hrun Hx|ver s s' x _ (v & Hs & Hc) Hrun].
  - exists empty_view. split; [apply default_agrees|done].
  - by eapply cache_valid_call.
  - destruct (storage_root_ok (E := refusal) ver s v Hs Hc) as (s1 & b & Hrun' & Hs1 & Hc1).
    exists v. by rewrite Hrun in Hrun'; injection Hrun' as -> _.
Qed.

(** C9: in such a state [storage_root] returns the root of the changes as the
    current transaction sees them, whether it comes from the cache or not. *)
Theorem storage_root_current ver s :
  reached s ->
  exists v s' cached, agrees s v /\
    storage_root (E := refusal) iter_set ver s = (s', Ok (fst (root_spec (dom (children s)) v ver), cached)) /\
    agrees s' v.
Proof.
  intros (v & Hs & Hc)%reached_valid.
  destruct (storage_root_ok (E := refusal) ver s v Hs Hc) as (s' & b & Hrun & Hs' & _). by exists v, s', b.
Qed.

Lemma storage_root_caches {E} ver s v s1 root b :
  agrees s v -> storage_root (E := E) iter_set ver s = (s1, Ok (root, b)) ->
  agrees s1 v /\ exists tx, storage_transaction_cache s1 = Some (mkCache tx root ver).
Proof.
  intros Hs. destruct (compute_root_ok (E := E) ver s v Hs) as (s' & Hrun & Hs' & _ & Hcache).
  unfold storage_root, bindM, get_state, ret. destruct (storage_transaction_cache s) as [[tx r ver']|] eqn:Hc.
  - simpl. case_decide as Hv; [|rewrite Hrun; intros [= <- <- _]; by eauto].
    intros [= <- <- _]. subst ver'. by eauto.
  - rewrite Hrun. intros [= <- <- _]. by eauto.
Qed.

(** C10: after [append_storage], and after [exit_runtime], a root computed before is
    still returned from the cache, although the changes are now those of the new
    view: the appended element is there, the layers left open are gone. *)
Theorem root_not_refreshed c ver s v s1 root b s2 r :
  agrees s v -> storage_root (E := refusal) iter_set ver s = (s1, Ok (root, b)) ->
  forgets_cache c = true -> perform c s1 = (s2, Ok r) ->
  storage_root (E := refusal) iter_set ver s2 = (s2, Ok (root, true)) /\
  exists v', spec_call u32_decode c v = Ok (v', r) /\ agrees s2 v'.
Proof.
  intros Hs Hroot Hf Hrun. destruct (storage_root_caches _ _ _ _ _ _ Hs Hroot) as [Hs1 [tx Hc]]. split.
  - assert (storage_transaction_cache s2 = Some (mkCache tx root ver)) as Hc2.
    { rewrite <- Hc. destruct (quiet_call c) as [Hin _]; [by destruct c|]. specialize (Hin s1). by rewrite Hrun in Hin. }
    unfold storage_root, bindM, get_state, ret. rewrite Hc2. simpl. by rewrite decide_True.
  - pose proof (call_conforms u32_decode iter_set iter_set_perm iter_offchain iter_offchain_perm c s1 v Hs1) as Hcall.
    unfold conforms, yields in Hcall. rewrite Hrun in Hcall.
    destruct (spec_call u32_decode c v) as [[v' r']|e| |]; simpl in Hcall; try done.
    + destruct Hcall as (s3 & [= <- <-] & Hs3). by exists v'.
    + by destruct Hcall as (s3 & ? & _).
Qed.

(** ** Draining the changes *)

Lemma traverse_map {E A A'} (f : A -> outcome E A') (g : A -> A') l :
  (forall x, x ∈ l -> f x = Ok (g x)) -> traverse f l = Ok (map g l).
Proof.
  induction l as [|x l IH]; intros Hf; simpl; [done|]. rewrite Hf by by left. simpl.
  rewrite IH by (intros; apply Hf; by right). done.
Qed.

Lemma drained_ok {E} m a :
  implements m a -> length (spec_layers a) = 1 -> drained (E := E) m = Ok (delta_spec (spec_layers a)).
Proof.
  intros Hm Hlen. pose proof (implements_depth _ _ Hm) as Hd. unfold spec_depth in Hd. rewrite Hlen in Hd.
  simpl in Hd. unfold drained, drain_committed. rewrite Hd. simpl.
  destruct Hm as [Hov _]. pose proof Hov as [_ Hcol].
  assert (forall kv, kv ∈ changes_iter m -> exists t l, transactions kv.2 = t :: l /\
    to_option (E := E) (value t) = Ok (default None (fst <$> visible (spec_layers a) kv.1))) as Hkv.
  { intros [k e] Hin. unfold changes_iter, btree_iter in Hin. rewrite sort_by_perm in Hin.
    apply elem_of_map_to_list in Hin. destruct (Hcol k) as [_ Hk]. unfold slice in Hk. rewrite Hin in Hk.
    destruct Hk as [Hne Hk]. destruct e as [vs]. simpl in *. unfold visible.
    destruct (somes (column (spec_layers a) k)) as [|[x y] l]; [done|].
    destruct (entry_value_ok (E := E) vs x y l Hk) as (vs' & Hv & _). destruct vs as [|t vs]; [done|].
    exists t, vs. split; [done|]. unfold entry_value in Hv. simpl in Hv. unfold to_option.
    destruct (as_option (value t)) as [[w z]| | |]; simpl in *; by simplify_eq. }
  rewrite (traverse_map _ (fun kv => (kv.1, default Remove (value <$> head (transactions kv.2))))).
  2: { intros kv (t & l & Hl & _)%Hkv. unfold pop_transaction. by rewrite Hl. }
  simpl. rewrite (traverse_map _ (fun kv => (kv.1, default None (fst <$> visible (spec_layers a) kv.1)))).
  - unfold delta_spec. rewrite map_map. simpl. rewrite <- (changes_iter_keys m _ Hov). by rewrite map_map.
  - intros kv' (kv & -> & Hin)%list_elem_of_fmap. destruct (Hkv kv Hin) as (t & l & Hl & Ht). simpl.
    rewrite Hl. simpl. by rewrite Ht.
Qed.

Lemma drained_open {E} m a : implements m a -> 1 < length (spec_layers a) -> drained (E := E) m = Panic.
Proof.
  intros Hm Hlen. pose proof (implements_depth _ _ Hm) as Hd. unfold spec_depth in Hd.
  unfold drained, drain_committed. rewrite Hd. destruct (length (spec_layers a)) as [|[|n]]; [lia|lia|done].
Qed.

Lemma drain_children_ok {E} keys s v :
  agrees s v -> height v = 1 -> Forall (fun k => k ∈ dom (children s)) keys ->
  drain_children (E := E) (entries_of keys (children s)) =
  Ok (map (fun k => (k, delta_spec (v_child v k))) keys).
Proof.
  intros Hs Hh. induction 1 as [|k keys [[cs info] Hk]%elem_of_dom Hkeys IH]; [done|].
  simpl. rewrite Hk. destruct (agrees_child _ _ Hs k) as [Hlen Hc]. rewrite Hk in Hc. simpl.
  rewrite (drained_ok cs _ (proj2 Hc)) by (simpl; by rewrite Hlen). simpl. by rewrite IH.
Qed.

(** Every change of the offchain overlay as it is seen now. *)
Definition off_spec (lo : layers OffchainKey OffchainOverlayedChange)
  : list (OffchainKey * OffchainOverlayedChange) :=
  map (fun k => (k, default OffchainRemove (fst <$> visible lo k))) (elements (known lo)).

Lemma offchain_into_iter_ok {E : Type} (o : OffchainOverlayedChanges) lo :
  represents plain_ok o lo -> exists l, offchain_into_iter (E := E) o = Ok l /\ l ≡ₚ off_spec lo.
Proof.
  intros Ho. unfold offchain_into_iter.
  rewrite (traverse_map _ (fun kv => (kv.1, default OffchainRemove (fst <$> visible lo kv.1)))).
  - eexists. split; [done|]. unfold off_spec. rewrite <- (represents_keys _ _ _ Ho). by rewrite map_map.
  - intros [k e] Hin. unfold changes_iter, btree_iter in Hin. rewrite sort_by_perm in Hin.
    apply elem_of_map_to_list in Hin. destruct Ho as [_ Hcol]. destruct (Hcol k) as [_ Hc].
    unfold slice in Hc. rewrite Hin in Hc. destruct Hc as [Hne Hc]. unfold plain_ok in Hc. simpl in *.
    unfold visible, into_value. rewrite <- Hc in *. by destruct (transactions e).
Qed.

(** The view after everything was drained. *)
Definition drained_view v : view := mkView [∅] (fun _ => [∅]) [∅] 0 Client (v_collect v).

(** The root and transaction in the cache, or the ones computed for it. *)
Lemma drain_cache_ok {E} ver s v :
  agrees s v -> cache_valid s v ->
  exists s' c,
    (match storage_transaction_cache s with
     | Some cache => let* _ := modify_state (set_cache None) in ret cache
     | None =>
         let* _ := storage_root (E := E) iter_set ver in
         let* s := get_state in
         let* _ := modify_state (set_cache None) in
         lift (expect (storage_transaction_cache s))
     end) s = (s', Ok c) /\ agrees s' v /\ dom (children s') = dom (children s) /\
    storage_transaction_cache s' = None /\
    (transaction_storage_root c, transaction c) =
      root_spec (dom (children s)) v (default ver (state_version <$> storage_transaction_cache s)).
Proof.
  intros Hs Hc. destruct (storage_transaction_cache s) as [c|] eqn:Hcs.
  - exists (set_cache None s), c. split_and!; [done|by apply agrees_cache|done|done|]. by apply Hc.
  - destruct (compute_root_ok (E := E) ver s v Hs) as (s' & Hrun & Hs' & Hdom & Hcache).
    exists (set_cache None s'). eexists. unfold bindM, storage_root, bindM, get_state. rewrite Hcs, Hrun.
    unfold modify_state, lift. rewrite Hcache. split; [done|].
    split_and!; [by apply agrees_cache|done|done|by destruct (root_spec _ _ _)].
Qed.

End root.

(** ** The theorems on concrete calls *)

From S2P Require Import ScaleCompact.

(** A backend whose root is the list of changes it is given. *)
Definition echo : Backend delta unit Empty_set := {|
  backend_storage := fun _ => inr None;
  backend_child_storage_root := fun _ d _ => (d, false, tt);
  backend_storage_root := fun d _ => (d, tt);
  tx_empty := tt;
  consolidate := fun _ _ => tt;
  out_encode := fun d => concat (map (fun kv => kv.1 ++ default [] kv.2) d);
  out_decode := fun _ => None;
  empty_child_trie_root := []
|}.

Definition no_index (_ : bytes) : option N := None.

(** One value of the main storage and one of a child trie, then a transaction. *)
Definition setup : list call :=
  [CSet [1] (Some [10]); CSetChild (ParentKeyId [9]) [2] (Some [20]); CStart]%N.

Definition setup_overlay : OverlayedChanges delta unit :=
  (perform_all (P := debug) no_index elements elements setup default_overlay).1.
Definition setup_view : view :=
  default empty_view (spec_all (P := debug) no_index setup empty_view).1.

Lemma setup_agrees : agrees setup_overlay setup_view.
Proof.
  apply (calls_conform (P := debug) no_index elements (fun s => reflexivity _) elements (fun s => reflexivity _)
    setup default_overlay empty_view default_agrees). reflexivity.
Qed.

Lemma setup_reached : reached (P := debug) (B := echo) no_index elements elements setup_overlay.
Proof.
  apply (reached_all (P := debug) (B := echo) no_index elements (fun s => reflexivity _) elements
    (fun s => reflexivity _) setup default_overlay);
    [constructor|reflexivity|].
  match goal with |- _ ∉ ?l => let l' := eval vm_compute in l in change (Panic ∉ l') end.
  rewrite !not_elem_of_cons. by split_and!; [..|apply not_elem_of_nil].
Qed.


Lemma storage_root_current_witness :
  exists v s' cached, agrees setup_overlay v /\
    storage_root (B := echo) (E := refusal) elements V1 setup_overlay =
      (s', Ok (fst (root_spec (B := echo) elements (dom (children setup_overlay)) v V1), cached)) /\
    agrees s' v.
Proof.
  apply (storage_root_current (P := debug) (B := echo) no_index elements (fun s => reflexivity _)
    elements (fun s => reflexivity _) V1 setup_overlay setup_reached).
Defined.

(** The element appended to key 5 is missing from the root that is returned. *)
Lemma root_not_refreshed_witness :
  let s1 := (storage_root (B := echo) (E := refusal) elements V1 setup_overlay).1 in
  let s2 := (perform (P := debug) no_index elements elements (CAppend [5] [7] [])%N s1).1 in
  let root := [([1], Some [10]); (prefixed_storage_key (ParentKeyId [9]), Some [2; 20])]%N in
  storage_root (B := echo) (E := refusal) elements V1 s2 = (s2, Ok (root, true)) /\
  (compute_root (B := echo) (E := refusal) elements V1 s2).2 = Ok
    ([([1], Some [10]); ([5], Some [4; 7]); (prefixed_storage_key (ParentKeyId [9]), Some [2; 20])]%N, false).
Proof.
  intros s1 s2 root. split; [|vm_compute; reflexivity].
  apply (root_not_refreshed (P := debug) (B := echo) no_index elements (fun s => reflexivity _)
    elements (fun s => reflexivity _) (CAppend [5] [7] [])%N V1 setup_overlay setup_view s1 root false s2 RUnit).
  - apply setup_agrees.
  - vm_compute. reflexivity.
  - reflexivity.
  - vm_compute. reflexivity.
Defined.

(** One value, written without a transaction. *)
Definition small_overlay : OverlayedChanges delta unit :=
  (perform_all (P := debug) no_index elements elements [CSet [1] (Some [10])]%N default_overlay).1.
Definition small_view : view := view_top empty_view [{[ [1%N] := (Some [10%N], []) ]}].

Lemma small_agrees : agrees small_overlay small_view.
Proof.
  apply (calls_conform (P := debug) no_index elements (fun s => reflexivity _) elements (fun s => reflexivity _)
    [CSet [1] (Some [10])]%N default_overlay empty_view default_agrees). reflexivity.
Qed.

