(* ===== verification/Allocator.v ===== *)
(** * The heap of the runtime: the freeing-bump allocator

    Model of [client/allocator/src/freeing_bump.rs], with the interface of
    [client/allocator/src/lib.rs] to the linear memory and the errors of [error.rs].
    The memory is implemented by the executors and by the tests; here it is a type with
    the operations of the trait [Memory], and [MemoryLaws] is what the trait documents. A
    [u32], [u64] or [u128] is an [N] with its width written out at each operation that
    can leave it; sums of two [u32] computed in [u64] cannot. Logging is left out. *)

From stdpp Require Import strings.
From S2P Require Import Prelude.

#[local] Open Scope N_scope.

Definition PAGE_SIZE : N := 65536.
Definition MAX_WASM_PAGES : N := 4 * 1024 * 1024 * 1024 / PAGE_SIZE.
Definition MAX_POSSIBLE_ALLOCATION : N := 33554432.
Definition ALIGNMENT : N := 8.
Definition HEADER_SIZE : N := 8.
Definition N_ORDERS : N := 23.
Definition MIN_POSSIBLE_ALLOCATION : N := 8.
Definition NIL_MARKER : N := u32_MAX.
Definition u128_MAX : N := 2 ^ 128 - 1.

Inductive Error : Type :=
| RequestedAllocationTooLarge
| AllocatorOutOfSpace
| MemoryShrinked
| Other (msg : string).

Definition error (msg : string) : Error := Other msg.

(** ** The linear memory *)

(** [[u8]]: its length, and the byte at each index below it. *)
Record slice : Type := mkSlice { slice_len : N; slice_at : N -> N }.

(** [memory[range]] and [memory[range].copy_from_slice(bytes)]; the caller has checked the
    range. *)
Definition slice_get (s : slice) (start : N) (k : nat) : list N :=
  map (fun i => slice_at s (start + N.of_nat i)) (seq 0 k).

Definition slice_put (s : slice) (start : N) (bytes : list N) : slice :=
  mkSlice (slice_len s) (fun a =>
    if (start <=? a) && (a <? start + N.of_nat (length bytes))
    then default 0 (bytes !! N.to_nat (a - start)) else slice_at s a).

(** The trait [Memory]. [with_access_mut m s] is the memory once the closure has left the
    slice it was given as [s]; [grow] also tells whether it returned [Ok]. *)
Class Memory (T : Type) : Type := {
  with_access : T -> slice;
  with_access_mut : T -> slice -> T;
  grow : N -> T -> T * bool;
  pages : T -> N;
  max_pages : T -> option N
}.

Section model.
Context `{!Profile} {T : Type} `{!Memory T}.

(** [offset + length <= u32::MAX] is the [checked_add]. *)
Definition heap_range (offset length : N) (heap_len : N) : option (N * N) :=
  if offset + length <=? u32_MAX then
    if offset + length <=? heap_len then Some (offset, offset + length) else None
  else None.

Definition read_le_u64 (m : T) (ptr : N) : outcome Error N :=
  let memory := with_access m in
  match heap_range ptr 8 (slice_len memory) with
  | Some (start, _) => Ok (from_le (slice_get memory start 8))
  | None => Err (error "read out of heap bounds")
  end.

Definition write_le_u64 (ptr val : N) (m : T) : outcome Error T :=
  let memory := with_access m in
  match heap_range ptr 8 (slice_len memory) with
  | Some (start, _) => Ok (with_access_mut m (slice_put memory start (to_le 8 val)))
  | None => Err (error "write out of heap bounds")
  end.

(** [MemoryExt::size] *)
Definition mem_size (m : T) : outcome Error N :=
  let! _ := debug_assert (pages m <=? MAX_WASM_PAGES) in
  Ok (pages m * PAGE_SIZE).

(** ** Orders, links and headers *)

Definition Order : Type := N.

Definition order_from_raw (order : N) : outcome Error Order :=
  if order <? N_ORDERS then Ok order else Err (error "invalid order").

(** [u32::next_power_of_two] and [u32::trailing_zeros]. *)
Definition next_power_of_two (n : N) : outcome Error N := overflowing u32_MAX (2 ^ N.log2_up n).

Fixpoint pos_trailing_zeros (p : positive) : N :=
  match p with
  | xO p => 1 + pos_trailing_zeros p
  | _ => 0
  end.
Definition trailing_zeros (n : N) : N :=
  match n with 0 => 32 | Npos p => pos_trailing_zeros p end.

Definition order_from_size (size : N) : outcome Error Order :=
  if MAX_POSSIBLE_ALLOCATION <? size then Err RequestedAllocationTooLarge
  else
    let clamped_size :=
      if size <? MIN_POSSIBLE_ALLOCATION then MIN_POSSIBLE_ALLOCATION else size in
    let! power_of_two_size := next_power_of_two clamped_size in
    sub_u32 (trailing_zeros power_of_two_size) (trailing_zeros MIN_POSSIBLE_ALLOCATION).

Definition order_size (o : Order) : outcome Error N := shl_u32 MIN_POSSIBLE_ALLOCATION o.

Inductive Link : Type :=
| Nil
| Ptr (ptr : N).

Definition link_from_raw (raw : N) : Link :=
  if negb (raw =? NIL_MARKER) then Ptr raw else Nil.

Definition link_into_raw (l : Link) : N :=
  match l with Nil => NIL_MARKER | Ptr ptr => ptr end.

Inductive Header : Type :=
| Free (next : Link)
| Occupied (order : Order).

Definition OCCUPIED_MASK : N := 4294967296.

Definition read_from (m : T) (header_ptr : N) : outcome Error Header :=
  let! raw_header := read_le_u64 m header_ptr in
  let occupied := negb (N.land raw_header OCCUPIED_MASK =? 0) in
  let header_data := raw_header mod (u32_MAX + 1) in
  if occupied then
    let! order := order_from_raw header_data in
    Ok (Occupied order)
  else Ok (Free (link_from_raw header_data)).

Definition write_into (h : Header) (header_ptr : N) (m : T) : outcome Error T :=
  let '(header_data, occupied_mask) :=
    match h with
    | Occupied order => (order, OCCUPIED_MASK)
    | Free link => (link_into_raw link, 0)
    end in
  write_le_u64 header_ptr (N.lor header_data occupied_mask) m.

Definition into_occupied (h : Header) : option Order :=
  match h with Occupied order => Some order | Free _ => None end.

Definition into_free (h : Header) : option Link :=
  match h with Free link => Some link | Occupied _ => None end.

(** ** The allocator *)

Notation FreeLists := (list Link).
Definition free_lists_new : FreeLists := replicate (N.to_nat N_ORDERS) Nil.

Definition free_lists_index (heads : FreeLists) (o : Order) : outcome Error Link :=
  expect (heads !! N.to_nat o).

Definition free_lists_set (o : Order) (new : Link) (heads : FreeLists) : outcome Error FreeLists :=
  let! _ := free_lists_index heads o in
  Ok (<[N.to_nat o := new]> heads).

Definition free_lists_replace (o : Order) (new : Link) (heads : FreeLists)
  : outcome Error (FreeLists * Link) :=
  let! prev := free_lists_index heads o in
  let! heads := free_lists_set o new heads in
  Ok (heads, prev).

Record AllocationStats : Type := mkStats {
  bytes_allocated : N;
  bytes_allocated_peak : N;
  bytes_allocated_sum : N;
  address_space_used : N
}.

Definition pages_from_size (size : N) : option N :=
  let pages := (size + PAGE_SIZE - 1) / PAGE_SIZE in
  if pages <=? u32_MAX then Some pages else None.

Record FreeingBumpHeapAllocator : Type := mkAllocator {
  original_heap_base : N;
  bumper : N;
  free_lists : FreeLists;
  poisoned : bool;
  last_observed_memory_size : N;
  stats : AllocationStats
}.

Definition set_bumper (b : N) (a : FreeingBumpHeapAllocator) :=
  mkAllocator (original_heap_base a) b (free_lists a) (poisoned a)
    (last_observed_memory_size a) (stats a).
Definition set_free_lists (l : FreeLists) (a : FreeingBumpHeapAllocator) :=
  mkAllocator (original_heap_base a) (bumper a) l (poisoned a)
    (last_observed_memory_size a) (stats a).
Definition set_poisoned (a : FreeingBumpHeapAllocator) :=
  mkAllocator (original_heap_base a) (bumper a) (free_lists a) true
    (last_observed_memory_size a) (stats a).
Definition set_observed (n : N) (a : FreeingBumpHeapAllocator) :=
  mkAllocator (original_heap_base a) (bumper a) (free_lists a) (poisoned a) n (stats a).
Definition set_stats (st : AllocationStats) (a : FreeingBumpHeapAllocator) :=
  mkAllocator (original_heap_base a) (bumper a) (free_lists a) (poisoned a)
    (last_observed_memory_size a) st.

(** [FreeingBumpHeapAllocator::new] *)
Definition new_allocator (heap_base : N) : outcome Error FreeingBumpHeapAllocator :=
  let! aligned_heap_base := mul_u32 ((heap_base + ALIGNMENT - 1) / ALIGNMENT) ALIGNMENT in
  Ok (mkAllocator aligned_heap_base aligned_heap_base free_lists_new false 0 (mkStats 0 0 0 0)).

(** The methods change the allocator and the memory they are given. *)
Definition heap : Type := FreeingBumpHeapAllocator * T.

Definition observe_memory_size : M heap Error unit :=
  let* s := get_state in
  let* size := lift (mem_size s.2) in
  if size <? last_observed_memory_size s.1 then throw MemoryShrinked
  else put_state (set_observed size s.1, s.2).

(** The part of [bump] that makes the memory hold [required_size] bytes. *)
Definition grow_for (required_size : N) : M T Error unit :=
  let* m := get_state in
  let* required_pages :=
    match pages_from_size required_size with
    | Some p => ret p
    | None => throw AllocatorOutOfSpace
    end in
  let current_pages := pages m in
  let max_pages := default MAX_WASM_PAGES (max_pages m) in
  let* _ := lift (debug_assert (current_pages <? required_pages)) in
  if max_pages <=? current_pages then throw AllocatorOutOfSpace
  else if max_pages <? required_pages then throw AllocatorOutOfSpace
  else
    let* doubled := lift (mul_u32 current_pages 2) in
    let next_pages := N.max (N.min doubled max_pages) required_pages in
    let* additional := lift (sub_u32 next_pages current_pages) in
    let* grown := (fun m => let '(m', ok) := grow additional m in (m', Ok ok)) in
    if negb grown then throw AllocatorOutOfSpace
    else
      let* m' := get_state in
      lift (debug_assert (pages m' =? next_pages)).

(** A change of the second of two places a method was given. *)
Definition on_memory {B A} (f : M T Error A) : M (B * T) Error A := fun '(b, m) =>
  let '(m', r) := f m in ((b, m'), r).

Definition bump (size : N) : M (N * T) Error N :=
  let* s := get_state in
  let '(bumper, m) := s in
  let required_size := bumper + size in
  let* current := lift (mem_size m) in
  let* _ := if current <? required_size then on_memory (grow_for required_size) else ret tt in
  let* bumper' := lift (add_u32 bumper size) in
  let* s := get_state in
  let* _ := put_state (bumper', s.2) in
  ret bumper.

(** [bump] on the allocator's own bumper. *)
Definition bump_heap (size : N) : M heap Error N := fun '(a, m) =>
  let '((b, m'), r) := bump size (bumper a, m) in ((set_bumper b a, m'), r).

(** A body run while a [PoisonBomb] is held: only a body that returns [Ok] reaches
    [disarm], any other exit drops the bomb. *)
Definition with_bomb {A} (body : M heap Error A) : M heap Error A := fun s =>
  match body s with
  | ((a, m), Ok r) => ((a, m), Ok r)
  | ((a, m), o) => ((set_poisoned a, m), o)
  end.

Definition write_header (h : Header) (header_ptr : N) : M heap Error unit :=
  let* s := get_state in
  let* m := lift (write_into h header_ptr s.2) in
  put_state (s.1, m).

(** Taking the first chunk of the list of [order]. *)
Definition take_free (order : Order) (header_ptr : N) : M heap Error N :=
  let* s := get_state in
  let '(a, m) := s in
  let* size := lift (order_size order) in
  let* memory_size := lift (mem_size m) in
  if memory_size <? header_ptr + size + HEADER_SIZE
  then throw (error "Invalid header pointer detected")
  else
    let* h := lift (read_from m header_ptr) in
    match into_free h with
    | None => throw (error "free list points to a occupied header")
    | Some next_free =>
        let* heads := lift (free_lists_set order next_free (free_lists a)) in
        let* _ := put_state (set_free_lists heads a, m) in
        ret header_ptr
    end.

(** The statistics after an allocation of [n] bytes, header included; each assignment
    is made before the next sum is computed. *)
Definition update_stats (f : AllocationStats -> outcome Error AllocationStats)
  : M heap Error unit :=
  let* s := get_state in
  let* st := lift (f (stats s.1)) in
  put_state (set_stats st s.1, s.2).

Definition count_allocation (n : N) : M heap Error unit :=
  let* _ := update_stats (fun st =>
    let! allocated := add_u32 (bytes_allocated st) n in
    Ok (mkStats allocated (bytes_allocated_peak st) (bytes_allocated_sum st)
          (address_space_used st))) in
  let* _ := update_stats (fun st =>
    let! sum := overflowing u128_MAX (bytes_allocated_sum st + n) in
    Ok (mkStats (bytes_allocated st) (bytes_allocated_peak st) sum (address_space_used st))) in
  let* _ := update_stats (fun st =>
    Ok (mkStats (bytes_allocated st) (N.max (bytes_allocated_peak st) (bytes_allocated st))
          (bytes_allocated_sum st) (address_space_used st))) in
  let* s := get_state in
  update_stats (fun st =>
    let! used := sub_u32 (bumper s.1) (original_heap_base s.1) in
    Ok (mkStats (bytes_allocated st) (bytes_allocated_peak st) (bytes_allocated_sum st) used)).

(** Its counterpart in [deallocate]. *)
Definition count_deallocation (n : N) : M heap Error unit :=
  update_stats (fun st =>
    if bytes_allocated st <? n
    then Err (error "underflow of the currently allocated bytes count")
    else Ok (mkStats (bytes_allocated st - n) (bytes_allocated_peak st)
               (bytes_allocated_sum st) (address_space_used st))).

(** The bytes a chunk of [order] takes. *)
Definition chunk_bytes (order : Order) : outcome Error N :=
  let! n := order_size order in
  add_u32 n HEADER_SIZE.

(** The end of [allocate], once a chunk has been found. *)
Definition finish_allocation (order : Order) (header_ptr : N) : M heap Error N :=
  let* _ := write_header (Occupied order) header_ptr in
  let* n := lift (chunk_bytes order) in
  let* _ := count_allocation n in
  lift (add_u32 header_ptr HEADER_SIZE).

Definition allocate (size : N) : M heap Error N :=
  let* s := get_state in
  if poisoned s.1 then throw (error "the allocator has been poisoned")
  else with_bomb (
    let* _ := observe_memory_size in
    let* order := lift (order_from_size size) in
    let* s := get_state in
    let* head := lift (free_lists_index (free_lists s.1) order) in
    let* header_ptr :=
      match head with
      | Ptr header_ptr => take_free order header_ptr
      | Nil =>
          let* n := lift (chunk_bytes order) in
          bump_heap n
      end in
    finish_allocation order header_ptr).

Definition deallocate (ptr : N) : M heap Error unit :=
  let* s := get_state in
  if poisoned s.1 then throw (error "the allocator has been poisoned")
  else with_bomb (
    let* _ := observe_memory_size in
    if ptr <? HEADER_SIZE then throw (error "Invalid pointer for deallocation")
    else
      let header_ptr := ptr - HEADER_SIZE in
      let* s := get_state in
      let '(a, m) := s in
      let* h := lift (read_from m header_ptr) in
      match into_occupied h with
      | None => throw (error "the allocation points to an empty header")
      | Some order =>
          let* r := lift (free_lists_replace order (Ptr header_ptr) (free_lists a)) in
          let '(heads, prev_head) := r in
          let* _ := put_state (set_free_lists heads a, m) in
          let* _ := write_header (Free prev_head) header_ptr in
          let* n := lift (chunk_bytes order) in
          count_deallocation n
      end).
End model.
