(* ===== verification/AllocatorSpec.v ===== *)
(** * Correctness of the freeing-bump allocator

    The heap between its base and the bumper is tiled by chunks. Each of them is either
    handed out or on the free list of its order, the lists are threaded through the headers
    in the linear memory, and the program that owns the handed out blocks may write anything
    into them. [reachable] is the transition system of an allocator and a memory under
    calls of [allocate] and [deallocate] and such writes. *)

From stdpp Require Import strings functions.
From S2P Require Import Prelude Allocator.

#[local] Open Scope N_scope.

(** The pages a memory may grow to. *)
Definition page_limit {T} `{!Memory T} (m : T) : N := default MAX_WASM_PAGES (max_pages m).
Definition byte_at {T} `{!Memory T} (m : T) (a : N) : N := slice_at (with_access m) a.
Definition bytes_of {T} `{!Memory T} (m : T) : N := pages m * PAGE_SIZE.

(** What the trait [Memory] documents: the bytes are accessible up to the reported size, the
    number of pages stays below the maximum, writes stay and change nothing else,
    and growing adds the pages asked for and keeps the bytes. *)
Class MemoryLaws (T : Type) `{!Memory T} : Prop := {
  access_len (m : T) : slice_len (with_access m) = bytes_of m;
  pages_limit (m : T) : pages m <= page_limit m;
  limit_max (m : T) : page_limit m <= MAX_WASM_PAGES;
  access_mut_at (m : T) s a : slice_len s = bytes_of m -> a < slice_len s ->
    byte_at (with_access_mut m s) a = slice_at s a;
  access_mut_pages (m : T) s : slice_len s = bytes_of m ->
    pages (with_access_mut m s) = pages m /\ max_pages (with_access_mut m s) = max_pages m;
  grow_ok n (m m' : T) : grow n m = (m', true) ->
    pages m' = pages m + n /\ max_pages m' = max_pages m /\
    forall a, a < bytes_of m -> byte_at m' a = byte_at m a
}.

(** ** Orders *)

(** The order that serves a request, its capacity and the bytes of its chunks. *)
Definition order_of (size : N) : N := N.log2_up (N.max 8 size) - 3.
Definition order_capacity (o : N) : N := 8 * 2 ^ o.
Definition chunk (o : N) : N := order_capacity o + HEADER_SIZE.
Definition capacity (size : N) : N := order_capacity (order_of size).

Lemma trailing_zeros_pow k : trailing_zeros (2 ^ k) = k.
Proof.
  induction k as [|k IH] using N.peano_ind; [done|].
  rewrite N.pow_succ_r'. destruct (2 ^ k) as [|p] eqn:Hp; [by apply N.pow_nonzero in Hp|].
  change (pos_trailing_zeros p = k) in IH. change (1 + pos_trailing_zeros p = N.succ k). lia.
Qed.

Lemma order_bounds size : size <= MAX_POSSIBLE_ALLOCATION ->
  3 <= N.log2_up (N.max 8 size) <= 25.
Proof.
  intros Hs. split.
  - change 3 with (N.log2_up 8). apply N.log2_up_le_mono. lia.
  - change 25 with (N.log2_up MAX_POSSIBLE_ALLOCATION). apply N.log2_up_le_mono.
    unfold MAX_POSSIBLE_ALLOCATION in *. lia.
Qed.

Lemma order_of_lt size : size <= MAX_POSSIBLE_ALLOCATION -> order_of size < N_ORDERS.
Proof. intros Hs%order_bounds. unfold order_of, N_ORDERS. lia. Qed.

Lemma capacity_pow size : size <= MAX_POSSIBLE_ALLOCATION ->
  capacity size = 2 ^ N.log2_up (N.max 8 size).
Proof.
  intros Hs%order_bounds. unfold capacity, order_capacity, order_of.
  change 8 with (2 ^ 3) at 1. rewrite <- N.pow_add_r. f_equal. lia.
Qed.

Lemma capacity_holds size : size <= MAX_POSSIBLE_ALLOCATION -> size <= capacity size.
Proof.
  intros Hs. rewrite (capacity_pow _ Hs).
  destruct (N.log2_up_spec (N.max 8 size)) as [_ H]; lia.
Qed.

Lemma chunk_bound o : o < N_ORDERS -> 16 <= chunk o <= MAX_POSSIBLE_ALLOCATION + 8.
Proof.
  unfold N_ORDERS, chunk, order_capacity, HEADER_SIZE, MAX_POSSIBLE_ALLOCATION. intros Ho.
  assert (2 ^ o <= 2 ^ 22) by (apply N.pow_le_mono_r; lia).
  change (2 ^ 22) with 4194304 in *. pose proof (N.pow_nonzero 2 o). lia.
Qed.

Section orders.
Context `{!Profile}.

Lemma from_size_ok size : size <= MAX_POSSIBLE_ALLOCATION ->
  order_from_size size = Ok (order_of size).
Proof.
  intros Hs. pose proof (order_bounds size Hs) as Hb. unfold order_from_size.
  destruct (N.ltb_spec MAX_POSSIBLE_ALLOCATION size); [lia|].
  replace (if _ <? _ then _ else _) with (N.max 8 size).
  2: { unfold MIN_POSSIBLE_ALLOCATION. destruct (N.ltb_spec size 8); lia. }
  unfold next_power_of_two, overflowing.
  assert (2 ^ N.log2_up (N.max 8 size) <= u32_MAX) as ->%N.leb_le.
  { etrans; [apply (N.pow_le_mono_r 2 _ 25); lia|done]. }
  cbn [bind]. rewrite trailing_zeros_pow, sub_u32_eq; [done|].
  change (trailing_zeros _) with 3. lia.
Qed.

Lemma order_size_ok o : o < N_ORDERS -> order_size o = Ok (order_capacity o).
Proof.
  unfold N_ORDERS, order_size, shl_u32. intros Ho.
  destruct (N.leb_spec 32 o); [lia|]. cbn [andb]. rewrite (N.mod_small o 32), N.shiftl_mul_pow2 by lia.
  f_equal. apply N.mod_small. pose proof (chunk_bound o Ho) as Hc.
  unfold chunk, order_capacity, HEADER_SIZE, MAX_POSSIBLE_ALLOCATION in Hc.
  unfold order_capacity, u32_MAX. lia.
Qed.

Lemma chunk_bytes_ok o : o < N_ORDERS -> chunk_bytes o = Ok (chunk o).
Proof.
  intros Ho. unfold chunk_bytes. rewrite (order_size_ok o Ho). cbn [bind].
  apply add_u32_eq. pose proof (chunk_bound o Ho).
  unfold chunk, u32_MAX, MAX_POSSIBLE_ALLOCATION in *. lia.
Qed.
End orders.

(** ** Headers *)

Definition header_valid (h : Header) : Prop :=
  match h with
  | Occupied o => o < N_ORDERS
  | Free Nil => True
  | Free (Ptr p) => p < NIL_MARKER
  end.

Definition header_raw (h : Header) : N :=
  match h with
  | Occupied o => N.lor o OCCUPIED_MASK
  | Free l => N.lor (link_into_raw l) 0
  end.

Lemma land_mask d : d <= u32_MAX -> N.land d OCCUPIED_MASK = 0.
Proof.
  intros Hd. change OCCUPIED_MASK with (2 ^ 32). apply N.bits_inj. intros i.
  rewrite N.land_spec, N.bits_0, N.pow2_bits_eqb. destruct (N.eqb_spec 32 i) as [<-|]; [|by rewrite andb_false_r].
  rewrite andb_true_r. destruct (decide (d = 0)) as [->|]; [done|].
  apply N.bits_above_log2, N.log2_lt_pow2; [lia|]. change (2 ^ 32) with 4294967296. unfold u32_MAX in Hd. lia.
Qed.

Lemma lor_mask d : d <= u32_MAX -> N.lor d OCCUPIED_MASK = d + OCCUPIED_MASK.
Proof. intros Hd%land_mask. by rewrite <- N.lxor_lor, N.add_nocarry_lxor. Qed.

Lemma header_raw_bound h : header_valid h -> header_raw h < 256 ^ N.of_nat 8.
Proof.
  destruct h as [[|p]|o]; cbn [header_raw header_valid link_into_raw]; intros Hv; [done|..].
  - rewrite N.lor_0_r. unfold NIL_MARKER, u32_MAX in Hv. etrans; [exact Hv|done].
  - unfold N_ORDERS in Hv. rewrite lor_mask by (unfold u32_MAX; lia).
    apply (N.lt_le_trans _ (23 + OCCUPIED_MASK)); [lia|done].
Qed.

Lemma link_roundtrip l : header_valid (Free l) -> link_from_raw (link_into_raw l) = l.
Proof.
  destruct l as [|p]; [done|]. simpl. intros Hp. unfold link_from_raw, link_into_raw.
  destruct (N.eqb_spec p NIL_MARKER); [lia|done].
Qed.

Section memory.
Context {T : Type} `{!Memory T, !MemoryLaws T}.
Implicit Types (m : T).

Lemma read_from_raw m p h : header_valid h ->
  read_le_u64 m p = Ok (header_raw h) -> read_from m p = Ok h.
Proof.
  unfold read_from. intros Hv ->. cbn [bind]. destruct h as [l|o]; cbn [header_raw].
  - assert (link_into_raw l <= u32_MAX).
    { destruct l as [|q]; [done|]. simpl in *. unfold NIL_MARKER in Hv. lia. }
    rewrite N.lor_0_r, land_mask by done. cbn [N.eqb negb].
    rewrite N.mod_small by lia. by rewrite link_roundtrip.
  - simpl in Hv. unfold N_ORDERS in Hv. assert (o <= u32_MAX) by (unfold u32_MAX; lia).
    rewrite N.land_lor_distr_l, N.land_diag, land_mask by done.
    change (negb (N.lor 0 OCCUPIED_MASK =? 0)) with true. cbn match. rewrite lor_mask by done. change OCCUPIED_MASK with (1 * (u32_MAX + 1)).
    rewrite N.Div0.mod_add, N.mod_small by lia. unfold order_from_raw, N_ORDERS.
    destruct (N.ltb_spec o 23); [done|lia].
Qed.

Lemma slice_get_put s p bs : slice_get (slice_put s p bs) p (length bs) = bs.
Proof.
  apply list_eq. intros i. unfold slice_get. rewrite list_lookup_fmap.
  destruct (decide (i < length bs)%nat) as [Hi|Hi].
  - rewrite lookup_seq_lt by done. simpl.
    destruct (N.leb_spec p (p + N.of_nat i)); [|lia].
    destruct (N.ltb_spec (p + N.of_nat i) (p + N.of_nat (length bs))); [|lia]. simpl.
    replace (N.to_nat _) with i by lia. by destruct (lookup_lt_is_Some_2 bs i Hi) as [b ->].
  - rewrite lookup_seq_ge, lookup_ge_None_2 by lia. done.
Qed.

(** A header is read from its eight bytes. *)
Lemma read_from_ext m m' p : p + 8 <= bytes_of m -> p + 8 <= bytes_of m' ->
  (forall a, p <= a < p + 8 -> byte_at m' a = byte_at m a) -> read_from m' p = read_from m p.
Proof.
  intros Hm Hm' Hb. unfold read_from, read_le_u64, heap_range. rewrite !access_len.
  apply N.leb_le in Hm as ->, Hm' as ->. destruct (_ <=? _); [|done].
  f_equal. do 2 f_equal. unfold slice_get. apply map_ext_in. intros i Hi%in_seq. apply Hb. lia.
Qed.

Lemma write_into_ok m p h : header_valid h -> p + 8 <= bytes_of m -> p + 8 <= u32_MAX ->
  exists m', write_into h p m = Ok m' /\ pages m' = pages m /\ max_pages m' = max_pages m /\
    read_from m' p = Ok h /\
    forall a, a < bytes_of m -> ~ p <= a < p + 8 -> byte_at m' a = byte_at m a.
Proof.
  intros Hv Hm Hp.
  set (s := slice_put (with_access m) p (to_le 8 (header_raw h))).
  assert (slice_len s = bytes_of m) as Hlen by apply access_len.
  destruct (access_mut_pages m s Hlen) as [Hpg Hmx].
  exists (with_access_mut m s). split_and!; [|done|done| |].
  - unfold write_into, write_le_u64, heap_range. rewrite access_len.
    apply N.leb_le in Hp as ->, Hm as ->. by destruct h.
  - apply read_from_raw; [done|]. unfold read_le_u64, heap_range. rewrite access_len.
    assert (bytes_of (with_access_mut m s) = bytes_of m) as -> by (unfold bytes_of; by rewrite Hpg).
    apply N.leb_le in Hp as ->. pose proof Hm as ->%N.leb_le. f_equal.
    rewrite <- (from_to_le 8 (header_raw h)) by (by apply header_raw_bound). f_equal.
    rewrite <- (slice_get_put (with_access m) p (to_le 8 (header_raw h))) at 1.
    rewrite to_le_length. unfold slice_get. apply map_ext_in. intros i Hi%in_seq.
    apply (access_mut_at m s); [done|]. rewrite Hlen. lia.
  - intros a Ha Hout. rewrite (access_mut_at m s) by (done || by rewrite Hlen).
    unfold s, slice_put. cbn [slice_at]. rewrite to_le_length.
    destruct (N.leb_spec p a); [|done].
    destruct (N.ltb_spec a (p + N.of_nat 8)); [|done]. destruct Hout. lia.
Qed.
End memory.

(** ** Tilings *)

(** The chunks [cs], each a header pointer with an order, fill the space from [from] to
    [to] without gaps. *)
Fixpoint tiled (from : N) (cs : list (N * N)) (to : N) : Prop :=
  match cs with
  | [] => from = to
  | (p, o) :: cs => p = from /\ o < N_ORDERS /\ tiled (from + chunk o) cs to
  end.

Fixpoint total_bytes (cs : list (N * N)) : N :=
  match cs with [] => 0 | (_, o) :: cs => chunk o + total_bytes cs end.

Lemma tiled_snoc from cs to o : tiled from cs to -> o < N_ORDERS ->
  tiled from (cs ++ [(to, o)]) (to + chunk o).
Proof.
  revert from. induction cs as [|[p o'] cs IH]; intros from; simpl; [by intros ->|].
  intros (-> & ? & H) ?. auto.
Qed.

Lemma tiled_total {from cs to} : tiled from cs to -> from + total_bytes cs = to.
Proof.
  revert from. induction cs as [|[p o'] cs IH]; intros from; simpl; [lia|].
  intros (-> & ? & H%IH). lia.
Qed.

Lemma tiled_bounds {from cs to p o} : tiled from cs to -> (p, o) ∈ cs ->
  from <= p /\ p + chunk o <= to /\ o < N_ORDERS.
Proof.
  revert from. induction cs as [|[p' o'] cs IH]; intros from; simpl; [by intros _ ?%elem_of_nil|].
  intros (-> & Ho & H) [[= -> ->]|Hin]%elem_of_cons.
  - pose proof (tiled_total H). lia.
  - pose proof (IH _ H Hin). pose proof (chunk_bound o' Ho). lia.
Qed.

Lemma tiled_aligned {from cs to p o} : tiled from cs to -> (p, o) ∈ cs ->
  from mod 8 = 0 -> p mod 8 = 0.
Proof.
  revert from. induction cs as [|[p' o'] cs IH]; intros from; simpl; [by intros _ ?%elem_of_nil|].
  intros (-> & Ho & H) [[= -> ->]|Hin]%elem_of_cons; [done|].
  intros Hf. apply (IH _ H Hin). unfold chunk, order_capacity, HEADER_SIZE.
  replace (from + (8 * 2 ^ o' + 8)) with (from + (2 ^ o' + 1) * 8) by lia. by rewrite N.Div0.mod_add.
Qed.

(** Two chunks are the same one or lie apart. *)
Lemma tiled_apart {from cs to p o q o'} : tiled from cs to -> (p, o) ∈ cs -> (q, o') ∈ cs ->
  (p = q /\ o = o') \/ p + chunk o <= q \/ q + chunk o' <= p.
Proof.
  revert from. induction cs as [|[p' o''] cs IH]; intros from; simpl; [by intros _ ?%elem_of_nil|].
  intros (-> & Ho & H) [[= -> ->]|Hp]%elem_of_cons [[= -> ->]|Hq]%elem_of_cons; [auto| | |eauto].
  - pose proof (tiled_bounds H Hq). lia.
  - pose proof (tiled_bounds H Hp). lia.
Qed.

Lemma tiled_NoDup from cs to : tiled from cs to -> NoDup cs.
Proof.
  revert from. induction cs as [|[p o] cs IH]; intros from; simpl; [constructor|].
  intros (-> & Ho & H). constructor; [|by eapply IH].
  intros Hin. pose proof (tiled_bounds H Hin). pose proof (chunk_bound o Ho). lia.
Qed.

Lemma total_bytes_perm cs cs' : cs ≡ₚ cs' -> total_bytes cs = total_bytes cs'.
Proof. induction 1 as [|[] | [] []|]; simpl; lia. Qed.

Lemma total_bytes_app cs cs' : total_bytes (cs ++ cs') = total_bytes cs + total_bytes cs'.
Proof. induction cs as [|[] cs IH]; simpl; lia. Qed.

Lemma total_bytes_submseteq cs cs' : cs ⊆+ cs' -> total_bytes cs <= total_bytes cs'.
Proof.
  intros [k Hk]%submseteq_Permutation. rewrite (total_bytes_perm _ _ Hk), total_bytes_app. lia.
Qed.

(** ** What the steps of the methods do *)

Section steps.
Context `{!Profile} {T : Type} `{!Memory T, !MemoryLaws T}.
Implicit Types (m : T) (a : FreeingBumpHeapAllocator).

Lemma mem_size_ok m : mem_size m = Ok (bytes_of m).
Proof.
  unfold mem_size, debug_assert.
  assert (pages m <= MAX_WASM_PAGES) as ->%N.leb_le by (etrans; [apply pages_limit|apply limit_max]).
  by rewrite andb_false_r.
Qed.

Lemma observe_ok a m : last_observed_memory_size a <= bytes_of m ->
  observe_memory_size (a, m) = ((set_observed (bytes_of m) a, m), Ok tt).
Proof.
  intros Hle. unfold observe_memory_size, bindM, get_state, lift. cbn [fst snd].
  rewrite mem_size_ok. destruct (N.ltb_spec (bytes_of m) (last_observed_memory_size a)); [lia|done].
Qed.

(** The first number of pages that holds [n] bytes. *)
Lemma pages_from_size_ok n : n <= 2 ^ 33 ->
  exists p, pages_from_size n = Some p /\ n <= p * PAGE_SIZE /\
    forall k, n <= k * PAGE_SIZE -> p <= k.
Proof.
  intros Hn. unfold pages_from_size. set (p := (n + PAGE_SIZE - 1) / PAGE_SIZE).
  pose proof (N.div_mod' (n + PAGE_SIZE - 1) PAGE_SIZE) as Hd. fold p in Hd.
  pose proof (N.mod_lt (n + PAGE_SIZE - 1) PAGE_SIZE ltac:(done)) as Hm.
  unfold PAGE_SIZE, u32_MAX in *. change (2 ^ 33) with 8589934592 in Hn.
  clearbody p. set (r := (n + 65536 - 1) mod 65536) in *. clearbody r.
  assert (p <= 4294967295) as Hp by lia. apply N.leb_le in Hp as ->.
  exists p. split_and!; [done|lia|]. intros k Hk. lia.
Qed.

Lemma debug_assert_ok {E} b : b = true -> @debug_assert E _ b = Ok tt.
Proof. intros ->. unfold debug_assert. by rewrite andb_false_r. Qed.

(** Growing for a size the memory does not have: it has it afterwards, or the maximum of
    the memory or the memory itself forbids it. *)
Definition cannot_grow m (required : N) : Prop :=
  page_limit m * PAGE_SIZE < required \/
  exists n, pages m + n <= page_limit m /\ required <= (pages m + n) * PAGE_SIZE /\
    (grow n m).2 = false.

Lemma grow_for_ok m required : bytes_of m < required -> required <= 2 ^ 33 ->
  (exists m', grow_for required m = (m', Ok tt) /\ pages m <= pages m' /\
    max_pages m' = max_pages m /\ required <= bytes_of m' /\
    forall x, x < bytes_of m -> byte_at m' x = byte_at m x) \/
  (exists m', grow_for required m = (m', Err AllocatorOutOfSpace) /\ cannot_grow m required).
Proof.
  intros Hlt Hmax. destruct (pages_from_size_ok required Hmax) as (req & Hreq & Hfit & Hleast).
  pose proof (pages_limit m) as Hl. pose proof (limit_max m) as Hl'.
  assert (pages m < req) as Hcur by (unfold bytes_of, PAGE_SIZE in *; lia).
  unfold grow_for. run_steps. rewrite Hreq.
  rewrite (bindM_ok _ _ _ m req) by done.
  rewrite (bindM_lift _ _ _ tt) by (by apply debug_assert_ok, N.ltb_lt).
  fold (page_limit m). unfold cannot_grow.
  destruct (N.leb_spec (page_limit m) (pages m)).
  { right. exists m. split; [done|left]. unfold bytes_of, PAGE_SIZE in *. lia. }
  destruct (N.ltb_spec (page_limit m) req) as [Hlim|Hlim].
  { right. exists m. split; [done|left]. apply N.nle_gt. intros ?%Hleast. lia. }
  change MAX_WASM_PAGES with 65536 in Hl'.
  rewrite (bindM_lift _ _ _ (pages m * 2)).
  2: { unfold mul_u32, overflowing. by assert (pages m * 2 <= u32_MAX) as ->%N.leb_le by (unfold u32_MAX; lia). }
  set (next := N.max (N.min (pages m * 2) (page_limit m)) req).
  assert (req <= next <= page_limit m) as Hnext by lia.
  rewrite (bindM_lift _ _ _ (next - pages m)) by (apply sub_u32_eq; lia).
  destruct (grow (next - pages m) m) as [m' ok] eqn:Hgrow.
  rewrite (bindM_ok _ _ _ m' ok) by (by rewrite Hgrow). destruct ok; cbn [negb].
  - left. destruct (grow_ok _ _ _ Hgrow) as (Hp & Hmx & Hb). exists m'.
    run_steps. unfold lift.
    rewrite debug_assert_ok by (apply N.eqb_eq; lia).
    split_and!; [done|lia|done| |done]. unfold bytes_of, PAGE_SIZE in *. lia.
  - right. exists m'. split; [done|right]. exists (next - pages m).
    rewrite Hgrow. unfold PAGE_SIZE in *. split_and!; [lia|lia|done].
Qed.

(** Memory below four GiB: every address, and every end of a chunk, is a [u32]. *)
Lemma bounded_bytes m : page_limit m < MAX_WASM_PAGES -> bytes_of m + PAGE_SIZE <= u32_MAX + 1.
Proof.
  pose proof (pages_limit m). unfold bytes_of. change MAX_WASM_PAGES with 65536.
  unfold PAGE_SIZE, u32_MAX. lia.
Qed.

Lemma bump_heap_ok a m n : page_limit m < MAX_WASM_PAGES -> bumper a + n <= 2 ^ 33 ->
  (exists m', bump_heap n (a, m) = ((set_bumper (bumper a + n) a, m'), Ok (bumper a)) /\
    pages m <= pages m' /\ max_pages m' = max_pages m /\ bumper a + n <= bytes_of m' /\
    forall x, x < bytes_of m -> byte_at m' x = byte_at m x) \/
  (exists m', bump_heap n (a, m) = ((a, m'), Err AllocatorOutOfSpace) /\
    bytes_of m < bumper a + n /\ cannot_grow m (bumper a + n)).
Proof.
  intros Hlim Hmax. unfold bump_heap, bump.
  run_steps.
  step_with (mem_size_ok m).
  destruct (N.ltb_spec (bytes_of m) (bumper a + n)) as [Hlt|Hge].
  - destruct (grow_for_ok m _ Hlt Hmax) as [(m' & Hg & Hp & Hmx & Hfit & Hb)|(m' & Hg & Hno)].
    + left. exists m'. rewrite (bindM_ok _ _ _ (bumper a, m') tt) by (simpl; by rewrite Hg).
      assert (page_limit m' < MAX_WASM_PAGES) as Hlim' by (unfold page_limit; by rewrite Hmx).
      pose proof (bounded_bytes _ Hlim'). unfold PAGE_SIZE in *.
      rewrite (bindM_lift _ _ _ (bumper a + n)) by (apply add_u32_eq; lia). done.
    + right. exists m'. rewrite (bindM_err _ _ _ (bumper a, m') AllocatorOutOfSpace) by (simpl; by rewrite Hg).
      split; [|done]. by destruct a.
  - left. exists m. rewrite (bindM_ok _ _ _ (bumper a, m) tt) by done.
    pose proof (bounded_bytes _ Hlim). unfold PAGE_SIZE in *.
    rewrite (bindM_lift _ _ _ (bumper a + n)) by (apply add_u32_eq; lia). done.
Qed.

Definition counted (n : N) a : AllocationStats :=
  mkStats (bytes_allocated (stats a) + n)
    (N.max (bytes_allocated_peak (stats a)) (bytes_allocated (stats a) + n))
    (bytes_allocated_sum (stats a) + n) (bumper a - original_heap_base a).

Lemma count_allocation_ok a m n :
  bytes_allocated (stats a) + n <= u32_MAX -> bytes_allocated_sum (stats a) + n <= u128_MAX ->
  original_heap_base a <= bumper a ->
  count_allocation n (a, m) = ((set_stats (counted n a) a, m), Ok tt).
Proof.
  intros Hb Hs Hu. unfold count_allocation, update_stats, bindM, get_state, lift, put_state.
  cbn [fst snd]. rewrite add_u32_eq by done. cbn [bind stats set_stats fst snd bytes_allocated_sum].
  unfold overflowing. apply N.leb_le in Hs as ->.
  cbn [bind stats set_stats fst snd bumper original_heap_base]. by rewrite sub_u32_eq.
Qed.

(** The end of an allocation in a chunk whose header is inside the memory. *)
Lemma finish_allocation_ok a m o p : page_limit m < MAX_WASM_PAGES ->
  o < N_ORDERS -> p + chunk o <= bytes_of m ->
  bytes_allocated (stats a) + chunk o <= u32_MAX ->
  bytes_allocated_sum (stats a) + chunk o <= u128_MAX -> original_heap_base a <= bumper a ->
  exists m', finish_allocation o p (a, m) = ((set_stats (counted (chunk o) a) a, m'), Ok (p + 8)) /\
    pages m' = pages m /\ max_pages m' = max_pages m /\ read_from m' p = Ok (Occupied o) /\
    forall x, x < bytes_of m -> ~ p <= x < p + 8 -> byte_at m' x = byte_at m x.
Proof.
  intros Hlim Ho Hp Hb Hs Hu. pose proof (bounded_bytes m Hlim) as Hbd. unfold PAGE_SIZE in Hbd.
  pose proof (chunk_bound o Ho).
  destruct (write_into_ok m p (Occupied o) Ho ltac:(lia) ltac:(lia)) as (m' & Hw & Hpg & Hmx & Hr & Hout).
  exists m'. split_and!; [|done..]. unfold finish_allocation.
  rewrite (bindM_ok _ _ _ (a, m') tt).
  2: { unfold write_header, bindM, get_state, lift, put_state. cbn [fst snd]. by rewrite Hw. }
  step_with (chunk_bytes_ok o Ho).
  step_with (count_allocation_ok a m' _ Hb Hs Hu).
  unfold lift. by rewrite add_u32_eq by (unfold HEADER_SIZE; lia).
Qed.
End steps.

(** ** Free lists and live blocks *)

Section lists.
Context {T : Type} `{!Memory T, !MemoryLaws T}.
Implicit Types (m : T) (cs : list (N * N)) (free : N -> list N) (live : gmap N N).

(** A list threaded through the headers in memory. *)
Inductive linked m : Link -> list N -> Prop :=
| linked_nil : linked m Nil []
| linked_cons p next ps :
    read_from m p = Ok (Free next) -> linked m next ps -> linked m (Ptr p) (p :: ps).

Definition free_ok (heads : list Link) m free cs : Prop :=
  forall o, o < N_ORDERS -> exists l, heads !! N.to_nat o = Some l /\
    linked m l (free o) /\ NoDup (free o) /\ forall p, p ∈ free o -> (p, o) ∈ cs.

(** A live block is the pointer handed out with the size asked for; its header precedes it. *)
Definition live_ok live m cs : Prop :=
  forall ptr size, live !! ptr = Some size ->
    8 <= ptr /\ size <= MAX_POSSIBLE_ALLOCATION /\ (ptr - 8, order_of size) ∈ cs /\
    read_from m (ptr - 8) = Ok (Occupied (order_of size)).

Definition live_chunks live : list (N * N) :=
  (fun x : N * N => (x.1 - 8, order_of x.2)) <$> map_to_list live.
Definition live_bytes live : N := total_bytes (live_chunks live).

Lemma linked_ext m m' l ps : linked m l ps ->
  (forall p, p ∈ ps -> read_from m' p = read_from m p) -> linked m' l ps.
Proof.
  induction 1 as [|p next ps Hr Hl IH]; intros Hsame; econstructor.
  - by rewrite Hsame by constructor.
  - apply IH. intros q Hq. apply Hsame. by constructor.
Qed.

Lemma linked_free m l ps p : linked m l ps -> p ∈ ps -> exists next, read_from m p = Ok (Free next).
Proof.
  induction 1 as [|q next ps Hr Hl IH]; [by intros ?%elem_of_nil|].
  intros [->|Hp]%elem_of_cons; eauto.
Qed.

Lemma free_ok_frame heads m m' free cs cs' : free_ok heads m free cs ->
  (forall o p, o < N_ORDERS -> p ∈ free o -> read_from m' p = read_from m p) ->
  (forall c, c ∈ cs -> c ∈ cs') -> free_ok heads m' free cs'.
Proof.
  intros Hok Hsame Hcs o Ho. destruct (Hok o Ho) as (l & Hl & Hlk & Hnd & Hin).
  exists l. split_and!; [done| |done|auto]. eapply linked_ext; [done|]. intros p Hp. by apply (Hsame o).
Qed.

(** Only the header of [p] has changed. *)
Definition only_header cs m m' (p : N) : Prop :=
  forall q o, (q, o) ∈ cs -> q <> p -> read_from m' q = read_from m q.

Lemma free_ok_update heads m m' free cs o p l ps : o < N_ORDERS ->
  free_ok heads m free cs -> only_header cs m m' p ->
  (forall o', o' < N_ORDERS -> o' <> o -> p ∉ free o') ->
  linked m' l ps -> NoDup ps -> (forall q, q ∈ ps -> (q, o) ∈ cs) ->
  free_ok (<[N.to_nat o := l]> heads) m' (<[o := ps]> free) cs.
Proof.
  intros Ho Hok Hsame Hnot Hlk Hnd Hin o' Ho'. destruct (Hok o' Ho') as (l' & Hl' & Hlk' & Hnd' & Hin').
  destruct (decide (o' = o)) as [->|Hne].
  - exists l. rewrite list_lookup_insert_eq by (by eapply lookup_lt_Some).
    rewrite fn_lookup_insert. done.
  - exists l'. rewrite list_lookup_insert_ne by lia. rewrite fn_lookup_insert_ne by done.
    split_and!; [done| |done|done]. eapply linked_ext; [done|]. intros q Hq.
    apply (Hsame q o'); [auto|]. intros ->. by apply (Hnot o').
Qed.

Lemma live_ok_frame live m m' cs cs' : live_ok live m cs ->
  (forall ptr size, live !! ptr = Some size -> read_from m' (ptr - 8) = read_from m (ptr - 8)) ->
  (forall c, c ∈ cs -> c ∈ cs') -> live_ok live m' cs'.
Proof.
  intros Hok Hsame Hcs ptr size Hl. destruct (Hok _ _ Hl) as (? & ? & ? & ?).
  rewrite (Hsame _ _ Hl). auto.
Qed.

Lemma live_ok_insert live m cs p size : live_ok live m cs -> size <= MAX_POSSIBLE_ALLOCATION ->
  (p, order_of size) ∈ cs -> read_from m p = Ok (Occupied (order_of size)) ->
  live_ok (<[p + 8 := size]> live) m cs.
Proof.
  intros Hok Hs Hin Hr ptr size' [[<- <-]|[_ Hl]]%lookup_insert_Some; [|by apply Hok].
  replace (p + 8 - 8) with p by lia. split_and!; [lia|done..].
Qed.

Lemma live_bytes_insert live ptr size : live !! ptr = None ->
  live_bytes (<[ptr := size]> live) = chunk (order_of size) + live_bytes live.
Proof.
  intros Hn. unfold live_bytes, live_chunks. by rewrite (total_bytes_perm _ _ (fmap_Permutation _ _ _ (map_to_list_insert _ _ _ Hn))).
Qed.

Lemma live_bytes_delete live ptr size : live !! ptr = Some size ->
  live_bytes live = chunk (order_of size) + live_bytes (delete ptr live).
Proof.
  intros Hl. rewrite <- (live_bytes_insert _ ptr) by apply lookup_delete_eq.
  by rewrite insert_delete_id.
Qed.

Lemma live_bytes_bound live cs from to : tiled from cs to ->
  (forall ptr size, live !! ptr = Some size -> 8 <= ptr /\ (ptr - 8, order_of size) ∈ cs) ->
  live_bytes live + from <= to.
Proof.
  intros Ht Hok. pose proof (tiled_total Ht). enough (live_bytes live <= total_bytes cs) by lia.
  apply total_bytes_submseteq, NoDup_submseteq.
  - apply NoDup_fmap_2_strong; [|apply NoDup_map_to_list].
    intros [p s] [p' s'] Hp%elem_of_map_to_list Hp'%elem_of_map_to_list. simpl in *.
    destruct (Hok _ _ Hp) as (? & _), (Hok _ _ Hp') as (? & _). intros [= ? _].
    assert (p = p') as -> by lia. congruence.
  - intros c ([p s] & -> & Hp%elem_of_map_to_list)%list_elem_of_fmap. by apply (Hok p s).
Qed.
End lists.

(** ** The invariant *)

Section invariant.
Context `{!Profile} {T : Type} `{!Memory T, !MemoryLaws T}.
Implicit Types (m : T) (a : FreeingBumpHeapAllocator) (cs : list (N * N)) (free : N -> list N)
  (live : gmap N N).

(** The heap from [base] after [calls] allocations: [live] are the blocks handed out and
    not returned, [cs] the chunks and [free] the chunks on the list of each order. *)
Record heap_inv (base calls : N) a m live cs free : Prop := {
  inv_base : original_heap_base a = base;
  inv_aligned : base mod 8 = 0;
  inv_limit : page_limit m < MAX_WASM_PAGES;
  inv_sound : poisoned a = false;
  inv_observed : last_observed_memory_size a <= bytes_of m;
  inv_tiled : tiled base cs (bumper a);
  inv_bumper : bumper a <= u32_MAX;
  inv_fits : cs = [] \/ bumper a <= bytes_of m;
  inv_free : free_ok (free_lists a) m free cs;
  inv_live : live_ok live m cs;
  inv_complete p o : (p, o) ∈ cs -> p ∈ free o \/ exists size, live !! (p + 8) = Some size;
  inv_allocated : bytes_allocated (stats a) = live_bytes live;
  inv_peak : bytes_allocated (stats a) <= bytes_allocated_peak (stats a);
  inv_sum : bytes_allocated_sum (stats a) <= calls * (MAX_POSSIBLE_ALLOCATION + 8);
  inv_used : address_space_used (stats a) = bumper a - base
}.

#[global] Arguments inv_base {base calls a m live cs free} h.
#[global] Arguments inv_aligned {base calls a m live cs free} h.
#[global] Arguments inv_limit {base calls a m live cs free} h.
#[global] Arguments inv_sound {base calls a m live cs free} h.
#[global] Arguments inv_observed {base calls a m live cs free} h.
#[global] Arguments inv_tiled {base calls a m live cs free} h.
#[global] Arguments inv_bumper {base calls a m live cs free} h.
#[global] Arguments inv_fits {base calls a m live cs free} h.
#[global] Arguments inv_free {base calls a m live cs free} h.
#[global] Arguments inv_live {base calls a m live cs free} h.
#[global] Arguments inv_complete {base calls a m live cs free} h p o _.
#[global] Arguments inv_allocated {base calls a m live cs free} h.
#[global] Arguments inv_peak {base calls a m live cs free} h.
#[global] Arguments inv_sum {base calls a m live cs free} h.
#[global] Arguments inv_used {base calls a m live cs free} h.

Lemma chunk_inside {base calls a m live cs free p o} : heap_inv base calls a m live cs free ->
  (p, o) ∈ cs -> o < N_ORDERS /\ base <= p /\ p + chunk o <= bumper a /\ p + chunk o <= bytes_of m.
Proof.
  intros Hinv Hin. destruct (tiled_bounds (inv_tiled Hinv) Hin) as (? & ? & ?).
  destruct (inv_fits Hinv) as [->|]; [by apply elem_of_nil in Hin|]. lia.
Qed.

Lemma heap_fits {base calls a m live cs free c} : heap_inv base calls a m live cs free ->
  c ∈ cs -> bumper a <= bytes_of m.
Proof.
  intros Hinv Hin. destruct (inv_fits Hinv) as [->|]; [by apply elem_of_nil in Hin|done].
Qed.

(** A header that was not written over reads the same. *)
Lemma header_kept {base calls a m m' live cs free p o} : heap_inv base calls a m live cs free ->
  (p, o) ∈ cs -> pages m <= pages m' ->
  (forall x, p <= x < p + 8 -> byte_at m' x = byte_at m x) -> read_from m' p = read_from m p.
Proof.
  intros Hinv Hin Hpg Hsame. destruct (chunk_inside Hinv Hin) as (Ho & _ & _ & ?).
  pose proof (chunk_bound o Ho). apply read_from_ext; [lia| |done].
  unfold bytes_of, PAGE_SIZE in *. lia.
Qed.

(** Writing the header of one chunk leaves the others. *)
Lemma only_header_written {base calls a m m' live cs free p o} :
  heap_inv base calls a m live cs free -> (p, o) ∈ cs -> pages m <= pages m' ->
  (forall x, x < bytes_of m -> ~ p <= x < p + 8 -> byte_at m' x = byte_at m x) ->
  only_header cs m m' p.
Proof.
  intros Hinv Hin Hpg Hsame q o' Hq Hne.
  destruct (chunk_inside Hinv Hin) as (Ho & _ & _ & ?).
  destruct (chunk_inside Hinv Hq) as (Ho' & _ & _ & ?).
  pose proof (chunk_bound o Ho). pose proof (chunk_bound o' Ho').
  eapply header_kept; [done..|]. intros x Hx. apply Hsame; [lia|].
  destruct (tiled_apart (inv_tiled Hinv) Hin Hq) as [[-> _]|[?|?]]; [done|lia|lia].
Qed.

(** A free chunk is not live, and is on one list only. *)
Lemma free_not_live {base calls a m live cs free p o} : heap_inv base calls a m live cs free ->
  o < N_ORDERS -> p ∈ free o -> live !! (p + 8) = None.
Proof.
  intros Hinv Ho Hp. destruct (inv_free Hinv o Ho) as (l & _ & Hlk & _).
  destruct (linked_free _ _ _ _ Hlk Hp) as [next Hr].
  destruct (live !! (p + 8)) as [size|] eqn:Hl; [|done].
  destruct (inv_live Hinv _ _ Hl) as (_ & _ & _ & Hr').
  replace (p + 8 - 8) with p in Hr' by lia. congruence.
Qed.

Lemma free_one_list {base calls a m live cs free p o o'} : heap_inv base calls a m live cs free ->
  o < N_ORDERS -> o' < N_ORDERS -> (p, o) ∈ cs -> o' <> o -> p ∉ free o'.
Proof.
  intros Hinv Ho Ho' Hin Hne Hp. destruct (inv_free Hinv o' Ho') as (l & _ & _ & _ & Hcs).
  pose proof (chunk_bound o Ho). pose proof (chunk_bound o' Ho').
  destruct (tiled_apart (inv_tiled Hinv) Hin (Hcs _ Hp)) as [[_ ->]|[?|?]]; [done|lia|lia].
Qed.

(** *** Running the methods *)

Lemma with_bomb_ok {A} (body : M (@heap T) Error A) s s' r :
  body s = (s', Ok r) -> with_bomb body s = (s', Ok r).
Proof. unfold with_bomb. intros ->. by destruct s'. Qed.

Lemma with_bomb_err {A} (body : M (@heap T) Error A) s a m e :
  body s = ((a, m), Err e) -> with_bomb body s = ((set_poisoned a, m), Err e).
Proof. unfold with_bomb. by intros ->. Qed.

(** [allocate] up to the choice of a chunk. *)
Definition choose_chunk (o : Order) (l : Link) : M (@heap T) Error N :=
  match l with
  | Ptr header_ptr => take_free o header_ptr
  | Nil => let* n := lift (chunk_bytes o) in bump_heap n
  end.

Lemma allocate_run a m size l : poisoned a = false ->
  last_observed_memory_size a <= bytes_of m -> size <= MAX_POSSIBLE_ALLOCATION ->
  free_lists a !! N.to_nat (order_of size) = Some l ->
  allocate size (a, m) =
    with_bomb (fun s =>
      bindM (choose_chunk (order_of size) l) (finish_allocation (order_of size)) s)
      (set_observed (bytes_of m) a, m).
Proof.
  intros Hp Hobs Hs Hl. unfold allocate. run_steps.
  cbn [fst]. rewrite Hp. unfold with_bomb.
  step_with (observe_ok a m Hobs).
  step_with (from_size_ok size Hs).
  run_steps.
  rewrite (bindM_lift _ _ _ l); [done|]. unfold free_lists_index. cbn [fst set_observed free_lists].
  by rewrite Hl.
Qed.

Lemma take_free_ok a m o p next : o < N_ORDERS -> p + chunk o <= bytes_of m ->
  is_Some (free_lists a !! N.to_nat o) -> read_from m p = Ok (Free next) ->
  take_free o p (a, m) = ((set_free_lists (<[N.to_nat o := next]> (free_lists a)) a, m), Ok p).
Proof.
  intros Ho Hp [l Hl] Hr. unfold take_free. run_steps.
  step_with (order_size_ok o Ho).
  step_with (mem_size_ok m). unfold chunk in Hp.
  destruct (N.ltb_spec (bytes_of m) (p + order_capacity o + HEADER_SIZE)); [lia|].
  step_with Hr. cbn [into_free].
  unfold free_lists_set, free_lists_index. by rewrite Hl.
Qed.

Lemma counting_fits {base calls a m live cs free size p} :
  heap_inv base calls a m live cs free -> calls <= 2 ^ 100 ->
  size <= MAX_POSSIBLE_ALLOCATION -> p <= u32_MAX ->
  live_bytes live + chunk (order_of size) + base <= p ->
  bytes_allocated (stats a) + chunk (order_of size) <= u32_MAX /\
  bytes_allocated_sum (stats a) + chunk (order_of size) <= u128_MAX /\
  bytes_allocated_sum (stats a) + chunk (order_of size) <=
    (calls + 1) * (MAX_POSSIBLE_ALLOCATION + 8).
Proof.
  intros Hinv Hcalls Hs Hp Hlb. pose proof (chunk_bound _ (order_of_lt size Hs)).
  pose proof (inv_sum Hinv). rewrite (inv_allocated Hinv).
  unfold u128_MAX, MAX_POSSIBLE_ALLOCATION in *.
  change (2 ^ 100) with 1267650600228229401496703205376 in *.
  change (2 ^ 128) with 340282366920938463463374607431768211456. lia.
Qed.

(** The heap with one more block, at [p]. [a1] is the allocator once it has chosen the
    chunk. *)
Lemma allocated_inv base calls a a1 m m' live cs cs' free free' size p :
  heap_inv base calls a m live cs free -> size <= MAX_POSSIBLE_ALLOCATION ->
  pages m <= pages m' -> max_pages m' = max_pages m ->
  (forall c, c ∈ cs -> c ∈ cs') -> (p, order_of size) ∈ cs' -> live !! (p + 8) = None ->
  only_header cs m m' p -> read_from m' p = Ok (Occupied (order_of size)) ->
  tiled base cs' (bumper a1) -> bumper a1 <= bytes_of m' -> free_ok (free_lists a1) m' free' cs' ->
  (forall q o, (q, o) ∈ cs' -> q <> p ->
     q ∈ free' o \/ exists size, live !! (q + 8) = Some size) ->
  original_heap_base a1 = base -> poisoned a1 = false -> last_observed_memory_size a1 = bytes_of m ->
  stats a1 = stats a ->
  bytes_allocated_sum (stats a) + chunk (order_of size) <=
    (calls + 1) * (MAX_POSSIBLE_ALLOCATION + 8) ->
  heap_inv base (calls + 1) (set_stats (counted (chunk (order_of size)) a1) a1) m'
    (<[p + 8 := size]> live) cs' free'.
Proof.
  intros Hinv Hs Hpg Hmx Hcs Hin Hdead Honly Hocc Ht Hfits Hfree Hcomp Hb Hpo Hobs Hst Hsum.
  assert (page_limit m' < MAX_WASM_PAGES) as Hlim.
  { unfold page_limit. rewrite Hmx. apply Hinv. }
  pose proof (bounded_bytes m' Hlim).
  unfold PAGE_SIZE in *. constructor; cbn -[live_bytes MAX_POSSIBLE_ALLOCATION]; rewrite ?Hst; try done.
  - apply Hinv.
  - rewrite Hobs. unfold bytes_of, PAGE_SIZE. lia.
  - lia.
  - by right.
  - apply live_ok_insert; [|done..]. eapply live_ok_frame; [apply Hinv| |done].
    intros ptr sz Hl. destruct (inv_live Hinv _ _ Hl) as (? & _ & Hin' & _).
    eapply Honly; [done|]. intros <-. replace (ptr - 8 + 8) with ptr in Hdead by lia. congruence.
  - intros q o Hq. destruct (decide (q = p)) as [->|Hne].
    + right. exists size. by rewrite lookup_insert_eq.
    + rewrite lookup_insert_ne by lia. by apply Hcomp.
  - rewrite live_bytes_insert, (inv_allocated Hinv) by done. lia.
  - lia.
  - by rewrite Hb.
Qed.

(** *** Reusing a chunk *)

(** The first chunk of a free list. *)
Lemma free_head {base calls a m live cs free o p} : heap_inv base calls a m live cs free ->
  o < N_ORDERS -> free_lists a !! N.to_nat o = Some (Ptr p) ->
  exists next ps, free o = p :: ps /\ read_from m p = Ok (Free next) /\ linked m next ps /\
    p ∉ ps /\ NoDup ps /\ (p, o) ∈ cs /\ (forall q, q ∈ ps -> (q, o) ∈ cs) /\
    live !! (p + 8) = None.
Proof.
  intros Hinv Ho Hhead. destruct (inv_free Hinv o Ho) as (l & Hl & Hlk & Hnd & Hcs).
  rewrite Hhead in Hl. injection Hl as <-. inversion Hlk as [|? next ps Hr Hnext Heq1 Heq2]; subst.
  rewrite <- Heq2 in Hnd, Hcs. apply NoDup_cons in Hnd as [Hnp Hnd].
  exists next, ps. split_and!; try done.
  - apply Hcs. by constructor.
  - intros q Hq. apply Hcs. by constructor.
  - apply (free_not_live Hinv Ho). rewrite <- Heq2. by constructor.
Qed.

Lemma allocate_reuse {base calls a m live cs free size p} :
  heap_inv base calls a m live cs free -> calls <= 2 ^ 100 -> size <= MAX_POSSIBLE_ALLOCATION ->
  free_lists a !! N.to_nat (order_of size) = Some (Ptr p) ->
  exists a' m' free', allocate size (a, m) = ((a', m'), Ok (p + 8)) /\
    heap_inv base (calls + 1) a' m' (<[p + 8 := size]> live) cs free' /\
    live !! (p + 8) = None /\ (p, order_of size) ∈ cs /\ pages m' = pages m /\
    forall x, x < bytes_of m -> ~ p <= x < p + 8 -> byte_at m' x = byte_at m x.
Proof.
  intros Hinv Hcalls Hs Hhead. pose proof (order_of_lt size Hs) as Ho.
  destruct (free_head Hinv Ho Hhead)
    as (next & ps & Hfr & Hr & Hnext & Hnp & Hnd & Hin & Hps & Hdead).
  destruct (chunk_inside Hinv Hin) as (_ & Hbase & Hbump & Hmem).
  assert (live_bytes (<[p + 8 := size]> live) + base <= bumper a) as Hlb.
  { eapply live_bytes_bound; [apply Hinv|]. intros ptr sz [[<- <-]|[_ Hp]]%lookup_insert_Some.
    - replace (p + 8 - 8) with p by lia. by split; [lia|].
    - destruct (inv_live Hinv _ _ Hp) as (? & _ & ? & _). done. }
  rewrite live_bytes_insert in Hlb by done.
  destruct (counting_fits (size := size) (p := (bumper a)) Hinv Hcalls Hs ltac:(apply Hinv) ltac:(lia))
    as (Hfit & Hfit' & Hsum). set (o := order_of size) in *.
  set (a1 := set_free_lists (<[N.to_nat o := next]> (free_lists a)) (set_observed (bytes_of m) a)).
  destruct (finish_allocation_ok a1 m o p) as (m' & Hrun & Hpg & Hmx & Hocc & Hsame);
    [apply Hinv|done|done|done|done|simpl; rewrite (inv_base Hinv); lia|].
  pose proof (only_header_written (m' := m') Hinv Hin ltac:(lia) Hsame) as Honly.
  exists (set_stats (counted (chunk o) a1) a1), m', (<[o := ps]> free).
  split_and!; [| |done|done|done|done].
  - erewrite allocate_run; [|apply Hinv|apply Hinv|done|done]. apply with_bomb_ok.
    erewrite bindM_ok; [exact Hrun|]. by apply (take_free_ok (set_observed (bytes_of m) a)).
  - eapply allocated_inv; try done; try apply Hinv; [lia| | |].
    + unfold bytes_of. rewrite Hpg. exact (heap_fits Hinv Hin).
    + eapply free_ok_update; try done; [apply Hinv| |].
      * intros o' Ho' Hne. by apply (free_one_list (o := o) (o' := o') Hinv).
      * eapply linked_ext; [done|]. intros q Hq. eapply Honly; [by apply Hps|congruence].
    + intros q o' Hq Hne. destruct (inv_complete Hinv q o' Hq) as [Hf|?]; [left|by right].
      destruct (decide (o' = o)) as [->|Hne']; [|by rewrite fn_lookup_insert_ne].
      rewrite fn_lookup_insert. rewrite Hfr in Hf. by apply elem_of_cons in Hf as [?|?].
Qed.

(** *** A new chunk *)

Lemma choose_new a m o : o < N_ORDERS ->
  choose_chunk o Nil (a, m) = bump_heap (chunk o) (a, m).
Proof. intros Ho. unfold choose_chunk. by step_with (chunk_bytes_ok o Ho). Qed.

(** The bumper is past every chunk. *)
Lemma bumper_not_live {base calls a m live cs free} : heap_inv base calls a m live cs free ->
  live !! (bumper a + 8) = None.
Proof.
  intros Hinv. destruct (live !! (bumper a + 8)) as [size|] eqn:Hl; [|done].
  destruct (inv_live Hinv _ _ Hl) as (_ & _ & Hin & _).
  destruct (chunk_inside Hinv Hin) as (Ho & _ & ? & _).
  pose proof (chunk_bound _ Ho). lia.
Qed.

Lemma bumped_inv base calls a m m' live cs free size :
  heap_inv base calls a m live cs free -> size <= MAX_POSSIBLE_ALLOCATION ->
  let p := bumper a in let o := order_of size in
  let a1 := set_bumper (p + chunk o) (set_observed (bytes_of m) a) in
  pages m <= pages m' -> max_pages m' = max_pages m -> p + chunk o <= bytes_of m' ->
  (forall x, x < bytes_of m -> ~ p <= x < p + 8 -> byte_at m' x = byte_at m x) ->
  read_from m' p = Ok (Occupied o) ->
  bytes_allocated_sum (stats a) + chunk o <= (calls + 1) * (MAX_POSSIBLE_ALLOCATION + 8) ->
  heap_inv base (calls + 1) (set_stats (counted (chunk o) a1) a1) m' (<[p + 8 := size]> live)
    (cs ++ [(p, o)]) free.
Proof.
  intros Hinv Hs p o a1 Hpg Hmx Hfit Hsame Hocc Hsum. pose proof (order_of_lt size Hs) as Ho.
  assert (forall q o', (q, o') ∈ cs -> read_from m' q = read_from m q) as Hkept.
  { intros q o' Hq. destruct (chunk_inside Hinv Hq) as (Ho' & _ & ? & ?).
    pose proof (chunk_bound _ Ho'). eapply header_kept; [done..|]. intros x Hx. apply Hsame; [lia|].
    unfold p. lia. }
  assert (forall c, c ∈ cs -> c ∈ cs ++ [(p, o)]) as Hsub by (intros c ?; apply elem_of_app; auto).
  eapply allocated_inv; try done; try apply Hinv.
  - apply elem_of_app. right. by apply list_elem_of_singleton.
  - by eapply bumper_not_live.
  - intros q o' Hq _. by eapply Hkept.
  - by apply tiled_snoc, Ho; apply Hinv.
  - eapply free_ok_frame; [apply Hinv| |done]. intros o' q Ho' Hq.
    destruct (inv_free Hinv o' Ho') as (_ & _ & _ & _ & Hin). by apply (Hkept q o'), Hin.
  - intros q o' [Hq|[= -> ->]%list_elem_of_singleton]%elem_of_app Hne; [|done].
    by apply (inv_complete Hinv).
Qed.

Lemma allocate_bump {base calls a m live cs free size} :
  heap_inv base calls a m live cs free -> calls <= 2 ^ 100 -> size <= MAX_POSSIBLE_ALLOCATION ->
  free_lists a !! N.to_nat (order_of size) = Some Nil ->
  let p := bumper a in
  (exists a' m', allocate size (a, m) = ((a', m'), Ok (p + 8)) /\
    heap_inv base (calls + 1) a' m' (<[p + 8 := size]> live) (cs ++ [(p, order_of size)]) free /\
    live !! (p + 8) = None /\ pages m <= pages m' /\
    forall x, x < bytes_of m -> ~ p <= x < p + 8 -> byte_at m' x = byte_at m x) \/
  (exists a' m', allocate size (a, m) = ((set_poisoned a', m'), Err AllocatorOutOfSpace) /\
    bytes_of m < p + chunk (order_of size) /\ cannot_grow m (p + chunk (order_of size))).
Proof.
  intros Hinv Hcalls Hs Hhead p. pose proof (order_of_lt size Hs) as Ho. pose proof (chunk_bound _ Ho) as Hck.
  pose proof (inv_bumper Hinv) as Hbm. fold p in Hbm.
  erewrite allocate_run; [|apply Hinv|apply Hinv|done|done].
  set (o := order_of size) in *. set (a0 := set_observed (bytes_of m) a).
  destruct (bump_heap_ok a0 m (chunk o)) as [(m1 & Hrun & Hpg & Hmx & Hfit & Hkeep)|(m1 & Hrun & Hlt & Hno)].
  { apply Hinv. }
  { change (bumper a0) with p. unfold u32_MAX, MAX_POSSIBLE_ALLOCATION in *. change (2 ^ 33) with 8589934592. lia. }
  2: { right. exists a0, m1. split; [|done]. apply with_bomb_err. apply bindM_err. by rewrite choose_new. }
  left. change (bumper a0) with p in Hfit. assert (page_limit m1 < MAX_WASM_PAGES) as Hlim.
  { unfold page_limit. rewrite Hmx. apply Hinv. }
  pose proof (bounded_bytes m1 Hlim) as Hb1. unfold PAGE_SIZE in Hb1.
  assert (live_bytes live + base <= p) as Hlb.
  { eapply live_bytes_bound; [apply Hinv|]. intros ptr sz Hl.
    by destruct (inv_live Hinv _ _ Hl) as (? & _ & ? & _). }
  destruct (counting_fits (size := size) (p := (p + chunk o)) Hinv Hcalls Hs ltac:(lia) ltac:(fold o; lia))
    as (Hfit1 & Hfit2 & Hsum). fold o in Hfit1, Hfit2, Hsum.
  set (a1 := set_bumper (p + chunk o) a0).
  destruct (finish_allocation_ok a1 m1 o p) as (m' & Hrun' & Hpg' & Hmx' & Hocc & Hsame);
    [done..|simpl; rewrite (inv_base Hinv); lia|].
  exists (set_stats (counted (chunk o) a1) a1), m'.
  assert (forall x, x < bytes_of m -> ~ p <= x < p + 8 -> byte_at m' x = byte_at m x) as Hall.
  { intros x Hx Hout. rewrite Hsame, Hkeep by (done || unfold bytes_of, PAGE_SIZE in *; lia). done. }
  split_and!; [| |by eapply bumper_not_live|lia|done].
  - apply with_bomb_ok. erewrite bindM_ok; [exact Hrun'|]. by rewrite choose_new.
  - apply (bumped_inv _ _ _ m); try done; [lia|congruence|]. unfold bytes_of. by rewrite Hpg'.
Qed.

(** *** Returning a block *)

Lemma head_valid {base calls a m live cs free o l} : heap_inv base calls a m live cs free ->
  o < N_ORDERS -> free_lists a !! N.to_nat o = Some l -> header_valid (Free l).
Proof.
  intros Hinv Ho Hl. destruct l as [|q]; [done|]. simpl.
  destruct (free_head Hinv Ho Hl) as (_ & _ & _ & _ & _ & _ & _ & Hin & _).
  destruct (chunk_inside Hinv Hin) as (_ & _ & ? & _).
  pose proof (inv_bumper Hinv). pose proof (chunk_bound o Ho).
  unfold NIL_MARKER. lia.
Qed.

(** The allocator once the chunk at [p] is on the list of its order [o]. *)
Definition freed (p : N) (o : Order) (observed : N) a : FreeingBumpHeapAllocator :=
  set_stats (mkStats (bytes_allocated (stats a) - chunk o) (bytes_allocated_peak (stats a))
               (bytes_allocated_sum (stats a)) (address_space_used (stats a)))
    (set_free_lists (<[N.to_nat o := Ptr p]> (free_lists a)) (set_observed observed a)).

Lemma deallocate_run a m m' ptr o l : poisoned a = false ->
  last_observed_memory_size a <= bytes_of m -> 8 <= ptr -> o < N_ORDERS ->
  read_from m (ptr - 8) = Ok (Occupied o) -> free_lists a !! N.to_nat o = Some l ->
  write_into (Free l) (ptr - 8) m = Ok m' -> chunk o <= bytes_allocated (stats a) ->
  deallocate ptr (a, m) = ((freed (ptr - 8) o (bytes_of m) a, m'), Ok tt).
Proof.
  intros Hp Hobs Hptr Ho Hr Hl Hw Hc. unfold deallocate.
  run_steps. cbn [fst]. rewrite Hp. apply with_bomb_ok.
  step_with (observe_ok a m Hobs).
  unfold HEADER_SIZE. destruct (N.ltb_spec ptr 8); [lia|]. set (a0 := set_observed (bytes_of m) a).
  run_steps.
  step_with Hr. cbn [into_occupied].
  rewrite (bindM_lift _ _ _ (<[N.to_nat o := Ptr (ptr - 8)]> (free_lists a), l)).
  2: { unfold free_lists_replace, free_lists_set, free_lists_index.
       change (free_lists a0) with (free_lists a). by rewrite Hl. }
  cbv iota beta. set (a1 := set_free_lists _ _). rewrite (bindM_ok _ _ _ (a1, m) tt) by done.
  rewrite (bindM_ok _ _ _ (a1, m') tt).
  2: { unfold write_header, bindM, get_state, lift. cbn [fst snd]. by rewrite Hw. }
  step_with (chunk_bytes_ok o Ho).
  unfold count_deallocation, update_stats, bindM, get_state, lift. cbn [fst snd].
  change (stats a1) with (stats a). by destruct (N.ltb_spec (bytes_allocated (stats a)) (chunk o)); [lia|].
Qed.

Lemma freed_inv base calls a m m' live cs free ptr size l :
  heap_inv base calls a m live cs free -> live !! ptr = Some size ->
  let p := ptr - 8 in let o := order_of size in
  free_lists a !! N.to_nat o = Some l ->
  pages m' = pages m -> max_pages m' = max_pages m -> only_header cs m m' p ->
  read_from m' p = Ok (Free l) ->
  heap_inv base calls (freed p o (bytes_of m) a) m' (delete ptr live) cs (<[o := p :: free o]> free).
Proof.
  intros Hinv Hl p o Hhead Hpg Hmx Honly Hfr.
  destruct (inv_live Hinv _ _ Hl) as (Hptr & Hs & Hin & _). pose proof (order_of_lt size Hs) as Ho.
  destruct (inv_free Hinv o Ho) as (l' & Hl' & Hlk & Hnd & Hcs). assert (l' = l) as -> by congruence.
  assert (p ∉ free o) as Hnew.
  { intros Hf%(free_not_live Hinv Ho). unfold p in Hf.
    replace (ptr - 8 + 8) with ptr in Hf by lia. congruence. }
  assert (bytes_of m' = bytes_of m) as Hby by (unfold bytes_of; by rewrite Hpg).
  pose proof (live_bytes_delete _ _ _ Hl) as Hdel. pose proof (inv_allocated Hinv) as Hal.
  pose proof (inv_peak Hinv) as Hpk. fold o in Hdel.
  constructor; cbn -[live_bytes chunk]; rewrite ?Hby; try apply Hinv; try done.
  - unfold page_limit. rewrite Hmx. apply Hinv.
  - eapply free_ok_update; try done; [apply Hinv| | | |].
    + intros o' Ho' Hne. by apply (free_one_list (o := o) (o' := o') Hinv).
    + econstructor; [done|]. eapply linked_ext; [done|]. intros q Hq.
      eapply Honly; [by apply Hcs|]. congruence.
    + by constructor.
    + intros q [->|Hq]%elem_of_cons; [done|by apply Hcs].
  - intros ptr' size' [Hne Hl1]%lookup_delete_Some.
    destruct (inv_live Hinv _ _ Hl1) as (? & ? & Hin' & ?). split_and!; [done..|].
    rewrite (Honly _ _ Hin'); [done|]. unfold p. lia.
  - intros q o' Hq. destruct (decide (q = p)) as [->|Hne].
    + left. destruct (decide (o' = o)) as [->|Hne]; [rewrite fn_lookup_insert; by constructor|].
      pose proof (chunk_bound o Ho). destruct (chunk_inside Hinv Hq) as (Ho' & _).
      pose proof (chunk_bound o' Ho').
      destruct (tiled_apart (inv_tiled Hinv) Hin Hq) as [[_ ?]|[?|?]]; [done|unfold p, o in *; lia..].
    + destruct (inv_complete Hinv q o' Hq) as [Hf|[sz Hsz]].
      * left. destruct (decide (o' = o)) as [->|?]; [rewrite fn_lookup_insert; by constructor|by rewrite fn_lookup_insert_ne].
      * right. exists sz. rewrite lookup_delete_ne; [done|]. unfold p in Hne. lia.
  - rewrite Hal. lia.
  - lia.
Qed.

Lemma deallocate_step {base calls a m live cs free ptr size} :
  heap_inv base calls a m live cs free -> live !! ptr = Some size ->
  exists a' m' free', deallocate ptr (a, m) = ((a', m'), Ok tt) /\
    heap_inv base calls a' m' (delete ptr live) cs free' /\ pages m' = pages m /\
    free_lists a' !! N.to_nat (order_of size) = Some (Ptr (ptr - 8)) /\
    forall x, x < bytes_of m -> ~ ptr - 8 <= x < ptr -> byte_at m' x = byte_at m x.
Proof.
  intros Hinv Hl. destruct (inv_live Hinv _ _ Hl) as (Hptr & Hs & Hin & Hr).
  pose proof (order_of_lt size Hs) as Ho.
  destruct (chunk_inside Hinv Hin) as (_ & _ & Hbump & Hmem).
  pose proof (chunk_bound _ Ho) as Hck. pose proof (bounded_bytes m ltac:(apply Hinv)) as Hbd.
  unfold PAGE_SIZE in Hbd. set (o := order_of size) in *.
  destruct (inv_free Hinv o Ho) as (l & Hhead & Hlk & Hnd & Hcs).
  pose proof (live_bytes_delete _ _ _ Hl) as Hdel. fold o in Hdel.
  destruct (write_into_ok m (ptr - 8) (Free l)) as (m' & Hw & Hpg & Hmx & Hfr & Hsame);
    [by eapply head_valid|lia|lia|].
  pose proof (only_header_written (m' := m') Hinv Hin ltac:(lia) Hsame) as Honly.
  eexists _, m', (<[o := (ptr - 8) :: free o]> free). split_and!; [| |done| |].
  - eapply deallocate_run; try done; try apply Hinv. rewrite (inv_allocated Hinv). lia.
  - by eapply freed_inv.
  - simpl. apply list_lookup_insert_eq. by eapply lookup_lt_Some.
  - intros x Hx Hout. apply Hsame; [done|lia].
Qed.
End invariant.

(** ** Runs *)

Section runs.
Context `{!Profile} {T : Type} `{!Memory T, !MemoryLaws T}.
Implicit Types (m : T) (a : FreeingBumpHeapAllocator) (live : gmap N N).

(** An allocator with its memory, the number of allocations made so far and the blocks the
    program holds. The program may return a block it holds, and between the calls the
    memory may grow and change inside those blocks. *)
Inductive reachable (heap_base : N) : N -> @heap T -> gmap N N -> Prop :=
| reach_new a m :
    heap_base + 7 <= u32_MAX -> page_limit m < MAX_WASM_PAGES ->
    new_allocator heap_base = Ok a -> reachable heap_base 0 (a, m) ∅
| reach_allocate calls s s' live size ptr :
    reachable heap_base calls s live -> allocate size s = (s', Ok ptr) ->
    reachable heap_base (calls + 1) s' (<[ptr := size]> live)
| reach_deallocate calls s s' live ptr :
    reachable heap_base calls s live -> is_Some (live !! ptr) ->
    deallocate ptr s = (s', Ok tt) -> reachable heap_base calls s' (delete ptr live)
| reach_write calls a m m' live :
    reachable heap_base calls (a, m) live ->
    pages m <= pages m' -> max_pages m' = max_pages m ->
    (forall x, x < bytes_of m ->
       (forall ptr size, live !! ptr = Some size -> ~ ptr <= x < ptr + capacity size) ->
       byte_at m' x = byte_at m x) ->
    reachable heap_base calls (a, m') live.

Definition aligned_base (heap_base : N) : N := (heap_base + 7) / 8 * 8.

Lemma aligned_base_le heap_base : heap_base <= aligned_base heap_base <= heap_base + 7.
Proof.
  unfold aligned_base. pose proof (N.div_mod' (heap_base + 7) 8).
  pose proof (N.mod_lt (heap_base + 7) 8 ltac:(done)).
  set (q := (heap_base + 7) / 8) in *. set (r := (heap_base + 7) mod 8) in *. clearbody q r. lia.
Qed.

Lemma new_inv heap_base m a : heap_base + 7 <= u32_MAX -> page_limit m < MAX_WASM_PAGES ->
  new_allocator heap_base = Ok a ->
  heap_inv (aligned_base heap_base) 0 a m ∅ [] (fun _ => []).
Proof.
  intros Hb Hlim. unfold new_allocator, mul_u32, overflowing, ALIGNMENT.
  replace (heap_base + 8 - 1) with (heap_base + 7) by lia. fold (aligned_base heap_base).
  pose proof (aligned_base_le heap_base). assert (aligned_base heap_base <= u32_MAX) as Hle by lia.
  pose proof Hle as ->%N.leb_le. intros [= <-].
  constructor; cbn -[N.mul]; try done; [|lia|by left| | |lia].
  - apply N.Div0.mod_mul.
  - intros o Ho. exists Nil. split_and!; [|constructor|constructor|by intros ? ?%elem_of_nil].
    apply lookup_replicate_2. unfold N_ORDERS in *. lia.
  - by intros ? ? ?%elem_of_nil.
Qed.

Lemma write_inv base calls a m m' live cs free : heap_inv base calls a m live cs free ->
  pages m <= pages m' -> max_pages m' = max_pages m ->
  (forall x, x < bytes_of m ->
     (forall ptr size, live !! ptr = Some size -> ~ ptr <= x < ptr + capacity size) ->
     byte_at m' x = byte_at m x) ->
  heap_inv base calls a m' live cs free.
Proof.
  intros Hinv Hpg Hmx Hsame. assert (bytes_of m <= bytes_of m') by (unfold bytes_of, PAGE_SIZE; lia).
  assert (forall p o, (p, o) ∈ cs -> read_from m' p = read_from m p) as Hkept.
  { intros p o Hin. destruct (chunk_inside Hinv Hin) as (Ho & _ & _ & ?).
    pose proof (chunk_bound o Ho). eapply header_kept; [done..|]. intros x Hx. apply Hsame; [lia|].
    intros ptr size Hl. destruct (inv_live Hinv _ _ Hl) as (? & _ & Hin' & _).
    destruct (tiled_apart (inv_tiled Hinv) Hin Hin') as [[? _]|[?|Hlt]];
      [lia|lia|]. unfold chunk, HEADER_SIZE in Hlt. unfold capacity. lia. }
  destruct Hinv. constructor; try done.
  - unfold page_limit. by rewrite Hmx.
  - lia.
  - destruct inv_fits0; [by left|right; lia].
  - eapply free_ok_frame; [done| |done]. intros o p Ho Hp.
    destruct (inv_free0 o Ho) as (_ & _ & _ & _ & Hcs). by apply (Hkept p o), Hcs.
  - eapply live_ok_frame; [done| |done]. intros ptr size Hl.
    destruct (inv_live0 _ _ Hl) as (_ & _ & Hin & _). by eapply Hkept.
Qed.

(** What a request gets. *)
Definition allocation_ok base calls a m live (size : N) : Prop :=
  exists a' m' p cs' free', allocate size (a, m) = ((a', m'), Ok (p + 8)) /\
    heap_inv base (calls + 1) a' m' (<[p + 8 := size]> live) cs' free' /\
    live !! (p + 8) = None /\ pages m <= pages m' /\
    forall x, x < bytes_of m -> ~ p <= x < p + 8 -> byte_at m' x = byte_at m x.

Lemma allocate_cases {base calls a m live cs free size} :
  heap_inv base calls a m live cs free -> calls <= 2 ^ 100 ->
  (MAX_POSSIBLE_ALLOCATION < size /\
     exists a' m', allocate size (a, m) = ((set_poisoned a', m'), Err RequestedAllocationTooLarge)) \/
  (size <= MAX_POSSIBLE_ALLOCATION /\ allocation_ok base calls a m live size) \/
  (size <= MAX_POSSIBLE_ALLOCATION /\ free_lists a !! N.to_nat (order_of size) = Some Nil /\
     let required := bumper a + chunk (order_of size) in
     bytes_of m < required /\ cannot_grow m required /\
     exists a' m', allocate size (a, m) = ((set_poisoned a', m'), Err AllocatorOutOfSpace)).
Proof.
  intros Hinv Hcalls. destruct (N.lt_ge_cases MAX_POSSIBLE_ALLOCATION size) as [Hbig|Hs].
  - left. split; [done|]. exists (set_observed (bytes_of m) a), m.
    unfold allocate. run_steps. cbn [fst].
    rewrite (inv_sound Hinv). apply with_bomb_err.
    step_with (observe_ok a m (inv_observed Hinv)).
    apply bindM_err. unfold lift, order_from_size. apply N.ltb_lt in Hbig as ->. done.
  - right. destruct (inv_free Hinv _ (order_of_lt size Hs)) as ([|p] & Hhead & _).
    + destruct (allocate_bump Hinv Hcalls Hs Hhead)
        as [(a' & m' & Hrun & Hinv' & Hdead & Hpg & Hsame)|(a' & m' & Hrun & Hlt & Hno)].
      * left. split; [done|]. by exists a', m', (bumper a), (cs ++ [(bumper a, order_of size)]), free.
      * right. split; [done|]. split; [done|]. cbv zeta. split_and!; [done|done|by exists a', m'].
    + left. split; [done|]. destruct (allocate_reuse Hinv Hcalls Hs Hhead)
        as (a' & m' & free' & Hrun & Hinv' & Hdead & _ & Hpg & Hsame).
      exists a', m', p, cs, free'. split_and!; [done..|lia|done].
Qed.

Lemma reachable_inv heap_base calls s live : reachable heap_base calls s live -> calls <= 2 ^ 100 ->
  exists cs free, heap_inv (aligned_base heap_base) calls s.1 s.2 live cs free.
Proof.
  induction 1 as [a m Hb Hlim Hnew|calls [a m] s' live size ptr _ IH Hrun
                 |calls [a m] s' live ptr _ IH [size Hl] Hrun|calls a m m' live _ IH Hpg Hmx Hsame]; intros Hcalls.
  - eexists _, _. by apply new_inv.
  - destruct IH as (cs & free & Hinv); [lia|]. simpl in Hinv.
    destruct (allocate_cases (size := size) Hinv ltac:(lia))
      as [(_ & a' & m' & Hrun')|[(_ & a' & m' & p & cs' & free' & Hrun' & Hinv' & _)|(_ & _ & _ & _ & a' & m' & Hrun')]];
      rewrite Hrun in Hrun'; [done| |done]. injection Hrun' as -> ->. by exists cs', free'.
  - destruct IH as (cs & free & Hinv); [done|]. simpl in Hinv.
    destruct (deallocate_step Hinv Hl) as (a' & m' & free' & Hrun' & Hinv' & _).
    rewrite Hrun in Hrun'. injection Hrun' as ->. by exists cs, free'.
  - destruct IH as (cs & free & Hinv); [done|]. exists cs, free. by eapply write_inv.
Qed.
End runs.

(** ** Properties *)

Section properties.
Context `{!Profile} {T : Type} `{!Memory T, !MemoryLaws T}.
Implicit Types (m : T) (a : FreeingBumpHeapAllocator) (live : gmap N N).


(** C23: A block in use can always be returned. Only its header changes, returning it a
    second time is refused, and the next request of the same order gets it again, without
    growing the memory. *)
Theorem deallocate_correct heap_base calls a m live ptr size :
  reachable heap_base calls (a, m) live -> calls <= 2 ^ 100 -> live !! ptr = Some size ->
  exists a' m', deallocate ptr (a, m) = ((a', m'), Ok tt) /\ pages m' = pages m /\
    (forall x, x < bytes_of m -> ~ ptr - 8 <= x < ptr -> byte_at m' x = byte_at m x) /\
    (deallocate ptr (a', m')).2 = Err (Other "the allocation points to an empty header") /\
    forall size', size' <= MAX_POSSIBLE_ALLOCATION -> order_of size' = order_of size ->
      exists a'' m'', allocate size' (a', m') = ((a'', m''), Ok ptr) /\ pages m'' = pages m.
Proof.
  intros Hreach Hcalls Hl. destruct (reachable_inv _ _ _ _ Hreach Hcalls) as (cs & free & Hinv). cbn [fst snd] in Hinv.
  destruct (deallocate_step Hinv Hl) as (a' & m' & free' & Hrun & Hinv' & Hpg & Hhead & Hsame).
  destruct (inv_live Hinv _ _ Hl) as (Hptr & Hs & _).
  exists a', m'. split_and!; [done..| |].
  - pose proof (order_of_lt size Hs) as Ho.
    destruct (free_head Hinv' Ho Hhead) as (next & ps & _ & Hr & _).
    unfold deallocate. run_steps. cbn [fst].
    rewrite (inv_sound Hinv'). set (a1 := set_observed (bytes_of m') a').
    erewrite with_bomb_err; [done|].
    step_with (observe_ok a' m' (inv_observed Hinv')). unfold HEADER_SIZE.
    destruct (N.ltb_spec ptr 8); [lia|]. run_steps.
    by step_with Hr.
  - intros size' Hs' Heq. rewrite <- Heq in Hhead.
    destruct (allocate_reuse Hinv' Hcalls Hs' Hhead) as (a'' & m'' & _ & Hrun' & _ & _ & _ & Hpg' & _).
    replace (ptr - 8 + 8) with ptr in Hrun' by lia. exists a'', m''. split; [done|congruence].
Qed.

(** The heap is accounted for. The allocator is not poisoned, the bytes it
    reports as allocated are those of the blocks in use with their headers, they are at most the peak
    and the address space used, which is the distance of the bumper from the aligned base; and
    that space is tiled by chunks each of which is in use or on the free list of its order, so no
    space is lost. *)
Theorem heap_accounted heap_base calls a m live :
  reachable heap_base calls (a, m) live -> calls <= 2 ^ 100 ->
  poisoned a = false /\ bytes_allocated (stats a) = live_bytes live /\
  bytes_allocated (stats a) <= bytes_allocated_peak (stats a) /\
  bytes_allocated (stats a) <= address_space_used (stats a) /\
  aligned_base heap_base + address_space_used (stats a) = bumper a /\
  exists cs, tiled (aligned_base heap_base) cs (bumper a) /\
    forall p o, (p, o) ∈ cs ->
      (exists size, live !! (p + 8) = Some size /\ order_of size = o) \/
      (exists l ps, free_lists a !! N.to_nat o = Some l /\ linked m l ps /\ p ∈ ps).
Proof.
  intros Hreach Hcalls. destruct (reachable_inv _ _ _ _ Hreach Hcalls) as (cs & free & Hinv). cbn [fst snd] in Hinv.
  assert (live_bytes live + aligned_base heap_base <= bumper a) as Hlb.
  { eapply live_bytes_bound; [apply Hinv|]. intros ptr sz Hl.
    by destruct (inv_live Hinv _ _ Hl) as (? & _ & ? & _). }
  pose proof (inv_used Hinv). pose proof (inv_allocated Hinv).
  split_and!; [apply Hinv|done|apply Hinv|lia|lia|]. exists cs. split; [apply Hinv|]. intros p o Hin.
  destruct (chunk_inside Hinv Hin) as (Ho & _).
  destruct (inv_complete Hinv _ _ Hin) as [Hf|[size Hl]].
  - right. destruct (inv_free Hinv o Ho) as (l & ? & ? & _). by exists l, (free o).
  - left. exists size. split; [done|]. destruct (inv_live Hinv _ _ Hl) as (_ & Hs & Hin' & _).
    replace (p + 8 - 8) with p in Hin' by lia.
    pose proof (chunk_bound _ Ho). pose proof (chunk_bound _ (order_of_lt _ Hs)).
    destruct (tiled_apart (inv_tiled Hinv) Hin Hin') as [[_ ->]|[?|?]]; [done|lia|lia].
Qed.

(** Once a call of either method has returned an error or panicked, whatever the state
    was, every later call returns an error and changes neither the allocator nor the memory. *)
Theorem errors_are_final (s : @heap T) :
  (forall size, match allocate size s with (_, Ok _) => True | (s', _) => poisoned s'.1 = true end) /\
  (forall ptr, match deallocate ptr s with (_, Ok _) => True | (s', _) => poisoned s'.1 = true end) /\
  (poisoned s.1 = true -> forall size ptr,
     allocate size s = (s, Err (Other "the allocator has been poisoned")) /\
     deallocate ptr s = (s, Err (Other "the allocator has been poisoned"))).
Proof.
  assert (forall A (body : M (@heap T) Error A),
    match with_bomb body s with (_, Ok _) => True | (s', _) => poisoned s'.1 = true end) as Hbomb.
  { intros A body. unfold with_bomb. by destruct (body s) as [[a m] []]. }
  split_and!.
  - intros size. unfold allocate, bindM at 1, get_state at 1.
    destruct (poisoned s.1) eqn:Hp; [done|apply Hbomb].
  - intros ptr. unfold deallocate, bindM at 1, get_state at 1.
    destruct (poisoned s.1) eqn:Hp; [done|apply Hbomb].
  - intros Hp size ptr. unfold allocate, deallocate, bindM at 1, get_state at 1. rewrite Hp.
    split; [done|]. unfold bindM at 1, get_state at 1. by rewrite Hp.
Qed.

(** [Order::from_size] gives the least order whose size holds the request, and
    fails only above the maximum; the size of an order is a power of two times the minimum. *)
Theorem order_is_least size :
  match order_from_size size with
  | Ok o => o < N_ORDERS /\ order_size o = Ok (8 * 2 ^ o) /\ size <= 8 * 2 ^ o /\
      forall o', size <= 8 * 2 ^ o' -> o <= o'
  | Err e => e = RequestedAllocationTooLarge /\ MAX_POSSIBLE_ALLOCATION < size
  | Panic | Diverge => False
  end.
Proof.
  destruct (N.lt_ge_cases MAX_POSSIBLE_ALLOCATION size) as [Hbig|Hs].
  { unfold order_from_size. pose proof Hbig as ->%N.ltb_lt. done. }
  rewrite (from_size_ok _ Hs). pose proof (order_of_lt _ Hs) as Ho. pose proof (capacity_holds _ Hs) as Hc.
  unfold capacity, order_capacity in Hc. split_and!; [done|by apply order_size_ok|done|].
  intros o' Hle. unfold order_of. enough (N.log2_up (N.max 8 size) <= o' + 3) by lia.
  apply N.log2_up_le_pow2; [lia|]. rewrite N.pow_add_r. change (2 ^ 3) with 8.
  pose proof (N.pow_nonzero 2 o' ltac:(done)). lia.
Qed.

(** A header written inside the memory is read back as it was, in the eight bytes the
    format gives it; one that would not fit is refused without a change. *)
Theorem header_roundtrip m p h : header_valid h ->
  match write_into h p m with
  | Ok m' => p + 8 <= bytes_of m /\ read_from m' p = Ok h /\ pages m' = pages m /\
      forall x, x < bytes_of m -> ~ p <= x < p + 8 -> byte_at m' x = byte_at m x
  | Err e => e = Other "write out of heap bounds" /\
      read_from m p = Err (Other "read out of heap bounds")
  | Panic | Diverge => False
  end.
Proof.
  intros Hv. destruct (N.le_gt_cases (p + 8) (bytes_of m)) as [Hm|Hm];
    [destruct (N.le_gt_cases (p + 8) u32_MAX) as [Hp|Hp]|].
  - destruct (write_into_ok m p h Hv Hm Hp) as (m' & -> & ? & _ & ? & ?). done.
  - unfold write_into, write_le_u64, read_from, read_le_u64, heap_range.
    apply N.leb_gt in Hp as ->. by destruct h.
  - unfold write_into, write_le_u64, read_from, read_le_u64, heap_range. rewrite access_len.
    apply N.leb_gt in Hm as ->. by destruct (_ <=? _), h.
Qed.

(** *** The end of the address space *)

Lemma bump_full a m o : pages m = MAX_WASM_PAGES -> o < N_ORDERS -> bumper a + chunk o <= 2 ^ 32 ->
  choose_chunk o Nil (a, m) =
    match @add_u32 Error _ (bumper a) (chunk o) with
    | Ok b => ((set_bumper b a, m), Ok (bumper a))
    | _ => ((a, m), Panic)
    end.
Proof.
  intros Hfull Ho Hle. rewrite choose_new by done. unfold bump_heap, bump.
  run_steps.
  step_with (mem_size_ok m). unfold bytes_of. rewrite Hfull.
  change (MAX_WASM_PAGES * PAGE_SIZE) with (2 ^ 32).
  destruct (N.ltb_spec (2 ^ 32) (bumper a + chunk o)); [lia|].
  rewrite (bindM_ok _ _ _ (bumper a, m) tt) by done. unfold bindM, lift, add_u32, overflowing.
  destruct (_ <=? _); [done|]. destruct overflow_checks; [|done]. by destruct a.
Qed.

(** Without overflow checks the statistics wrap around. *)
Lemma count_allocation_wraps a m n : overflow_checks = false ->
  exists st, count_allocation n (a, m) = ((set_stats st a, m), Ok tt).
Proof.
  intros Hrel. assert (forall max k, exists r, @overflowing Error _ max k = Ok r) as Hok.
  { intros max k. unfold overflowing. rewrite Hrel. destruct (_ <=? _); eauto. }
  assert (forall x y, exists r, @sub_u32 Error _ x y = Ok r) as Hsub.
  { intros x y. unfold sub_u32. rewrite Hrel. destruct (_ <=? _); eauto. }
  unfold count_allocation, update_stats, bindM, get_state, lift, put_state. cbn [fst snd].
  destruct (Hok u32_MAX (bytes_allocated (stats a) + n)) as [r1 Hr1].
  unfold add_u32. rewrite Hr1. cbn [bind stats set_stats fst snd bytes_allocated_sum].
  destruct (Hok u128_MAX (bytes_allocated_sum (stats a) + n)) as [r2 ->].
  cbn [bind stats set_stats fst snd bumper original_heap_base].
  destruct (Hsub (bumper a) (original_heap_base a)) as [r3 ->]. by eexists.
Qed.

Lemma finish_wraps a m o p : overflow_checks = false -> pages m = MAX_WASM_PAGES ->
  o < N_ORDERS -> p + 8 <= u32_MAX ->
  exists st m', finish_allocation o p (a, m) = ((set_stats st a, m'), Ok (p + 8)) /\
    pages m' = MAX_WASM_PAGES.
Proof.
  intros Hrel Hfull Ho Hp. assert (u32_MAX <= bytes_of m) by (unfold bytes_of; by rewrite Hfull).
  destruct (write_into_ok m p (Occupied o) Ho ltac:(lia) Hp) as (m' & Hw & Hpg & _).
  destruct (count_allocation_wraps a m' (chunk o) Hrel) as [st Hst]. exists st, m'. split; [|congruence].
  unfold finish_allocation. rewrite (bindM_ok _ _ _ (a, m') tt).
  2: { unfold write_header, bindM, get_state, lift, put_state. cbn [fst snd]. by rewrite Hw. }
  rewrite (bindM_lift _ _ _ _ (chunk_bytes_ok o Ho)), (bindM_ok _ _ _ _ _ Hst).
  unfold lift. by rewrite add_u32_eq.
Qed.

(** A chunk that ends exactly at four GiB, in a memory of the maximal size, passes the
    check of the required size, but its end is not a [u32]. With overflow checks the
    allocation panics. Without them it succeeds, the bumper becomes zero, and the next
    request without a freed chunk is given the memory at address eight, below the heap. *)
Theorem bumper_wraps a m size : poisoned a = false -> last_observed_memory_size a <= bytes_of m ->
  pages m = MAX_WASM_PAGES -> size <= MAX_POSSIBLE_ALLOCATION ->
  free_lists a !! N.to_nat (order_of size) = Some Nil ->
  bumper a + capacity size + 8 = 2 ^ 32 ->
  if overflow_checks then (allocate size (a, m)).2 = Panic
  else exists a' m', allocate size (a, m) = ((a', m'), Ok (bumper a + 8)) /\ bumper a' = 0 /\
    forall size', size' <= MAX_POSSIBLE_ALLOCATION ->
      free_lists a !! N.to_nat (order_of size') = Some Nil -> (allocate size' (a', m')).2 = Ok 8.
Proof.
  intros Hpo Hobs Hfull Hs Hnil Hend. pose proof (order_of_lt size Hs) as Ho.
  assert (bumper a + chunk (order_of size) = 2 ^ 32) as Hend'.
  { rewrite <- Hend, <- N.add_assoc. done. }
  pose proof (chunk_bound _ Ho) as Hck. change (2 ^ 32) with (u32_MAX + 1) in *.
  rewrite (allocate_run a m size Nil) by done. set (a0 := set_observed (bytes_of m) a).
  pose proof (bump_full a0 m (order_of size) Hfull Ho (N.eq_le_incl _ _ Hend')) as Hbump.
  unfold add_u32, overflowing in Hbump. change (bumper a0) with (bumper a) in Hbump. rewrite Hend' in Hbump.
  change (u32_MAX + 1 <=? u32_MAX) with false in Hbump. cbv iota in Hbump.
  destruct overflow_checks eqn:Hrel; cbv iota in Hbump.
  { unfold with_bomb, bindM. by rewrite Hbump. }
  change ((u32_MAX + 1) mod (u32_MAX + 1)) with 0 in Hbump.
  destruct (finish_wraps (set_bumper 0 a0) m (order_of size) (bumper a) Hrel Hfull Ho ltac:(lia))
    as (st & m' & Hfin & Hfull'). eexists _, m'. split_and!.
  - apply with_bomb_ok. by rewrite (bindM_ok _ _ _ _ _ Hbump), Hfin.
  - done.
  - intros size' Hs' Hnil'. pose proof (order_of_lt size' Hs') as Ho'. pose proof (chunk_bound _ Ho') as Hck'.
    rewrite (allocate_run _ m' size' Nil); try done.
    2: { simpl. unfold bytes_of. by rewrite Hfull, Hfull'. }
    set (a1 := set_observed _ _). unfold MAX_POSSIBLE_ALLOCATION, u32_MAX in Hck'.
    pose proof (bump_full a1 m' (order_of size') Hfull' Ho' ltac:(change (2 ^ 32) with 4294967296; simpl; lia)) as Hb.
    rewrite add_u32_eq in Hb by (simpl; unfold u32_MAX; lia).
    destruct (finish_wraps (set_bumper (0 + chunk (order_of size')) a1) m' (order_of size') 0 Hrel Hfull' Ho' ltac:(done))
      as (st' & m'' & Hfin' & _).
    unfold with_bomb. step_with Hb. change (bumper a1) with 0. by rewrite Hfin'.
Qed.
End properties.

(** ** A concrete memory and runs on it *)

(** A memory of at most [linear_max] pages, if given. *)
Record linear : Type := mkLinear {
  linear_pages : N;
  linear_max : option N;
  linear_bytes : N -> N
}.

Definition linear_limit (l : linear) : N := N.min MAX_WASM_PAGES (default MAX_WASM_PAGES (linear_max l)).

#[export] Instance linear_memory : Memory linear := {
  with_access l := mkSlice (N.min (linear_pages l) (linear_limit l) * PAGE_SIZE) (linear_bytes l);
  with_access_mut l s := mkLinear (linear_pages l) (linear_max l) (slice_at s);
  grow n l :=
    let p := N.min (linear_pages l) (linear_limit l) + n in
    if p <=? linear_limit l then (mkLinear p (linear_max l) (linear_bytes l), true) else (l, false);
  pages l := N.min (linear_pages l) (linear_limit l);
  max_pages l := Some (linear_limit l)
}.

#[export] Instance linear_laws : MemoryLaws linear.
Proof.
  constructor; try done.
  - intros l. simpl. unfold page_limit. simpl. lia.
  - intros l. unfold page_limit. simpl. unfold linear_limit. lia.
  - intros n l l'. simpl. destruct (N.leb_spec (N.min (linear_pages l) (linear_limit l) + n) (linear_limit l)) as [Hle|]; [|done].
    intros [= <-]. split_and!; [|done|done]. simpl. unfold linear_limit in *. simpl. lia.
Qed.

Section samples.
#[local] Existing Instance debug.

Lemma reach_allocate_at heap_base calls (s : @heap linear) live size ptr :
  reachable heap_base calls s live -> (allocate size s).2 = Ok ptr ->
  reachable heap_base (calls + 1) (allocate size s).1 (<[ptr := size]> live).
Proof. intros Hs Hr. eapply reach_allocate; [done|]. rewrite <- Hr. apply surjective_pairing. Qed.

Definition one_page : linear := mkLinear 1 (Some 16) (fun _ => 0).
Definition start : @heap linear :=
  (mkAllocator 1008 1008 free_lists_new false 0 (mkStats 0 0 0 0), one_page).
Definition after_one : @heap linear := (allocate 100 start).1.
Definition after_two : @heap linear := (allocate 20 after_one).1.
Definition two_live : gmap N N := <[1152 := 20]> (<[1016 := 100]> ∅).

Lemma after_two_reachable : reachable 1001 2 after_two two_live.
Proof.
  apply (reach_allocate_at _ 1); [|vm_compute; reflexivity].
  apply (reach_allocate_at _ 0); [|vm_compute; reflexivity]. by apply reach_new.
Qed.


Lemma deallocate_correct_witness : exists a m a' m',
  (a, m) = after_two /\ deallocate 1016 (a, m) = ((a', m'), Ok tt) /\
  exists a'' m'', allocate 65 (a', m') = ((a'', m''), Ok 1016).
Proof.
  pose proof after_two_reachable as Hreach. destruct after_two as [a m].
  destruct (deallocate_correct 1001 2 a m two_live 1016 100 Hreach) as (a' & m' & Hrun & _ & _ & _ & Hnext);
    [done|vm_compute; reflexivity|].
  destruct (Hnext 65) as (a'' & m'' & Hrun' & _); [done|vm_compute; reflexivity|].
  by exists a, m, a', m'; split_and!; [..|by exists a'', m''].
Defined.

End samples.

(** The last sixteen bytes of a full memory, in a build without checks. *)
Section wrapped.
#[local] Existing Instance release.

Definition full : @heap linear :=
  (mkAllocator 4294967280 4294967280 free_lists_new false 0 (mkStats 0 0 0 0),
   mkLinear 65536 None (fun _ => 0)).

End wrapped.
