(* ===== verification/StateDbTypes.v ===== *)
(** * The state database: types

    The types and the pruning mode of [client/state-db/src/lib.rs], and the database below
    it. Block hashes and node keys are any countable types, as the trait [Hash] asks
    for little more than equality. A database is read through the trait [MetaDb]; here it
    is what such a read can see, finitely many entries, and which reads fail. The SCALE
    codec is an external crate: [Encode] and [Decode] are its traits, and [KeyCodec] and
    [RoundTrip] what it documents of the encodings that the state database stores. *)

From stdpp Require Import strings.
From Stdlib Require Import Strings.Byte.
From S2P Require Import Prelude.

Notation bytes := (list byte).

#[export] Instance byte_eq_dec : EqDecision byte := Byte.byte_eq_dec.
#[export] Instance byte_countable : Countable byte := inj_countable Byte.to_N Byte.of_N Byte.of_to_N.

Notation DBValue := bytes.

Definition PRUNING_MODE : bytes := String.list_byte_of_string "mode".
Definition PRUNING_MODE_ARCHIVE : bytes := String.list_byte_of_string "archive".
Definition PRUNING_MODE_ARCHIVE_CANON : bytes := String.list_byte_of_string "archive_canonical".
Definition PRUNING_MODE_CONSTRAINED : bytes := String.list_byte_of_string "constrained".
Definition DEFAULT_MAX_BLOCK_CONSTRAINT : N := 256.

(** ** Pruning modes *)

Record Constraints : Type := { max_blocks : option N }.

Inductive PruningMode : Type :=
| Constrained (c : Constraints)
| ArchiveAll
| ArchiveCanonical.

#[export] Instance Constraints_eq_dec : EqDecision Constraints.
Proof. solve_decision. Defined.
#[export] Instance PruningMode_eq_dec : EqDecision PruningMode.
Proof. solve_decision. Defined.

Definition default_constraints : Constraints :=
  {| max_blocks := Some DEFAULT_MAX_BLOCK_CONSTRAINT |}.

Definition default_mode : PruningMode := Constrained default_constraints.

Definition blocks_pruning (n : N) : PruningMode := Constrained {| max_blocks := Some n |}.

Definition is_archive (m : PruningMode) : bool :=
  match m with
  | ArchiveAll | ArchiveCanonical => true
  | Constrained _ => false
  end.

Definition mode_id (m : PruningMode) : bytes :=
  match m with
  | ArchiveAll => PRUNING_MODE_ARCHIVE
  | ArchiveCanonical => PRUNING_MODE_ARCHIVE_CANON
  | Constrained _ => PRUNING_MODE_CONSTRAINED
  end.

Definition mode_from_id (id : bytes) : option PruningMode :=
  if decide (id = PRUNING_MODE_ARCHIVE) then Some ArchiveAll
  else if decide (id = PRUNING_MODE_ARCHIVE_CANON) then Some ArchiveCanonical
  else if decide (id = PRUNING_MODE_CONSTRAINED) then Some (Constrained default_constraints)
  else None.

(** ** Errors, change sets and answers *)

(** [CE] is the error of the codec, [DE] the one of the database. *)
Inductive StateDbError (CE : Type) : Type :=
| Decoding (e : CE)
| InvalidBlock
| InvalidBlockNumber
| InvalidParent
| IncompatiblePruningModes (stored requested : PruningMode)
| TooManySiblingBlocks (number : N)
| BlockAlreadyExists
| Metadata (message : string)
| BlockUnavailable
| BlockMissing.
Arguments Decoding {CE} e.
Arguments InvalidBlock {CE}.
Arguments InvalidBlockNumber {CE}.
Arguments InvalidParent {CE}.
Arguments IncompatiblePruningModes {CE} stored requested.
Arguments TooManySiblingBlocks {CE} number.
Arguments BlockAlreadyExists {CE}.
Arguments Metadata {CE} message.
Arguments BlockUnavailable {CE}.
Arguments BlockMissing {CE}.

Inductive Error (CE DE : Type) : Type :=
| Db (e : DE)
| StateDb (e : StateDbError CE).
Arguments Db {CE DE} e.
Arguments StateDb {CE DE} e.

Inductive PinError : Type := PinInvalidBlock.

Record ChangeSet (K : Type) : Type := mkChangeSet {
  cs_inserted : list (K * DBValue);
  cs_deleted : list K
}.
Arguments mkChangeSet {K} _ _.
Arguments cs_inserted {K} _.
Arguments cs_deleted {K} _.

Record CommitSet (K : Type) : Type := mkCommitSet {
  data : ChangeSet K;
  meta : ChangeSet bytes
}.
Arguments mkCommitSet {K} _ _.
Arguments data {K} _.
Arguments meta {K} _.

Definition no_changes {K} : ChangeSet K := mkChangeSet [] [].
Definition empty_commit {K} : CommitSet K := mkCommitSet no_changes no_changes.

Inductive LastCanonicalized : Type :=
| NoBlock
| Block (n : N)
| NotCanonicalizing.

Inductive IsPruned : Type := Pruned | NotPruned | MaybePruned.

Inductive HaveBlock : Type := No | Maybe | Yes.

Definition have_block_from (have : bool) : HaveBlock := if have then Yes else No.

(** ** The codec *)

Class Encode (T : Type) : Type := encode : T -> bytes.
Class Decode (CE T : Type) : Type := decode : bytes -> CE + T.

(** [T::decode(..)?] *)
Definition decoded {CE DE T} `{!Decode CE T} (b : bytes) : outcome (Error CE DE) T :=
  match decode b with
  | inl e => Err (StateDb (Decoding e))
  | inr t => Ok t
  end.

Definition to_meta_key {S} `{!Encode S} (suffix : bytes) (data : S) : bytes := encode data ++ suffix.

(** The encodings that make up the keys of the metadata: nothing, one number of 64 bits, and a pair
    of them, each of a fixed width. *)
Class KeyCodec (enc_unit : Encode unit) (enc_u64 : Encode N) (enc_pair : Encode (N * N)) : Prop := {
  encode_unit : encode tt = [];
  encode_u64_length (n : N) : length (encode n) = 8%nat;
  encode_u64_inj (n n' : N) : (n <= u64_MAX)%N -> (n' <= u64_MAX)%N -> encode n = encode n' -> n = n';
  encode_pair_length (n i : N) : length (encode (n, i)) = 16%nat;
  encode_pair_inj (n i n' i' : N) : (n <= u64_MAX)%N -> (i <= u64_MAX)%N -> (n' <= u64_MAX)%N -> (i' <= u64_MAX)%N ->
    encode (n, i) = encode (n', i') -> n = n' /\ i = i'
}.

(** What was encoded decodes again. *)
Class RoundTrip (CE T : Type) (enc : Encode T) (dec : Decode CE T) (fits : T -> Prop) : Prop :=
  decode_encode (t : T) : fits t -> decode (encode t) = inr t.

(** ** The database *)

(** What the metadata column holds when it is read; [failing] are the reads that the backend
    fails. *)
Record Database (DE : Type) : Type := mkDatabase {
  entries : gmap bytes DBValue;
  failing : bytes -> option DE
}.
Arguments mkDatabase {DE} _ _.
Arguments entries {DE} _.
Arguments failing {DE} _ _.

(** [MetaDb::get_meta], with [map_err(Error::Db)]. *)
Definition get_meta {CE DE} (db : Database DE) (key : bytes) : outcome (Error CE DE) (option DBValue) :=
  match failing db key with
  | Some e => Err (Db e)
  | None => Ok (entries db !! key)
  end.

(** Applying a commit to a column: what is inserted first, then what is deleted. *)
Definition apply_changes {K} `{Countable K} (c : ChangeSet K) (m : gmap K DBValue) : gmap K DBValue :=
  foldl (fun m k => delete k m) (foldl (fun m kv => <[kv.1 := kv.2]> m) m (cs_inserted c)) (cs_deleted c).

(** What [apply_changes] leaves under a key. *)
Lemma apply_changes_deletes {K} `{Countable K} (ks : list K) (m : gmap K DBValue) k :
  foldl (fun m k => delete k m) m ks !! k = if decide (k ∈ ks) then None else m !! k.
Proof.
  revert m. induction ks as [|x ks IH]; intros m; cbn [foldl]; [by rewrite decide_False by apply not_elem_of_nil|].
  rewrite IH. destruct (decide (k ∈ ks)); [by rewrite decide_True by by right|]. destruct (decide (k = x)) as [->|].
  - rewrite lookup_delete_eq, decide_True; [done|by left].
  - rewrite lookup_delete_ne, decide_False; [done| |done]. by intros [|]%elem_of_cons.
Qed.

Lemma apply_changes_deleted {K} `{Countable K} (c : ChangeSet K) m k :
  k ∈ cs_deleted c -> apply_changes c m !! k = None.
Proof. intros Hk. unfold apply_changes. by rewrite apply_changes_deletes, decide_True. Qed.

Lemma apply_changes_other {K} `{Countable K} (c : ChangeSet K) m k :
  k ∉ (cs_inserted c).*1 -> apply_changes c m !! k = if decide (k ∈ cs_deleted c) then None else m !! k.
Proof.
  intros Hk. unfold apply_changes. rewrite apply_changes_deletes. destruct (decide _); [done|].
  revert m Hk. induction (cs_inserted c) as [|[x v] kvs IH]; intros m Hk; simpl; [done|]. simpl in Hk.
  rewrite IH, lookup_insert_ne; [done| |]; set_solver.
Qed.

Lemma apply_changes_last {K} `{Countable K} (kvs : list (K * DBValue)) ks m k v :
  k ∉ ks -> apply_changes (mkChangeSet (kvs ++ [(k, v)]) ks) m !! k = Some v.
Proof.
  intros Hk. unfold apply_changes. simpl. rewrite apply_changes_deletes, decide_False, foldl_app by done. simpl.
  apply lookup_insert_eq.
Qed.

Lemma apply_changes_one {K} `{Countable K} ks m (k : K) v : k ∉ ks -> apply_changes (mkChangeSet [(k, v)] ks) m !! k = Some v.
Proof. apply (apply_changes_last []). Qed.

Lemma apply_changes_skip {K} `{Countable K} (kvs : list (K * DBValue)) ks m k k' v :
  k <> k' -> apply_changes (mkChangeSet (kvs ++ [(k', v)]) ks) m !! k = apply_changes (mkChangeSet kvs ks) m !! k.
Proof.
  intros Hk. unfold apply_changes. simpl. rewrite !apply_changes_deletes, foldl_app. simpl. by rewrite lookup_insert_ne.
Qed.

Lemma apply_changes_dom {K} `{Countable K} (c : ChangeSet K) m :
  dom (apply_changes c m) = (dom m ∪ list_to_set (cs_inserted c).*1) ∖ list_to_set (cs_deleted c) :> gset K.
Proof.
  apply set_eq. intros k. rewrite elem_of_dom, elem_of_difference, elem_of_union, !elem_of_list_to_set, elem_of_dom.
  destruct (decide (k ∈ cs_deleted c)) as [Hk|Hk]; [rewrite apply_changes_deleted by done; split; [by intros [? ?]|tauto]|].
  unfold apply_changes. rewrite apply_changes_deletes, decide_False by done.
  enough (is_Some (foldl (fun m kv => <[kv.1 := kv.2]> m) m (cs_inserted c) !! k) <-> is_Some (m !! k) \/ k ∈ (cs_inserted c).*1) by tauto.
  clear Hk. revert m. induction (cs_inserted c) as [|[x v] kvs IH]; intros m; simpl; [set_solver|]. rewrite IH, elem_of_cons.
  destruct (decide (k = x)) as [->|]; [rewrite lookup_insert_eq; naive_solver|rewrite lookup_insert_ne by done; naive_solver].
Qed.

(** Changes that are put together, when the second do not insert what the first delete. *)
Lemma apply_changes_app {K} `{Countable K} (ins ins' : list (K * DBValue)) (del del' : list K) m :
  (forall k, k ∈ ins'.*1 -> k ∉ del) ->
  apply_changes (mkChangeSet (ins ++ ins') (del ++ del')) m =
  apply_changes (mkChangeSet ins' del') (apply_changes (mkChangeSet ins del) m).
Proof.
  intros Hdis. unfold apply_changes. simpl. rewrite !foldl_app. f_equal. generalize (foldl (fun m kv => <[kv.1 := kv.2]> m) m ins) as m0.
  induction ins' as [|[k v] ins' IH]; intros m0; simpl; [done|]. rewrite IH by set_solver. f_equal.
  assert (k ∉ del) as Hk by set_solver. clear IH Hdis. revert m0. induction del as [|x del IH]; intros m0; simpl; [done|].
  rewrite <- IH by set_solver. f_equal. symmetry. apply insert_delete_ne. set_solver.
Qed.
