(* ===== verification/NonCanonical.v ===== *)
(** * The non-canonical overlay

    Model of [client/state-db/src/noncanonical.rs]: the changes of the blocks above the last
    canonical one, level by level, with the nodes they insert reference counted, a journal
    of them in the database, and the blocks that were discarded while they are pinned.
    The two slices that [VecDeque::as_mut_slices] hands to [discard_descendants] are the levels
    in their order, and are one list here. Logging is left out. *)

From stdpp Require Import strings.
From S2P Require Import Prelude StateDbTypes.

#[local] Open Scope N_scope.

Definition NON_CANONICAL_JOURNAL : bytes := String.list_byte_of_string "noncanonical_journal".
Definition LAST_CANONICAL : bytes := String.list_byte_of_string "last_canonical".
Definition MAX_BLOCKS_PER_LEVEL : N := 32.

(** [u64::trailing_ones] *)
Fixpoint trailing_ones_upto (width : nat) (n : N) : N :=
  match width with
  | O => 0
  | S width => if N.testbit n 0 then 1 + trailing_ones_upto width (N.div2 n) else 0
  end.
Definition trailing_ones (n : N) : N := trailing_ones_upto 64 n.

Record JournalRecord (B K : Type) : Type := mkJournalRecord {
  jr_hash : B;
  jr_parent_hash : B;
  jr_inserted : list (K * DBValue);
  jr_deleted : list K
}.
Arguments mkJournalRecord {B K} _ _ _ _.
Arguments jr_hash {B K} _.
Arguments jr_parent_hash {B K} _.
Arguments jr_inserted {B K} _.
Arguments jr_deleted {B K} _.

Record BlockOverlay (B K : Type) : Type := mkBlockOverlay {
  hash : B;
  journal_index : N;
  journal_key : bytes;
  inserted : list K;
  deleted : list K
}.
Arguments mkBlockOverlay {B K} _ _ _ _ _.
Arguments hash {B K} _.
Arguments journal_index {B K} _.
Arguments journal_key {B K} _.
Arguments inserted {B K} _.
Arguments deleted {B K} _.

Record OverlayLevel (B K : Type) : Type := mkOverlayLevel {
  blocks : list (BlockOverlay B K);
  used_indices : N
}.
Arguments mkOverlayLevel {B K} _ _.
Arguments blocks {B K} _.
Arguments used_indices {B K} _.

Record NonCanonicalOverlay (B K : Type) `{Countable B, Countable K} : Type := mkOverlay {
  last_canonicalized : option (B * N);
  levels : list (OverlayLevel B K);
  parents : gmap B B;
  values : gmap K (N * DBValue);
  pinned : gmap B N;
  pinned_insertions : gmap B (list K * N);
  pinned_canonincalized : list B
}.
Arguments mkOverlay {B K _ _ _ _} _ _ _ _ _ _ _.
Arguments last_canonicalized {B K _ _ _ _} _.
Arguments levels {B K _ _ _ _} _.
Arguments parents {B K _ _ _ _} _.
Arguments values {B K _ _ _ _} _.
Arguments pinned {B K _ _ _ _} _.
Arguments pinned_insertions {B K _ _ _ _} _.
Arguments pinned_canonincalized {B K _ _ _ _} _.

Section fields.
Context {B K : Type} `{Countable B, Countable K}.
Implicit Types s : NonCanonicalOverlay B K.

Definition set_last_canonicalized x s := mkOverlay x (levels s) (parents s) (values s) (pinned s)
  (pinned_insertions s) (pinned_canonincalized s).
Definition set_levels x s := mkOverlay (last_canonicalized s) x (parents s) (values s) (pinned s)
  (pinned_insertions s) (pinned_canonincalized s).
Definition set_parents x s := mkOverlay (last_canonicalized s) (levels s) x (values s) (pinned s)
  (pinned_insertions s) (pinned_canonincalized s).
Definition set_values x s := mkOverlay (last_canonicalized s) (levels s) (parents s) x (pinned s)
  (pinned_insertions s) (pinned_canonincalized s).
Definition set_pinned x s := mkOverlay (last_canonicalized s) (levels s) (parents s) (values s) x
  (pinned_insertions s) (pinned_canonincalized s).
Definition set_pinned_insertions x s := mkOverlay (last_canonicalized s) (levels s) (parents s)
  (values s) (pinned s) x (pinned_canonincalized s).
Definition set_pinned_canonincalized x s := mkOverlay (last_canonicalized s) (levels s) (parents s)
  (values s) (pinned s) (pinned_insertions s) x.
End fields.

Section model.
Context {P : Profile} {B K CE : Type} `{Countable B, Countable K}.
Context {enc_unit : Encode unit} {enc_key : Encode (N * N)} {enc_canonical : Encode (B * N)}
        {enc_record : Encode (JournalRecord B K)}.
Context {dec_canonical : Decode CE (B * N)} {dec_record : Decode CE (JournalRecord B K)}.

Notation overlay := (NonCanonicalOverlay B K).
Notation level := (OverlayLevel B K).
Notation block := (BlockOverlay B K).

Definition to_journal_key (number index : N) : bytes := to_meta_key NON_CANONICAL_JOURNAL (number, index).

(** ** Levels *)

Definition new_level : level := mkOverlayLevel [] 0.

Definition level_push {E} (o : block) (l : level) : outcome E level :=
  let! bit := shl_u64 1 (journal_index o) in
  Ok (mkOverlayLevel (blocks l ++ [o]) (N.lor (used_indices l) bit)).

Definition available_index (l : level) : N := trailing_ones (used_indices l).

Definition level_remove {E} (index : nat) (l : level) : outcome E (level * block) :=
  let! o := expect (blocks l !! index) in
  let! bit := shl_u64 1 (journal_index o) in
  Ok (mkOverlayLevel (delete index (blocks l)) (N.land (used_indices l) (N.lnot bit 64)), o).

(** ** Reference counted values *)

Definition insert_value {E} (kv : K * DBValue) : M overlay E unit :=
  let '(k, v) := kv in
  let* s := get_state in
  let* _ := lift (debug_assert (match values s !! k with
                                | Some (_, value) => bool_decide (value = v)
                                | None => true
                                end)) in
  let '(counter, value) := default (0, v) (values s !! k) in
  let* counter := lift (add_u32 counter 1) in
  put_state (set_values (<[k := (counter, value)]> (values s)) s).

Definition insert_values {E} (inserted : list (K * DBValue)) : M overlay E unit :=
  for_each insert_value inserted.

Definition discard_value {E} (k : K) : M overlay E unit :=
  let* s := get_state in
  match values s !! k with
  | Some (counter, value) =>
      let* counter := lift (sub_u32 counter 1) in
      put_state (set_values (if counter =? 0 then delete k (values s)
                             else <[k := (counter, value)]> (values s)) s)
  | None => lift (debug_assert false)
  end.

Definition discard_values {E} (inserted : list K) : M overlay E unit :=
  for_each discard_value inserted.

(** ** Discarding a subtree *)

(** The parent of a block of the window. *)
Definition parent_of_block {E} (s : overlay) (o : block) : outcome E B := expect (parents s !! hash o).

(** A block taken out for good. *)
Definition drop_block {E} (o : block) : M overlay E unit :=
  let* _ := modify_state (fun s => set_parents (delete (hash o) (parents s)) s) in
  discard_values (inserted o).

(** The end of one discarded block: what it inserted is kept when it or a descendant
    is pinned. *)
Definition discard_block {E} (num_pinned : N) (o : block) : M overlay E unit :=
  if num_pinned =? 0 then drop_block o
  else
    modify_state (fun s =>
      set_pinned_insertions (<[hash o := (inserted o, num_pinned)]> (pinned_insertions s)) s).

(** [depth] bounds the recursion: each call works on one level less. *)
Fixpoint discard_descendants {E} (depth : nat) (ls : list level) (h : B)
  : M overlay E (list level * N) :=
  match ls with
  | [] => ret ([], 0)
  | first :: remainder =>
      match depth with
      | O => lift Diverge
      | S depth =>
          loopM (S (length (blocks first))) (fun '(l, remainder, pinned_children) =>
            let* s := get_state in
            let* i := lift (position (fun o => let! p := parent_of_block s o in
                                               Ok (bool_decide (p = h))) (blocks l)) in
            match i with
            | None => ret (Break (l :: remainder, pinned_children))
            | Some i =>
                let* '(l, o) := lift (level_remove i l) in
                let* '(remainder, num_pinned) := discard_descendants depth remainder (hash o) in
                let* s := get_state in
                let* num_pinned := lift (if bool_decide (is_Some (pinned s !! hash o))
                                         then add_u32 num_pinned 1 else Ok num_pinned) in
                let* _ := discard_block num_pinned o in
                let* pinned_children := lift (if num_pinned =? 0 then Ok pinned_children
                                              else add_u32 pinned_children num_pinned) in
                ret (Continue (l, remainder, pinned_children))
            end) (first, remainder, 0)
      end
  end.

(** ** Operations *)

Definition front_block_number {E} (s : overlay) : outcome E N :=
  match last_canonicalized s with
  | Some (_, n) => add_u64 n 1
  | None => Ok 0
  end.

Definition last_canonicalized_block_number (s : overlay) : option N := snd <$> last_canonicalized s.

(** One slot of the journal, when the overlay is read back. *)
Definition read_journal {DE} (db : Database DE) (number index : N) (l : level)
  : M overlay (Error CE DE) level :=
  let journal_key := to_journal_key number index in
  let* found := lift (get_meta db journal_key) in
  match found with
  | None => ret l
  | Some r =>
      let* r := lift (decoded r) in
      let o := mkBlockOverlay (jr_hash r) index journal_key (jr_inserted r).*1 (jr_deleted r) in
      let* _ := insert_values (jr_inserted r) in
      let* l := lift (level_push o l) in
      let* _ := modify_state (fun s =>
        set_parents (<[jr_hash r := jr_parent_hash r]> (parents s)) s) in
      ret l
  end.

Definition indices : list N := map N.of_nat (seq 0 (N.to_nat MAX_BLOCKS_PER_LEVEL)).

Definition read_levels {DE} (db : Database DE) (number : N) : M overlay (Error CE DE) unit :=
  loopM (S (size (entries db))) (fun number =>
    let* l := for_fold (read_journal db number) indices new_level in
    match blocks l with
    | [] => ret (Break tt)
    | _ =>
        let* _ := modify_state (fun s => set_levels (levels s ++ [l]) s) in
        let* number := lift (add_u64 number 1) in
        ret (Continue number)
    end) number.

Definition nc_new {DE} (db : Database DE) : outcome (Error CE DE) overlay :=
  let! buffer := get_meta db (to_meta_key LAST_CANONICAL tt) in
  let! last := match buffer with
               | Some buffer => let! x := decoded buffer in Ok (Some x)
               | None => Ok None
               end in
  let s := mkOverlay last [] ∅ ∅ ∅ ∅ [] in
  match last with
  | None => Ok s
  | Some (_, n) =>
      let! number := add_u64 n 1 in
      let '(s, r) := read_levels db number s in
      let! _ := r in Ok s
  end.

(** The checks on the number and the parent of a new block; the changes to the metadata
    when the block is the first. *)
Definition check_position (number : N) (parent_hash : B) (front : N)
  : M overlay (StateDbError CE) (list (bytes * DBValue)) :=
  let* s := get_state in
  let len := N.of_nat (length (levels s)) in
  match last_canonicalized s with
  | None =>
      if (len =? 0) && (0 <? number) then
        let* n := lift (sub_u64 number 1) in
        let last := (parent_hash, n) in
        let* _ := put_state (set_last_canonicalized (Some last) s) in
        ret [(to_meta_key LAST_CANONICAL tt, encode last)]
      else ret []
  | Some (h, n) =>
      let* outside := lift ((number <? front) ||!
        (let! top := add_u64 front len in Ok (top <? number))) in
      if outside then throw InvalidBlockNumber else
      if number =? front then
        let* valid := lift (bool_decide (h = parent_hash) &&!
          (let! n' := sub_u64 number 1 in Ok (n =? n'))) in
        if valid then ret [] else throw InvalidParent
      else if bool_decide (is_Some (parents s !! parent_hash)) then ret []
      else throw InvalidParent
  end.

(** The level a block goes to, a new one when it is the next. *)
Definition level_for {E} (number front : N) : M overlay E (nat * level) :=
  let* s := get_state in
  let len := length (levels s) in
  let* next := lift ((N.of_nat len =? 0) ||!
    (let! top := add_u64 front (N.of_nat len) in Ok (number =? top))) in
  if next then
    let* _ := put_state (set_levels (levels s ++ [new_level]) s) in
    ret (len, new_level)
  else
    let* i := lift (sub_u64 number front) in
    let* l := lift (expect (levels s !! N.to_nat i)) in
    ret (N.to_nat i, l).

Definition nc_insert (h : B) (number : N) (parent_hash : B) (changeset : ChangeSet K)
  : M overlay (StateDbError CE) (CommitSet K) :=
  let* s := get_state in
  let* front := lift (front_block_number s) in
  let* last := check_position number parent_hash front in
  let* '(i, l) := level_for number front in
  if MAX_BLOCKS_PER_LEVEL <=? N.of_nat (length (blocks l)) then throw (TooManySiblingBlocks number) else
  if existsb (fun b => bool_decide (hash b = h)) (blocks l) then throw BlockAlreadyExists else
  let index := available_index l in
  let journal_key := to_journal_key number index in
  let o := mkBlockOverlay h index journal_key (cs_inserted changeset).*1 (cs_deleted changeset) in
  let* l := lift (level_push o l) in
  let* _ := modify_state (fun s => set_levels (<[i := l]> (levels s)) s) in
  let* _ := modify_state (fun s => set_parents (<[h := parent_hash]> (parents s)) s) in
  let record := mkJournalRecord h parent_hash (cs_inserted changeset) (cs_deleted changeset) in
  let* _ := insert_values (cs_inserted changeset) in
  ret (mkCommitSet no_changes (mkChangeSet (last ++ [(journal_key, encode record)]) [])).

(** The journal keys of the children of [h] on a level, each with those that [below] gives
    for its hash. *)
Fixpoint child_journals {E} (s : overlay) (h : B) (below : B -> outcome E (list bytes)) (bs : list block)
  : outcome E (list bytes) :=
  match bs with
  | [] => Ok []
  | o :: bs =>
      let! parent := parent_of_block s o in
      let! here := (if bool_decide (parent = h)
                    then let! js := below (hash o) in Ok (journal_key o :: js)
                    else Ok []) in
      let! rest := child_journals s h below bs in
      Ok (here ++ rest)
  end.

(** The journal keys of the descendants of [h], the levels being those above it. *)
Fixpoint discard_journals {E} (s : overlay) (ls : list level) (h : B) : outcome E (list bytes) :=
  match ls with
  | [] => Ok []
  | l :: ls => child_journals s h (discard_journals s ls) (blocks l)
  end.

Definition nc_pin {E} (h : B) : M overlay E unit :=
  let* s := get_state in
  let* refs := lift (add_u32 (default 0 (pinned s !! h)) 1) in
  put_state (set_pinned (<[h := refs]> (pinned s)) s).

(** The pins that all discarded blocks are kept for. *)
Definition retained_pins (s : overlay) : N := map_fold (fun _ x acc => snd x + acc) 0 (pinned_insertions s).

(** One round of the walk from an unpinned block to its ancestors. *)
Definition release_one {E} (parent : option B) : M overlay E (control (option B) unit) :=
  match parent with
  | None => ret (Break tt)
  | Some h =>
      let* s := get_state in
      let parent := parents s !! h in
      match pinned_insertions s !! h with
      | None => ret (Break tt)
      | Some (keys, n) =>
          let* n := lift (sub_u32 n 1) in
          let* _ := (if n =? 0 then
              let* _ := put_state (set_pinned_insertions (delete h (pinned_insertions s)) s) in
              let* _ := discard_values keys in
              modify_state (fun s => set_parents (delete h (parents s)) s)
            else put_state (set_pinned_insertions (<[h := (keys, n)]> (pinned_insertions s)) s)) in
          ret (Continue parent)
      end
  end.

(** Every round takes one pin away, except the last. *)
Definition release_ancestors {E} (h : B) : M overlay E unit := fun s =>
  loopM (S (N.to_nat (retained_pins s) + 1)) release_one (Some h) s.

Definition nc_unpin {E} (h : B) : M overlay E unit :=
  let* s := get_state in
  match pinned s !! h with
  | None => ret tt
  | Some refs =>
      let* refs := lift (sub_u32 refs 1) in
      if refs =? 0 then
        let* _ := put_state (set_pinned (delete h (pinned s)) s) in
        release_ancestors h
      else put_state (set_pinned (<[h := refs]> (pinned s)) s)
  end.

Definition nc_sync {E} : M overlay E unit :=
  let* s := get_state in
  let pinned := pinned_canonincalized s in
  let* _ := put_state (set_pinned_canonincalized [] s) in
  let* _ := for_each nc_unpin pinned in
  modify_state (set_pinned_canonincalized []).

(** What [canonicalize] does to the levels above with one block of the first level. *)
Definition discard_above {E} (h : B) : M overlay E N :=
  let* s := get_state in
  let* '(ls, n) := discard_descendants (length (levels s)) (levels s) h in
  let* _ := modify_state (set_levels ls) in
  ret n.

(** The changes of the canonical block, with the values of what it inserted. *)
Definition canonical_changes {E} (s : overlay) (o : block) (c : ChangeSet K) : outcome E (ChangeSet K) :=
  let! new := foldr (fun k acc => let! v := expect (values s !! k) in
                                  let! acc := acc in Ok ((k, snd v) :: acc)) (Ok []) (inserted o) in
  Ok (mkChangeSet (cs_inserted c ++ new) (cs_deleted c ++ deleted o)).

(** One block of the popped level, with its position. *)
Definition canonicalize_one {E} (index : nat) (x : nat * block) (acc : ChangeSet K * list bytes)
  : M overlay E (ChangeSet K * list bytes) :=
  let '(i, o) := x in
  let '(c, journals) := acc in
  let* '(c, journals, pinned_children) :=
    (if Nat.eqb i index then
       let* s := get_state in
       let* c := lift (canonical_changes s o c) in
       ret (c, journals, 0)
     else
       let* s := get_state in
       let* js := lift (discard_journals s (levels s) (hash o)) in
       let* n := discard_above (hash o) in
       ret (c, journals ++ js, n)) in
  let* s := get_state in
  let* pinned_children := lift (if bool_decide (is_Some (pinned s !! hash o))
                                then add_u32 pinned_children 1 else Ok pinned_children) in
  let* _ := discard_block pinned_children o in
  ret (c, journals ++ [journal_key o]).

Definition nc_canonicalize (h : B) (commit : CommitSet K)
  : M overlay (StateDbError CE) (N * CommitSet K) :=
  let* s := get_state in
  match levels s with
  | [] => throw InvalidBlock
  | l :: ls =>
      let* _ := put_state (set_levels ls s) in
      let* index := lift (position (fun o => Ok (bool_decide (hash o = h))) (blocks l)) in
      match index with
      | None => throw InvalidBlock
      | Some index =>
          let* _ := nc_pin h in
          let* _ := modify_state (fun s =>
            set_pinned_canonincalized (pinned_canonincalized s ++ [h]) s) in
          let* '(c, journals) :=
            for_fold (canonicalize_one index) (imap pair (blocks l)) (data commit, []) in
          let* s := get_state in
          let* num := lift (front_block_number s) in
          let m := mkChangeSet (cs_inserted (meta commit) ++ [(to_meta_key LAST_CANONICAL tt, encode (h, num))])
                     (cs_deleted (meta commit) ++ journals) in
          let* _ := modify_state (set_last_canonicalized (Some (h, num))) in
          ret (num, mkCommitSet c m)
      end
  end.

Definition nc_get (s : overlay) (key : K) : option DBValue := snd <$> values s !! key.

Definition nc_have_block (s : overlay) (h : B) : bool := bool_decide (is_Some (parents s !! h)).

Definition nc_revert_one {E} : M overlay E (option (CommitSet K)) :=
  let* s := get_state in
  match last (levels s) with
  | None => ret None
  | Some l =>
      let* _ := put_state (set_levels (take (length (levels s) - 1) (levels s)) s) in
      let* _ := for_each drop_block (blocks l) in
      ret (Some (mkCommitSet no_changes (mkChangeSet [] (map journal_key (blocks l)))))
  end.

(** The highest level that has the block, with its position there. *)
Definition find_block {E} (h : B) (s : overlay) : outcome E (option (nat * nat)) :=
  foldl (fun found i =>
    let! found := found in
    match found with
    | Some x => Ok (Some x)
    | None =>
        let! l := expect (levels s !! i) in
        let! p := position (fun o => Ok (bool_decide (hash o = h))) (blocks l) in
        Ok (pair i <$> p)
    end) (Ok None) (rev (seq 0 (length (levels s)))).

Definition pop_empty_back {E} : M overlay E unit :=
  modify_state (fun s =>
    match last (levels s) with
    | Some l => match blocks l with
                | [] => set_levels (take (length (levels s) - 1) (levels s)) s
                | _ => s
                end
    | None => s
    end).

Definition nc_remove {E} (h : B) : M overlay E (option (CommitSet K)) :=
  let* s := get_state in
  let* found := lift (find_block h s) in
  match found with
  | None => let* _ := pop_empty_back in ret None
  | Some (i, p) =>
      let* last := lift (sub_usize (length (levels s)) 1) in
      if negb (Nat.eqb i last) && existsb (fun x => bool_decide (snd x = h)) (map_to_list (parents s)) then ret None else
      let* l := lift (expect (levels s !! i)) in
      let* '(l, o) := lift (level_remove p l) in
      let* _ := put_state (set_levels (<[i := l]> (levels s)) s) in
      let* _ := drop_block o in
      let* _ := pop_empty_back in
      ret (Some (mkCommitSet no_changes (mkChangeSet [] [journal_key o])))
  end.
End model.
