(* ===== verification/NonCanonicalCount.v ===== *)
(** * The non-canonical overlay: accounting

    What the overlay keeps: the blocks of each level with their slots of the journal, the parent
    of every block that is in the window or retained for a pin, and for every node the number of
    those blocks that inserted it. *)

From stdpp Require Import strings.
From S2P Require Import Prelude StateDbTypes NonCanonical.

#[local] Open Scope N_scope.

(** ** Journal indices *)

Lemma shl_one_u64 {E} `{!Profile} i : i < 64 -> shl_u64 (E := E) 1 i = Ok (2 ^ i).
Proof.
  intros Hi. unfold shl_u64. rewrite (proj2 (N.leb_gt 64 i)) by lia. simpl.
  rewrite (N.mod_small i), N.shiftl_1_l by lia. rewrite N.mod_small; [done|].
  change (u64_MAX + 1) with (2 ^ 64). by apply N.pow_lt_mono_r.
Qed.

(** The number of trailing ones is the index of the first bit that is not set. *)
Lemma trailing_ones_ok w n :
  let i := trailing_ones_upto w n in
  i <= N.of_nat w /\ (forall j, j < i -> N.testbit n j = true) /\ (i < N.of_nat w -> N.testbit n i = false).
Proof.
  revert n. induction w as [|w IH]; intros n; cbn [trailing_ones_upto]; [repeat split; lia|].
  destruct (N.testbit n 0) eqn:H0; [|repeat split; [lia|lia|done]].
  destruct (IH (N.div2 n)) as (Hle & Hset & Hfree). set (i := trailing_ones_upto w (N.div2 n)) in *.
  assert (forall j, N.testbit (N.div2 n) j = N.testbit n (j + 1)) as Hdiv.
  { intros j. rewrite N.div2_spec, N.shiftr_spec'; done. }
  repeat split; [lia| |].
  - intros j Hj. destruct (decide (j = 0)) as [->|]; [done|].
    replace j with (j - 1 + 1) by lia. rewrite <- Hdiv. apply Hset. lia.
  - intros Hi. rewrite N.add_comm, <- Hdiv. apply Hfree. lia.
Qed.

(** A list of numbers below [n] without repetition, and shorter, misses one. *)
Lemma missing_index (n : nat) (l : list N) :
  NoDup l -> (forall i, i ∈ l -> i < N.of_nat n) -> (length l < n)%nat -> exists i, i < N.of_nat n /\ i ∉ l.
Proof.
  intros Hnd Hb Hlen.
  destruct (decide (Forall (fun i => i ∈ l) (map N.of_nat (seq 0 n)))) as [Hall|Hnot].
  - exfalso. assert (map N.of_nat (seq 0 n) ⊆+ l) as Hsub%submseteq_length.
    { apply NoDup_submseteq; [|intros x Hx; by eapply Forall_forall in Hall].
      apply NoDup_fmap_2; [intros x y; lia|apply NoDup_seq]. }
    rewrite length_map, length_seq in Hsub. lia.
  - apply not_Forall_Exists, Exists_exists in Hnot; [|apply _]. destruct Hnot as (i & Hi & Hnot).
    apply list_elem_of_fmap in Hi as (j & -> & Hj%elem_of_seq). exists (N.of_nat j). split; [lia|done].
Qed.

(** ** Counting keys *)

Section counting.
Context {K : Type} `{Countable K}.

Definition occ (k : K) (ks : list K) : N := N.of_nat (length (filter (fun x => x = k) ks)).

Lemma occ_cons k x ks : occ k (x :: ks) = (if decide (x = k) then 1 else 0) + occ k ks.
Proof. unfold occ. rewrite filter_cons. destruct (decide (x = k)); simpl; lia. Qed.

Lemma occ_app k l1 l2 : occ k (l1 ++ l2) = occ k l1 + occ k l2.
Proof. unfold occ. rewrite filter_app, length_app. lia. Qed.

#[export] Instance occ_perm k : Proper ((≡ₚ) ==> (=)) (occ k).
Proof. intros l1 l2 Hl. unfold occ. by rewrite Hl. Qed.

Lemma occ_pos k ks : 0 < occ k ks <-> k ∈ ks.
Proof.
  induction ks as [|x ks IH]; [split; [done|by intros ?%elem_of_nil]|].
  rewrite occ_cons, elem_of_cons. destruct (decide (x = k)) as [->|]; [split; [by left|lia]|].
  rewrite N.add_0_l, IH. naive_solver.
Qed.

Lemma occ_length k ks : occ k ks <= N.of_nat (length ks).
Proof. unfold occ. pose proof (length_filter (fun x => x = k) ks). lia. Qed.

(** The counters are those of the keys [ks], each with its node. *)
Definition counted (node : K -> DBValue) (ks : list K) (vs : gmap K (N * DBValue)) : Prop :=
  forall k, vs !! k = if decide (occ k ks = 0) then None else Some (occ k ks, node k).

#[export] Instance counted_perm node : Proper ((≡ₚ) ==> (=) ==> iff) (counted node).
Proof. intros l1 l2 Hl vs ? <-. split; intros Hc k; rewrite (Hc k); by rewrite (occ_perm k _ _ Hl). Qed.

Lemma counted_nil node : counted node [] ∅.
Proof. intros k. by rewrite lookup_empty. Qed.

Lemma counted_lookup node ks vs k : counted node ks vs -> k ∈ ks -> exists n, vs !! k = Some (n, node k).
Proof.
  intros Hc Hk%occ_pos. rewrite Hc. destruct (decide _); [lia|]. by eexists.
Qed.
End counting.

(** ** The blocks of the chain *)

(** What the hashes stand for: of a block, the number and the parent in its header and the
    changes it makes to the state; of a node, its value. *)
Class Chain (B K : Type) : Type := {
  number_of : B -> N;
  parent_of : B -> B;
  changes_of : B -> ChangeSet K;
  node : K -> DBValue;
  number_parent h : number_of h <> 0 -> number_of (parent_of h) + 1 = number_of h
}.

Definition keys_of {B K} `{!Chain B K} (h : B) : list K := (cs_inserted (changes_of h)).*1.

(** A hash that is not the one that a genesis block has for a parent. *)
Definition real {B K} `{!Chain B K} (h : B) : Prop := forall g, number_of g = 0 -> parent_of g <> h.

(** The ancestor of a block some generations up, and whether a block is [h] or above it. *)
Definition ancestor {B K} `{!Chain B K} (k : nat) (x : B) : B := Nat.iter k parent_of x.
Definition descends {B K} `{Countable B, !Chain B K} (h x : B) : bool :=
  (number_of h <=? number_of x) && bool_decide (ancestor (N.to_nat (number_of x - number_of h)) x = h).

Section chain.
Context {B K : Type} `{Countable B, chain : !Chain B K}.
Implicit Types h x y : B.

Lemma ancestor_number k x : N.of_nat k <= number_of x -> number_of (ancestor k x) = number_of x - N.of_nat k.
Proof.
  induction k as [|k IH]; intros Hk; [simpl; lia|]. change (ancestor (S k) x) with (parent_of (ancestor k x)).
  specialize (IH ltac:(lia)). pose proof (number_parent (ancestor k x)). lia.
Qed.

Lemma ancestor_add i j x : ancestor (i + j) x = ancestor i (ancestor j x).
Proof. unfold ancestor. by rewrite Nat.iter_add. Qed.

Lemma descends_spec h x :
  descends h x = true <-> exists k, ancestor k x = h /\ N.of_nat k <= number_of x.
Proof.
  unfold descends. rewrite andb_true_iff, N.leb_le, bool_decide_eq_true. split.
  - intros [Hle Ha]. eexists. split; [exact Ha|]. lia.
  - intros (k & <- & Hk). rewrite ancestor_number by done. split; [lia|]. f_equal. lia.
Qed.

Lemma descends_number h x : descends h x = true -> number_of h <= number_of x.
Proof. unfold descends. rewrite andb_true_iff, N.leb_le. tauto. Qed.

Lemma descends_refl h : descends h h = true.
Proof. apply descends_spec. exists 0%nat. split; [done|lia]. Qed.

Lemma descends_trans h x y : descends h x = true -> descends x y = true -> descends h y = true.
Proof.
  rewrite !descends_spec. intros (i & <- & Hi) (j & <- & Hj). exists (i + j)%nat.
  rewrite ancestor_add. split; [done|]. rewrite ancestor_number in Hi by done. lia.
Qed.

Lemma descends_same_number h x : number_of h = number_of x -> descends h x = bool_decide (x = h).
Proof. intros Hn. unfold descends. rewrite Hn, N.leb_refl, N.sub_diag. done. Qed.

Lemma descends_parent x : number_of x <> 0 -> descends (parent_of x) x = true.
Proof. intros Hx. apply descends_spec. exists 1%nat. split; [done|lia]. Qed.

Lemma descends_child h x : number_of h + 1 = number_of x -> descends h x = bool_decide (parent_of x = h).
Proof.
  intros Hn. unfold descends. rewrite (proj2 (N.leb_le _ _)) by lia.
  by replace (N.to_nat (number_of x - number_of h)) with 1%nat by lia.
Qed.

(** Of two ancestors of one block, the lower is an ancestor of the other. *)
Lemma descends_linear h x y :
  descends h y = true -> descends x y = true -> number_of h <= number_of x -> descends h x = true.
Proof.
  rewrite !descends_spec. intros (i & <- & Hi) (j & <- & Hj). rewrite !ancestor_number by done. intros Hle.
  exists (i - j)%nat. rewrite <- ancestor_add. split; [|lia]. f_equal. lia.
Qed.
Lemma descends_step h x : descends h x = true -> h <> x ->
  number_of x <> 0 /\ number_of h < number_of x /\ descends h (parent_of x) = true.
Proof.
  intros Hd Hne. pose proof (descends_number h x Hd) as Hle.
  assert (number_of h <> number_of x) as Hneq.
  { intros Heq. rewrite descends_same_number in Hd by done. apply bool_decide_eq_true in Hd. congruence. }
  split_and!; [lia|lia|]. eapply descends_linear; [done|apply descends_parent; lia|].
  pose proof (number_parent x). lia.
Qed.

End chain.

Section spec.
Context {P : Profile} {B K CE : Type} `{Countable B, Countable K} {chain : Chain B K}.
Context {enc_unit : Encode unit} {enc_key : Encode (N * N)} {enc_canonical : Encode (B * N)}
        {enc_record : Encode (JournalRecord B K)}.

Notation overlay := (NonCanonicalOverlay B K).
Notation level := (OverlayLevel B K).
Notation block := (BlockOverlay B K).
Implicit Types s : overlay.

(** ** Reference counts *)

(** The values that come with a list of keys: each is the node of its key, except that a key
    which came before may carry anything where this is not asserted. *)
Fixpoint coherent (seen : list K) (kvs : list (K * DBValue)) : Prop :=
  match kvs with
  | [] => True
  | (k, v) :: kvs => (v = node k \/ debug_assertions = false /\ k ∈ seen) /\ coherent (k :: seen) kvs
  end.

Lemma insert_value_ok {E} k v ks s :
  counted node ks (values s) -> v = node k \/ debug_assertions = false /\ k ∈ ks ->
  N.of_nat (length ks) < u32_MAX ->
  exists vs, insert_value (E := E) (k, v) s = (set_values vs s, Ok tt) /\ counted node (k :: ks) vs.
Proof.
  intros Hc Hv Hlen. unfold insert_value. run_steps.
  assert (debug_assert (E := E) (match values s !! k with
            | Some (_, value) => bool_decide (value = v) | None => true end) = Ok tt) as Ha.
  { unfold debug_assert. destruct Hv as [->|[-> _]]; [|done]. rewrite Hc.
    destruct (decide _); [|rewrite bool_decide_true by done]; by rewrite andb_false_r. }
  step_with Ha. assert (default (0, v) (values s !! k) = (occ k ks, node k)) as ->.
  { rewrite Hc. destruct (decide _) as [E0|]; [|done]. simpl. rewrite E0. f_equal.
    destruct Hv as [->|[_ Hk%occ_pos]]; [done|lia]. }
  pose proof (occ_length k ks).
  rewrite (bindM_lift _ _ _ (occ k ks + 1)) by (apply add_u32_eq; lia).
  eexists. split; [done|]. intros k'. rewrite occ_cons.
  destruct (decide (k = k')) as [<-|Hne].
  - rewrite lookup_insert_eq. destruct (decide _); [lia|]. by rewrite N.add_comm.
  - rewrite lookup_insert_ne by done. apply Hc.
Qed.

Lemma insert_values_ok {E} kvs seen ks s :
  counted node ks (values s) -> coherent seen kvs -> (forall k, k ∈ seen -> k ∈ ks) ->
  N.of_nat (length kvs + length ks) <= u32_MAX ->
  exists vs, insert_values (E := E) kvs s = (set_values vs s, Ok tt) /\ counted node (kvs.*1 ++ ks) vs.
Proof.
  unfold insert_values. revert seen ks s. induction kvs as [|[k v] kvs IH]; intros seen ks s Hc Hco Hin Hlen.
  { exists (values s). by destruct s. }
  destruct Hco as [Hv Hco]. simpl in Hlen.
  destruct (insert_value_ok (E := E) k v ks s) as (vs & Hrun & Hc'); [done|naive_solver|lia|].
  cbn [for_each]. step_with Hrun.
  destruct (IH (k :: seen) (k :: ks) (set_values vs s)) as (vs' & Hrun' & Hc''); [done|done| |simpl; lia|].
  { intros k'. rewrite !elem_of_cons. naive_solver. }
  exists vs'. split; [exact Hrun'|]. simpl. by rewrite Permutation_middle.
Qed.

Lemma discard_value_ok {E} k ks s :
  counted node (k :: ks) (values s) ->
  exists vs, discard_value (E := E) k s = (set_values vs s, Ok tt) /\ counted node ks vs.
Proof.
  intros Hc. unfold discard_value. run_steps. pose proof (Hc k) as Hk. rewrite occ_cons in Hk.
  destruct (decide (k = k)) as [_|]; [|done].
  rewrite decide_False in Hk by lia. rewrite Hk.
  rewrite (bindM_lift _ _ _ (occ k ks)).
  2:{ rewrite sub_u32_eq by lia. f_equal. lia. }
  eexists. split; [done|]. intros k'. specialize (Hc k'). rewrite occ_cons in Hc.
  destruct (decide (k = k')) as [<-|Hne]; destruct (N.eqb_spec (occ k ks) 0) as [E0|E0].
  - rewrite lookup_delete_eq. by rewrite decide_True.
  - rewrite lookup_insert_eq. by rewrite decide_False.
  - by rewrite lookup_delete_ne.
  - by rewrite lookup_insert_ne.
Qed.

Lemma discard_values_ok {E} dk ks s :
  counted node (dk ++ ks) (values s) ->
  exists vs, discard_values (E := E) dk s = (set_values vs s, Ok tt) /\ counted node ks vs.
Proof.
  unfold discard_values. revert s. induction dk as [|k dk IH]; intros s Hc.
  { exists (values s). by destruct s. }
  destruct (discard_value_ok (E := E) k (dk ++ ks) s Hc) as (vs & Hrun & Hc').
  cbn [for_each]. step_with Hrun.
  destruct (IH (set_values vs s) Hc') as (vs' & Hrun' & Hc''). by exists vs'.
Qed.
(** ** Levels *)

(** The blocks of a level have the number of the level, and a slot of the journal each. *)
Record level_ok (number : N) (l : level) : Prop := {
  level_hashes : NoDup (map hash (blocks l));
  level_indices : NoDup (map journal_index (blocks l));
  level_bits i : N.testbit (used_indices l) i = bool_decide (i ∈ map journal_index (blocks l));
  level_bound o : o ∈ blocks l -> journal_index o < MAX_BLOCKS_PER_LEVEL;
  level_keys o : o ∈ blocks l -> journal_key o = to_journal_key number (journal_index o);
  level_number o : o ∈ blocks l -> number_of (hash o) = number
}.

Lemma level_index_bound n l i : level_ok n l -> i ∈ map journal_index (blocks l) -> i < MAX_BLOCKS_PER_LEVEL.
Proof. intros Hl (o & -> & Ho)%list_elem_of_fmap. by apply (level_bound n l). Qed.

Lemma new_level_ok n : level_ok n new_level.
Proof.
  split; simpl; try (by constructor); by intros o ?%elem_of_nil.
Qed.

Lemma available_index_ok n l :
  level_ok n l -> N.of_nat (length (blocks l)) < MAX_BLOCKS_PER_LEVEL ->
  available_index l < MAX_BLOCKS_PER_LEVEL /\ available_index l ∉ map journal_index (blocks l).
Proof.
  intros Hl Hlen. unfold available_index, trailing_ones.
  destruct (trailing_ones_ok 64 (used_indices l)) as (Hle & Hset & Hfree).
  destruct (missing_index 32 (map journal_index (blocks l))) as (i & Hi & Hni).
  { apply Hl. } { intros i Hi. by apply (level_index_bound n l). }
  { rewrite length_map. unfold MAX_BLOCKS_PER_LEVEL in Hlen. lia. }
  set (j := trailing_ones_upto 64 (used_indices l)) in *.
  assert (j <= i) as Hji.
  { destruct (N.le_gt_cases j i) as [|Hlt]; [done|]. specialize (Hset i Hlt).
    rewrite (level_bits n l Hl) in Hset. by apply bool_decide_eq_true in Hset. }
  split; [unfold MAX_BLOCKS_PER_LEVEL; lia|]. specialize (Hfree ltac:(lia)).
  rewrite (level_bits n l Hl) in Hfree. by apply bool_decide_eq_false in Hfree.
Qed.

Lemma level_push_ok {E} n l o :
  level_ok n l -> hash o ∉ map hash (blocks l) -> journal_index o ∉ map journal_index (blocks l) ->
  journal_index o < MAX_BLOCKS_PER_LEVEL -> journal_key o = to_journal_key n (journal_index o) ->
  number_of (hash o) = n ->
  exists l', level_push (E := E) o l = Ok l' /\ blocks l' = blocks l ++ [o] /\ level_ok n l'.
Proof.
  intros Hl Hh Hi Hb Hk Hn. unfold level_push. rewrite shl_one_u64 by (unfold MAX_BLOCKS_PER_LEVEL in Hb; lia).
  eexists. split; [done|]. split; [done|]. destruct Hl as [Hh' Hi' Hbits Hb' Hk' Hn'].
  split; simpl; try (intros o' [Ho'| ->%list_elem_of_singleton]%elem_of_app; by auto).
  - rewrite map_app. apply NoDup_app. repeat split; [done| |simpl; by repeat constructor; intros ?%elem_of_nil].
    intros x Hx ->%list_elem_of_singleton. done.
  - rewrite map_app. apply NoDup_app. repeat split; [done| |simpl; by repeat constructor; intros ?%elem_of_nil].
    intros x Hx ->%list_elem_of_singleton. done.
  - intros i. rewrite N.lor_spec, Hbits, N.pow2_bits_eqb, map_app. cbn [map].
    apply eq_bool_prop_intro. rewrite orb_True, !bool_decide_spec, elem_of_app, list_elem_of_singleton.
    destruct (N.eqb_spec (journal_index o) i); naive_solver.
Qed.

Lemma level_remove_ok {E} n l i o :
  level_ok n l -> blocks l !! i = Some o ->
  exists l', level_remove (E := E) i l = Ok (l', o) /\ blocks l' = delete i (blocks l) /\ level_ok n l'.
Proof.
  intros [Hh Hi Hbits Hb Hk Hn] Ho. unfold level_remove. rewrite Ho. cbn [expect bind].
  assert (o ∈ blocks l) as Hin by by eapply list_elem_of_lookup_2.
  specialize (Hb o Hin) as Hbo. unfold MAX_BLOCKS_PER_LEVEL in Hbo. rewrite shl_one_u64 by lia.
  eexists. split; [done|]. split; [done|].
  assert (delete i (blocks l) `sublist_of` blocks l) as Hsub by apply sublist_delete.
  split; simpl; try (intros o' Ho'; by eauto using list_elem_of_delete_inv).
  - eapply sublist_NoDup; [done|]. by apply (fmap_sublist _).
  - eapply sublist_NoDup; [done|]. by apply (fmap_sublist _).
  - intros j. rewrite N.land_spec, Hbits, delete_take_drop.
    assert (forall x, x ∈ map journal_index (blocks l) <-> x ∈ map journal_index (take i (blocks l)) \/
              x = journal_index o \/ x ∈ map journal_index (drop (S i) (blocks l))) as Hmid.
    { intros x. rewrite <- (take_drop_middle _ _ _ Ho) at 1. rewrite map_app, elem_of_app. cbn [map]. by rewrite elem_of_cons. }
    rewrite <- (take_drop_middle _ _ _ Ho), map_app in Hi. cbn [map] in Hi.
    apply NoDup_app in Hi as (_ & Hnot & [Hnot' _]%NoDup_cons).
    apply eq_bool_prop_intro. rewrite andb_True, !bool_decide_spec, Hmid, map_app, elem_of_app.
    destruct (N.lt_ge_cases j 64) as [Hj|Hj].
    + rewrite N.lnot_spec_low, N.pow2_bits_eqb by done.
      destruct (N.eqb_spec (journal_index o) j) as [<-|Hne]; cbn [negb]; [|naive_solver].
      split; [naive_solver|]. intros [Hx|Hx]; [|done]. exfalso. apply (Hnot _ Hx). by left.
    + assert (forall o', o' ∈ blocks l -> journal_index o' <> j) as Hno.
      { intros o' Ho'. specialize (Hb o' Ho'). unfold MAX_BLOCKS_PER_LEVEL in Hb. lia. }
      assert (j ∉ map journal_index (blocks l)) as Hnj.
      { intros (o' & -> & Ho')%list_elem_of_fmap. by apply (Hno o'). }
      rewrite Hmid in Hnj. naive_solver.
Qed.
(** ** Accounting *)

Definition level_blocks (ls : list level) : list block := concat (map blocks ls).
Definition block_keys (bs : list block) : list K := concat (map inserted bs).
Definition retained_keys s : list K :=
  concat (map (fun x => fst (snd x)) (map_to_list (pinned_insertions s))).

(** The overlay holds the blocks [bs] and those retained for a pin: it knows their
    parents, and counts the keys they inserted. *)
Record accounted (bs : list block) s : Prop := {
  acc_nodup : NoDup (map hash bs);
  acc_count : counted node (block_keys bs ++ retained_keys s) (values s);
  acc_parents h : parents s !! h =
    if decide (h ∈ map hash bs \/ is_Some (pinned_insertions s !! h)) then Some (parent_of h) else None;
  acc_fresh o : o ∈ bs -> pinned_insertions s !! hash o = None;
  acc_pins h ks n : pinned_insertions s !! h = Some (ks, n) -> 0 < n /\ ks = keys_of h;
  acc_inserted o : o ∈ bs -> inserted o = keys_of (hash o) /\ deleted o = cs_deleted (changes_of (hash o));
  acc_real h : is_Some (parents s !! h) -> real h;
  acc_keys : N.of_nat (length (block_keys bs ++ retained_keys s)) <= u32_MAX
}.

#[export] Instance accounted_perm : Proper ((≡ₚ) ==> (=) ==> iff) accounted.
Proof.
  assert (forall bs bs' s, bs ≡ₚ bs' -> accounted bs s -> accounted bs' s) as Hgo.
  { intros bs bs' s Hp [Hnd Hc Hpar Hf Hpin Hin Hreal Hk].
    assert (map hash bs ≡ₚ map hash bs') as Hph by by apply Permutation_map.
    split; [by rewrite <- Hph| | |intros o; rewrite <- Hp; apply Hf|done|intros o; rewrite <- Hp; apply Hin|done|].
    - unfold block_keys. by rewrite <- Hp.
    - intros h. rewrite Hpar. apply decide_ext. by rewrite Hph.
    - unfold block_keys in *. by rewrite <- Hp. }
  intros bs bs' Hp s ? <-. split; by apply Hgo.
Qed.

(** What an operation on a part of the levels leaves alone. *)
Definition frame s s' : Prop :=
  last_canonicalized s' = last_canonicalized s /\ levels s' = levels s /\ pinned s' = pinned s /\
  pinned_canonincalized s' = pinned_canonincalized s.

#[export] Instance frame_trans : Transitive frame.
Proof. unfold frame. intros s1 s2 s3. naive_solver congruence. Qed.

Lemma frame_refl s : frame s s.
Proof. done. Qed.

(** What is retained of a discarded block, by the number of pins on it and above it. *)
Definition retained (o : block) (n : N) : option (list K * N) :=
  if n =? 0 then None else Some (inserted o, n).

Lemma acc_head_parent bs s o : accounted bs s -> o ∈ bs -> parents s !! hash o = Some (parent_of (hash o)).
Proof.
  intros Ha Ho. rewrite (acc_parents bs s Ha), decide_True; [done|]. left. by apply list_elem_of_fmap_2.
Qed.

Lemma drop_block_ok {E} o bs s : accounted (o :: bs) s ->
  exists s', drop_block (E := E) o s = (s', Ok tt) /\ accounted bs s' /\ frame s s' /\
    pinned_insertions s' = pinned_insertions s.
Proof.
  intros [Hnd Hc Hp Hf Hpin Hin Hreal Hk]. unfold drop_block. run_steps.
  unfold block_keys in Hc, Hk. simpl in Hc, Hk. rewrite <- app_assoc in Hc, Hk.
  destruct (discard_values_ok (E := E) (inserted o) (block_keys bs ++ retained_keys s)
              (set_parents (delete (hash o) (parents s)) s) Hc) as (vs & Hrun & Hc').
  rewrite Hrun. eexists. split; [done|]. apply NoDup_cons in Hnd as [Hnew Hnd].
  split_and!; [|done..]. rewrite length_app in Hk.
  split; [done|done| |by intros o' Ho'; apply Hf; right|done|by intros o' Ho'; apply Hin; right| |unfold block_keys, retained_keys in *; simpl; lia].
  2:{ intros h [x Hx]. simpl in Hx. apply lookup_delete_Some in Hx as [_ Hx]. apply Hreal. by exists x. }
  intros h. simpl. destruct (decide (h = hash o)) as [->|Hne].
  - rewrite lookup_delete_eq, decide_False; [done|]. rewrite (Hf o) by by left. by intros [|[??]].
  - rewrite lookup_delete_ne, Hp by done. apply decide_ext. simpl. rewrite elem_of_cons. naive_solver.
Qed.

Lemma discard_block_ok {E} n o bs s : accounted (o :: bs) s ->
  exists s', discard_block (E := E) n o s = (s', Ok tt) /\ accounted bs s' /\ frame s s' /\
    pinned_insertions s' !! hash o = retained o n /\
    (forall x, x <> hash o -> pinned_insertions s' !! x = pinned_insertions s !! x).
Proof.
  intros Ha. unfold discard_block, retained. destruct (N.eqb_spec n 0) as [->|Hn].
  { destruct (drop_block_ok (E := E) o bs s Ha) as (s' & Hrun & Ha' & Hfr & Hpi).
    exists s'. rewrite Hpi. split_and!; try done. apply (acc_fresh _ _ Ha). by left. }
  destruct Ha as [Hnd Hc Hp Hf Hpin Hin Hreal Hk]. apply NoDup_cons in Hnd as [Hnew Hnd].
  eexists. split; [done|].
  split_and!; simpl; [|done|by rewrite lookup_insert_eq|by intros x Hx; rewrite lookup_insert_ne].
  specialize (Hf o ltac:(by left)) as Hfo.
  assert (block_keys (o :: bs) ++ retained_keys s ≡ₚ block_keys bs ++
    retained_keys (set_pinned_insertions (<[hash o := (inserted o, n)]> (pinned_insertions s)) s)) as Hkeys.
  { unfold retained_keys, block_keys. simpl. rewrite map_to_list_insert by done. simpl.
    rewrite <- Permutation_app_swap_app. by rewrite app_assoc. }
  split; simpl; [done|by rewrite <- Hkeys| | | |by intros o' Ho'; apply Hin; right|done|by rewrite <- Hkeys].
  - intros h. rewrite Hp. apply decide_ext. simpl. rewrite elem_of_cons.
    destruct (decide (h = hash o)) as [->|Hne]; [rewrite lookup_insert_eq; naive_solver|].
    rewrite lookup_insert_ne by done. naive_solver.
  - intros o' Ho'. rewrite lookup_insert_ne; [apply Hf; by right|].
    intros Heq. apply Hnew. rewrite Heq. by apply list_elem_of_fmap_2.
  - intros h ks n' Hl. apply lookup_insert_Some in Hl as [[<- [= <- <-]]|[_ Hl]]; [|by eapply Hpin].
    split; [lia|]. apply Hin. by left.
Qed.
End spec.
