(* ===== verification/NonCanonicalDiscard.v ===== *)
(** * The non-canonical overlay: discarding a subtree

    [discard_descendants] takes away the blocks above a given one, level by level and child by
    child; [discard_journals] collects their journal entries. Both are shown to act on what
    [descends] from the block, and what is retained is counted. *)

From stdpp Require Import strings.
From S2P Require Import Prelude StateDbTypes NonCanonical NonCanonicalCount.

#[local] Open Scope N_scope.

Section spec.
Context {P : Profile} {B K CE : Type} `{Countable B, Countable K} {chain : Chain B K}.
Context {enc_unit : Encode unit} {enc_key : Encode (N * N)} {enc_canonical : Encode (B * N)}
        {enc_record : Encode (JournalRecord B K)}.

Notation overlay := (NonCanonicalOverlay B K).
Notation level := (OverlayLevel B K).
Notation block := (BlockOverlay B K).
Implicit Types s : overlay.
Implicit Types ls rest : list level.

(** ** Discarding a subtree *)

Definition is_pinned s (o : block) : bool := bool_decide (is_Some (pinned s !! hash o)).
Definition npin s (bs : list block) : N := N.of_nat (length (List.filter (is_pinned s) bs)).

(** The blocks of a list that are above [h], and the others. *)
Definition above (h : B) (bs : list block) : list block := List.filter (fun o => descends h (hash o)) bs.
Definition spared (h : B) (bs : list block) : list block := List.filter (fun o => negb (descends h (hash o))) bs.

(** The same for several subtrees. *)
Definition doomed (cs : list B) (o : block) : bool := existsb (fun c => descends c (hash o)) cs.

Lemma npin_app s bs bs' : npin s (bs ++ bs') = npin s bs + npin s bs'.
Proof. unfold npin. rewrite List.filter_app, length_app. lia. Qed.

Lemma npin_perm s bs bs' : bs ≡ₚ bs' -> npin s bs = npin s bs'.
Proof. intros Hp. unfold npin. by rewrite (filter_perm _ _ _ Hp). Qed.

Lemma npin_length s bs : npin s bs <= N.of_nat (length bs).
Proof. unfold npin. pose proof (sublist_length _ _ (filter_sublist (is_pinned s) bs)). lia. Qed.

Lemma npin_frame s s' bs : pinned s' = pinned s -> npin s' bs = npin s bs.
Proof. intros Hp. unfold npin, is_pinned. by rewrite Hp. Qed.

Lemma npin_or s f g bs : (forall o, o ∈ bs -> f o = true -> g o = false) ->
  npin s (List.filter (fun o => f o || g o) bs) = npin s (List.filter f bs) + npin s (List.filter g bs).
Proof.
  unfold npin. induction bs as [|o bs IH]; intros Hfg; simpl; [done|].
  specialize (Hfg o ltac:(by left)) as Ho. specialize (IH (fun x Hx => Hfg x ltac:(by right))).
  destruct (f o); [rewrite Ho by done|destruct (g o)]; simpl; destruct (is_pinned s o); simpl; lia.
Qed.

(** Subtrees of blocks with one number are disjoint. *)
Lemma doomed_disjoint f cs c x : (forall c', c' ∈ cs -> number_of c' = f) -> number_of c = f -> c ∉ cs ->
  descends c (hash x) = true -> doomed cs x = false.
Proof.
  intros Hcs Hc Hnew Hx. apply not_true_iff_false. intros (c' & Hc' & Hd)%existsb_true. destruct Hnew.
  assert (descends c' c = true) as Heq.
  { eapply descends_linear; [done|done|]. by rewrite (Hcs c') by done; rewrite Hc. }
  rewrite descends_same_number in Heq by (rewrite Hcs; done). apply bool_decide_eq_true in Heq. by rewrite Heq.
Qed.

Lemma spared_above f cs c x bs : (forall c', c' ∈ cs -> number_of c' = f) -> number_of c = f -> c ∉ cs ->
  descends c x = true -> above x (List.filter (fun o => negb (doomed cs o)) bs) = above x bs.
Proof.
  intros Hcs Hc Hnew Hx. apply filter_filter_impl. intros y _ Hy.
  rewrite (doomed_disjoint f cs c); [done..|]. by eapply descends_trans.
Qed.

Lemma doomed_app cs cs' o : doomed (cs ++ cs') o = doomed cs o || doomed cs' o.
Proof. apply existsb_app. Qed.

(** The levels above block [n - 1], and that the parents of a level are in the one below. *)
Definition levels_ok (n : N) (ls : list level) : Prop :=
  forall i l, ls !! i = Some l -> level_ok (n + N.of_nat i) l.
Definition linked (ls : list level) : Prop :=
  forall i l l' o, ls !! i = Some l -> ls !! S i = Some l' -> o ∈ blocks l' ->
    parent_of (hash o) ∈ map hash (blocks l).

Lemma levels_ok_cons n l ls : levels_ok n (l :: ls) <-> level_ok n l /\ levels_ok (n + 1) ls.
Proof.
  split.
  - intros Hok. split; [specialize (Hok 0%nat l eq_refl); by rewrite N.add_0_r in Hok|].
    intros i l' Hl'. specialize (Hok (S i) l' Hl'). by replace (n + 1 + N.of_nat i) with (n + N.of_nat (S i)) by lia.
  - intros [Hl Hok] [|i] l' Hl'; [injection Hl' as <-; by rewrite N.add_0_r|].
    replace (n + N.of_nat (S i)) with (n + 1 + N.of_nat i) by lia. by apply Hok.
Qed.

Lemma elem_of_level_blocks ls o : o ∈ level_blocks ls <-> exists i l, ls !! i = Some l /\ o ∈ blocks l.
Proof.
  unfold level_blocks. rewrite elem_of_concat. split.
  - intros (x & (l & -> & (i & Hi)%list_elem_of_lookup)%list_elem_of_fmap & Ho). by exists i, l.
  - intros (i & l & Hi & Ho). exists (blocks l). split; [|done].
    by eapply list_elem_of_fmap_2, list_elem_of_lookup_2.
Qed.

Lemma linked_tail l ls : linked (l :: ls) -> linked ls.
Proof. intros Hl i. apply (Hl (S i)). Qed.

(** Taking away whole subtrees keeps the links. *)
Lemma linked_filter (f : block -> bool) ls ls' :
  linked ls -> map blocks ls' = map (List.filter f) (map blocks ls) ->
  (forall o o' l l' i, ls !! i = Some l' -> ls !! S i = Some l -> o ∈ blocks l -> o' ∈ blocks l' ->
     hash o' = parent_of (hash o) -> f o = true -> f o' = true) ->
  linked ls'.
Proof.
  intros Hl Hb Hf i l l' o Hi Hi' Ho.
  assert (forall j m, ls' !! j = Some m -> exists m0, ls !! j = Some m0 /\ blocks m = List.filter f (blocks m0)) as Hget.
  { intros j m Hm. assert (map blocks ls' !! j = Some (blocks m)) as Hj by (by rewrite list_lookup_fmap, Hm).
    rewrite Hb, !list_lookup_fmap in Hj. destruct (ls !! j) as [m0|]; [|done]. simpl in Hj. exists m0. split; congruence. }
  destruct (Hget i l Hi) as (l0 & Hl0 & ->), (Hget (S i) l' Hi') as (l0' & Hl0' & Hb').
  rewrite Hb' in Ho. apply elem_of_filter_true in Ho as [Ho Hfo].
  specialize (Hl i l0 l0' o Hl0 Hl0' Ho) as Hp. apply list_elem_of_fmap in Hp as (o' & Hh & Ho').
  rewrite Hh. apply list_elem_of_fmap_2, elem_of_filter_true. split; [done|].
  by apply (Hf o o' l0' l0 i).
Qed.

Lemma linked_doomed n cs ls ls' : levels_ok n ls -> linked ls ->
  map blocks ls' = map (List.filter (fun o => negb (doomed cs o))) (map blocks ls) -> linked ls'.
Proof.
  intros Hok Hl Hls. eapply linked_filter; [done|done|].
  intros o o' l0 l0' i Hl0' Hl0 Ho Ho' Hpar. rewrite !negb_true_iff. intros Hno.
  apply not_true_iff_false. intros (c & Hc & Hdc)%existsb_true. apply not_true_iff_false in Hno. destruct Hno.
  apply existsb_true. exists c. split; [done|]. eapply descends_trans; [done|]. rewrite Hpar. apply descends_parent.
  rewrite (level_number _ _ (Hok _ _ Hl0)) by done. lia.
Qed.

(** Every block has an ancestor on each level below. *)
Lemma ancestor_in n ls i j l o :
  levels_ok n ls -> linked ls -> (i <= j)%nat -> ls !! j = Some l -> o ∈ blocks l ->
  exists l' o', ls !! i = Some l' /\ o' ∈ blocks l' /\ descends (hash o') (hash o) = true.
Proof.
  intros Hok Hl. revert l o. induction j as [|j IH]; intros l o Hij Hj Ho.
  { assert (i = 0%nat) as -> by lia. exists l, o. split_and!; [done..|apply descends_refl]. }
  destruct (decide (i = S j)) as [->|]; [exists l, o; split_and!; [done..|apply descends_refl]|].
  destruct (lookup_lt_is_Some_2 ls j) as [lj Hlj]; [apply lookup_lt_Some in Hj; lia|].
  specialize (Hl j lj l o Hlj Hj Ho) as Hp. apply list_elem_of_fmap in Hp as (p & Hp & Hpin).
  destruct (IH lj p ltac:(lia) Hlj Hpin) as (l' & o' & Hl' & Ho' & Hd).
  exists l', o'. split_and!; [done..|]. eapply descends_trans; [done|]. rewrite <- Hp. apply descends_parent.
  rewrite (level_number _ _ (Hok _ _ Hj)) by done. lia.
Qed.
(** What is retained once the blocks [gone] of [all] have been discarded. *)
Definition retention s s' (gone all : list block) : Prop :=
  (forall o, o ∈ gone -> pinned_insertions s' !! hash o = retained o (npin s (above (hash o) all))) /\
  (forall x, x ∉ map hash gone -> pinned_insertions s' !! x = pinned_insertions s !! x).

(** One level and those above it, of which the subtrees [cs] of children of [h] are done. *)
Record discarding (n : N) (h : B) (bs : list block) first rest s (cs : list B) l rest' cnt s' : Prop := {
  disc_cs c : c ∈ cs -> c ∈ map hash (blocks first) /\ parent_of c = h;
  disc_level : blocks l = List.filter (fun o => negb (doomed cs o)) (blocks first);
  disc_rest : map blocks rest' = map (List.filter (fun o => negb (doomed cs o))) (map blocks rest);
  disc_level_ok : level_ok n l;
  disc_rest_ok : levels_ok (n + 1) rest';
  disc_accounted : accounted (bs ++ blocks l ++ level_blocks rest') s';
  disc_frame : frame s s';
  disc_cnt : cnt = npin s (List.filter (doomed cs) (level_blocks (first :: rest)));
  disc_retention : retention s s' (List.filter (doomed cs) (level_blocks (first :: rest))) (level_blocks (first :: rest))
}.
#[local] Arguments disc_cs {n h bs first rest s cs l rest' cnt s'} d.
#[local] Arguments disc_level {n h bs first rest s cs l rest' cnt s'} d.
#[local] Arguments disc_rest {n h bs first rest s cs l rest' cnt s'} d.
#[local] Arguments disc_level_ok {n h bs first rest s cs l rest' cnt s'} d.
#[local] Arguments disc_rest_ok {n h bs first rest s cs l rest' cnt s'} d.
#[local] Arguments disc_accounted {n h bs first rest s cs l rest' cnt s'} d.
#[local] Arguments disc_frame {n h bs first rest s cs l rest' cnt s'} d.
#[local] Arguments disc_retention {n h bs first rest s cs l rest' cnt s'} d.
#[local] Arguments disc_cnt {n h bs first rest s cs l rest' cnt s'} d.

Section discarding.
Context {n : N} {h : B} {bs : list block} {first : level} {rest : list level} {s : overlay}.
Context (Hok : levels_ok n (first :: rest)) (Hlink : linked (first :: rest)) (Hn : number_of h + 1 = n).
Notation all := (level_blocks (first :: rest)).

Lemma disc_first_number o : o ∈ blocks first -> number_of (hash o) = n.
Proof. apply levels_ok_cons in Hok as [Hf _]. apply (level_number _ _ Hf). Qed.

Lemma first_number (cs : list B) : (forall c, c ∈ cs -> c ∈ map hash (blocks first)) -> forall c, c ∈ cs -> number_of c = n.
Proof. intros Hcs c Hc. specialize (Hcs c Hc) as (o & -> & Ho)%list_elem_of_fmap. by apply disc_first_number. Qed.

Lemma disc_rest_number o : o ∈ level_blocks rest -> n < number_of (hash o).
Proof.
  clear Hn. apply levels_ok_cons in Hok as [_ Hr]. intros (i & l & Hi & Ho)%elem_of_level_blocks.
  rewrite (level_number _ _ (Hr i l Hi)) by done. lia.
Qed.

Lemma disc_number o : o ∈ all -> n <= number_of (hash o).
Proof.
  unfold level_blocks. simpl. intros [Ho|Ho]%elem_of_app; [by rewrite disc_first_number|].
  apply N.lt_le_incl. by apply disc_rest_number.
Qed.

(** Among the blocks of one level only [c] itself descends from [c]. *)
Lemma doomed_first cs o : (forall c, c ∈ cs -> c ∈ map hash (blocks first)) -> o ∈ blocks first ->
  doomed cs o = bool_decide (hash o ∈ cs).
Proof.
  intros Hcs Ho. apply eq_bool_prop_intro. unfold doomed.
  rewrite bool_decide_spec, Is_true_true, existsb_true. split.
  - intros (c & Hc & Hd). specialize (Hcs c Hc) as (o' & -> & Ho')%list_elem_of_fmap.
    rewrite descends_same_number in Hd by by rewrite !disc_first_number.
    apply bool_decide_eq_true in Hd. by rewrite Hd.
  - intros Hc. exists (hash o). split; [done|apply descends_refl].
Qed.

(** Once no child of [h] is left, what was taken away is what is above [h]. *)
Lemma doomed_all cs : (forall c, c ∈ cs -> c ∈ map hash (blocks first) /\ parent_of c = h) ->
  (forall o, o ∈ blocks first -> parent_of (hash o) = h -> hash o ∈ cs) ->
  forall o, o ∈ all -> doomed cs o = descends h (hash o).
Proof.
  intros Hcs Hall o Ho. apply eq_bool_prop_intro. unfold doomed. rewrite !Is_true_true, existsb_true. split.
  - intros (c & Hc & Hd). destruct (Hcs c Hc) as [(o' & -> & Ho')%list_elem_of_fmap <-].
    eapply descends_trans; [|done]. apply descends_parent. rewrite disc_first_number by done. lia.
  - intros Hd. apply elem_of_level_blocks in Ho as (j & l & Hj & Ho).
    destruct (ancestor_in n _ 0 j l o Hok Hlink ltac:(lia) Hj Ho) as (l' & o' & Hl' & Ho' & Hd').
    injection Hl' as <-. exists (hash o'). split; [|done]. apply Hall; [done|].
    assert (descends h (hash o') = true) as Hh.
    { eapply descends_linear; [done|done|]. rewrite disc_first_number by done. lia. }
    rewrite descends_child in Hh by (rewrite disc_first_number by done; lia). by apply bool_decide_eq_true in Hh.
Qed.
Lemma above_first o : o ∈ blocks first -> above (hash o) (blocks first) ≡ₚ [o].
Proof.
  intros Ho. pose proof Hok as Hok'. apply levels_ok_cons in Hok' as [Hf _]. pose proof (level_hashes _ _ Hf) as Hnd.
  apply list_elem_of_lookup in Ho as (i & Hi).
  pose proof (delete_filter hash (fun y => negb (descends (hash o) (hash y))) _ i o Hnd Hi) as Hdel.
  assert (forall y, y ∈ blocks first -> negb (descends (hash o) (hash y)) = false <-> hash y = hash o) as Hiff.
  { intros y Hy. rewrite negb_false_iff, descends_same_number, bool_decide_eq_true; [done|].
    rewrite !disc_first_number; [done|done|by eapply list_elem_of_lookup_2]. }
  specialize (Hdel Hiff). pose proof (partition_perm (fun y => descends (hash o) (hash y)) (blocks first)) as Hp.
  cbv beta in Hp. rewrite <- Hdel in Hp.
  apply (Permutation_app_inv_r (delete i (blocks first))). etrans; [exact Hp|]. by apply delete_Permutation.
Qed.

Lemma above_rest x bs' : n < number_of x -> above x (blocks first ++ bs') = above x bs'.
Proof.
  clear Hn. intros Hx. unfold above. rewrite List.filter_app, filter_none; [done|].
  intros y Hy. destruct (descends x (hash y)) eqn:Hd; [|done].
  apply descends_number in Hd. rewrite disc_first_number in Hd by done. lia.
Qed.

Lemma level_blocks_map (f : block -> bool) ls ls' :
  map blocks ls' = map (List.filter f) (map blocks ls) -> level_blocks ls' = List.filter f (level_blocks ls).
Proof. intros Hm. unfold level_blocks. by rewrite Hm, filter_concat. Qed.

(** The pins of a child and of what is above it. *)
Lemma discarding_pins cs l rest' cnt s1 o :
  discarding n h bs first rest s cs l rest' cnt s1 -> o ∈ blocks l ->
  npin s1 (above (hash o) (level_blocks rest')) + (if is_pinned s o then 1 else 0) = npin s (above (hash o) all).
Proof.
  intros Hd Ho. rewrite (disc_level Hd) in Ho. apply elem_of_filter_true in Ho as [Ho Hnot].
  pose proof (disc_cs Hd) as Hcs.
  rewrite doomed_first in Hnot by naive_solver. apply negb_true_iff, bool_decide_eq_false in Hnot.
  rewrite (level_blocks_map _ _ _ (disc_rest Hd)).
  rewrite (spared_above n cs (hash o) _ _ (first_number cs (fun c Hc => proj1 (Hcs c Hc)))
             (disc_first_number o Ho) Hnot (descends_refl _)).
  rewrite (npin_frame s s1) by apply (disc_frame Hd).
  change all with (blocks first ++ level_blocks rest). unfold above at 2. rewrite List.filter_app. fold (above (hash o) (blocks first)).
  rewrite npin_app, (npin_perm s _ _ (above_first o Ho)).
  assert (npin s [o] = if is_pinned s o then 1 else 0) as -> by (unfold npin; simpl; by destruct (is_pinned s o)).
  unfold above. lia.
Qed.
(** A child that is still there, next to those that are done. *)
Lemma discarding_child cs l rest' cnt s1 i o :
  discarding n h bs first rest s cs l rest' cnt s1 -> blocks l !! i = Some o -> o ∈ blocks first /\ hash o ∉ cs.
Proof.
  intros Hd Hi%list_elem_of_lookup_2. rewrite (disc_level Hd) in Hi. apply elem_of_filter_true in Hi as [Ho Hno].
  rewrite doomed_first in Hno; [|intros c Hc; by apply (disc_cs Hd)|done].
  by apply negb_true_iff, bool_decide_eq_false in Hno.
Qed.

(** What is retained after one child more. *)
Lemma retention_step cs l rest' cnt s1 i o s2 s3 :
  discarding n h bs first rest s cs l rest' cnt s1 -> blocks l !! i = Some o ->
  frame s1 s2 -> retention s1 s2 (above (hash o) (level_blocks rest')) (level_blocks rest') ->
  pinned_insertions s3 !! hash o = retained o (npin s (above (hash o) all)) ->
  (forall x, x <> hash o -> pinned_insertions s3 !! x = pinned_insertions s2 !! x) ->
  retention s s3 (List.filter (doomed (hash o :: cs)) all) all.
Proof.
  intros Hd Hi Hf12 [Hret Hsame] Hpo Hpx. destruct (discarding_child _ _ _ _ _ _ _ Hd Hi) as [Ho Hnew].
  assert (forall c, c ∈ cs -> c ∈ map hash (blocks first)) as Hcs by (intros c Hc; by apply (disc_cs Hd)).
  pose proof (fun x => doomed_disjoint n cs (hash o) x (first_number cs Hcs) (disc_first_number o Ho) Hnew) as Hdisj.
  destruct (disc_retention Hd) as [Hret0 Hsame0].
  pose proof (level_blocks_map _ _ _ (disc_rest Hd)) as Hrest.
  assert (forall y, y ∈ level_blocks rest' -> y ∈ all) as Hsub.
  { intros y. rewrite Hrest. intros [Hy _]%elem_of_filter_true. change all with (blocks first ++ level_blocks rest).
    apply elem_of_app. by right. }
  split.
  - intros x [Hx Hdx]%elem_of_filter_true. change (descends (hash o) (hash x) || doomed cs x = true) in Hdx.
    destruct (descends (hash o) (hash x)) eqn:Hox.
    + specialize (Hdisj x Hox). change all with (blocks first ++ level_blocks rest) in Hx.
      apply elem_of_app in Hx as [Hx|Hx].
      { assert (x ∈ above (hash o) (blocks first)) as Hin by by apply elem_of_filter_true.
        rewrite above_first in Hin by done. apply list_elem_of_singleton in Hin as ->. exact Hpo. }
      pose proof (disc_rest_number x Hx) as Hnum. rewrite Hpx.
      2:{ intros Heq. rewrite Heq, disc_first_number in Hnum by done. lia. }
      rewrite Hret. 2:{ apply elem_of_filter_true. split; [|done]. rewrite Hrest. apply elem_of_filter_true. by rewrite Hdisj. }
      f_equal. rewrite (npin_frame s s1) by apply (disc_frame Hd).
      change all with (blocks first ++ level_blocks rest).
      rewrite above_rest by done. by rewrite Hrest, (spared_above n cs (hash o) _ _ (first_number cs Hcs) (disc_first_number o Ho) Hnew Hox).
    + simpl in Hdx. rewrite Hpx by (intros Heq; by rewrite Heq, descends_refl in Hox). rewrite Hsame.
      2:{ intros (y & Heq & [Hy Hdy]%elem_of_filter_true)%list_elem_of_fmap. by rewrite <- Heq, Hox in Hdy. }
      apply Hret0, elem_of_filter_true. done.
  - intros x Hx. rewrite Hpx, Hsame, Hsame0; [done|..].
    + intros (y & -> & [Hy Hdy]%elem_of_filter_true)%list_elem_of_fmap. apply Hx, list_elem_of_fmap_2, elem_of_filter_true.
      split; [done|]. simpl. by rewrite Hdy, orb_true_r.
    + intros (y & -> & [Hy Hdy]%elem_of_filter_true)%list_elem_of_fmap. apply Hx, list_elem_of_fmap_2, elem_of_filter_true.
      split; [by apply Hsub|]. simpl. by rewrite Hdy.
    + intros ->. apply Hx, list_elem_of_fmap_2, elem_of_filter_true. simpl. rewrite descends_refl. split; [|done].
      change all with (blocks first ++ level_blocks rest). apply elem_of_app. by left.
Qed.

(** One child more is done. *)
Lemma discarding_step cs l rest' cnt s1 i o l' rest'' s2 s3 :
  discarding n h bs first rest s cs l rest' cnt s1 -> blocks l !! i = Some o -> parent_of (hash o) = h ->
  blocks l' = delete i (blocks l) -> level_ok n l' ->
  map blocks rest'' = map (spared (hash o)) (map blocks rest') -> levels_ok (n + 1) rest'' ->
  frame s1 s2 -> retention s1 s2 (above (hash o) (level_blocks rest')) (level_blocks rest') ->
  accounted (bs ++ blocks l' ++ level_blocks rest'') s3 -> frame s2 s3 ->
  pinned_insertions s3 !! hash o = retained o (npin s (above (hash o) all)) ->
  (forall x, x <> hash o -> pinned_insertions s3 !! x = pinned_insertions s2 !! x) ->
  discarding n h bs first rest s (hash o :: cs) l' rest'' (cnt + npin s (above (hash o) all)) s3.
Proof.
  intros Hd Hi Hpar Hl' Hlok Hr'' Hrok Hf12 Hret Hacc Hf23 Hpo Hpx.
  destruct (discarding_child _ _ _ _ _ _ _ Hd Hi) as [Ho Hnew].
  assert (forall c, c ∈ cs -> c ∈ map hash (blocks first)) as Hcs by (intros c Hc; by apply (disc_cs Hd)).
  assert (forall x, doomed (hash o :: cs) x = descends (hash o) (hash x) || doomed cs x) as Hcons by done.
  split; [| | |done|done|done| | |by eapply retention_step].
  - intros c [->|Hc]%elem_of_cons; [|by apply (disc_cs Hd)]. split; [by apply list_elem_of_fmap_2|done].
  - rewrite Hl'.
    rewrite (delete_filter hash (fun y => negb (descends (hash o) (hash y))) _ i o); [|by apply (disc_level_ok Hd)|done|].
    + rewrite (disc_level Hd), filter_filter_and. apply filter_ext_elem. intros y _. by rewrite Hcons, negb_orb.
    + intros y Hy. rewrite (disc_level Hd) in Hy. apply elem_of_filter_true in Hy as [Hy _].
      rewrite negb_false_iff, descends_same_number, bool_decide_eq_true; [done|]. by rewrite !disc_first_number.
  - rewrite Hr'', (disc_rest Hd), map_map. apply map_ext. intros y. unfold spared. rewrite filter_filter_and.
    apply filter_ext_elem. intros z _. by rewrite Hcons, negb_orb.
  - etrans; [apply (disc_frame Hd)|]. by etrans.
  - rewrite (disc_cnt Hd), N.add_comm. symmetry. apply npin_or. intros x _.
    by apply (doomed_disjoint n cs (hash o) x (first_number cs Hcs) (disc_first_number o Ho)).
Qed.

(** The rest of a round, once the subtree of the child is done. *)
Lemma discarding_round {E E' E''} cs l rest' cnt s1 i o l' rest'' s2 :
  N.of_nat (length all) <= u32_MAX ->
  discarding n h bs first rest s cs l rest' cnt s1 -> blocks l !! i = Some o -> parent_of (hash o) = h ->
  blocks l' = delete i (blocks l) -> level_ok n l' ->
  map blocks rest'' = map (spared (hash o)) (map blocks rest') -> levels_ok (n + 1) rest'' ->
  accounted ((bs ++ blocks l' ++ [o]) ++ level_blocks rest'') s2 -> frame s1 s2 ->
  retention s1 s2 (above (hash o) (level_blocks rest')) (level_blocks rest') ->
  let below := npin s1 (above (hash o) (level_blocks rest')) in
  let num := npin s (above (hash o) all) in
  exists s3, (if bool_decide (is_Some (pinned s2 !! hash o)) then add_u32 (E := E) below 1 else Ok below) = Ok num /\
    discard_block (E := E') num o s2 = (s3, Ok tt) /\
    (if num =? 0 then Ok cnt else add_u32 (E := E'') cnt num) = Ok (cnt + num) /\
    discarding n h bs first rest s (hash o :: cs) l' rest'' (cnt + num) s3.
Proof.
  intros Hlen Hd Hi Hpar Hl' Hlok Hr'' Hrok Hacc Hf12 Hret below num.
  assert (below + (if is_pinned s o then 1 else 0) = num) as Hnum.
  { eapply discarding_pins; [done|]. by eapply list_elem_of_lookup_2. }
  assert (accounted (o :: bs ++ blocks l' ++ level_blocks rest'') s2) as Hacc'.
  { eapply accounted_perm; [|done|exact Hacc].
    rewrite <- !app_assoc. cbn [app]. by rewrite <- !Permutation_middle. }
  destruct (discard_block_ok (E := E') num o _ s2 Hacc') as (s3 & Hrun & Hacc3 & Hf23 & Hpo & Hpx).
  assert (discarding n h bs first rest s (hash o :: cs) l' rest'' (cnt + num) s3) as Hd'
    by by eapply discarding_step.
  assert (cnt + num <= u32_MAX) as Hbound.
  { rewrite (disc_cnt Hd'). etrans; [apply npin_length|]. etrans; [|exact Hlen].
    pose proof (sublist_length _ _ (filter_sublist (doomed (hash o :: cs)) all)). lia. }
  exists s3. split_and!; [|done| |done].
  - replace (pinned s2) with (pinned s); [|by rewrite (proj1 (proj2 (proj2 Hf12))), (proj1 (proj2 (proj2 (disc_frame Hd))))].
    change (bool_decide _) with (is_pinned s o). destruct (is_pinned s o); [|f_equal; lia].
    rewrite add_u32_eq by lia. f_equal. lia.
  - destruct (N.eqb_spec num 0) as [->|]; [by rewrite N.add_0_r|]. by apply add_u32_eq.
Qed.

Lemma discarding_linked cs l rest' cnt s1 :
  discarding n h bs first rest s cs l rest' cnt s1 -> linked rest'.
Proof.
  intros Hd. apply levels_ok_cons in Hok as [_ Hr].
  eapply linked_doomed; [done|by eapply linked_tail|apply (disc_rest Hd)].
Qed.

(** The end of the loop. *)
Lemma discarding_done cs l rest' cnt s1 :
  discarding n h bs first rest s cs l rest' cnt s1 -> (forall o, o ∈ blocks l -> parent_of (hash o) <> h) ->
  cnt = npin s (above h all) /\ map blocks (l :: rest') = map (spared h) (map blocks (first :: rest)) /\
  levels_ok n (l :: rest') /\ accounted (bs ++ level_blocks (l :: rest')) s1 /\ frame s s1 /\
  retention s s1 (above h all) all.
Proof.
  intros Hd Hnone. assert (forall o, o ∈ all -> doomed cs o = descends h (hash o)) as Hall.
  { apply doomed_all; [apply (disc_cs Hd)|]. intros o Ho Hp.
    destruct (decide (hash o ∈ cs)) as [|Hnot]; [done|]. exfalso. apply (Hnone o); [|done].
    rewrite (disc_level Hd). apply elem_of_filter_true. split; [done|].
    rewrite doomed_first by (first [done|intros c Hc; by apply (disc_cs Hd)]). by rewrite bool_decide_false. }
  assert (List.filter (doomed cs) all = above h all) as Hab by by apply filter_ext_elem.
  assert (forall bs', (forall o, o ∈ bs' -> o ∈ all) -> List.filter (fun o => negb (doomed cs o)) bs' = spared h bs') as Hsp.
  { intros bs' Hin. apply filter_ext_elem. intros o Ho. by rewrite Hall by by apply Hin. }
  split_and!.
  - by rewrite (disc_cnt Hd), Hab.
  - simpl. rewrite (disc_level Hd), (disc_rest Hd). f_equal.
    + apply Hsp. intros o Ho. apply elem_of_level_blocks. by exists 0%nat, first.
    + apply map_ext_in. intros bs' (r & <- & Hr)%in_map_iff. apply Hsp. intros o Ho.
      apply list_elem_of_In, list_elem_of_lookup in Hr as (i & Hi). apply elem_of_level_blocks. by exists (S i), r.
  - apply levels_ok_cons. split; [apply (disc_level_ok Hd)|apply (disc_rest_ok Hd)].
  - apply (disc_accounted Hd).
  - apply (disc_frame Hd).
  - rewrite <- Hab. apply (disc_retention Hd).
Qed.

(** The subtrees of several blocks of a level, one after the other. *)
Lemma subtrees_perm (os : list block) bs' :
  NoDup (map hash os) -> (forall o, o ∈ os -> o ∈ blocks first) ->
  concat (map (fun o => above (hash o) bs') os) ≡ₚ List.filter (doomed (map hash os)) bs'.
Proof.
  induction os as [|o os IH]; intros Hnd Hin; simpl; [by rewrite filter_none|].
  apply NoDup_cons in Hnd as [Hnew Hnd]. rewrite IH; [|done|intros o' Ho'; apply Hin; by right].
  apply (filter_or_perm (fun x => descends (hash o) (hash x))). intros x _.
  apply (doomed_disjoint n (map hash os) (hash o) x); [|apply disc_first_number, Hin; by left|done].
  apply first_number. intros c (o' & -> & Ho')%list_elem_of_fmap. apply list_elem_of_fmap_2, Hin. by right.
Qed.
End discarding.

(** [discard_descendants] takes away what is above [h], and only that; what carries a pin, or
    has one above it, is retained with the number of those pins. *)
Lemma discard_descendants_post {E} depth : forall ls n h bs s,
  (length ls <= depth)%nat -> levels_ok n ls -> linked ls -> number_of h + 1 = n ->
  accounted (bs ++ level_blocks ls) s -> N.of_nat (length (level_blocks ls)) <= u32_MAX ->
  postM (discard_descendants (E := E) depth ls h) s (fun '(ls', cnt) s' =>
    cnt = npin s (above h (level_blocks ls)) /\ map blocks ls' = map (spared h) (map blocks ls) /\
    levels_ok n ls' /\ accounted (bs ++ level_blocks ls') s' /\ frame s s' /\
    retention s s' (above h (level_blocks ls)) (level_blocks ls)) (fun _ _ => False).
Proof.
  induction depth as [|depth IH]; intros ls n h bs s Hdepth Hok Hlink Hn Hacc Hlen;
    destruct ls as [|first rest]; simpl in Hdepth; try lia.
  1, 2: eapply postM_intro; [done|]; split_and!; try done; split; [by intros o ?%elem_of_nil|done].
  cbn [discard_descendants].
  set (all := level_blocks (first :: rest)) in *.
  eapply (loopM_post _
    (fun '(l, rest', cnt) s1 => exists cs, discarding n h bs first rest s cs l rest' cnt s1)
    (fun '(l, _, _) _ => length (blocks l))).
  2:{ exists []. apply levels_ok_cons in Hok as [Hf Hr].
      assert (forall bs', List.filter (fun o : block => negb (doomed [] o)) bs' = bs') as Hid
        by (intros bs'; by apply filter_all).
      split; [by intros c ?%elem_of_nil|by rewrite Hid| |done|done|done|done| |].
      - rewrite (map_ext _ id), map_id by done. done.
      - by rewrite filter_none.
      - rewrite filter_none by done. split; [by intros o ?%elem_of_nil|done]. }
  2: lia.
  intros [[l rest'] cnt] s1 [cs Hd]. unfold postM. run_steps.
  assert (forall o, o ∈ blocks l -> o ∈ bs ++ blocks l ++ level_blocks rest') as Hl.
  { intros o Ho. apply elem_of_app. right. apply elem_of_app. by left. }
  destruct (position_ok (E := E) (fun o => let! p := parent_of_block s1 o in Ok (bool_decide (p = h)))
              (fun o => bool_decide (parent_of (hash o) = h)) (blocks l)) as [(i & o & Hpos & Hi & Hpar)|[Hpos Hnone]].
  { intros o Ho. unfold parent_of_block. by rewrite (acc_head_parent _ _ o (disc_accounted Hd) (Hl o Ho)). }
  - step_with Hpos. cbv iota beta. apply bool_decide_eq_true in Hpar. apply list_elem_of_lookup_2 in Hi as Hol.
    destruct (level_remove_ok (E := E) n l i o (disc_level_ok Hd) Hi) as (l' & Hrem & Hl' & Hl'ok).
    step_with Hrem. cbv iota beta.
    destruct (discarding_child Hok _ _ _ _ _ _ _ Hd Hi) as [Ho Hnew].
    pose proof (IH rest' (n + 1) (hash o) (bs ++ blocks l' ++ [o]) s1) as Hrec.
    apply postM_returns in Hrec as (s2 & [rest'' cnt1] & Hrun & -> & Hr'' & Hr''ok & Hacc2 & Hf2 & Hret2).
    + destruct (discarding_round (E := E) (E' := E) (E'' := E) Hok Hn _ _ _ _ _ _ _ _ _ _ Hlen Hd Hi Hpar Hl' Hl'ok Hr'' Hr''ok Hacc2 Hf2 Hret2)
        as (s3 & Hnum & Hdisc & Hcnt & Hd').
      step_with Hrun. cbv iota beta. run_steps. step_with Hnum. step_with Hdisc. step_with Hcnt.
      split; [by exists (hash o :: cs)|]. rewrite Hl', length_delete by by eexists. apply lookup_lt_Some in Hi. lia.
    + pose proof (f_equal length (disc_rest Hd)) as Hlr. rewrite !length_map in Hlr. lia.
    + apply (disc_rest_ok Hd).
    + by eapply discarding_linked.
    + by rewrite (disc_first_number Hok).
    + eapply accounted_perm; [|done|exact (disc_accounted Hd)].
      pose proof (delete_Permutation _ _ _ Hi) as Hp. rewrite <- Hl' in Hp. rewrite Hp, <- !app_assoc. cbn [app].
      by rewrite <- !Permutation_middle.
    + etrans; [|exact Hlen]. rewrite (level_blocks_map _ _ _ (disc_rest Hd)). unfold all, level_blocks. simpl.
      rewrite length_app. pose proof (sublist_length _ _ (filter_sublist (fun o => negb (doomed cs o)) (concat (map blocks rest)))). lia.
  - step_with Hpos. cbv iota beta. apply (discarding_done Hok Hlink Hn _ _ _ _ _ Hd).
    intros o Ho. specialize (Hnone o Ho). by apply bool_decide_eq_false in Hnone.
Qed.

Lemma child_journals_ok {E} s h (below : B -> outcome E (list bytes)) (sub : B -> list block) bs :
  (forall o, o ∈ bs -> parents s !! hash o = Some (parent_of (hash o))) ->
  (forall o, o ∈ bs -> exists js, below (hash o) = Ok js /\ js ≡ₚ map journal_key (sub (hash o))) ->
  let children := List.filter (fun o => bool_decide (parent_of (hash o) = h)) bs in
  exists js, child_journals s h below bs = Ok js /\
    js ≡ₚ map journal_key (children ++ concat (map (fun o => sub (hash o)) children)).
Proof.
  induction bs as [|o bs IH]; intros Hpar Hbelow; [by exists []|].
  destruct IH as (js & Hjs & Hp); [intros; apply Hpar; by right|intros; apply Hbelow; by right|].
  cbn [child_journals]. unfold parent_of_block. rewrite Hpar by by left. cbn [expect bind List.filter].
  destruct (bool_decide (parent_of (hash o) = h)).
  - destruct (Hbelow o ltac:(by left)) as (js' & -> & Hp'). cbn [bind]. rewrite Hjs. eexists. split; [done|].
    rewrite Hp, Hp'. simpl. rewrite !map_app. constructor. apply Permutation_app_swap_app.
  - cbn [bind]. rewrite Hjs. by eexists.
Qed.

(** The journal keys that [discard_journals] collects are those of the blocks above [h]. *)
Lemma discard_journals_ok {E} s ls : forall n h,
  levels_ok n ls -> linked ls -> number_of h + 1 = n ->
  (forall o, o ∈ level_blocks ls -> parents s !! hash o = Some (parent_of (hash o))) ->
  exists js, discard_journals (E := E) s ls h = Ok js /\ js ≡ₚ map journal_key (above h (level_blocks ls)).
Proof.
  induction ls as [|l ls IH]; intros n h Hok Hlink Hn Hpar; [by exists []|].
  cbn [discard_journals].
  destruct (child_journals_ok s h (discard_journals (E := E) s ls) (fun c => above c (level_blocks ls)) (blocks l))
    as (js & Hjs & Hp).
  { intros o Ho. apply Hpar, elem_of_app. by left. }
  { intros o Ho. apply (IH (n + 1)); [by apply levels_ok_cons in Hok as [_ Hr]|by eapply linked_tail| |].
    - by rewrite (disc_first_number Hok).
    - intros o' Ho'. apply Hpar, elem_of_app. by right. }
  exists js. split; [done|]. rewrite Hp. apply Permutation_map.
  set (children := List.filter _ (blocks l)).
  assert (children = above h (blocks l)) as Hch.
  { apply filter_ext_elem. intros o Ho. symmetry. apply descends_child. by rewrite (disc_first_number Hok). }
  change (level_blocks (l :: ls)) with (blocks l ++ level_blocks ls). unfold above at 2. rewrite List.filter_app.
  rewrite Hch at 1. apply Permutation_app_head. rewrite (subtrees_perm Hok).
  - erewrite filter_ext_elem; [done|]. intros o Ho. apply (doomed_all Hok Hlink Hn).
    + intros c (o' & -> & [Ho' Hp']%elem_of_filter_true)%list_elem_of_fmap.
      apply bool_decide_eq_true in Hp'. split; [by apply list_elem_of_fmap_2|done].
    + intros o' Ho' Hp'. apply list_elem_of_fmap_2, elem_of_filter_true. split; [done|]. by apply bool_decide_eq_true.
    + apply elem_of_app. by right.
  - apply levels_ok_cons in Hok as [Hl _]. eapply sublist_NoDup; [apply (level_hashes _ _ Hl)|].
    apply (fmap_sublist hash), filter_sublist.
  - intros o [Ho _]%elem_of_filter_true. done.
Qed.
End spec.
