(* ===== verification/NonCanonicalOps.v ===== *)
(** * The non-canonical overlay: its operations

    The invariant [valid] of the overlay, and the effect of every operation on a valid one. *)

From stdpp Require Import strings.
From S2P Require Import Prelude StateDbTypes NonCanonical NonCanonicalCount NonCanonicalDiscard.

#[local] Open Scope N_scope.

Section spec.
Context {P : Profile} {B K CE : Type} `{Countable B, Countable K} {chain : Chain B K}.
Context {enc_unit : Encode unit} {enc_key : Encode (N * N)} {enc_canonical : Encode (B * N)}
        {enc_record : Encode (JournalRecord B K)}.

Notation overlay := (NonCanonicalOverlay B K).
Notation level := (OverlayLevel B K).
Notation block := (BlockOverlay B K).
Implicit Types s : overlay.
Implicit Types ls rest : list level.

(** ** Canonicalization *)

(** The other roots among the blocks of the popped level. *)
Definition other_roots (h : B) (bs : list block) : list B :=
  map hash (List.filter (fun o => negb (bool_decide (hash o = h))) bs).

(** What is retained of the blocks of the popped level and of those above them: the
    canonical block [h] stands alone, since what is above it stays. *)
Record canonical_retention (h : B) s s' (popped all : list block) : Prop := {
  ret_popped o : o ∈ popped -> pinned_insertions s' !! hash o =
     retained o (npin s (if decide (hash o = h) then [o] else o :: above (hash o) all));
  ret_above o : o ∈ all -> doomed (other_roots h popped) o = true ->
     pinned_insertions s' !! hash o = retained o (npin s (above (hash o) all));
  ret_same x : x ∉ map hash popped -> x ∉ map hash (List.filter (doomed (other_roots h popped)) all) ->
     pinned_insertions s' !! x = pinned_insertions s !! x
}.

(** The effect of handling the blocks [popped], the blocks [todo] of the level being left. *)
Record canonicalizing (f : N) (h : B) (popped todo : list block) s s' (js : list bytes) : Prop := {
  can_levels : map blocks (levels s') =
    map (List.filter (fun o => negb (doomed (other_roots h popped) o))) (map blocks (levels s));
  can_ok : levels_ok (f + 1) (levels s');
  can_linked : linked (levels s');
  can_accounted : accounted (todo ++ level_blocks (levels s')) s';
  can_last : last_canonicalized s' = last_canonicalized s;
  can_pinned : pinned s' = pinned s;
  can_canonical : pinned_canonincalized s' = pinned_canonincalized s;
  can_journals : js ≡ₚ map journal_key
    (popped ++ List.filter (doomed (other_roots h popped)) (level_blocks (levels s)));
  can_retention : canonical_retention h s s' popped (level_blocks (levels s))
}.

Definition canonical_change (c : ChangeSet K) (o : block) : ChangeSet K :=
  mkChangeSet (cs_inserted c ++ map (fun k => (k, node k)) (inserted o)) (cs_deleted c ++ deleted o).

Lemma canonical_changes_ok {E} s o bs c :
  accounted bs s -> o ∈ bs ->
  canonical_changes (E := E) s o c =
    Ok (canonical_change c o).
Proof.
  intros Ha Ho. unfold canonical_changes, canonical_change.
  assert (forall ks, (forall k, k ∈ ks -> k ∈ inserted o) ->
    foldr (fun k acc => let! v := expect (values s !! k) in let! acc := acc in Ok ((k, snd v) :: acc)) (Ok []) ks
    = Ok (E := E) (map (fun k => (k, node k)) ks)) as Hks.
  { induction ks as [|k ks IH]; intros Hin; [done|]. cbn [foldr map].
    destruct (counted_lookup _ _ _ k (acc_count _ _ Ha)) as (n & ->).
    { apply elem_of_app. left. apply elem_of_concat. exists (inserted o). split; [by apply list_elem_of_fmap_2|].
      apply Hin. by left. }
    cbn [expect bind]. rewrite IH by (intros; apply Hin; by right). done. }
  by rewrite Hks.
Qed.

Lemma discard_above_ok {E} n h bs s :
  levels_ok n (levels s) -> linked (levels s) -> number_of h + 1 = n ->
  accounted (bs ++ level_blocks (levels s)) s -> N.of_nat (length (level_blocks (levels s))) <= u32_MAX ->
  exists s', discard_above (E := E) h s = (s', Ok (npin s (above h (level_blocks (levels s))))) /\
    map blocks (levels s') = map (spared h) (map blocks (levels s)) /\ levels_ok n (levels s') /\
    accounted (bs ++ level_blocks (levels s')) s' /\ frame s (set_levels (levels s) s') /\
    retention s s' (above h (level_blocks (levels s))) (level_blocks (levels s)).
Proof.
  intros Hok Hlink Hn Hacc Hlen. unfold discard_above. run_steps.
  pose proof (discard_descendants_post (E := E) (length (levels s)) (levels s) n h bs s ltac:(lia) Hok Hlink Hn Hacc Hlen) as Hpost.
  apply postM_returns in Hpost as (s1 & [ls' cnt] & Hrun & -> & Hls & Hok' & Hacc' & Hfr & Hret).
  step_with Hrun. cbv iota beta. run_steps. eexists. split; [done|].
  split_and!; [done|done| | |done].
  - destruct Hacc' as [H1 H2 H3 H4 H5 H6 H7 H8]. by split.
  - destruct Hfr as (? & ? & ? & ?). done.
Qed.

Section canonicalizing.
Context {E : Type} (f : N) (h : B) (index : nat).

(** What holds when the blocks [todo] of the popped level are left, with their positions. *)
Record to_handle (todo : list (nat * block)) s : Prop := {
  th_index i o : (i, o) ∈ todo -> Nat.eqb i index = bool_decide (hash o = h);
  th_number i o : (i, o) ∈ todo -> number_of (hash o) = f;
  th_ok : levels_ok (f + 1) (levels s);
  th_linked : linked (levels s);
  th_accounted : accounted (map snd todo ++ level_blocks (levels s)) s;
  th_size : N.of_nat (length todo + length (level_blocks (levels s))) <= u32_MAX
}.

Lemma canonicalize_target i o todo s c js : to_handle ((i, o) :: todo) s -> hash o = h ->
  exists s', canonicalize_one (E := E) index (i, o) (c, js) s = (s', Ok (canonical_change c o, js ++ [journal_key o])) /\
    canonicalizing f h [o] (map snd todo) s s' [journal_key o].
Proof.
  intros [Hidx _ Hok Hlink Hacc Hsize] Hh. unfold canonicalize_one. rewrite (Hidx i o) by by left.
  rewrite bool_decide_true by done. unfold bindM at 1. run_steps.
  rewrite (bindM_lift _ _ _ _ (canonical_changes_ok (E := E) s o _ c Hacc ltac:(by left))). cbv iota beta. unfold ret at 1.
  run_steps.
  rewrite (bindM_lift _ _ _ (npin s [o])).
  2:{ unfold npin. simpl. change (bool_decide _) with (is_pinned s o). by destruct (is_pinned s o). }
  simpl in Hacc. destruct (discard_block_ok (E := E) (npin s [o]) o _ s Hacc) as (s' & Hrun & Hacc' & Hfr & Hpo & Hpx).
  step_with Hrun. exists s'. split; [done|]. destruct Hfr as (Hf1 & Hf2 & Hf3 & Hf4).
  assert (other_roots h [o] = []) as Hno by (unfold other_roots; simpl; by rewrite bool_decide_true).
  split; rewrite ?Hf2, ?Hno; try done.
  - rewrite (map_ext _ id), map_id by (intros bs; by apply filter_all). done.
  - by rewrite filter_none.
  - split; rewrite ?Hno; [| done |].
    + intros x ->%list_elem_of_singleton. by rewrite decide_True.
    + intros x Hx _. apply Hpx. intros ->. apply Hx. by left.
Qed.

Lemma canonicalize_other i o todo s c js : to_handle ((i, o) :: todo) s -> hash o <> h ->
  exists s' js', canonicalize_one (E := E) index (i, o) (c, js) s = (s', Ok (c, js ++ js')) /\
    canonicalizing f h [o] (map snd todo) s s' js'.
Proof.
  intros [Hidx Hnum Hok Hlink Hacc Hsize] Hh. unfold canonicalize_one. rewrite (Hidx i o) by by left.
  rewrite bool_decide_false by done. specialize (Hnum i o ltac:(by left)).
  destruct (discard_journals_ok (E := E) s (levels s) (f + 1) (hash o) Hok Hlink ltac:(lia)) as (js' & Hjs & Hp).
  { intros x Hx. eapply acc_head_parent; [done|]. apply elem_of_app. by right. }
  simpl in Hacc, Hsize. set (all := level_blocks (levels s)) in *.
  destruct (discard_above_ok (E := E) (f + 1) (hash o) (o :: map snd todo) s Hok Hlink ltac:(lia) Hacc ltac:(fold all; lia))
    as (s1 & Hrun & Hls & Hok1 & Hacc1 & (Hf1 & _ & Hf3 & Hf4) & Hret & Hsame). simpl in Hf1, Hf3, Hf4. fold all in Hrun, Hret, Hsame.
  unfold bindM at 1. run_steps. step_with Hjs. step_with Hrun. unfold ret at 1. cbv iota beta. run_steps.
  assert (npin s (o :: above (hash o) all) = npin s (above (hash o) all) + if is_pinned s o then 1 else 0) as Hcnt.
  { change (o :: above (hash o) all) with ([o] ++ above (hash o) all). rewrite npin_app. unfold npin at 1. simpl.
    destruct (is_pinned s o); simpl; lia. }
  rewrite (bindM_lift _ _ _ (npin s (o :: above (hash o) all))).
  2:{ rewrite Hcnt, Hf3. change (bool_decide _) with (is_pinned s o). destruct (is_pinned s o); [|by rewrite N.add_0_r].
      apply add_u32_eq. pose proof (npin_length s (above (hash o) all)).
      pose proof (sublist_length _ _ (filter_sublist (fun x => descends (hash o) (hash x)) all)). unfold above in *. lia. }
  destruct (discard_block_ok (E := E) (npin s (o :: above (hash o) all)) o _ s1 Hacc1)
    as (s' & Hrun' & Hacc' & (Hg1 & Hg2 & Hg3 & Hg4) & Hpo & Hpx).
  step_with Hrun'. exists s', (js' ++ [journal_key o]). rewrite <- app_assoc. split; [done|].
  assert (other_roots h [o] = [hash o]) as Hroots by (unfold other_roots; simpl; by rewrite bool_decide_false).
  assert (forall x, doomed [hash o] x = descends (hash o) (hash x)) as Hdoom by (intros x; apply orb_false_r).
  assert (List.filter (doomed [hash o]) all = above (hash o) all) as Habove by by apply filter_ext_elem.
  split; rewrite ?Hroots, ?Hg2; try congruence; fold all; rewrite ?Habove.
  - rewrite Hls. apply map_ext. intros bs. apply filter_ext_elem. intros x _. by rewrite Hdoom.
  - done.
  - apply (linked_doomed (f + 1) [hash o] (levels s)); [done..|]. rewrite Hls. apply map_ext. intros bs.
    apply filter_ext_elem. intros x _. by rewrite Hdoom.
  - done.
  - rewrite Hp. simpl. by rewrite <- Permutation_cons_append.
  - assert (forall x, x ∈ above (hash o) all -> hash x <> hash o) as Hne.
    { intros x [(j & l & Hj & Hx)%elem_of_level_blocks _]%elem_of_filter_true Heq.
      pose proof (level_number _ _ (Hok j l Hj) x Hx) as Hnx. rewrite Heq in Hnx. lia. }
    split; rewrite ?Hroots, ?Habove.
    + intros x ->%list_elem_of_singleton. by rewrite decide_False.
    + intros x Hx Hdx. rewrite Hdoom in Hdx. assert (x ∈ above (hash o) all) as Hin by by apply elem_of_filter_true.
      rewrite Hpx by by apply Hne. by apply Hret.
    + intros x Hx Hx'. rewrite Hpx by (intros ->; apply Hx; by left). by apply Hsame.
Qed.

Lemma other_roots_cons o bs : other_roots h (o :: bs) = other_roots h [o] ++ other_roots h bs.
Proof. unfold other_roots. simpl. by destruct (negb _). Qed.

Lemma other_roots_elem c bs : c ∈ other_roots h bs -> c ∈ map hash bs /\ c <> h.
Proof.
  intros (o & -> & [Ho Hne]%elem_of_filter_true)%list_elem_of_fmap.
  apply negb_true_iff, bool_decide_eq_false in Hne. split; [by apply list_elem_of_fmap_2|done].
Qed.

(** Blocks of the popped level handled one after another; [s1] is the state in between. *)
Section compose.
Context {o : block} {todo : list block} {s s1 s2 : overlay} {js1 js2 : list bytes}.
Context (H1 : canonicalizing f h [o] todo s s1 js1) (H2 : canonicalizing f h todo [] s1 s2 js2).
Context (Hnew : hash o ∉ map hash todo) (Hok : levels_ok (f + 1) (levels s))
        (Hnum : forall x, x ∈ o :: todo -> number_of (hash x) = f).
Notation all := (level_blocks (levels s)).

Lemma compose_between : level_blocks (levels s1) = List.filter (fun x => negb (doomed (other_roots h [o]) x)) all.
Proof. apply level_blocks_map, (can_levels _ _ _ _ _ _ _ H1). Qed.

Lemma compose_number x : x ∈ all -> f < number_of (hash x).
Proof.
  intros (i & l & Hi & Hx)%elem_of_level_blocks. rewrite (level_number _ _ (Hok i l Hi)) by done. lia.
Qed.

Lemma compose_roots bs c : (forall x, x ∈ bs -> x ∈ o :: todo) -> c ∈ other_roots h bs -> number_of c = f.
Proof. intros Hin [(x & -> & Hx)%list_elem_of_fmap _]%other_roots_elem. by apply Hnum, Hin. Qed.

(** What is above a block of [todo] is not touched by the first step. *)
Lemma compose_above c x : c ∈ map hash todo -> descends c x = true -> above x (level_blocks (levels s1)) = above x all.
Proof.
  intros (o' & -> & Ho')%list_elem_of_fmap Hd. rewrite compose_between.
  apply (spared_above f _ (hash o')); [|apply Hnum; by right| |done].
  - intros c. apply compose_roots. intros x' ->%list_elem_of_singleton. by left.
  - intros [(x' & Heq & ->%list_elem_of_singleton)%list_elem_of_fmap _]%other_roots_elem.
    apply Hnew. rewrite <- Heq. by apply list_elem_of_fmap_2.
Qed.

Lemma compose_retention : canonical_retention h s s2 (o :: todo) all.
Proof.
  pose proof (can_retention _ _ _ _ _ _ _ H1) as [R1 R2 R3]. pose proof (can_retention _ _ _ _ _ _ _ H2) as [S1 S2 S3].
  pose proof (npin_frame s s1) as Hnp. specialize (fun bs => Hnp bs (can_pinned _ _ _ _ _ _ _ H1)) as Hpin.
  assert (forall x, x ∈ all -> hash x ∉ map hash (o :: todo)) as Hlow.
  { intros x Hx (y & Heq & Hy)%list_elem_of_fmap. pose proof (compose_number x Hx). rewrite Heq, Hnum in *; [lia|done]. }
  split.
  - intros x [->|Hx]%elem_of_cons.
    + rewrite S3; [by apply R1; left|done|].
      intros (y & Heq & [Hy _]%elem_of_filter_true)%list_elem_of_fmap. rewrite compose_between in Hy.
      apply elem_of_filter_true in Hy as [Hy _]. apply (Hlow y Hy). rewrite <- Heq. by left.
    + rewrite S1 by done. f_equal. rewrite Hpin. destruct (decide (hash x = h)); [done|].
      by rewrite (compose_above (hash x)) by (first [apply descends_refl|by apply list_elem_of_fmap_2]).
  - intros x Hx. rewrite other_roots_cons, doomed_app. destruct (doomed (other_roots h [o]) x) eqn:Hd1; intros Hd2.
    + rewrite S3; [by apply R2| |].
      * intros Hin. apply (Hlow x Hx). by right.
      * intros (y & Heq & [Hy _]%elem_of_filter_true)%list_elem_of_fmap. rewrite compose_between in Hy.
        apply elem_of_filter_true in Hy as [_ Hy]. unfold doomed in Hy, Hd1. by rewrite <- Heq, Hd1 in Hy.
    + simpl in Hd2. rewrite S2; [|rewrite compose_between; apply elem_of_filter_true; by rewrite Hd1|done].
      rewrite Hpin. apply existsb_true in Hd2 as (c & Hc & Hd). apply other_roots_elem in Hc as [Hc _].
      by rewrite (compose_above c).
  - intros x Hx Hx'. rewrite S3, R3; [done|..].
    + intros ->%list_elem_of_singleton. apply Hx. by left.
    + intros (y & -> & [Hy Hdy]%elem_of_filter_true)%list_elem_of_fmap. apply Hx', list_elem_of_fmap_2, elem_of_filter_true.
      by rewrite other_roots_cons, doomed_app, Hdy.
    + intros Hin. apply Hx. by right.
    + intros (y & -> & [Hy Hdy]%elem_of_filter_true)%list_elem_of_fmap. rewrite compose_between in Hy.
      apply elem_of_filter_true in Hy as [Hy _]. apply Hx', list_elem_of_fmap_2, elem_of_filter_true.
      by rewrite other_roots_cons, doomed_app, Hdy, orb_true_r.
Qed.

Lemma compose_canonicalizing : canonicalizing f h (o :: todo) [] s s2 (js1 ++ js2).
Proof.
  pose proof (can_levels _ _ _ _ _ _ _ H1) as L1. pose proof (can_levels _ _ _ _ _ _ _ H2) as L2.
  destruct H1 as [_ _ _ _ La1 Pi1 Pc1 J1 _]. destruct H2 as [_ Ok2 Li2 Ac2 La2 Pi2 Pc2 J2 _].
  split; try done; try congruence; [| |apply compose_retention].
  - rewrite L2, L1, map_map. apply map_ext. intros bs. rewrite filter_filter_and. apply filter_ext_elem. intros x _.
    rewrite (other_roots_cons o todo), doomed_app, negb_orb. apply andb_comm.
  - rewrite J1, J2, compose_between, <- map_app. apply Permutation_map.
    rewrite (filter_ext_elem (doomed (other_roots h (o :: todo))) (fun x => doomed (other_roots h [o]) x || doomed (other_roots h todo) x)).
    2:{ intros x _. by rewrite (other_roots_cons o todo), doomed_app. }
    rewrite <- filter_then_perm. simpl. constructor. rewrite !app_assoc. apply Permutation_app_tail, Permutation_app_comm.
Qed.
End compose.

Definition canonical_of (bs : list block) : list block := List.filter (fun o => bool_decide (hash o = h)) bs.

Lemma canonicalize_loop todo : forall s c js, to_handle todo s ->
  exists s' js', for_fold (canonicalize_one (E := E) index) todo (c, js) s =
      (s', Ok (foldl canonical_change c (canonical_of (map snd todo)), js ++ js')) /\
    canonicalizing f h (map snd todo) [] s s' js'.
Proof.
  induction todo as [|[i o] todo IH]; intros s c js Hth.
  { exists s, []. rewrite app_nil_r. split; [done|]. destruct Hth as [_ _ Hok Hlink Hacc _].
    assert (forall bs : list block, List.filter (fun o => negb (doomed (other_roots h []) o)) bs = bs) as Hid
      by (intros bs; by apply filter_all).
    split; try done; simpl.
    - rewrite (map_ext _ id), map_id by done. done.
    - by rewrite filter_none.
    - split; [by intros o ?%elem_of_nil|done|done]. }
  assert (exists s1 js1, canonicalize_one (E := E) index (i, o) (c, js) s =
            (s1, Ok (foldl canonical_change c (canonical_of [o]), js ++ js1)) /\
            canonicalizing f h [o] (map snd todo) s s1 js1) as (s1 & js1 & Hrun & H1).
  { unfold canonical_of. simpl. destruct (decide (hash o = h)) as [Hh|Hh].
    - rewrite bool_decide_true by done. destruct (canonicalize_target i o todo s c js Hth Hh) as (s1 & Hrun & Hc).
      by exists s1, [journal_key o].
    - rewrite bool_decide_false by done. destruct (canonicalize_other i o todo s c js Hth Hh) as (s1 & js1 & Hrun & Hc).
      by exists s1, js1. }
  destruct Hth as [Hidx Hnum Hok Hlink Hacc Hsize]. simpl in Hacc, Hsize.
  assert (to_handle todo s1) as Hth1.
  { split; [intros; apply Hidx; by right|intros; eapply Hnum; by right|apply H1|apply H1|apply H1|].
    rewrite (level_blocks_map _ _ _ (can_levels _ _ _ _ _ _ _ H1)).
    pose proof (sublist_length _ _ (filter_sublist (fun x => negb (doomed (other_roots h [o]) x)) (level_blocks (levels s)))). lia. }
  destruct (IH s1 (foldl canonical_change c (canonical_of [o])) (js ++ js1) Hth1) as (s2 & js2 & Hrun2 & H2).
  cbn [for_fold]. step_with Hrun. rewrite Hrun2. exists s2, (js1 ++ js2). rewrite app_assoc, <- foldl_app. split.
  - unfold canonical_of. simpl. by destruct (bool_decide (hash o = h)).
  - cbn [map snd]. eapply compose_canonicalizing; [done|done| |done|].
    + pose proof (acc_nodup _ _ Hacc) as Hnd. simpl in Hnd. rewrite map_app in Hnd.
      apply NoDup_cons in Hnd as [Hnew _]. intros Hin. apply Hnew, elem_of_app. by left.
    + intros x [->|(p & -> & Hp)%list_elem_of_fmap]%elem_of_cons; [apply (Hnum i); by left|].
      destruct p as [j x]. apply (Hnum j). by right.
Qed.
End canonicalizing.

(** ** The invariant *)

(** The number of the blocks on the lowest level. *)
Definition front s : N := match last_canonicalized s with Some (_, n) => n + 1 | None => 0 end.

Definition total_keys s : nat := length (block_keys (level_blocks (levels s)) ++ retained_keys s).

Record valid s : Prop := {
  v_levels : levels_ok (front s) (levels s);
  v_linked : linked (levels s);
  v_last h n : last_canonicalized s = Some (h, n) -> number_of h = n;
  v_root h n l o : last_canonicalized s = Some (h, n) -> levels s !! 0%nat = Some l -> o ∈ blocks l ->
    parent_of (hash o) = h;
  v_genesis : last_canonicalized s = None -> (length (levels s) <= 1)%nat;
  v_accounted : accounted (level_blocks (levels s)) s;
  v_height : front s + N.of_nat (length (levels s)) <= u64_MAX;
  v_size : N.of_nat (length (level_blocks (levels s))) <= u32_MAX;
  v_pinned h n : pinned s !! h = Some n -> 0 < n
}.

Lemma accounted_ext bs s s' :
  parents s' = parents s -> values s' = values s -> pinned_insertions s' = pinned_insertions s ->
  accounted bs s -> accounted bs s'.
Proof.
  intros Hp Hv Hpi [H1 H2 H3 H4 H5 H6 H7 H8]. unfold retained_keys in H2, H8.
  split; [done| | | | | | |]; unfold retained_keys; rewrite ?Hp, ?Hv, ?Hpi; try done.
Qed.

Lemma front_block_number_ok {E} s : front s <= u64_MAX -> front_block_number (E := E) s = Ok (front s).
Proof.
  unfold front_block_number, front. destruct (last_canonicalized s) as [[h n]|]; [|done]. apply add_u64_eq.
Qed.

(** On the levels above, what the other roots do not carry is above the canonical block. *)
Lemma canonical_above n l ls h o : levels_ok n (l :: ls) -> linked (l :: ls) -> h ∈ map hash (blocks l) ->
  o ∈ level_blocks ls -> doomed (other_roots h (blocks l)) o = negb (descends h (hash o)).
Proof.
  intros Hok Hlink Hh (i & l' & Hi & Ho)%elem_of_level_blocks.
  destruct (ancestor_in n _ 0 (S i) l' o Hok Hlink ltac:(lia) Hi Ho) as (l0 & o0 & Hl0 & Ho0 & Hd).
  injection Hl0 as <-. pose proof (disc_first_number Hok) as Hnum.
  assert (forall c, c ∈ other_roots h (blocks l) -> number_of c = n) as Hroots.
  { intros c [Hc _]%other_roots_elem. apply list_elem_of_fmap in Hc as (x & -> & Hx). by apply Hnum. }
  apply list_elem_of_fmap in Hh as (oh & -> & Hoh).
  destruct (decide (hash o0 = hash oh)) as [Heq|Hne].
  - rewrite Heq in Hd. rewrite Hd. apply (doomed_disjoint n _ (hash oh)); [done|by apply Hnum| |done].
    by intros [_ ?]%other_roots_elem.
  - assert (descends (hash oh) (hash o) = false) as ->.
    { apply not_true_iff_false. intros Hd'. apply Hne.
      assert (descends (hash oh) (hash o0) = true) as Hx by (eapply descends_linear; [done|done|]; by rewrite !Hnum).
      rewrite descends_same_number in Hx by by rewrite !Hnum. by apply bool_decide_eq_true in Hx. }
    apply existsb_true. exists (hash o0). split; [|done]. apply list_elem_of_fmap_2, elem_of_filter_true.
    split; [done|]. by rewrite bool_decide_false.
Qed.
(** ** [canonicalize] *)

Lemma nc_pin_ok {E} h s : default 0 (pinned s !! h) < u32_MAX ->
  nc_pin (E := E) h s = (set_pinned (<[h := default 0 (pinned s !! h) + 1]> (pinned s)) s, Ok tt).
Proof. intros Hb. unfold nc_pin. run_steps. by rewrite (bindM_lift _ _ _ _ (add_u32_eq (default 0 (pinned s !! h)) 1 ltac:(lia))). Qed.

(** The overlay when the blocks of the popped level are about to be handled. *)
Definition popped_state (h : B) ls s : overlay :=
  set_pinned_canonincalized (pinned_canonincalized s ++ [h])
    (set_pinned (<[h := default 0 (pinned s !! h) + 1]> (pinned s)) (set_levels ls s)).

Lemma imap_pair_elem {A} (l : list A) i x : (i, x) ∈ imap pair l <-> l !! i = Some x.
Proof.
  rewrite list_elem_of_lookup. setoid_rewrite list_lookup_imap. split.
  - intros (j & Hj). destruct (l !! j) eqn:Hl; simpl in Hj; [|done]. by injection Hj as -> ->.
  - intros Hl. exists i. by rewrite Hl.
Qed.

Lemma imap_pair_snd {A} (l : list A) : map snd (imap pair l) = l.
Proof.
  apply list_eq. intros i. change (map snd) with (fmap (M := list) (@snd nat A)).
  rewrite list_lookup_fmap, list_lookup_imap. by destruct (l !! i).
Qed.

Lemma level_unique n l i j (o o' : block) :
  level_ok n l -> blocks l !! i = Some o -> blocks l !! j = Some o' -> hash o = hash o' -> i = j.
Proof.
  intros Hl Hi Hj Heq. pose proof (level_hashes _ _ Hl) as Hnd. change (NoDup (hash <$> blocks l)) in Hnd.
  eapply NoDup_lookup; [exact Hnd|by rewrite list_lookup_fmap, Hi|]. by rewrite list_lookup_fmap, Hj, Heq.
Qed.

Lemma popped_to_handle s h l ls index o :
  valid s -> levels s = l :: ls -> blocks l !! index = Some o -> hash o = h ->
  to_handle (front s) h index (imap pair (blocks l)) (popped_state h ls s).
Proof.
  intros Hv Hls Hi Hh. pose proof (v_levels s Hv) as Hok. rewrite Hls in Hok. apply levels_ok_cons in Hok as [Hl Hok].
  split; simpl.
  - intros i x Hx%imap_pair_elem. apply eq_bool_prop_intro. rewrite bool_decide_spec, Is_true_true, Nat.eqb_eq. split.
    + intros ->. congruence.
    + intros Hx'. eapply level_unique; [done..|]. congruence.
  - intros i x Hx%imap_pair_elem%list_elem_of_lookup_2. apply (level_number _ _ Hl x Hx).
  - done.
  - pose proof (v_linked s Hv) as Hlink. rewrite Hls in Hlink. by eapply linked_tail.
  - rewrite imap_pair_snd. pose proof (v_accounted s Hv) as Hacc. rewrite Hls in Hacc.
    by eapply accounted_ext; [..|exact Hacc].
  - pose proof (v_size s Hv) as Hs. rewrite Hls in Hs. unfold level_blocks in *. simpl in Hs.
    rewrite length_app in Hs. by rewrite length_imap.
Qed.

Lemma canonical_of_single h l index (o : block) n :
  level_ok n l -> blocks l !! index = Some o -> hash o = h -> canonical_of h (blocks l) = [o].
Proof.
  intros Hl Hi <-. assert (levels_ok n [l]) as Hok by (apply levels_ok_cons; split; [done|by intros i l' ?]).
  apply list_elem_of_lookup_2 in Hi as Ho. apply Permutation_singleton_r. rewrite <- (above_first Hok o Ho).
  unfold canonical_of, above. erewrite filter_ext_elem; [done|]. intros x Hx. simpl. symmetry. apply descends_same_number.
  by rewrite !(disc_first_number Hok).
Qed.

Lemma nc_canonicalize_ok s h commit l ls index o :
  valid s -> levels s = l :: ls -> blocks l !! index = Some o -> hash o = h ->
  default 0 (pinned s !! h) < u32_MAX -> front s < u64_MAX ->
  exists s' js, nc_canonicalize (CE := CE) h commit s =
      (s', Ok (front s, mkCommitSet (canonical_change (data commit) o)
         (mkChangeSet (cs_inserted (meta commit) ++ [(to_meta_key LAST_CANONICAL tt, encode (h, front s))])
                      (cs_deleted (meta commit) ++ js)))) /\
    last_canonicalized s' = Some (h, front s) /\
    canonicalizing (front s) h (blocks l) [] (popped_state h ls s) (set_last_canonicalized (last_canonicalized s) s') js.
Proof.
  intros Hv Hls Hi Hh Hpin Hf. unfold nc_canonicalize. run_steps. rewrite Hls. run_steps.
  destruct (position_ok (E := StateDbError CE) (fun o => Ok (bool_decide (hash o = h))) (fun o => bool_decide (hash o = h)) (blocks l))
    as [(i & o' & Hpos & Hi' & Ho')|[_ Hnone]]; [done| |].
  2:{ specialize (Hnone o ltac:(by eapply list_elem_of_lookup_2)). by apply bool_decide_eq_false in Hnone. }
  assert (i = index) as ->.
  { apply bool_decide_eq_true in Ho'. pose proof (v_levels s Hv) as Hok. rewrite Hls in Hok.
    apply levels_ok_cons in Hok as [Hl _]. eapply level_unique; [done..|]. congruence. }
  step_with Hpos. cbv iota beta. rewrite (bindM_ok _ _ _ _ _ (nc_pin_ok h (set_levels ls s) Hpin)). run_steps.
  fold (popped_state h ls s).
  destruct (canonicalize_loop (E := StateDbError CE) (front s) h index (imap pair (blocks l)) (popped_state h ls s) (data commit) []
              (popped_to_handle s h l ls index o Hv Hls Hi Hh)) as (s1 & js & Hrun & Hc).
  change (set_pinned_canonincalized _ _) with (popped_state h ls s). step_with Hrun.
  rewrite imap_pair_snd in *. cbv iota beta. run_steps.
  pose proof (can_last _ _ _ _ _ _ _ Hc) as Hlast. simpl in Hlast.
  assert (front_block_number (E := StateDbError CE) s1 = Ok (front s)) as Hnum.
  { replace (front s) with (front s1) by (unfold front; by rewrite Hlast).
    apply front_block_number_ok. unfold front in *. rewrite Hlast. lia. }
  step_with Hnum. run_steps. eexists _, js. pose proof (v_levels s Hv) as Hok. rewrite Hls in Hok.
  apply levels_ok_cons in Hok as [Hl _]. rewrite (canonical_of_single h l index o _ Hl Hi Hh).
  split; [done|]. split; [done|]. rewrite <- Hlast. by destruct s1.
Qed.

(** The state that [canonicalize] leaves. *)
Section canonicalized.
Context {s s' : overlay} {h : B} {l : level} {ls : list level} {index : nat} {o : block} {js : list bytes}.
Context (Hv : valid s) (Hls : levels s = l :: ls) (Hi : blocks l !! index = Some o) (Hh : hash o = h)
        (Hlast : last_canonicalized s' = Some (h, front s))
        (Hc : canonicalizing (front s) h (blocks l) [] (popped_state h ls s)
                (set_last_canonicalized (last_canonicalized s) s') js).

Lemma popped_ok : levels_ok (front s) (l :: ls) /\ linked (l :: ls) /\ h ∈ map hash (blocks l).
Proof.
  pose proof (v_levels s Hv) as Hok. pose proof (v_linked s Hv) as Hlink. rewrite Hls in Hok, Hlink.
  split_and!; [done..|]. rewrite <- Hh. by eapply list_elem_of_fmap_2, list_elem_of_lookup_2.
Qed.

Lemma canonicalized_levels : map blocks (levels s') = map (above h) (map blocks ls).
Proof.
  destruct popped_ok as (Hok & Hlink & Hin). pose proof (can_levels _ _ _ _ _ _ _ Hc) as Hl. simpl in Hl. rewrite Hl.
  apply map_ext_in. intros bs (r & <- & Hr)%in_map_iff. apply filter_ext_elem. intros x Hx.
  apply list_elem_of_In, list_elem_of_lookup in Hr as (i & Hr).
  rewrite (canonical_above (front s) l ls h x Hok Hlink Hin); [by rewrite negb_involutive|].
  apply elem_of_level_blocks. by exists i, r.
Qed.

(** The journal entries that go: those of the level, and of what was above its other blocks. *)
Lemma canonicalized_journals : js ≡ₚ map journal_key (blocks l ++ spared h (level_blocks ls)).
Proof.
  destruct popped_ok as (Hok & Hlink & Hin). rewrite (can_journals _ _ _ _ _ _ _ Hc). simpl.
  apply Permutation_map, Permutation_app_head.
  rewrite (filter_ext_elem _ (fun x => negb (descends h (hash x)))); [done|]. intros x Hx. by apply (canonical_above (front s) l ls).
Qed.

Lemma canonicalized_valid : front s < u64_MAX -> valid s'.
Proof.
  intros Hf. destruct popped_ok as (Hok & Hlink & Hin). pose proof Hok as Hok'. apply levels_ok_cons in Hok' as [Hl Hok'].
  assert (front s' = front s + 1) as Hfront by (unfold front at 1; by rewrite Hlast).
  assert (number_of h = front s) as Hnum by (rewrite <- Hh; apply (level_number _ _ Hl); by eapply list_elem_of_lookup_2).
  pose proof (f_equal length canonicalized_levels) as Hlen. rewrite !length_map in Hlen.
  pose proof (v_height s Hv) as Hheight. rewrite Hls in Hheight. simpl in Hheight.
  pose proof (can_accounted _ _ _ _ _ _ _ Hc) as Hacc. pose proof (can_ok _ _ _ _ _ _ _ Hc) as Hok2. simpl in Hok2.
  split; rewrite ?Hfront, ?Hlast; [done|apply (can_linked _ _ _ _ _ _ _ Hc)|congruence| |done| | | |].
  - intros h' n' l0 x [= <- <-] Hl0 Hx.
    assert (exists l1, ls !! 0%nat = Some l1 /\ blocks l0 = above h (blocks l1)) as (l1 & Hl1 & Hb).
    { pose proof (f_equal (fun m => m !! 0%nat) canonicalized_levels) as Hl1. simpl in Hl1.
      change (map blocks (levels s')) with (blocks <$> levels s') in Hl1.
      rewrite list_lookup_fmap, Hl0 in Hl1. destruct ls as [|l1 ls']; [done|]. exists l1. split; [done|]. by injection Hl1. }
    rewrite Hb in Hx. apply elem_of_filter_true in Hx as [Hx Hd].
    pose proof (level_number _ _ (Hok 1%nat l1 Hl1) x Hx) as Hnx. simpl in Hnx.
    rewrite descends_child in Hd by lia. by apply bool_decide_eq_true in Hd.
  - by eapply accounted_ext; [..|exact Hacc].
  - lia.
  - pose proof (v_size s Hv) as Hs. rewrite Hls in Hs. unfold level_blocks in *. simpl in Hs. rewrite canonicalized_levels.
    unfold above. rewrite <- filter_concat. rewrite length_app in Hs.
    pose proof (sublist_length _ _ (filter_sublist (fun x => descends h (hash x)) (concat (map blocks ls)))). lia.
  - intros h' n' Hp. pose proof (can_pinned _ _ _ _ _ _ _ Hc) as Hpin. simpl in Hpin. rewrite Hpin in Hp.
    apply lookup_insert_Some in Hp as [[_ <-]|[_ Hp]]; [lia|by apply (v_pinned s Hv h')].
Qed.
End canonicalized.

(** ** [insert] *)

Lemma level_blocks_insert ls i l l' o :
  ls !! i = Some l -> blocks l' = blocks l ++ [o] -> level_blocks (<[i := l']> ls) ≡ₚ o :: level_blocks ls.
Proof.
  intros Hi Hb. unfold level_blocks. rewrite (insert_take_drop ls i l') by by eapply lookup_lt_Some.
  rewrite <- (take_drop_middle ls i l Hi) at 3. rewrite !map_app, !concat_app. cbn [map concat]. rewrite Hb.
  rewrite <- (app_assoc (blocks l)). cbn [app]. by rewrite <- !Permutation_middle.
Qed.

(** A block that may be added on level [i]. *)
Record addable s i l (o : block) : Prop := {
  add_level : levels s !! i = Some l;
  add_room : N.of_nat (length (blocks l)) < MAX_BLOCKS_PER_LEVEL;
  add_unknown : parents s !! hash o = None;
  add_number : number_of (hash o) = front s + N.of_nat i;
  add_index : journal_index o = available_index l;
  add_key : journal_key o = to_journal_key (number_of (hash o)) (journal_index o);
  add_root h n : i = 0%nat -> last_canonicalized s = Some (h, n) -> parent_of (hash o) = h;
  add_parent j l0 : i = S j -> levels s !! j = Some l0 -> parent_of (hash o) ∈ map hash (blocks l0);
  add_changes : inserted o = keys_of (hash o) /\ deleted o = cs_deleted (changes_of (hash o));
  add_real : real (hash o);
  add_blocks : N.of_nat (length (level_blocks (levels s))) < u32_MAX
}.

Definition with_block s i l' (o : block) vs : overlay :=
  set_values vs (set_parents (<[hash o := parent_of (hash o)]> (parents s)) (set_levels (<[i := l']> (levels s)) s)).

Lemma unknown_fresh s (o : block) : valid s -> parents s !! hash o = None ->
  hash o ∉ map hash (level_blocks (levels s)) /\ pinned_insertions s !! hash o = None.
Proof.
  intros Hv Hn. rewrite (acc_parents _ _ (v_accounted s Hv)) in Hn. destruct (decide _) as [|Hno]; [done|].
  split; [tauto|]. apply eq_None_not_Some. tauto.
Qed.

(** One more block, with its parent and its values. *)
Lemma accounted_cons bs s (o : block) vs :
  accounted bs s -> hash o ∉ map hash bs -> pinned_insertions s !! hash o = None ->
  inserted o = keys_of (hash o) /\ deleted o = cs_deleted (changes_of (hash o)) -> real (hash o) ->
  counted node (inserted o ++ block_keys bs ++ retained_keys s) vs ->
  N.of_nat (length (inserted o) + length (block_keys bs ++ retained_keys s)) <= u32_MAX ->
  accounted (o :: bs) (set_values vs (set_parents (<[hash o := parent_of (hash o)]> (parents s)) s)).
Proof.
  intros [Hnd Hc Hp Hf Hpin Hin Hreal Hk] Hnew Hnp Hch Hr Hcount Hbound.
  split; simpl; [by apply NoDup_cons| | | |done| | |].
  - unfold block_keys. simpl. by rewrite <- app_assoc.
  - intros h. destruct (decide (h = hash o)) as [->|Hne].
    + rewrite lookup_insert_eq, decide_True; [done|]. left. by left.
    + rewrite lookup_insert_ne, Hp by done. apply decide_ext. rewrite elem_of_cons. naive_solver.
  - intros x [->|Hx]%elem_of_cons; [done|by apply Hf].
  - intros x [->|Hx]%elem_of_cons; [done|by apply Hin].
  - intros h [x Hx]. apply lookup_insert_Some in Hx as [[<- _]|[_ Hx]]; [done|apply Hreal; by exists x].
  - unfold block_keys in *. simpl. rewrite <- app_assoc, length_app. done.
Qed.

Lemma with_block_accounted s i l l' o vs :
  valid s -> addable s i l o -> blocks l' = blocks l ++ [o] ->
  counted node (inserted o ++ block_keys (level_blocks (levels s)) ++ retained_keys s) vs ->
  N.of_nat (length (inserted o) + total_keys s) <= u32_MAX ->
  accounted (level_blocks (levels (with_block s i l' o vs))) (with_block s i l' o vs).
Proof.
  intros Hv Ha Hb Hcount Hbound. simpl. destruct (unknown_fresh s o Hv (add_unknown _ _ _ _ Ha)) as [Hnew Hnp].
  eapply accounted_perm; [apply (level_blocks_insert _ i l l' o (add_level _ _ _ _ Ha) Hb)|done|].
  eapply accounted_ext; [..|apply (accounted_cons _ s o vs); try done; [apply Hv|apply Ha..]]; done.
Qed.

Lemma with_block_valid s i l l' o vs :
  valid s -> addable s i l o -> level_ok (front s + N.of_nat i) l' -> blocks l' = blocks l ++ [o] ->
  accounted (level_blocks (levels (with_block s i l' o vs))) (with_block s i l' o vs) ->
  valid (with_block s i l' o vs).
Proof.
  intros Hv Ha Hl' Hb Hacc. pose proof (add_level _ _ _ _ Ha) as Hi.
  pose proof (lookup_lt_Some _ _ _ Hi) as Hlt.
  assert (forall j m, <[i := l']> (levels s) !! j = Some m ->
            (j = i /\ m = l') \/ (j <> i /\ levels s !! j = Some m)) as Hcase.
  { intros j m [(<- & <- & _)|[Hne Hj]]%list_lookup_insert_Some; auto. }
  assert (forall j m, levels s !! j = Some m -> exists m', <[i := l']> (levels s) !! j = Some m' /\
            forall x, x ∈ blocks m -> x ∈ blocks m') as Hgrow.
  { intros j m Hj. destruct (decide (j = i)) as [->|Hne].
    - exists l'. rewrite list_lookup_insert_eq by done. split; [done|]. rewrite Hb. intros x Hx.
      apply elem_of_app. left. congruence.
    - exists m. by rewrite list_lookup_insert_ne. }
  split; simpl.
  - intros j m [[-> ->]|[_ Hj]]%Hcase; [done|]. by apply (v_levels s Hv).
  - intros j m m' x Hj Hj' Hx.
    assert (exists m0, levels s !! j = Some m0 /\ parent_of (hash x) ∈ map hash (blocks m0)) as (m0 & Hm0 & Hp).
    { destruct (Hcase _ _ Hj') as [[Heq ->]|[Hne Hj2]].
      - rewrite Hb in Hx. destruct (lookup_lt_is_Some_2 (levels s) j ltac:(lia)) as [m0 Hm0]. exists m0. split; [done|].
        apply elem_of_app in Hx as [Hx|Hx%list_elem_of_singleton].
        + rewrite <- Heq in Hi. by apply (v_linked s Hv j m0 l).
        + subst x. by apply (add_parent _ _ _ _ Ha j).
      - destruct (lookup_lt_is_Some_2 (levels s) j) as [m0 Hm0]; [apply lookup_lt_Some in Hj2; lia|].
        exists m0. split; [done|]. by apply (v_linked s Hv j m0 m'). }
    destruct (Hgrow j m0 Hm0) as (m1 & Hm1 & Hsub).
    assert (m1 = m) as -> by congruence. apply list_elem_of_fmap in Hp as (y & -> & Hy).
    by apply list_elem_of_fmap_2, Hsub.
  - apply (v_last s Hv).
  - intros h n m x Hlast Hm Hx. destruct (Hcase _ _ Hm) as [[Heq ->]|[Hne Hj]]; [|by apply (v_root s Hv h n m)].
    rewrite Hb in Hx. apply elem_of_app in Hx as [Hx| ->%list_elem_of_singleton].
    + apply (v_root s Hv h n l); [done|congruence|done].
    + by apply (add_root _ _ _ _ Ha h n).
  - rewrite length_insert. apply (v_genesis s Hv).
  - done.
  - rewrite length_insert. apply (v_height s Hv).
  - rewrite (level_blocks_insert _ i l l' o Hi Hb). simpl. pose proof (add_blocks _ _ _ _ Ha). lia.
  - apply (v_pinned s Hv).
Qed.

Lemma add_block_ok {E E'} s i l o kvs :
  valid s -> addable s i l o -> inserted o = kvs.*1 -> coherent [] kvs ->
  N.of_nat (length kvs + total_keys s) <= u32_MAX ->
  exists l' vs, level_push (E := E) o l = Ok l' /\ blocks l' = blocks l ++ [o] /\
    insert_values (E := E') kvs (set_parents (<[hash o := parent_of (hash o)]> (parents s)) (set_levels (<[i := l']> (levels s)) s))
      = (with_block s i l' o vs, Ok tt) /\
    valid (with_block s i l' o vs).
Proof.
  intros Hv Ha Hins Hco Hbound. destruct (unknown_fresh s o Hv (add_unknown _ _ _ _ Ha)) as [Hnew _].
  pose proof (v_levels s Hv _ _ (add_level _ _ _ _ Ha)) as Hl.
  destruct (available_index_ok _ l Hl (add_room _ _ _ _ Ha)) as [Hidx Hfree].
  destruct (level_push_ok (E := E) _ l o Hl) as (l' & Hpush & Hb & Hl').
  { intros (x & Heq & Hx)%list_elem_of_fmap. apply Hnew. rewrite Heq. apply list_elem_of_fmap_2, elem_of_level_blocks.
    exists i, l. by split; [apply (add_level _ _ _ _ Ha)|]. }
  { by rewrite (add_index _ _ _ _ Ha). } { by rewrite (add_index _ _ _ _ Ha). }
  { by rewrite (add_key _ _ _ _ Ha), (add_number _ _ _ _ Ha). } { apply Ha. }
  destruct (insert_values_ok (E := E') kvs [] (block_keys (level_blocks (levels s)) ++ retained_keys s)
    (set_parents (<[hash o := parent_of (hash o)]> (parents s)) (set_levels (<[i := l']> (levels s)) s)))
    as (vs & Hrun & Hc).
  { apply (acc_count _ _ (v_accounted s Hv)). } { done. } { by intros k ?%elem_of_nil. } { done. }
  exists l', vs. split_and!; [done|done|done|]. eapply with_block_valid; [done|done|done|done|].
  eapply with_block_accounted; [done|done|done|by rewrite Hins|]. by rewrite Hins, length_fmap.
Qed.

(** What [insert] makes of the metadata before it adds the block: where the window starts when the
    block is the first, and the level the block goes to. *)
Inductive placed s (h : B) : overlay -> list (bytes * DBValue) -> Prop :=
| placed_first : last_canonicalized s = None -> levels s = [] -> 0 < number_of h ->
    placed s h (set_last_canonicalized (Some (parent_of h, number_of h - 1)) s)
      [(to_meta_key LAST_CANONICAL tt, encode (parent_of h, number_of h - 1))]
| placed_genesis : last_canonicalized s = None -> number_of h = 0 -> placed s h s []
| placed_root n : last_canonicalized s = Some (parent_of h, n) -> number_of h = n + 1 -> placed s h s []
| placed_child n p : last_canonicalized s = Some (p, n) -> n + 1 < number_of h ->
    number_of h <= n + 1 + N.of_nat (length (levels s)) -> is_Some (parents s !! parent_of h) ->
    pinned_insertions s !! parent_of h = None -> placed s h s [].

Lemma start_valid s h : valid s -> last_canonicalized s = None -> levels s = [] -> 0 < number_of h ->
  number_of h < u64_MAX -> valid (set_last_canonicalized (Some (parent_of h, number_of h - 1)) s).
Proof.
  intros [V1 V2 V3 V4 V5 V6 V7 V8 V9] Hlast Hls Hn Hmax. split; simpl; rewrite ?Hls in *; try done.
  - intros x n [= <- <-]. pose proof (number_parent h). lia.
  - by eapply accounted_ext; [..|exact V6].
  - unfold front. simpl. lia.
Qed.

Lemma check_position_ok s s1 h m : valid s -> number_of h < u64_MAX -> placed s h s1 m ->
  check_position (CE := CE) (number_of h) (parent_of h) (front s) s = (s1, Ok m) /\ valid s1 /\
  levels s1 = levels s /\ (levels s = [] \/ front s1 = front s) /\
  front s1 <= number_of h <= front s1 + N.of_nat (length (levels s)).
Proof.
  intros Hv Hmax Hp. unfold check_position. run_steps. pose proof (v_height s Hv) as Hh.
  destruct Hp as [Hlast Hls Hn|Hlast Hn|n Hlast Hn|n p Hlast Hn Hn' Hpar Hpin]; rewrite Hlast.
  - rewrite Hls. simpl. rewrite (proj2 (N.ltb_lt _ _)) by done. simpl.
    rewrite (bindM_lift _ _ _ (number_of h - 1)) by (apply sub_u64_eq; lia). run_steps.
    split_and!; [done|by apply start_valid|done|by left|..]; unfold front; simpl; lia.
  - assert (front s = 0) as Hf by (unfold front; by rewrite Hlast).
    rewrite Hn, andb_false_r. split_and!; first [done|by right|lia].
  - assert (front s = n + 1) as Hf by (unfold front; by rewrite Hlast). rewrite Hf, Hn, N.ltb_irrefl. cbn [or_else].
    rewrite (bindM_lift _ _ _ false).
    2:{ rewrite add_u64_eq by lia. cbn [bind]. f_equal. apply N.ltb_ge. lia. }
    rewrite N.eqb_refl, bool_decide_true by done. cbn [and_then].
    rewrite (bindM_lift _ _ _ true).
    2:{ rewrite sub_u64_eq by lia. cbn [bind]. f_equal. apply N.eqb_eq. lia. }
    split_and!; first [done|by right|lia].
  - assert (front s = n + 1) as Hf by (unfold front; by rewrite Hlast). rewrite Hf.
    rewrite (bindM_lift _ _ _ false).
    2:{ rewrite (proj2 (N.ltb_ge _ _)) by lia. cbn [or_else]. rewrite add_u64_eq by lia. cbn [bind]. f_equal. apply N.ltb_ge. lia. }
    rewrite (proj2 (N.eqb_neq _ _)) by lia. rewrite bool_decide_true by done.
    split_and!; first [done|by right|lia].
Qed.

Lemma push_level_blocks ls : level_blocks (ls ++ [new_level]) = level_blocks ls.
Proof. unfold level_blocks. rewrite map_app, concat_app. simpl. by rewrite app_nil_r. Qed.

Lemma push_level_valid s : valid s -> front s + N.of_nat (length (levels s)) < u64_MAX ->
  (last_canonicalized s = None -> levels s = []) -> valid (set_levels (levels s ++ [new_level]) s).
Proof.
  intros [V1 V2 V3 V4 V5 V6 V7 V8 V9] Hmax Hgen.
  assert (forall j m, (levels s ++ [new_level]) !! j = Some m -> levels s !! j = Some m \/ m = new_level) as Hcase.
  { intros j m [Hj|[_ Hj]]%lookup_app_Some; [by left|]. right. by apply list_lookup_singleton_Some in Hj as [_ <-]. }
  split; simpl; rewrite ?push_level_blocks; try done.
  - intros j m [Hj| ->]%Hcase; [by apply V1|apply new_level_ok].
  - intros j m m' x Hj Hj' Hx. destruct (Hcase _ _ Hj') as [Hj2| ->]; [|by apply elem_of_nil in Hx].
    apply lookup_app_Some in Hj as [Hj|[Hlen _]]; [by apply (V2 j m m')|]. apply lookup_lt_Some in Hj2. lia.
  - intros h n m x Hlast Hm Hx. destruct (Hcase _ _ Hm) as [Hm'| ->]; [|by apply elem_of_nil in Hx].
    by apply (V4 h n m).
  - intros Hl. by rewrite (Hgen Hl).
  - by eapply accounted_ext; [..|exact V6].
  - rewrite length_app. simpl. change (front (set_levels _ s)) with (front s). lia.
Qed.

Lemma level_for_ok {E} s number fr : valid s -> levels s = [] \/ fr = front s ->
  (last_canonicalized s = None -> number = 0) ->
  front s <= number <= front s + N.of_nat (length (levels s)) -> number < u64_MAX ->
  exists i l s', level_for (E := E) number fr s = (s', Ok (i, l)) /\ valid s' /\ levels s' !! i = Some l /\
    number = front s' + N.of_nat i /\ level_blocks (levels s') = level_blocks (levels s) /\
    (s' = s \/ s' = set_levels (levels s ++ [new_level]) s).
Proof.
  intros Hv Hfr Hgen Hn Hmax. unfold level_for. run_steps. pose proof (v_height s Hv) as Hh.
  rewrite (bindM_lift _ _ _ (bool_decide (number = front s + N.of_nat (length (levels s))))).
  2:{ destruct (N.eqb_spec (N.of_nat (length (levels s))) 0) as [H0'|H0']; simpl.
      - rewrite bool_decide_true by lia. done.
      - destruct Hfr as [Hls| ->]; [by rewrite Hls in H0'|]. rewrite add_u64_eq by lia. simpl. f_equal.
        apply eq_bool_prop_intro. by rewrite bool_decide_spec, Is_true_true, N.eqb_eq. }
  destruct (bool_decide_reflect (number = front s + N.of_nat (length (levels s)))) as [Heq|Hne]; cbn beta iota.
  - run_steps. eexists _, _, _. split; [done|].
    split_and!; [|by apply list_lookup_middle|done|apply push_level_blocks|by right].
    apply push_level_valid; [done|lia|]. intros Hl. specialize (Hgen Hl). apply length_zero_iff_nil. lia.
  - assert (levels s <> []) as Hne'. { intros Hls. rewrite Hls in Hn, Hne. simpl in *. lia. }
    destruct Hfr as [| ->]; [done|]. rewrite (bindM_lift _ _ _ (number - front s)) by (apply sub_u64_eq; lia).
    destruct (lookup_lt_is_Some_2 (levels s) (N.to_nat (number - front s))) as [l Hl]; [lia|].
    rewrite Hl. cbn [expect]. rewrite (bindM_lift _ _ _ l) by done. eexists _, _, _. split; [done|].
    split_and!; [done|done|lia|done|by left].
Qed.

(** The parent of a block that was placed is where it should be. *)
Lemma placed_parent s h s1 m i : valid s -> placed s h s1 m -> number_of h = front s1 + N.of_nat i ->
  (forall p n, i = 0%nat -> last_canonicalized s1 = Some (p, n) -> parent_of h = p) /\
  (forall j l, i = S j -> levels s !! j = Some l -> parent_of h ∈ map hash (blocks l)).
Proof.
  intros Hv Hp Hi. destruct Hp as [Hlast Hls Hn|Hlast Hn|n Hlast Hn|n p Hlast Hn Hn' Hpar Hpin];
    unfold front in Hi; simpl in *; rewrite ?Hlast in *.
  - split; [by intros p n _ [= <- _]|intros j l -> _; lia].
  - split; [done|intros j l ->; lia].
  - split; [by intros p n' _ [= <- _]|intros j l ->; lia].
  - split; [intros ? ? ->; lia|]. intros j l -> Hl.
    destruct Hpar as [x Hpar]. rewrite (acc_parents _ _ (v_accounted s Hv)) in Hpar.
    destruct (decide _) as [[(o & Heq & Ho)%list_elem_of_fmap|[? ?]]|]; [|congruence|done].
    apply elem_of_level_blocks in Ho as (j' & l' & Hj' & Ho).
    pose proof (level_number _ _ (v_levels s Hv j' l' Hj') o Ho) as Hno. unfold front in Hno. rewrite Hlast in Hno.
    pose proof (number_parent h ltac:(lia)) as Hnp. rewrite Heq, Hno in Hnp.
    assert (j' = j) as -> by lia. rewrite Heq. assert (l' = l) as -> by congruence. by apply list_elem_of_fmap_2.
Qed.

Definition new_block (h : B) (l : level) : block :=
  mkBlockOverlay h (available_index l) (to_journal_key (number_of h) (available_index l))
    (keys_of h) (cs_deleted (changes_of h)).

Definition record_of (h : B) : JournalRecord B K :=
  mkJournalRecord h (parent_of h) (cs_inserted (changes_of h)) (cs_deleted (changes_of h)).

Definition insert_commit (m : list (bytes * DBValue)) (h : B) (l : level) : CommitSet K :=
  mkCommitSet no_changes (mkChangeSet (m ++ [(journal_key (new_block h l), encode (record_of h))]) []).

(** What the caller of [insert] sees to: the changes are coherent and the counters have room. *)
Record insertable s (h : B) : Prop := {
  ins_number : number_of h < u64_MAX;
  ins_real : real h;
  ins_coherent : coherent [] (cs_inserted (changes_of h));
  ins_keys : N.of_nat (length (cs_inserted (changes_of h)) + total_keys s) <= u32_MAX;
  ins_blocks : N.of_nat (length (level_blocks (levels s))) < u32_MAX
}.

(** [s1] once the level of the block is there. *)
Definition with_level s s1 s2 : Prop := s2 = s1 \/ s2 = set_levels (levels s ++ [new_level]) s1.

Lemma with_level_fields s h s1 m s2 : placed s h s1 m -> with_level s s1 s2 ->
  parents s2 = parents s /\ front s2 = front s1 /\ last_canonicalized s2 = last_canonicalized s1 /\
  retained_keys s2 = retained_keys s /\ level_blocks (levels s2) = level_blocks (levels s).
Proof.
  intros Hp Hs2. assert (levels s1 = levels s) as Hl1 by by destruct Hp.
  split_and!; try (by destruct Hs2 as [->| ->], Hp).
  destruct Hs2 as [->| ->]; [by rewrite Hl1|apply push_level_blocks].
Qed.

Lemma new_block_addable s h s1 m i l s2 :
  valid s -> real h -> placed s h s1 m -> parents s !! h = None -> with_level s s1 s2 ->
  levels s2 !! i = Some l -> number_of h = front s1 + N.of_nat i -> N.of_nat (length (blocks l)) < MAX_BLOCKS_PER_LEVEL ->
  N.of_nat (length (level_blocks (levels s))) < u32_MAX -> addable s2 i l (new_block h l).
Proof.
  intros Hv Hreal Hp Hnew Hs2 Hl Hi Hroom Hblocks.
  destruct (with_level_fields _ _ _ _ _ Hp Hs2) as (Hpar2 & Hf2 & Hlast2 & _ & Hlb2).
  destruct (placed_parent s h s1 m i Hv Hp Hi) as [Hroot Hchild].
  split; simpl; try done; try congruence.
  - intros p n Hz Hlast. apply (Hroot p n Hz). congruence.
  - intros j l0 Hj Hl0. apply (Hchild j l0 Hj). assert (levels s1 = levels s) as Hl1 by by destruct Hp.
    destruct Hs2 as [->| ->]; simpl in *; [congruence|]. apply lookup_app_Some in Hl0 as [|[Hlen _]]; [done|].
    apply lookup_lt_Some in Hl. rewrite length_app in Hl. simpl in Hl. lia.
Qed.

Lemma nc_insert_ok s h s1 m : valid s -> insertable s h -> placed s h s1 m -> parents s !! h = None ->
  (forall l, levels s !! N.to_nat (number_of h - front s1) = Some l -> N.of_nat (length (blocks l)) < MAX_BLOCKS_PER_LEVEL) ->
  exists i l l' s2 vs, nc_insert (CE := CE) h (number_of h) (parent_of h) (changes_of h) s =
      (with_block s2 i l' (new_block h l) vs, Ok (insert_commit m h l)) /\
    with_level s s1 s2 /\ levels s2 !! i = Some l /\ number_of h = front s1 + N.of_nat i /\
    blocks l' = blocks l ++ [new_block h l] /\ valid (with_block s2 i l' (new_block h l) vs).
Proof.
  intros Hv [Hmax Hreal Hco Hkeys Hblocks] Hp Hnew Hroom.
  destruct (check_position_ok s s1 h m Hv Hmax Hp) as (Hcheck & Hv1 & Hl1 & Hfr & Hn). rewrite <- Hl1 in Hfr, Hn.
  assert (last_canonicalized s1 = None -> number_of h = 0) as Hgen by (destruct Hp; simpl; congruence).
  destruct (level_for_ok (E := StateDbError CE) s1 (number_of h) (front s) Hv1 ltac:(naive_solver) Hgen Hn Hmax)
    as (i & l & s2 & Hfor & Hv2 & Hl & Hi & _ & Hs2). rewrite Hl1 in Hs2. change (with_level s s1 s2) in Hs2.
  destruct (with_level_fields _ _ _ _ _ Hp Hs2) as (Hpar2 & Hf2 & Hlast2 & Hret2 & Hlb2). rewrite Hf2 in Hi.
  assert (N.of_nat (length (blocks l)) < MAX_BLOCKS_PER_LEVEL) as Hlen.
  { destruct Hs2 as [->| ->].
    - apply Hroom. rewrite <- Hl1, Hi, <- Hl. f_equal. lia.
    - simpl in Hl. apply lookup_app_Some in Hl as [Hl|[_ [_ <-]%list_lookup_singleton_Some]]; [|done].
      apply Hroom. rewrite <- Hl. f_equal. lia. }
  pose proof (new_block_addable s h s1 m i l s2 Hv Hreal Hp Hnew Hs2 Hl Hi Hlen Hblocks) as Hadd.
  destruct (add_block_ok (E := StateDbError CE) (E' := StateDbError CE) s2 i l (new_block h l) (cs_inserted (changes_of h)) Hv2 Hadd eq_refl Hco)
    as (l' & vs & Hpush & Hb & Hrun & Hv'). { unfold total_keys in *. by rewrite Hlb2, Hret2. }
  exists i, l, l', s2, vs. split_and!; try done. unfold nc_insert. run_steps.
  rewrite (bindM_lift _ _ _ (front s)) by (apply front_block_number_ok; pose proof (v_height s Hv); lia).
  step_with Hcheck. step_with Hfor. cbv iota beta.
  rewrite (proj2 (N.leb_gt _ _)) by done.
  rewrite (proj2 (existsb_false _ _)).
  2:{ intros x Hx. apply bool_decide_eq_false. intros Heq.
      destruct (unknown_fresh s2 x Hv2) as [Hno _]; [congruence|]. apply Hno, list_elem_of_fmap_2, elem_of_level_blocks. by exists i, l. }
  fold (new_block h l). step_with Hpush. run_steps. simpl in Hrun. step_with Hrun. done.
Qed.

(** ** [revert_one] and [remove] *)

Lemma drop_blocks_ok {E} (bs rest : list block) s : accounted (bs ++ rest) s ->
  exists s', for_each (drop_block (E := E)) bs s = (s', Ok tt) /\ accounted rest s' /\ frame s s' /\
    pinned_insertions s' = pinned_insertions s.
Proof.
  revert s. induction bs as [|o bs IH]; intros s Ha; [by exists s|].
  destruct (drop_block_ok (E := E) o _ s Ha) as (s1 & Hrun & Ha1 & Hf1 & Hp1).
  destruct (IH s1 Ha1) as (s2 & Hrun2 & Ha2 & Hf2 & Hp2).
  exists s2. cbn [for_each]. step_with Hrun. split_and!; [done|done|by etrans|congruence].
Qed.

(** Levels that lose blocks, from the top. *)
Lemma shrink_valid s s' ls :
  valid s -> last_canonicalized s' = last_canonicalized s -> pinned s' = pinned s -> levels s' = ls ->
  accounted (level_blocks ls) s' -> levels_ok (front s) ls -> linked ls -> (length ls <= length (levels s))%nat ->
  (length (level_blocks ls) <= length (level_blocks (levels s)))%nat ->
  (forall l o, ls !! 0%nat = Some l -> o ∈ blocks l -> exists l0, levels s !! 0%nat = Some l0 /\ o ∈ blocks l0) ->
  valid s'.
Proof.
  intros [V1 V2 V3 V4 V5 V6 V7 V8 V9] Hlast Hpin <- Hacc Hok Hlink Hlen Hblocks Hroot.
  assert (front s' = front s) as Hf by (unfold front; by rewrite Hlast).
  split; rewrite ?Hf, ?Hlast, ?Hpin; try done; try lia.
  - intros h n l o Hl Hl0 Ho. destruct (Hroot l o Hl0 Ho) as (l0 & Hl1 & Ho'). by apply (V4 h n l0).
  - intros Hl. specialize (V5 Hl). lia.
Qed.

Lemma take_levels_ok n ls k : levels_ok n ls -> linked ls -> levels_ok n (take k ls) /\ linked (take k ls).
Proof.
  intros Hok Hlink. split.
  - intros i l [Hi _]%lookup_take_Some. by apply Hok.
  - intros i l l' o [Hi _]%lookup_take_Some [Hi' _]%lookup_take_Some. by apply (Hlink i).
Qed.

Lemma nc_revert_one_ok {E} s l : valid s -> last (levels s) = Some l ->
  exists s', nc_revert_one (E := E) s =
      (s', Ok (Some (mkCommitSet no_changes (mkChangeSet [] (map journal_key (blocks l)))))) /\
    levels s' = take (length (levels s) - 1) (levels s) /\ valid s' /\
    last_canonicalized s' = last_canonicalized s /\ pinned s' = pinned s /\
    pinned_insertions s' = pinned_insertions s /\ pinned_canonincalized s' = pinned_canonincalized s.
Proof.
  intros Hv Hl. unfold nc_revert_one. run_steps. rewrite Hl. run_steps.
  apply last_Some in Hl as (ls & Hls). rewrite Hls. replace (take _ _) with ls.
  2:{ rewrite length_app. simpl. by rewrite Nat.add_sub, take_app_length. }
  assert (accounted (blocks l ++ level_blocks ls) (set_levels ls s)) as Hacc.
  { apply (accounted_ext _ s); [done..|]. eapply accounted_perm; [|done|exact (v_accounted s Hv)]. rewrite Hls.
    unfold level_blocks. rewrite map_app, concat_app. simpl. rewrite app_nil_r. apply Permutation_app_comm. }
  destruct (drop_blocks_ok (E := E) _ _ _ Hacc) as (s' & Hrun & Hacc' & (F1 & F2 & F3 & F4) & Hpi). simpl in F1, F2, F3, F4, Hpi.
  step_with Hrun. exists s'. split_and!; try done.
  destruct (take_levels_ok (front s) (levels s) (length ls) (v_levels s Hv) (v_linked s Hv)) as [Hok Hlink].
  rewrite Hls, take_app_length in Hok, Hlink.
  eapply (shrink_valid s s' ls); try done; try congruence; rewrite Hls.
  - rewrite length_app. lia.
  - unfold level_blocks. rewrite map_app, concat_app, length_app. lia.
  - intros l0 o Hl0 Ho. exists l0. split; [|done]. by apply lookup_app_l_Some.
Qed.

Lemma find_block_ok {E} h s :
  (exists i p l o, find_block (E := E) h s = Ok (Some (i, p)) /\ levels s !! i = Some l /\ blocks l !! p = Some o /\ hash o = h) \/
  (find_block (E := E) h s = Ok None /\ h ∉ map hash (level_blocks (levels s))).
Proof.
  unfold find_block. set (step := fun found i => _).
  assert (forall xs x, foldl step (Ok (E := E) (Some x)) xs = Ok (Some x)) as Hsome by (induction xs; [done|]; intros; simpl; auto).
  assert (forall xs, (forall i, i ∈ xs -> (i < length (levels s))%nat) ->
    (exists i p l o, foldl step (Ok (E := E) None) xs = Ok (Some (i, p)) /\ levels s !! i = Some l /\ blocks l !! p = Some o /\ hash o = h) \/
    (foldl step (Ok (E := E) None) xs = Ok None /\ forall i l, i ∈ xs -> levels s !! i = Some l -> h ∉ map hash (blocks l))) as Hgo.
  { induction xs as [|i xs IH]; intros Hin; [right; split; [done|by intros i l ?%elem_of_nil]|].
    destruct (lookup_lt_is_Some_2 (levels s) i) as [l Hl]; [apply Hin; by left|].
    assert (step (Ok None) i = let! p := position (fun o => Ok (bool_decide (hash o = h))) (blocks l) in Ok (pair i <$> p)) as Hstep
      by (unfold step; cbn [bind]; by rewrite Hl).
    cbn [foldl]. rewrite Hstep.
    destruct (position_ok (E := E) (fun o => Ok (bool_decide (hash o = h))) (fun o => bool_decide (hash o = h)) (blocks l))
      as [(p & o & -> & Hp & Ho)|[-> Hnone]]; [done| |]; cbn [bind fmap option_fmap option_map].
    - left. exists i, p, l, o. apply bool_decide_eq_true in Ho. by rewrite Hsome.
    - destruct IH as [Hfound|[-> Hnot]]; [intros; apply Hin; by right|by left|]. right. split; [done|].
      intros j l' [->|Hj]%elem_of_cons Hl'; [|by apply (Hnot j)].
      intros (o & -> & Ho)%list_elem_of_fmap. specialize (Hnone o ltac:(congruence)). by apply bool_decide_eq_false in Hnone. }
  destruct (Hgo (rev (seq 0 (length (levels s))))) as [Hfound|[Hnone Hnot]].
  - intros i. rewrite elem_of_rev, elem_of_seq. lia.
  - by left.
  - right. split; [done|]. intros (o & -> & (i & l & Hi & Ho)%elem_of_level_blocks)%list_elem_of_fmap.
    apply (Hnot i l); [|done|by apply list_elem_of_fmap_2]. rewrite elem_of_rev, elem_of_seq.
    apply lookup_lt_Some in Hi. lia.
Qed.

(** The overlay without the last level, if that is empty. *)
Definition popped_back s : overlay :=
  match last (levels s) with
  | Some l => match blocks l with
              | [] => set_levels (take (length (levels s) - 1) (levels s)) s
              | _ => s
              end
  | None => s
  end.

Lemma popped_back_ok s : valid s -> valid (popped_back s) /\
  level_blocks (levels (popped_back s)) = level_blocks (levels s) /\
  (forall i l, levels (popped_back s) !! i = Some l -> levels s !! i = Some l) /\
  last_canonicalized (popped_back s) = last_canonicalized s /\ pinned (popped_back s) = pinned s /\
  pinned_insertions (popped_back s) = pinned_insertions s /\
  pinned_canonincalized (popped_back s) = pinned_canonincalized s.
Proof.
  intros Hv. unfold popped_back. destruct (last (levels s)) as [l|] eqn:Hl; [|done].
  destruct (blocks l) eqn:Hb; [|done]. apply last_Some in Hl as (ls & Hls).
  assert (take (length (levels s) - 1) (levels s) = ls) as Htake.
  { rewrite Hls, length_app. simpl. by rewrite Nat.add_sub, take_app_length. }
  assert (level_blocks ls = level_blocks (levels s)) as Hlb.
  { rewrite Hls. unfold level_blocks. rewrite map_app, concat_app. simpl. by rewrite Hb, !app_nil_r. }
  rewrite Htake. assert (forall i l', ls !! i = Some l' -> levels s !! i = Some l') as Hsub.
  { intros i l' Hi. rewrite Hls. by apply lookup_app_l_Some. }
  split; [|done].
  destruct (take_levels_ok (front s) (levels s) (length (levels s) - 1) (v_levels s Hv) (v_linked s Hv)) as [Hok Hlink].
  rewrite Htake in Hok, Hlink.
  eapply (shrink_valid s _ ls); try done.
  - rewrite Hlb. apply (accounted_ext _ s); [done..|apply Hv].
  - rewrite Hls, length_app. lia.
  - by rewrite Hlb.
  - intros l0 o Hl0 Ho. exists l0. split; [by apply Hsub|done].
Qed.

Lemma level_blocks_delete ls i l l' p o :
  ls !! i = Some l -> blocks l !! p = Some o -> blocks l' = delete p (blocks l) ->
  level_blocks ls ≡ₚ o :: level_blocks (<[i := l']> ls).
Proof.
  intros Hi Hp Hb. unfold level_blocks. rewrite (insert_take_drop ls i l') by by eapply lookup_lt_Some.
  rewrite <- (take_drop_middle ls i l Hi) at 1. rewrite !map_app, !concat_app. cbn [map concat]. rewrite Hb.
  pose proof (delete_Permutation _ _ _ Hp) as Hperm.
  rewrite Permutation_middle. apply Permutation_app_head. by apply (Permutation_app_tail _ Hperm).
Qed.

(** A block that has no child in the window can be taken away. *)
Lemma drop_block_valid {E} s i l l' p o :
  valid s -> levels s !! i = Some l -> blocks l !! p = Some o -> level_ok (front s + N.of_nat i) l' ->
  blocks l' = delete p (blocks l) ->
  (forall l1 x, levels s !! S i = Some l1 -> x ∈ blocks l1 -> parent_of (hash x) <> hash o) ->
  exists s', drop_block (E := E) o (set_levels (<[i := l']> (levels s)) s) = (s', Ok tt) /\ valid s' /\
    levels s' = <[i := l']> (levels s) /\ last_canonicalized s' = last_canonicalized s /\ pinned s' = pinned s /\
    pinned_insertions s' = pinned_insertions s /\ pinned_canonincalized s' = pinned_canonincalized s.
Proof.
  intros Hv Hi Hp Hl' Hb Hchild. pose proof (level_blocks_delete _ i l l' p o Hi Hp Hb) as Hperm.
  assert (accounted (o :: level_blocks (<[i := l']> (levels s))) (set_levels (<[i := l']> (levels s)) s)) as Hacc.
  { apply (accounted_ext _ s); [done..|]. eapply accounted_perm; [|done|exact (v_accounted s Hv)]. by symmetry. }
  destruct (drop_block_ok (E := E) o _ _ Hacc) as (s' & Hrun & Hacc' & (F1 & F2 & F3 & F4) & Hpi).
  simpl in F1, F2, F3, F4, Hpi. exists s'. split_and!; try done.
  assert (forall j m, <[i := l']> (levels s) !! j = Some m -> exists m0, levels s !! j = Some m0 /\
    (forall x, x ∈ blocks m -> x ∈ blocks m0) /\ (forall x, x ∈ blocks m0 -> j = i /\ x = o \/ x ∈ blocks m)) as Hcase.
  { intros j m [(<- & <- & _)|[Hne Hj]]%list_lookup_insert_Some; [|exists m; naive_solver].
    exists l. split; [done|]. rewrite Hb. split; [intros x; apply list_elem_of_delete_inv|].
    intros x Hx. pose proof (delete_Permutation _ _ _ Hp) as Hd. rewrite Hd in Hx. apply elem_of_cons in Hx as [->|Hx]; auto. }
  eapply (shrink_valid s s' _ Hv); [done|done|exact F2|done| | |by rewrite length_insert| |].
  - intros j m [(<- & <- & _)|[Hne Hj]]%list_lookup_insert_Some; [done|by apply (v_levels s Hv)].
  - intros j m m' x Hj Hj' Hx. destruct (Hcase j m Hj) as (m0 & Hm0 & _ & Hback), (Hcase (S j) m' Hj') as (m0' & Hm0' & Hsub' & _).
    pose proof (v_linked s Hv j m0 m0' x Hm0 Hm0' (Hsub' x Hx)) as (y & Hy & Hin)%list_elem_of_fmap.
    rewrite Hy. apply list_elem_of_fmap_2. destruct (Hback y Hin) as [[-> ->]|]; [|done].
    by destruct (Hchild m0' x Hm0' (Hsub' x Hx)).
  - rewrite Hperm. simpl. lia.
  - intros m x Hm Hx. destruct (Hcase 0%nat m Hm) as (m0 & Hm0 & Hsub & _). exists m0. auto.
Qed.

Definition removal_commit (o : block) : CommitSet K := mkCommitSet no_changes (mkChangeSet [] [journal_key o]).

Lemma nc_remove_ok {E} h s : valid s ->
  (h ∉ map hash (level_blocks (levels s)) /\ nc_remove (E := E) h s = (popped_back s, Ok None)) \/
  (h ∈ map hash (level_blocks (levels s)) /\ (exists c, parents s !! c = Some h) /\ nc_remove (E := E) h s = (s, Ok None)) \/
  (exists i l l' p o s1, levels s !! i = Some l /\ blocks l !! p = Some o /\ hash o = h /\
     blocks l' = delete p (blocks l) /\ level_ok (front s + N.of_nat i) l' /\
     nc_remove (E := E) h s = (popped_back s1, Ok (Some (removal_commit o))) /\ valid s1 /\
     levels s1 = <[i := l']> (levels s) /\ last_canonicalized s1 = last_canonicalized s /\ pinned s1 = pinned s /\
     pinned_insertions s1 = pinned_insertions s /\ pinned_canonincalized s1 = pinned_canonincalized s).
Proof.
  intros Hv. unfold nc_remove. run_steps.
  destruct (find_block_ok (E := E) h s) as [(i & p & l & o & Hfind & Hi & Hp & Ho)|[Hfind Hnot]].
  2:{ left. split; [done|]. step_with Hfind. done. }
  right. step_with Hfind. cbv iota beta. pose proof (lookup_lt_Some _ _ _ Hi) as Hlt.
  rewrite (bindM_lift _ _ _ (length (levels s) - 1)%nat) by (apply sub_usize_eq; lia).
  set (children := existsb _ _).
  assert (children = true <-> exists c, parents s !! c = Some h) as Hch.
  { unfold children. rewrite existsb_true. split.
    - intros ([c x] & Hin%elem_of_map_to_list & Hx%bool_decide_eq_true). exists c. simpl in Hx. congruence.
    - intros (c & Hc). exists (c, h). split; [by apply elem_of_map_to_list|by apply bool_decide_eq_true]. }
  destruct (negb (Nat.eqb i (length (levels s) - 1)) && children) eqn:Hguard.
  { left. apply andb_true_iff in Hguard as [_ Hc]. split_and!; [|by apply Hch|done]. rewrite <- Ho.
    apply list_elem_of_fmap_2, elem_of_level_blocks. exists i, l. split; [done|]. by eapply list_elem_of_lookup_2. }
  right. rewrite (bindM_lift _ _ _ l) by by rewrite Hi.
  destruct (level_remove_ok (E := E) _ l p o (v_levels s Hv i l Hi) Hp) as (l' & Hrem & Hb & Hl').
  step_with Hrem. cbv iota beta. run_steps.
  destruct (drop_block_valid (E := E) s i l l' p o Hv Hi Hp Hl' Hb) as (s1 & Hrun & Hv1 & Hls & Hrest).
  { intros l1 x Hl1 Hx Heq. apply andb_false_iff in Hguard as [Hlast|Hc].
    - apply negb_false_iff, Nat.eqb_eq in Hlast. apply lookup_lt_Some in Hl1. lia.
    - apply not_true_iff_false in Hc. apply Hc, Hch. exists (hash x).
      rewrite (acc_head_parent _ _ x (v_accounted s Hv)); [congruence|]. apply elem_of_level_blocks. by exists (S i), l1. }
  step_with Hrun. exists i, l, l', p, o, s1. split_and!; try done; apply Hrest.
Qed.
End spec.
