(* ===== verification/NonCanonicalPins.v ===== *)
(** * The non-canonical overlay: pinned blocks

    A block that is discarded while it is pinned, or while a block above it is, stays in
    memory. Its count is the number of pinned blocks that need it, and [unpin] walks down
    the ancestors of a block to lower their counts. *)

From stdpp Require Import strings.
From S2P Require Import Prelude StateDbTypes NonCanonical NonCanonicalCount NonCanonicalDiscard NonCanonicalOps.

#[local] Open Scope N_scope.

Section spec.
Context {P : Profile} {B K CE : Type} `{Countable B, Countable K} {chain : Chain B K}.
Context {enc_unit : Encode unit} {enc_key : Encode (N * N)} {enc_canonical : Encode (B * N)}
        {enc_record : Encode (JournalRecord B K)}.

Notation overlay := (NonCanonicalOverlay B K).
Notation level := (OverlayLevel B K).
Notation block := (BlockOverlay B K).
Implicit Types s : overlay.
Implicit Types ls rest : list level.
Implicit Types T : B -> Prop.

(** The last canonical block and its ancestors. *)
Definition canonical s (h : B) : bool :=
  match last_canonicalized s with Some (c, _) => descends h c | None => false end.

Lemma canonical_below s h a : canonical s h = true -> descends a h = true -> canonical s a = true.
Proof. unfold canonical. destruct (last_canonicalized s) as [[c n]|]; [|done]. intros. by eapply descends_trans. Qed.

(** The retained blocks above [h] that are pinned. *)
Definition retained_pinned s (h : B) : gset B :=
  filter (fun x => is_Some (pinned s !! x) /\ descends h x = true) (dom (pinned_insertions s)).
Definition npinned s (h : B) : N := N.of_nat (size (retained_pinned s h)).

(** One for the blocks that the walk from [cur] is still to reach. *)
Definition pending (cur : option B) s (h : B) : N :=
  match cur with
  | Some a => if decide (is_Some (pinned_insertions s !! a) /\ descends h a = true) then 1 else 0
  | None => 0
  end.

(** The counts of the retained blocks, while a walk is at [cur]; and that the pinned blocks of [T]
    are there. *)
Record pins_ok (T : B -> Prop) (cur : option B) s : Prop := {
  pins_valid : valid s;
  pins_count h ks n : pinned_insertions s !! h = Some (ks, n) -> canonical s h = false ->
    n = npinned s h + pending cur s h;
  pins_closed h : is_Some (pinned_insertions s !! h) -> canonical s h = false -> number_of h <> 0 ->
    is_Some (pinned_insertions s !! parent_of h) \/ canonical s (parent_of h) = true;
  pins_known h : T h -> is_Some (pinned s !! h) ->
    canonical s h = true \/ h ∈ map hash (level_blocks (levels s)) \/ is_Some (pinned_insertions s !! h)
}.

Lemma npinned_pos s h x : is_Some (pinned_insertions s !! x) -> is_Some (pinned s !! x) -> descends h x = true ->
  0 < npinned s h.
Proof.
  intros Hp Hx Hd. unfold npinned. assert (x ∈ retained_pinned s h) as Hin.
  { apply elem_of_filter. by rewrite elem_of_dom. }
  assert (size (retained_pinned s h) <> 0%nat) as Hne; [|lia].
  intros Hz%size_empty_inv. set_solver.
Qed.

Lemma npinned_inv s h : 0 < npinned s h -> exists x, is_Some (pinned_insertions s !! x) /\ is_Some (pinned s !! x) /\ descends h x = true.
Proof.
  unfold npinned. intros Hpos. destruct (size_pos_elem_of (retained_pinned s h)) as [x Hx]; [lia|].
  apply elem_of_filter in Hx as [[Hp Hd] Hx]. exists x. by rewrite <- elem_of_dom.
Qed.

(** The counts depend on which blocks are pinned and retained. *)
Lemma npinned_ext s s' h :
  (forall x, descends h x = true -> is_Some (pinned s !! x) /\ is_Some (pinned_insertions s !! x) <->
     is_Some (pinned s' !! x) /\ is_Some (pinned_insertions s' !! x)) -> npinned s' h = npinned s h.
Proof.
  intros Hext. unfold npinned. do 2 f_equal. apply set_eq. intros x. unfold retained_pinned.
  rewrite !elem_of_filter, !elem_of_dom. specialize (Hext x). naive_solver.
Qed.

(** ** One step of the walk *)

Lemma valid_accounted s s' :
  valid s -> last_canonicalized s' = last_canonicalized s -> levels s' = levels s ->
  (forall h n, pinned s' !! h = Some n -> 0 < n) -> accounted (level_blocks (levels s)) s' -> valid s'.
Proof.
  intros [V1 V2 V3 V4 V5 V6 V7 V8 V9] Hlast Hls Hpin Hacc. assert (front s' = front s) as Hf by (unfold front; by rewrite Hlast).
  split; rewrite ?Hf, ?Hlast, ?Hls; done.
Qed.

Definition pins_total (m : gmap B (list K * N)) : N := map_fold (fun _ x acc => snd x + acc) 0 m.

Lemma pins_total_delete m h ks n : m !! h = Some (ks, n) -> pins_total m = n + pins_total (delete h m).
Proof.
  intros Hm. unfold pins_total. rewrite (map_fold_delete_L _ _ h (ks, n) m); [done| |done].
  intros j1 j2 z1 z2 y _ _ _. lia.
Qed.

Lemma pins_total_insert m h ks n : pins_total (<[h := (ks, n)]> m) = n + pins_total (delete h m).
Proof. rewrite (pins_total_delete _ h ks n) by apply lookup_insert_eq. by rewrite delete_insert_eq. Qed.

Lemma retained_keys_delete s h ks n : pinned_insertions s !! h = Some (ks, n) ->
  retained_keys s ≡ₚ ks ++ retained_keys (set_pinned_insertions (delete h (pinned_insertions s)) s).
Proof. intros Hh. unfold retained_keys. simpl. by rewrite <- (map_to_list_delete _ h (ks, n) Hh). Qed.

(** A retained block with more than one pin left. *)
Lemma lower_count bs s h ks n n' : accounted bs s -> pinned_insertions s !! h = Some (ks, n) -> 0 < n' ->
  accounted bs (set_pinned_insertions (<[h := (ks, n')]> (pinned_insertions s)) s).
Proof.
  intros [A1 A2 A3 A4 A5 A6 A7 A8] Hh Hn.
  assert (retained_keys s ≡ₚ retained_keys (set_pinned_insertions (<[h := (ks, n')]> (pinned_insertions s)) s)) as Hk.
  { pose proof (retained_keys_delete (set_pinned_insertions (<[h := (ks, n')]> (pinned_insertions s)) s) h ks n'
      (lookup_insert_eq _ _ _)) as Hk'. rewrite (retained_keys_delete s h ks n Hh), Hk'.
    unfold retained_keys. simpl. by rewrite delete_insert_eq. }
  split; simpl; [done|by rewrite <- Hk| | | |done|done|by rewrite <- Hk].
  - intros x. rewrite A3. apply decide_ext. destruct (decide (x = h)) as [->|]; [rewrite lookup_insert_eq, Hh|by rewrite lookup_insert_ne].
    split; (intros [|]; [by left|right; by eexists]).
  - intros o Ho. rewrite lookup_insert_ne; [by apply A4|]. intros ->. by rewrite (A4 o Ho) in Hh.
  - intros x ks' m Hx. apply lookup_insert_Some in Hx as [[<- [= <- <-]]|[_ Hx]]; [|by eapply A5]. split; [done|]. by apply (A5 h ks n).
Qed.

(** The last pin of a retained block. *)
Lemma release_block {E} bs s h ks n : accounted bs s -> pinned_insertions s !! h = Some (ks, n) ->
  exists vs, discard_values (E := E) ks (set_pinned_insertions (delete h (pinned_insertions s)) s) =
      (set_values vs (set_pinned_insertions (delete h (pinned_insertions s)) s), Ok tt) /\
    accounted bs (set_parents (delete h (parents s))
      (set_values vs (set_pinned_insertions (delete h (pinned_insertions s)) s))).
Proof.
  intros [A1 A2 A3 A4 A5 A6 A7 A8] Hh. set (s1 := set_pinned_insertions (delete h (pinned_insertions s)) s).
  assert (block_keys bs ++ retained_keys s ≡ₚ ks ++ block_keys bs ++ retained_keys s1) as Hk.
  { rewrite (retained_keys_delete s h ks n Hh). apply Permutation_app_swap_app. }
  destruct (discard_values_ok (E := E) ks (block_keys bs ++ retained_keys s1) s1) as (vs & Hrun & Hc).
  { by rewrite <- Hk. }
  exists vs. split; [done|]. split; simpl; [done|done| | | |done| |].
  - intros x. destruct (decide (x = h)) as [->|Hne].
    + rewrite !lookup_delete_eq, decide_False; [done|]. intros [(o & -> & Ho)%list_elem_of_fmap|[? ?]]; [|done].
      by rewrite (A4 o Ho) in Hh.
    + by rewrite !lookup_delete_ne, A3.
  - intros o Ho. rewrite lookup_delete_ne; [by apply A4|]. intros ->. by rewrite (A4 o Ho) in Hh.
  - intros x ks' m [_ Hx]%lookup_delete_Some. by eapply A5.
  - intros x [y [_ Hy]%lookup_delete_Some]. apply A7. by exists y.
  - rewrite Hk, length_app in A8. change (retained_keys (set_parents _ _)) with (retained_keys s1). lia.
Qed.

Section walk.
Context {T : B -> Prop} {a : B} {s s' : overlay} {ks : list K} {n : N}.
Context (Hok : pins_ok T (Some a) s) (Ha : pinned_insertions s !! a = Some (ks, n)).
Context (Hlast : last_canonicalized s' = last_canonicalized s) (Hls : levels s' = levels s) (Hpin : pinned s' = pinned s).
Context (Hsame : forall x, x <> a -> pinned_insertions s' !! x = pinned_insertions s !! x)
        (Hat : pinned_insertions s' !! a = if decide (n = 1) then None else Some (ks, n - 1)).

Lemma walk_canonical h : canonical s' h = canonical s h.
Proof. unfold canonical. by rewrite Hlast. Qed.

Lemma walk_count : canonical s a = false -> n = npinned s a + 1.
Proof.
  intros Hc. rewrite (pins_count _ _ _ Hok a ks n Ha Hc). unfold pending. rewrite decide_True; [done|].
  split; [by eexists|apply descends_refl].
Qed.

(** The parent of a retained genesis block is not retained. *)
Lemma walk_genesis : number_of a = 0 -> pinned_insertions s !! parent_of a = None.
Proof.
  intros Hz. pose proof (v_accounted s (pins_valid _ _ _ Hok)) as Hacc. apply eq_None_not_Some. intros Hp.
  apply (acc_real _ _ Hacc (parent_of a)) with (g := a); [|done|done].
  rewrite (acc_parents _ _ Hacc), decide_True; [by eexists|by right].
Qed.

Lemma walk_npinned h : canonical s h = false -> npinned s' h = npinned s h.
Proof.
  intros Hc. apply npinned_ext. intros x Hd. rewrite Hpin. destruct (decide (x = a)) as [->|Hne]; [|by rewrite Hsame].
  rewrite Hat, Ha. destruct (decide (n = 1)) as [Hn1|]; [|split; (intros [? ?]; split; [done|by eexists])].
  split; [|by intros [_ [? ?]]]. intros [Hp _]. exfalso.
  destruct (canonical s a) eqn:Hca; [by rewrite (canonical_below s a h Hca Hd) in Hc|].
  pose proof (walk_count Hca). pose proof (npinned_pos s a a ltac:(by eexists) Hp (descends_refl a)). lia.
Qed.

Lemma walk_retained x : is_Some (pinned_insertions s !! x) -> x <> a \/ n <> 1 -> is_Some (pinned_insertions s' !! x).
Proof.
  intros Hx Hor. destruct (decide (x = a)) as [->|]; [|by rewrite Hsame]. rewrite Hat, decide_False by naive_solver. by eexists.
Qed.

Lemma walk_pending h : is_Some (pinned_insertions s !! h) -> h <> a -> canonical s h = false ->
  pending (Some (parent_of a)) s' h = pending (Some a) s h.
Proof.
  intros Hh Hne Hc. unfold pending. apply decide_ext. split.
  - intros [Hp Hd]. assert (number_of a <> 0) as Hz.
    { intros Hz. pose proof (walk_genesis Hz) as Hg. destruct (decide (parent_of a = a)) as [Heq|Hneq].
      - rewrite Heq in Hg. congruence.
      - rewrite Hsame, Hg in Hp by done. by destruct Hp. }
    split; [by eexists|]. eapply descends_trans; [done|]. by apply descends_parent.
  - intros [_ Hd]. destruct (descends_step h a Hd Hne) as (Hz & Hlt & Hd'). split; [|done].
    assert (parent_of a <> a) as Hneq by (intros Heq; pose proof (number_parent a Hz); rewrite Heq in *; lia).
    assert (canonical s a = false) as Hca.
    { apply not_true_iff_false. intros Hca. by rewrite (canonical_below s a h Hca Hd) in Hc. }
    destruct (pins_closed _ _ _ Hok a ltac:(by eexists) Hca Hz) as [|Hcp]; [by rewrite Hsame|].
    by rewrite (canonical_below s _ h Hcp Hd') in Hc.
Qed.

Lemma walk_step : valid s' -> pins_ok T (Some (parent_of a)) s'.
Proof.
  intros Hv. split; [done|..].
  - intros h ks' n' Hh. rewrite walk_canonical. intros Hc. rewrite walk_npinned by done.
    destruct (decide (h = a)) as [->|Hne].
    + rewrite Hat in Hh. destruct (decide (n = 1)); [done|]. injection Hh as <- <-. rewrite (walk_count Hc).
      unfold pending. rewrite decide_False; [lia|]. intros [Hp Hd]. destruct (decide (number_of a = 0)) as [Hz|Hz].
      * pose proof (walk_genesis Hz) as Hg. destruct (decide (parent_of a = a)) as [Heq|Hneq].
        { rewrite Heq in Hg. congruence. } rewrite Hsame, Hg in Hp by done. by destruct Hp.
      * apply descends_number in Hd. pose proof (number_parent a Hz). lia.
    + rewrite Hsame in Hh by done. rewrite walk_pending by (try done; by eexists). by apply (pins_count _ _ _ Hok h ks').
  - intros h Hh Hc Hz. rewrite walk_canonical in Hc |- *.
    assert (is_Some (pinned_insertions s !! h)) as Hh0.
    { destruct (decide (h = a)) as [->|]; [by eexists|by rewrite Hsame in Hh]. }
    destruct (pins_closed _ _ _ Hok h Hh0 Hc Hz) as [Hp|Hp]; [|by right].
    destruct (decide (parent_of h <> a \/ n <> 1)) as [Hor|Hor]; [left; by apply walk_retained|].
    assert (parent_of h = a /\ n = 1) as [Hpa Hn1] by (destruct (decide (parent_of h = a)), (decide (n = 1)); tauto).
    destruct (canonical s (parent_of h)) eqn:Hcp; [by right|]. exfalso. rewrite Hpa in Hcp. destruct Hh0 as [[ks' n'] Hh0].
    pose proof (pins_count _ _ _ Hok h ks' n' Hh0 Hc) as Hn'. unfold pending in Hn'. rewrite decide_False in Hn'.
    2:{ intros [_ Hd%descends_number]. pose proof (number_parent h Hz). rewrite Hpa in *. lia. }
    pose proof (acc_pins _ _ (v_accounted s (pins_valid _ _ _ Hok)) h ks' n' Hh0) as [Hpos _].
    destruct (npinned_inv s h ltac:(lia)) as (x & Hx & Hx' & Hd).
    assert (descends a x = true) as Hax by (rewrite <- Hpa; eapply descends_trans; [by apply descends_parent|done]).
    pose proof (npinned_pos s a x Hx Hx' Hax). pose proof (walk_count Hcp). lia.
  - intros h Ht Hh. rewrite walk_canonical, Hls. rewrite Hpin in Hh. destruct (pins_known _ _ _ Hok h Ht Hh) as [|[|Hp]]; [auto..|].
    destruct (decide (h <> a \/ n <> 1)) as [Hor|Hor]; [right; right; by apply walk_retained|].
    assert (h = a /\ n = 1) as [Heq Hn1] by (destruct (decide (h = a)), (decide (n = 1)); tauto).
    rewrite Heq in Hp, Hh |- *. destruct (canonical s a) eqn:Hca; [by left|]. exfalso.
    pose proof (npinned_pos s a a Hp Hh (descends_refl a)). pose proof (walk_count Hca). lia.
Qed.
End walk.

(** ** [unpin] *)

Lemma pins_ok_arrived {T} a s : pins_ok T (Some a) s -> pinned_insertions s !! a = None -> pins_ok T None s.
Proof.
  intros [P1 P2 P3 P4] Ha. split; [done| |done|done]. intros h ks n Hh Hc. rewrite (P2 h ks n Hh Hc).
  unfold pending. rewrite decide_False; [lia|]. rewrite Ha. by intros [[? ?] _].
Qed.

Lemma release_one_ok {E} {T} a s ks n : pins_ok T (Some a) s -> pinned_insertions s !! a = Some (ks, n) ->
  exists s', release_one (E := E) (Some a) s = (s', Ok (Continue (Some (parent_of a)))) /\
    pins_ok T (Some (parent_of a)) s' /\ frame s s' /\
    pins_total (pinned_insertions s') + 1 = pins_total (pinned_insertions s).
Proof.
  intros Hok Ha. pose proof (pins_valid _ _ _ Hok) as Hv. pose proof (v_accounted s Hv) as Hacc.
  destruct (acc_pins _ _ Hacc a ks n Ha) as [Hn _].
  cbn [release_one]. run_steps. rewrite Ha, (bindM_lift _ _ _ (n - 1)) by (apply sub_u32_eq; lia).
  rewrite (acc_parents _ _ Hacc a), decide_True by (right; by eexists).
  pose proof (pins_total_delete _ a ks n Ha) as Htot.
  destruct (N.eqb_spec (n - 1) 0) as [Hz|Hz].
  - destruct (release_block (E := E) _ s a ks n Hacc Ha) as (vs & Hrun & Hacc'). unfold bindM at 1. run_steps.
    step_with Hrun. unfold modify_state at 1. eexists. split; [done|]. split_and!; [|done..|simpl; lia].
    apply (walk_step (ks := ks) (n := n) Hok Ha); [done|done|done| | |].
    + intros x Hx. simpl. by rewrite lookup_delete_ne.
    + simpl. rewrite lookup_delete_eq, decide_True; [done|lia].
    + eapply (valid_accounted s); [done..|apply (v_pinned s Hv)|exact Hacc'].
  - unfold bindM at 1, put_state. eexists. split; [done|]. split_and!; [|done..|simpl; rewrite pins_total_insert; lia].
    apply (walk_step (ks := ks) (n := n) Hok Ha); [done|done|done| | |].
    + intros x Hx. simpl. by rewrite lookup_insert_ne.
    + simpl. rewrite lookup_insert_eq, decide_False; [done|lia].
    + eapply (valid_accounted s); [done..|apply (v_pinned s Hv)|]. eapply lower_count; [done|done|lia].
Qed.

Lemma release_ancestors_ok {E} {T} a s : pins_ok T (Some a) s ->
  exists s', release_ancestors (E := E) a s = (s', Ok tt) /\ pins_ok T None s' /\ frame s s'.
Proof.
  intros Hok. unfold release_ancestors.
  enough (postM (loopM (S (N.to_nat (retained_pins s) + 1)) (release_one (E := E)) (Some a)) s
    (fun _ s' => pins_ok T None s' /\ frame s s') (fun _ _ => False)) as Hpost.
  { apply postM_returns in Hpost as (s' & [] & Hrun & Hres). by exists s'. }
  apply (loopM_post _ (fun cur s1 => pins_ok T cur s1 /\ frame s s1)
    (fun cur s1 => N.to_nat (pins_total (pinned_insertions s1)) + if cur then 1 else 0)%nat); [|done|].
  - intros [b|] s1 [Hok1 Hf]; [|done]. destruct (pinned_insertions s1 !! b) as [[ks n]|] eqn:Hb.
    + destruct (release_one_ok (E := E) b s1 ks n Hok1 Hb) as (s2 & Hrun & Hok2 & Hf2 & Htot).
      eapply postM_intro; [done|]. split; [split; [done|by etrans]|lia].
    + unfold postM. cbn [release_one]. run_steps. rewrite Hb. split; [by eapply pins_ok_arrived|done].
  - change (retained_pins s) with (pins_total (pinned_insertions s)). lia.
Qed.

Lemma unpinned_npinned s h x : is_Some (pinned s !! h) ->
  npinned s x = npinned (set_pinned (delete h (pinned s)) s) x +
    if decide (is_Some (pinned_insertions s !! h) /\ descends x h = true) then 1 else 0.
Proof.
  intros Hh. unfold npinned.
  assert (retained_pinned (set_pinned (delete h (pinned s)) s) x = retained_pinned s x ∖ {[h]}) as ->.
  { apply set_eq. intros y. unfold retained_pinned. rewrite elem_of_difference, !elem_of_filter, elem_of_singleton. simpl.
    destruct (decide (y = h)) as [->|]; [rewrite lookup_delete_eq; split; [by intros [[[? ?] _] _]|naive_solver]|].
    rewrite lookup_delete_ne by done. naive_solver. }
  destruct (decide _) as [[Hp Hd]|Hno].
  - assert ({[h]} ⊆ retained_pinned s x) as Hsub.
    { intros y ->%elem_of_singleton. apply elem_of_filter. by rewrite elem_of_dom. }
    rewrite size_difference by done. rewrite size_singleton. apply subseteq_size in Hsub. rewrite size_singleton in Hsub. lia.
  - rewrite difference_disjoint_L; [lia|]. intros y Hy ->%elem_of_singleton. apply Hno.
    apply elem_of_filter in Hy as [[_ Hd] Hy]. by rewrite <- elem_of_dom.
Qed.

(** Another number of pins on the same blocks. *)
Lemma repin_ok {T} s m : pins_ok T None s -> (forall h n, m !! h = Some n -> 0 < n) ->
  (forall h, is_Some (m !! h) <-> is_Some (pinned s !! h)) -> pins_ok T None (set_pinned m s).
Proof.
  intros [P1 P2 P3 P4] Hpos Hdom. split; [|..].
  - eapply (valid_accounted s); [done..|]. by apply (accounted_ext _ s); [done..|apply P1].
  - intros x ks n Hx Hc. rewrite (P2 x ks n Hx Hc). f_equal. symmetry. apply npinned_ext. intros y _. simpl. by rewrite Hdom.
  - done.
  - intros x Ht Hx. apply P4; [done|]. by apply Hdom.
Qed.

Definition pin_count s (h : B) : N := default 0 (pinned s !! h).

Lemma nc_unpin_ok {E} {T} h s : pins_ok T None s ->
  exists s', nc_unpin (E := E) h s = (s', Ok tt) /\ pins_ok T None s' /\
    last_canonicalized s' = last_canonicalized s /\ levels s' = levels s /\
    pinned_canonincalized s' = pinned_canonincalized s /\
    (forall x, pin_count s' x = pin_count s x - if decide (x = h) then 1 else 0).
Proof.
  intros Hok. unfold nc_unpin. run_steps. destruct (pinned s !! h) as [refs|] eqn:Hh.
  2:{ exists s. split_and!; try done. intros x. destruct (decide (x = h)) as [->|]; [|lia]. unfold pin_count. by rewrite Hh. }
  pose proof (v_pinned s (pins_valid _ _ _ Hok) h refs Hh) as Hpos.
  rewrite (bindM_lift _ _ _ (refs - 1)) by (apply sub_u32_eq; lia). destruct (N.eqb_spec (refs - 1) 0) as [Hz|Hz].
  - run_steps. assert (pins_ok T (Some h) (set_pinned (delete h (pinned s)) s)) as Hok1.
    { destruct Hok as [P1 P2 P3 P4]. split; [|..].
      - eapply (valid_accounted s); [done..| |]; [|by apply (accounted_ext _ s); [done..|apply P1]].
        intros x n Hx. simpl in Hx. apply lookup_delete_Some in Hx as [_ Hx]. by apply (v_pinned s P1 x).
      - intros x ks n Hx Hc. rewrite (P2 x ks n Hx Hc), (unpinned_npinned s h x) by by eexists. simpl. lia.
      - done.
      - intros x Ht [n Hx]. simpl in Hx. apply lookup_delete_Some in Hx as [_ Hx]. apply P4; [done|by eexists]. }
    destruct (release_ancestors_ok (E := E) h _ Hok1) as (s' & Hrun & Hok' & (F1 & F2 & F3 & F4)).
    exists s'. split_and!; try done. intros x. unfold pin_count. rewrite F3. simpl. destruct (decide (x = h)) as [->|Hne].
    + rewrite lookup_delete_eq, Hh. simpl. lia.
    + rewrite lookup_delete_ne by done. lia.
  - eexists. split; [done|]. split_and!; try done.
    + apply repin_ok; [done|..].
      * intros x n. rewrite lookup_insert_Some. intros [[_ <-]|[_ Hx]]; [lia|].
        by apply (v_pinned s (pins_valid _ _ _ Hok) x).
      * intros x. destruct (decide (x = h)) as [->|]; [rewrite lookup_insert_eq, Hh; by split; eexists|by rewrite lookup_insert_ne].
    + intros x. unfold pin_count. simpl. destruct (decide (x = h)) as [->|Hne].
      * rewrite lookup_insert_eq, Hh. done.
      * rewrite lookup_insert_ne by done. lia.
Qed.

(** ** Window and retained blocks *)

Notation window s := (map hash (level_blocks (levels s))).

Lemma window_number s x : valid s -> x ∈ window s -> front s <= number_of x.
Proof.
  intros Hv (o & -> & (i & l & Hi & Ho)%elem_of_level_blocks)%list_elem_of_fmap.
  rewrite (level_number _ _ (v_levels s Hv i l Hi) o Ho). lia.
Qed.

Lemma window_not_canonical s x : valid s -> x ∈ window s -> canonical s x = false.
Proof.
  intros Hv Hx%window_number; [|done]. unfold canonical, front in *.
  destruct (last_canonicalized s) as [[c n]|] eqn:Hlast; [|done]. apply not_true_iff_false. intros Hd%descends_number.
  rewrite (v_last s Hv c n Hlast) in Hd. lia.
Qed.

Lemma window_not_retained s x : valid s -> x ∈ window s -> pinned_insertions s !! x = None.
Proof. intros Hv (o & -> & Ho)%list_elem_of_fmap. by apply (acc_fresh _ _ (v_accounted s Hv)). Qed.

(** Below a block of the window there is the window and what is canonical. *)
Lemma window_below s x y : valid s -> y ∈ window s -> descends x y = true -> x ∈ window s \/ canonical s x = true.
Proof.
  intros Hv. assert (forall i l o, levels s !! i = Some l -> o ∈ blocks l -> descends x (hash o) = true ->
    x ∈ window s \/ canonical s x = true) as Hgo.
  { induction i as [|i IH]; intros l o Hi Ho Hd; (destruct (decide (x = hash o)) as [->|Hne];
      [left; apply list_elem_of_fmap_2, elem_of_level_blocks; by eexists _, l|]); destruct (descends_step _ _ Hd Hne) as (Hz & _ & Hp).
    - right. unfold canonical. destruct (last_canonicalized s) as [[c n]|] eqn:Hlast.
      + by rewrite <- (v_root s Hv c n l o Hlast Hi Ho).
      + rewrite (level_number _ _ (v_levels s Hv _ l Hi) o Ho) in Hz. unfold front in Hz. rewrite Hlast in Hz. done.
    - destruct (lookup_lt_is_Some_2 (levels s) i) as [l0 Hl0]; [apply lookup_lt_Some in Hi; lia|].
      pose proof (v_linked s Hv i l0 l o Hl0 Hi Ho) as (p & Hp' & Hin)%list_elem_of_fmap. rewrite Hp' in Hp. by apply (IH l0 p). }
  intros (o & -> & (i & l & Hi & Ho)%elem_of_level_blocks)%list_elem_of_fmap. by apply (Hgo i l o).
Qed.

(** Nothing that is retained is above a block of the window. *)
Lemma retained_not_above {T} s x y : pins_ok T None s -> is_Some (pinned_insertions s !! y) -> x ∈ window s -> descends x y = false.
Proof.
  intros Hok Hy Hx. pose proof (pins_valid _ _ _ Hok) as Hv. apply not_true_iff_false. intros Hd.
  assert (forall k y, N.to_nat (number_of y) = k -> is_Some (pinned_insertions s !! y) -> descends x y = true -> False) as Hgo; [|by eapply Hgo].
  clear y Hy Hd. induction k as [|k IH]; intros y Hk Hy Hd; (destruct (canonical s y) eqn:Hc;
    [pose proof (canonical_below s y x Hc Hd); by rewrite (window_not_canonical s x Hv Hx) in *|]);
    (destruct (decide (x = y)) as [->|Hne]; [rewrite (window_not_retained s y Hv Hx) in Hy; by destruct Hy|]);
    destruct (descends_step x y Hd Hne) as (Hz & _ & Hp); [lia|].
  destruct (pins_closed _ _ _ Hok y Hy Hc Hz) as [Hr|Hr].
  - apply (IH (parent_of y)); [|done|done]. pose proof (number_parent y Hz). lia.
  - pose proof (canonical_below s _ x Hr Hp). by rewrite (window_not_canonical s x Hv Hx) in *.
Qed.

(** ** Canonicalization *)

Lemma npin_pos s o bs : o ∈ bs -> is_pinned s o = true -> 0 < npin s bs.
Proof.
  intros Ho Hp. unfold npin. assert (o ∈ List.filter (is_pinned s) bs) as Hin by by apply elem_of_filter_true.
  destruct (List.filter (is_pinned s) bs); [by apply elem_of_nil in Hin|simpl; lia].
Qed.

Lemma npin_inv s bs : 0 < npin s bs -> exists o, o ∈ bs /\ is_pinned s o = true.
Proof.
  unfold npin. destruct (List.filter (is_pinned s) bs) as [|o k] eqn:Hf; [done|]. intros _. exists o.
  apply elem_of_filter_true. rewrite Hf. by left.
Qed.

Lemma retained_some (o : block) n : is_Some (retained o n) <-> 0 < n.
Proof. unfold retained. destruct (N.eqb_spec n 0); split; intros Hx; [by destruct Hx|lia|lia|by eexists]. Qed.

Section canonicalized.
Context {T : B -> Prop} {s s' : overlay} {h : B} {l : level} {ls : list level} {index : nat} {o : block} {js : list bytes}.
Context (Hok : pins_ok T None s) (Hls : levels s = l :: ls) (Hi : blocks l !! index = Some o) (Hh : hash o = h)
        (Hlast : last_canonicalized s' = Some (h, front s))
        (Hc : canonicalizing (front s) h (blocks l) [] (popped_state h ls s)
                (set_last_canonicalized (last_canonicalized s) s') js).
Notation sp := (popped_state h ls s).
Notation W := (level_blocks (levels s)).

#[local] Lemma Hv : valid s.
Proof. apply Hok. Qed.

Lemma cz_window : W = blocks l ++ level_blocks ls.
Proof. by rewrite Hls. Qed.

Lemma cz_root : o ∈ W /\ number_of h = front s.
Proof.
  apply list_elem_of_lookup_2 in Hi as Ho. split; [rewrite cz_window; apply elem_of_app; by left|].
  rewrite <- Hh. destruct (popped_ok Hv Hls Hi Hh) as (Hlv & _ & _). by apply (disc_first_number Hlv).
Qed.

Lemma cz_number b : b ∈ W -> front s <= number_of (hash b).
Proof. intros Hb. apply window_number; [apply Hv|]. by apply list_elem_of_fmap_2. Qed.

Lemma cz_pinned_eq : pinned s' = pinned sp.
Proof. exact (can_pinned _ _ _ _ _ _ _ Hc). Qed.

Lemma cz_pinned x : is_Some (pinned s' !! x) <-> x = h \/ is_Some (pinned s !! x).
Proof.
  rewrite cz_pinned_eq. simpl. destruct (decide (x = h)) as [->|].
  - rewrite lookup_insert_eq. split; [by left|by eexists].
  - rewrite lookup_insert_ne by done. split; [by right|by intros [|]].
Qed.

Lemma cz_is_pinned b : is_pinned sp b = true <-> is_Some (pinned s' !! hash b).
Proof. unfold is_pinned. by rewrite bool_decide_eq_true, cz_pinned_eq. Qed.

(** What becomes of the blocks: those of other branches, the canonical one, and the rest. *)
Lemma cz_gone b : b ∈ W -> hash b <> h -> descends h (hash b) = false ->
  pinned_insertions s' !! hash b = retained b (npin sp (above (hash b) W)).
Proof.
  intros Hb Hne Hd. destruct (popped_ok Hv Hls Hi Hh) as (Hlv & Hlk & Hin). rewrite cz_window in Hb |- *.
  pose proof (can_retention _ _ _ _ _ _ _ Hc) as Hret. apply elem_of_app in Hb as [Hb|Hb].
  - pose proof (ret_popped _ _ _ _ _ Hret b Hb) as Hr. simpl in Hr. rewrite Hr, decide_False by done. f_equal.
    apply npin_perm. unfold above at 2. rewrite List.filter_app. fold (above (hash b) (blocks l)).
    by rewrite (above_first Hlv b Hb).
  - pose proof (ret_above _ _ _ _ _ Hret b Hb) as Hr. simpl in Hr. rewrite Hr.
    + by rewrite (above_rest Hlv) by by apply (disc_rest_number Hlv).
    + by rewrite (canonical_above (front s) l ls h b Hlv Hlk Hin Hb), Hd.
Qed.

Lemma cz_canonical : is_Some (pinned_insertions s' !! h).
Proof.
  pose proof (ret_popped _ _ _ _ _ (can_retention _ _ _ _ _ _ _ Hc) o ltac:(by eapply list_elem_of_lookup_2)) as Hr.
  simpl in Hr. rewrite decide_True, Hh in Hr by done. rewrite Hr. apply retained_some. apply (npin_pos _ o); [by left|].
  apply cz_is_pinned, cz_pinned. by left.
Qed.

Lemma cz_same x : x ∉ window s -> pinned_insertions s' !! x = pinned_insertions s !! x.
Proof.
  intros Hx. rewrite cz_window, map_app in Hx.
  pose proof (ret_same _ _ _ _ _ (can_retention _ _ _ _ _ _ _ Hc) x) as Hr. apply Hr.
  - intros Hin. apply Hx, elem_of_app. by left.
  - intros (b & -> & [Hb _]%elem_of_filter_true)%list_elem_of_fmap. apply Hx, elem_of_app. right. by apply list_elem_of_fmap_2.
Qed.

Lemma cz_canonical_mono x : canonical s x = true -> canonical s' x = true.
Proof.
  unfold canonical at 2. rewrite Hlast. unfold canonical. destruct (last_canonicalized s) as [[c n]|] eqn:Hl; [|done].
  intros Hd. eapply descends_trans; [done|]. rewrite <- Hh.
  rewrite <- (v_root s Hv c n l o Hl); [|by rewrite Hls|by eapply list_elem_of_lookup_2].
  apply descends_parent. destruct cz_root as [_ Hnum]. rewrite Hh, Hnum. unfold front. rewrite Hl. lia.
Qed.

Lemma cz_not_above b : b ∈ W -> canonical s' (hash b) = false -> descends h (hash b) = false ->
  forall c, c ∈ W -> descends (hash b) (hash c) = true -> hash c <> h /\ descends h (hash c) = false.
Proof.
  intros Hb Hcb Hd c Hcw Hbc. destruct cz_root as [Ho Hnum]. split.
  - intros Heq. rewrite Heq in Hbc. unfold canonical in Hcb. rewrite Hlast in Hcb. congruence.
  - apply not_true_iff_false. intros Hx. apply not_true_iff_false in Hd. apply Hd.
    eapply descends_linear; [done|done|]. rewrite Hnum. by apply cz_number.
Qed.

(** Of the blocks of other branches, those are retained that carry a pin. *)
Lemma cz_retained b c : b ∈ W -> c ∈ W -> canonical s' (hash b) = false -> descends h (hash b) = false ->
  descends (hash b) (hash c) = true -> is_Some (pinned s' !! hash c) -> is_Some (pinned_insertions s' !! hash b).
Proof.
  intros Hb Hcw Hcb Hd Hbc Hp. rewrite cz_gone; [|done| |done].
  - apply retained_some, (npin_pos _ c); [by apply elem_of_filter_true|by apply cz_is_pinned].
  - intros Heq. rewrite Heq, descends_refl in Hd. done.
Qed.

Lemma cz_retained_inv b : b ∈ W -> canonical s' (hash b) = false -> descends h (hash b) = false ->
  is_Some (pinned_insertions s' !! hash b) ->
  exists c, c ∈ W /\ descends (hash b) (hash c) = true /\ is_Some (pinned s' !! hash c).
Proof.
  intros Hb Hcb Hd. rewrite cz_gone; [|done| |done].
  - intros (c & [Hcw Hbc]%elem_of_filter_true & Hp%cz_is_pinned)%retained_some%npin_inv. by exists c.
  - intros Heq. rewrite Heq, descends_refl in Hd. done.
Qed.

Lemma cz_kept b : b ∈ W -> descends h (hash b) = true -> hash b <> h ->
  hash b ∈ window s' /\ pinned_insertions s' !! hash b = None.
Proof.
  intros Hb Hd Hne. assert (b ∈ level_blocks (levels s')) as Hin.
  { rewrite cz_window in Hb. apply elem_of_app in Hb as [Hb|Hb].
    - destruct cz_root as [_ Hnum]. destruct (popped_ok Hv Hls Hi Hh) as (Hlv & _ & _).
      rewrite descends_same_number in Hd by (by rewrite (disc_first_number Hlv)). by apply bool_decide_eq_true in Hd.
    - unfold level_blocks. rewrite (canonicalized_levels Hv Hls Hi Hh Hc). unfold above. rewrite <- filter_concat.
      by apply elem_of_filter_true. }
  split; [by apply list_elem_of_fmap_2|].
  pose proof (acc_fresh _ _ (can_accounted _ _ _ _ _ _ _ Hc) b) as Hf. by apply Hf.
Qed.

(** The count of a block of another branch. *)
Lemma cz_count b : b ∈ W -> canonical s' (hash b) = false -> descends h (hash b) = false ->
  npin sp (above (hash b) W) = npinned s' (hash b).
Proof.
  intros Hb Hcb Hd. unfold npin, npinned. f_equal. set (bs := List.filter (is_pinned sp) (above (hash b) W)).
  assert (NoDup (map hash bs)) as Hnd.
  { eapply sublist_NoDup; [apply (acc_nodup _ _ (v_accounted s Hv))|]. apply (fmap_sublist hash).
    etrans; apply filter_sublist. }
  rewrite <- (length_map hash bs), <- (size_list_to_set (C := gset B) _ Hnd). f_equal. apply set_eq. intros y.
  rewrite elem_of_list_to_set. unfold retained_pinned. rewrite elem_of_filter, elem_of_dom, list_elem_of_fmap. split.
  - intros (c & -> & [[Hcw Hbc]%elem_of_filter_true Hp%cz_is_pinned]%elem_of_filter_true). split_and!; [done|done|].
    destruct (cz_not_above b Hb Hcb Hd c Hcw Hbc) as [Hne Hdc].
    assert (canonical s' (hash c) = false) as Hcc.
    { apply not_true_iff_false. intros Hx. by rewrite (canonical_below s' _ _ Hx Hbc) in Hcb. }
    by apply (cz_retained c c Hcw Hcw Hcc Hdc (descends_refl _)).
  - intros [[Hp Hby] Hy]. destruct (decide (y ∈ window s)) as [(c & -> & Hcw)%list_elem_of_fmap|Hnot].
    + exists c. split; [done|]. apply elem_of_filter_true. split; [by apply elem_of_filter_true|by apply cz_is_pinned].
    + rewrite cz_same in Hy by done.
      by rewrite (retained_not_above s (hash b) y Hok Hy ltac:(by apply list_elem_of_fmap_2)) in Hby.
Qed.

(** What was retained before keeps its count. *)
Lemma cz_count_same x : x ∉ window s -> canonical s' x = false -> npinned s' x = npinned s x.
Proof.
  intros Hx Hcx. apply npinned_ext. intros y Hd. destruct (decide (y ∈ window s)) as [Hy|Hy].
  - destruct (window_below s x y Hv Hy Hd) as [|Hc']; [done|]. by rewrite (cz_canonical_mono x Hc') in Hcx.
  - rewrite cz_same by done. rewrite cz_pinned. split; [naive_solver|]. intros [[->|] ?]; [|done].
    destruct Hy. rewrite <- Hh. by apply list_elem_of_fmap_2, cz_root.
Qed.

Lemma cz_parent b : b ∈ W -> canonical s' (hash b) = false -> descends h (hash b) = false ->
  is_Some (pinned_insertions s' !! hash b) -> number_of (hash b) <> 0 ->
  is_Some (pinned_insertions s' !! parent_of (hash b)) \/ canonical s' (parent_of (hash b)) = true.
Proof.
  intros Hb Hcb Hd Hr Hz. destruct (cz_retained_inv b Hb Hcb Hd Hr) as (c & Hcw & Hbc & Hp).
  pose proof (descends_parent _ Hz) as Hpar. destruct (window_below s _ (hash b) Hv ltac:(by apply list_elem_of_fmap_2) Hpar)
    as [(p & Hp' & Hpw)%list_elem_of_fmap|Hcan]; [|right; by apply cz_canonical_mono].
  rewrite Hp' in Hpar |- *. destruct (canonical s' (hash p)) eqn:Hcp; [by right|left].
  apply (cz_retained p c); [done|done|done| |by eapply descends_trans|done].
  apply not_true_iff_false. intros Hx. by rewrite (descends_trans _ _ _ Hx Hpar) in Hd.
Qed.

Lemma canonicalized_pins : front s < u64_MAX -> pins_ok T None s'.
Proof.
  intros Hf. assert (forall x, x ∈ window s -> canonical s' x = false -> is_Some (pinned_insertions s' !! x) ->
    exists b, x = hash b /\ b ∈ W /\ descends h x = false /\ x <> h) as Hgone.
  { intros x (b & -> & Hb)%list_elem_of_fmap Hcb Hr. assert (hash b <> h) as Hne.
    { intros Heq. unfold canonical in Hcb. rewrite Hlast, Heq, descends_refl in Hcb. done. }
    exists b. split_and!; [done|done| |done]. apply not_true_iff_false. intros Hd.
    destruct (cz_kept b Hb Hd Hne) as [_ Hn]. rewrite Hn in Hr. by destruct Hr. }
  split.
  - by eapply (canonicalized_valid Hv Hls Hi Hh Hlast Hc).
  - intros x ks n Hx Hcx. rewrite N.add_0_r. destruct (decide (x ∈ window s)) as [Hw|Hw].
    + destruct (Hgone x Hw Hcx ltac:(by eexists)) as (b & -> & Hb & Hd & Hne).
      rewrite (cz_gone b Hb Hne Hd), (cz_count b Hb Hcx Hd) in Hx. unfold retained in Hx. destruct (_ =? 0); congruence.
    + rewrite cz_same in Hx by done. rewrite (cz_count_same x Hw Hcx), (pins_count _ _ _ Hok x ks n Hx); [simpl; lia|].
      apply not_true_iff_false. intros Hc'. by rewrite (cz_canonical_mono x Hc') in Hcx.
  - intros x Hx Hcx Hz. destruct (decide (x ∈ window s)) as [Hw|Hw].
    + destruct (Hgone x Hw Hcx Hx) as (b & -> & Hb & Hd & _). by apply cz_parent.
    + rewrite cz_same in Hx by done.
      assert (canonical s x = false) as Hcx0 by (apply not_true_iff_false; intros Hc'; by rewrite (cz_canonical_mono x Hc') in Hcx).
      destruct (pins_closed _ _ _ Hok x Hx Hcx0 Hz) as [Hp|Hp]; [left|right; by apply cz_canonical_mono].
      rewrite cz_same; [done|]. intros Hpw. rewrite (window_not_retained s _ Hv Hpw) in Hp. by destruct Hp.
  - intros x Ht Hx. destruct (canonical s' x) eqn:Hcx; [by left|right]. apply cz_pinned in Hx as Hx'.
    destruct Hx' as [->|Hx'].
    { unfold canonical in Hcx. rewrite Hlast, descends_refl in Hcx. done. }
    destruct (pins_known _ _ _ Hok x Ht Hx') as [Hc'|[(b & -> & Hb)%list_elem_of_fmap|Hr]].
    + by rewrite (cz_canonical_mono x Hc') in Hcx.
    + destruct (descends h (hash b)) eqn:Hd.
      * left. apply cz_kept; [done|done|]. intros Heq. unfold canonical in Hcx. rewrite Hlast, Heq, descends_refl in Hcx. done.
      * right. by apply (cz_retained b b Hb Hb Hcx Hd (descends_refl _)).
    + right. rewrite cz_same; [done|]. intros Hw. rewrite (window_not_retained s _ Hv Hw) in Hr. by destruct Hr.
Qed.
End canonicalized.

(** ** The other operations *)

(** The pins stay as they are, and what is pinned is still there. *)
Lemma same_pins {T} s s' : pins_ok T None s -> valid s' ->
  pinned s' = pinned s -> pinned_insertions s' = pinned_insertions s ->
  (forall x, canonical s x = true -> canonical s' x = true) ->
  (forall x, T x -> is_Some (pinned s !! x) -> x ∈ window s -> x ∈ window s') -> pins_ok T None s'.
Proof.
  intros [P1 P2 P3 P4] Hv Hp Hpi Hcan Hw. assert (forall x, canonical s' x = false -> canonical s x = false) as Hnot.
  { intros x Hx. apply not_true_iff_false. intros Hc. by rewrite (Hcan x Hc) in Hx. }
  split; rewrite ?Hp, ?Hpi; [done|..].
  - intros x ks n Hx Hc. rewrite (P2 x ks n Hx (Hnot x Hc)). f_equal. symmetry. apply npinned_ext. intros y _. by rewrite Hp, Hpi.
  - intros x Hx Hc Hz. destruct (P3 x Hx (Hnot x Hc) Hz); auto.
  - intros x Ht Hx. destruct (P4 x Ht Hx) as [|[|]]; auto.
Qed.

Lemma inserted_pins {T} s h s1 m s2 i l l' vs : pins_ok T None s -> placed s h s1 m -> with_level s s1 s2 ->
  levels s2 !! i = Some l -> blocks l' = blocks l ++ [new_block h l] ->
  valid (with_block s2 i l' (new_block h l) vs) -> pins_ok T None (with_block s2 i l' (new_block h l) vs).
Proof.
  intros Hok Hp Hs2 Hl Hb Hv'. destruct (with_level_fields _ _ _ _ _ Hp Hs2) as (_ & _ & Hlast & _ & Hlb).
  apply (same_pins s); [done|done|by destruct Hs2 as [->| ->], Hp|by destruct Hs2 as [->| ->], Hp|..].
  - intros x Hx. unfold canonical in *. simpl. rewrite Hlast. destruct Hp as [Hn _ _| | |]; [by rewrite Hn in Hx|done..].
  - intros x _ _ Hx. simpl. rewrite (level_blocks_insert _ i l l' _ Hl Hb). simpl. right. by rewrite Hlb.
Qed.

(** The blocks whose pins are counted right: a block that was discarded and is not pinned can
    not be pinned any more. *)
Definition pinnable s (h : B) : Prop := canonical s h = true \/ h ∈ window s \/ is_Some (pinned s !! h).

Lemma pinned_pins {T} s h n : pins_ok T None s -> pinnable s h -> 0 < n ->
  pins_ok T None (set_pinned (<[h := n]> (pinned s)) s).
Proof.
  intros Hok Hp Hn. pose proof (pins_valid _ _ _ Hok) as Hv.
  assert (valid (set_pinned (<[h := n]> (pinned s)) s)) as Hv'.
  { eapply (valid_accounted s); [done..| |by apply (accounted_ext _ s); [done..|apply Hv]].
    intros x m Hx. simpl in Hx. apply lookup_insert_Some in Hx as [[_ <-]|[_ Hx]]; [done|by apply (v_pinned s Hv x)]. }
  destruct (pinned s !! h) as [m|] eqn:Hm.
  { apply repin_ok; [done|apply Hv'|]. intros x. destruct (decide (x = h)) as [->|]; [|by rewrite lookup_insert_ne].
    rewrite lookup_insert_eq, Hm. by split; eexists. }
  split; [done|..|].
  - intros x ks k Hx Hc. rewrite (pins_count _ _ _ Hok x ks k Hx Hc). f_equal. symmetry. apply npinned_ext.
    intros y Hd. simpl. destruct (decide (y = h)) as [->|]; [|by rewrite lookup_insert_ne]. exfalso.
    destruct Hp as [Hp|[Hp|[? ?]]]; [| |congruence].
    + pose proof (canonical_below s h x Hp Hd). change (canonical s x = false) in Hc. congruence.
    + destruct (window_below s x h Hv Hp Hd) as [Hw|Hw].
      * pose proof (window_not_retained s x Hv Hw). simpl in Hx. congruence.
      * change (canonical s x = false) in Hc. congruence.
  - apply (pins_closed _ _ _ Hok).
  - intros x Ht Hx. simpl in Hx. destruct (decide (x = h)) as [->|].
    + destruct Hp as [|[|[? ?]]]; [by left|right; by left|congruence].
    + rewrite lookup_insert_ne in Hx by done. by apply (pins_known _ _ _ Hok).
Qed.

Lemma nc_sync_ok {E T} s : pins_ok T None s ->
  exists s', nc_sync (E := E) s = (s', Ok tt) /\ pins_ok T None s' /\
    last_canonicalized s' = last_canonicalized s /\ levels s' = levels s /\ pinned_canonincalized s' = [] /\
    forall x, pin_count s' x = pin_count s x - occ x (pinned_canonincalized s).
Proof.
  intros Hok. unfold nc_sync. run_steps.
  assert (forall hs s0, pins_ok T None s0 -> exists s', for_each (nc_unpin (E := E)) hs s0 = (s', Ok tt) /\ pins_ok T None s' /\
    last_canonicalized s' = last_canonicalized s0 /\ levels s' = levels s0 /\ pinned_canonincalized s' = pinned_canonincalized s0 /\
    forall x, pin_count s' x = pin_count s0 x - occ x hs) as Hgo.
  { induction hs as [|h hs IH]; intros s0 Hok0.
    { exists s0. split_and!; try done. intros x. unfold occ. simpl. lia. }
    destruct (nc_unpin_ok (E := E) h s0 Hok0) as (s1 & Hrun & Hok1 & H1 & H2 & H3 & H4).
    destruct (IH s1 Hok1) as (s2 & Hrun2 & Hok2 & H1' & H2' & H3' & H4'). exists s2. cbn [for_each]. step_with Hrun.
    split_and!; try done; try congruence. intros x. rewrite H4', H4, occ_cons.
    destruct (decide (x = h)) as [->|]; [rewrite decide_True by done; lia|rewrite decide_False by congruence; lia]. }
  assert (forall s1, pins_ok T None s1 -> pins_ok T None (set_pinned_canonincalized [] s1)) as Hset.
  { intros s1 [P1 P2 P3 P4]. split; [|exact P2|exact P3|exact P4].
    eapply (valid_accounted s1); [done..|apply P1|by apply (accounted_ext _ s1); [done..|apply P1]]. }
  destruct (Hgo (pinned_canonincalized s) (set_pinned_canonincalized [] s) (Hset s Hok)) as (s' & Hrun & Hok' & H1 & H2 & H3 & H4).
  step_with Hrun. eexists. split; [done|]. split_and!; try done. by apply Hset.
Qed.

(** ** What a pin protects *)

(** The state of a block can be read: all it and its ancestors inserted, down to the canonical
    chain, is in the overlay. *)
Inductive held s : B -> Prop :=
| held_canonical h : canonical s h = true -> held s h
| held_overlay h : (forall k, k ∈ keys_of h -> nc_get s k = Some (node k)) ->
    number_of h = 0 \/ held s (parent_of h) -> held s h.

Lemma nc_get_ok s k : valid s ->
  nc_get s k = if decide (k ∈ block_keys (level_blocks (levels s)) ++ retained_keys s) then Some (node k) else None.
Proof.
  intros Hv. unfold nc_get. rewrite (acc_count _ _ (v_accounted s Hv)).
  destruct (decide (k ∈ _)) as [Hk|Hk]; rewrite <- occ_pos in Hk; destruct (decide _); try lia; done.
Qed.

Lemma window_held s x : valid s -> x ∈ window s -> held s x.
Proof.
  intros Hv. assert (forall k y, N.to_nat (number_of y) = k -> y ∈ window s -> held s y) as Hgo; [|by eapply Hgo].
  induction k as [|k IH]; intros y Hk Hy; apply held_overlay;
    try (apply list_elem_of_fmap in Hy as (o & -> & Ho); intros k' Hk'; rewrite nc_get_ok by done;
         rewrite decide_True; [done|]; apply elem_of_app; left; apply elem_of_concat; exists (inserted o);
         split; [by apply list_elem_of_fmap_2|by rewrite (proj1 (acc_inserted _ _ (v_accounted s Hv) o Ho))]).
  - left. lia.
  - right. assert (number_of y <> 0) as Hz by lia. destruct (window_below s _ y Hv Hy (descends_parent y Hz)) as [Hw|Hc].
    + apply IH; [|done]. pose proof (number_parent y Hz). lia.
    + by apply held_canonical.
Qed.

Lemma retained_held {T} s x : pins_ok T None s -> is_Some (pinned_insertions s !! x) -> held s x.
Proof.
  intros Hok. pose proof (pins_valid _ _ _ Hok) as Hv.
  assert (forall k y, N.to_nat (number_of y) = k -> is_Some (pinned_insertions s !! y) -> held s y) as Hgo; [|by eapply Hgo].
  induction k as [|k IH]; intros y Hk Hy; (destruct (canonical s y) eqn:Hc; [by apply held_canonical|]); apply held_overlay;
    try (destruct Hy as [[ks n] Hy]; intros k' Hk'; rewrite nc_get_ok by done; rewrite decide_True; [done|];
         apply elem_of_app; right; apply elem_of_concat; exists ks; split;
         [|by destruct (acc_pins _ _ (v_accounted s Hv) y ks n Hy) as [_ ->]];
         apply list_elem_of_fmap; exists (y, (ks, n)); split; [done|by apply elem_of_map_to_list]).
  - left. lia.
  - right. assert (number_of y <> 0) as Hz by lia. destruct (pins_closed _ _ _ Hok y Hy Hc Hz) as [Hp|Hp].
    + apply IH; [|done]. pose proof (number_parent y Hz). lia.
    + by apply held_canonical.
Qed.

Lemma pinned_held {T} s h : pins_ok T None s -> T h -> is_Some (pinned s !! h) -> held s h.
Proof.
  intros Hok Ht Hp. destruct (pins_known _ _ _ Hok h Ht Hp) as [|[|]];
    [by apply held_canonical|apply window_held; [apply Hok|done]|by eapply retained_held].
Qed.
End spec.
