(* ===== verification/NonCanonicalJournal.v ===== *)
(** * The non-canonical overlay: its journal

    What the metadata holds for the overlay: the last canonical block, and one entry for each
    block of the window, under a key made of the number of the block and its index on the level.
    An overlay that is opened again reads the window back from it. *)

From stdpp Require Import strings.
From S2P Require Import Prelude StateDbTypes NonCanonical NonCanonicalCount NonCanonicalDiscard NonCanonicalOps.
From S2P Require Import NonCanonicalPins.

#[local] Open Scope N_scope.

Section spec.
Context {P : Profile} {B K CE : Type} `{Countable B, Countable K} {chain : Chain B K}.
Context {enc_unit : Encode unit} {enc_u64 : Encode N} {enc_key : Encode (N * N)} {enc_canonical : Encode (B * N)}
        {enc_record : Encode (JournalRecord B K)}.
Context {dec_canonical : Decode CE (B * N)} {dec_record : Decode CE (JournalRecord B K)}.
Context {keys : KeyCodec enc_unit enc_u64 enc_key}
        {rt_canonical : RoundTrip CE (B * N) enc_canonical dec_canonical (fun x => snd x <= u64_MAX)}
        {rt_record : RoundTrip CE (JournalRecord B K) enc_record dec_record (fun _ => True)}.

Notation overlay := (NonCanonicalOverlay B K).
Notation level := (OverlayLevel B K).
Notation block := (BlockOverlay B K).
Notation metadata := (gmap bytes DBValue).
Notation last_key := (to_meta_key LAST_CANONICAL tt).
Implicit Types s : overlay.
Implicit Types m : metadata.

(** ** Keys *)

Lemma to_journal_key_inj n i n' i' : n <= u64_MAX -> i <= u64_MAX -> n' <= u64_MAX -> i' <= u64_MAX ->
  to_journal_key n i = to_journal_key n' i' -> n = n' /\ i = i'.
Proof.
  intros. unfold to_journal_key, to_meta_key in *. eapply encode_pair_inj; [done..|]. by eapply app_inv_tail.
Qed.

Lemma journal_key_length n i : length (to_journal_key n i) = 36%nat.
Proof. unfold to_journal_key, to_meta_key. by rewrite length_app, encode_pair_length. Qed.

Lemma last_key_length : length last_key = 14%nat.
Proof. unfold to_meta_key. by rewrite encode_unit. Qed.

Lemma journal_not_last n i : to_journal_key n i <> last_key.
Proof. intros Heq%(f_equal length). by rewrite journal_key_length, last_key_length in Heq. Qed.

(** ** What the metadata holds *)

(** The block of the window with a number and an index. *)
Definition slot s (n i : N) : option block :=
  List.find (fun o => (number_of (hash o) =? n) && (journal_index o =? i)) (level_blocks (levels s)).

Record journaled m s : Prop := {
  jn_last : m !! last_key = encode <$> last_canonicalized s;
  jn_slot n i : 0 < n <= u64_MAX -> front s <= n -> i < MAX_BLOCKS_PER_LEVEL ->
    m !! to_journal_key n i = (fun o => encode (record_of (hash o))) <$> slot s n i;
  jn_coherent o : o ∈ level_blocks (levels s) -> coherent [] (cs_inserted (changes_of (hash o)))
}.

Lemma window_block s o : valid s -> o ∈ level_blocks (levels s) ->
  journal_index o < MAX_BLOCKS_PER_LEVEL /\ journal_key o = to_journal_key (number_of (hash o)) (journal_index o) /\
  front s <= number_of (hash o) <= u64_MAX.
Proof.
  intros Hv (i & l & Hi & Ho)%elem_of_level_blocks. pose proof (v_levels s Hv i l Hi) as Hl.
  pose proof (v_height s Hv) as Hh. apply lookup_lt_Some in Hi.
  rewrite (level_number _ _ Hl o Ho). split_and!; [by apply (level_bound _ _ Hl)|by apply (level_keys _ _ Hl)|lia|lia].
Qed.

Lemma window_unique s o x : valid s -> o ∈ level_blocks (levels s) -> x ∈ level_blocks (levels s) -> hash o = hash x -> o = x.
Proof.
  intros Hv (a & Ha)%list_elem_of_lookup (b & Hb)%list_elem_of_lookup Heq.
  pose proof (acc_nodup _ _ (v_accounted s Hv)) as Hnd. change (NoDup (hash <$> level_blocks (levels s))) in Hnd.
  assert (a = b) as ->; [|congruence]. eapply NoDup_lookup; [exact Hnd|by rewrite list_lookup_fmap, Ha|].
  by rewrite list_lookup_fmap, Hb; simpl; rewrite Heq.
Qed.

(** Number and index tell the blocks of the window apart. *)
Lemma slot_unique s o o' : valid s -> o ∈ level_blocks (levels s) -> o' ∈ level_blocks (levels s) ->
  number_of (hash o) = number_of (hash o') -> journal_index o = journal_index o' -> o = o'.
Proof.
  intros Hv (i & l & Hi & Ho)%elem_of_level_blocks (i' & l' & Hi' & Ho')%elem_of_level_blocks Hn Hx.
  pose proof (v_levels s Hv i l Hi) as Hl. pose proof (v_levels s Hv i' l' Hi') as Hl'.
  rewrite (level_number _ _ Hl o Ho), (level_number _ _ Hl' o' Ho') in Hn. assert (i' = i) as -> by lia.
  assert (l' = l) as -> by congruence. apply list_elem_of_lookup in Ho as (j & Hj). apply list_elem_of_lookup in Ho' as (j' & Hj').
  pose proof (level_indices _ _ Hl) as Hnd. change (NoDup (journal_index <$> blocks l)) in Hnd.
  assert (j = j') as ->; [|congruence].
  eapply NoDup_lookup; [exact Hnd|by rewrite list_lookup_fmap, Hj|]. by rewrite list_lookup_fmap, Hj', Hx.
Qed.

Lemma slot_some s n i o : valid s ->
  slot s n i = Some o <-> o ∈ level_blocks (levels s) /\ number_of (hash o) = n /\ journal_index o = i.
Proof.
  intros Hv. unfold slot. split.
  - intros [Hin Hb]%find_some. apply andb_true_iff in Hb as [Hn%N.eqb_eq Hi%N.eqb_eq]. by rewrite list_elem_of_In.
  - intros (Ho & Hn & Hi). destruct (find _ _) as [o'|] eqn:Hf.
    + apply find_some in Hf as [Hin Hb]. apply andb_true_iff in Hb as [Hn'%N.eqb_eq Hi'%N.eqb_eq].
      f_equal. apply (slot_unique s); [done|by apply list_elem_of_In|done|congruence|congruence].
    + apply list_elem_of_In in Ho. pose proof (find_none _ _ Hf o Ho) as Hb. simpl in Hb.
      by rewrite Hn, Hi, !N.eqb_refl in Hb.
Qed.

(** ** The operations *)

(** Levels and last canonical block as they were. *)
Lemma journaled_same m s s' : levels s' = levels s -> last_canonicalized s' = last_canonicalized s ->
  journaled m s -> journaled m s'.
Proof.
  intros Hls Hlast [J1 J2 J3]. assert (front s' = front s) as Hf by (unfold front; by rewrite Hlast).
  split; unfold slot; rewrite ?Hlast, ?Hls, ?Hf; done.
Qed.

(** Blocks that go with their entries. *)
Lemma journaled_shrink m m' s s' gone : journaled m s -> valid s -> valid s' -> front s <= front s' ->
  level_blocks (levels s) ≡ₚ gone ++ level_blocks (levels s') ->
  m' !! last_key = encode <$> last_canonicalized s' ->
  (forall n i, m' !! to_journal_key n i =
     if decide (to_journal_key n i ∈ map journal_key gone) then None else m !! to_journal_key n i) ->
  journaled m' s'.
Proof.
  intros [J1 J2 J3] Hv Hv' Hf Hperm Hlast Hm'. split; [done| |].
  2:{ intros o Ho. apply J3. rewrite Hperm. apply elem_of_app. by right. }
  intros n i Hn Hfn Hi. rewrite Hm', J2 by (try done; lia).
  assert (i <= u64_MAX) as Hi64 by (unfold MAX_BLOCKS_PER_LEVEL, u64_MAX in *; lia).
  assert (forall o, o ∈ gone -> o ∈ level_blocks (levels s)) as Hsub by (intros o Ho; rewrite Hperm; apply elem_of_app; by left).
  destruct (decide _) as [(o & Hk & Ho)%list_elem_of_fmap|Hno].
  - destruct (window_block s o Hv (Hsub o Ho)) as (Hoi & Hok & Hon). rewrite Hok in Hk.
    apply to_journal_key_inj in Hk as [Hkn Hki]; [|lia|done|lia|unfold MAX_BLOCKS_PER_LEVEL, u64_MAX in *; lia].
    destruct (slot s' n i) as [o'|] eqn:Hs'; [|done]. apply slot_some in Hs' as (Ho' & Hn' & Hi'); [|done].
    pose proof (acc_nodup _ _ (v_accounted s Hv)) as Hnd. rewrite Hperm, map_app in Hnd. apply NoDup_app in Hnd as (_ & Hdis & _).
    destruct (Hdis (hash o)); [by apply list_elem_of_fmap_2|].
    assert (o = o') as ->; [|by apply list_elem_of_fmap_2].
    apply (slot_unique s); [done|by apply Hsub|rewrite Hperm; apply elem_of_app; by right|congruence|congruence].
  - f_equal. apply option_eq. intros o. rewrite !slot_some by done. rewrite Hperm, elem_of_app. split; [|naive_solver].
    intros ([Ho|Ho] & <- & <-); [|done]. exfalso. apply Hno.
    destruct (window_block s o Hv (Hsub o Ho)) as (_ & Hok & _). rewrite <- Hok. by apply list_elem_of_fmap_2.
Qed.

Lemma journaled_canonicalized m s s' h l ls index o js c : journaled m s -> valid s -> levels s = l :: ls ->
  blocks l !! index = Some o -> hash o = h -> last_canonicalized s' = Some (h, front s) -> front s < u64_MAX ->
  canonicalizing (front s) h (blocks l) [] (popped_state h ls s) (set_last_canonicalized (last_canonicalized s) s') js ->
  cs_inserted c = [(last_key, encode (h, front s))] -> cs_deleted c = js -> journaled (apply_changes c m) s'.
Proof.
  intros Hj Hv Hls Hi Hh Hlast Hf Hc Hins Hdel. pose proof (canonicalized_valid Hv Hls Hi Hh Hlast Hc Hf) as Hv'.
  pose proof (canonicalized_levels Hv Hls Hi Hh Hc) as Hl. pose proof (canonicalized_journals Hv Hls Hi Hh Hc) as Hjs.
  destruct c as [ins del]. simpl in Hins, Hdel. subst ins del.
  apply (journaled_shrink m _ s s' (blocks l ++ spared h (level_blocks ls))); [done|done|done| | | |].
  - unfold front at 2. rewrite Hlast. lia.
  - rewrite Hls. unfold level_blocks at 1 3. rewrite Hl. unfold above. rewrite <- filter_concat. simpl.
    rewrite <- app_assoc. apply Permutation_app_head. rewrite Permutation_app_comm. symmetry. apply partition_perm.
  - rewrite Hlast. apply (apply_changes_last []). rewrite Hjs. intros (x & Hx & Hin)%list_elem_of_fmap.
    assert (x ∈ level_blocks (levels s)) as Hw.
    { rewrite Hls. unfold level_blocks. simpl. rewrite !elem_of_app in *. destruct Hin as [|Hin%elem_of_filter_true]; [by left|right; tauto]. }
    destruct (window_block s x Hv Hw) as (_ & Hk & _). rewrite Hk in Hx. by symmetry in Hx; apply journal_not_last in Hx.
  - intros n i. rewrite apply_changes_other by (simpl; intros Hx%list_elem_of_singleton; by apply journal_not_last in Hx). simpl.
    apply decide_ext. by rewrite Hjs.
Qed.

Lemma journaled_deletes m s s' gone : journaled m s -> valid s -> valid s' ->
  last_canonicalized s' = last_canonicalized s -> level_blocks (levels s) ≡ₚ gone ++ level_blocks (levels s') ->
  journaled (apply_changes (mkChangeSet [] (map journal_key gone)) m) s'.
Proof.
  intros Hj Hv Hv' Hlast Hperm. apply (journaled_shrink m _ s s' gone); [done..| |done| |].
  - unfold front. by rewrite Hlast.
  - rewrite apply_changes_other by apply not_elem_of_nil. simpl. rewrite decide_False; [rewrite Hlast; apply Hj|].
    intros (x & Hx & Hin)%list_elem_of_fmap. destruct (window_block s x Hv) as (_ & Hk & _).
    { rewrite Hperm. apply elem_of_app. by left. } rewrite Hk in Hx. by symmetry in Hx; apply journal_not_last in Hx.
  - intros n i. by rewrite apply_changes_other by apply not_elem_of_nil.
Qed.

(** A new block, with its entry. *)
Lemma journaled_grow m s s' o (kvs : list (bytes * DBValue)) :
  journaled m s -> valid s -> valid s' -> level_blocks (levels s') ≡ₚ o :: level_blocks (levels s) -> front s <= front s' ->
  coherent [] (cs_inserted (changes_of (hash o))) ->
  apply_changes (mkChangeSet kvs []) m !! last_key = encode <$> last_canonicalized s' ->
  (forall n i, to_journal_key n i ∉ kvs.*1) ->
  journaled (apply_changes (mkChangeSet (kvs ++ [(journal_key o, encode (record_of (hash o)))]) []) m) s'.
Proof.
  intros [J1 J2 J3] Hv Hv' Hperm Hf Hco Hlast Hkvs.
  assert (o ∈ level_blocks (levels s')) as Ho by (rewrite Hperm; by left).
  destruct (window_block s' o Hv' Ho) as (Hoi & Hk & Hon). rewrite Hk. split.
  - rewrite apply_changes_skip; [done|]. intros Hx. by symmetry in Hx; apply journal_not_last in Hx.
  - intros n i Hn Hfn Hi. destruct (decide (to_journal_key n i = to_journal_key (number_of (hash o)) (journal_index o))) as [Heq|Hne].
    + apply to_journal_key_inj in Heq as [-> ->]; [|unfold MAX_BLOCKS_PER_LEVEL, u64_MAX in *; lia..].
      rewrite apply_changes_last by apply not_elem_of_nil. by rewrite (proj2 (slot_some s' _ _ o Hv')).
    + rewrite apply_changes_skip by done. rewrite apply_changes_other by apply Hkvs. cbn [cs_deleted]. rewrite decide_False by apply not_elem_of_nil.
      rewrite J2 by (try done; lia). f_equal. apply option_eq. intros x. rewrite !slot_some by done.
      rewrite Hperm, elem_of_cons. split; [naive_solver|]. intros ([->|Hx] & <- & <-); [done|done].
  - intros x. rewrite Hperm. intros [->|Hx]%elem_of_cons; [done|by apply J3].
Qed.

Lemma journaled_inserted m s h s1 ins s2 i l l' vs : journaled m s -> valid s -> insertable s h ->
  placed s h s1 ins -> with_level s s1 s2 -> levels s2 !! i = Some l -> blocks l' = blocks l ++ [new_block h l] ->
  valid (with_block s2 i l' (new_block h l) vs) ->
  journaled (apply_changes (meta (insert_commit ins h l)) m) (with_block s2 i l' (new_block h l) vs).
Proof.
  intros Hj Hv Hins Hp Hs2 Hl Hb Hv'. destruct (with_level_fields _ _ _ _ _ Hp Hs2) as (_ & Hf & Hlast & _ & Hlb).
  apply (journaled_grow m s); [done..| | |apply Hins| |].
  - simpl. rewrite (level_blocks_insert _ i l l' _ Hl Hb). by rewrite Hlb.
  - change (front (with_block _ _ _ _ _)) with (front s2). rewrite Hf.
    destruct Hp as [Hn _ _| | |]; [|done..]. unfold front at 1. rewrite Hn. lia.
  - simpl. rewrite Hlast. destruct Hp as [Hn _ _|Hn _|n Hn _|n p Hn _ _ _]; [apply (apply_changes_last []), not_elem_of_nil|apply Hj..].
  - intros n x Hx. destruct Hp as [Hn _ _| | |]; simpl in Hx; [|by apply not_elem_of_nil in Hx..].
    apply list_elem_of_singleton in Hx. by apply journal_not_last in Hx.
Qed.

(** ** Opening again *)

(** The blocks of a level, none above the top. *)
Definition level_at s (i : nat) : list block := default [] (blocks <$> levels s !! i).

Lemma level_at_elem s i o : valid s ->
  o ∈ level_at s i <-> o ∈ level_blocks (levels s) /\ number_of (hash o) = front s + N.of_nat i.
Proof.
  intros Hv. unfold level_at. rewrite elem_of_level_blocks. split.
  - destruct (levels s !! i) as [l|] eqn:Hl; simpl; [|by intros ?%elem_of_nil]. intros Ho.
    split; [by exists i, l|]. by apply (level_number _ _ (v_levels s Hv i l Hl)).
  - intros [(j & l & Hl & Ho) Hn]. rewrite (level_number _ _ (v_levels s Hv j l Hl) o Ho) in Hn.
    assert (j = i) as -> by lia. by rewrite Hl.
Qed.

Lemma level_at_nodup s i : valid s -> NoDup (level_at s i).
Proof.
  intros Hv. unfold level_at. destruct (levels s !! i) as [l|] eqn:Hl; simpl; [|constructor].
  eapply NoDup_fmap_1, (level_hashes _ _ (v_levels s Hv i l Hl)).
Qed.

(** There is no gap in the levels. *)
Lemma level_at_empty s i j : valid s -> level_at s i = [] -> (i <= j)%nat -> level_at s j = [].
Proof.
  intros Hv Hi Hle. induction Hle as [|j Hle IH]; [done|]. unfold level_at in *.
  destruct (levels s !! S j) as [l'|] eqn:Hl'; [simpl|done]. destruct (blocks l') as [|o bs] eqn:Hb; [done|].
  destruct (lookup_lt_is_Some_2 (levels s) j) as [l Hl]; [apply lookup_lt_Some in Hl'; lia|].
  pose proof (v_linked s Hv j l l' o Hl Hl' ltac:(rewrite Hb; by left)) as Hp. rewrite Hl in IH. simpl in IH.
  rewrite IH in Hp. by apply elem_of_nil in Hp.
Qed.

Definition no_overlay (last : option (B * N)) : overlay := mkOverlay last [] ∅ ∅ ∅ ∅ [].

Lemma empty_accounted last : accounted [] (no_overlay last).
Proof.
  split; simpl; try done; [constructor|by intros o ?%elem_of_nil|]. intros h [x Hx]. by rewrite lookup_empty in Hx.
Qed.

Lemma empty_valid : valid (no_overlay None).
Proof.
  split; try done; try (by intros i l ?); [by simpl; lia|apply empty_accounted].
Qed.

(** The overlay [s] opened again: the window, without the pins. *)
Record reopened s s' : Prop := {
  ro_valid : valid s';
  ro_last : last_canonicalized s' = last_canonicalized s;
  ro_levels i : level_at s' i ≡ₚ match last_canonicalized s with Some _ => level_at s i | None => [] end;
  ro_pinned : pinned s' = ∅ /\ pinned_insertions s' = ∅ /\ pinned_canonincalized s' = []
}.

Section reopen.
Context {DE : Type} {db : Database DE} {s : overlay}.
Context (Hv : valid s) (Hj : journaled (entries db) s) (Hdb : forall k, failing db k = None).
Notation W := (level_blocks (levels s)).

(** An overlay that has read the blocks [bs]. *)
Record reading (bs : list block) (t : overlay) : Prop := {
  rd_accounted : accounted bs t;
  rd_blocks o : o ∈ bs -> o ∈ W;
  rd_last : last_canonicalized t = last_canonicalized s;
  rd_pinned : pinned t = ∅;
  rd_retained : pinned_insertions t = ∅;
  rd_canonical : pinned_canonincalized t = []
}.

Lemma reading_perm bs bs' t : bs ≡ₚ bs' -> reading bs t -> reading bs' t.
Proof. intros Hp [R1 R2 R3 R4 R5 R6]. split; [by rewrite <- Hp|intros o; rewrite <- Hp; apply R2|done..]. Qed.

(** Every block has its own entry. *)
Lemma reading_entries bs t : 0 < front s -> reading bs t -> (length bs <= size (entries db))%nat.
Proof.
  intros Hf [R1 R2 _ _ _ _]. assert (NoDup (map journal_key bs)) as Hnd.
  { apply NoDup_fmap_2_strong; [|eapply NoDup_fmap_1, (acc_nodup _ _ R1)]. intros x y Hx%R2 Hy%R2 Heq.
    destruct (window_block s x Hv Hx) as (Hi & Hk & Hn), (window_block s y Hv Hy) as (Hi' & Hk' & Hn'). rewrite Hk, Hk' in Heq.
    apply to_journal_key_inj in Heq as [? ?]; [by apply (slot_unique s)|unfold MAX_BLOCKS_PER_LEVEL, u64_MAX in *; lia..]. }
  rewrite <- (length_map journal_key), <- size_dom, <- (size_list_to_set (C := gset bytes) _ Hnd).
  apply subseteq_size. intros k (o & -> & Ho%R2)%elem_of_list_to_set%list_elem_of_fmap. apply elem_of_dom.
  destruct (window_block s o Hv Ho) as (Hi & Hk & Hn). rewrite Hk, (jn_slot _ _ Hj) by (try done; lia).
  by rewrite (proj2 (slot_some s _ _ o Hv)).
Qed.

Lemma reading_cons o bs t vs : reading bs t -> o ∈ W -> hash o ∉ map hash bs ->
  counted node (inserted o ++ block_keys bs ++ retained_keys t) vs ->
  N.of_nat (length (inserted o) + length (block_keys bs ++ retained_keys t)) <= u32_MAX ->
  reading (o :: bs) (set_parents (<[hash o := parent_of (hash o)]> (parents t)) (set_values vs t)).
Proof.
  intros [R1 R2 R3 R4 R5 R6] Ho Hnew Hc Hb. pose proof (v_accounted s Hv) as Hacc.
  split; [|by intros x [->|Hx]%elem_of_cons; auto|done..].
  eapply accounted_ext; [..|apply (accounted_cons bs t o vs)]; try done; [by rewrite R5|by apply (acc_inserted _ _ Hacc)|].
  apply (acc_real _ _ Hacc). rewrite (acc_head_parent _ _ o Hacc Ho). by eexists.
Qed.

(** The room for the keys of one more block. *)
Lemma reading_room o bs t : reading bs t -> o ∈ W -> hash o ∉ map hash bs ->
  N.of_nat (length (inserted o) + length (block_keys bs ++ retained_keys t)) <= u32_MAX.
Proof.
  intros [R1 R2 _ _ R5 _] Ho Hnew. unfold retained_keys. rewrite R5, map_to_list_empty, app_nil_r.
  pose proof (acc_keys _ _ (v_accounted s Hv)) as Hk. destruct (submseteq_Permutation (o :: bs) W) as [rest Hp].
  - apply NoDup_submseteq; [|by intros x [->|Hx]%elem_of_cons; auto]. apply (NoDup_fmap_1 hash). simpl.
    apply NoDup_cons. split; [done|apply R1].
  - assert (block_keys W ≡ₚ block_keys ((o :: bs) ++ rest)) as Hkp by (unfold block_keys; by rewrite Hp).
    rewrite Hkp in Hk. unfold block_keys in *. rewrite map_app, concat_app in Hk. simpl in Hk. rewrite !length_app in Hk. lia.
Qed.

(** The block that an entry of the journal makes. *)
Lemma slot_block n i o : slot s n i = Some o ->
  mkBlockOverlay (jr_hash (record_of (hash o))) i (to_journal_key n i)
    (jr_inserted (record_of (hash o))).*1 (jr_deleted (record_of (hash o))) = o.
Proof.
  intros (Ho & <- & <-)%slot_some; [|done]. destruct (window_block s o Hv Ho) as (_ & Hk & _).
  destruct (acc_inserted _ _ (v_accounted s Hv) o Ho) as [Hi Hd]. simpl. rewrite <- Hk, <- Hd.
  change ((cs_inserted (changes_of (hash o))).*1) with (keys_of (hash o)). rewrite <- Hi. by destruct o.
Qed.

Lemma read_journal_ok n i l bs t : 0 < n <= u64_MAX -> front s <= n -> i < MAX_BLOCKS_PER_LEVEL ->
  level_ok n l -> i ∉ map journal_index (blocks l) -> reading (bs ++ blocks l) t ->
  (forall o, o ∈ bs -> number_of (hash o) <> n) ->
  exists t' l', read_journal (CE := CE) db n i l t = (t', Ok l') /\ levels t' = levels t /\ level_ok n l' /\
    blocks l' = blocks l ++ option_list (slot s n i) /\ reading (bs ++ blocks l') t'.
Proof.
  intros Hn Hf Hi Hl Hnew Hrd Hbs. unfold read_journal, get_meta. rewrite Hdb, (bindM_lift _ _ _ _ eq_refl).
  rewrite (jn_slot _ _ Hj) by done. destruct (slot s n i) as [o|] eqn:Hs; cbn [fmap option_fmap option_map option_list].
  2:{ exists t, l. by rewrite app_nil_r. }
  pose proof (slot_block n i o Hs) as Hblock. apply slot_some in Hs as (Ho & Hno & Hio); [|done].
  unfold decoded. rewrite decode_encode by done. rewrite (bindM_lift _ _ _ _ eq_refl).
  assert (hash o ∉ map hash (bs ++ blocks l)) as Hfresh.
  { intros (x & Heq & Hx)%list_elem_of_fmap. assert (o = x) as <-.
    { apply (window_unique s); [done|done|by apply (rd_blocks _ _ Hrd)|done]. }
    apply elem_of_app in Hx as [Hx|Hx]; [by apply (Hbs o)|]. apply Hnew. rewrite <- Hio. by apply list_elem_of_fmap_2. }
  rewrite Hblock. pose proof (reading_room o _ t Hrd Ho Hfresh) as Hroom.
  pose proof (acc_inserted _ _ (v_accounted s Hv) o Ho) as [Hins _].
  assert (length (inserted o) = length (cs_inserted (changes_of (hash o)))) as Hlen by (rewrite Hins; apply length_fmap).
  destruct (insert_values_ok (E := Error CE DE) (cs_inserted (changes_of (hash o))) [] (block_keys (bs ++ blocks l) ++ retained_keys t) t)
    as (vs & Hrun & Hc); [apply (rd_accounted _ _ Hrd)|by apply Hj|by intros k ?%elem_of_nil|lia|].
  fold (keys_of (hash o)) in Hc. rewrite <- Hins in Hc. cbn [jr_inserted record_of]. step_with Hrun.
  destruct (window_block s o Hv Ho) as (Hbi & Hk & _). rewrite Hno in Hk.
  destruct (level_push_ok (E := Error CE DE) n l o Hl) as (l' & Hpush & Hb & Hl'); [|by rewrite Hio|done|done|done|].
  { intros Hx. apply Hfresh. rewrite map_app. apply elem_of_app. by right. }
  step_with Hpush. run_steps. eexists _, l'. split; [done|]. split_and!; [done|done|done|].
  eapply reading_perm; [|by apply (reading_cons o _ t vs Hrd)]. rewrite Hb, app_assoc. apply Permutation_cons_append.
Qed.

Lemma read_level_ok n bs t xs l : 0 < n <= u64_MAX -> front s <= n -> (forall i, i ∈ xs -> i < MAX_BLOCKS_PER_LEVEL) ->
  NoDup xs -> level_ok n l -> (forall i, i ∈ xs -> i ∉ map journal_index (blocks l)) -> reading (bs ++ blocks l) t ->
  (forall o, o ∈ bs -> number_of (hash o) <> n) ->
  exists t' l', for_fold (read_journal (CE := CE) db n) xs l t = (t', Ok l') /\ levels t' = levels t /\ level_ok n l' /\
    blocks l' = blocks l ++ omap (slot s n) xs /\ reading (bs ++ blocks l') t'.
Proof.
  intros Hn Hf. revert l t. induction xs as [|i xs IH]; intros l t Hxs Hnd Hl Hnew Hrd Hbs.
  { exists t, l. simpl. by rewrite app_nil_r. }
  apply NoDup_cons in Hnd as [Hix Hnd].
  destruct (read_journal_ok n i l bs t Hn Hf (Hxs i ltac:(by left)) Hl (Hnew i ltac:(by left)) Hrd Hbs) as (t1 & l1 & Hrun & Hls & Hl1 & Hb1 & Hrd1).
  destruct (IH l1 t1) as (t2 & l2 & Hrun2 & Hls2 & Hl2 & Hb2 & Hrd2); [by intros; apply Hxs; right|done|done| |done|done|].
  { intros j Hj'. rewrite Hb1, map_app, elem_of_app. intros [Hx|Hx]; [by apply (Hnew j ltac:(by right))|].
    destruct (slot s n i) as [o|] eqn:Hs; simpl in Hx; [|by apply elem_of_nil in Hx]. apply list_elem_of_singleton in Hx.
    apply slot_some in Hs as (_ & _ & Hio); [|done]. congruence. }
  exists t2, l2. cbn [for_fold]. step_with Hrun. split_and!; [done|congruence|done| |done].
  rewrite Hb2, Hb1, <- app_assoc. simpl. by destruct (slot s n i).
Qed.

Lemma read_new_level_ok n bs t xs : 0 < n <= u64_MAX -> front s <= n -> (forall i, i ∈ xs -> i < MAX_BLOCKS_PER_LEVEL) ->
  NoDup xs -> reading bs t -> (forall o, o ∈ bs -> number_of (hash o) <> n) ->
  exists t' l', for_fold (read_journal (CE := CE) db n) xs new_level t = (t', Ok l') /\ levels t' = levels t /\ level_ok n l' /\
    blocks l' = omap (slot s n) xs /\ reading (bs ++ blocks l') t'.
Proof.
  intros Hn Hf Hxs Hnd Hrd Hbs.
  apply (read_level_ok n bs t xs new_level); try done; [apply new_level_ok|by intros i _ ?%elem_of_nil|by rewrite app_nil_r].
Qed.

Lemma indices_nodup : NoDup indices.
Proof. apply (NoDup_fmap_2 N.of_nat), NoDup_seq. Qed.

Lemma indices_elem i : i ∈ indices <-> i < MAX_BLOCKS_PER_LEVEL.
Proof.
  unfold indices. rewrite list_elem_of_fmap. setoid_rewrite elem_of_seq. split; [intros (k & -> & Hk); lia|].
  intros Hi. exists (N.to_nat i). lia.
Qed.

(** The journal entries of one number are those of the level. *)
Lemma slots_level j : omap (slot s (front s + N.of_nat j)) indices ≡ₚ level_at s j.
Proof.
  apply NoDup_Permutation.
  - assert (forall xs, NoDup xs -> NoDup (omap (slot s (front s + N.of_nat j)) xs)) as Hgo.
    { induction xs as [|i xs IH]; intros Hnd; [constructor|]. apply NoDup_cons in Hnd as [Hi Hnd]. simpl.
      destruct (slot s _ i) as [o|] eqn:Hs; [|by apply IH]. apply NoDup_cons. split; [|by apply IH].
      intros (i' & Hi' & Hs')%list_elem_of_omap. apply slot_some in Hs as (_ & _ & <-); [|done].
      apply slot_some in Hs' as (_ & _ & <-); done. }
    apply Hgo, indices_nodup.
  - by apply level_at_nodup.
  - intros o. rewrite level_at_elem, list_elem_of_omap by done. setoid_rewrite indices_elem. split.
    + by intros (i & _ & (Ho & Hn & _)%slot_some).
    + intros [Ho Hn]. exists (journal_index o). split; [by apply (window_block s o Hv Ho)|]. by apply slot_some.
Qed.

(** What the levels that were read are, so far. *)
Record read_so_far (n : N) (t : overlay) : Prop := {
  rs_number : n = front s + N.of_nat (length (levels t));
  rs_reading : reading (level_blocks (levels t)) t;
  rs_levels : levels_ok (front s) (levels t);
  rs_blocks i l : levels t !! i = Some l -> blocks l ≡ₚ level_at s i /\ blocks l <> []
}.

Lemma level_blocks_snoc (ls : list level) l : level_blocks (ls ++ [l]) = level_blocks ls ++ blocks l.
Proof. unfold level_blocks. rewrite map_app, concat_app. simpl. by rewrite app_nil_r. Qed.

Lemma level_blocks_length (ls : list level) : (forall i l, ls !! i = Some l -> blocks l <> []) -> (length ls <= length (level_blocks ls))%nat.
Proof.
  induction ls as [|l ls IH]; intros Hne; [simpl; lia|]. unfold level_blocks in *. simpl. rewrite length_app.
  specialize (IH (fun i l' Hi => Hne (S i) l' Hi)). specialize (Hne 0%nat l eq_refl). destruct (blocks l); [done|simpl; lia].
Qed.

(** A level that is read is one of the window, with a number that fits. *)
Lemma read_number n t : read_so_far n t -> n <= u64_MAX.
Proof.
  intros [-> _ _ Hb]. pose proof (v_height s Hv) as Hh. assert (length (levels t) <= length (levels s))%nat; [|lia].
  destruct (length (levels t)) as [|k] eqn:Hk; [lia|]. destruct (lookup_lt_is_Some_2 (levels t) k) as [l Hl]; [lia|].
  destruct (Hb k l Hl) as [Hp Hne]. unfold level_at in Hp. destruct (levels s !! k) as [l'|] eqn:Hl'.
  - apply lookup_lt_Some in Hl'. lia.
  - simpl in Hp. apply Permutation_nil_r in Hp. done.
Qed.

Lemma read_snoc n t t' l : read_so_far n t -> levels t' = levels t -> level_ok n l -> blocks l ≡ₚ level_at s (length (levels t)) ->
  blocks l <> [] -> reading (level_blocks (levels t) ++ blocks l) t' ->
  read_so_far (n + 1) (set_levels (levels t' ++ [l]) t').
Proof.
  intros [Hn Hrd Hlv Hb] Hls Hl Hp Hne Hrd'. rewrite Hls. split; simpl.
  - rewrite length_app. simpl. lia.
  - rewrite level_blocks_snoc. destruct Hrd' as [R1 R2 R3 R4 R5 R6]. split; try done. by eapply accounted_ext; [..|exact R1].
  - intros i l' [Hi|[Hge Hi]]%lookup_app_Some; [by apply Hlv|]. apply list_lookup_singleton_Some in Hi as [Hz <-].
    by replace i with (length (levels t)) by lia; rewrite <- Hn.
  - intros i l' [Hi|[Hge Hi]]%lookup_app_Some; [by apply Hb|]. apply list_lookup_singleton_Some in Hi as [Hz <-].
    by replace i with (length (levels t)) by lia.
Qed.

Lemma read_levels_ok : 0 < front s ->
  exists t, read_levels (CE := CE) db (front s) (no_overlay (last_canonicalized s)) = (t, Ok tt) /\
    exists n, read_so_far n t /\ level_at s (length (levels t)) = [].
Proof.
  intros Hf. unfold read_levels.
  enough (postM (read_levels (CE := CE) db (front s)) (no_overlay (last_canonicalized s))
    (fun _ t => exists n, read_so_far n t /\ level_at s (length (levels t)) = []) (fun _ _ => False)) as Hpost.
  { apply postM_returns in Hpost as (t & [] & Hrun & Ht). by exists t. }
  apply (loopM_post _ read_so_far (fun _ t => size (entries db) - length (levels t))%nat); [| |simpl; lia].
  - intros n t Hso. pose proof (read_number n t Hso) as Hmax. pose proof Hso as [Hn Hrd Hlv Hb].
    destruct (read_new_level_ok n (level_blocks (levels t)) t indices) as (t' & l & Hrun & Hls & Hl & Hbl & Hrd');
      [lia|lia|by intros i ?%indices_elem|apply indices_nodup|done| |].
    { intros o (i & m & Hi & Ho)%elem_of_level_blocks. rewrite (level_number _ _ (Hlv i m Hi) o Ho). apply lookup_lt_Some in Hi. lia. }
    assert (blocks l ≡ₚ level_at s (length (levels t))) as Hp by (rewrite Hbl, Hn; apply slots_level).
    unfold postM. step_with Hrun. destruct (blocks l) as [|o bs] eqn:Hbe.
    + apply Permutation_nil_l in Hp. simpl. exists n. rewrite Hls. split; [|by symmetry].
      rewrite app_nil_r in Hrd'. split; by rewrite ?Hls.
    + assert (blocks l <> []) as Hne by (by rewrite Hbe). rewrite <- Hbe in Hp, Hrd'.
      pose proof (read_snoc n t t' l Hso Hls Hl Hp Hne Hrd') as Hso'. pose proof (read_number _ _ Hso') as Hmax'.
      run_steps. rewrite (bindM_lift _ _ _ (n + 1)) by (by apply add_u64_eq). simpl. split; [done|].
      pose proof (reading_entries _ _ Hf (rs_reading _ _ Hso')) as Hsize.
      pose proof (level_blocks_length _ (fun i l' Hi => proj2 (rs_blocks _ _ Hso' i l' Hi))) as Hlen.
      cbn [levels set_levels] in Hsize, Hlen |- *. rewrite length_app, Hls in Hlen |- *. rewrite Hls in Hsize. simpl in Hlen |- *. lia.
  - split; simpl; [lia| |by intros i l ?|by intros i l ?].
    split; try done; [apply empty_accounted|by intros o ?%elem_of_nil].
Qed.

Lemma read_level_at n t : read_so_far n t -> level_at s (length (levels t)) = [] -> forall i, level_at t i ≡ₚ level_at s i.
Proof.
  intros [_ _ _ Hb] Hend i. unfold level_at at 1. destruct (levels t !! i) as [l|] eqn:Hl; simpl; [by apply Hb|].
  apply lookup_ge_None in Hl. by rewrite (level_at_empty s _ i Hv Hend Hl).
Qed.

Lemma read_valid n t : read_so_far n t -> last_canonicalized s <> None -> valid t.
Proof.
  intros Hso Hsome. pose proof (read_number n t Hso) as Hmax. destruct Hso as [Hn [R1 R2 R3 R4 R5 R6] Hlv Hb].
  assert (front t = front s) as Hf by (unfold front; by rewrite R3).
  assert (forall i l o, levels t !! i = Some l -> o ∈ blocks l -> exists l', levels s !! i = Some l' /\ o ∈ blocks l') as Hto.
  { intros i l o Hi Ho. destruct (Hb i l Hi) as [Hp _]. rewrite Hp in Ho. unfold level_at in Ho.
    destruct (levels s !! i) as [l'|]; simpl in Ho; [by exists l'|by apply elem_of_nil in Ho]. }
  split; rewrite ?Hf, ?R3, ?R4; try done; [|apply (v_last s Hv)| |lia|].
  - intros i l l' o Hi Hi' Ho. destruct (Hto _ _ _ Hi' Ho) as (m' & Hm' & Ho').
    destruct (lookup_lt_is_Some_2 (levels s) i) as [m Hm]; [apply lookup_lt_Some in Hm'; lia|].
    destruct (Hb i l Hi) as [Hp _]. unfold level_at in Hp. rewrite Hm in Hp. simpl in Hp. rewrite Hp.
    by apply (v_linked s Hv i m m').
  - intros h k l o Hlast Hl Ho. destruct (Hto 0%nat l o Hl Ho) as (l' & Hl' & Ho'). by apply (v_root s Hv h k l').
  - pose proof (v_size s Hv) as Hs. assert (length (level_blocks (levels t)) <= length W)%nat; [|lia].
    apply submseteq_length, NoDup_submseteq; [|done]. eapply NoDup_fmap_1, (acc_nodup _ _ R1).
Qed.

Lemma nc_new_ok : exists s', nc_new (CE := CE) db = Ok s' /\ reopened s s' /\ journaled (entries db) s'.
Proof.
  unfold nc_new, get_meta. rewrite Hdb. cbn [bind]. rewrite (jn_last _ _ Hj).
  destruct (last_canonicalized s) as [[c n]|] eqn:Hlast; cbn [fmap option_fmap option_map].
  - assert (front s = n + 1) as Hf by (unfold front; by rewrite Hlast). pose proof (v_height s Hv) as Hh.
    unfold decoded. rewrite decode_encode by (simpl; lia). cbn [bind]. rewrite add_u64_eq by lia. cbn [bind].
    destruct read_levels_ok as (t & Hrun & k & Hso & Hend); [lia|]. unfold no_overlay in Hrun. rewrite Hlast, Hf in Hrun.
    rewrite Hrun. cbn [bind]. exists t. split; [done|].
    assert (valid t) as Hvt by (apply (read_valid k); [done|by rewrite Hlast]).
    pose proof (read_level_at k t Hso Hend) as Hat. destruct (rs_reading _ _ Hso) as [R1 R2 R3 R4 R5 R6].
    assert (front t = front s) as Hft by (unfold front; by rewrite R3).
    assert (forall o, o ∈ level_blocks (levels t) <-> o ∈ W) as Hsame.
    { intros o. split; [apply R2|]. intros (i & l & Hi & Ho)%elem_of_level_blocks.
      assert (o ∈ level_at t i) as Hin by (rewrite Hat; unfold level_at; by rewrite Hi). by apply level_at_elem in Hin as [? _]. }
    split; split; rewrite ?Hlast; try done.
    + congruence.
    + by rewrite (jn_last _ _ Hj), R3.
    + intros x i Hx Hfx Hi. rewrite (jn_slot _ _ Hj) by (try done; lia). f_equal. apply option_eq. intros o.
      rewrite !slot_some by done. by rewrite Hsame.
    + intros o Ho. apply Hj. by apply Hsame.
  - exists (no_overlay None). split; [done|]. split; split; rewrite ?Hlast; try done; try apply empty_valid.
    + by rewrite (jn_last _ _ Hj), Hlast.
    + intros x i Hx _ Hi. rewrite (jn_slot _ _ Hj) by (try done; unfold front; rewrite Hlast; lia).
      destruct (slot s x i) as [o|] eqn:Hs; [|done]. exfalso. apply slot_some in Hs as (Ho & Hn & _); [|done].
      apply elem_of_level_blocks in Ho as (j & l & Hi' & Ho). pose proof (v_genesis s Hv Hlast) as Hg.
      rewrite (level_number _ _ (v_levels s Hv j l Hi') o Ho) in Hn. unfold front in Hn. rewrite Hlast in Hn.
      apply lookup_lt_Some in Hi'. lia.
    + by intros o ?%elem_of_nil.
Qed.
End reopen.
End spec.
