(* ===== verification/Pruning.v ===== *)
(** * The pruning window

    Model of [client/state-db/src/pruning.rs]: for each canonical block of the window, the
    nodes it deleted, to be deleted from the database when the block is pruned. The queue is
    held in memory ([Mem]), or in the database with a cache of its front ([DbBacked]). The
    database handle that a [DbBacked] queue owns is the argument [db] of the operations that
    read it, since its content changes between calls. A [HashSet] is a finite set, iterated in
    the order of [elements], on which nothing depends. Logging is left out. *)

From stdpp Require Import strings.
From S2P Require Import Prelude StateDbTypes NonCanonical.

#[local] Open Scope N_scope.

Definition LAST_PRUNED : bytes := String.list_byte_of_string "last_pruned".
Definition PRUNING_JOURNAL : bytes := String.list_byte_of_string "pruning_journal".

Record DeathRow (B K : Type) `{Countable K} : Type := mkDeathRow {
  dr_hash : B;
  dr_deleted : gset K
}.
Arguments mkDeathRow {B K _ _} _ _.
Arguments dr_hash {B K _ _} _.
Arguments dr_deleted {B K _ _} _.

(** The [JournalRecord] of this file. *)
Record PruningRecord (B K : Type) : Type := mkPruningRecord {
  pr_hash : B;
  pr_inserted : list K;
  pr_deleted : list K
}.
Arguments mkPruningRecord {B K} _ _ _.
Arguments pr_hash {B K} _.
Arguments pr_inserted {B K} _.
Arguments pr_deleted {B K} _.

Inductive DeathRowQueue (B K : Type) `{Countable K} : Type :=
| Mem (death_rows : list (DeathRow B K)) (death_index : gmap K N)
| DbBacked (cache : list (DeathRow B K)) (cache_capacity : nat) (last : option N).
Arguments Mem {B K _ _} _ _.
Arguments DbBacked {B K _ _} _ _ _.

Record RefWindow (B K : Type) `{Countable K} : Type := mkRefWindow {
  queue : DeathRowQueue B K;
  base : N
}.
Arguments mkRefWindow {B K _ _} _ _.
Arguments queue {B K _ _} _.
Arguments base {B K _ _} _.

Section model.
Context {P : Profile} {B K CE DE : Type} `{Countable B, Countable K}.
Context {enc_unit : Encode unit} {enc_u64 : Encode N} {enc_record : Encode (PruningRecord B K)}.
Context {dec_canonical : Decode CE (B * N)} {dec_u64 : Decode CE N}
        {dec_record : Decode CE (PruningRecord B K)}.

Notation row := (DeathRow B K).
Notation death_queue := (DeathRowQueue B K).
Notation window := (RefWindow B K).
Notation error := (Error CE DE).

Definition pruning_journal_key (block : N) : bytes := to_meta_key PRUNING_JOURNAL block.

(** ** The queue *)

Definition row_of (r : PruningRecord B K) : row := mkDeathRow (pr_hash r) (list_to_set (pr_deleted r)).

Definition load_death_row_from_db (db : Database DE) (block : N) : outcome error (option row) :=
  let! found := get_meta db (pruning_journal_key block) in
  match found with
  | Some r => let! r := decoded r in Ok (Some (row_of r))
  | None => Ok None
  end.

(** The rows from [start + i] for the [i] of a list, until one is missing. *)
Fixpoint load_rows (db : Database DE) (start : N) (offsets : list N) : M (list row) error unit :=
  match offsets with
  | [] => ret tt
  | i :: offsets =>
      let* n := lift (add_u64 start i) in
      let* found := lift (load_death_row_from_db db n) in
      match found with
      | Some r => let* _ := modify_state (fun cache => cache ++ [r]) in load_rows db start offsets
      | None => ret tt
      end
  end.

Definition load_batch_from_db (db : Database DE) (base : N) (cache_capacity : nat)
  : M (list row) error unit :=
  let* cache := get_state in
  let* start := lift (add_u64 base (N.of_nat (length cache))) in
  load_rows db start (map N.of_nat (seq 0 cache_capacity)).

(** A key that is inserted again leaves the row it was to die in. *)
Definition spare_key {E} (base : N) (k : K) (x : list row * gmap K N) : outcome E (list row * gmap K N) :=
  let '(rows, index) := x in
  match index !! k with
  | None => Ok (rows, index)
  | Some block =>
      let! i := sub_u64 block base in
      let! r := expect (rows !! N.to_nat i) in
      Ok (<[N.to_nat i := mkDeathRow (dr_hash r) (dr_deleted r ∖ {[k]})]> rows, delete k index)
  end.

Definition import_mem {E} (base : N) (r : PruningRecord B K) (rows : list row) (index : gmap K N)
  : outcome E (list row * gmap K N) :=
  let! x := foldl (fun x k => let! x := x in spare_key base k x) (Ok (rows, index)) (pr_inserted r) in
  let '(rows, index) := x in
  let! imported_block := add_u64 base (N.of_nat (length rows)) in
  Ok (rows ++ [row_of r], foldl (fun index k => <[k := imported_block]> index) index (pr_deleted r)).

Definition import {E} (base num : N) (r : PruningRecord B K) (q : death_queue) : outcome E death_queue :=
  match q with
  | DbBacked cache cache_capacity _ =>
      let! next := add_u64 base (N.of_nat (length cache)) in
      let cache := if (num =? next) && (length cache <? cache_capacity)%nat
                   then cache ++ [row_of r] else cache in
      Ok (DbBacked cache cache_capacity (Some num))
  | Mem rows index =>
      let! x := import_mem base r rows index in
      Ok (Mem (fst x) (snd x))
  end.

(** The cache of a queue after a load into it, also when the load fails half way. *)
Definition with_cache (db : Database DE) (base : N) (q : death_queue) : death_queue * outcome error unit :=
  match q with
  | DbBacked [] cache_capacity last =>
      let '(cache, r) := load_batch_from_db db base cache_capacity [] in
      (DbBacked cache cache_capacity last, r)
  | _ => (q, Ok tt)
  end.

Definition pop_front (db : Database DE) (base : N) : M death_queue error (option row) :=
  let* _ := with_cache db base in
  let* q := get_state in
  match q with
  | DbBacked cache cache_capacity last =>
      let* _ := put_state (DbBacked (tail cache) cache_capacity last) in
      ret (head cache)
  | Mem [] _ => ret None
  | Mem (r :: rows) index =>
      let* _ := put_state (Mem rows (foldr delete index (elements (dr_deleted r)))) in
      ret (Some r)
  end.

Definition queue_have_block {E} (q : death_queue) (h : B) (index : nat) : outcome E HaveBlock :=
  match q with
  | DbBacked cache _ _ =>
      match cache !! index with
      | Some r => Ok (have_block_from (bool_decide (dr_hash r = h)))
      | None => Ok Maybe
      end
  | Mem rows _ =>
      let! r := expect (rows !! index) in
      Ok (have_block_from (bool_decide (dr_hash r = h)))
  end.

Definition queue_len {E} (base : N) (q : death_queue) : outcome E N :=
  match q with
  | DbBacked _ _ None => Ok 0
  | DbBacked _ _ (Some l) => let! x := add_u64 l 1 in sub_u64 x base
  | Mem rows _ => Ok (N.of_nat (length rows))
  end.

Definition new_mem (db : Database DE) (base : N) : outcome error death_queue :=
  loop (S (size (entries db))) (fun '(block, q) =>
    let! found := get_meta db (pruning_journal_key block) in
    match found with
    | Some r =>
        let! r := decoded r in
        let! q := import base block r q in
        let! block := add_u64 block 1 in
        Ok (Continue (block, q))
    | None => Ok (Break q)
    end) (base, Mem [] ∅).

Definition new_db_backed (db : Database DE) (base : N) (last : option N) (window_size : N)
  : outcome error death_queue :=
  let cache_capacity := N.to_nat (N.min (N.max window_size 1) DEFAULT_MAX_BLOCK_CONSTRAINT) in
  let '(cache, r) := load_batch_from_db db base cache_capacity [] in
  let! _ := r in
  Ok (DbBacked cache cache_capacity last).

(** ** The window *)

Definition rw_new (db : Database DE) (window_size : N) (count_insertions : bool) : outcome error window :=
  let! buffer := get_meta db (to_meta_key LAST_PRUNED tt) in
  let! base := match buffer with
               | Some buffer => let! n := decoded buffer in add_u64 n 1
               | None => Ok 0
               end in
  let! buffer := get_meta db (to_meta_key LAST_CANONICAL tt) in
  let! last := match buffer with
               | Some buffer => let! x := decoded (T := B * N) buffer in Ok (Some (snd x))
               | None => Ok None
               end in
  let! queue := (if count_insertions then new_mem db base else
    let! _ := match last with
              | Some n => if debug_assertions
                          then let! x := add_u64 n 1 in debug_assert (base <=? x) else Ok tt
              | None => Ok tt
              end in
    new_db_backed db base last window_size) in
  Ok (mkRefWindow queue base).

Definition window_size {E} (w : window) : outcome E N := queue_len (base w) (queue w).

Definition is_empty {E} (w : window) : outcome E bool :=
  let! n := window_size w in Ok (n =? 0).

(** An operation of the queue, on the window. *)
Definition on_queue {A} (m : M death_queue error A) : M window error A := fun w =>
  let '(q, r) := m (queue w) in (mkRefWindow q (base w), r).

Definition next_hash (db : Database DE) : M window error (option B) :=
  let* w := get_state in
  let* _ := on_queue (with_cache db (base w)) in
  let* w := get_state in
  match queue w with
  | DbBacked cache _ _ => ret (dr_hash <$> head cache)
  | Mem rows _ => ret (dr_hash <$> head rows)
  end.

Definition rw_have_block {E} (w : window) (h : B) (number : N) : outcome E HaveBlock :=
  let! outside := (let! e := is_empty w in
    e ||! ((number <? base w) ||!
      (let! size := window_size w in
       let! top := add_u64 (base w) size in Ok (top <=? number)))) in
  if outside : bool then Ok No else
  let! i := sub_u64 number (base w) in
  queue_have_block (queue w) h (N.to_nat i).

Definition prune_one (db : Database DE) (commit : CommitSet K) : M window error (CommitSet K) :=
  let* w := get_state in
  let* pruned := on_queue (pop_front db (base w)) in
  match pruned with
  | Some pruned =>
      let* w := get_state in
      let commit := mkCommitSet
        (mkChangeSet (cs_inserted (data commit)) (cs_deleted (data commit) ++ elements (dr_deleted pruned)))
        (mkChangeSet (cs_inserted (meta commit) ++ [(to_meta_key LAST_PRUNED tt, encode (base w))])
                     (cs_deleted (meta commit) ++ [pruning_journal_key (base w)])) in
      let* b := lift (add_u64 (base w) 1) in
      let* _ := put_state (mkRefWindow (queue w) b) in
      ret commit
  | None => throw (StateDb BlockUnavailable)
  end.

(** The base of the window, moved to the block when nothing was canonicalized before. *)
Definition start_window (number : N) : M window error (list (bytes * DBValue)) :=
  let* w := get_state in
  let* first := lift ((base w =? 0) &&! (let! e := is_empty w in Ok (e && (0 <? number)))) in
  if first then
    let* _ := put_state (mkRefWindow (queue w) number) in
    let* n := lift (sub_u64 number 1) in
    ret [(to_meta_key LAST_PRUNED tt, encode n)]
  else
    let* size := lift (window_size w) in
    let* next := lift (add_u64 (base w) size) in
    if next =? number then ret [] else throw (StateDb InvalidBlockNumber).

Definition note_canonical (h : B) (number : N) (commit : CommitSet K) : M window error (CommitSet K) :=
  let* last_pruned := start_window number in
  let* w := get_state in
  let inserted := match queue w with
                  | Mem _ _ => (cs_inserted (data commit)).*1
                  | DbBacked _ _ _ => []
                  end in
  let r := mkPruningRecord h inserted (cs_deleted (data commit)) in
  let* q := lift (import (base w) number r (queue w)) in
  let* _ := put_state (mkRefWindow q (base w)) in
  ret (mkCommitSet (mkChangeSet (cs_inserted (data commit)) [])
         (mkChangeSet (cs_inserted (meta commit) ++ last_pruned ++ [(pruning_journal_key number, encode r)])
                      (cs_deleted (meta commit)))).
End model.
