(* ===== verification/StateDbExample.v ===== *)
(** * The state database: an example

    A small chain with two branches, and a codec, at which the theorems on the state database are
    applied. A hash is a byte, its high half the number of the block and its low half the branch;
    every block inserts two nodes, one of them shared by the blocks of its number, and deletes the
    nodes of its parent. The codec is not SCALE, whose compact lengths are limited, but has what is asked of it. *)

From stdpp Require Import strings.
From Stdlib Require Import Strings.Byte.
From S2P Require Import Prelude StateDbTypes NonCanonical NonCanonicalCount Pruning.

#[local] Open Scope N_scope.

Definition to_byte (n : N) : byte := default x00 (Byte.of_N (n mod 256)).

Lemma to_byte_ok n : Byte.to_N (to_byte n) = n mod 256.
Proof.
  unfold to_byte. destruct (Byte.of_N (n mod 256)) as [b|] eqn:Hb; [by apply Byte.to_of_N|].
  apply Byte.of_N_None_iff in Hb. pose proof (N.mod_upper_bound n 256). lia.
Qed.

Fixpoint list_of {T} (e : T -> bytes) (l : list T) : bytes :=
  match l with
  | [] => [x00]
  | x :: l => x01 :: e x ++ list_of e l
  end.

(** A parser takes what it reads off the front. *)
Definition parses {T} (e : T -> bytes) (p : bytes -> option (T * bytes)) : Prop :=
  forall x rest, p (e x ++ rest) = Some (x, rest).

Fixpoint parse_list {T} (fuel : nat) (p : bytes -> option (T * bytes)) (b : bytes) : option (list T * bytes) :=
  match fuel, b with
  | S fuel, x01 :: b =>
      match p b with
      | Some (x, b) => match parse_list fuel p b with
                       | Some (l, b) => Some (x :: l, b)
                       | None => None
                       end
      | None => None
      end
  | S _, x00 :: b => Some ([], b)
  | _, _ => None
  end.

Lemma parse_list_ok {T} (e : T -> bytes) p : parses e p ->
  parses (list_of e) (fun b => parse_list (S (length b)) p b).
Proof.
  intros Hp l rest. assert (forall fuel, (length l < fuel)%nat -> parse_list fuel p (list_of e l ++ rest) = Some (l, rest)) as Hgo.
  { induction l as [|x l IH]; intros [|fuel] Hf; simpl in Hf; try lia; [done|]. simpl. rewrite <- app_assoc, Hp, IH by lia. done. }
  apply Hgo. rewrite length_app. assert (length l < length (list_of e l))%nat; [|lia].
  clear Hgo. induction l as [|x l IH]; simpl; [lia|]. rewrite length_app. lia.
Qed.

Definition byte_of (b : byte) : bytes := [b].
Definition parse_byte (b : bytes) : option (byte * bytes) := match b with x :: b => Some (x, b) | [] => None end.

Definition value_of : DBValue -> bytes := list_of byte_of.
Definition parse_value (b : bytes) : option (DBValue * bytes) := parse_list (S (length b)) parse_byte b.

Definition entry_of (kv : byte * DBValue) : bytes := fst kv :: value_of (snd kv).
Definition parse_entry (b : bytes) : option ((byte * DBValue) * bytes) :=
  match b with
  | k :: b => match parse_value b with Some (v, b) => Some ((k, v), b) | None => None end
  | [] => None
  end.

Lemma parse_value_ok : parses value_of parse_value.
Proof. by apply parse_list_ok. Qed.

Lemma parse_entry_ok : parses entry_of parse_entry.
Proof. intros [k v] rest. simpl. by rewrite parse_value_ok. Qed.

(** ** Numbers *)

Fixpoint le (width : nat) (n : N) : bytes :=
  match width with
  | O => []
  | S width => to_byte n :: le width (n / 256)
  end.
Fixpoint of_le (b : bytes) : N :=
  match b with
  | [] => 0
  | x :: b => Byte.to_N x + 256 * of_le b
  end.

Lemma le_length w n : length (le w n) = w.
Proof. revert n. induction w as [|w IH]; intros n; simpl; [done|]. by rewrite IH. Qed.

Lemma of_le_ok w n : n < 256 ^ N.of_nat w -> of_le (le w n) = n.
Proof.
  revert n. induction w as [|w IH]; intros n Hn; [simpl in *; lia|]. cbn [le of_le]. rewrite to_byte_ok, IH.
  - pose proof (N.div_mod n 256). lia.
  - apply N.Div0.div_lt_upper_bound. rewrite Nat2N.inj_succ, N.pow_succ_r' in Hn. lia.
Qed.

#[export] Instance enc_unit : Encode unit := fun _ => [].
#[export] Instance enc_u64 : Encode N := le 8.
#[export] Instance enc_key : Encode (N * N) := fun x => le 8 (fst x) ++ le 8 (snd x).
#[export] Instance enc_canonical : Encode (byte * N) := fun x => fst x :: le 8 (snd x).
#[export] Instance enc_record : Encode (JournalRecord byte byte) := fun r =>
  jr_hash r :: jr_parent_hash r :: list_of entry_of (jr_inserted r) ++ list_of byte_of (jr_deleted r).
#[export] Instance enc_row : Encode (PruningRecord byte byte) := fun r =>
  pr_hash r :: list_of byte_of (pr_inserted r) ++ list_of byte_of (pr_deleted r).

(** The one error of this codec. *)
#[export] Instance dec_u64 : Decode unit N := fun b => inr (of_le b).
#[export] Instance dec_canonical : Decode unit (byte * N) := fun b =>
  match b with h :: b => inr (h, of_le b) | [] => inl tt end.
#[export] Instance dec_record : Decode unit (JournalRecord byte byte) := fun b =>
  match b with
  | h :: p :: b =>
      match parse_list (S (length b)) parse_entry b with
      | Some (ins, b) => match parse_list (S (length b)) parse_byte b with
                         | Some (del, _) => inr (mkJournalRecord h p ins del)
                         | None => inl tt
                         end
      | None => inl tt
      end
  | _ => inl tt
  end.
#[export] Instance dec_row : Decode unit (PruningRecord byte byte) := fun b =>
  match b with
  | h :: b =>
      match parse_list (S (length b)) parse_byte b with
      | Some (ins, b) => match parse_list (S (length b)) parse_byte b with
                         | Some (del, _) => inr (mkPruningRecord h ins del)
                         | None => inl tt
                         end
      | None => inl tt
      end
  | _ => inl tt
  end.

Lemma u64_bound n : n <= u64_MAX -> n < 256 ^ N.of_nat 8.
Proof. change (256 ^ N.of_nat 8) with (u64_MAX + 1). lia. Qed.

#[export] Instance key_codec : KeyCodec enc_unit enc_u64 enc_key.
Proof.
  split; [done|apply le_length| |intros; unfold encode, enc_key; by rewrite length_app, !le_length|].
  - intros n n' Hn Hn' Heq. change (le 8 n = le 8 n') in Heq. rewrite <- (of_le_ok 8 n), <- (of_le_ok 8 n') by by apply u64_bound. by rewrite Heq.
  - intros n i n' i' Hn Hi Hn' Hi' Heq. apply app_inj_1 in Heq as [H1 H2]; [|by rewrite !le_length]. cbn [fst snd] in H1, H2.
    rewrite <- (of_le_ok 8 n), <- (of_le_ok 8 n'), <- (of_le_ok 8 i), <- (of_le_ok 8 i') by by apply u64_bound. by rewrite H1, H2.
Qed.

#[export] Instance rt_u64 : RoundTrip unit N enc_u64 dec_u64 (fun n => n <= u64_MAX).
Proof. intros n Hn. unfold decode, dec_u64, encode, enc_u64. by rewrite of_le_ok by by apply u64_bound. Qed.

#[export] Instance rt_canonical : RoundTrip unit (byte * N) enc_canonical dec_canonical (fun x => snd x <= u64_MAX).
Proof. intros [h n] Hn. unfold decode, dec_canonical, encode, enc_canonical. cbn [fst snd]. by rewrite of_le_ok by by apply u64_bound. Qed.

Lemma parse_bytes_ok : parses (list_of byte_of) (fun b => parse_list (S (length b)) parse_byte b).
Proof. by apply parse_list_ok. Qed.

#[export] Instance rt_record : RoundTrip unit (JournalRecord byte byte) enc_record dec_record (fun _ => True).
Proof.
  intros [h p ins del] _. unfold decode, dec_record, encode, enc_record. cbn [jr_hash jr_parent_hash jr_inserted jr_deleted].
  rewrite (parse_list_ok entry_of parse_entry parse_entry_ok ins). pose proof (parse_bytes_ok del []) as Hd.
  rewrite app_nil_r in Hd. by rewrite Hd.
Qed.

#[export] Instance rt_row : RoundTrip unit (PruningRecord byte byte) enc_row dec_row (fun _ => True).
Proof.
  intros [h ins del] _. unfold decode, dec_row, encode, enc_row. cbn [pr_hash pr_inserted pr_deleted].
  rewrite (parse_bytes_ok ins). pose proof (parse_bytes_ok del []) as Hd. rewrite app_nil_r in Hd. by rewrite Hd.
Qed.

(** ** The chain *)

(** Block [n] of a branch. All branches start from block 0 of branch 0; the parent that
    genesis blocks name is the last hash. *)
Definition block_at (n branch : N) : byte := to_byte (16 * n + branch).

Definition example_number (h : byte) : N := Byte.to_N h / 16.
Definition example_parent (h : byte) : byte :=
  if example_number h =? 0 then xff
  else if example_number h =? 1 then block_at 0 0
  else block_at (example_number h - 1) (Byte.to_N h mod 16).

(** The node of the block, and the one it shares. *)
Definition example_keys (h : byte) : list byte := [h; block_at (example_number h) 15].
Definition example_changes (h : byte) : ChangeSet byte :=
  mkChangeSet (map (fun k => (k, [k])) (example_keys h))
    (if example_number h =? 0 then [] else example_keys (example_parent h)).

Lemma example_number_parent h : example_number h <> 0 -> example_number (example_parent h) + 1 = example_number h.
Proof. destruct h; vm_compute; done. Qed.

#[export] Instance example_chain : Chain byte byte := {|
  number_of := example_number; parent_of := example_parent; changes_of := example_changes; node k := [k];
  number_parent := example_number_parent
|}.

Definition example_db (m : gmap bytes DBValue) : Database unit := mkDatabase m (fun _ => None).
