(* ===== verification/NonCanonicalSpec.v ===== *)
(** * The non-canonical overlay: what it guarantees

    Everything that can happen to an overlay: the blocks of a chain are inserted,
    canonicalized, reverted, removed, pinned and unpinned, the commits are written to the
    database, and the overlay is opened again from what was written. *)

From stdpp Require Import strings.
From S2P Require Import Prelude StateDbTypes NonCanonical NonCanonicalCount NonCanonicalDiscard NonCanonicalOps.
From S2P Require Import NonCanonicalPins NonCanonicalJournal StateDbExample.

#[local] Open Scope N_scope.

Section spec.
Context {P : Profile} {B K CE : Type} `{Countable B, Countable K} {chain : Chain B K}.
Context {enc_unit : Encode unit} {enc_u64 : Encode N} {enc_key : Encode (N * N)} {enc_canonical : Encode (B * N)}
        {enc_record : Encode (JournalRecord B K)}.
Context {dec_canonical : Decode CE (B * N)} {dec_record : Decode CE (JournalRecord B K)}.
Context {keys : KeyCodec enc_unit enc_u64 enc_key}
        {rt_canonical : RoundTrip CE (B * N) enc_canonical dec_canonical (fun x => snd x <= u64_MAX)}
        {rt_record : RoundTrip CE (JournalRecord B K) enc_record dec_record (fun _ => True)}.

Notation overlay := (NonCanonicalOverlay B K).
Notation level := (OverlayLevel B K).
Notation block := (BlockOverlay B K).
Notation metadata := (gmap bytes DBValue).
Notation last_key := (to_meta_key LAST_CANONICAL tt).
Notation window s := (map hash (level_blocks (levels s))).
Implicit Types s : overlay.
Implicit Types m d : metadata.
Implicit Types T : B -> Prop.

(** ** [insert], every branch *)

(** The first check of [insert] that a block fails: of its number and its parent, and of its level. *)
Definition position_error s (h : B) : option (StateDbError CE) :=
  let number := number_of h in
  match last_canonicalized s with
  | Some (c, _) =>
      if (number <? front s) || (front s + N.of_nat (length (levels s)) <? number) then Some InvalidBlockNumber
      else if (number =? front s) && negb (bool_decide (c = parent_of h)) then Some InvalidParent
      else if (front s <? number) && negb (nc_have_block s (parent_of h)) then Some InvalidParent
      else None
  | None => None
  end.

Definition siblings s (h : B) : list block := level_at s (N.to_nat (number_of h - front s)).

Definition insert_error s (h : B) : option (StateDbError CE) :=
  match position_error s h with
  | Some e => Some e
  | None =>
      if MAX_BLOCKS_PER_LEVEL <=? N.of_nat (length (siblings s h)) then Some (TooManySiblingBlocks (number_of h))
      else if bool_decide (h ∈ map hash (siblings s h)) then Some BlockAlreadyExists
      else None
  end.

(** What [insert] leaves to its caller: the first block of all may have any number, but then
    genesis blocks are all it takes until one is canonical; and neither the block nor its parent above the last
    canonical block is one that was discarded and is retained for a pin. *)
Record expected s (h : B) : Prop := {
  ex_insertable : insertable s h;
  ex_first : last_canonicalized s = None -> levels s = [] \/ number_of h = 0;
  ex_retained : pinned_insertions s !! h = None /\ (front s < number_of h -> pinned_insertions s !! parent_of h = None)
}.

Lemma position_placed s h : expected s h -> position_error s h = None ->
  exists s1 ins, placed s h s1 ins /\ (s1 = s \/ levels s = []).
Proof.
  intros [Hins Hfirst [Hret Hpar]] Hpos. unfold position_error in Hpos.
  destruct (last_canonicalized s) as [[c n]|] eqn:Hlast.
  - assert (front s = n + 1) as Hf by (unfold front; by rewrite Hlast). rewrite Hf in Hpos.
    destruct (N.ltb_spec (number_of h) (n + 1)), (N.ltb_spec (n + 1 + N.of_nat (length (levels s))) (number_of h)); try done. simpl in Hpos.
    exists s, []. split; [|by left]. destruct (N.eqb_spec (number_of h) (n + 1)) as [Heq|Hne].
    + destruct (bool_decide_reflect (c = parent_of h)) as [->|]; [|done]. by eapply placed_root.
    + simpl in Hpos. destruct (N.ltb_spec (n + 1) (number_of h)); [|lia]. unfold nc_have_block in Hpos.
      destruct (bool_decide_reflect (is_Some (parents s !! parent_of h))); [|done].
      eapply (placed_child s h n c); [done|lia|done|done|apply Hpar; lia].
  - destruct (decide (number_of h = 0)) as [Hz|Hz].
    + exists s, []. split; [by apply placed_genesis|by left].
    + destruct (Hfirst eq_refl) as [Hls|]; [|done]. eexists _, _. split; [by apply placed_first; [..|lia]|by right].
Qed.

Lemma check_position_error s h e : valid s -> position_error s h = Some e ->
  check_position (CE := CE) (number_of h) (parent_of h) (front s) s = (s, Err e).
Proof.
  intros Hv Herr. unfold position_error in Herr. unfold check_position. run_steps. pose proof (v_height s Hv) as Hh.
  destruct (last_canonicalized s) as [[c n]|] eqn:Hlast; [|done].
  rewrite (bindM_lift _ _ _ ((number_of h <? front s) || (front s + N.of_nat (length (levels s)) <? number_of h))).
  2:{ destruct (number_of h <? front s); simpl; [done|]. by rewrite add_u64_eq. }
  destruct (_ || _); [by injection Herr as <-|].
  destruct (N.eqb_spec (number_of h) (front s)) as [Heq|Hne].
  - destruct (bool_decide (c = parent_of h)); simpl in Herr; [by rewrite Heq, N.ltb_irrefl in Herr|by injection Herr as <-].
  - simpl in Herr. destruct (front s <? number_of h); [|done]. unfold nc_have_block in Herr. simpl in Herr.
    destruct (bool_decide (is_Some (parents s !! parent_of h))); [done|]. by injection Herr as <-.
Qed.

Lemma siblings_level s h o : valid s -> o ∈ siblings s h ->
  exists l, levels s !! N.to_nat (number_of h - front s) = Some l /\ siblings s h = blocks l.
Proof.
  intros Hv Ho. unfold siblings, level_at in *. destruct (levels s !! _) as [l|]; [by exists l|by apply elem_of_nil in Ho].
Qed.

(** The siblings of a block that was placed are where [insert] looks for them. *)
Lemma level_for_siblings {E} s h s1 ins o : valid s -> number_of h < u64_MAX -> placed s h s1 ins -> s1 = s \/ levels s = [] ->
  o ∈ siblings s h -> exists i l, level_for (E := E) (number_of h) (front s) s1 = (s1, Ok (i, l)) /\ blocks l = siblings s h /\ s1 = s.
Proof.
  intros Hv Hmax Hp Hs1 Ho. destruct (siblings_level s h o Hv Ho) as (l & Hl & Hsib). pose proof (lookup_lt_Some _ _ _ Hl) as Hlt.
  assert (s1 = s) as ->. { destruct Hs1 as [|Hls]; [done|]. rewrite Hls in Hlt. simpl in Hlt. lia. }
  destruct (check_position_ok (CE := CE) s s h ins Hv Hmax Hp) as (_ & _ & _ & _ & Hn). pose proof (v_height s Hv) as Hh.
  exists (N.to_nat (number_of h - front s)), l. split; [|done]. unfold level_for. run_steps.
  rewrite (bindM_lift _ _ _ false).
  2:{ rewrite (proj2 (N.eqb_neq _ _)) by lia. cbn [or_else]. rewrite add_u64_eq by lia. cbn [bind]. f_equal. apply N.eqb_neq. lia. }
  rewrite (bindM_lift _ _ _ (number_of h - front s)) by (apply sub_u64_eq; lia). rewrite Hl. done.
Qed.

Lemma nc_insert_error s h e : valid s -> expected s h -> insert_error s h = Some e ->
  nc_insert (CE := CE) h (number_of h) (parent_of h) (changes_of h) s = (s, Err e).
Proof.
  intros Hv Hex Herr. unfold insert_error in Herr. pose proof (v_height s Hv) as Hh. pose proof (ins_number _ _ (ex_insertable _ _ Hex)) as Hmax.
  unfold nc_insert. run_steps. rewrite (bindM_lift _ _ _ (front s)) by (apply front_block_number_ok; lia).
  destruct (position_error s h) as [e'|] eqn:Hpos.
  { injection Herr as <-. by rewrite (bindM_err _ _ _ _ _ (check_position_error s h e' Hv Hpos)). }
  destruct (position_placed s h Hex Hpos) as (s1 & ins & Hp & Hs1).
  destruct (check_position_ok (CE := CE) s s1 h ins Hv Hmax Hp) as (Hcheck & _).
  assert (exists o, o ∈ siblings s h) as (o & Ho).
  { destruct (siblings s h) as [|o sib]; [|exists o; by left]. change (map hash []) with (@nil B) in Herr.
    rewrite (bool_decide_false (h ∈ [])) in Herr by apply not_elem_of_nil. done. }
  destruct (level_for_siblings (E := StateDbError CE) s h s1 ins o Hv Hmax Hp Hs1 Ho) as (i & l & Hfor & Hsib & ->).
  step_with Hcheck. step_with Hfor. cbv iota beta. rewrite Hsib.
  destruct (MAX_BLOCKS_PER_LEVEL <=? _); [by injection Herr as <-|].
  destruct (bool_decide_reflect (h ∈ map hash (siblings s h))) as [(x & -> & Hx)%list_elem_of_fmap|]; [|done]. injection Herr as <-.
  rewrite (proj2 (existsb_true _ _)); [done|]. exists x. by rewrite bool_decide_true.
Qed.

Lemma insert_unknown s h : valid s -> expected s h -> insert_error s h = None -> parents s !! h = None.
Proof.
  intros Hv [_ _ [Hret _]] Herr. unfold insert_error in Herr. destruct (position_error s h); [done|].
  destruct (MAX_BLOCKS_PER_LEVEL <=? _); [done|]. destruct (bool_decide_reflect (h ∈ map hash (siblings s h))) as [|Hnew]; [done|].
  rewrite (acc_parents _ _ (v_accounted s Hv)), decide_False; [done|]. intros [Hw|Hr]; [|rewrite Hret in Hr; by destruct Hr].
  apply Hnew. pose proof (window_number s h Hv Hw). apply list_elem_of_fmap in Hw as (o & -> & Ho).
  apply list_elem_of_fmap_2, level_at_elem; [done|]. split; [done|lia].
Qed.

Lemma nc_insert_returns s h : valid s -> expected s h -> insert_error s h = None ->
  exists s1 ins i l l' s2 vs, nc_insert (CE := CE) h (number_of h) (parent_of h) (changes_of h) s =
      (with_block s2 i l' (new_block h l) vs, Ok (insert_commit ins h l)) /\
    placed s h s1 ins /\ with_level s s1 s2 /\ levels s2 !! i = Some l /\ number_of h = front s1 + N.of_nat i /\
    blocks l' = blocks l ++ [new_block h l] /\ valid (with_block s2 i l' (new_block h l) vs).
Proof.
  intros Hv Hex Herr. pose proof (insert_unknown s h Hv Hex Herr) as Hnew. unfold insert_error in Herr.
  destruct (position_error s h) eqn:Hpos; [done|]. destruct (position_placed s h Hex Hpos) as (s1 & ins & Hp & Hs1).
  destruct (N.leb_spec MAX_BLOCKS_PER_LEVEL (N.of_nat (length (siblings s h)))) as [|Hroom]; [done|].
  destruct (nc_insert_ok (CE := CE) s h s1 ins Hv (ex_insertable _ _ Hex) Hp Hnew) as (i & l & l' & s2 & vs & Hrun & Hs2 & Hl & Hn & Hb & Hv').
  { intros l Hl. destruct Hs1 as [->|Hls]; [|by rewrite Hls in Hl]. unfold siblings, level_at in Hroom. by rewrite Hl in Hroom. }
  by exists s1, ins, i, l, l', s2, vs.
Qed.

(** What the overlay serves after a block was added. *)
Lemma inserted_get s h s1 ins s2 i l l' vs k : valid s -> placed s h s1 ins -> with_level s s1 s2 ->
  levels s2 !! i = Some l -> blocks l' = blocks l ++ [new_block h l] -> valid (with_block s2 i l' (new_block h l) vs) ->
  nc_get (with_block s2 i l' (new_block h l) vs) k = if decide (k ∈ keys_of h) then Some (node k) else nc_get s k.
Proof.
  intros Hv Hp Hs2 Hl Hb Hv'. destruct (with_level_fields _ _ _ _ _ Hp Hs2) as (_ & _ & _ & Hret & Hlb).
  assert (block_keys (level_blocks (levels (with_block s2 i l' (new_block h l) vs))) ≡ₚ keys_of h ++ block_keys (level_blocks (levels s))) as Hk.
  { simpl. unfold block_keys. rewrite (level_blocks_insert _ i l l' _ Hl Hb). simpl. by rewrite Hlb. }
  rewrite !nc_get_ok by done. change (retained_keys (with_block _ _ _ _ _)) with (retained_keys s2). rewrite Hret.
  destruct (decide (k ∈ keys_of h)) as [Hin|Hout].
  - rewrite decide_True; [done|]. rewrite Hk, !elem_of_app. auto.
  - apply decide_ext. rewrite !elem_of_app, Hk, elem_of_app. naive_solver.
Qed.

(** ** Runs *)

Inductive action : Type :=
| Insert (h : B)
| Canonicalize (h : B)
| RevertOne
| Remove (h : B)
| Pin (h : B)
| Unpin (h : B)
| Sync.

(** An operation of the overlay, with the changes to write. *)
Definition perform (a : action) : M overlay (StateDbError CE) (CommitSet K) :=
  match a with
  | Insert h => nc_insert h (number_of h) (parent_of h) (changes_of h)
  | Canonicalize h => let* '(_, c) := nc_canonicalize h empty_commit in ret c
  | RevertOne => let* c := nc_revert_one in ret (default empty_commit c)
  | Remove h => let* c := nc_remove h in ret (default empty_commit c)
  | Pin h => let* _ := nc_pin h in ret empty_commit
  | Unpin h => let* _ := nc_unpin h in ret empty_commit
  | Sync => let* _ := nc_sync in ret empty_commit
  end.

(** What the callers see to. A block to canonicalize is one of the lowest level; what is
    reverted or removed is not a block of [T] that is pinned. *)
Definition allowed T s (a : action) : Prop :=
  match a with
  | Insert h => expected s h
  | Canonicalize h => h ∈ map hash (level_at s 0) /\ pin_count s h < u32_MAX
  | RevertOne => forall l o, last (levels s) = Some l -> o ∈ blocks l -> T (hash o) -> pinned s !! hash o = None
  | Remove h => h ∈ window s -> T h -> pinned s !! h = None
  | Pin h => pinnable s h /\ pin_count s h < u32_MAX
  | Unpin _ | Sync => True
  end.

Definition kept T (m' : metadata) (s' : overlay) : Prop := pins_ok T None s' /\ journaled m' s'.

(** The keys of the metadata that are the overlay's. *)
Definition overlay_key (k : bytes) : Prop := k = last_key \/ exists n i, k = to_journal_key n i.

(** What inserting and dropping blocks does not touch. *)
Record framed s s' (c : CommitSet K) : Prop := {
  fr_keys k : k ∈ (cs_inserted (meta c)).*1 ++ cs_deleted (meta c) -> overlay_key k;
  fr_data : data c = no_changes;
  fr_pinned : pinned s' = pinned s;
  fr_canonical : pinned_canonincalized s' = pinned_canonincalized s
}.

Lemma journal_overlay_key s o : valid s -> o ∈ level_blocks (levels s) -> overlay_key (journal_key o).
Proof. intros Hv Ho. right. destruct (window_block s o Hv Ho) as (_ & -> & _). by eexists _, _. Qed.

Lemma empty_framed s : framed s s empty_commit.
Proof. split; [by intros k ?%elem_of_nil|done..]. Qed.

Lemma insert_kept T s m h : kept T m s -> expected s h ->
  (exists s' c, perform (Insert h) s = (s', Ok c) /\ kept T (apply_changes (meta c) m) s' /\ framed s s' c /\
     (forall x, canonical s x = true -> canonical s' x = true) /\
     last_canonicalized s' = if decide (last_canonicalized s = None /\ number_of h <> 0)
                             then Some (parent_of h, number_of h - 1) else last_canonicalized s) \/
  (exists e, perform (Insert h) s = (s, Err e)).
Proof.
  intros [Hok Hj] Hex. pose proof (pins_valid _ _ _ Hok) as Hv. cbn [perform].
  destruct (insert_error s h) as [e|] eqn:Herr; [right; exists e; by apply nc_insert_error|left].
  destruct (nc_insert_returns s h Hv Hex Herr) as (s1 & ins & i & l & l' & s2 & vs & Hrun & Hp & Hs2 & Hl & _ & Hb & Hv').
  destruct (with_level_fields _ _ _ _ _ Hp Hs2) as (_ & _ & Hlast & _).
  assert (last_canonicalized s2 = if decide (last_canonicalized s = None /\ number_of h <> 0)
    then Some (parent_of h, number_of h - 1) else last_canonicalized s) as Hlast'.
  { rewrite Hlast. by destruct Hp; (rewrite decide_True by (split; [done|lia])) || rewrite decide_False by (intros [? ?]; congruence). }
  eexists _, _. split; [done|]. split; [split; [by eapply inserted_pins|]|split; [|split; [|done]]].
  - eapply journaled_inserted; try done. apply Hex.
  - split; [|done|by destruct Hs2 as [->| ->], Hp|by destruct Hs2 as [->| ->], Hp]. intros k Hk. cbn [insert_commit meta cs_inserted cs_deleted] in Hk.
    rewrite app_nil_r, fmap_app, elem_of_app in Hk. destruct Hk as [Hk| ->%list_elem_of_singleton].
    + left. destruct Hp; simpl in Hk; [by apply list_elem_of_singleton in Hk|by apply elem_of_nil in Hk..].
    + right. by eexists _, _.
  - intros x. unfold canonical. cbn [last_canonicalized with_block set_values set_parents set_levels]. rewrite Hlast'.
    destruct (decide _) as [[-> _]|]; done.
Qed.

Lemma canonicalize_kept T s m h : kept T m s -> h ∈ map hash (level_at s 0) -> pin_count s h < u32_MAX ->
  exists s' c, perform (Canonicalize h) s = (s', Ok c) /\ kept T (apply_changes (meta c) m) s'.
Proof.
  intros [Hok Hj] Hh Hpin. pose proof (pins_valid _ _ _ Hok) as Hv. unfold level_at in Hh.
  destruct (levels s) as [|l ls] eqn:Hls; [by apply elem_of_nil in Hh|]. simpl in Hh.
  apply list_elem_of_fmap in Hh as (o & -> & (index & Hi)%list_elem_of_lookup).
  assert (front s < u64_MAX) as Hf by (pose proof (v_height s Hv) as Hh; rewrite Hls in Hh; simpl in Hh; lia).
  destruct (nc_canonicalize_ok (CE := CE) s (hash o) empty_commit l ls index o Hv Hls Hi eq_refl Hpin Hf) as (s' & js & Hrun & Hlast & Hc).
  eexists _, _. cbn [perform]. step_with Hrun. split; [done|]. split; [by eapply canonicalized_pins|].
  by eapply journaled_canonicalized.
Qed.

Lemma revert_kept T s m : kept T m s -> allowed T s RevertOne ->
  exists s' c, perform RevertOne s = (s', Ok c) /\ kept T (apply_changes (meta c) m) s' /\ framed s s' c /\
    last_canonicalized s' = last_canonicalized s /\ (levels s = [] -> levels s' = []).
Proof.
  intros [Hok Hj] Hal. pose proof (pins_valid _ _ _ Hok) as Hv. cbn [perform]. destruct (last (levels s)) as [l|] eqn:Hl.
  - destruct (nc_revert_one_ok (E := StateDbError CE) s l Hv Hl) as (s' & Hrun & Hls & Hv' & Hlast & Hp & Hpi & Hpc).
    eexists _, _. step_with Hrun. split; [done|].
    assert (level_blocks (levels s) ≡ₚ blocks l ++ level_blocks (levels s')) as Hperm.
    { rewrite Hls. apply last_Some in Hl as (ls & Heq). rewrite Heq, length_app. simpl. rewrite Nat.add_sub, take_app_length.
      rewrite level_blocks_snoc. apply Permutation_app_comm. }
    split; [split; [|by eapply journaled_deletes]|split; [|split; [done|by rewrite Hls; intros ->]]]; [apply (same_pins s); try done|split; try done].
    + intros x. unfold canonical. by rewrite Hlast.
    + intros x Ht [n Hx] (o & -> & Ho)%list_elem_of_fmap. rewrite Hperm in Ho. apply elem_of_app in Ho as [Ho|Ho].
      * by rewrite (Hal l o Hl Ho Ht) in Hx.
      * by apply list_elem_of_fmap_2.
    + intros k (o & -> & Ho)%list_elem_of_fmap. apply (journal_overlay_key s); [done|]. rewrite Hperm. apply elem_of_app. by left.
  - assert (nc_revert_one (E := StateDbError CE) s = (s, Ok None)) as Hrun by (unfold nc_revert_one; run_steps; by rewrite Hl).
    exists s, empty_commit. step_with Hrun. split_and!; try done. apply empty_framed.
Qed.

Lemma remove_kept T s m h : kept T m s -> allowed T s (Remove h) ->
  exists s' c, perform (Remove h) s = (s', Ok c) /\ kept T (apply_changes (meta c) m) s' /\ framed s s' c /\
    last_canonicalized s' = last_canonicalized s /\ (levels s = [] -> levels s' = []).
Proof.
  intros [Hok Hj] Hal. pose proof (pins_valid _ _ _ Hok) as Hv. cbn [perform].
  assert (forall s1, valid s1 -> pins_ok T None s1 -> pins_ok T None (popped_back s1)) as Hback.
  { intros s1 Hv1 Hok1. destruct (popped_back_ok s1 Hv1) as (Hv' & Hlb & _ & Hlast & Hp & Hpi & _).
    apply (same_pins s1); try done; [intros x; unfold canonical; by rewrite Hlast|by rewrite Hlb]. }
  destruct (nc_remove_ok (E := StateDbError CE) h s Hv) as [(_ & Hrun)|[(_ & _ & Hrun)|Hrem]].
  - destruct (popped_back_ok s Hv) as (Hv' & Hlb & _ & Hlast & Hp & _ & Hpc). exists (popped_back s), empty_commit. step_with Hrun.
    split; [done|]. split; [split; [by apply Hback|by apply (journaled_deletes m s _ []); rewrite ?Hlb]|].
    split; [by split; [intros k ?%elem_of_nil|..]|]. split; [done|]. intros Hls. unfold popped_back. by rewrite Hls.
  - exists s, empty_commit. step_with Hrun. split_and!; try done. apply empty_framed.
  - destruct Hrem as (i & l & l' & p & o & s1 & Hi & Hp & <- & Hb & Hl' & Hrun & Hv1 & Hls & Hlast & Hpin & Hpi & Hpc).
    destruct (popped_back_ok s1 Hv1) as (Hv' & Hlb & _ & Hlast' & Hpin' & _ & Hpc'). eexists _, _. step_with Hrun. split; [done|].
    pose proof (level_blocks_delete _ i l l' p o Hi Hp Hb) as Hperm. rewrite <- Hls, <- Hlb in Hperm.
    assert (o ∈ level_blocks (levels s)) as Ho by (rewrite Hperm; by left).
    split; [split|split; [split; [|done|congruence|congruence]|split; [congruence|by intros Hnil; rewrite Hnil in Hi]]].
    + apply Hback; [done|]. apply (same_pins s); try done; [intros x; unfold canonical; by rewrite Hlast|].
      intros x Ht [n Hx] (y & -> & Hy)%list_elem_of_fmap. rewrite Hperm in Hy. rewrite <- Hlb.
      apply elem_of_cons in Hy as [->|Hy]; [|by apply list_elem_of_fmap_2]. simpl in Hal. rewrite Hal in Hx; [done|by apply list_elem_of_fmap_2|done].
    + apply (journaled_deletes m s _ [o]); try done; congruence.
    + intros k ->%list_elem_of_singleton. by apply (journal_overlay_key s).
Qed.

Lemma perform_kept T s m a : kept T m s -> allowed T s a ->
  (exists s' c, perform a s = (s', Ok c) /\ kept T (apply_changes (meta c) m) s') \/ (exists e, perform a s = (s, Err e)).
Proof.
  intros Hk Hal. pose proof Hk as [Hok Hj]. destruct a as [h|h| |h|h|h|]; simpl in Hal.
  - destruct (insert_kept T s m h Hk Hal) as [(s' & c & ? & ? & _)|]; [left; by exists s', c|by right].
  - left. by apply canonicalize_kept; [|apply Hal..].
  - left. destruct (revert_kept T s m Hk Hal) as (s' & c & ? & ? & _). by exists s', c.
  - left. destruct (remove_kept T s m h Hk Hal) as (s' & c & ? & ? & _). by exists s', c.
  - left. destruct Hal as [Hp Hb]. eexists _, _. cbn [perform]. step_with (nc_pin_ok (E := StateDbError CE) h s Hb). split; [done|].
    split; [by apply pinned_pins; [..|lia]|by apply (journaled_same m s)].
  - left. destruct (nc_unpin_ok (E := StateDbError CE) h s Hok) as (s' & Hrun & Hok' & Hlast & Hls & _).
    exists s', empty_commit. cbn [perform]. step_with Hrun. split; [done|]. split; [done|by apply (journaled_same m s)].
  - left. destruct (nc_sync_ok (E := StateDbError CE) s Hok) as (s' & Hrun & Hok' & Hlast & Hls & _).
    exists s', empty_commit. cbn [perform]. step_with Hrun. split; [done|]. split; [done|by apply (journaled_same m s)].
Qed.

(** ** [canonicalize], every branch *)

Definition with_canonical (c : ChangeSet K) (h : B) : ChangeSet K :=
  mkChangeSet (cs_inserted c ++ map (fun k => (k, node k)) (keys_of h)) (cs_deleted c ++ cs_deleted (changes_of h)).

(** What [canonicalize] of a block of the lowest level leaves. *)
Record canonicalized T s (h : B) s' (js : list bytes) : Prop := {
  cd_pins : pins_ok T None s';
  cd_last : last_canonicalized s' = Some (h, front s);
  cd_levels i : level_at s' i = above h (level_at s (S i));
  cd_journals : js ++ map journal_key (level_blocks (levels s')) ≡ₚ map journal_key (level_blocks (levels s));
  cd_pin_count x : pin_count s' x = pin_count s x + if decide (x = h) then 1 else 0;
  cd_canonical : pinned_canonincalized s' = pinned_canonincalized s ++ [h] /\ is_Some (pinned_insertions s' !! h);
  cd_other o : o ∈ level_blocks (levels s) -> hash o <> h -> descends h (hash o) = false ->
    is_Some (pinned_insertions s' !! hash o) <->
    exists x, x ∈ level_blocks (levels s) /\ descends (hash o) (hash x) = true /\ is_Some (pinned s !! hash x)
}.

Lemma nc_canonicalize_returns T s h commit l ls index o :
  pins_ok T None s -> levels s = l :: ls -> blocks l !! index = Some o -> hash o = h -> pin_count s h < u32_MAX ->
  exists s' js, nc_canonicalize (CE := CE) h commit s =
      (s', Ok (front s, mkCommitSet (with_canonical (data commit) h)
         (mkChangeSet (cs_inserted (meta commit) ++ [(last_key, encode (h, front s))]) (cs_deleted (meta commit) ++ js)))) /\
    canonicalized T s h s' js.
Proof.
  intros Hok Hls Hi Hh Hpin. pose proof (pins_valid _ _ _ Hok) as Hv.
  assert (front s < u64_MAX) as Hf by (pose proof (v_height s Hv) as Hh'; rewrite Hls in Hh'; simpl in Hh'; lia).
  destruct (nc_canonicalize_ok (CE := CE) s h commit l ls index o Hv Hls Hi Hh Hpin Hf) as (s' & js & Hrun & Hlast & Hc).
  exists s', js. destruct (cz_root Hok Hls Hi Hh) as [Ho Hnum]. split.
  { rewrite Hrun. do 4 f_equal. unfold canonical_change, with_canonical.
    destruct (acc_inserted _ _ (v_accounted s Hv) o Ho) as [-> ->]. by rewrite Hh. }
  pose proof (canonicalized_levels Hv Hls Hi Hh Hc) as Hlv. pose proof (cz_pinned_eq Hc) as Hpe. simpl in Hpe. split.
  - by eapply canonicalized_pins.
  - done.
  - intros i. unfold level_at. rewrite Hls. change (levels s' !! i) with (id (levels s' !! i)).
    pose proof (f_equal (fun x => x !! i) Hlv) as Hx. simpl in Hx. change (map blocks (levels s')) with (blocks <$> levels s') in Hx.
    change (map (above h) (map blocks ls)) with (above h <$> (blocks <$> ls)) in Hx. rewrite !list_lookup_fmap in Hx. simpl.
    rewrite Hx. by destruct (ls !! i).
  - rewrite (canonicalized_journals Hv Hls Hi Hh Hc), <- map_app. apply Permutation_map. rewrite Hls. unfold level_blocks. rewrite Hlv.
    unfold above. rewrite <- filter_concat. simpl. rewrite <- app_assoc. apply Permutation_app_head. rewrite Permutation_app_comm.
    apply partition_perm.
  - intros x. unfold pin_count. rewrite Hpe. destruct (decide (x = h)) as [->|]; [by rewrite lookup_insert_eq|].
    rewrite lookup_insert_ne by done. lia.
  - split; [apply (can_canonical _ _ _ _ _ _ _ Hc)|by eapply cz_canonical].
  - intros b Hb Hne Hd. assert (canonical s' (hash b) = false) as Hcb.
    { unfold canonical. rewrite Hlast. apply not_true_iff_false. intros Hx. pose proof (cz_number Hok b Hb) as Hn.
      rewrite <- Hnum in Hn. pose proof (descends_number _ _ Hx). rewrite descends_same_number in Hx by lia.
      apply bool_decide_eq_true in Hx. congruence. }
    split.
    + intros Hr. destruct (cz_retained_inv Hok Hls Hi Hh Hc b Hb Hcb Hd Hr) as (x & Hx & Hbx & Hp).
      exists x. split_and!; [done|done|]. apply (cz_pinned Hc) in Hp as [Heq|]; [|done].
      by destruct (cz_not_above Hok Hls Hi Hh Hlast b Hb Hcb Hd x Hx Hbx).
    + intros (x & Hx & Hbx & Hp). apply (cz_retained Hok Hls Hi Hh Hc b x); try done. apply (cz_pinned Hc). by right.
Qed.

(** A block that is not on the lowest level, and what is lost with it. *)
Lemma nc_canonicalize_error s h commit : h ∉ map hash (level_at s 0) ->
  nc_canonicalize (CE := CE) h commit s = (set_levels (tail (levels s)) s, Err InvalidBlock).
Proof.
  unfold level_at, nc_canonicalize. intros Hh. run_steps. destruct (levels s) as [|l ls] eqn:Hls.
  { simpl. destruct s. simpl in Hls. by subst. }
  run_steps. simpl in Hh.
  destruct (position_ok (E := StateDbError CE) (fun o => Ok (bool_decide (hash o = h))) (fun o => bool_decide (hash o = h)) (blocks l))
    as [(i & o & Hpos & Hi & Ho)|[Hpos _]]; [done| |by step_with Hpos].
  apply bool_decide_eq_true in Ho. destruct Hh. rewrite <- Ho. by eapply list_elem_of_fmap_2, list_elem_of_lookup_2.
Qed.

(** The window is a tree that grows from the last canonical block. *)
Lemma window_tree s : valid s -> forall h, h ∈ window s -> number_of h = 0 \/ parent_of h ∈ window s \/
  last_canonicalized s = Some (parent_of h, number_of h - 1).
Proof.
  intros Hv h (o & -> & (i & l & Hi & Ho)%elem_of_level_blocks)%list_elem_of_fmap.
  pose proof (level_number _ _ (v_levels s Hv i l Hi) o Ho) as Hn. destruct i as [|i].
  - destruct (last_canonicalized s) as [[c n]|] eqn:Hlast; unfold front in Hn; rewrite Hlast in Hn; [right; right|left; lia].
    rewrite (v_root s Hv c n l o Hlast Hi Ho). do 2 f_equal. lia.
  - right. left. destruct (lookup_lt_is_Some_2 (levels s) i) as [l0 Hl0]; [apply lookup_lt_Some in Hi; lia|].
    pose proof (v_linked s Hv i l0 l o Hl0 Hi Ho) as (p & -> & Hp)%list_elem_of_fmap.
    apply list_elem_of_fmap_2, elem_of_level_blocks. by exists i, l0.
Qed.

(** ** Runs with a database *)

Section runs.
Context {DE : Type}.

(** A database that answers every read. *)
Definition reliable (m : metadata) : Database DE := mkDatabase m (fun _ => None).

(** No overlay was ever stored here. *)
Definition unused (m : metadata) : Prop := m !! last_key = None /\ forall n i, m !! to_journal_key n i = None.

(** The overlay, the metadata with all changes that were handed out, and what of it is written. A
    write covers all that is handed out, as the callers put the changes of one block in one
    transaction; what was not written is lost when the overlay is opened again. *)
Inductive runs T : overlay -> metadata -> metadata -> Prop :=
| runs_open m s : unused m -> nc_new (CE := CE) (reliable m) = Ok s -> runs T s m m
| runs_ok s m d a s' c : runs T s m d -> allowed T s a -> perform a s = (s', Ok c) ->
    runs T s' (apply_changes (meta c) m) d
| runs_err s m d a s' e : runs T s m d -> allowed T s a -> perform a s = (s', Err e) -> runs T s' m d
| runs_write s m d : runs T s m d -> runs T s m m
| runs_reopen s m d s' : runs T s m d -> nc_new (CE := CE) (reliable d) = Ok s' -> runs T s' d d.

Lemma unused_journaled m : unused m -> journaled m (no_overlay None).
Proof. intros [Hl Hs]. split; [done|intros; by rewrite Hs|by intros o ?%elem_of_nil]. Qed.

Lemma reopened_kept T s m s' : kept T m s -> nc_new (CE := CE) (reliable m) = Ok s' -> reopened s s' /\ kept T m s'.
Proof.
  intros [Hok Hj] Hnew. destruct (nc_new_ok (DE := DE) (db := reliable m) (pins_valid _ _ _ Hok) Hj) as (s1 & Hnew' & Hro & Hj'); [done|].
  assert (s1 = s') as <- by congruence. split; [done|]. split; [|done]. destruct (ro_pinned _ _ Hro) as (Hp & Hpi & _).
  split; rewrite ?Hp, ?Hpi; [apply Hro|..]; intros h; rewrite lookup_empty; done.
Qed.

Lemma runs_kept T s m d : runs T s m d -> kept T m s /\ exists s0, kept T d s0.
Proof.
  assert (pins_ok T None (no_overlay None)) as Hempty.
  { split; [apply empty_valid|..]; intros h; simpl; rewrite lookup_empty; done. }
  induction 1 as [m s Hu Hnew|s m d a s' c _ [Hk Hd] Hal Hrun|s m d a s' e _ [Hk Hd] Hal Hrun|s m d _ [Hk _]|s m d s' _ [_ [s0 Hd]] Hnew].
  - assert (kept T m (no_overlay None)) as Hk by (split; [done|by apply unused_journaled]).
    destruct (reopened_kept T _ m s Hk Hnew) as [_ Hk']. split; [done|by exists s].
  - split; [|done]. destruct (perform_kept T s m a Hk Hal) as [(s1 & c1 & Hrun' & Hk')|(e & Hrun')]; congruence.
  - split; [|done]. destruct (perform_kept T s m a Hk Hal) as [(s1 & c1 & Hrun' & Hk')|(e' & Hrun')]; congruence.
  - split; [done|by exists s].
  - destruct (reopened_kept T s0 d s' Hd Hnew) as [_ Hk']. split; [done|by exists s'].
Qed.

(** Several operations one after the other. *)
Fixpoint all_allowed T (acts : list action) s : Prop :=
  match acts with
  | [] => True
  | a :: acts => allowed T s a /\ all_allowed T acts (fst (perform a s))
  end.

Definition run_action (x : overlay * metadata) (a : action) : overlay * metadata :=
  match perform a (fst x) with
  | (s', Ok c) => (s', apply_changes (meta c) (snd x))
  | (s', _) => (s', snd x)
  end.
Definition run_actions (acts : list action) (x : overlay * metadata) : overlay * metadata := foldl run_action x acts.

Lemma runs_actions T acts s m d : runs T s m d -> all_allowed T acts s ->
  runs T (fst (run_actions acts (s, m))) (snd (run_actions acts (s, m))) d.
Proof.
  revert s m. induction acts as [|a acts IH]; intros s m Hrun Hal; [done|]. destruct Hal as [Ha Hal].
  destruct (runs_kept T s m d Hrun) as [Hk _]. unfold run_actions. cbn [foldl]. unfold run_action at 2 4. cbn [fst snd].
  destruct (perform_kept T s m a Hk Ha) as [(s' & c & Hp & _)|(e & Hp)]; rewrite Hp in *; cbn [fst] in Hal; apply IH; try done.
  by eapply runs_ok.
Qed.

(** C13: in every run, all permitted operations return (they neither panic nor go on for ever), an
    error leaving the overlay as it was; the overlay serves the node of a key exactly
    if a block of the window or a retained block inserted it; it has exactly those blocks; and a block
    of the window is a genesis block, or its parent is in the window or the last canonical block. *)
Theorem overlay_runs T s m d : runs T s m d ->
  (forall a, allowed T s a -> (exists s' c, perform a s = (s', Ok c)) \/ (exists e, perform a s = (s, Err e))) /\
  (forall k, nc_get s k = if decide (k ∈ block_keys (level_blocks (levels s)) ++ retained_keys s) then Some (node k) else None) /\
  (forall h, nc_have_block s h = bool_decide (h ∈ window s \/ is_Some (pinned_insertions s !! h))) /\
  (forall h, h ∈ window s -> number_of h = 0 \/ parent_of h ∈ window s \/
     last_canonicalized s = Some (parent_of h, number_of h - 1)).
Proof.
  intros Hrun. destruct (runs_kept T s m d Hrun) as [Hk _]. pose proof Hk as [Hok _]. pose proof (pins_valid _ _ _ Hok) as Hv.
  split_and!.
  - intros a Ha. destruct (perform_kept T s m a Hk Ha) as [(s' & c & Hp & _)|Herr]; [left; by exists s', c|by right].
  - intros k. by apply nc_get_ok.
  - intros h. unfold nc_have_block. rewrite (acc_parents _ _ (v_accounted s Hv)). apply eq_bool_prop_intro.
    rewrite !bool_decide_spec. destruct (decide _) as [|Hno]; [|by split; [intros [? ?]|]]. split; [done|by eexists].
  - apply (window_tree s Hv).
Qed.


End runs.

(** [insert] checks the number, the parent, the room on the level and that the block is new,
    in this order, and an error leaves the overlay as it was; otherwise the block is added to its
    level with an entry of the journal, and the overlay serves its nodes as well. *)
Theorem insert_correct s h : valid s -> expected s h ->
  match insert_error s h with
  | Some e => nc_insert (CE := CE) h (number_of h) (parent_of h) (changes_of h) s = (s, Err e)
  | None => exists s' o ins,
      nc_insert (CE := CE) h (number_of h) (parent_of h) (changes_of h) s =
        (s', Ok (mkCommitSet no_changes (mkChangeSet (ins ++ [(journal_key o, encode (record_of h))]) []))) /\
      valid s' /\ hash o = h /\ level_blocks (levels s') ≡ₚ o :: level_blocks (levels s) /\
      parents s' = <[h := parent_of h]> (parents s) /\
      (forall k, nc_get s' k = if decide (k ∈ keys_of h) then Some (node k) else nc_get s k) /\
      (last_canonicalized s', ins) =
        (if decide (last_canonicalized s = None /\ number_of h <> 0)
         then (Some (parent_of h, number_of h - 1), [(last_key, encode (parent_of h, number_of h - 1))])
         else (last_canonicalized s, []))
  end.
Proof.
  intros Hv Hex. destruct (insert_error s h) as [e|] eqn:Herr; [by apply nc_insert_error|].
  destruct (nc_insert_returns s h Hv Hex Herr) as (s1 & ins & i & l & l' & s2 & vs & Hrun & Hp & Hs2 & Hl & _ & Hb & Hv').
  destruct (with_level_fields _ _ _ _ _ Hp Hs2) as (Hpar & _ & Hlast & _ & Hlb).
  eexists _, (new_block h l), ins. split; [exact Hrun|]. split_and!; [done|done| | | |].
  - simpl. rewrite (level_blocks_insert _ i l l' _ Hl Hb). by rewrite Hlb.
  - simpl. by rewrite Hpar.
  - intros k. by eapply inserted_get.
  - simpl. rewrite Hlast. destruct Hp as [Hn _ Hz|Hn Hz|n Hn _|n p Hn _ _ _]; simpl.
    + rewrite decide_True; [done|]. split; [done|lia].
    + by rewrite decide_False by tauto.
    + by rewrite decide_False by (intros [? _]; congruence).
    + by rewrite decide_False by (intros [? _]; congruence).
Qed.

(** C14: [canonicalize] of a block of the lowest level makes it the last canonical block: its changes
    are handed out, the levels above keep exactly what is above it, the journal entries of
    everything else go, and of the other branches exactly those blocks are retained that are pinned or carry
    a pinned block. Any other hash is an error, after which the lowest level is gone. *)
Theorem canonicalize_correct T s h commit : pins_ok T None s -> pin_count s h < u32_MAX ->
  if decide (h ∈ map hash (level_at s 0)) then
    exists s' js, nc_canonicalize (CE := CE) h commit s =
        (s', Ok (front s, mkCommitSet (with_canonical (data commit) h)
           (mkChangeSet (cs_inserted (meta commit) ++ [(last_key, encode (h, front s))]) (cs_deleted (meta commit) ++ js)))) /\
      canonicalized T s h s' js
  else nc_canonicalize (CE := CE) h commit s = (set_levels (tail (levels s)) s, Err InvalidBlock).
Proof.
  intros Hok Hpin. destruct (decide _) as [Hh|Hh]; [|by apply nc_canonicalize_error].
  unfold level_at in Hh. destruct (levels s) as [|l ls] eqn:Hls; [by apply elem_of_nil in Hh|]. simpl in Hh.
  apply list_elem_of_fmap in Hh as (o & -> & (index & Hi)%list_elem_of_lookup). by eapply nc_canonicalize_returns.
Qed.
End spec.

(** ** An example run *)

(** Two branches on block 0: block 1 of the first is canonicalized while block 2 of the other is pinned. *)
Definition example_actions : list (action (B := Byte.byte)) :=
  [Insert (block_at 1 0); Insert (block_at 1 1); Insert (block_at 2 1); Insert (block_at 2 0); Pin (block_at 2 1);
   Canonicalize (block_at 1 0)].

Notation example_run acts := (run_actions (P := debug) (CE := unit) (chain := example_chain) acts (no_overlay None, ∅)).

Lemma example_real h : h <> Byte.xff -> real (Chain0 := example_chain) h.
Proof. intros Hh g Hg. simpl in *. unfold example_parent. rewrite Hg. simpl. congruence. Qed.

Ltac example_step :=
  first [ split; [split; [vm_compute; done|apply example_real; vm_compute; done|vm_compute; tauto|vm_compute; done|vm_compute; done]
                 |vm_compute; intros; first [discriminate|by left|by right]|vm_compute; done]
        | split; [right; left; by apply (bool_decide_eq_true _); vm_compute|vm_compute; done]
        | split; [by apply (bool_decide_eq_true _); vm_compute|vm_compute; done] ].

Lemma example_allowed : all_allowed (P := debug) (CE := unit) (chain := example_chain) (fun _ => True) example_actions (no_overlay None).
Proof.
  cbn [all_allowed example_actions]. split; [example_step|].
  split; [example_step|].
  split; [example_step|].
  split; [example_step|].
  split; [example_step|].
  split; [example_step|].
  done.
Qed.

Definition example_overlay : NonCanonicalOverlay Byte.byte Byte.byte := fst (example_run example_actions).
Definition example_meta : gmap bytes DBValue := snd (example_run example_actions).

Lemma example_runs : runs (P := debug) (CE := unit) (DE := unit) (chain := example_chain) (fun _ => True) example_overlay example_meta ∅.
Proof.
  apply runs_actions; [|apply example_allowed]. apply runs_open; [|done]. split; [done|]. intros. apply lookup_empty.
Qed.

Lemma example_valid : pins_ok (fun _ => True) None example_overlay.
Proof. apply (runs_kept _ _ _ _ example_runs). Qed.

(** The node of the discarded block is still served. *)
Lemma overlay_runs_witness : nc_get example_overlay (block_at 1 1) = Some [block_at 1 1].
Proof.
  destruct (overlay_runs _ _ _ _ example_runs) as (_ & Hget & _). rewrite Hget, decide_True; [done|]. by apply (bool_decide_eq_true _); vm_compute.
Defined.



Lemma canonicalize_correct_witness : exists s' js c,
  nc_canonicalize (P := debug) (CE := unit) (block_at 2 0) empty_commit example_overlay = (s', Ok (2, c)) /\
  canonicalized (fun _ => True) example_overlay (block_at 2 0) s' js.
Proof.
  pose proof (canonicalize_correct (P := debug) (CE := unit) (chain := example_chain) _ example_overlay (block_at 2 0) empty_commit example_valid
    ltac:(by vm_compute)) as Hcan.
  rewrite decide_True in Hcan by by apply (bool_decide_eq_true _); vm_compute. destruct Hcan as (s' & js & Hrun & Hc).
  exists s', js. eexists. split; [exact Hrun|exact Hc].
Defined.
