(* ===== verification/PruningQueue.v ===== *)
(** * The pruning window: its queue

    The canonical blocks of the window as the records that were noted for them, and
    what both kinds of queue make of the records: the rows of [Mem], from which a key goes that a
    later block inserts again, and the cache of [DbBacked]. *)

From stdpp Require Import strings.
From S2P Require Import Prelude StateDbTypes NonCanonical Pruning.

#[local] Open Scope N_scope.

Section rows.
Context {P : Profile} {B K : Type} `{Countable K}.
Notation record := (PruningRecord B K).
Notation row := (DeathRow B K).
Implicit Types recs : list record.

(** A row without some keys. *)
Definition spare_row (ks : list K) (r : row) : row := mkDeathRow (dr_hash r) (dr_deleted r ∖ list_to_set ks).

(** The rows of the records: what a block deleted, and no later one inserted. *)
Fixpoint rows_of recs : list row :=
  match recs with
  | [] => []
  | r :: recs => spare_row (concat (map pr_inserted recs)) (row_of r) :: rows_of recs
  end.

Lemma spare_row_nil r : spare_row [] r = r.
Proof. destruct r as [h d]. unfold spare_row. simpl. by rewrite difference_empty_L. Qed.

Lemma spare_row_app ks ks' r : spare_row ks' (spare_row ks r) = spare_row (ks ++ ks') r.
Proof. unfold spare_row. simpl. f_equal. set_solver. Qed.

Lemma rows_of_snoc recs r : rows_of (recs ++ [r]) = map (spare_row (pr_inserted r)) (rows_of recs) ++ [row_of r].
Proof.
  induction recs as [|x recs IH]; simpl; [by rewrite spare_row_nil|]. rewrite IH. f_equal.
  rewrite map_app, concat_app. simpl. by rewrite app_nil_r, spare_row_app.
Qed.

Lemma rows_of_length recs : length (rows_of recs) = length recs.
Proof. induction recs; simpl; congruence. Qed.

Lemma rows_of_hash recs : map dr_hash (rows_of recs) = map pr_hash recs.
Proof. induction recs as [|r recs IH]; simpl; [done|]. by rewrite IH. Qed.

Lemma rows_of_lookup recs i r : rows_of recs !! i = Some r ->
  exists x, recs !! i = Some x /\ r = spare_row (concat (map pr_inserted (drop (S i) recs))) (row_of x).
Proof.
  revert i. induction recs as [|x recs IH]; intros [|i] Hi; try done; simpl in *.
  - injection Hi as <-. exists x. by rewrite drop_0.
  - by apply IH.
Qed.

(** The index has the block of the row that each key is in. *)
Definition indexed (base : N) (rows : list row) (index : gmap K N) : Prop :=
  forall k n, index !! k = Some n <-> exists i r, rows !! i = Some r /\ k ∈ dr_deleted r /\ n = base + N.of_nat i.

Lemma indexed_unique base rows index i j r r' k : indexed base rows index -> rows !! i = Some r -> rows !! j = Some r' ->
  k ∈ dr_deleted r -> k ∈ dr_deleted r' -> i = j.
Proof.
  intros Hix Hi Hj Hk Hk'. assert (index !! k = Some (base + N.of_nat i)) as H1 by (apply Hix; by exists i, r).
  assert (index !! k = Some (base + N.of_nat j)) as H2 by (apply Hix; by exists j, r'). rewrite H1 in H2. injection H2. lia.
Qed.

Lemma indexed_eq base rows index index' : indexed base rows index -> indexed base rows index' -> index = index'.
Proof. intros H1 H2. apply map_eq. intros k. apply option_eq. intros n. by rewrite (H1 k n), (H2 k n). Qed.

Lemma spare_key_ok {E} base k rows index : indexed base rows index -> base + N.of_nat (length rows) <= u64_MAX ->
  exists index', spare_key (E := E) base k (rows, index) = Ok (map (spare_row [k]) rows, index') /\
    indexed base (map (spare_row [k]) rows) index'.
Proof.
  intros Hix Hmax. assert (forall i r, map (spare_row [k]) rows !! i = Some r <-> exists r0, rows !! i = Some r0 /\ r = spare_row [k] r0) as Hmap.
  { intros i r. change (map (spare_row [k]) rows) with (spare_row [k] <$> rows). rewrite list_lookup_fmap, fmap_Some. naive_solver. }
  unfold spare_key. destruct (index !! k) as [n|] eqn:Hk.
  - pose proof (proj1 (Hix k n) Hk) as (i & r & Hi & Hkr & ->). pose proof (lookup_lt_Some _ _ _ Hi).
    rewrite sub_u64_eq by lia. cbn [bind]. replace (N.to_nat (base + N.of_nat i - base)) with i by lia. rewrite Hi. cbn [expect bind].
    exists (delete k index). split.
    + do 2 f_equal. apply list_eq. intros j. change (map (spare_row [k]) rows) with (spare_row [k] <$> rows). rewrite list_lookup_fmap.
      destruct (decide (i = j)) as [<-|Hne]; [rewrite list_lookup_insert_eq, Hi by done; unfold spare_row; simpl; do 2 f_equal; set_solver|].
      rewrite list_lookup_insert_ne by done. destruct (rows !! j) as [r'|] eqn:Hj; simpl; [|done]. f_equal.
      destruct r' as [h' d']. unfold spare_row. simpl. f_equal. assert (k ∉ d') as Hno; [|set_solver].
      intros Hin. by apply Hne, (indexed_unique base rows index i j r (mkDeathRow h' d') k).
    + intros x n'. rewrite lookup_delete_Some, (Hix x n'). setoid_rewrite Hmap. split.
      * intros (Hne & j & r' & Hj & Hx & ->). exists j, (spare_row [k] r'). split_and!; [by exists r'| |done]. simpl. set_solver.
      * intros (j & ? & (r' & Hj & ->) & Hx & ->). simpl in Hx. split; [set_solver|]. exists j, r'. set_solver.
  - exists index. assert (map (spare_row [k]) rows = rows) as Hsame.
    { apply list_eq. intros j. change (map (spare_row [k]) rows) with (spare_row [k] <$> rows). rewrite list_lookup_fmap.
      destruct (rows !! j) as [[h' d']|] eqn:Hj; simpl; [|done]. unfold spare_row. simpl. do 2 f_equal. assert (k ∉ d') as Hno; [|set_solver].
      intros Hin. assert (index !! k = Some (base + N.of_nat j)) as Hx by (apply Hix; by exists j, (mkDeathRow h' d')). congruence. }
    by rewrite Hsame.
Qed.

Lemma spare_keys_ok {E} base ks rows index : indexed base rows index -> base + N.of_nat (length rows) <= u64_MAX ->
  exists index', foldl (fun x k => let! x := x in spare_key base k x) (Ok (E := E) (rows, index)) ks = Ok (map (spare_row ks) rows, index') /\
    indexed base (map (spare_row ks) rows) index'.
Proof.
  revert rows index. induction ks as [|k ks IH]; intros rows index Hix Hmax.
  - exists index. rewrite (map_ext _ id), map_id by apply spare_row_nil. done.
  - destruct (spare_key_ok (E := E) base k rows index Hix Hmax) as (index1 & Hrun & Hix1).
    destruct (IH _ _ Hix1) as (index2 & Hrun2 & Hix2); [by rewrite length_map|].
    exists index2. cbn [foldl bind]. rewrite Hrun, Hrun2. rewrite map_map in Hix2 |- *.
    rewrite (map_ext _ (spare_row (k :: ks))) in Hix2 |- * by (intros; apply spare_row_app). done.
Qed.

Lemma index_inserts (index : gmap K N) n ks k :
  foldl (fun index k => <[k := n]> index) index ks !! k = if decide (k ∈ ks) then Some n else index !! k.
Proof.
  revert index. induction ks as [|x ks IH]; intros index; cbn [foldl]; [by rewrite decide_False by apply not_elem_of_nil|].
  rewrite IH. destruct (decide (k ∈ ks)); [by rewrite decide_True by by right|]. destruct (decide (k = x)) as [->|].
  - rewrite lookup_insert_eq, decide_True; [done|by left].
  - rewrite lookup_insert_ne, decide_False; [done| |done]. by intros [|]%elem_of_cons.
Qed.

(** A record whose deletions are in no row, but for those that it inserts. *)
Definition fresh_deletes (rows : list row) (r : record) : Prop :=
  forall i x k, rows !! i = Some x -> k ∈ dr_deleted x -> k ∈ pr_deleted r -> k ∈ pr_inserted r.

Lemma import_mem_ok {E} base r recs index :
  indexed base (rows_of recs) index -> fresh_deletes (rows_of recs) r -> base + N.of_nat (length recs) < u64_MAX ->
  exists index', import_mem (E := E) base r (rows_of recs) index = Ok (rows_of (recs ++ [r]), index') /\
    indexed base (rows_of (recs ++ [r])) index'.
Proof.
  intros Hix Hfresh Hmax. unfold import_mem.
  destruct (spare_keys_ok (E := E) base (pr_inserted r) (rows_of recs) index Hix) as (index1 & Hrun & Hix1); [rewrite rows_of_length; lia|].
  rewrite Hrun. cbn [bind]. rewrite length_map, rows_of_length, add_u64_eq by lia. cbn [bind]. eexists.
  rewrite <- rows_of_snoc. split; [done|]. rewrite rows_of_snoc. intros k n. rewrite index_inserts.
  assert (length (map (spare_row (pr_inserted r)) (rows_of recs)) = length recs) as Hlen by by rewrite length_map, rows_of_length.
  destruct (decide (k ∈ pr_deleted r)) as [Hk|Hk].
  - split.
    + intros [= <-]. exists (length recs), (row_of r). split_and!; [by rewrite <- Hlen, list_lookup_middle|simpl; set_solver|done].
    + intros (i & x & [Hi|[Hge Hi]]%lookup_app_Some & Hkx & ->).
      * exfalso. change (map (spare_row (pr_inserted r)) (rows_of recs)) with (spare_row (pr_inserted r) <$> rows_of recs) in Hi.
        rewrite list_lookup_fmap, fmap_Some in Hi. destruct Hi as (y & Hy & ->). simpl in Hkx.
        pose proof (Hfresh i y k Hy). set_solver.
      * apply list_lookup_singleton_Some in Hi as [Hz _]. f_equal. lia.
  - rewrite (Hix1 k n). split.
    + intros (i & x & Hi & Hkx & ->). exists i, x. split; [by apply lookup_app_l_Some|done].
    + intros (i & x & [Hi|[_ Hi]]%lookup_app_Some & Hkx & ->); [by exists i, x|].
      apply list_lookup_singleton_Some in Hi as [_ <-]. simpl in Hkx. set_solver.
Qed.

(** The first row goes, and its keys from the index. *)
Lemma pop_indexed base r rows index : indexed base (r :: rows) index ->
  indexed (base + 1) rows (foldr delete index (elements (dr_deleted r))).
Proof.
  intros Hix k n.
  assert (forall ks, foldr delete index ks !! k = if decide (k ∈ ks) then None else index !! k) as Hdel.
  { induction ks as [|x ks IH]; cbn [foldr]; [by rewrite decide_False by apply not_elem_of_nil|].
    destruct (decide (k = x)) as [->|]; [rewrite lookup_delete_eq, decide_True; [done|by left]|]. rewrite lookup_delete_ne, IH by done.
    apply decide_ext. rewrite elem_of_cons. naive_solver. }
  rewrite Hdel. destruct (decide _) as [Hk%elem_of_elements|Hk].
  - split; [done|]. intros (i & x & Hi & Hkx & ->). exfalso.
    by pose proof (indexed_unique base (r :: rows) index 0 (S i) r x k Hix eq_refl Hi Hk Hkx).
  - rewrite elem_of_elements in Hk. rewrite (Hix k n). split.
    + intros ([|i] & x & Hi & Hkx & ->); simpl in Hi; [by injection Hi as <-|]. exists i, x. split_and!; [done|done|lia].
    + intros (i & x & Hi & Hkx & ->). exists (S i), x. split_and!; [done|done|lia].
Qed.

(** ** The nodes of the blocks *)

(** The nodes of the state after a block, from those before it. *)
Definition after (L : gset K) (r : record) : gset K := (L ∪ list_to_set (pr_inserted r)) ∖ list_to_set (pr_deleted r).
Definition live (L : gset K) recs : gset K := foldl after L recs.

(** The states before the first block of the window, and after each. *)
Fixpoint states (L : gset K) recs : list (gset K) :=
  match recs with
  | [] => [L]
  | r :: recs => L :: states (after L r) recs
  end.

(** Blocks delete what is there. *)
Fixpoint sound (L : gset K) recs : Prop :=
  match recs with
  | [] => True
  | r :: recs => (forall k, k ∈ pr_deleted r -> k ∈ L \/ k ∈ pr_inserted r) /\ sound (after L r) recs
  end.

(** The nodes that are to be deleted. *)
Definition pending recs : gset K := ⋃ (map dr_deleted (rows_of recs)).

Lemma pending_cons r recs : pending (r :: recs) = (list_to_set (pr_deleted r) ∖ list_to_set (concat (map pr_inserted recs))) ∪ pending recs.
Proof. done. Qed.

Lemma pending_elem recs k : k ∈ pending recs <-> exists i r, rows_of recs !! i = Some r /\ k ∈ dr_deleted r.
Proof.
  unfold pending. rewrite elem_of_union_list. setoid_rewrite list_elem_of_fmap. split.
  - intros (X & (r & -> & (i & Hi)%list_elem_of_lookup) & Hk). by exists i, r.
  - intros (i & r & Hi & Hk). exists (dr_deleted r). split; [|done]. exists r. split; [done|]. by eapply list_elem_of_lookup_2.
Qed.

Lemma live_snoc L recs r : live L (recs ++ [r]) = after (live L recs) r.
Proof. unfold live. by rewrite foldl_app. Qed.

Lemma sound_snoc L recs r : sound L (recs ++ [r]) <-> sound L recs /\ forall k, k ∈ pr_deleted r -> k ∈ live L recs \/ k ∈ pr_inserted r.
Proof. revert L. induction recs as [|x recs IH]; intros L; simpl; [tauto|]. rewrite IH. tauto. Qed.

Lemma sound_app L recs recs' : sound L (recs ++ recs') -> sound L recs.
Proof. revert L. induction recs as [|x recs IH]; intros L; simpl; [done|]. intros [Hx Hs]. split; [done|by apply IH]. Qed.

(** What is not there and not inserted later is not there later. *)
Lemma live_dead L recs k : k ∉ L -> k ∉ concat (map pr_inserted recs) -> k ∉ live L recs.
Proof.
  revert L. induction recs as [|r recs IH]; intros L HL Hin; [done|]. simpl in Hin. apply not_elem_of_app in Hin as [Hr Hin].
  apply IH; [|done]. unfold after. set_solver.
Qed.

Lemma pending_dead L recs k : k ∈ pending recs -> k ∉ live L recs.
Proof.
  revert L. induction recs as [|r recs IH]; intros L Hk; [by apply pending_elem in Hk as (i & r & ? & _)|]. rewrite pending_cons in Hk.
  change (live L (r :: recs)) with (live (after L r) recs). apply elem_of_union in Hk as [Hk|Hk]; [|by apply IH].
  rewrite elem_of_difference, !elem_of_list_to_set in Hk. destruct Hk. apply live_dead; [unfold after; set_solver|done].
Qed.

(** What is in a state or is inserted later is there at the end or to be deleted. *)
Lemma covered L recs k : k ∈ L \/ k ∈ concat (map pr_inserted recs) -> k ∈ live L recs \/ k ∈ pending recs.
Proof.
  revert L. induction recs as [|r recs IH]; intros L Hk; [simpl in *; set_solver|]. rewrite pending_cons, elem_of_union. simpl in Hk.
  destruct (decide (k ∈ concat (map pr_inserted recs))) as [Hin|Hin].
  - destruct (IH (after L r) (or_intror Hin)); auto.
  - destruct (decide (k ∈ pr_deleted r)) as [Hd|Hd]; [right; left; set_solver|].
    destruct (IH (after L r)) as [|]; [left; unfold after; set_solver|auto|auto].
Qed.

Lemma states_covered L recs X : X ∈ states L recs -> X ⊆ live L recs ∪ pending recs.
Proof.
  revert L. induction recs as [|r recs IH]; intros L HX k Hk; simpl in HX.
  - apply list_elem_of_singleton in HX as ->. apply elem_of_union. by left.
  - rewrite elem_of_cons in HX. destruct HX as [->|HX].
    + apply elem_of_union, covered. by left.
    + specialize (IH _ HX k Hk). rewrite pending_cons. change (live L (r :: recs)) with (live (after L r) recs). set_solver.
Qed.

Lemma sound_fresh L recs r : sound L (recs ++ [r]) -> fresh_deletes (rows_of recs) r.
Proof.
  intros [_ Hr]%sound_snoc i x k Hi Hk Hd. destruct (Hr k Hd) as [Hl|]; [|done].
  exfalso. apply (pending_dead L recs k); [|done]. apply pending_elem. by exists i, x.
Qed.

(** No two rows share a key. *)
Lemma sound_indexed base L recs : sound L recs -> base + N.of_nat (length recs) <= u64_MAX ->
  exists index, indexed base (rows_of recs) index.
Proof.
  induction recs as [|r recs IH] using rev_ind; intros Hs Hmax.
  - exists ∅. intros k n. rewrite lookup_empty. split; [done|]. by intros (i & x & ? & _).
  - rewrite length_app in Hmax. simpl in Hmax. destruct IH as (index & Hix); [by apply sound_snoc in Hs as [? _]|lia|].
    destruct (import_mem_ok (E := unit) base r recs index Hix (sound_fresh L recs r Hs)) as (index' & _ & Hix'); [lia|]. by exists index'.
Qed.

Lemma pending_disjoint L r recs k : sound L (r :: recs) -> k ∈ dr_deleted (spare_row (concat (map pr_inserted recs)) (row_of r)) -> k ∉ pending recs.
Proof.
  intros [_ Hs] Hk. cbn [dr_deleted spare_row row_of] in Hk. rewrite elem_of_difference, !elem_of_list_to_set in Hk. destruct Hk as [Hk Hin].
  assert (k ∉ after L r) as HL by (unfold after; set_solver). clear Hk. revert Hs HL Hin. generalize (after L r) as L'.
  induction recs as [|x recs IH]; intros L' Hs HL Hin; [by intros (i & y & ? & _)%pending_elem|]. simpl in Hin.
  apply not_elem_of_app in Hin as [Hx Hin]. destruct Hs as [Hd Hs]. rewrite pending_cons, not_elem_of_union. split.
  - rewrite elem_of_difference, elem_of_list_to_set. intros [Hk _]. by destruct (Hd k Hk).
  - apply (IH (after L' x)); [done| |done]. unfold after. set_solver.
Qed.
End rows.
