(* ===== verification/PruningWindow.v ===== *)
(** * The pruning window: its operations

    The window as the list of its records, for both kinds of queue, and the effect of each
    operation on it. *)

From stdpp Require Import strings.
From S2P Require Import Prelude StateDbTypes NonCanonical Pruning PruningQueue.

#[local] Open Scope N_scope.

Section spec.
Context {P : Profile} {B K CE DE : Type} `{Countable B, Countable K}.
Context {enc_unit : Encode unit} {enc_u64 : Encode N} {enc_pair : Encode (N * N)} {enc_canonical : Encode (B * N)}
        {enc_record : Encode (PruningRecord B K)}.
Context {dec_canonical : Decode CE (B * N)} {dec_u64 : Decode CE N} {dec_record : Decode CE (PruningRecord B K)}.
Context {keys : KeyCodec enc_unit enc_u64 enc_pair}
        {rt_u64 : RoundTrip CE N enc_u64 dec_u64 (fun n => n <= u64_MAX)}
        {rt_canonical : RoundTrip CE (B * N) enc_canonical dec_canonical (fun x => snd x <= u64_MAX)}
        {rt_record : RoundTrip CE (PruningRecord B K) enc_record dec_record (fun _ => True)}.

Notation record := (PruningRecord B K).
Notation row := (DeathRow B K).
Notation death_queue := (DeathRowQueue B K).
Notation window := (RefWindow B K).
Notation error := (Error CE DE).
Notation pruned_key := (to_meta_key LAST_PRUNED tt).
Implicit Types recs : list record.
Implicit Types db : Database DE.
Implicit Types w : window.

(** ** Keys *)

Lemma pruning_key_inj n n' : n <= u64_MAX -> n' <= u64_MAX -> pruning_journal_key n = pruning_journal_key n' -> n = n'.
Proof. intros. unfold pruning_journal_key, to_meta_key in *. eapply encode_u64_inj; [done..|]. by eapply app_inv_tail. Qed.

Lemma pruning_key_length n : length (pruning_journal_key n) = 23%nat.
Proof. unfold pruning_journal_key, to_meta_key. by rewrite length_app, encode_u64_length. Qed.

Lemma pruned_key_length : length pruned_key = 11%nat.
Proof. unfold to_meta_key. by rewrite encode_unit. Qed.

Lemma pruning_not_pruned n : pruning_journal_key n <> pruned_key.
Proof. intros Heq%(f_equal length). by rewrite pruning_key_length, pruned_key_length in Heq. Qed.

(** ** The window and its records *)

(** The queue of the blocks from [base] on. A [DbBacked] queue has the first of them in its cache. *)
Inductive represents (base : N) recs : death_queue -> Prop :=
| rep_mem index : indexed base (rows_of recs) index -> represents base recs (Mem (rows_of recs) index)
| rep_db n capacity last : (0 < capacity)%nat -> (n <= length recs)%nat ->
    match last with
    | Some l => l + 1 = base + N.of_nat (length recs)
    | None => recs = []
    end -> represents base recs (DbBacked (map row_of (take n recs)) capacity last).

Record window_ok w recs : Prop := {
  wk_queue : represents (base w) recs (queue w);
  wk_height : base w + N.of_nat (length recs) <= u64_MAX
}.

(** The records that can be read from the database: the first [k]. *)
Record readable db (base : N) recs (k : nat) : Prop := {
  rb_reads key : failing db key = None;
  rb_some : (k <= length recs)%nat;
  rb_journal i : base + N.of_nat i <= u64_MAX -> entries db !! pruning_journal_key (base + N.of_nat i) = encode <$> take k recs !! i
}.

Lemma queue_len_ok {E} w recs : window_ok w recs -> window_size (E := E) w = Ok (N.of_nat (length recs)).
Proof.
  intros [Hq Hmax]. unfold window_size, queue_len. destruct Hq as [index Hix|n capacity [l|] Hcap Hn Hl].
  - by rewrite rows_of_length.
  - rewrite add_u64_eq by lia. cbn [bind]. rewrite sub_u64_eq by lia. f_equal. lia.
  - by subst.
Qed.

Lemma is_empty_ok {E} w recs : window_ok w recs -> is_empty (E := E) w = Ok (bool_decide (recs = [])).
Proof.
  intros Hw. unfold is_empty. rewrite (queue_len_ok w recs Hw). cbn [bind]. f_equal. destruct recs; [done|].
  rewrite bool_decide_false by done. apply N.eqb_neq. simpl. lia.
Qed.

(** ** Reading the journal *)

Lemma load_death_row_ok db base recs k i : readable db base recs k -> base + N.of_nat i <= u64_MAX ->
  load_death_row_from_db (CE := CE) db (base + N.of_nat i) = Ok (row_of <$> take k recs !! i).
Proof.
  intros [Hf _ Hj] Hi. unfold load_death_row_from_db, get_meta. rewrite Hf. cbn [bind]. rewrite Hj by done.
  destruct (take k recs !! i) as [r|]; [|done]. cbn [fmap option_fmap option_map]. unfold decoded. by rewrite decode_encode.
Qed.

Lemma load_rows_ok db base recs k cache len j : readable db base recs k -> base + N.of_nat (length recs) <= u64_MAX ->
  (j <= k)%nat ->
  load_rows (CE := CE) db base (map N.of_nat (seq j len)) cache = (cache ++ map row_of (take len (drop j (take k recs))), Ok tt).
Proof.
  intros Hr Hmax. revert cache j. induction len as [|len IH]; intros cache j Hj; simpl; [by rewrite app_nil_r|].
  pose proof (rb_some _ _ _ _ Hr) as Hk. rewrite (bindM_lift _ _ _ (base + N.of_nat j)) by (apply add_u64_eq; lia).
  rewrite (bindM_lift _ _ _ _ (load_death_row_ok db base recs k j Hr ltac:(lia))).
  destruct (take k recs !! j) as [r|] eqn:Hj'; cbn [fmap option_fmap option_map].
  - run_steps. rewrite (drop_S _ r j Hj'). rewrite IH; [by rewrite <- app_assoc|].
    apply lookup_lt_Some in Hj'. rewrite length_take in Hj'. lia.
  - apply lookup_ge_None in Hj'. rewrite drop_ge by done. by rewrite take_nil, app_nil_r.
Qed.

Lemma load_batch_ok db base recs k capacity : readable db base recs k -> base + N.of_nat (length recs) <= u64_MAX ->
  load_batch_from_db (CE := CE) db base capacity [] = (map row_of (take (capacity `min` k) recs), Ok tt).
Proof.
  intros Hr Hmax. unfold load_batch_from_db. run_steps. simpl length. rewrite (bindM_lift _ _ _ base) by (rewrite add_u64_eq; [f_equal|]; lia).
  rewrite (load_rows_ok db base recs k [] capacity 0 Hr Hmax) by lia. by rewrite drop_0, take_take.
Qed.

(** The first row of a queue. *)
Definition front_row (q : death_queue) : option row :=
  match q with
  | Mem rows _ => head rows
  | DbBacked cache _ _ => head cache
  end.

Definition in_memory (q : death_queue) : bool := match q with Mem _ _ => true | DbBacked _ _ _ => false end.

(** The rows that the records are pruned as, and how many of them can be had: all, when the
    queue is in memory, else those in the cache or in the database. *)
Definition rows_for (q : death_queue) recs : list row := if in_memory q then rows_of recs else map row_of recs.
Definition available (q : death_queue) recs (k : nat) : nat :=
  match q with
  | Mem _ _ => length recs
  | DbBacked cache _ _ => (length cache `max` k)%nat
  end.
Definition first_row (q : death_queue) recs (k : nat) : option row :=
  if (available q recs k =? 0)%nat then None else head (rows_for q recs).

Lemma with_cache_ok db base recs k q : represents base recs q -> readable db base recs k -> base + N.of_nat (length recs) <= u64_MAX ->
  exists q', with_cache (CE := CE) db base q = (q', Ok tt) /\ represents base recs q' /\ front_row q' = first_row q recs k /\
    available q' recs k = available q recs k /\ in_memory q' = in_memory q.
Proof.
  intros Hq Hr Hmax. destruct Hq as [index Hix|n capacity last Hcap Hn Hl].
  - exists (Mem (rows_of recs) index). split_and!; try done; [by constructor|]. unfold first_row. by destruct recs.
  - pose proof (rb_some _ _ _ _ Hr) as Hk. unfold with_cache. destruct (map row_of (take n recs)) as [|r cache] eqn:Hc.
    + rewrite (load_batch_ok db base recs k capacity Hr Hmax). eexists. split; [done|].
      assert (length (map row_of (take (capacity `min` k) recs)) = capacity `min` k)%nat as Hlen by (rewrite length_map; apply length_take_le; lia).
      split_and!; [constructor; [done|lia|done]| |unfold available; rewrite Hlen; simpl; lia|done].
      unfold first_row, rows_for. simpl. destruct recs as [|r recs]; [destruct k; [|simpl in Hk; lia]; by rewrite take_nil|].
      destruct capacity; [lia|]. by destruct k.
    + eexists. split; [done|]. split_and!; [rewrite <- Hc; by constructor| |done|done]. unfold first_row, rows_for. simpl.
      destruct recs as [|x recs]; [by rewrite take_nil in Hc|]. destruct n; [done|]. injection Hc as <- _. by destruct k.
Qed.

(** ** Operations *)

Lemma next_hash_ok db w recs k : window_ok w recs -> readable db (base w) recs k ->
  exists w', next_hash (CE := CE) db w = (w', Ok (dr_hash <$> first_row (queue w) recs k)) /\ window_ok w' recs /\ base w' = base w /\
    available (queue w') recs k = available (queue w) recs k /\ in_memory (queue w') = in_memory (queue w).
Proof.
  intros [Hq Hmax] Hr. destruct (with_cache_ok db (base w) recs k (queue w) Hq Hr Hmax) as (q' & Hrun & Hq' & Hfront & Hav & Hmem).
  exists (mkRefWindow q' (base w)). split; [|done]. unfold next_hash. run_steps.
  assert (on_queue (with_cache (CE := CE) db (base w)) w = (mkRefWindow q' (base w), Ok tt)) as Hon by (unfold on_queue; by rewrite Hrun).
  step_with Hon. run_steps. cbn [queue]. rewrite <- Hfront. by destruct Hq'.
Qed.

Lemma pop_front_ok db base recs k q : represents base recs q -> readable db base recs k -> base + N.of_nat (length recs) <= u64_MAX ->
  exists q', pop_front (CE := CE) db base q = (q', Ok (first_row q recs k)) /\ in_memory q' = in_memory q /\
    match first_row q recs k with
    | Some x => exists r recs', recs = r :: recs' /\ rows_for q recs = x :: rows_for q recs' /\ represents (base + 1) recs' q' /\
        available q' recs' (pred k) = pred (available q recs k)
    | None => represents base recs q'
    end.
Proof.
  intros Hq Hr Hmax. destruct (with_cache_ok db base recs k q Hq Hr Hmax) as (q1 & Hrun & Hq1 & Hfront & Hav & Hmem).
  unfold pop_front. step_with Hrun. rewrite <- Hfront, <- Hav. unfold rows_for. rewrite <- Hmem. clear Hfront Hrun Hav Hmem.
  run_steps. destruct Hq1 as [index Hix|n capacity last Hcap Hn Hl].
  - destruct recs as [|r recs]; simpl; [eexists; split_and!; [done..|by constructor]|]. eexists. split_and!; [done|done|]. exists r, recs.
    split_and!; [done|done| |done]. constructor.
    exact (pop_indexed base (spare_row (concat (map pr_inserted recs)) (row_of r)) (rows_of recs) index Hix).
  - run_steps. eexists. split; [done|]. split; [done|]. destruct recs as [|r recs]; simpl front_row.
    { rewrite take_nil. simpl. by apply (rep_db base [] 0). }
    destruct n as [|n]; [by apply (rep_db base (r :: recs) 0)|]. simpl. exists r, recs. simpl in Hn. split_and!; [done|done| |].
    + apply (rep_db (base + 1) recs n); [done|lia|]. destruct last; [simpl in Hl; lia|done].
    + rewrite length_map, length_take_le by lia. destruct k; simpl; lia.
Qed.

(** The changes of a pruned block. *)
Definition prune_commit (base : N) (r : row) (commit : CommitSet K) : CommitSet K :=
  mkCommitSet
    (mkChangeSet (cs_inserted (data commit)) (cs_deleted (data commit) ++ elements (dr_deleted r)))
    (mkChangeSet (cs_inserted (meta commit) ++ [(pruned_key, encode base)])
                 (cs_deleted (meta commit) ++ [pruning_journal_key base])).

(** The window after its first block is pruned. *)
Definition pruned_window w recs k x w' : Prop :=
  exists r recs', recs = r :: recs' /\ rows_for (queue w) recs = x :: rows_for (queue w) recs' /\
    window_ok w' recs' /\ base w' = base w + 1 /\ in_memory (queue w') = in_memory (queue w) /\
    available (queue w') recs' (pred k) = pred (available (queue w) recs k).

Lemma prune_one_ok db w recs k commit : window_ok w recs -> readable db (base w) recs k ->
  exists w', match first_row (queue w) recs k with
    | Some x => prune_one (CE := CE) db commit w = (w', Ok (prune_commit (base w) x commit)) /\ pruned_window w recs k x w'
    | None => prune_one (CE := CE) db commit w = (w', Err (StateDb BlockUnavailable)) /\ window_ok w' recs /\ base w' = base w /\
        in_memory (queue w') = in_memory (queue w)
    end.
Proof.
  intros [Hq Hmax] Hr. destruct (pop_front_ok db (base w) recs k (queue w) Hq Hr Hmax) as (q' & Hrun & Hmem & Hpost).
  unfold prune_one. run_steps.
  assert (on_queue (pop_front (CE := CE) db (base w)) w = (mkRefWindow q' (base w), Ok (first_row (queue w) recs k))) as Hon
    by (unfold on_queue; by rewrite Hrun).
  step_with Hon. destruct (first_row (queue w) recs k) as [x|].
  - destruct Hpost as (r & recs' & -> & Hrows & Hq' & Hav). simpl in Hmax. exists (mkRefWindow q' (base w + 1)). split.
    + run_steps. cbn [base queue]. by rewrite (bindM_lift _ _ _ (base w + 1)) by (apply add_u64_eq; lia).
    + exists r, recs'. split_and!; [done|done| |done|done|done]. split; [done|]. simpl. lia.
  - exists (mkRefWindow q' (base w)). done.
Qed.

Lemma readable_tail db base r recs k : readable db base (r :: recs) k -> readable db (base + 1) recs (pred k).
Proof.
  intros [Hf Hk Hj]. split; [done|simpl in Hk; lia|]. intros i Hi. specialize (Hj (S i) ltac:(lia)).
  replace (base + 1 + N.of_nat i) with (base + N.of_nat (S i)) by lia. rewrite Hj. by destruct k.
Qed.

(** The record that [note_canonical] makes of the changes. *)
Definition noted (h : B) (q : death_queue) (c : ChangeSet K) : record :=
  mkPruningRecord h (match q with Mem _ _ => (cs_inserted c).*1 | DbBacked _ _ _ => [] end) (cs_deleted c).

Lemma queue_import_ok {E} base recs q r : represents base recs q -> base + N.of_nat (length recs) < u64_MAX ->
  match q with Mem rows _ => fresh_deletes rows r | DbBacked _ _ _ => True end ->
  exists q', import (E := E) base (base + N.of_nat (length recs)) r q = Ok q' /\ represents base (recs ++ [r]) q'.
Proof.
  intros Hq Hmax Hfresh. destruct Hq as [index Hix|n capacity last Hcap Hn Hl]; unfold import.
  - destruct (import_mem_ok (E := E) base r recs index Hix Hfresh Hmax) as (index' & Hrun & Hix'). rewrite Hrun. cbn [bind fst snd].
    eexists. split; [done|]. by constructor.
  - rewrite length_map, length_take_le by done. rewrite add_u64_eq by lia. cbn [bind]. eexists. split; [done|].
    assert (match Some (base + N.of_nat (length recs)) with Some l => l + 1 = base + N.of_nat (length (recs ++ [r])) | None => recs ++ [r] = [] end) as Hl'
      by (rewrite length_app; simpl; lia).
    destruct (N.eqb_spec (base + N.of_nat (length recs)) (base + N.of_nat n)) as [Heq|Hne]; [|cbn [andb]].
    + assert (n = length recs) as -> by lia. destruct (Nat.ltb_spec (length recs) capacity); cbn [andb].
      * replace (map row_of (take (length recs) recs) ++ [row_of r]) with (map row_of (take (S (length recs)) (recs ++ [r]))).
        { apply rep_db; [done|rewrite length_app; simpl; lia|done]. }
        rewrite (take_ge recs), take_ge, map_app by (rewrite ?length_app; simpl; lia). done.
      * rewrite <- (take_app_le recs [r]) by done. apply rep_db; [done|rewrite length_app; lia|done].
    + rewrite <- (take_app_le recs [r]) by done. apply rep_db; [done|rewrite length_app; lia|done].
Qed.

Lemma import_in_memory {E} base number r (q q' : death_queue) : import (E := E) base number r q = Ok q' -> in_memory q' = in_memory q.
Proof.
  unfold import. destruct q as [rows index|cache capacity last].
  - destruct (import_mem base r rows index) as [x|e| |]; cbn [bind]; try done. by intros [= <-].
  - destruct (add_u64 base _) as [x|e| |]; cbn [bind]; try done. by intros [= <-].
Qed.

(** A window that nothing was noted in yet may start anywhere. *)
Definition unstarted w recs : bool := (base w =? 0) && bool_decide (recs = []).

Lemma unstarted_represents q n : represents 0 [] q -> represents n [] q.
Proof.
  intros Hq. inversion Hq as [index Hix Heq|i capacity last Hcap Hn Hl Heq]; subst.
  - apply (rep_mem n []). intros k m. rewrite (Hix k m). split; intros (j & r & ? & _); done.
  - apply (rep_db n [] i); [done|done|]. destruct last; [simpl in Hl; lia|done].
Qed.

Definition started (number : N) w recs : list (bytes * DBValue) :=
  if unstarted w recs && (0 <? number) then [(pruned_key, encode (number - 1))] else [].

Lemma start_window_ok w recs number : window_ok w recs -> number <= u64_MAX ->
  number = base w + N.of_nat (length recs) \/ unstarted w recs = true ->
  start_window (CE := CE) (DE := DE) number w = (mkRefWindow (queue w) (number - N.of_nat (length recs)), Ok (started number w recs)) /\
  represents (number - N.of_nat (length recs)) recs (queue w).
Proof.
  intros Hw Hmax Hnum. pose proof Hw as [Hq _]. unfold start_window, started. run_steps.
  rewrite (bindM_lift _ _ _ (unstarted w recs && (0 <? number))).
  2:{ unfold unstarted. destruct (base w =? 0); cbn [and_then andb]; [|done]. rewrite (is_empty_ok w recs Hw). done. }
  destruct (unstarted w recs) eqn:Hun; cbn [andb].
  - unfold unstarted in Hun. apply andb_true_iff in Hun as [Hb%N.eqb_eq Hr%bool_decide_eq_true]. subst recs. rewrite Hb in Hq.
    simpl length. rewrite N.sub_0_r. destruct (N.ltb_spec 0 number) as [Hpos|Hzero].
    + run_steps. rewrite (bindM_lift _ _ _ (number - 1)) by (apply sub_u64_eq; lia). split; [done|by apply unstarted_represents].
    + assert (number = 0) as -> by lia. rewrite (bindM_lift _ _ _ 0) by (by rewrite (queue_len_ok w [] Hw)).
      rewrite (bindM_lift _ _ _ 0) by (rewrite Hb; by apply add_u64_eq). rewrite N.eqb_refl. split; [|done]. destruct w. simpl in Hb. by subst.
  - destruct Hnum as [->|]; [|done]. rewrite (bindM_lift _ _ _ _ (queue_len_ok w recs Hw)).
    rewrite (bindM_lift _ _ _ (base w + N.of_nat (length recs))) by (apply add_u64_eq; lia). rewrite N.eqb_refl.
    replace (base w + N.of_nat (length recs) - N.of_nat (length recs)) with (base w) by lia. split; [by destruct w|done].
Qed.

Lemma note_canonical_ok w recs h number commit : window_ok w recs -> number < u64_MAX ->
  number = base w + N.of_nat (length recs) \/ unstarted w recs = true ->
  match queue w with Mem rows _ => fresh_deletes rows (noted h (queue w) (data commit)) | DbBacked _ _ _ => True end ->
  exists w', note_canonical (CE := CE) (DE := DE) h number commit w =
      (w', Ok (mkCommitSet (mkChangeSet (cs_inserted (data commit)) [])
         (mkChangeSet (cs_inserted (meta commit) ++ started number w recs ++
                         [(pruning_journal_key number, encode (noted h (queue w) (data commit)))])
                      (cs_deleted (meta commit))))) /\
    window_ok w' (recs ++ [noted h (queue w) (data commit)]) /\ base w' + N.of_nat (length recs) = number /\
    in_memory (queue w') = in_memory (queue w).
Proof.
  intros Hw Hmax Hnum Hfresh. destruct (start_window_ok w recs number Hw ltac:(lia) Hnum) as [Hstart Hq].
  assert (N.of_nat (length recs) <= number) as Hle.
  { destruct Hnum as [->|Hun]; [lia|]. apply andb_true_iff in Hun as [_ ->%bool_decide_eq_true]. simpl. lia. }
  unfold note_canonical. step_with Hstart. run_steps. cbn [base queue].
  destruct (queue_import_ok (E := error) (number - N.of_nat (length recs)) recs (queue w) (noted h (queue w) (data commit)) Hq ltac:(lia) Hfresh)
    as (q' & Hrun & Hq'). replace (number - N.of_nat (length recs) + N.of_nat (length recs)) with number in Hrun by lia.
  pose proof (import_in_memory _ _ _ _ _ Hrun) as Hmem.
  unfold noted in Hrun. rewrite (bindM_lift _ _ _ _ Hrun). run_steps. eexists. split; [done|]. split; [|split; [simpl; lia|done]].
  split; [done|]. simpl. rewrite length_app. simpl. lia.
Qed.

Lemma note_canonical_error w recs h number commit : window_ok w recs -> unstarted w recs = false ->
  number <> base w + N.of_nat (length recs) ->
  note_canonical (CE := CE) (DE := DE) h number commit w = (w, Err (StateDb InvalidBlockNumber)).
Proof.
  intros Hw Hun Hne. unfold note_canonical, start_window. unfold bindM at 1. run_steps.
  rewrite (bindM_lift _ _ _ false).
  2:{ unfold unstarted in Hun. destruct (base w =? 0); cbn [and_then andb] in *; [|done]. rewrite (is_empty_ok w recs Hw). cbn [bind]. by rewrite Hun. }
  rewrite (bindM_lift _ _ _ _ (queue_len_ok w recs Hw)).
  rewrite (bindM_lift _ _ _ (base w + N.of_nat (length recs))) by (apply add_u64_eq; apply Hw).
  by rewrite (proj2 (N.eqb_neq _ _)) by congruence.
Qed.

(** What [have_block] answers. *)
Definition has_block w recs (h : B) (number : N) : HaveBlock :=
  match (if number <? base w then None else recs !! N.to_nat (number - base w)) with
  | None => No
  | Some r =>
      match queue w with
      | DbBacked cache _ _ => if (N.to_nat (number - base w) <? length cache)%nat then have_block_from (bool_decide (pr_hash r = h)) else Maybe
      | Mem _ _ => have_block_from (bool_decide (pr_hash r = h))
      end
  end.

Lemma rw_have_block_ok {E} w recs h number : window_ok w recs -> rw_have_block (E := E) w h number = Ok (has_block w recs h number).
Proof.
  intros Hw. pose proof Hw as [Hq Hmax]. unfold rw_have_block, has_block. rewrite (is_empty_ok w recs Hw), (queue_len_ok w recs Hw). cbn [bind].
  destruct (bool_decide_reflect (recs = [])) as [->|Hne]; cbn [or_else bind]; [by destruct (number <? base w)|].
  destruct (N.ltb_spec number (base w)); cbn [or_else bind]; [done|]. rewrite add_u64_eq by done. cbn [bind].
  destruct (N.leb_spec (base w + N.of_nat (length recs)) number) as [Hge|Hlt].
  { destruct (recs !! N.to_nat (number - base w)) as [r|] eqn:Hr; [|done]. apply lookup_lt_Some in Hr. lia. }
  destruct (lookup_lt_is_Some_2 recs (N.to_nat (number - base w))) as [r Hr]; [lia|]. rewrite Hr, sub_u64_eq by lia. cbn [bind].
  unfold queue_have_block. destruct Hq as [index Hix|n capacity last Hcap Hn Hl].
  - pose proof (f_equal (fun l => l !! N.to_nat (number - base w)) (rows_of_hash recs)) as Hx. cbv beta in Hx.
    change (map dr_hash (rows_of recs)) with (dr_hash <$> rows_of recs) in Hx. change (map pr_hash recs) with (pr_hash <$> recs) in Hx.
    rewrite !list_lookup_fmap, Hr in Hx. destruct (rows_of recs !! _) as [x|]; [|done]. cbn [expect bind]. simpl in Hx. by injection Hx as ->.
  - change (map row_of (take n recs)) with (row_of <$> take n recs). rewrite list_lookup_fmap, length_fmap, length_take_le by done.
    destruct (Nat.ltb_spec (N.to_nat (number - base w)) n).
    + rewrite lookup_take_lt by done. by rewrite Hr.
    + by rewrite lookup_take_ge.
Qed.

(** ** Opening *)

(** What the metadata holds for a window. *)
Record stored (m : gmap bytes DBValue) (base : N) recs : Prop := {
  st_pruned : m !! pruned_key = if base =? 0 then None else Some (encode (base - 1));
  st_journal n : base <= n <= u64_MAX -> m !! pruning_journal_key n = encode <$> recs !! N.to_nat (n - base)
}.

(** The keys of the window. *)
Definition window_key (k : bytes) : Prop := k = pruned_key \/ exists n, k = pruning_journal_key n.

Lemma stored_same (m m' : gmap bytes DBValue) base recs : stored m base recs -> (forall k, window_key k -> m' !! k = m !! k) -> stored m' base recs.
Proof.
  intros [S1 S2] Hsame. split; [by rewrite Hsame by by left|]. intros n Hn. rewrite Hsame by (right; by eexists). by apply S2.
Qed.

Lemma stored_noted m w recs number r : stored m (base w) recs -> window_ok w recs -> number <= u64_MAX ->
  number = base w + N.of_nat (length recs) \/ unstarted w recs = true ->
  stored (apply_changes (mkChangeSet (started number w recs ++ [(pruning_journal_key number, encode r)]) []) m)
    (number - N.of_nat (length recs)) (recs ++ [r]).
Proof.
  intros [S1 S2] [_ Hmax] Hn64 Hnum. split.
  - rewrite apply_changes_skip by (intros Hx; symmetry in Hx; by apply pruning_not_pruned in Hx). unfold started, unstarted in *.
    destruct (base w =? 0) eqn:Hb; [destruct (bool_decide_reflect (recs = [])) as [->|Hne]|]; cbn [andb] in *.
    + simpl length. rewrite N.sub_0_r. destruct (N.ltb_spec 0 number).
      * rewrite apply_changes_one by apply not_elem_of_nil. by rewrite (proj2 (N.eqb_neq _ _)) by lia.
      * rewrite apply_changes_other by apply not_elem_of_nil. rewrite decide_False by apply not_elem_of_nil. by rewrite S1, (proj2 (N.eqb_eq number 0)) by lia.
    + rewrite apply_changes_other by apply not_elem_of_nil. rewrite decide_False by apply not_elem_of_nil. apply N.eqb_eq in Hb.
      destruct Hnum as [->|]; [|done]. rewrite S1. by replace (base w + N.of_nat (length recs) - N.of_nat (length recs)) with (base w) by lia; rewrite Hb.
    + rewrite apply_changes_other by apply not_elem_of_nil. rewrite decide_False by apply not_elem_of_nil.
      destruct Hnum as [->|]; [|done]. rewrite S1. by replace (base w + N.of_nat (length recs) - N.of_nat (length recs)) with (base w) by lia; rewrite Hb.
  - intros n Hn. assert (number - N.of_nat (length recs) + N.of_nat (length recs) = number) as Hsum.
    { destruct Hnum as [->|Hun]; [lia|]. apply andb_true_iff in Hun as [_ ->%bool_decide_eq_true]. simpl. lia. }
    destruct (decide (n = number)) as [->|Hne].
    + rewrite apply_changes_last by apply not_elem_of_nil. replace (N.to_nat (number - (number - N.of_nat (length recs)))) with (length recs) by lia.
      by rewrite list_lookup_middle.
    + rewrite apply_changes_skip by (intros Hx; apply pruning_key_inj in Hx; [done|lia|lia]).
      rewrite apply_changes_other. 2:{ unfold started. destruct (_ && _); simpl; [|apply not_elem_of_nil]. intros Hx%list_elem_of_singleton.
        by apply pruning_not_pruned in Hx. }
      rewrite decide_False by apply not_elem_of_nil. destruct Hnum as [->|Hun].
      * replace (base w + N.of_nat (length recs) - N.of_nat (length recs)) with (base w) in * by lia. rewrite S2 by lia. f_equal.
        destruct (decide (n < base w + N.of_nat (length recs))); [by rewrite lookup_app_l by lia|].
        rewrite !lookup_ge_None_2; [done|rewrite length_app; simpl; lia|lia].
      * apply andb_true_iff in Hun as [Hb%N.eqb_eq ->%bool_decide_eq_true]. simpl length in *. rewrite S2 by lia. rewrite lookup_nil. simpl.
        rewrite lookup_ge_None_2; [done|]. simpl. lia.
Qed.

Lemma stored_pruned m base r recs : stored m base (r :: recs) -> base < u64_MAX ->
  stored (apply_changes (mkChangeSet [(pruned_key, encode base)] [pruning_journal_key base]) m) (base + 1) recs.
Proof.
  intros [S1 S2] Hmax. split.
  - rewrite apply_changes_one by (intros Hx%list_elem_of_singleton; symmetry in Hx; by apply pruning_not_pruned in Hx).
    rewrite (proj2 (N.eqb_neq _ _)) by lia. do 2 f_equal. lia.
  - intros n Hn. rewrite apply_changes_other by (intros Hx%list_elem_of_singleton; by apply pruning_not_pruned in Hx). cbn [cs_deleted].
    rewrite decide_False by (intros Hx%list_elem_of_singleton; apply pruning_key_inj in Hx; lia).
    rewrite S2 by lia. replace (N.to_nat (n - base)) with (S (N.to_nat (n - (base + 1)))) by lia. done.
Qed.

Lemma stored_readable db base recs : (forall key, failing db key = None) -> stored (entries db) base recs ->
  readable db base recs (length recs).
Proof.
  intros Hf [_ Hj]. split; [done|done|]. intros i Hi. rewrite Hj by lia. rewrite take_ge by done. by replace (N.to_nat (base + N.of_nat i - base)) with i by lia.
Qed.

(** Every record has its own entry. *)
Lemma stored_size m base recs : stored m base recs -> base + N.of_nat (length recs) <= u64_MAX -> (length recs <= size m)%nat.
Proof.
  intros [_ Hj] Hmax. set (ks := map (fun i => pruning_journal_key (base + N.of_nat i)) (seq 0 (length recs))).
  assert (NoDup ks) as Hnd.
  { apply NoDup_fmap_2_strong; [|apply NoDup_seq]. intros i j Hi%elem_of_seq Hj'%elem_of_seq Heq.
    apply pruning_key_inj in Heq; lia. }
  replace (length recs) with (length ks) by (unfold ks; by rewrite length_map, length_seq).
  rewrite <- size_dom, <- (size_list_to_set (C := gset bytes) _ Hnd). apply subseteq_size.
  intros k (i & -> & Hi%elem_of_seq)%elem_of_list_to_set%list_elem_of_fmap. apply elem_of_dom. rewrite Hj by lia.
  replace (N.to_nat (base + N.of_nat i - base)) with i by lia. destruct (lookup_lt_is_Some_2 recs i) as [r ->]; [lia|]. by eexists.
Qed.

Lemma new_mem_ok db base recs L : (forall key, failing db key = None) -> stored (entries db) base recs -> sound L recs ->
  base + N.of_nat (length recs) <= u64_MAX ->
  exists index, new_mem (CE := CE) db base = Ok (Mem (rows_of recs) index) /\ indexed base (rows_of recs) index.
Proof.
  intros Hf Hst Hs Hmax. pose proof (stored_size _ _ _ Hst Hmax) as Hsize.
  set (I := fun x : N * death_queue => exists j index, (j <= length recs)%nat /\ x = (base + N.of_nat j, Mem (rows_of (take j recs)) index) /\
    indexed base (rows_of (take j recs)) index).
  enough (post (new_mem (CE := CE) db base) (fun q => exists index, q = Mem (rows_of recs) index /\ indexed base (rows_of recs) index)
    (fun _ => False)) as Hpost.
  { unfold post in Hpost. destruct (new_mem db base) as [q| | |]; try done. destruct Hpost as (index & -> & Hix). by exists index. }
  apply (loop_post _ I (fun x => length recs - N.to_nat (fst x - base))%nat).
  - intros [block q] (j & index & Hj & [= -> ->] & Hix). unfold get_meta. rewrite Hf. cbn [bind].
    rewrite (st_journal _ _ _ Hst) by lia. replace (N.to_nat (base + N.of_nat j - base)) with j by lia.
    destruct (recs !! j) as [r|] eqn:Hr; cbn [fmap option_fmap option_map].
    + pose proof (lookup_lt_Some _ _ _ Hr) as Hlt. pose proof (take_S_r _ _ _ Hr) as Htake.
      unfold decoded. rewrite decode_encode by done. cbn [bind].
      assert (length (take j recs) = j) as Hlen by (by apply length_take_le).
      destruct (queue_import_ok (E := error) base (take j recs) (Mem (rows_of (take j recs)) index) r) as (q' & Hrun & Hq');
        [by constructor|rewrite Hlen; lia| |].
      { apply (sound_fresh L). rewrite <- Htake. eapply (sound_app L _ (drop (S j) recs)). by rewrite take_drop. }
      rewrite Hlen in Hrun. rewrite Hrun. cbn [bind]. rewrite add_u64_eq by lia. simpl. split; [|lia].
      unfold import in Hrun. rewrite <- Htake in Hq'. inversion Hq' as [index' Hix' Heq|n cap last Hcap Hn Hl Heq]; subst q'.
      * exists (S j), index'. split_and!; [lia|f_equal; lia|done].
      * destruct (import_mem _ _ _ _); done.
    + apply lookup_ge_None in Hr. simpl. exists index. rewrite take_ge in * by done. done.
  - exists 0%nat, ∅. split_and!; [lia|simpl; f_equal; lia|]. simpl. intros k n. rewrite lookup_empty. split; [done|]. by intros (i & r & ? & _).
  - simpl. lia.
Qed.

Definition canonical_number (last : option (B * N)) : option N := snd <$> last.

Section open.
Context {db : Database DE} {base : N} {recs : list record} {last : option (B * N)} (size : N).
Context (Hf : forall key, failing db key = None) (Hst : stored (entries db) base recs)
        (Hlast : entries db !! to_meta_key LAST_CANONICAL tt = encode <$> last)
        (Hfits : forall h n, last = Some (h, n) -> n < u64_MAX)
        (Hmax : base + N.of_nat (length recs) <= u64_MAX).

Lemma rw_new_reads count_insertions : rw_new (CE := CE) db size count_insertions =
  let! queue := (if count_insertions then new_mem db base else
    let! _ := match canonical_number last with
              | Some n => if debug_assertions then debug_assert (base <=? n + 1) else Ok tt
              | None => Ok tt
              end in
    new_db_backed db base (canonical_number last) size) in
  Ok (mkRefWindow queue base).
Proof.
  unfold rw_new, get_meta. rewrite !Hf. cbn [bind]. rewrite (st_pruned _ _ _ Hst), Hlast.
  assert ((match (if base =? 0 then None else Some (encode (base - 1))) with
           | Some buffer => let! n := decoded buffer in add_u64 n 1
           | None => Ok 0 end) = Ok (E := error) base) as ->.
  { destruct (N.eqb_spec base 0) as [->|Hb]; [done|]. unfold decoded. rewrite decode_encode by lia. cbn [bind].
    rewrite add_u64_eq by lia. f_equal. lia. }
  cbn [bind]. destruct last as [[h n]|]; cbn [fmap option_fmap option_map canonical_number snd bind]; [|done].
  specialize (Hfits h n eq_refl). unfold decoded. rewrite decode_encode by (simpl; lia). cbn [bind snd].
  by rewrite add_u64_eq by lia.
Qed.

Lemma rw_new_mem L : sound L recs ->
  exists index, rw_new (CE := CE) db size true = Ok (mkRefWindow (Mem (rows_of recs) index) base) /\ indexed base (rows_of recs) index.
Proof.
  intros Hs. rewrite rw_new_reads. destruct (new_mem_ok db base recs L Hf Hst Hs Hmax) as (index & Hrun & Hix).
  rewrite Hrun. by exists index.
Qed.

Lemma rw_new_db :
  match canonical_number last with Some l => l + 1 = base + N.of_nat (length recs) | None => recs = [] end ->
  exists w, rw_new (CE := CE) db size false = Ok w /\ window_ok w recs /\ Pruning.base w = base /\
    exists cache capacity, queue w = DbBacked cache capacity (canonical_number last).
Proof.
  intros Hl. rewrite rw_new_reads. set (capacity := N.to_nat (N.min (N.max size 1) DEFAULT_MAX_BLOCK_CONSTRAINT)).
  assert (0 < capacity)%nat as Hcap by (unfold capacity, DEFAULT_MAX_BLOCK_CONSTRAINT; lia).
  assert (new_db_backed (CE := CE) db base (canonical_number last) size =
    Ok (DbBacked (map row_of (take (capacity `min` length recs) recs)) capacity (canonical_number last))) as Hnew.
  { unfold new_db_backed. fold capacity. rewrite (load_batch_ok db base recs (length recs) capacity (stored_readable db base recs Hf Hst) Hmax). done. }
  assert (represents base recs (DbBacked (map row_of (take (capacity `min` length recs) recs)) capacity (canonical_number last))) as Hrep
    by (apply rep_db; [done|lia|done]).
  destruct (canonical_number last) as [l|]; cbn [bind].
  - replace (if debug_assertions then debug_assert (base <=? l + 1) else Ok tt) with (Ok (E := error) tt).
    2:{ unfold debug_assert. rewrite (proj2 (N.leb_le _ _)) by lia. by destruct debug_assertions. }
    cbn [bind]. rewrite Hnew. cbn [bind]. eexists. split; [done|]. split; [by split|]. split; [done|]. by eexists _, _.
  - rewrite Hnew. cbn [bind]. eexists. split; [done|]. split; [by split|]. split; [done|]. by eexists _, _.
Qed.
End open.
End spec.
