(* ===== verification/PruningSpec.v ===== *)
(** * The pruning window: what it guarantees *)

From stdpp Require Import strings.
From S2P Require Import Prelude StateDbTypes NonCanonical NonCanonicalCount Pruning PruningQueue PruningWindow StateDbExample.

#[local] Open Scope N_scope.

Section spec.
Context {P : Profile} {B K CE DE : Type} `{Countable B, Countable K}.
Context {enc_unit : Encode unit} {enc_u64 : Encode N} {enc_pair : Encode (N * N)} {enc_canonical : Encode (B * N)}
        {enc_record : Encode (PruningRecord B K)}.
Context {dec_canonical : Decode CE (B * N)} {dec_u64 : Decode CE N} {dec_record : Decode CE (PruningRecord B K)}.
Context {keys : KeyCodec enc_unit enc_u64 enc_pair}
        {rt_u64 : RoundTrip CE N enc_u64 dec_u64 (fun n => n <= u64_MAX)}
        {rt_canonical : RoundTrip CE (B * N) enc_canonical dec_canonical (fun x => snd x <= u64_MAX)}
        {rt_record : RoundTrip CE (PruningRecord B K) enc_record dec_record (fun _ => True)}.

Notation record := (PruningRecord B K).
Notation window := (RefWindow B K).
Implicit Types recs : list record.
Implicit Types db : Database DE.
Implicit Types w : window.

(** C15: both kinds of queue implement one window of records, from the front of which blocks are
    pruned and to the end of which they are noted: the size and the blocks of the window are those of the
    records; [next_hash] and [prune_one] go to the first record, which has to be in the cache or in
    the database when the queue is backed by it, and an error leaves the window as it was;
    and [note_canonical] takes the block with the next number, or any first block. *)
Theorem window_refines w recs db k commit : window_ok w recs -> readable db (base w) recs k ->
  let first := first_row (queue w) recs k in
  window_size (E := Error CE DE) w = Ok (N.of_nat (length recs)) /\
  (forall h number, rw_have_block (E := Error CE DE) w h number = Ok (has_block w recs h number)) /\
  (exists w', next_hash (CE := CE) db w = (w', Ok (dr_hash <$> first)) /\ window_ok w' recs /\ base w' = base w) /\
  (exists w', match first with
    | Some r => prune_one (CE := CE) db commit w = (w', Ok (prune_commit (base w) r commit)) /\
        window_ok w' (tail recs) /\ base w' = base w + 1
    | None => prune_one (CE := CE) db commit w = (w', Err (StateDb BlockUnavailable)) /\ window_ok w' recs /\ base w' = base w
    end) /\
  (forall h number, number < u64_MAX -> let r := noted h (queue w) (data commit) in
    match queue w with Mem rows _ => fresh_deletes rows r | DbBacked _ _ _ => True end ->
    if (number =? base w + N.of_nat (length recs)) || unstarted w recs then
      exists w', note_canonical (CE := CE) (DE := DE) h number commit w =
          (w', Ok (mkCommitSet (mkChangeSet (cs_inserted (data commit)) [])
             (mkChangeSet (cs_inserted (meta commit) ++ started number w recs ++ [(pruning_journal_key number, encode r)])
                          (cs_deleted (meta commit))))) /\
        window_ok w' (recs ++ [r]) /\ base w' + N.of_nat (length recs) = number
    else note_canonical (CE := CE) (DE := DE) h number commit w = (w, Err (StateDb InvalidBlockNumber))).
Proof.
  intros Hw Hr. split_and!.
  - by apply queue_len_ok.
  - intros h number. by apply rw_have_block_ok.
  - destruct (next_hash_ok db w recs k Hw Hr) as (w' & Hrun & Hw' & Hb & _). by exists w'.
  - destruct (prune_one_ok db w recs k commit Hw Hr) as (w' & Hprune). exists w'.
    destruct (first_row (queue w) recs k) as [x|]; [|by destruct Hprune as (? & ? & ? & _)].
    destruct Hprune as (Hrun & r & recs' & -> & _ & Hw' & Hb & _). done.
  - intros h number Hmax r Hfresh. destruct ((number =? base w + N.of_nat (length recs)) || unstarted w recs) eqn:Hor.
    + apply orb_true_iff in Hor. rewrite N.eqb_eq in Hor.
      destruct (note_canonical_ok (CE := CE) (DE := DE) w recs h number commit Hw Hmax Hor Hfresh) as (w' & Hrun & Hw' & Hb & _). by exists w'.
    + apply orb_false_iff in Hor as [Hne%N.eqb_neq Hun]. by apply (note_canonical_error w recs).
Qed.

(** A window that is opened again has the same records. In memory it is the very same window,
    rows and index; with the database it has the first records in its cache. *)
Theorem window_reopened db w recs L last size :
  window_ok w recs -> stored (entries db) (base w) recs -> (forall key, failing db key = None) ->
  entries db !! to_meta_key LAST_CANONICAL tt = encode <$> last -> (forall h n, last = Some (h, n) -> n < u64_MAX) ->
  match queue w with
  | Mem _ _ => sound L recs -> rw_new (CE := CE) db size true = Ok w
  | DbBacked _ _ l => l = canonical_number last -> exists w', rw_new (CE := CE) db size false = Ok w' /\ window_ok w' recs /\ base w' = base w
  end.
Proof.
  intros [Hq Hmax] Hst Hf Hlast Hfits. destruct w as [q b]. cbn [base queue] in *.
  destruct Hq as [index Hix|n capacity l Hcap Hn Hl].
  - intros Hs. destruct (rw_new_mem size Hf Hst Hlast Hfits Hmax L Hs) as (index' & Hrun & Hix').
    by rewrite Hrun, (indexed_eq _ _ _ _ Hix' Hix).
  - intros ->. destruct (rw_new_db size Hf Hst Hlast Hfits Hmax Hl) as (w' & Hrun & Hw' & Hb & _). by exists w'.
Qed.
End spec.

(** ** Examples *)

(** Block 1 of the first branch is noted in memory, then block 2. *)
Notation example_window := (RefWindow Byte.byte Byte.byte).

Definition example_noted (h : Byte.byte) : PruningRecord Byte.byte Byte.byte :=
  mkPruningRecord h (example_keys h) (cs_deleted (example_changes h)).
Definition example_start : example_window := mkRefWindow (Mem [] ∅) 0.
Definition example_note (h : Byte.byte) (w : example_window) : example_window * outcome (Error unit unit) (CommitSet Byte.byte) :=
  note_canonical (P := debug) h (number_of h) (mkCommitSet (example_changes h) no_changes) w.

Lemma example_start_ok : window_ok example_start [].
Proof.
  split; [|by vm_compute]. apply (rep_mem 0 []). intros k n. rewrite lookup_empty. split; [done|]. by intros (i & r & ? & _).
Qed.

Lemma example_start_readable : readable (example_db ∅) 0 [] 0.
Proof. split; [done|done|]. intros i _. simpl. by rewrite lookup_empty. Qed.

Lemma example_start_stored : stored ∅ 0 [].
Proof. split; [done|]. intros n _. by rewrite lookup_empty. Qed.

Lemma window_refines_witness : exists w' c, example_note (block_at 1 0) example_start = (w', Ok c) /\
  window_ok w' [example_noted (block_at 1 0)] /\ base w' + 0 = 1.
Proof.
  destruct (window_refines (P := debug) (CE := unit) example_start [] (example_db ∅) 0
    (mkCommitSet (example_changes (block_at 1 0)) no_changes) example_start_ok example_start_readable) as (_ & _ & _ & _ & Hnote).
  destruct (Hnote (block_at 1 0) 1) as (w' & Hrun & Hw & Hb); [by vm_compute|by intros i x k ?|].
  exists w'. eexists. split; [exact Hrun|]. split; [exact Hw|exact Hb].
Defined.

