(* ===== verification/StateDb.v ===== *)
(** * The state database

    Model of [StateDbSync] and [StateDb] in [client/state-db/src/lib.rs]: the non-canonical overlay
    and the pruning window put together, by the pruning mode. Every method of [StateDb] takes the
    lock around one method of [StateDbSync], so the model has the latter. [Database] is
    what the database holds when the method runs, which lags behind the commits that were
    handed out until the caller writes them. *)

From stdpp Require Import strings.
From S2P Require Import Prelude StateDbTypes NonCanonical Pruning.

#[local] Open Scope N_scope.

Record StateDbSync (B K : Type) `{Countable B, Countable K} : Type := mkStateDbSync {
  mode : PruningMode;
  non_canonical : NonCanonicalOverlay B K;
  pruning : option (RefWindow B K);
  sd_pinned : gmap B N;
  ref_counting : bool
}.
Arguments mkStateDbSync {B K _ _ _ _} _ _ _ _ _.
Arguments mode {B K _ _ _ _} _.
Arguments non_canonical {B K _ _ _ _} _.
Arguments pruning {B K _ _ _ _} _.
Arguments sd_pinned {B K _ _ _ _} _.
Arguments ref_counting {B K _ _ _ _} _.

(** The [Debug] output of bytes, two hexadecimal digits each. *)
Definition hex_digit (n : N) : string :=
  default ""%string ((fun c => String c EmptyString) <$> String.get (N.to_nat n) "0123456789abcdef").
Definition debug_hex (b : bytes) : string :=
  ("[" +:+ String.concat ", " (map (fun x => hex_digit (Byte.to_N x / 16) +:+ hex_digit (Byte.to_N x mod 16)) b) +:+ "]")%string.

Section model.
Context {P : Profile} {B K CE DE : Type} `{Countable B, Countable K}.
Context {enc_unit : Encode unit} {enc_u64 : Encode N} {enc_key : Encode (N * N)}
        {enc_canonical : Encode (B * N)} {enc_record : Encode (JournalRecord B K)}
        {enc_row : Encode (PruningRecord B K)}.
Context {dec_canonical : Decode CE (B * N)} {dec_u64 : Decode CE N}
        {dec_record : Decode CE (JournalRecord B K)} {dec_row : Decode CE (PruningRecord B K)}.

Notation state := (StateDbSync B K).
Notation error := (Error CE DE).

Definition sd_new (m : PruningMode) (rc : bool) (db : Database DE) : outcome error state :=
  let! nc := nc_new db in
  let! w := match m with
            | Constrained c => let! w := rw_new db (default 0 (max_blocks c)) rc in Ok (Some w)
            | ArchiveAll | ArchiveCanonical => Ok None
            end in
  Ok (mkStateDbSync m nc w ∅ rc).

(** A method of the overlay, on the whole. *)
Definition on_overlay {E A} (m : M (NonCanonicalOverlay B K) E A) : M state E A := fun s =>
  let '(nc, r) := m (non_canonical s) in
  (mkStateDbSync (mode s) nc (pruning s) (sd_pinned s) (ref_counting s), r).

(** A method of the window, when there is one. *)
Definition on_window {E A} (w : RefWindow B K) (m : M (RefWindow B K) E A) : M state E A := fun s =>
  let '(w, r) := m w in
  (mkStateDbSync (mode s) (non_canonical s) (Some w) (sd_pinned s) (ref_counting s), r).

Definition set_sd_pinned (x : gmap B N) (s : state) : state :=
  mkStateDbSync (mode s) (non_canonical s) (pruning s) x (ref_counting s).

Definition insert_block (h : B) (number : N) (parent_hash : B) (changeset : ChangeSet K)
  : M state error (CommitSet K) :=
  let* s := get_state in
  match mode s with
  | ArchiveAll => ret (mkCommitSet (mkChangeSet (cs_inserted changeset) []) no_changes)
  | Constrained _ | ArchiveCanonical =>
      map_errM StateDb (on_overlay (nc_insert h number parent_hash changeset))
  end.

(** The loop of [prune], with the pinned blocks and the number of blocks to keep. *)
Definition prune_step (db : Database DE) (pins : gmap B N) (keep : N) (commit : CommitSet K)
  : M (RefWindow B K) error (control (CommitSet K) (CommitSet K)) :=
  let* w := get_state in
  let* size := lift (window_size w) in
  if size <=? keep then ret (Break commit) else
  let* next := caught (next_hash db) in
  match next with
  | inl (StateDb BlockUnavailable) => ret (Break commit)
  | inl e => throw e
  | inr next =>
      if match next with Some h => bool_decide (is_Some (pins !! h)) | None => false end
      then ret (Break commit) else
      let* pruned := caught (prune_one db commit) in
      match pruned with
      | inl (StateDb BlockUnavailable) => ret (Break commit)
      | inl e => throw e
      | inr commit => ret (Continue commit)
      end
  end.

Definition prune_window (db : Database DE) (pins : gmap B N) (keep : N) (commit : CommitSet K)
  : M (RefWindow B K) error (CommitSet K) :=
  let* w := get_state in
  let* size := lift (window_size w) in
  loopM (S (N.to_nat size)) (prune_step db pins keep) commit.

Definition prune (db : Database DE) (commit : CommitSet K) : M state error (CommitSet K) :=
  let* s := get_state in
  match pruning s, mode s with
  | Some w, Constrained c => on_window w (prune_window db (sd_pinned s) (default 0 (max_blocks c)) commit)
  | _, _ => ret commit
  end.

Definition canonicalize_block (db : Database DE) (h : B) : M state error (CommitSet K) :=
  let* s := get_state in
  if decide (mode s = ArchiveAll) then ret empty_commit else
  let* '(number, commit) := map_errM StateDb (on_overlay (nc_canonicalize h empty_commit)) in
  let commit := if decide (mode s = ArchiveCanonical)
                then mkCommitSet (mkChangeSet (cs_inserted (data commit)) []) (meta commit)
                else commit in
  let* commit := match pruning s with
                 | Some w => on_window w (note_canonical h number commit)
                 | None => ret commit
                 end in
  prune db commit.

Definition sd_last_canonicalized (s : state) : LastCanonicalized :=
  if decide (mode s = ArchiveAll) then NotCanonicalizing else
  match last_canonicalized_block_number (non_canonical s) with
  | Some n => Block n
  | None => NoBlock
  end.

Definition is_pruned {E} (s : state) (h : B) (number : N) : outcome E IsPruned :=
  match mode s with
  | ArchiveAll => Ok NotPruned
  | ArchiveCanonical | Constrained _ =>
      if match last_canonicalized_block_number (non_canonical s) with
         | Some c => c <? number
         | None => true
         end
      then Ok (if nc_have_block (non_canonical s) h then NotPruned else Pruned)
      else match pruning s with
           | None => Ok MaybePruned
           | Some w =>
               let! have := rw_have_block w h number in
               Ok (match have with No => Pruned | Yes => NotPruned | Maybe => MaybePruned end)
           end
  end.

Definition revert_one {E} : M state E (option (CommitSet K)) :=
  let* s := get_state in
  match mode s with
  | ArchiveAll => ret (Some empty_commit)
  | ArchiveCanonical | Constrained _ => on_overlay nc_revert_one
  end.

Definition remove {E} (h : B) : M state E (option (CommitSet K)) :=
  let* s := get_state in
  match mode s with
  | ArchiveAll => ret (Some empty_commit)
  | ArchiveCanonical | Constrained _ => on_overlay (nc_remove h)
  end.

(** [hint] is the answer of the closure. *)
Definition pin (h : B) (number : N) (hint : bool) : M state PinError unit :=
  let* s := get_state in
  match mode s with
  | ArchiveAll => ret tt
  | ArchiveCanonical | Constrained _ =>
      let* have := lift (nc_have_block (non_canonical s) h ||!
        match pruning s with
        | None => Ok hint
        | Some w =>
            let! have := rw_have_block w h number in
            Ok (match have with No => false | Yes => true | Maybe => hint end)
        end) in
      if have then
        let refs := default 0 (sd_pinned s !! h) in
        let* _ := (if refs =? 0 then on_overlay (nc_pin h) else ret tt) in
        let* refs := lift (add_u32 refs 1) in
        modify_state (fun s => set_sd_pinned (<[h := refs]> (sd_pinned s)) s)
      else throw PinInvalidBlock
  end.

Definition unpin {E} (h : B) : M state E unit :=
  let* s := get_state in
  match sd_pinned s !! h with
  | None => ret tt
  | Some refs =>
      let* refs := lift (sub_u32 refs 1) in
      if refs =? 0 then
        let* _ := put_state (set_sd_pinned (delete h (sd_pinned s)) s) in
        on_overlay (nc_unpin h)
      else put_state (set_sd_pinned (<[h := refs]> (sd_pinned s)) s)
  end.

Definition sync {E} : M state E unit := on_overlay nc_sync.

(** [node_db] is the column of the nodes. *)
Definition get (s : state) (node_db : K -> DE + option DBValue) (key : K) : outcome error (option DBValue) :=
  match nc_get (non_canonical s) key with
  | Some value => Ok (Some value)
  | None => match node_db key with
            | inl e => Err (Db e)
            | inr v => Ok v
            end
  end.

(** ** Opening *)

Definition fetch_stored_pruning_mode (db : Database DE) : outcome error (option PruningMode) :=
  let! found := get_meta db (to_meta_key PRUNING_MODE tt) in
  match found with
  | Some stored_mode =>
      match mode_from_id stored_mode with
      | Some m => Ok (Some m)
      | None => Err (StateDb (Metadata ("Invalid value stored for PRUNING_MODE: " +:+ debug_hex stored_mode)))
      end
  | None => Ok None
  end.

Definition choose_pruning_mode (stored requested : PruningMode) : outcome (StateDbError CE) PruningMode :=
  match stored, requested with
  | ArchiveAll, ArchiveAll => Ok ArchiveAll
  | ArchiveCanonical, ArchiveCanonical => Ok ArchiveCanonical
  | Constrained _, Constrained requested => Ok (Constrained requested)
  | stored, requested => Err (IncompatiblePruningModes stored requested)
  end.

Definition select_mode (should_init : bool) (stored requested : option PruningMode) : outcome error PruningMode :=
  match should_init, stored, requested with
  | true, Some _, _ => Panic
  | true, None, requested => Ok (default default_mode requested)
  | false, None, _ => Err (StateDb (Metadata "An existing StateDb does not have PRUNING_MODE stored in its meta-data"))
  | false, Some stored, None => Ok stored
  | false, Some stored, Some requested => map_err StateDb (choose_pruning_mode stored requested)
  end.

Definition open (db : Database DE) (requested_mode : option PruningMode) (rc should_init : bool)
  : outcome error (CommitSet K * state) :=
  let! stored_mode := fetch_stored_pruning_mode db in
  let! selected_mode := select_mode should_init stored_mode requested_mode in
  let commit := if should_init
                then mkCommitSet no_changes
                       (mkChangeSet [(to_meta_key PRUNING_MODE tt, mode_id selected_mode)] [])
                else empty_commit in
  let! s := sd_new selected_mode rc db in
  Ok (commit, s).

Definition reset (db : Database DE) : M state error unit :=
  let* s := get_state in
  let* s := lift (sd_new (mode s) (ref_counting s) db) in
  put_state s.
End model.
