(* ===== verification/StateDbPrune.v ===== *)
(** * The state database: pruning

    The loop that prunes the window down to its size, and what noting and pruning blocks makes of the
    metadata and of the nodes in the database. *)

From stdpp Require Import strings.
From S2P Require Import Prelude StateDbTypes NonCanonical Pruning PruningQueue PruningWindow StateDb.

#[local] Open Scope N_scope.

Section spec.
Context {P : Profile} {B K CE DE : Type} `{Countable B, Countable K}.
Context {enc_unit : Encode unit} {enc_u64 : Encode N} {enc_pair : Encode (N * N)} {enc_canonical : Encode (B * N)}
        {enc_record : Encode (PruningRecord B K)}.
Context {dec_canonical : Decode CE (B * N)} {dec_u64 : Decode CE N} {dec_record : Decode CE (PruningRecord B K)}.
Context {keys : KeyCodec enc_unit enc_u64 enc_pair}
        {rt_u64 : RoundTrip CE N enc_u64 dec_u64 (fun n => n <= u64_MAX)}
        {rt_canonical : RoundTrip CE (B * N) enc_canonical dec_canonical (fun x => snd x <= u64_MAX)}
        {rt_record : RoundTrip CE (PruningRecord B K) enc_record dec_record (fun _ => True)}.

Notation record := (PruningRecord B K).
Notation row := (DeathRow B K).
Notation window := (RefWindow B K).
Notation error := (Error CE DE).
Notation pruned_key := (to_meta_key LAST_PRUNED tt).
Implicit Types recs : list record.
Implicit Types db : Database DE.
Implicit Types w : window.

(** ** The loop *)

(** How many blocks are pruned: from the front, while there are more than [keep] and the block
    can be had and is not pinned. *)
Fixpoint prunable (pins : gmap B N) (keep : N) (avail : nat) recs {struct recs} : nat :=
  match recs, avail with
  | r :: rest, S avail =>
      if (N.of_nat (length recs) <=? keep) || bool_decide (is_Some (pins !! pr_hash r)) then 0%nat
      else S (prunable pins keep avail rest)
  | _, _ => 0%nat
  end.

Fixpoint prune_commits (base : N) (rows : list row) (commit : CommitSet K) : CommitSet K :=
  match rows with
  | [] => commit
  | x :: rows => prune_commits (base + 1) rows (prune_commit base x commit)
  end.

Lemma caught_ok {S E E' A} (m : M S E A) s s' a : m s = (s', Ok a) -> caught (E' := E') m s = (s', Ok (inr a)).
Proof. unfold caught. by intros ->. Qed.

Lemma caught_err {S E E' A} (m : M S E A) s s' e : m s = (s', Err e) -> caught (E' := E') m s = (s', Ok (inl e)).
Proof. unfold caught. by intros ->. Qed.

(** One round. *)
Lemma prune_step_ok db pins keep commit w recs k : window_ok w recs -> readable db (base w) recs k ->
  exists w', match recs, available (queue w) recs k with
    | r :: rest, S _ =>
        if (N.of_nat (length recs) <=? keep) || bool_decide (is_Some (pins !! pr_hash r))
        then prune_step db pins keep commit w = (w', Ok (Break commit)) /\ window_ok w' recs /\ base w' = base w /\ in_memory (queue w') = in_memory (queue w)
        else exists x, prune_step db pins keep commit w = (w', Ok (Continue (prune_commit (base w) x commit))) /\ pruned_window w recs k x w'
    | _, _ => prune_step db pins keep commit w = (w', Ok (Break commit)) /\ window_ok w' recs /\ base w' = base w /\ in_memory (queue w') = in_memory (queue w)
    end.
Proof.
  intros Hw Hr. pose proof (queue_len_ok (E := error) w recs Hw) as Hlen.
  destruct (N.leb_spec (N.of_nat (length recs)) keep) as [Hle|Hgt].
  { assert (prune_step db pins keep commit w = (w, Ok (Break commit))) as Hrun.
    { unfold prune_step. run_steps. rewrite (bindM_lift _ _ _ _ Hlen). by rewrite (proj2 (N.leb_le _ _)). }
    exists w. destruct recs as [|r rest]; [done|]. by destruct (available _ _ _). }
  destruct (next_hash_ok db w recs k Hw Hr) as (w1 & Hnext & Hw1 & Hb1 & Hav1 & Hmem1).
  assert (readable db (base w1) recs k) as Hr1 by by rewrite Hb1.
  destruct (prune_one_ok db w1 recs k commit Hw1 Hr1) as (w2 & Hprune). unfold first_row, rows_for in *. rewrite Hav1, Hmem1 in Hprune.
  destruct recs as [|r rest]; [simpl in Hgt; lia|]. cbn [orb].
  destruct (available (queue w) (r :: rest) k) as [|a] eqn:Hav; cbn [Nat.eqb] in *.
  - destruct Hprune as (Hprune & Hw2 & Hb2 & Hmem2). exists w2. split_and!; [|done|congruence|congruence].
    unfold prune_step. run_steps. rewrite (bindM_lift _ _ _ _ Hlen), (proj2 (N.leb_gt _ _) Hgt), (bindM_ok _ _ _ _ _ (caught_ok _ _ _ _ Hnext)).
    cbn [fmap option_fmap option_map]. by rewrite (bindM_ok _ _ _ _ _ (caught_err _ _ _ _ Hprune)).
  - assert (exists x, head (if in_memory (queue w) then rows_of (r :: rest) else map row_of (r :: rest)) = Some x /\ dr_hash x = pr_hash r) as (x & Hx & Hhash).
    { destruct (in_memory (queue w)); by eexists. }
    rewrite Hx in Hprune, Hnext. cbn [fmap option_fmap option_map] in Hnext. rewrite Hhash in Hnext.
    destruct (bool_decide (is_Some (pins !! pr_hash r))) eqn:Hpin.
    + exists w1. split_and!; try done.
      unfold prune_step. run_steps. rewrite (bindM_lift _ _ _ _ Hlen), (proj2 (N.leb_gt _ _) Hgt), (bindM_ok _ _ _ _ _ (caught_ok _ _ _ _ Hnext)).
      by rewrite Hpin.
    + destruct Hprune as (Hprune & r' & rest' & Heq & Hrows & Hw2 & Hb2 & Hmem2 & Hav2). exists w2, x. rewrite Hb1 in Hprune. split.
      * unfold prune_step. run_steps. rewrite (bindM_lift _ _ _ _ Hlen), (proj2 (N.leb_gt _ _) Hgt), (bindM_ok _ _ _ _ _ (caught_ok _ _ _ _ Hnext)).
        rewrite Hpin. by rewrite (bindM_ok _ _ _ _ _ (caught_ok _ _ _ _ Hprune)).
      * exists r', rest'. unfold rows_for in *. rewrite Hmem1, Hb1 in *. split_and!; try done; congruence.
Qed.

Lemma prune_loop_ok fuel db pins keep commit w recs k : (length recs < fuel)%nat -> window_ok w recs -> readable db (base w) recs k ->
  let n := prunable pins keep (available (queue w) recs k) recs in
  exists w', loopM fuel (prune_step db pins keep) commit w =
      (w', Ok (prune_commits (base w) (take n (rows_for (queue w) recs)) commit)) /\
    window_ok w' (drop n recs) /\ base w' = base w + N.of_nat n /\ in_memory (queue w') = in_memory (queue w).
Proof.
  revert commit w recs k. induction fuel as [|fuel IH]; intros commit w recs k Hfuel Hw Hr; [lia|]. cbn [loopM].
  destruct (prune_step_ok db pins keep commit w recs k Hw Hr) as (w1 & Hbody).
  destruct recs as [|r rest]; [|destruct (available (queue w) (r :: rest) k) as [|a] eqn:Hav; [|destruct (_ || _) eqn:Hstop]];
    [..|destruct Hbody as (x & Hrun & r' & rest' & Heq & Hrows & Hw1 & Hb1 & Hmem1 & Hav1)]; cbn [prunable]; rewrite ?Hstop.
  1-3: destruct Hbody as (Hrun & Hw1 & Hb1 & Hmem1); exists w1; step_with Hrun; cbn [take drop prune_commits]; split_and!; [done|done|lia|done].
  injection Heq as <- <-. simpl in Hfuel. rewrite Hav in Hav1. simpl in Hav1.
  destruct (IH (prune_commit (base w) x commit) w1 rest (pred k)) as (w2 & Hrun2 & Hw2 & Hb2 & Hmem2); [lia|done|rewrite Hb1; by eapply readable_tail|].
  unfold rows_for in *. rewrite Hav1, Hmem1 in *. exists w2. step_with Hrun. rewrite Hrun2, Hb1, Hrows. cbn [take drop prune_commits].
  split_and!; [done|done|lia|done].
Qed.

Lemma prune_window_ok db pins keep commit w recs k : window_ok w recs -> readable db (base w) recs k ->
  let n := prunable pins keep (available (queue w) recs k) recs in
  exists w', prune_window db pins keep commit w =
      (w', Ok (prune_commits (base w) (take n (rows_for (queue w) recs)) commit)) /\
    window_ok w' (drop n recs) /\ base w' = base w + N.of_nat n /\ in_memory (queue w') = in_memory (queue w).
Proof.
  intros Hw Hr. destruct (prune_loop_ok (S (length recs)) db pins keep commit w recs k ltac:(lia) Hw Hr) as (w' & Hrun & Hrest).
  exists w'. split; [|done]. unfold prune_window. run_steps. rewrite (bindM_lift _ _ _ _ (queue_len_ok w recs Hw)).
  rewrite Nat2N.id. exact Hrun.
Qed.

Notation metadata := (gmap bytes DBValue).
Implicit Types m : metadata.

(** ** The nodes *)

(** The nodes in the database, for a queue in memory: those of the last block and those that are
    still to be deleted. [L] are the nodes of the state before the window. *)
Definition nodes_ok (D : gmap K DBValue) (L : gset K) recs : Prop := sound L recs /\ dom D = live L recs ∪ pending recs.

Lemma nodes_states D L recs X : nodes_ok D L recs -> X ∈ states L recs -> X ⊆ dom D.
Proof. intros [_ ->]. apply states_covered. Qed.

Lemma nodes_noted D L recs r (kvs : list (K * DBValue)) : nodes_ok D L recs -> pr_inserted r = kvs.*1 ->
  (forall k, k ∈ pr_deleted r -> k ∈ live L recs \/ k ∈ pr_inserted r) ->
  nodes_ok (apply_changes (mkChangeSet kvs []) D) L (recs ++ [r]).
Proof.
  intros [Hs HD] Hins Hdel. split; [by apply sound_snoc|]. rewrite apply_changes_dom. cbn [cs_inserted cs_deleted].
  rewrite <- Hins, HD, live_snoc. unfold pending. rewrite rows_of_snoc, map_app, map_map, union_list_app_L. simpl. unfold after.
  apply set_eq. intros k. rewrite !elem_of_union, elem_of_difference, !elem_of_union, elem_of_difference, elem_of_union, !elem_of_list_to_set.
  assert (k ∈ ⋃ map (fun x => dr_deleted x ∖ list_to_set (pr_inserted r)) (rows_of recs) <->
    k ∈ ⋃ map dr_deleted (rows_of recs) /\ k ∉ pr_inserted r) as Hx.
  { rewrite !elem_of_union_list. setoid_rewrite list_elem_of_fmap. split.
    - intros (X & (x & -> & Hx) & Hk). rewrite elem_of_difference, elem_of_list_to_set in Hk. split; [|tauto].
      exists (dr_deleted x). split; [by exists x|tauto].
    - intros [(X & (x & -> & Hx) & Hk) Hn]. exists (dr_deleted x ∖ list_to_set (pr_inserted r)). split; [by exists x|].
      by rewrite elem_of_difference, elem_of_list_to_set. }
  rewrite Hx. specialize (Hdel k). rewrite !elem_of_empty.
  destruct (decide (k ∈ pr_deleted r)), (decide (k ∈ pr_inserted r)); tauto.
Qed.

Lemma nodes_pruned D L r recs : nodes_ok D L (r :: recs) ->
  nodes_ok (apply_changes (mkChangeSet [] (elements (dr_deleted (spare_row (concat (map pr_inserted recs)) (row_of r))))) D) (after L r) recs.
Proof.
  intros [Hs HD]. split; [apply Hs|]. rewrite apply_changes_dom. cbn [cs_inserted cs_deleted]. rewrite list_to_set_elements_L, HD, pending_cons.
  change (live L (r :: recs)) with (live (after L r) recs).
  apply set_eq. intros k. pose proof (pending_disjoint L r recs k Hs) as Hdis. pose proof (pending_dead L (r :: recs) k) as Hdead.
  change (live L (r :: recs)) with (live (after L r) recs) in Hdead. rewrite pending_cons in Hdead.
  change (dr_deleted (spare_row (concat (map pr_inserted recs)) (row_of r))) with
    (list_to_set (C := gset K) (pr_deleted r) ∖ list_to_set (concat (map pr_inserted recs))) in *.
  set (R := list_to_set (C := gset K) (pr_deleted r) ∖ list_to_set (concat (map pr_inserted recs))) in *. clearbody R.
  rewrite elem_of_difference, !elem_of_union in *. rewrite (elem_of_empty k : k ∈ list_to_set (C := gset K) [].*1 <-> False).
  destruct (decide (k ∈ R)); tauto.
Qed.

(** ** Several blocks *)

Lemma prune_commit_meta base (x : row) (commit : CommitSet K) m : pruned_key ∉ cs_deleted (meta commit) ->
  apply_changes (meta (prune_commit base x commit)) m =
  apply_changes (mkChangeSet [(pruned_key, encode base)] [pruning_journal_key base]) (apply_changes (meta commit) m).
Proof.
  intros Hk. destruct (meta commit) as [ins del] eqn:Hm. unfold prune_commit. cbn [meta]. rewrite Hm. apply apply_changes_app.
  intros k Hx%list_elem_of_singleton. by subst.
Qed.

Lemma prune_commit_data base (x : row) (commit : CommitSet K) (D : gmap K DBValue) :
  apply_changes (data (prune_commit base x commit)) D =
  apply_changes (mkChangeSet [] (elements (dr_deleted x))) (apply_changes (data commit) D).
Proof.
  destruct (data commit) as [ins del] eqn:Hd. unfold prune_commit. cbn [data]. rewrite Hd. cbn [cs_inserted cs_deleted].
  rewrite <- (app_nil_r ins) at 1. apply apply_changes_app. by intros k ?%elem_of_nil.
Qed.

Lemma prune_commit_deleted base (x : row) (commit : CommitSet K) : pruned_key ∉ cs_deleted (meta commit) -> pruned_key ∉ cs_deleted (meta (prune_commit base x commit)).
Proof.
  intros Hk. unfold prune_commit. cbn [meta cs_deleted]. rewrite elem_of_app, list_elem_of_singleton. intros [|Hx]; [done|].
  symmetry in Hx. by apply pruning_not_pruned in Hx.
Qed.

(** What the changes of pruned blocks make of the metadata. *)
Lemma prune_commits_stored n base recs (rows : list row) (commit : CommitSet K) m : length rows = length recs -> pruned_key ∉ cs_deleted (meta commit) ->
  base + N.of_nat (length recs) <= u64_MAX -> stored (apply_changes (meta commit) m) base recs ->
  let m' := apply_changes (meta (prune_commits base (take n rows) commit)) m in
  stored m' (base + N.of_nat (length (take n recs))) (drop n recs) /\ forall k, ~ window_key k -> m' !! k = apply_changes (meta commit) m !! k.
Proof.
  revert base recs rows commit. induction n as [|n IH]; intros base recs rows commit Hlen Hk Hmax Hst; cbn [take drop prune_commits length].
  { by rewrite N.add_0_r. }
  destruct rows as [|x rows], recs as [|r recs]; try done; cbn [take drop prune_commits length]; [by rewrite N.add_0_r|]. simpl in Hlen, Hmax.
  destruct (IH (base + 1) recs rows (prune_commit base x commit)) as [Hst' Hsame]; [lia|by apply prune_commit_deleted|lia| |].
  { rewrite prune_commit_meta by done. eapply stored_pruned; [done|lia]. }
  split.
  - by replace (base + N.of_nat (S (length (take n recs)))) with (base + 1 + N.of_nat (length (take n recs))) by lia.
  - intros k Hno. rewrite Hsame by done. rewrite prune_commit_meta by done. unfold window_key in Hno.
    rewrite apply_changes_other by (intros Hx%list_elem_of_singleton; tauto). cbn [cs_deleted].
    rewrite decide_False; [done|]. intros Hx%list_elem_of_singleton. apply Hno. right. by exists base.
Qed.

(** And of the nodes, for a queue in memory. *)
Lemma prune_commits_nodes n base recs commit D L : nodes_ok (apply_changes (data commit) D) L recs ->
  nodes_ok (apply_changes (data (prune_commits base (take n (rows_of recs)) commit)) D) (live L (take n recs)) (drop n recs).
Proof.
  revert base recs commit L. induction n as [|n IH]; intros base recs commit L Hn; cbn [take drop prune_commits]; [done|].
  destruct recs as [|r recs]; [done|]. cbn [rows_of take drop prune_commits]. change (live L (r :: take n recs)) with (live (after L r) (take n recs)).
  apply IH. rewrite prune_commit_data. by apply nodes_pruned.
Qed.

Lemma prune_commits_inserted n base (rows : list row) (commit : CommitSet K) : cs_inserted (data (prune_commits base (take n rows) commit)) = cs_inserted (data commit).
Proof.
  revert base rows commit. induction n as [|n IH]; intros base rows commit; [done|]. destruct rows as [|x rows]; [done|].
  cbn [take prune_commits]. by rewrite IH.
Qed.

Lemma rows_for_length q recs : length (rows_for q recs) = length recs.
Proof. unfold rows_for. destruct (in_memory q); [apply rows_of_length|apply length_map]. Qed.

Lemma prunable_le pins keep avail recs : (prunable pins keep avail recs <= length recs)%nat.
Proof.
  revert avail. induction recs as [|r recs IH]; intros [|a]; cbn [prunable length]; try lia. destruct (_ || _); [lia|]. specialize (IH a). lia.
Qed.

(** Where the loop stops. *)
Lemma prunable_stop pins keep avail recs : let rest := drop (prunable pins keep avail recs) recs in
  N.of_nat (length rest) <= keep \/ (avail <= prunable pins keep avail recs)%nat \/
  exists r, head rest = Some r /\ is_Some (pins !! pr_hash r).
Proof.
  revert avail. induction recs as [|r recs IH]; intros [|a]; cbn [prunable drop]; [left; simpl; lia|left; simpl; lia|right; left; lia|].
  destruct (N.leb_spec (N.of_nat (length (r :: recs))) keep); cbn [orb]; [by left|].
  destruct (bool_decide_reflect (is_Some (pins !! pr_hash r))); [right; right; by exists r|]. cbn [drop].
  destruct (IH a) as [|[|]]; [by left|right; left; lia|by right; right].
Qed.

(** No pinned block is pruned. *)
Lemma prunable_pinned pins keep avail recs i r : recs !! i = Some r -> is_Some (pins !! pr_hash r) -> (prunable pins keep avail recs <= i)%nat.
Proof.
  revert avail i. induction recs as [|x recs IH]; intros [|a] i Hi Hp; cbn [prunable]; try lia. destruct (_ || _) eqn:Hor; [lia|].
  destruct i as [|i]; [|simpl in Hi; specialize (IH a i Hi Hp); lia]. injection Hi as ->.
  rewrite bool_decide_true, orb_true_r in Hor by done. done.
Qed.

(** The loop leaves the blocks that are to be kept. *)
Lemma prunable_keep pins keep avail recs : N.min keep (N.of_nat (length recs)) <= N.of_nat (length (drop (prunable pins keep avail recs) recs)).
Proof.
  revert avail. induction recs as [|r recs IH]; intros [|a]; cbn [prunable drop]; try lia.
  destruct (N.leb_spec (N.of_nat (length (r :: recs))) keep); cbn [orb drop]; [lia|]. destruct (bool_decide _); cbn [drop]; [lia|].
  specialize (IH a). simpl length in *. lia.
Qed.

Lemma prunable_unpinned pins keep avail recs r : r ∈ take (prunable pins keep avail recs) recs -> pins !! pr_hash r = None.
Proof.
  intros (i & Hi)%list_elem_of_lookup. apply lookup_take_Some in Hi as [Hi Hlt]. apply eq_None_not_Some. intros Hp.
  pose proof (prunable_pinned pins keep avail recs i r Hi Hp). lia.
Qed.
End spec.
