(* ===== verification/StateDbRuns.v ===== *)
(** * The state database: its invariant

    The overlay, the window and the database put together, in the constrained mode: what holds
    of the state, of the metadata and of the nodes after every request, for both kinds of
    queue. With the queue in memory the database holds exactly the nodes of the last
    canonical state and those that are still to be deleted. *)

From stdpp Require Import strings.
From S2P Require Import Prelude StateDbTypes NonCanonical NonCanonicalCount NonCanonicalDiscard NonCanonicalOps.
From S2P Require Import NonCanonicalPins NonCanonicalJournal NonCanonicalSpec.
From S2P Require Import Pruning PruningQueue PruningWindow StateDb StateDbPrune.

#[local] Open Scope N_scope.

(** The nodes of the state of every block: those of its parent with the changes of the block, which
    deletes only what is there. A genesis block starts from nothing. A block whose parent has no
    state in the database, like the target of a warp sync, has a parent without nodes. *)
Definition before {B K} `{Countable K, !Chain B K} (nodes : B -> gset K) (h : B) : gset K :=
  if number_of h =? 0 then ∅ else nodes (parent_of h).

Class States {B K} `{Countable K, !Chain B K} (nodes : B -> gset K) : Prop := {
  nodes_after h : nodes h = (before nodes h ∪ list_to_set (keys_of h)) ∖ list_to_set (cs_deleted (changes_of h));
  nodes_deleted h k : k ∈ cs_deleted (changes_of h) -> k ∈ before nodes h \/ k ∈ keys_of h
}.

Section spec.
Context {P : Profile} {B K CE DE : Type} `{Countable B, Countable K} {chain : Chain B K} {nodes : B -> gset K} {states_of : States nodes}.
Context {enc_unit : Encode unit} {enc_u64 : Encode N} {enc_key : Encode (N * N)} {enc_canonical : Encode (B * N)}
        {enc_record : Encode (JournalRecord B K)} {enc_row : Encode (PruningRecord B K)}.
Context {dec_canonical : Decode CE (B * N)} {dec_u64 : Decode CE N} {dec_record : Decode CE (JournalRecord B K)}
        {dec_row : Decode CE (PruningRecord B K)}.
Context {codec : KeyCodec enc_unit enc_u64 enc_key}
        {rt_u64 : RoundTrip CE N enc_u64 dec_u64 (fun n => n <= u64_MAX)}
        {rt_canonical : RoundTrip CE (B * N) enc_canonical dec_canonical (fun x => snd x <= u64_MAX)}
        {rt_record : RoundTrip CE (JournalRecord B K) enc_record dec_record (fun _ => True)}
        {rt_row : RoundTrip CE (PruningRecord B K) enc_row dec_row (fun _ => True)}.

Notation state := (StateDbSync B K).
Notation overlay := (NonCanonicalOverlay B K).
Notation record := (PruningRecord B K).
Notation metadata := (gmap bytes DBValue).
Notation last_key := (to_meta_key LAST_CANONICAL tt).
Notation pruned_key := (to_meta_key LAST_PRUNED tt).
Notation mode_key := (to_meta_key PRUNING_MODE tt).
Notation window nc := (map hash (level_blocks (levels nc))).
Implicit Types s : state.
Implicit Types nc : overlay.
Implicit Types w : RefWindow B K.
Implicit Types m d : metadata.
Implicit Types D : gmap K DBValue.
Implicit Types recs : list record.
Implicit Types T : B -> Prop.

(** ** Keys *)

Lemma mode_key_length : length mode_key = 4%nat.
Proof. unfold to_meta_key. by rewrite encode_unit. Qed.

Lemma key_classes k : overlay_key k -> ~ window_key k /\ k <> mode_key.
Proof.
  intros Hk. assert (length k = 14%nat \/ length k = 36%nat) as Hlen.
  { destruct Hk as [->|(n & i & ->)]; [left; apply last_key_length|right; apply journal_key_length]. }
  split; [intros [->|(n & ->)]|intros ->]; rewrite ?pruned_key_length, ?pruning_key_length, ?mode_key_length in Hlen; lia.
Qed.

Lemma window_key_mode k : window_key k -> k <> mode_key.
Proof. intros [->|(n & ->)] Heq%(f_equal length); rewrite ?pruned_key_length, ?pruning_key_length, mode_key_length in Heq; done. Qed.

Lemma journaled_foreign m m' nc : journaled m nc -> (forall k, overlay_key k -> m' !! k = m !! k) -> journaled m' nc.
Proof.
  intros [J1 J2 J3] Hsame. split; [by rewrite Hsame by by left| |done].
  intros n i Hn Hf Hi. rewrite Hsame by (right; by eexists _, _). by apply J2.
Qed.

(** Keys that a change set leaves alone. *)
Lemma apply_changes_same (c : ChangeSet bytes) m k : k ∉ (cs_inserted c).*1 ++ cs_deleted c -> apply_changes c m !! k = m !! k.
Proof. intros [Hi Hd]%not_elem_of_app. by rewrite apply_changes_other, decide_False by done. Qed.

(** ** The canonical chain *)

Lemma canonical_unique nc x y : canonical nc x = true -> canonical nc y = true -> number_of x = number_of y -> x = y.
Proof.
  unfold canonical. destruct (last_canonicalized nc) as [[c n]|]; [|done]. unfold descends. rewrite !andb_true_iff, !bool_decide_eq_true.
  intros [_ Hx] [_ Hy] Heq. rewrite Heq in Hx. congruence.
Qed.

Lemma canonical_last nc c n : last_canonicalized nc = Some (c, n) -> canonical nc c = true.
Proof. unfold canonical. intros ->. apply descends_refl. Qed.

Lemma canonical_parent nc x : canonical nc x = true -> number_of x <> 0 -> canonical nc (parent_of x) = true.
Proof. intros Hx Hz. eapply canonical_below; [done|]. by apply descends_parent. Qed.

Lemma canonical_number nc x : valid nc -> canonical nc x = true -> number_of x < front nc.
Proof.
  unfold canonical, front. intros Hv. destruct (last_canonicalized nc) as [[c n]|] eqn:Hl; [|done]. intros Hd%descends_number.
  rewrite (v_last nc Hv c n Hl) in Hd. lia.
Qed.

(** The record of a canonical block: only a queue in memory keeps what was inserted. *)
Definition record_for (mem : bool) (h : B) : record :=
  mkPruningRecord h (if mem then keys_of h else []) (cs_deleted (changes_of h)).

(** The records are those of the canonical blocks from [base] on. *)
Definition chain_of nc (mem : bool) (base : N) recs : Prop :=
  forall i r, recs !! i = Some r -> canonical nc (pr_hash r) = true /\ number_of (pr_hash r) = base + N.of_nat i /\ r = record_for mem (pr_hash r).

Lemma chain_of_drop nc mem base recs n : chain_of nc mem base recs -> chain_of nc mem (base + N.of_nat n) (drop n recs).
Proof.
  intros Hc i r Hi. rewrite lookup_drop in Hi. destruct (Hc _ _ Hi) as (H1 & H2 & H3). split_and!; [done|lia|done].
Qed.

Lemma chain_of_mono nc nc' mem base recs : chain_of nc mem base recs -> (forall x, canonical nc x = true -> canonical nc' x = true) ->
  chain_of nc' mem base recs.
Proof. intros Hc Hmono i r Hi. destruct (Hc i r Hi) as (H1 & H2 & H3). auto. Qed.

(** The state before each record, and after it. *)
Lemma live_nodes nc base recs L : chain_of nc true base recs -> (forall r, head recs = Some r -> L = before nodes (pr_hash r)) ->
  forall i r, recs !! i = Some r -> live L (take i recs) = before nodes (pr_hash r) /\ live L (take (S i) recs) = nodes (pr_hash r).
Proof.
  intros Hc HL.
  assert (forall i r, recs !! i = Some r -> live L (take i recs) = before nodes (pr_hash r) -> live L (take (S i) recs) = nodes (pr_hash r)) as Hafter.
  { intros i r Hi Hb. rewrite (take_S_r _ _ _ Hi), live_snoc, Hb, (nodes_after (nodes := nodes) (pr_hash r)).
    destruct (Hc i r Hi) as (_ & _ & ->). done. }
  induction i as [|i IH]; intros r Hi.
  - assert (live L (take 0 recs) = before nodes (pr_hash r)) as Hb; [|by split; [|apply Hafter]].
    apply HL. by destruct recs.
  - destruct (lookup_lt_is_Some_2 recs i) as [p Hp]; [apply lookup_lt_Some in Hi; lia|]. destruct (IH p Hp) as [_ Hn].
    assert (live L (take (S i) recs) = before nodes (pr_hash r)) as Hb; [|by split; [|apply Hafter]].
    destruct (Hc i p Hp) as (Hcp & Hnp & _), (Hc (S i) r Hi) as (Hcr & Hnr & _). assert (number_of (pr_hash r) <> 0) as Hz by lia.
    unfold before. rewrite (proj2 (N.eqb_neq _ _)), Hn by done. f_equal. apply (canonical_unique nc); [done|by apply canonical_parent|].
    pose proof (number_parent _ Hz). lia.
Qed.

(** ** The invariant *)

(** The nodes in the database, with a queue in memory. *)
Definition database_ok nc D recs : Prop :=
  (forall k v, D !! k = Some v -> v = node k) /\
  exists L, nodes_ok D L recs /\
    match recs, last_canonicalized nc with
    | r :: _, _ => L = before nodes (pr_hash r)
    | [], Some (c, _) => L = nodes c
    | [], None => levels nc = [] \/ L = ∅
    end.

(** The window ends with the last canonical block, once it has started. *)
Definition aligned nc w recs : Prop :=
  unstarted w recs = true \/ exists c n, last_canonicalized nc = Some (c, n) /\ n + 1 = base w + N.of_nat (length recs).

Record sd_ok T s w m D recs : Prop := {
  so_mode : exists c, mode s = Constrained c;
  so_overlay : kept T m (non_canonical s);
  so_pruning : pruning s = Some w /\ in_memory (queue w) = ref_counting s;
  so_window : window_ok w recs;
  so_stored : stored m (base w) recs;
  so_aligned : aligned (non_canonical s) w recs;
  so_chain : chain_of (non_canonical s) (ref_counting s) (base w) recs;
  so_database : ref_counting s = true -> database_ok (non_canonical s) D recs;
  so_pins x : pin_count (non_canonical s) x =
    (if decide (is_Some (sd_pinned s !! x)) then 1 else 0) + occ x (pinned_canonincalized (non_canonical s));
  so_refs x n : sd_pinned s !! x = Some n -> 0 < n;
  so_forced : NoDup (pinned_canonincalized (non_canonical s)) /\
    forall x, x ∈ pinned_canonincalized (non_canonical s) -> number_of x < front (non_canonical s);
  so_protected x : T x -> is_Some (sd_pinned s !! x) -> canonical (non_canonical s) x = true -> exists r, r ∈ recs /\ pr_hash r = x
}.

Lemma occ_nodup (x : B) xs : NoDup xs -> occ x xs <= 1.
Proof.
  induction 1 as [|y ys Hy Hnd IH]; [unfold occ; simpl; lia|]. rewrite occ_cons. destruct (decide (y = x)) as [->|]; [|lia].
  assert (occ x ys = 0); [|lia]. destruct (decide (occ x ys = 0)) as [|Hne]; [done|]. exfalso. apply Hy, occ_pos. lia.
Qed.

Lemma pin_count_bound T s w m D recs x : sd_ok T s w m D recs -> pin_count (non_canonical s) x <= 2.
Proof.
  intros Hok. rewrite (so_pins _ _ _ _ _ _ Hok). pose proof (occ_nodup x _ (proj1 (so_forced _ _ _ _ _ _ Hok))).
  destruct (decide _); lia.
Qed.

Lemma pin_count_some nc x : 0 < pin_count nc x -> is_Some (pinned nc !! x).
Proof. unfold pin_count. destruct (pinned nc !! x); [by eexists|simpl; lia]. Qed.

Definition with_overlay nc s : state := mkStateDbSync (mode s) nc (pruning s) (sd_pinned s) (ref_counting s).

Lemma apply_no_changes {A} `{Countable A} (x : gmap A DBValue) : apply_changes no_changes x = x.
Proof. done. Qed.

(** ** Blocks that come and go in the overlay *)

Lemma overlay_step T s w m D recs nc' c : sd_ok T s w m D recs -> kept T (apply_changes (meta c) m) nc' -> framed (non_canonical s) nc' c ->
  last_canonicalized nc' = last_canonicalized (non_canonical s) \/ last_canonicalized (non_canonical s) = None /\ sd_pinned s = ∅ ->
  (ref_counting s = true -> database_ok nc' D recs) ->
  sd_ok T (with_overlay nc' s) w (apply_changes (meta c) m) (apply_changes (data c) D) recs /\
  apply_changes (meta c) m !! mode_key = m !! mode_key.
Proof.
  intros [S1 S3 S4 S5 S6 S7 S8 S9 S10 S11 S12 S13] Hk [F1 F2 F3 F4] Hlast HD.
  assert (forall x, canonical (non_canonical s) x = true -> canonical nc' x = true) as Hmono.
  { intros x. unfold canonical. by destruct Hlast as [->|[-> _]]. }
  assert (forall k, window_key k \/ k = mode_key -> apply_changes (meta c) m !! k = m !! k) as Hsame.
  { intros k Hk'. apply apply_changes_same. intros Hin%F1%key_classes. tauto. }
  assert (front (non_canonical s) <= front nc') as Hf.
  { unfold front. destruct Hlast as [->|[-> _]]; lia. }
  split; [|apply Hsame; by right]. split; cbn [with_overlay mode non_canonical pruning sd_pinned ref_counting]; try done.
  - eapply stored_same; [done|]. intros k Hw. apply Hsame. by left.
  - destruct S7 as [Hu|(c0 & n & Hc & Hn)]; [by left|right]. exists c0, n. split; [|done]. destruct Hlast as [->|[? _]]; congruence.
  - by eapply chain_of_mono.
  - rewrite F2, apply_no_changes. done.
  - intros x. unfold pin_count. rewrite F3, F4. apply S10.
  - rewrite F4. split; [apply S12|]. intros x Hx. destruct S12 as [_ S12]. specialize (S12 x Hx). lia.
  - intros x Ht Hx Hc. destruct Hlast as [Hl|[_ Hp]]; [|rewrite Hp in Hx; by destruct Hx].
    apply S13; [done|done|]. unfold canonical in *. by rewrite <- Hl.
Qed.

(** ** Pins *)

(** The overlay and the pins change, the blocks do not. *)
Lemma pins_step T s w m D recs nc' pins' : sd_ok T s w m D recs -> kept T m nc' ->
  levels nc' = levels (non_canonical s) -> last_canonicalized nc' = last_canonicalized (non_canonical s) ->
  (forall x, pin_count nc' x = (if decide (is_Some (pins' !! x)) then 1 else 0) + occ x (pinned_canonincalized nc')) ->
  (forall x n, pins' !! x = Some n -> 0 < n) ->
  pinned_canonincalized nc' = pinned_canonincalized (non_canonical s) \/ pinned_canonincalized nc' = [] ->
  (forall x, T x -> is_Some (pins' !! x) -> is_Some (sd_pinned s !! x) \/ canonical nc' x = false \/ exists r, r ∈ recs /\ pr_hash r = x) ->
  sd_ok T (set_sd_pinned pins' (with_overlay nc' s)) w m D recs.
Proof.
  intros [S1 S3 S4 S5 S6 S7 S8 S9 S10 S11 S12 S13] Hk Hls Hlast Hpins Hpos Hforced Hprot.
  assert (forall x, canonical nc' x = canonical (non_canonical s) x) as Hcan by (intros x; unfold canonical; by rewrite Hlast).
  assert (front nc' = front (non_canonical s)) as Hf by (unfold front; by rewrite Hlast).
  split; cbn [set_sd_pinned with_overlay mode non_canonical pruning sd_pinned ref_counting]; try done.
  - unfold aligned. by rewrite Hlast.
  - eapply chain_of_mono; [done|]. intros x. by rewrite Hcan.
  - intros Hm. destruct (S9 Hm) as [HD (L & HL)]. split; [done|]. exists L. by rewrite Hlast, Hls.
  - rewrite Hf. destruct Hforced as [->| ->]; [done|]. split; [constructor|]. by intros x ?%elem_of_nil.
  - intros x Ht Hx Hc. destruct (Hprot x Ht Hx) as [Hx'|[Hx'|]]; [|congruence|done]. apply S13; [done|done|]. by rewrite <- Hcan.
Qed.

Lemma with_overlay_eta s : set_sd_pinned (sd_pinned s) (with_overlay (non_canonical s) s) = s.
Proof. by destruct s. Qed.

(** The blocks that are pinned with effect: those of the overlay and of the window. *)
Definition pin_target s recs (h : B) : Prop :=
  h ∈ window (non_canonical s) \/ (exists r, r ∈ recs /\ pr_hash r = h) \/ is_Some (sd_pinned s !! h).

Definition pin_state s (h : B) : state :=
  set_sd_pinned (<[h := default 0 (sd_pinned s !! h) + 1]> (sd_pinned s))
    (with_overlay (if decide (is_Some (sd_pinned s !! h)) then non_canonical s
                   else set_pinned (<[h := pin_count (non_canonical s) h + 1]> (pinned (non_canonical s))) (non_canonical s)) s).

Lemma pin_run T s w m D recs h number hint : sd_ok T s w m D recs -> default 0 (sd_pinned s !! h) < u32_MAX ->
  pin h number hint s =
  if nc_have_block (non_canonical s) h || match has_block w recs h number with No => false | Yes => true | Maybe => hint end
  then (pin_state s h, Ok tt) else (s, Err PinInvalidBlock).
Proof.
  intros Hok Hmax. pose proof Hok as [(c & Hm) _ [Hp _] Hw _ _ _ _ _ Hrefs _ _]. unfold pin. run_steps. rewrite Hm.
  assert (pin_count (non_canonical s) h < u32_MAX) as Hpc by (pose proof (pin_count_bound _ _ _ _ _ _ h Hok); unfold u32_MAX; lia).
  rewrite (bindM_lift _ _ _ (nc_have_block (non_canonical s) h || match has_block w recs h number with No => false | Yes => true | Maybe => hint end)).
  2:{ destruct (nc_have_block (non_canonical s) h); cbn [or_else orb]; [done|]. rewrite Hp, (rw_have_block_ok w recs h number Hw). done. }
  destruct (_ || _); [|done]. unfold pin_state. destruct (decide (is_Some (sd_pinned s !! h))) as [[n Hn]|Hn].
  - rewrite Hn in *. cbn [from_option id] in *. rewrite (proj2 (N.eqb_neq n 0)) by (specialize (Hrefs h n Hn); lia). run_steps.
    rewrite (bindM_lift _ _ _ (n + 1)) by (apply add_u32_eq; simpl in Hmax; lia). by destruct s.
  - apply eq_None_not_Some in Hn. rewrite Hn. cbn [from_option id]. simpl (0 =? 0).
    assert (on_overlay (nc_pin h) s = (with_overlay (set_pinned (<[h := pin_count (non_canonical s) h + 1]> (pinned (non_canonical s))) (non_canonical s)) s, Ok (E := PinError) tt)) as Hon.
    { unfold on_overlay. by rewrite (nc_pin_ok h _ Hpc). }
    step_with Hon. done.
Qed.

Lemma pin_step T s w m D recs h : sd_ok T s w m D recs -> pin_target s recs h -> sd_ok T (pin_state s h) w m D recs.
Proof.
  intros Hok Ht. pose proof Hok as [_ [Hpo Hj] _ _ _ _ Hch _ Hpins Hrefs _ Hprot]. unfold pin_state.
  assert (forall pins' : gmap B N, pins' = <[h := default 0 (sd_pinned s !! h) + 1]> (sd_pinned s) ->
    (forall x n, pins' !! x = Some n -> 0 < n) /\
    (forall x, T x -> is_Some (pins' !! x) -> is_Some (sd_pinned s !! x) \/ canonical (non_canonical s) x = false \/ exists r, r ∈ recs /\ pr_hash r = x)) as Hnew.
  { intros pins' ->. split.
    - intros x n [[_ <-]|[_ Hx]]%lookup_insert_Some; [lia|by eapply Hrefs].
    - intros x HT Hx. destruct (decide (x = h)) as [->|]; [|left; by rewrite lookup_insert_ne in Hx].
      destruct Ht as [Hw|[Hr|Hp]]; [|by right; right|by left]. right; left. by apply window_not_canonical; [apply Hpo|]. }
  destruct (Hnew _ eq_refl) as [Hpos Hprot']. destruct (decide (is_Some (sd_pinned s !! h))) as [Hh|Hh].
  - apply (pins_step T s w m D recs (non_canonical s)); try done; [|by left]. intros x. rewrite Hpins. f_equal.
    apply decide_ext. destruct (decide (x = h)) as [->|]; [rewrite lookup_insert_eq|by rewrite lookup_insert_ne]. split; [by eexists|done].
  - apply (pins_step T s w m D recs); try done; [| |by left].
    + split; [|by apply (journaled_same m (non_canonical s))]. apply pinned_pins; [done| |lia].
      destruct Ht as [Hw|[(r & (i & Hi)%list_elem_of_lookup & <-)|Hp]]; [by right; left|left; by apply (Hch i)|].
      right; right. apply pin_count_some. rewrite Hpins, decide_True by done. lia.
    + intros x. unfold pin_count at 1. cbn [pinned set_pinned pinned_canonincalized]. destruct (decide (x = h)) as [->|].
      * rewrite !lookup_insert_eq, decide_True by by eexists. cbn [from_option id]. rewrite Hpins, decide_False by done. simpl. lia.
      * rewrite !lookup_insert_ne by done. apply Hpins.
Qed.

Lemma unpin_step {E} T s w m D recs h : sd_ok T s w m D recs ->
  exists s', unpin (E := E) h s = (s', Ok tt) /\ sd_ok T s' w m D recs /\ mode s' = mode s /\ ref_counting s' = ref_counting s /\ last_canonicalized (non_canonical s') = last_canonicalized (non_canonical s) /\
    levels (non_canonical s') = levels (non_canonical s).
Proof.
  intros Hok. pose proof Hok as [_ [Hpo Hj] _ _ _ _ _ _ Hpins Hrefs _ _]. unfold unpin. run_steps.
  destruct (sd_pinned s !! h) as [refs|] eqn:Hh; [|by exists s]. pose proof (Hrefs h refs Hh) as Hpos.
  rewrite (bindM_lift _ _ _ (refs - 1)) by (apply sub_u32_eq; lia). destruct (N.eqb_spec (refs - 1) 0) as [Hz|Hz].
  - run_steps. destruct (nc_unpin_ok (E := E) h _ Hpo) as (nc' & Hrun & Hpo' & Hlast & Hls & Hforced & Hcount).
    exists (set_sd_pinned (delete h (sd_pinned s)) (with_overlay nc' s)). split.
    { unfold on_overlay. cbn [set_sd_pinned non_canonical]. by rewrite Hrun. }
    split; [|done]. apply (pins_step T s); try done; [| |by intros x n [_ Hx]%lookup_delete_Some; eapply Hrefs|by left|].
    + split; [done|by apply (journaled_same m (non_canonical s))].
    + intros x. rewrite Hcount, Hpins, Hforced. destruct (decide (x = h)) as [->|].
      * rewrite decide_True, decide_False; [lia|by rewrite lookup_delete_eq; intros [? ?]|by rewrite Hh; eexists].
      * rewrite N.sub_0_r. f_equal. apply decide_ext. by rewrite lookup_delete_ne.
    + intros x _ [n [_ Hx]%lookup_delete_Some]. left. by exists n.
  - exists (set_sd_pinned (<[h := refs - 1]> (sd_pinned s)) (with_overlay (non_canonical s) s)). split; [by destruct s|].
    split; [|done]. apply (pins_step T s); try done; [| |by left|].
    + intros x. rewrite Hpins. f_equal. apply decide_ext. destruct (decide (x = h)) as [->|]; [|by rewrite lookup_insert_ne].
      rewrite lookup_insert_eq, Hh. by split; eexists.
    + intros x n [[_ <-]|[_ Hx]]%lookup_insert_Some; [lia|by eapply Hrefs].
    + intros x _ [n [[<- _]|[_ Hx]]%lookup_insert_Some]; left; [by eexists|by exists n].
Qed.

Lemma sync_step {E} T s w m D recs : sd_ok T s w m D recs ->
  exists s', sync (E := E) s = (s', Ok tt) /\ sd_ok T s' w m D recs /\ mode s' = mode s /\ ref_counting s' = ref_counting s /\ last_canonicalized (non_canonical s') = last_canonicalized (non_canonical s) /\
    levels (non_canonical s') = levels (non_canonical s).
Proof.
  intros Hok. pose proof Hok as [_ [Hpo Hj] _ _ _ _ _ _ Hpins Hrefs _ _].
  destruct (nc_sync_ok (E := E) _ Hpo) as (nc' & Hrun & Hpo' & Hlast & Hls & Hforced & Hcount).
  exists (set_sd_pinned (sd_pinned s) (with_overlay nc' s)). split; [unfold sync, on_overlay; by rewrite Hrun|]. split; [|done].
  apply (pins_step T s); try done; [| |by right|by intros x _ Hx; left].
  - split; [done|by apply (journaled_same m (non_canonical s))].
  - intros x. rewrite Hcount, Hpins, Hforced. change (occ x []) with 0. destruct (decide _); lia.
Qed.

(** ** Canonicalization *)

(** The database may be behind: it has the window as it was at some time, of which the front may be pruned
    since, and blocks noted after it. *)
Definition lags d (base : N) recs : Prop :=
  exists base0 recs0, stored d base0 recs0 /\ base0 <= base /\ drop (N.to_nat (base - base0)) recs0 `prefix_of` recs.

Lemma lags_readable d base recs : lags d base recs -> exists k, readable (reliable (DE := DE) d) base recs k.
Proof.
  intros (base0 & recs0 & [_ Hj] & Hle & (more & ->)). set (old := drop _ recs0). exists (length old).
  split; [done|rewrite length_app; lia|]. intros i Hi. cbn [entries reliable]. rewrite Hj by lia. f_equal.
  rewrite take_app_length. unfold old. rewrite lookup_drop. f_equal. lia.
Qed.

Lemma lags_noted d base recs r : lags d base recs -> lags d base (recs ++ [r]).
Proof. intros (base0 & recs0 & Hst & Hle & Hpre). exists base0, recs0. split_and!; [done|done|by apply prefix_app_r]. Qed.

(** A window that starts. *)
Lemma lags_started d base base' : base <= base' -> lags d base [] -> lags d base' [].
Proof.
  intros Hb (base0 & recs0 & Hst & Hle & Hpre%prefix_nil_inv). exists base0, recs0. split_and!; [done|lia|].
  assert (drop (N.to_nat (base' - base0)) recs0 = []) as ->; [|done]. apply drop_ge. apply (f_equal length) in Hpre.
  rewrite length_drop in Hpre. simpl in Hpre. lia.
Qed.

Lemma lags_pruned d base recs n : lags d base recs -> lags d (base + N.of_nat n) (drop n recs).
Proof.
  intros (base0 & recs0 & Hst & Hle & (more & ->)). exists base0, recs0. split_and!; [done|lia|].
  replace (N.to_nat (base + N.of_nat n - base0)) with (N.to_nat (base - base0) + n)%nat by lia. rewrite <- drop_drop.
  rewrite drop_app. by apply prefix_app_r.
Qed.

(** What [canonicalize] hands out for the nodes is what [note_canonical] puts in the record. *)
Lemma noted_record h (q : DeathRowQueue B K) : noted h q (with_canonical no_changes h) = record_for (in_memory q) h.
Proof.
  unfold noted, record_for, with_canonical. cbn [cs_inserted cs_deleted no_changes]. rewrite !app_nil_l.
  destruct q; cbn [in_memory]; [|done]. f_equal. rewrite <- list_fmap_compose. apply list_fmap_id.
Qed.

(** The nodes of the new record, on those of the database. *)
Lemma database_noted nc D recs h : database_ok nc D recs -> valid nc -> h ∈ map hash (level_at nc 0) ->
  chain_of nc true (front nc - N.of_nat (length recs)) recs -> N.of_nat (length recs) <= front nc ->
  exists L, (forall r, head (recs ++ [record_for true h]) = Some r -> L = before nodes (pr_hash r)) /\
    nodes_ok (apply_changes (mkChangeSet (map (fun k => (k, node k)) (keys_of h)) []) D) L (recs ++ [record_for true h]).
Proof.
  intros [_ (L & Hn & HL)] Hv (o & -> & Ho)%list_elem_of_fmap Hch Hlen.
  apply level_at_elem in Ho as Ho'; [|done]. destruct Ho' as [_ Hnum]. rewrite N.add_0_r in Hnum.
  assert (live L recs = before nodes (hash o) /\ (forall r, head (recs ++ [record_for true (hash o)]) = Some r -> L = before nodes (pr_hash r))) as [Hlive Hhead].
  { unfold before at 1. unfold level_at in Ho. destruct (levels nc) as [|l ls] eqn:Hls; simpl in Ho; [by apply elem_of_nil in Ho|].
    destruct (last_canonicalized nc) as [[c n]|] eqn:Hlast.
    - assert (front nc = n + 1) as Hf by (unfold front; by rewrite Hlast). rewrite (proj2 (N.eqb_neq _ _)) by lia.
      rewrite (v_root nc Hv c n l o Hlast) by (by rewrite ?Hls). destruct recs as [|r recs].
      + subst L. split; [done|]. intros ? [= <-]. simpl. unfold before. rewrite (proj2 (N.eqb_neq _ _)) by lia.
        by rewrite (v_root nc Hv c n l o Hlast) by (by rewrite ?Hls).
      + split; [|by intros ? [= <-]]. destruct (lookup_lt_is_Some_2 (r :: recs) (length recs)) as [p Hp]; [simpl; lia|].
        destruct (live_nodes nc _ (r :: recs) L Hch ltac:(by intros ? [= <-]) _ _ Hp) as [_ Hlv]. rewrite take_ge in Hlv by done.
        rewrite Hlv. f_equal. destruct (Hch _ _ Hp) as (Hc & Hnp & _). apply (canonical_unique nc); [done|by eapply canonical_last|].
        rewrite (v_last nc Hv c n Hlast). simpl in Hlen, Hnp. lia.
    - assert (front nc = 0) as Hf by (unfold front; by rewrite Hlast). rewrite (proj2 (N.eqb_eq _ _)) by lia. destruct recs; [|simpl in Hlen; lia].
      destruct HL as [|HL]; [done|]. split; [done|]. intros ? [= <-]. simpl. unfold before. by rewrite (proj2 (N.eqb_eq _ _)) by lia. }
  exists L. split; [done|]. apply nodes_noted; [done| |].
  - cbn [record_for pr_inserted]. rewrite <- list_fmap_compose. symmetry. apply list_fmap_id.
  - intros k Hk. rewrite Hlive. by apply nodes_deleted.
Qed.

Lemma database_pruned nc D recs L base n h number (commit : CommitSet K) : (forall k v, D !! k = Some v -> v = node k) ->
  (forall k v, (k, v) ∈ cs_inserted (data commit) -> v = node k) ->
  nodes_ok (apply_changes (data commit) D) L recs -> (forall r, head recs = Some r -> L = before nodes (pr_hash r)) ->
  chain_of nc true base recs -> last_canonicalized nc = Some (h, number) -> last recs = Some (record_for true h) ->
  database_ok nc (apply_changes (data (prune_commits base (take n (rows_of recs)) commit)) D) (drop n recs).
Proof.
  intros HD Hins Hn HL Hch Hlast Hend. split.
  - intros k v Hk. destruct (data (prune_commits base (take n (rows_of recs)) commit)) as [ins del] eqn:Hc.
    assert (ins = cs_inserted (data commit)) as -> by (by rewrite <- (prune_commits_inserted n base (rows_of recs) commit), Hc).
    unfold apply_changes in Hk. cbn [cs_inserted cs_deleted] in Hk. rewrite apply_changes_deletes in Hk. destruct (decide _); [done|].
    revert Hins HD Hk. clear. generalize (cs_inserted (data commit)) as ins. intros ins. revert D. induction ins as [|[x y] ins IH]; intros D Hins HD; simpl.
    + apply HD.
    + apply IH; [intros ? ? ?; apply Hins; by right|]. intros k' v' [[<- <-]|[_ Hx]]%lookup_insert_Some; [|by apply HD]. apply Hins. by left.
  - exists (live L (take n recs)). split; [by apply prune_commits_nodes|]. destruct (drop n recs) as [|r rest] eqn:Hd.
    + rewrite Hlast. apply last_Some in Hend as (recs0 & Heq). destruct (live_nodes nc base recs L Hch HL (length recs0) (record_for true h)) as [_ Hl].
      { rewrite Heq. by apply list_lookup_middle. }
      apply (f_equal length) in Hd. rewrite length_drop in Hd. simpl in Hd. rewrite take_ge by lia. rewrite take_ge in Hl; [done|].
      rewrite Heq, length_app. simpl. lia.
    + destruct (live_nodes nc base recs L Hch HL n r) as [Hl _]; [|done]. by rewrite <- (Nat.add_0_r n), <- lookup_drop, Hd.
Qed.

(** What [canonicalize_block] leaves: the block has become a record, and [n] blocks are pruned. *)
Record canonicalized_db T s w m D recs d (h : B) s' w' (c : CommitSet K) (n : nat) : Prop := {
  cb_ok : sd_ok T s' w' (apply_changes (meta c) m) (apply_changes (data c) D) (drop n (recs ++ [record_for (ref_counting s) h]));
  cb_lags : lags d (base w') (drop n (recs ++ [record_for (ref_counting s) h]));
  cb_last : last_canonicalized (non_canonical s') = Some (h, number_of h);
  cb_fixed : mode s' = mode s /\ sd_pinned s' = sd_pinned s /\ ref_counting s' = ref_counting s;
  cb_mode : apply_changes (meta c) m !! mode_key = m !! mode_key;
  cb_inserted : cs_inserted (data c) = map (fun k => (k, node k)) (keys_of h);
  cb_pruned : exists keep avail, mode s = Constrained keep /\
    n = prunable (sd_pinned s) (default 0 (max_blocks keep)) avail (recs ++ [record_for (ref_counting s) h]) /\
    (ref_counting s = true -> avail = S (length recs))
}.

Lemma aligned_number T s w m D recs : sd_ok T s w m D recs ->
  front (non_canonical s) = base w + N.of_nat (length recs) \/ unstarted w recs = true.
Proof.
  intros Hok. destruct (so_aligned _ _ _ _ _ _ Hok) as [|(c & n & Hl & Hn)]; [by right|left]. unfold front. rewrite Hl. lia.
Qed.

Lemma unstarted_chain nc mem w recs : unstarted w recs = true -> recs = [] /\ base w = 0 /\ forall b, chain_of nc mem b recs.
Proof. unfold unstarted. rewrite andb_true_iff, N.eqb_eq, bool_decide_eq_true. intros [Hb ->]. by split_and!. Qed.

(** The window when the new block is noted, wherever it starts. *)
Lemma started_window T s w m D recs d : sd_ok T s w m D recs -> lags d (base w) recs ->
  N.of_nat (length recs) <= front (non_canonical s) /\
  chain_of (non_canonical s) (ref_counting s) (front (non_canonical s) - N.of_nat (length recs)) recs /\
  lags d (front (non_canonical s) - N.of_nat (length recs)) recs.
Proof.
  intros Hok Hlag. destruct (aligned_number _ _ _ _ _ _ Hok) as [Heq|Hun].
  - rewrite Heq. replace (base w + _ - _) with (base w) by lia. split_and!; [lia|apply Hok|done].
  - destruct (unstarted_chain (non_canonical s) (ref_counting s) w recs Hun) as (-> & Hb & Hch). simpl. split_and!; [lia|done|].
    apply (lags_started d (base w)); [lia|done].
Qed.

(** The changes when the block is noted, before anything is pruned. *)
Definition noted_commit nc w recs (mem : bool) (js : list bytes) (h : B) : CommitSet K :=
  mkCommitSet (mkChangeSet (map (fun k => (k, node k)) (keys_of h)) [])
    (mkChangeSet ([(last_key, encode (h, front nc))] ++ started (front nc) w recs ++
                    [(pruning_journal_key (front nc), encode (record_for mem h))]) js).

Lemma started_window_key number w recs k : k ∈ (started number w recs).*1 -> window_key k.
Proof.
  unfold started. destruct (_ && _); [|by intros ?%elem_of_nil]. intros Hk%list_elem_of_singleton. by left.
Qed.

Lemma canonicalize_run T s w m D recs d h : sd_ok T s w m D recs -> lags d (base w) recs -> h ∈ map hash (level_at (non_canonical s) 0) ->
  exists nc' js w1 w2 k, canonicalized T (non_canonical s) h nc' js /\
    kept T (apply_changes (mkChangeSet [(last_key, encode (h, front (non_canonical s)))] js) m) nc' /\
    let mem := ref_counting s in let recs1 := recs ++ [record_for mem h] in
    let commit := noted_commit (non_canonical s) w recs mem js h in
    exists keep, mode s = Constrained keep /\
    let n := prunable (sd_pinned s) (default 0 (max_blocks keep)) (available (queue w1) recs1 k) recs1 in
    window_ok w1 recs1 /\ base w1 + N.of_nat (length recs) = front (non_canonical s) /\ in_memory (queue w1) = mem /\
    canonicalize_block (CE := CE) (reliable (DE := DE) d) h s =
      (mkStateDbSync (mode s) nc' (Some w2) (sd_pinned s) mem, Ok (prune_commits (base w1) (take n (rows_for (queue w1) recs1)) commit)) /\
    window_ok w2 (drop n recs1) /\ base w2 = base w1 + N.of_nat n /\ in_memory (queue w2) = mem.
Proof.
  intros Hok Hlag Hh. pose proof Hok as [(keep & Hmode) Hk [Hp Hmem] Hw _ _ _ HD _ _ _ _]. pose proof Hk as [Hpo _].
  pose proof (pins_valid _ _ _ Hpo) as Hv. destruct (started_window _ _ _ _ _ _ _ Hok Hlag) as (Hlen & Hch & Hlag1).
  assert (pin_count (non_canonical s) h < u32_MAX) as Hpc by (pose proof (pin_count_bound _ _ _ _ _ _ h Hok); unfold u32_MAX; lia).
  pose proof Hh as Hh0. unfold level_at in Hh0. destruct (levels (non_canonical s)) as [|l ls] eqn:Hls; [by apply elem_of_nil in Hh0|]. simpl in Hh0.
  apply list_elem_of_fmap in Hh0 as (o & Ho & (index & Hi)%list_elem_of_lookup).
  destruct (nc_canonicalize_returns (CE := CE) T (non_canonical s) h empty_commit l ls index o Hpo Hls Hi (eq_sym Ho) Hpc) as (nc' & js & Hrun & Hcd).
  destruct (canonicalize_kept (CE := CE) T (non_canonical s) m h Hk Hh Hpc) as (nc1 & c1 & Hperf & Hk1). cbn [perform] in Hperf.
  rewrite (bindM_ok _ _ _ _ _ Hrun) in Hperf. injection Hperf as <- <-. cbn [meta data empty_commit no_changes cs_inserted cs_deleted app] in Hrun, Hk1.
  assert (front (non_canonical s) < u64_MAX) as Hf by (pose proof (v_height _ Hv) as Hh'; rewrite Hls in Hh'; simpl in Hh'; lia).
  destruct (note_canonical_ok (CE := CE) (DE := DE) w recs h (front (non_canonical s))
    (mkCommitSet (with_canonical no_changes h) (mkChangeSet [(last_key, encode (h, front (non_canonical s)))] js)) Hw Hf
    (aligned_number _ _ _ _ _ _ Hok)) as (w1 & Hnote & Hw1 & Hb1 & Hmem1).
  { destruct (queue w) as [rows index0|] eqn:Hq; [|done]. cbn [data]. rewrite noted_record. cbn [in_memory] in *.
    destruct Hw as [Hrep _]. rewrite Hq in Hrep. inversion Hrep; subst rows. specialize (HD (eq_sym Hmem)).
    rewrite <- Hmem in Hch. destruct (database_noted _ _ _ _ HD Hv Hh Hch Hlen) as (L & _ & [Hs _]). by eapply sound_fresh. }
  cbn [data meta] in Hnote, Hw1. rewrite noted_record, Hmem in Hnote, Hw1. cbn [cs_inserted cs_deleted] in Hnote.
  assert (lags d (base w1) (recs ++ [record_for (ref_counting s) h])) as Hlag2.
  { apply lags_noted. by replace (base w1) with (front (non_canonical s) - N.of_nat (length recs)) by lia. }
  destruct (lags_readable _ _ _ Hlag2) as (k & Hr).
  destruct (prune_window_ok (reliable d) (sd_pinned s) (default 0 (max_blocks keep)) (noted_commit (non_canonical s) w recs (ref_counting s) js h) w1 _ k Hw1 Hr)
    as (w2 & Hprune & Hw2 & Hb2 & Hmem2).
  exists nc', js, w1, w2, k. split; [done|]. split; [done|]. cbv zeta. exists keep. split; [done|]. split_and!; try done; try congruence.
  unfold canonicalize_block. run_steps. rewrite decide_False by congruence.
  assert (map_errM (StateDb (CE := CE) (DE := DE)) (on_overlay (nc_canonicalize h empty_commit)) s = (with_overlay nc' s, Ok (front (non_canonical s),
    mkCommitSet (with_canonical no_changes h) (mkChangeSet [(last_key, encode (h, front (non_canonical s)))] js)))) as Hc.
  { unfold map_errM, on_overlay. by rewrite Hrun. }
  step_with Hc. cbv iota beta. rewrite decide_False by congruence. rewrite Hp.
  assert (on_window w (note_canonical h (front (non_canonical s)) (mkCommitSet (with_canonical no_changes h) (mkChangeSet [(last_key, encode (h, front (non_canonical s)))] js)))
    (with_overlay nc' s) = (mkStateDbSync (mode s) nc' (Some w1) (sd_pinned s) (ref_counting s), Ok (E := Error CE DE) (noted_commit (non_canonical s) w recs (ref_counting s) js h))) as Hn.
  { unfold on_window. rewrite Hnote. done. }
  step_with Hn. unfold prune. run_steps. cbn [pruning mode sd_pinned]. rewrite Hmode. unfold on_window. rewrite Hprune. by rewrite <- Hmode.
Qed.

(** The canonical chain has grown by the block. *)
Lemma canonical_grown T nc h nc' js : canonicalized T nc h nc' js -> valid nc -> h ∈ map hash (level_at nc 0) ->
  number_of h = front nc /\ forall x, canonical nc' x = true <-> x = h \/ canonical nc x = true.
Proof.
  intros Hcd Hv (o & -> & Ho)%list_elem_of_fmap. apply level_at_elem in Ho as Ho'; [|done]. destruct Ho' as [_ Hnum].
  rewrite N.add_0_r in Hnum. split; [done|]. intros x. unfold canonical. rewrite (cd_last _ _ _ _ _ Hcd).
  unfold level_at in Ho. destruct (levels nc) as [|l ls] eqn:Hls; simpl in Ho; [by apply elem_of_nil in Ho|].
  destruct (decide (x = hash o)) as [->|Hne]; [split; [by left|intros _; apply descends_refl]|].
  destruct (last_canonicalized nc) as [[c n]|] eqn:Hlast; unfold front in Hnum; rewrite Hlast in Hnum.
  - assert (parent_of (hash o) = c) as <- by (apply (v_root nc Hv c n l o Hlast); by rewrite ?Hls). split.
    + intros Hd. right. by destruct (descends_step x (hash o) Hd Hne) as (_ & _ & Hp).
    + intros [|Hd]; [done|]. eapply descends_trans; [done|]. apply descends_parent. lia.
  - split; [|naive_solver]. intros Hd. destruct (descends_step x (hash o) Hd Hne) as (Hz & _). lia.
Qed.

(** What the commit makes of the metadata. *)
Lemma canonicalize_metadata T s w m D recs nc' js w1 (rows : list (DeathRow B K)) n h : sd_ok T s w m D recs -> canonicalized T (non_canonical s) h nc' js ->
  let mem := ref_counting s in let recs1 := recs ++ [record_for mem h] in
  window_ok w1 recs1 -> base w1 + N.of_nat (length recs) = front (non_canonical s) -> length rows = length recs1 -> (n <= length recs1)%nat ->
  let c := prune_commits (base w1) (take n rows) (noted_commit (non_canonical s) w recs mem js h) in
  stored (apply_changes (meta c) m) (base w1 + N.of_nat n) (drop n recs1) /\
  forall k, overlay_key k \/ k = mode_key -> apply_changes (meta c) m !! k =
    apply_changes (mkChangeSet [(last_key, encode (h, front (non_canonical s)))] js) m !! k.
Proof.
  intros Hok Hcd mem recs1 [_ Hmax] Hb Hrows Hn c. pose proof (so_overlay _ _ _ _ _ _ Hok) as [Hpo _]. pose proof (pins_valid _ _ _ Hpo) as Hv.
  assert (forall k, k ∈ js -> overlay_key k) as Hjs.
  { intros k Hk. assert (k ∈ map journal_key (level_blocks (levels (non_canonical s)))) as (o & -> & Ho)%list_elem_of_fmap.
    { rewrite <- (cd_journals _ _ _ _ _ Hcd). apply elem_of_app. by left. } by apply (journal_overlay_key (non_canonical s)). }
  set (m1 := apply_changes (mkChangeSet [(last_key, encode (h, front (non_canonical s)))] js) m).
  set (win := started (front (non_canonical s)) w recs ++ [(pruning_journal_key (front (non_canonical s)), encode (record_for mem h))]).
  assert (forall k, k ∈ win.*1 -> window_key k) as Hwin.
  { intros k Hk. unfold win in Hk. rewrite fmap_app, elem_of_app in Hk. destruct Hk as [Hk|Hk%list_elem_of_singleton]; [by eapply started_window_key|].
    right. by eexists. }
  assert (apply_changes (meta (noted_commit (non_canonical s) w recs mem js h)) m = apply_changes (mkChangeSet win []) m1) as Hm2.
  { unfold noted_commit. cbn [meta]. rewrite <- (app_nil_r js) at 1. apply apply_changes_app. intros k Hk%Hwin Hj%Hjs%key_classes. tauto. }
  assert (stored m1 (base w) recs) as Hst1.
  { eapply stored_same; [apply Hok|]. intros k Hk. apply apply_changes_same. cbn [cs_inserted cs_deleted]. intros [Hx%list_elem_of_singleton|Hx]%elem_of_app.
    - subst k. destruct (key_classes last_key) as [? _]; [by left|done].
    - by apply Hjs, key_classes in Hx as [? _]. }
  destruct (prune_commits_stored n (base w1) recs1 rows (noted_commit (non_canonical s) w recs mem js h) m Hrows) as [Hst Hsame].
  - unfold noted_commit. cbn [meta cs_deleted]. intros [Hx _]%Hjs%key_classes. apply Hx. by left.
  - done.
  - rewrite Hm2. replace (base w1) with (front (non_canonical s) - N.of_nat (length recs)) by lia.
    apply stored_noted; [done|apply Hok| |by eapply aligned_number]. unfold recs1 in Hmax. rewrite length_app in Hmax. simpl in Hmax. lia.
  - rewrite length_take_le in Hst by done. split; [done|]. intros k Hk.
    assert (~ window_key k) as Hno. { destruct Hk as [Hk%key_classes| ->]; [tauto|]. by intros Hk%window_key_mode. }
    rewrite Hsame, Hm2 by done. apply apply_changes_same. cbn [cs_inserted cs_deleted]. rewrite app_nil_r. by intros Hx%Hwin.
Qed.

Lemma canonicalize_step T s w m D recs d h : sd_ok T s w m D recs -> lags d (base w) recs -> h ∈ map hash (level_at (non_canonical s) 0) ->
  exists s' w' c n, canonicalize_block (CE := CE) (reliable (DE := DE) d) h s = (s', Ok c) /\ canonicalized_db T s w m D recs d h s' w' c n.
Proof.
  intros Hok Hlag Hh. destruct (started_window _ _ _ _ _ _ _ Hok Hlag) as (Hlen & Hch & Hlag1).
  destruct (canonicalize_run T s w m D recs d h Hok Hlag Hh) as (nc' & js & w1 & w2 & k & Hcd & Hk' & keep & Hmode & Hw1 & Hb1 & Hmem1 & Hrun & Hw2 & Hb2 & Hmem2).
  pose proof Hok as [_ [Hpo _] _ _ _ _ _ S9 S10 S11 [S12 S12'] S13]. pose proof (pins_valid _ _ _ Hpo) as Hv.
  destruct (canonical_grown _ _ _ _ _ Hcd Hv Hh) as [Hnum Hgrown].
  set (recs1 := recs ++ [record_for (ref_counting s) h]) in *.
  set (n := prunable (sd_pinned s) (default 0 (max_blocks keep)) (available (queue w1) recs1 k) recs1) in *.
  assert (n <= length recs1)%nat as Hn by apply prunable_le.
  destruct (canonicalize_metadata T s w m D recs nc' js w1 (rows_for (queue w1) recs1) n h Hok Hcd Hw1 Hb1 (rows_for_length _ _) Hn) as [Hst Hsame].
  assert (length recs1 = S (length recs)) as Hlen1 by (unfold recs1; rewrite length_app; simpl; lia).
  assert (chain_of nc' (ref_counting s) (base w1) recs1) as Hch1.
  { intros i r [Hi|[Hge Hi]]%lookup_app_Some.
    - destruct (Hch i r Hi) as (H1 & H2 & H3). split_and!; [by apply Hgrown; right|lia|done].
    - apply list_lookup_singleton_Some in Hi as [Hz <-]. split_and!; [by apply Hgrown; left|simpl; lia|done]. }
  exists (mkStateDbSync (mode s) nc' (Some w2) (sd_pinned s) (ref_counting s)), w2. eexists _, n. split; [exact Hrun|]. fold n recs1.
  split; fold recs1; [|rewrite Hb2; apply lags_pruned, lags_noted; by replace (base w1) with (front (non_canonical s) - N.of_nat (length recs)) by lia
    |cbn [non_canonical]; by rewrite Hnum, (cd_last _ _ _ _ _ Hcd)|done| |apply prune_commits_inserted|].
  3:{ exists keep, (available (queue w1) recs1 k). split_and!; [done|done|]. intros Hmem. rewrite Hmem in Hmem1. by destruct (queue w1). }
  2:{ rewrite Hsame by by right. apply apply_changes_same. cbn [cs_inserted cs_deleted]. intros [Hx%list_elem_of_singleton|Hj]%elem_of_app.
      - by destruct (key_classes last_key) as [_ ?]; [by left|].
      - assert (mode_key ∈ map journal_key (level_blocks (levels (non_canonical s)))) as (o & Heq & Ho)%list_elem_of_fmap.
        { rewrite <- (cd_journals _ _ _ _ _ Hcd). apply elem_of_app. by left. }
        apply (journal_overlay_key _ _ Hv), key_classes in Ho as [_ Ho]. congruence. }
  split; cbn [mode non_canonical pruning sd_pinned ref_counting]; [by exists keep| |done|done| | | | | |done| |].
  - destruct Hk' as [Hp' Hj']. split; [done|]. eapply journaled_foreign; [exact Hj'|]. intros k' Hk'. apply Hsame. by left.
  - by rewrite Hb2.
  - right. exists h, (front (non_canonical s)). split; [apply Hcd|]. rewrite length_drop, Hlen1, Hb2. lia.
  - rewrite Hb2. by apply chain_of_drop.
  - intros Hmem. destruct (S9 Hmem) as [HD _]. rewrite Hmem in Hch. destruct (database_noted _ _ _ _ (S9 Hmem) Hv Hh Hch Hlen) as (L & HL & Hnodes).
    unfold rows_for. rewrite Hmem1, Hmem. unfold recs1 in *. rewrite Hmem in *.
    eapply database_pruned; [done| |exact Hnodes|done|done|apply (cd_last _ _ _ _ _ Hcd)|by rewrite last_snoc].
    intros k' v (k'' & [= -> ->] & _)%list_elem_of_fmap. done.
  - intros x. destruct (cd_canonical _ _ _ _ _ Hcd) as [-> _]. rewrite (cd_pin_count _ _ _ _ _ Hcd), S10, occ_app, occ_cons. change (occ x []) with 0.
    destruct (decide (x = h)) as [->|]; [rewrite (decide_True (P := h = h)) by done; lia|rewrite (decide_False (P := h = x)) by congruence; lia].
  - destruct (cd_canonical _ _ _ _ _ Hcd) as [-> _]. split.
    + apply NoDup_app. split_and!; [done| |apply NoDup_singleton]. intros x Hx ->%list_elem_of_singleton. specialize (S12' h Hx). lia.
    + intros x [Hx| ->%list_elem_of_singleton]%elem_of_app; unfold front; rewrite (cd_last _ _ _ _ _ Hcd); [specialize (S12' x Hx)|]; lia.
  - intros x HT Hx Hc. assert (exists i r, recs1 !! i = Some r /\ pr_hash r = x) as (i & r & Hi & Hr).
    { apply Hgrown in Hc as [->|Hc]; [exists (length recs), (record_for (ref_counting s) h); split; [by apply list_lookup_middle|done]|].
      destruct (S13 x HT Hx Hc) as (r & (i & Hi)%list_elem_of_lookup & Hr). exists i, r. split; [by apply lookup_app_l_Some|done]. }
    exists r. split; [|done]. pose proof (prunable_pinned (sd_pinned s) (default 0 (max_blocks keep)) (available (queue w1) recs1 k) recs1 i r Hi ltac:(by rewrite Hr)) as Hle.
    fold n in Hle. apply list_elem_of_lookup. exists (i - n)%nat. rewrite lookup_drop. by replace (n + (i - n))%nat with i by lia.
Qed.
End spec.
