(* ===== verification/StateDbServe.v ===== *)
(** * The state database: what it serves, and opening it

    Which blocks have all their nodes in the overlay or in the database, and that a database
    opens as what was written to it. *)

From stdpp Require Import strings.
From S2P Require Import Prelude StateDbTypes NonCanonical NonCanonicalCount NonCanonicalDiscard NonCanonicalOps.
From S2P Require Import NonCanonicalPins NonCanonicalJournal NonCanonicalSpec.
From S2P Require Import Pruning PruningQueue PruningWindow StateDb StateDbPrune StateDbRuns.

#[local] Open Scope N_scope.

Section spec.
Context {P : Profile} {B K CE DE : Type} `{Countable B, Countable K} {chain : Chain B K} {nodes : B -> gset K} {states_of : States nodes}.
Context {enc_unit : Encode unit} {enc_u64 : Encode N} {enc_key : Encode (N * N)} {enc_canonical : Encode (B * N)}
        {enc_record : Encode (JournalRecord B K)} {enc_row : Encode (PruningRecord B K)}.
Context {dec_canonical : Decode CE (B * N)} {dec_u64 : Decode CE N} {dec_record : Decode CE (JournalRecord B K)}
        {dec_row : Decode CE (PruningRecord B K)}.
Context {codec : KeyCodec enc_unit enc_u64 enc_key}
        {rt_u64 : RoundTrip CE N enc_u64 dec_u64 (fun n => n <= u64_MAX)}
        {rt_canonical : RoundTrip CE (B * N) enc_canonical dec_canonical (fun x => snd x <= u64_MAX)}
        {rt_record : RoundTrip CE (JournalRecord B K) enc_record dec_record (fun _ => True)}
        {rt_row : RoundTrip CE (PruningRecord B K) enc_row dec_row (fun _ => True)}.

Notation state := (StateDbSync B K).
Notation overlay := (NonCanonicalOverlay B K).
Notation record := (PruningRecord B K).
Notation metadata := (gmap bytes DBValue).
Notation last_key := (to_meta_key LAST_CANONICAL tt).
Notation pruned_key := (to_meta_key LAST_PRUNED tt).
Notation mode_key := (to_meta_key PRUNING_MODE tt).
Notation window nc := (map hash (level_blocks (levels nc))).
Notation sd_ok := (sd_ok (nodes := nodes)).
Implicit Types s : state.
Implicit Types nc : overlay.
Implicit Types w : RefWindow B K.
Implicit Types m d : metadata.
Implicit Types D : gmap K DBValue.
Implicit Types recs : list record.
Implicit Types T : B -> Prop.

(** ** Reading *)

(** All nodes of the state of a block can be read. *)
Definition serves s D (h : B) : Prop :=
  forall k, k ∈ nodes h -> get (CE := CE) (DE := DE) s (fun k => inr (D !! k)) k = Ok (Some (node k)).

(** A canonical block that is not pruned: at most as far below the last one as the window is long. *)
Definition unpruned nc recs (f : B) : Prop := canonical nc f = true /\ front nc <= number_of f + 1 + N.of_nat (length recs).

Lemma live_states (L : gset K) recs i : (i <= length recs)%nat -> live L (take i recs) ∈ states L recs.
Proof.
  revert L recs. induction i as [|i IH]; intros L recs Hi; destruct recs as [|r recs]; simpl in Hi |- *; [by left|by left|lia|].
  right. apply (IH (after L r) recs). lia.
Qed.

(** The nodes of a canonical state are in the database. *)
Lemma unpruned_nodes T s w m D recs f : sd_ok T s w m D recs -> ref_counting s = true -> unpruned (non_canonical s) recs f ->
  nodes f ⊆ dom D.
Proof.
  intros Hok Hmem [Hcan Hkept]. pose proof (so_overlay _ _ _ _ _ _ Hok) as [Hpo _]. pose proof (pins_valid _ _ _ Hpo) as Hv.
  destruct (so_database _ _ _ _ _ _ Hok Hmem) as [_ (L & Hn & HL)]. pose proof (so_chain _ _ _ _ _ _ Hok) as Hch. rewrite Hmem in Hch.
  pose proof (canonical_number _ _ Hv Hcan) as Hlt.
  assert (exists i, (i <= length recs)%nat /\ live L (take i recs) = nodes f) as (i & Hi & <-); [|by eapply nodes_states, live_states].
  unfold canonical in Hcan. destruct (last_canonicalized (non_canonical s)) as [[c n]|] eqn:Hlast; [|done].
  assert (front (non_canonical s) = n + 1) as Hf by (unfold front; by rewrite Hlast). pose proof (v_last _ Hv c n Hlast) as Hcn.
  assert (canonical (non_canonical s) f = true) as Hcan' by (unfold canonical; by rewrite Hlast).
  assert (canonical (non_canonical s) c = true) as Hcc by by eapply canonical_last.
  destruct recs as [|r recs].
  { exists 0%nat. split; [done|]. simpl in *. subst L. f_equal. apply (canonical_unique (non_canonical s)); [done|done|]. lia. }
  destruct (so_aligned _ _ _ _ _ _ Hok) as [Hun|(c' & n' & Hlast' & Hal)].
  { apply andb_true_iff in Hun as [_ ?%bool_decide_eq_true]. done. }
  rewrite Hlast in Hlast'. injection Hlast' as <- <-. simpl length in *.
  pose proof (live_nodes (non_canonical s) _ (r :: recs) L Hch ltac:(by intros ? [= <-])) as Hlive.
  destruct (decide (number_of f + 1 = base w)) as [Heq|Hne].
  - exists 0%nat. split; [lia|]. destruct (Hlive 0%nat r eq_refl) as [-> _]. destruct (Hch 0%nat r eq_refl) as (Hcr & Hnr & _).
    assert (number_of (pr_hash r) <> 0) as Hz by lia. unfold before. rewrite (proj2 (N.eqb_neq _ _)) by done. f_equal.
    apply (canonical_unique (non_canonical s)); [by apply canonical_parent|done|]. pose proof (number_parent _ Hz). lia.
  - set (j := N.to_nat (number_of f - base w)). destruct (lookup_lt_is_Some_2 (r :: recs) j) as [x Hx]; [simpl; lia|].
    exists (S j). split; [simpl; lia|]. destruct (Hlive j x Hx) as [_ ->]. destruct (Hch j x Hx) as (Hcx & Hnx & _). f_equal.
    apply (canonical_unique (non_canonical s)); [done|done|lia].
Qed.

(** And nothing else is, when blocks do not delete what they insert. *)
Lemma database_covered T s w m D recs k : sd_ok T s w m D recs -> ref_counting s = true -> last_canonicalized (non_canonical s) <> None ->
  (forall h k, k ∈ keys_of h -> k ∉ cs_deleted (changes_of h)) -> k ∈ dom D -> exists f, unpruned (non_canonical s) recs f /\ k ∈ nodes f.
Proof.
  intros Hok Hmem Hlast Hdis Hk. pose proof (so_overlay _ _ _ _ _ _ Hok) as [Hpo _]. pose proof (pins_valid _ _ _ Hpo) as Hv.
  destruct (so_database _ _ _ _ _ _ Hok Hmem) as [_ (L & [_ HD] & HL)]. pose proof (so_chain _ _ _ _ _ _ Hok) as Hch. rewrite Hmem in Hch.
  destruct (last_canonicalized (non_canonical s)) as [[c n]|] eqn:Hl; [clear Hlast|done].
  assert (unpruned (non_canonical s) recs c) as Hc.
  { split; [by eapply canonical_last|]. unfold front. rewrite Hl, (v_last _ Hv c n Hl). lia. }
  destruct recs as [|r recs].
  { exists c. split; [done|]. rewrite HD in Hk. unfold pending in Hk. simpl in Hk. subst L. by rewrite union_empty_r_L in Hk. }
  pose proof (live_nodes (non_canonical s) _ (r :: recs) L Hch ltac:(by intros ? [= <-])) as Hlive.
  destruct (so_aligned _ _ _ _ _ _ Hok) as [Hun|(c' & n' & Hl' & Hal)]; [by apply andb_true_iff in Hun as [_ ?%bool_decide_eq_true]|].
  rewrite Hl in Hl'. injection Hl' as <- <-. rewrite HD in Hk. apply elem_of_union in Hk as [Hk|(i & x & Hx & Hk)%pending_elem].
  - exists c. split; [done|]. destruct (lookup_lt_is_Some_2 (r :: recs) (length recs)) as [p Hp]; [simpl; lia|].
    destruct (Hlive _ _ Hp) as [_ Hn]. rewrite take_ge in Hn by done. rewrite Hn in Hk. destruct (Hch _ _ Hp) as (Hcp & Hnp & _).
    assert (pr_hash p = c) as <-; [|done]. apply (canonical_unique (non_canonical s)); [done|by eapply canonical_last|].
    rewrite (v_last _ Hv c n Hl). simpl in Hal. lia.
  - apply rows_of_lookup in Hx as (y & Hy & ->). destruct (Hch i y Hy) as (Hcy & Hny & Hry). cbn [dr_deleted spare_row row_of] in Hk.
    apply elem_of_difference in Hk as [Hk _]. rewrite elem_of_list_to_set, Hry in Hk. cbn [record_for pr_deleted] in Hk.
    destruct (nodes_deleted (nodes := nodes) _ _ Hk) as [Hb|Hb]; [|by destruct (Hdis _ _ Hb)]. unfold before in Hb.
    destruct (N.eqb_spec (number_of (pr_hash y)) 0) as [|Hz]; [by apply elem_of_empty in Hb|]. exists (parent_of (pr_hash y)). split; [|done].
    split; [by apply canonical_parent|]. unfold front. rewrite Hl. pose proof (number_parent _ Hz). lia.
Qed.

Lemma get_node T s w m D recs k : sd_ok T s w m D recs -> ref_counting s = true ->
  is_Some (nc_get (non_canonical s) k) \/ k ∈ dom D -> get (CE := CE) (DE := DE) s (fun k => inr (D !! k)) k = Ok (Some (node k)).
Proof.
  intros Hok Hmem Hk. pose proof (so_overlay _ _ _ _ _ _ Hok) as [Hpo _]. pose proof (pins_valid _ _ _ Hpo) as Hv. unfold get.
  rewrite nc_get_ok in Hk |- * by done. destruct (decide _); [done|]. destruct Hk as [[? ?]|[v Hd]%elem_of_dom]; [done|].
  destruct (so_database _ _ _ _ _ _ Hok Hmem) as [HD _]. by rewrite Hd, (HD k v Hd).
Qed.

(** A block that the overlay holds, down to a canonical block that is not pruned. *)
Lemma held_serves T s w m D recs h : sd_ok T s w m D recs -> ref_counting s = true -> held (non_canonical s) h ->
  (exists f, unpruned (non_canonical s) recs f /\ descends f h = true) \/ last_canonicalized (non_canonical s) = None -> serves s D h.
Proof.
  intros Hok Hmem. assert (forall h, canonical (non_canonical s) h = true ->
    (exists f, unpruned (non_canonical s) recs f /\ descends f h = true) \/ last_canonicalized (non_canonical s) = None -> serves s D h) as Hcanon.
  { intros x Hc [(f & [Hcf Hf] & Hd)|Hnone] k Hk; [|unfold canonical in Hc; by rewrite Hnone in Hc]. eapply get_node; [done|done|right].
    eapply unpruned_nodes; [done|done| |done]. split; [done|]. pose proof (descends_number _ _ Hd). lia. }
  remember (N.to_nat (number_of h)) as j eqn:Hj. revert h Hj. induction j as [j IH] using lt_wf_ind; intros h Hj Hheld Hanchor.
  destruct (canonical (non_canonical s) h) eqn:Hc; [by apply Hcanon|]. intros k Hk.
  inversion Hheld as [? Hc'|? Hkeys Hbelow]; [congruence|].
  rewrite (nodes_after (nodes := nodes) h), elem_of_difference, elem_of_union, elem_of_list_to_set in Hk. destruct Hk as [[Hk|Hk] _].
  - unfold before in Hk. destruct (N.eqb_spec (number_of h) 0) as [|Hz]; [by apply elem_of_empty in Hk|].
    destruct Hbelow as [|Hbelow]; [done|]. pose proof (number_parent h Hz). eapply (IH (N.to_nat (number_of (parent_of h))) ltac:(lia) (parent_of h) eq_refl Hbelow); [|done].
    destruct Hanchor as [(f & Hf & Hd)|]; [left|by right]. exists f. split; [done|].
    assert (f <> h) as Hne by (intros ->; destruct Hf; congruence). by destruct (descends_step f h Hd Hne) as (_ & _ & ?).
  - eapply get_node; [done|done|left]. rewrite (Hkeys k Hk). by eexists.
Qed.

Lemma window_descends nc h c n : valid nc -> last_canonicalized nc = Some (c, n) -> h ∈ window nc -> descends c h = true.
Proof.
  intros Hv Hlast. assert (forall j x, N.to_nat (number_of x) = j -> x ∈ window nc -> descends c x = true) as Hgo; [|by eapply Hgo].
  induction j as [|j IH]; intros x Hj Hx; (pose proof (window_number nc x Hv Hx) as Hn; unfold front in Hn; rewrite Hlast in Hn); [lia|].
  assert (number_of x <> 0) as Hz by lia. destruct (window_tree nc Hv x Hx) as [|[Hp|Hp]]; [done| |].
  - eapply descends_trans; [|by apply descends_parent]. apply IH; [|done]. pose proof (number_parent x Hz). lia.
  - rewrite Hlast in Hp. injection Hp as -> _. by apply descends_parent.
Qed.

(** The blocks whose state can be read. *)
Lemma serves_ok T s w m D recs h : sd_ok T s w m D recs -> ref_counting s = true ->
  h ∈ window (non_canonical s) \/ unpruned (non_canonical s) recs h \/
  (T h /\ is_Some (sd_pinned s !! h) /\ exists f, unpruned (non_canonical s) recs f /\ descends f h = true) -> serves s D h.
Proof.
  intros Hok Hmem Hh. pose proof (so_overlay _ _ _ _ _ _ Hok) as [Hpo _]. pose proof (pins_valid _ _ _ Hpo) as Hv.
  destruct Hh as [Hw|[Hun|(HT & Hp & Hf)]].
  - eapply held_serves; [done|done|by apply window_held|]. destruct (last_canonicalized (non_canonical s)) as [[c n]|] eqn:Hlast; [left|by right].
    exists c. split; [|by eapply window_descends]. split; [by eapply canonical_last|]. unfold front. rewrite Hlast, (v_last _ Hv c n Hlast). lia.
  - eapply held_serves; [done|done|apply held_canonical, Hun|]. left. exists h. split; [done|apply descends_refl].
  - eapply held_serves; [done|done| |by left]. apply (pinned_held (T := T)); [done|done|]. apply pin_count_some.
    rewrite (so_pins _ _ _ _ _ _ Hok), decide_True by done. lia.
Qed.

(** ** Opening *)

Lemma nc_new_none m : m !! last_key = None -> nc_new (CE := CE) (reliable (DE := DE) m) = Ok (no_overlay None).
Proof. intros Hl. unfold nc_new, get_meta. cbn [failing reliable entries bind]. by rewrite Hl. Qed.

(** The window has started, when a block is taken for canonical. *)
Definition can_open s w recs : Prop :=
  ref_counting s = true \/ last_canonicalized (non_canonical s) = None \/ unstarted w recs = false.

Lemma rw_new_ok T s w m D recs size : sd_ok T s w m D recs -> can_open s w recs ->
  exists w', rw_new (CE := CE) (reliable (DE := DE) m) size (ref_counting s) = Ok w' /\ window_ok w' recs /\ base w' = base w /\
    in_memory (queue w') = ref_counting s.
Proof.
  intros Hok Hopen. pose proof Hok as [_ [Hpo Hj] _ Hw Hst _ _ HD _ _ _ _]. pose proof (pins_valid _ _ _ Hpo) as Hv. pose proof (wk_height _ _ Hw) as Hmax.
  assert (forall h n, last_canonicalized (non_canonical s) = Some (h, n) -> n < u64_MAX) as Hfits.
  { intros h n Hl. pose proof (v_height _ Hv) as Hh. unfold front in Hh. rewrite Hl in Hh. lia. }
  destruct (ref_counting s) eqn:Hmem.
  - destruct (HD eq_refl) as [_ (L & [Hs _] & _)].
    destruct (rw_new_mem (db := reliable (DE := DE) m) size (fun _ => eq_refl) Hst (jn_last _ _ Hj) Hfits Hmax L Hs) as (index & Hrun & Hix).
    eexists. split; [exact Hrun|]. split; [|done]. split; [by constructor|done].
  - destruct (rw_new_db (db := reliable (DE := DE) m) size (fun _ => eq_refl) Hst (jn_last _ _ Hj) Hfits Hmax) as (w' & Hrun & Hw' & Hb & cache & capacity & Hq).
    { destruct Hopen as [|Hopen]; [congruence|]. destruct (so_aligned _ _ _ _ _ _ Hok) as [Hun|(c & n & Hl & Hn)].
      - destruct Hopen as [Hnone|]; [|congruence]. rewrite Hnone. simpl. by apply andb_true_iff in Hun as [_ ?%bool_decide_eq_true].
      - rewrite Hl. simpl. done. }
    exists w'. split_and!; [done|done|done|]. by rewrite Hq.
Qed.

Lemma sd_new_ok T s w m D recs c : sd_ok T s w m D recs -> can_open s w recs ->
  exists s' w', sd_new (CE := CE) (Constrained c) (ref_counting s) (reliable (DE := DE) m) = Ok s' /\ sd_ok T s' w' m D recs /\ base w' = base w /\
    mode s' = Constrained c /\ ref_counting s' = ref_counting s /\ reopened (non_canonical s) (non_canonical s') /\ sd_pinned s' = ∅.
Proof.
  intros Hok Hopen. pose proof Hok as [_ Hk _ _ Hst Hal Hch HD _ _ _ _]. pose proof Hk as [Hpo Hj]. pose proof (pins_valid _ _ _ Hpo) as Hv.
  destruct (nc_new_ok (CE := CE) (DE := DE) (db := reliable m) Hv Hj) as (nc' & Hnew & Hro & _); [done|].
  destruct (reopened_kept (DE := DE) T _ _ _ Hk Hnew) as [_ Hk'].
  destruct (rw_new_ok T s w m D recs (default 0 (max_blocks c)) Hok Hopen) as (w' & Hrw & Hw' & Hb & Hmem).
  assert (last_canonicalized nc' = last_canonicalized (non_canonical s)) as Hlast by apply Hro.
  destruct (ro_pinned _ _ Hro) as (Hp & _ & Hpc). exists (mkStateDbSync (Constrained c) nc' (Some w') ∅ (ref_counting s)), w'. split.
  { unfold sd_new. rewrite Hnew. cbn [bind]. rewrite Hrw. done. }
  split; [|done]. split; cbn [mode non_canonical pruning sd_pinned ref_counting]; try done; [by exists c|by rewrite Hb| | | | |by rewrite Hpc; split; [constructor|intros ? ?%elem_of_nil]|].
  - unfold aligned, unstarted in *. by rewrite Hlast, Hb.
  - rewrite Hb. eapply chain_of_mono; [done|]. intros x. unfold canonical. by rewrite Hlast.
  - intros Hm. destruct (HD Hm) as [Hval (L & Hn & HL)]. split; [done|]. exists L. split; [done|]. rewrite Hlast. destruct recs; [|done].
    destruct (last_canonicalized (non_canonical s)) as [[x n]|] eqn:Hl; [done|]. left.
    rewrite nc_new_none in Hnew by (rewrite (jn_last _ _ Hj), Hl; done). by injection Hnew as <-.
  - intros x. unfold pin_count. rewrite Hp, Hpc, !lookup_empty, decide_False; [done|]. by intros [? ?].
  - intros x _ Hx. rewrite lookup_empty in Hx. by destruct Hx.
Qed.
End spec.
