(* ===== verification/StateDbSpec.v ===== *)
(** * The state database: what it guarantees

    Everything that can happen to the state database in the constrained mode: it is
    created, blocks are inserted, canonicalized, reverted, removed, pinned and unpinned, the commits
    are written, and it is opened again from what was written. *)

From stdpp Require Import strings.
From S2P Require Import Prelude StateDbTypes NonCanonical NonCanonicalCount NonCanonicalDiscard NonCanonicalOps.
From S2P Require Import NonCanonicalPins NonCanonicalJournal StateDbExample NonCanonicalSpec.
From S2P Require Import Pruning PruningQueue PruningWindow StateDb StateDbPrune StateDbRuns StateDbServe.

#[local] Open Scope N_scope.

Section spec.
Context {P : Profile} {B K CE DE : Type} `{Countable B, Countable K} {chain : Chain B K} {nodes : B -> gset K} {states_of : States nodes}.
Context {enc_unit : Encode unit} {enc_u64 : Encode N} {enc_key : Encode (N * N)} {enc_canonical : Encode (B * N)}
        {enc_record : Encode (JournalRecord B K)} {enc_row : Encode (PruningRecord B K)}.
Context {dec_canonical : Decode CE (B * N)} {dec_u64 : Decode CE N} {dec_record : Decode CE (JournalRecord B K)}
        {dec_row : Decode CE (PruningRecord B K)}.
Context {codec : KeyCodec enc_unit enc_u64 enc_key}
        {rt_u64 : RoundTrip CE N enc_u64 dec_u64 (fun n => n <= u64_MAX)}
        {rt_canonical : RoundTrip CE (B * N) enc_canonical dec_canonical (fun x => snd x <= u64_MAX)}
        {rt_record : RoundTrip CE (JournalRecord B K) enc_record dec_record (fun _ => True)}
        {rt_row : RoundTrip CE (PruningRecord B K) enc_row dec_row (fun _ => True)}.

Notation state := (StateDbSync B K).
Notation overlay := (NonCanonicalOverlay B K).
Notation record := (PruningRecord B K).
Notation metadata := (gmap bytes DBValue).
Notation last_key := (to_meta_key LAST_CANONICAL tt).
Notation pruned_key := (to_meta_key LAST_PRUNED tt).
Notation mode_key := (to_meta_key PRUNING_MODE tt).
Notation window nc := (map hash (level_blocks (levels nc))).
Notation sd_ok := (sd_ok (nodes := nodes)).
Notation reliable := (reliable (DE := DE)).
Implicit Types s : state.
Implicit Types w : RefWindow B K.
Implicit Types m d : metadata.
Implicit Types D : gmap K DBValue.
Implicit Types recs : list record.
Implicit Types T : B -> Prop.

(** ** Requests *)

Inductive request : Type :=
| InsertBlock (h : B)
| CanonicalizeBlock (h : B)
| RevertLevel
| RemoveBlock (h : B)
| PinBlock (h : B) (hint : bool)
| UnpinBlock (h : B)
| SyncBlocks.

Inductive failure : Type := Failed (e : Error CE DE) | CannotPin (e : PinError).

(** A request while the metadata in the database is [d], with the changes to write. *)
Definition execute d (r : request) : M state failure (CommitSet K) :=
  match r with
  | InsertBlock h => map_errM Failed (insert_block h (number_of h) (parent_of h) (changes_of h))
  | CanonicalizeBlock h => map_errM Failed (canonicalize_block (reliable d) h)
  | RevertLevel => map_errM (fun e => Failed (StateDb e)) (let* c := revert_one in ret (default empty_commit c))
  | RemoveBlock h => map_errM (fun e => Failed (StateDb e)) (let* c := remove h in ret (default empty_commit c))
  | PinBlock h hint => let* _ := map_errM CannotPin (pin h (number_of h) hint) in ret empty_commit
  | UnpinBlock h => let* _ := unpin h in ret empty_commit
  | SyncBlocks => let* _ := sync in ret empty_commit
  end.

Definition window_length s : N :=
  match pruning s with
  | Some w => match window_size (E := unit) w with Ok n => n | _ => 0 end
  | None => 0
  end.

(** The canonical blocks whose state is not pruned. *)
Definition unpruned_block s (f : B) : Prop :=
  canonical (non_canonical s) f = true /\ front (non_canonical s) <= number_of f + 1 + window_length s.

(** What the callers see to. The first block of all is inserted over the state of its parent,
    and nothing is pinned before. The block to canonicalize is one of the lowest level. What is reverted or removed is not
    a block of [T] that is pinned. A block to be pinned is in the overlay, or a canonical block that is in
    the window, or pinned already; any other is unknown to the overlay and to the caller. *)
Definition permitted T s D (r : request) : Prop :=
  let nc := non_canonical s in
  match r with
  | InsertBlock h => expected nc h /\
      (last_canonicalized nc = None -> levels nc = [] ->
       (ref_counting s = true -> dom D = before nodes h) /\ (number_of h <> 0 -> sd_pinned s = ∅))
  | CanonicalizeBlock h => h ∈ map hash (level_at nc 0)
  | RevertLevel => forall l o, last (levels nc) = Some l -> o ∈ blocks l -> T (hash o) -> sd_pinned s !! hash o = None
  | RemoveBlock h => T h -> sd_pinned s !! h = None
  | PinBlock h hint => default 0 (sd_pinned s !! h) < u32_MAX /\
      (h ∈ window nc \/ (canonical nc h = true /\ front nc <= number_of h + window_length s) \/ is_Some (sd_pinned s !! h) \/
       (nc_have_block nc h = false /\ hint = false))
  | UnpinBlock _ | SyncBlocks => True
  end.

Lemma window_length_ok T s w m D recs : sd_ok T s w m D recs -> window_length s = N.of_nat (length recs).
Proof. intros Hok. unfold window_length. rewrite (proj1 (so_pruning _ _ _ _ _ _ Hok)). by rewrite (queue_len_ok w recs (so_window _ _ _ _ _ _ Hok)). Qed.

Lemma unpruned_block_ok T s w m D recs f : sd_ok T s w m D recs -> unpruned_block s f <-> unpruned (non_canonical s) recs f.
Proof. intros Hok. unfold unpruned_block. by rewrite (window_length_ok _ _ _ _ _ _ Hok). Qed.

Lemma in_window T s w m D recs h : sd_ok T s w m D recs -> canonical (non_canonical s) h = true ->
  front (non_canonical s) <= number_of h + N.of_nat (length recs) -> exists r, r ∈ recs /\ pr_hash r = h.
Proof.
  intros Hok Hc Hn. pose proof (so_overlay _ _ _ _ _ _ Hok) as [Hpo _]. pose proof (canonical_number _ _ (pins_valid _ _ _ Hpo) Hc) as Hlt.
  destruct (aligned_number _ _ _ _ _ _ Hok) as [Hf|Hun].
  - destruct (lookup_lt_is_Some_2 recs (N.to_nat (number_of h - base w))) as [r Hr]; [lia|]. exists r. split; [by eapply list_elem_of_lookup_2|].
    destruct (so_chain _ _ _ _ _ _ Hok _ _ Hr) as (Hcr & Hnr & _). apply (canonical_unique (non_canonical s)); [done|done|lia].
  - destruct (unstarted_chain (non_canonical s) true w recs Hun) as (-> & _). simpl in Hn. lia.
Qed.

Lemma unpinned T s w m D recs x : sd_ok T s w m D recs -> x ∈ window (non_canonical s) -> sd_pinned s !! x = None ->
  pinned (non_canonical s) !! x = None.
Proof.
  intros Hok Hx Hp. pose proof (so_overlay _ _ _ _ _ _ Hok) as [Hpo _]. pose proof (pins_valid _ _ _ Hpo) as Hv.
  assert (pin_count (non_canonical s) x = 0) as Hz.
  { rewrite (so_pins _ _ _ _ _ _ Hok), Hp, decide_False by by intros [? ?]. destruct (decide (occ x (pinned_canonincalized (non_canonical s)) = 0)); [done|].
    destruct (so_forced _ _ _ _ _ _ Hok) as [_ Hf]. pose proof (Hf x ltac:(apply occ_pos; lia)). pose proof (window_number _ _ Hv Hx). lia. }
  unfold pin_count in Hz. destruct (pinned (non_canonical s) !! x) as [n|] eqn:Hn; [|done]. pose proof (v_pinned _ Hv x n Hn). simpl in Hz. lia.
Qed.

(** ** Every request *)

(** What a request leaves. *)
Definition executed T s m D d (c : CommitSet K) s' : Prop :=
  mode s' = mode s /\ ref_counting s' = ref_counting s /\ apply_changes (meta c) m !! mode_key = m !! mode_key /\
  exists w' recs', sd_ok T s' w' (apply_changes (meta c) m) (apply_changes (data c) D) recs' /\ lags d (base w') recs'.

Lemma executed_same T s w m D recs d s' : mode s' = mode s -> ref_counting s' = ref_counting s -> sd_ok T s' w m D recs -> lags d (base w) recs ->
  executed T s m D d empty_commit s'.
Proof. intros Hm Hr Hok Hl. split_and!; [done|done|done|]. by exists w, recs. Qed.

Lemma insert_executed T s w m D recs d h : sd_ok T s w m D recs -> lags d (base w) recs -> permitted T s D (InsertBlock h) ->
  (exists s' c, execute d (InsertBlock h) s = (s', Ok c) /\ executed T s m D d c s') \/ (exists e, execute d (InsertBlock h) s = (s, Err e)).
Proof.
  intros Hok Hlag [Hex Hfirst]. pose proof Hok as [(c0 & Hm) Hk _ _ _ Hal _ HD _ _ _ _]. cbn [execute]. unfold insert_block.
  assert (forall nc' r, nc_insert (CE := CE) h (number_of h) (parent_of h) (changes_of h) (non_canonical s) = (nc', r) ->
    map_errM Failed (let* s := get_state in match mode s with
      | ArchiveAll => ret (mkCommitSet (mkChangeSet (cs_inserted (changes_of h)) []) no_changes)
      | _ => map_errM StateDb (on_overlay (nc_insert h (number_of h) (parent_of h) (changes_of h)))
      end) s = (with_overlay nc' s, map_err Failed (map_err (StateDb (DE := DE)) r))) as Hrun.
  { intros nc' r Hr. unfold map_errM at 1. run_steps. rewrite Hm. unfold map_errM, on_overlay. rewrite Hr. by destruct r. }
  destruct (insert_kept (CE := CE) T _ m h Hk Hex) as [(nc' & c & Hp & Hk' & Hfr & _ & Hlast)|(e & Hp)]; cbn [perform] in Hp; rewrite (Hrun _ _ Hp).
  2:{ right. eexists. f_equal. by destruct s. }
  left. eexists _, _. split; [done|]. destruct (overlay_step T s w m D recs nc' c Hok Hk' Hfr) as [Hok' Hmode].
  - rewrite Hlast. destruct (decide _) as [[Hnone Hz]|]; [right|by left]. split; [done|].
    destruct (ex_first _ _ Hex Hnone) as [Hls|]; [|done]. by apply Hfirst.
  - intros Hmem. destruct (HD Hmem) as [Hval (L & Hn & HL)]. split; [done|]. exists L. split; [done|]. destruct recs as [|r recs]; [|done].
    rewrite Hlast. destruct (last_canonicalized (non_canonical s)) as [[x n]|] eqn:Hl; [by rewrite decide_False by (intros [? _]; congruence)|].
    assert (dom D = L) as HDL by (destruct Hn as [_ ->]; unfold pending; simpl; set_solver).
    destruct (decide _) as [[_ Hz]|Hz].
    + destruct (ex_first _ _ Hex Hl) as [Hls|]; [|done]. destruct (Hfirst eq_refl Hls) as [Hdom _]. rewrite <- HDL, (Hdom Hmem).
      unfold before. by rewrite (proj2 (N.eqb_neq _ _)).
    + right. destruct HL as [Hls|]; [|done]. destruct (Hfirst eq_refl Hls) as [Hdom _]. rewrite <- HDL, (Hdom Hmem).
      unfold before. rewrite (proj2 (N.eqb_eq _ _)); [done|]. destruct (decide (number_of h = 0)); [done|]. by destruct Hz.
  - split_and!; [done|done|done|]. by exists w, recs.
Qed.

Lemma drop_executed T s w m D recs d (r : request) nc' c : sd_ok T s w m D recs -> lags d (base w) recs ->
  kept T (apply_changes (meta c) m) nc' -> framed (non_canonical s) nc' c -> last_canonicalized nc' = last_canonicalized (non_canonical s) ->
  (levels (non_canonical s) = [] -> levels nc' = []) -> execute d r s = (with_overlay nc' s, Ok c) ->
  exists s' c, execute d r s = (s', Ok c) /\ executed T s m D d c s'.
Proof.
  intros Hok Hlag Hk' Hfr Hlast Hls Hrun. eexists _, _. split; [exact Hrun|].
  destruct (overlay_step T s w m D recs nc' c Hok Hk' Hfr) as [Hok' Hmode]; [by left| |].
  - intros Hmem. destruct (so_database _ _ _ _ _ _ Hok Hmem) as [Hval (L & Hn & HL)]. split; [done|]. exists L. split; [done|]. destruct recs; [|done].
    rewrite Hlast. destruct (last_canonicalized (non_canonical s)) as [[x n]|] eqn:Hl; [done|]. destruct HL as [HL|]; [left|by right]. by apply Hls.
  - split_and!; [done|done|done|]. by exists w, recs.
Qed.

Lemma pin_executed T s w m D recs d h hint : sd_ok T s w m D recs -> lags d (base w) recs -> permitted T s D (PinBlock h hint) ->
  (exists s' c, execute d (PinBlock h hint) s = (s', Ok c) /\ executed T s m D d c s') \/ (exists e, execute d (PinBlock h hint) s = (s, Err e)).
Proof.
  intros Hok Hlag [Hmax Ht]. cbn [execute]. pose proof (pin_run T s w m D recs h (number_of h) hint Hok Hmax) as Hrun.
  destruct (_ || _) eqn:Hcond.
  2:{ right. eexists. apply bindM_err. unfold map_errM. by rewrite Hrun. }
  assert (map_errM CannotPin (pin h (number_of h) hint) s = (pin_state s h, Ok tt)) as Hpin by (unfold map_errM; by rewrite Hrun).
  left. eexists _, empty_commit. step_with Hpin. split; [done|].
  apply (executed_same T s w m D recs); [done|done| |done]. apply pin_step; [done|]. unfold pin_target.
  destruct Ht as [|[[Hc Hn]|[|[Hnb ->]]]]; [by left|right; left|by right; right|].
  - eapply in_window; [done|done|]. by rewrite (window_length_ok _ _ _ _ _ _ Hok) in Hn.
  - rewrite Hnb in Hcond. simpl in Hcond. right; left. unfold has_block in Hcond.
    destruct (if number_of h <? base w then None else recs !! N.to_nat (number_of h - base w)) as [r|] eqn:Hr; [|done].
    destruct (number_of h <? base w); [done|]. exists r. split; [by eapply list_elem_of_lookup_2|].
    destruct (bool_decide_reflect (pr_hash r = h)); [done|]. destruct (queue w); [done|]. by destruct (_ <? _)%nat.
Qed.

Lemma execute_ok T s w m D recs d r : sd_ok T s w m D recs -> lags d (base w) recs -> permitted T s D r ->
  (exists s' c, execute d r s = (s', Ok c) /\ executed T s m D d c s') \/ (exists e, execute d r s = (s, Err e)).
Proof.
  intros Hok Hlag Hp. pose proof Hok as [(c0 & Hm) Hk _ _ _ _ _ _ _ _ _ _]. destruct r as [h|h| |h|h hint|h|]; [by eapply insert_executed|left|left|left|by eapply pin_executed|left|left].
  - destruct (canonicalize_step (CE := CE) (DE := DE) T s w m D recs d h Hok Hlag Hp) as (s' & w' & c & n & Hrun & [C1 C2 _ (C3 & _ & C4) C5 _ _]).
    exists s', c. split; [cbn [execute]; unfold map_errM; by rewrite Hrun|]. split_and!; [done|done|done|]. by eexists w', _.
  - destruct (revert_kept (CE := CE) T _ m Hk) as (nc' & c & Hperf & Hk' & Hfr & Hlast & Hls).
    { intros l o Hl Ho HT. eapply unpinned; [done| |by eapply Hp]. apply list_elem_of_fmap_2, elem_of_level_blocks.
      rewrite last_lookup in Hl. by eexists _, l. }
    eapply drop_executed; try done. cbn [execute perform] in *. unfold map_errM, revert_one, bindM in *. run_steps. unfold get_state. rewrite Hm.
    unfold on_overlay. destruct (nc_revert_one (non_canonical s)) as [nc1 [oc| | |]]; try done. by injection Hperf as -> <-.
  - destruct (remove_kept (CE := CE) T _ m h Hk) as (nc' & c & Hperf & Hk' & Hfr & Hlast & Hls).
    { intros Hw HT. eapply unpinned; [done|done|by apply Hp]. }
    eapply drop_executed; try done. cbn [execute perform] in *. unfold map_errM, remove, bindM in *. run_steps. unfold get_state. rewrite Hm.
    unfold on_overlay. destruct (nc_remove h (non_canonical s)) as [nc1 [oc| | |]]; try done. by injection Hperf as -> <-.
  - destruct (unpin_step (E := failure) T s w m D recs h Hok) as (s' & Hrun & Hok' & Hm' & Hr' & _). exists s', empty_commit. cbn [execute]. step_with Hrun.
    split; [done|]. by apply (executed_same T s w m D recs).
  - destruct (sync_step (E := failure) T s w m D recs Hok) as (s' & Hrun & Hok' & Hm' & Hr' & _). exists s', empty_commit. cbn [execute]. step_with Hrun.
    split; [done|]. by apply (executed_same T s w m D recs).
Qed.

(** ** Runs *)

(** No state database was stored here. *)
Definition fresh m : Prop :=
  unused m /\ m !! pruned_key = None /\ (forall n, m !! pruning_journal_key n = None) /\ m !! mode_key = None.

(** A queue in the database is opened again once its window has started, or while there is nothing. *)
Definition open_ready (mem : bool) d : Prop :=
  mem = true \/ d !! last_key = None \/ d !! pruned_key <> None \/ d !! pruning_journal_key 0 <> None.

Definition constrained (req : option PruningMode) : Prop := match req with Some (Constrained _) | None => True | _ => False end.

(** The state, the metadata and the nodes with all changes that were handed out, and both as they were
    written last. *)
Inductive db_runs T : state -> metadata -> gmap K DBValue -> metadata -> gmap K DBValue -> Prop :=
| db_create m D c mem s c0 : fresh m -> (forall k v, D !! k = Some v -> v = node k) ->
    open (CE := CE) (reliable m) (Some (Constrained c)) mem true = Ok (c0, s) ->
    db_runs T s (apply_changes (meta c0) m) D (apply_changes (meta c0) m) D
| db_ok s m D d Dd r s' c : db_runs T s m D d Dd -> permitted T s D r -> execute d r s = (s', Ok c) ->
    db_runs T s' (apply_changes (meta c) m) (apply_changes (data c) D) d Dd
| db_err s m D d Dd r s' e : db_runs T s m D d Dd -> permitted T s D r -> execute d r s = (s', Err e) -> db_runs T s' m D d Dd
| db_write s m D d Dd : db_runs T s m D d Dd -> db_runs T s m D m D
| db_reopen s m D d Dd req s' c : db_runs T s m D d Dd -> constrained req -> open_ready (ref_counting s) d ->
    open (CE := CE) (reliable d) req (ref_counting s) false = Ok (c, s') -> db_runs T s' d Dd d Dd.

Lemma sd_ok_foreign T s w m m' D recs : sd_ok T s w m D recs -> (forall k, overlay_key k \/ window_key k -> m' !! k = m !! k) ->
  sd_ok T s w m' D recs.
Proof.
  intros [S1 [S2 S2'] S3 S4 S5 S6 S7 S8 S9 S10 S11 S12] Hsame. split; try done.
  - split; [done|]. eapply journaled_foreign; [done|]. auto.
  - eapply stored_same; [done|]. auto.
Qed.

Lemma fresh_ok T m D c mem : fresh m -> (forall k v, D !! k = Some v -> v = node k) ->
  exists s w, sd_ok T s w m D [] /\ ref_counting s = mem /\ last_canonicalized (non_canonical s) = None /\ mode s = Constrained c.
Proof.
  intros (Hu & Hp & Hj & _) HD. set (q := (if mem then Mem [] ∅ else DbBacked [] 1 None) : DeathRowQueue B K).
  exists (mkStateDbSync (Constrained c) (no_overlay None) (Some (mkRefWindow q 0)) ∅ mem), (mkRefWindow q 0).
  split; [|done]. split; cbn [mode non_canonical pruning sd_pinned ref_counting]; [by exists c| |by split; [|destruct mem]| | |by left|by intros i r Hi| | |by intros x n; rewrite lookup_empty| |].
  - split; [|by apply unused_journaled]. split; [apply empty_valid|..]; intros h; simpl; rewrite lookup_empty; done.
  - split; [|by vm_compute]. unfold q. destruct mem; cbn [base queue]; [|apply (rep_db 0 [] 0 1 None); [lia|done|done]]. apply (rep_mem 0 []).
    intros k n. rewrite lookup_empty. split; [done|]. by intros (i & r & ? & _).
  - split; [done|]. intros n _. by rewrite Hj.
  - intros _. split; [done|]. exists (dom D). split; [|by left]. split; [done|]. unfold pending. simpl. by rewrite union_empty_r_L.
  - intros x. unfold pin_count. simpl. rewrite !lookup_empty, decide_False; [done|]. by intros [? ?].
  - simpl. split; [constructor|]. by intros x ?%elem_of_nil.
  - intros x _ Hx. rewrite lookup_empty in Hx. by destruct Hx.
Qed.

(** What is written opens. *)
Lemma reopen_ok T s w d D recs req : sd_ok T s w d D recs -> d !! mode_key = Some PRUNING_MODE_CONSTRAINED -> constrained req ->
  open_ready (ref_counting s) d ->
  exists s' w', open (CE := CE) (reliable d) req (ref_counting s) false = Ok (empty_commit, s') /\ sd_ok T s' w' d D recs /\ base w' = base w /\
    ref_counting s' = ref_counting s /\ reopened (non_canonical s) (non_canonical s') /\ sd_pinned s' = ∅.
Proof.
  intros Hok Hmode Hreq Hready.
  assert (can_open s w recs) as Hcan.
  { destruct Hready as [|Hready]; [by left|right]. pose proof (so_overlay _ _ _ _ _ _ Hok) as [_ [Hl _ _]].
    destruct (so_stored _ _ _ _ _ _ Hok) as [Hst Hj]. destruct Hready as [Hnone|Hready].
    - left. rewrite Hl in Hnone. by destruct (last_canonicalized (non_canonical s)).
    - right. apply not_true_iff_false. intros Hun. destruct (unstarted_chain (non_canonical s) true w recs Hun) as (-> & Hb & _).
      rewrite Hb in *. destruct Hready as [Hready|Hready]; [by rewrite Hst in Hready|]. by rewrite Hj in Hready. }
  assert (exists c, select_mode (CE := CE) (DE := DE) false (Some default_mode) req = Ok (Constrained c)) as (c & Hsel).
  { destruct req as [[c| |]|]; try done; by eexists. }
  destruct (sd_new_ok (CE := CE) (DE := DE) T s w d D recs c Hok Hcan) as (s' & w' & Hnew & Hok' & Hb & _ & Hr & Hro & Hp).
  exists s', w'. split; [|done]. unfold open, fetch_stored_pruning_mode, get_meta. cbn [failing entries NonCanonicalSpec.reliable bind].
  rewrite Hmode. cbn [bind]. change (mode_from_id PRUNING_MODE_CONSTRAINED) with (Some default_mode). cbn [bind]. rewrite Hsel. cbn [bind].
  rewrite Hnew. done.
Qed.

Lemma lags_self m base recs : stored m base recs -> lags m base recs.
Proof. intros Hst. exists base, recs. split_and!; [done|done|]. by rewrite N.sub_diag. Qed.

Lemma db_runs_ok T s m D d Dd : db_runs T s m D d Dd ->
  (exists w recs, sd_ok T s w m D recs /\ lags d (base w) recs) /\ m !! mode_key = Some PRUNING_MODE_CONSTRAINED /\
  (exists s0 w0 recs0, sd_ok T s0 w0 d Dd recs0 /\ ref_counting s0 = ref_counting s) /\ d !! mode_key = Some PRUNING_MODE_CONSTRAINED.
Proof.
  induction 1 as [m D c mem s c0 Hf HD Hopen|s m D d Dd r s' c _ IH Hp Hrun|s m D d Dd r s' e _ IH Hp Hrun|s m D d Dd _ IH|s m D d Dd req s' c _ IH Hreq Hready Hopen].
  - destruct (fresh_ok T m D c mem Hf HD) as (s0 & w0 & Hok & Hmem & Hlast & _).
    destruct (sd_new_ok (CE := CE) (DE := DE) T s0 w0 m D [] c Hok) as (s1 & w1 & Hnew & Hok1 & Hb & _ & Hr & _); [right; by left|].
    unfold open, fetch_stored_pruning_mode, get_meta in Hopen. cbn [failing entries NonCanonicalSpec.reliable bind] in Hopen.
    destruct Hf as (_ & _ & _ & Hmode). rewrite Hmode in Hopen. cbn [bind] in Hopen. change (select_mode true None (Some (Constrained c))) with (Ok (E := Error CE DE) (Constrained c)) in Hopen.
    cbn [bind] in Hopen. rewrite Hmem in Hnew. rewrite Hnew in Hopen. injection Hopen as <- <-. cbn [meta].
    set (m' := apply_changes (mkChangeSet [(mode_key, mode_id (Constrained c))] []) m).
    assert (sd_ok T s1 w1 m' D []) as Hok'.
    { eapply sd_ok_foreign; [done|]. intros k Hk. apply apply_changes_same. cbn [cs_inserted cs_deleted]. rewrite app_nil_r.
      intros Hx%list_elem_of_singleton. subst k. destruct Hk as [[_ Hk]%key_classes|Hk%window_key_mode]; done. }
    assert (m' !! mode_key = Some PRUNING_MODE_CONSTRAINED) as Hm' by apply apply_changes_one, not_elem_of_nil.
    split_and!; [|done| |done]; [exists w1, []; split; [done|by apply lags_self, (so_stored _ _ _ _ _ _ Hok')]|by exists s1, w1, []].
  - destruct IH as ((w & recs & Hok & Hlag) & Hm & (s0 & w0 & recs0 & Hok0 & Hr) & Hd).
    destruct (execute_ok T s w m D recs d r Hok Hlag Hp) as [(s1 & c1 & Hrun' & Hmode & Href & Hkey & w' & recs' & Hok' & Hlag')|(e & Hrun')]; [|congruence].
    rewrite Hrun in Hrun'. injection Hrun' as <- <-. split_and!; [by exists w', recs'|congruence|exists s0, w0, recs0; split; [done|congruence]|done].
  - destruct IH as ((w & recs & Hok & Hlag) & Hrest).
    destruct (execute_ok T s w m D recs d r Hok Hlag Hp) as [(s1 & c1 & Hrun' & _)|(e' & Hrun')]; [congruence|]. rewrite Hrun in Hrun'. injection Hrun' as -> _.
    split; [by exists w, recs|done].
  - destruct IH as ((w & recs & Hok & _) & Hm & _). split_and!; [|done|by exists s, w, recs|done]. exists w, recs. split; [done|].
    apply lags_self, (so_stored _ _ _ _ _ _ Hok).
  - destruct IH as (_ & _ & (s0 & w0 & recs0 & Hok0 & Hr) & Hd). rewrite <- Hr in Hready, Hopen.
    destruct (reopen_ok T s0 w0 d Dd recs0 req Hok0 Hd Hreq Hready) as (s1 & w1 & Hopen' & Hok1 & Hb & Hr1 & _).
    rewrite Hopen in Hopen'. injection Hopen' as -> <-. split_and!; [|done|by exists s', w1, recs0|done]. exists w1, recs0. split; [done|].
    apply lags_self, (so_stored _ _ _ _ _ _ Hok1).
Qed.




(** C35: the pruning loop ends, whatever the window, the pins and the number of blocks to keep. It prunes blocks from the front, no pinned
    one and none that is to be kept; and it stops only when there are no more than those to keep, at a pinned block, or
    when the next block is neither in the cache nor in the database. *)
Theorem prune_window_stops db pins keep (commit : CommitSet K) w recs k : window_ok w recs -> readable (DE := DE) db (base w) recs k ->
  exists w' n, prune_window (CE := CE) db pins keep commit w = (w', Ok (prune_commits (base w) (take n (rows_for (queue w) recs)) commit)) /\
    window_ok w' (drop n recs) /\ base w' = base w + N.of_nat n /\
    (forall r, r ∈ take n recs -> pins !! pr_hash r = None) /\ N.min keep (N.of_nat (length recs)) <= N.of_nat (length (drop n recs)) /\
    (N.of_nat (length (drop n recs)) <= keep \/ (available (queue w) recs k <= n)%nat \/
       exists r, head (drop n recs) = Some r /\ is_Some (pins !! pr_hash r)).
Proof.
  intros Hw Hr. destruct (prune_window_ok db pins keep commit w recs k Hw Hr) as (w' & Hrun & Hw' & Hb & _).
  exists w', (prunable pins keep (available (queue w) recs k) recs). split_and!; [done|done|done| | |apply prunable_stop].
  - intros r. apply prunable_unpinned.
  - apply prunable_keep.
Qed.
End spec.

(** ** An example run *)

Definition example_nodes (h : Byte.byte) : gset Byte.byte := list_to_set (example_keys h).

Lemma example_nodes_step h : negb (example_number h =? 0) = true ->
  (list_to_set (example_keys (example_parent h)) ∪ list_to_set (example_keys h)) ∖ list_to_set (example_keys (example_parent h)) = example_nodes h.
Proof. intros Hz. apply (bool_decide_eq_true _). revert Hz. by destruct h; vm_compute. Qed.

#[export] Instance example_states : States (Chain0 := example_chain) example_nodes.
Proof.
  split; unfold before, keys_of; cbn [number_of parent_of changes_of example_chain]; intros h; unfold example_changes; cbn [cs_inserted cs_deleted].
  - rewrite map_map. destruct (example_number h =? 0) eqn:Hz.
    + unfold example_nodes. cbn [map fst]. set_solver.
    + cbn [fst]. symmetry. apply example_nodes_step. by rewrite Hz.
  - intros k Hk. left. destruct (example_number h =? 0); [by apply elem_of_nil in Hk|]. unfold example_nodes. by rewrite elem_of_list_to_set.
Qed.

Notation example_request := (request (B := Byte.byte)).
Notation example_state := (StateDbSync Byte.byte Byte.byte).
Notation example_data := (gmap Byte.byte DBValue).
Notation example_runs_db := (db_runs (P := debug) (CE := unit) (DE := unit) (nodes := example_nodes) (fun _ => True)).

(** A request, and what it makes of the state and of the nodes. *)
Definition example_execute (d : gmap bytes DBValue) (r : example_request) (s : example_state) : example_state * outcome failure (CommitSet Byte.byte) :=
  execute (P := debug) (CE := unit) (DE := unit) d r s.
Definition example_after (d : gmap bytes DBValue) (r : example_request) (s : example_state) : example_state := fst (example_execute d r s).
Definition example_written (d : gmap bytes DBValue) (r : example_request) (s : example_state) (D : example_data) : example_data :=
  match snd (example_execute d r s) with Ok c => apply_changes (data c) D | _ => D end.

Fixpoint example_steps (d : gmap bytes DBValue) (rs : list example_request) (s : example_state) (D : example_data) : example_state * example_data :=
  match rs with
  | [] => (s, D)
  | r :: rs => example_steps d rs (example_after d r s) (example_written d r s D)
  end.

Fixpoint all_permitted (d : gmap bytes DBValue) (rs : list example_request) (s : example_state) (D : example_data) : Prop :=
  match rs with
  | [] => True
  | r :: rs => permitted (P := debug) (nodes := example_nodes) (fun _ => True) s D r /\
      all_permitted d rs (example_after d r s) (example_written d r s D)
  end.

Lemma example_steps_run d Dd rs s m D : example_runs_db s m D d Dd -> all_permitted d rs s D ->
  exists m', example_runs_db (fst (example_steps d rs s D)) m' (snd (example_steps d rs s D)) d Dd.
Proof.
  revert s m D. induction rs as [|r rs IH]; intros s m D Hrun Hp; [by exists m|]. destruct Hp as [Hr Hp]. cbn [example_steps].
  destruct (db_runs_ok _ _ _ _ _ _ Hrun) as ((w & recs & Hok & Hlag) & _). unfold example_after, example_written, example_execute in *.
  destruct (execute_ok (CE := unit) (DE := unit) _ s w m D recs d r Hok Hlag Hr) as [(s' & c & Hx & _)|(e & Hx)]; rewrite Hx in *; cbn [fst snd] in *.
  - eapply IH; [by eapply db_ok|done].
  - eapply IH; [by eapply db_err|done].
Qed.

(** A new database that keeps one block. *)
Definition example_open (mem : bool) : example_state :=
  mkStateDbSync (blocks_pruning 1) (no_overlay None)
    (Some (mkRefWindow (if mem then Mem [] ∅ else DbBacked [] 1 None) 0)) ∅ mem.
Definition example_moded : gmap bytes DBValue := apply_changes (mkChangeSet [(to_meta_key PRUNING_MODE tt, PRUNING_MODE_CONSTRAINED)] []) ∅.

Lemma example_open_run mem : db_runs (P := debug) (CE := unit) (DE := unit) (nodes := example_nodes) (fun _ => True) (example_open mem) example_moded ∅ example_moded ∅.
Proof.
  apply (db_create _ ∅ ∅ {| max_blocks := Some 1 |} mem _ (mkCommitSet no_changes (mkChangeSet [(to_meta_key PRUNING_MODE tt, PRUNING_MODE_CONSTRAINED)] []))).
  - by split_and!.
  - intros k v. by rewrite lookup_empty.
  - destruct mem; vm_compute; reflexivity.
Qed.

(** Three blocks become canonical while a block of another branch is pinned. *)
Definition example_requests : list example_request :=
  [InsertBlock (block_at 0 0); CanonicalizeBlock (block_at 0 0); SyncBlocks;
   InsertBlock (block_at 1 0); InsertBlock (block_at 1 1); PinBlock (block_at 1 1) false; CanonicalizeBlock (block_at 1 0);
   InsertBlock (block_at 2 0); SyncBlocks].

Ltac permit :=
  cbn [permitted];
  first [ exact I
        | split; [example_step|intros Hn; first [by vm_compute in Hn; discriminate Hn|
            intros _; split; [intros _; by apply (bool_decide_eq_true _); vm_compute|by vm_compute]]]
        | split; [vm_compute; done|left; by apply (bool_decide_eq_true _); vm_compute]
        | by apply (bool_decide_eq_true _); vm_compute ].

Lemma example_permitted : all_permitted example_moded example_requests (example_open true) ∅.
Proof.
  cbn [all_permitted example_requests]. split; [permit|].
  split; [permit|].
  split; [permit|].
  split; [permit|].
  split; [permit|].
  split; [permit|].
  split; [permit|].
  split; [permit|].
  split; [permit|].
  done.
Qed.

Definition example_done : example_state := fst (example_steps example_moded example_requests (example_open true) ∅).
Definition example_data_done : gmap Byte.byte DBValue := snd (example_steps example_moded example_requests (example_open true) ∅).

Lemma example_done_run : exists m, db_runs (P := debug) (CE := unit) (DE := unit) (nodes := example_nodes) (fun _ => True) example_done m example_data_done example_moded ∅.
Proof.
  unfold example_done, example_data_done. exact (example_steps_run _ _ _ _ _ _ (example_open_run true) example_permitted).
Qed.


Lemma example_disjoint (h k : Byte.byte) : k ∈ keys_of (Chain0 := example_chain) h -> k ∉ cs_deleted (changes_of (Chain := example_chain) h).
Proof.
  intros Hk. assert (Forall (fun k => k ∉ cs_deleted (example_changes h)) (example_keys h)) as Hall.
  { apply (bool_decide_eq_true _). clear. by destruct h; vm_compute. }
  unfold keys_of in Hk. cbn [changes_of example_chain example_changes cs_inserted] in Hk. change (Forall (fun k => k ∉ cs_deleted (changes_of h)) (example_keys h)) in Hall.
  rewrite Forall_forall in Hall. apply Hall. rewrite <- list_fmap_compose in Hk. by rewrite list_fmap_id in Hk.
Qed.



Lemma prune_window_stops_witness : exists w recs w' c, length recs = 1%nat /\
  prune_window (P := debug) (CE := unit) (example_db example_moded) ∅ 0 empty_commit w = (w', Ok c) /\ window_ok w' (drop 1 recs).
Proof.
  destruct example_done_run as (m & Hrun). destruct (db_runs_ok _ _ _ _ _ _ Hrun) as ((w & recs & Hok & Hlag) & _).
  assert (length recs = 1%nat) as Hlen.
  { apply Nat2N.inj. rewrite <- (window_length_ok _ _ _ _ _ _ Hok). by vm_compute. }
  destruct (lags_readable (DE := unit) _ _ _ Hlag) as (k & Hr).
  destruct (prune_window_stops (P := debug) (CE := unit) _ ∅ 0 empty_commit w recs k (so_window _ _ _ _ _ _ Hok) Hr) as (w' & n & Hp & Hw & _ & _ & _ & Hstop).
  exists w, recs, w'. eexists. split; [exact Hlen|]. split; [exact Hp|]. destruct recs as [|r [|r' recs]]; try discriminate Hlen. destruct n as [|n]; [|simpl in Hw; rewrite drop_nil in Hw; exact Hw]. exfalso.
  destruct Hstop as [Hs|[Hs|(x & _ & Hx)]]; [by simpl in Hs| |by rewrite lookup_empty in Hx; destruct Hx].
  destruct (so_pruning _ _ _ _ _ _ Hok) as [_ Hq]. replace (ref_counting example_done) with true in Hq by (by vm_compute).
  destruct (queue w); [|discriminate Hq]. simpl in Hs. lia.
Defined.

(** ** Where the code does not do what it means to *)

(** Block 1 of the second branch is retained since block 2 on it is pinned. When block 1 is pinned and unpinned on its own, its
    nodes are gone, while block 2 is still pinned. *)
Definition example_discarded : example_state :=
  mkStateDbSync ArchiveCanonical example_overlay None {[block_at 2 1 := 1]} true.

(** The state of a pinned block is lost when one of its discarded ancestors is pinned and unpinned: the count of a retained block has one
    for the blocks above it, but [pin] does not raise it and [unpin] lowers it. *)
Theorem unpin_loses_state :
  let '(s, pinned) := pin (P := debug) (block_at 1 1) 1 false example_discarded in
  let '(s', unpinned) := unpin (P := debug) (E := unit) (block_at 1 1) s in
  pinned = Ok tt /\ nc_get (non_canonical s) (block_at 1 1) = Some [block_at 1 1] /\
  unpinned = Ok tt /\ sd_pinned s' !! block_at 2 1 = Some 1 /\ nc_get (non_canonical s') (block_at 1 1) = None.
Proof. by vm_compute. Qed.

(** Two blocks become canonical before anything is written, and then a discarded block is unpinned. *)
Definition example_unsynced : example_state :=
  fst (example_steps example_moded
    [InsertBlock (block_at 0 0); CanonicalizeBlock (block_at 0 0); InsertBlock (block_at 1 0); InsertBlock (block_at 1 1);
     PinBlock (block_at 1 1) false; CanonicalizeBlock (block_at 1 0)] (example_open true) ∅).

(** Unpinning a discarded block releases its canonical parent as well, which is held in memory until it is written: its nodes can not be
    read any more, neither from the overlay nor from the database. *)
Theorem unpin_before_sync :
  let '(s, unpinned) := unpin (P := debug) (E := unit) (block_at 1 1) example_unsynced in
  nc_get (non_canonical example_unsynced) (block_at 0 0) = Some [block_at 0 0] /\ unpinned = Ok tt /\
  pinned_canonincalized (non_canonical s) = [block_at 0 0; block_at 1 0] /\ nc_get (non_canonical s) (block_at 0 0) = None.
Proof. by vm_compute. Qed.

(** A database with a queue of its own, to which the first block, with number 1, is inserted and written, and which is then opened again. From
    then on everything is written at once. *)
Definition example_apply (r : example_request) (x : example_state * gmap bytes DBValue) : example_state * gmap bytes DBValue :=
  match example_execute (snd x) r (fst x) with
  | (s, Ok c) => (s, apply_changes (meta c) (snd x))
  | (s, _) => (s, snd x)
  end.
Definition example_reopened : option (example_state * gmap bytes DBValue) :=
  let x := example_apply (InsertBlock (block_at 1 0)) (example_open false, example_moded) in
  match open (P := debug) (CE := unit) (example_db (snd x)) (Some (blocks_pruning 1)) false false with
  | Ok (_, s) => Some (foldr example_apply (s, snd x)
      [CanonicalizeBlock (block_at 3 0); InsertBlock (block_at 3 0); CanonicalizeBlock (block_at 2 0); InsertBlock (block_at 2 0); CanonicalizeBlock (block_at 1 0)])
  | _ => None
  end.

