(* ===== verification/PoolTypes.v ===== *)
(** * The transaction pool: types

    What the queues of [client/transaction-pool/src/graph] share: transactions
    ([base_pool.rs]), the map that tracks the size of its content ([tracked_map.rs]), the errors of
    the pool, and what the queues use of the standard library: vectors as stacks, the ordered
    set of references, the order in which a hash set is visited. Hashes and extrinsics are
    any types, tags are byte strings, and an [Instant] is a number. The map is used under a
    lock; its two counters are atomic integers of pointer width, which wrap around. Sharing through
    [Arc] is not visible, as a transaction never changes. Logging is left out. *)

From S2P Require Import Prelude.

(** ** The standard library *)

(** [Vec::pop] *)
Definition pop {A} (v : list A) : option (A * list A) :=
  match last v with Some x => Some (x, removelast v) | None => None end.

(** The order in which a hash set, or the keys of a hash map, are visited: some order of the
    elements, each once. *)
Class Iteration (A : Type) `{Countable A} : Type := {
  iterate : gset A -> list A;
  iterate_elements : forall X, iterate X ≡ₚ elements X
}.

(** [HashMap::values] *)
Definition values {K A} `{Iteration K} (m : gmap K A) : list A :=
  omap (fun k => m !! k) (iterate (dom m)).

(** [assert!] *)
Definition assert {E} (b : bool) : outcome E unit := if b then Ok tt else Panic.

Definition add_usize {E} `{!Profile} (a b : N) : outcome E N := overflowing usize_MAX (a + b).

Definition saturating_add_u64 (a b : N) : N := N.min (a + b) u64_MAX.

(** The value of an [isize] after an operation that wraps around. *)
Definition wrap_isize (z : Z) : Z := ((z + 2 ^ 63) mod 2 ^ 64 - 2 ^ 63)%Z.

(** A [BTreeSet], as the list of its elements in ascending order; elements that [cmp] calls
    equal are the same. *)
Section btree_set.
Context {A : Type} (cmp : A -> A -> comparison).

Fixpoint btree_insert (x : A) (l : list A) : list A :=
  match l with
  | [] => [x]
  | y :: l' =>
      match cmp x y with
      | Lt => x :: l
      | Eq => l
      | Gt => y :: btree_insert x l'
      end
  end.

Fixpoint btree_remove (x : A) (l : list A) : list A :=
  match l with
  | [] => []
  | y :: l' =>
      match cmp x y with
      | Lt => l
      | Eq => l'
      | Gt => y :: btree_remove x l'
      end
  end.

Fixpoint btree_take (x : A) (l : list A) : option A :=
  match l with
  | [] => None
  | y :: l' =>
      match cmp x y with
      | Lt => None
      | Eq => Some y
      | Gt => btree_take x l'
      end
  end.
End btree_set.

(** ** Transactions *)

Definition Tag : Type := list N.
Definition Priority : Type := N.
Definition Longevity : Type := N.
Definition Instant : Type := N.

Inductive TransactionSource : Type :=
| InBlock
| Local
| External.

Record TimedTransactionSource : Type := mkTimedTransactionSource {
  source_of : TransactionSource;
  timestamp : option Instant
}.

(** The constructors; [now] is what [Instant::now] returns. *)
Definition from_transaction_source (now : Instant) (s : TransactionSource) (with_timestamp : bool)
  : TimedTransactionSource :=
  mkTimedTransactionSource s (if with_timestamp then Some now else None).
Definition new_in_block (now : Instant) (with_timestamp : bool) : TimedTransactionSource :=
  from_transaction_source now InBlock with_timestamp.
Definition new_external (now : Instant) (with_timestamp : bool) : TimedTransactionSource :=
  from_transaction_source now External with_timestamp.
Definition new_local (now : Instant) (with_timestamp : bool) : TimedTransactionSource :=
  from_transaction_source now Local with_timestamp.

Record Transaction (Hash Ex : Type) : Type := mkTransaction {
  data : Ex;
  tx_bytes : N;
  hash : Hash;
  priority : Priority;
  valid_till : Longevity;
  requires : list Tag;
  provides : list Tag;
  propagate : bool;
  source : TimedTransactionSource
}.
Arguments mkTransaction {Hash Ex} _ _ _ _ _ _ _ _ _.
Arguments data {Hash Ex} _.
Arguments tx_bytes {Hash Ex} _.
Arguments hash {Hash Ex} _.
Arguments priority {Hash Ex} _.
Arguments valid_till {Hash Ex} _.
Arguments requires {Hash Ex} _.
Arguments provides {Hash Ex} _.
Arguments propagate {Hash Ex} _.
Arguments source {Hash Ex} _.

(** The errors of the pool that the graph raises. *)
Inductive Error (Hash : Type) : Type :=
| AlreadyImported (h : Hash)
| TooLowPriority (old new : Priority)
| CycleDetected
| RejectedFutureTransaction.
Arguments AlreadyImported {Hash} h.
Arguments TooLowPriority {Hash} old new.
Arguments CycleDetected {Hash}.
Arguments RejectedFutureTransaction {Hash}.

(** ** The tracked map *)

(** [trait Size] *)
Class SizeOf (V : Type) : Type := size_of : V -> N.

Record TrackedMap (K V : Type) `{Countable K} : Type := mkTrackedMap {
  index : gmap K V;
  bytes : Z;
  length_ : Z
}.
Arguments mkTrackedMap {K V _ _} _ _ _.
Arguments index {K V _ _} _.
Arguments bytes {K V _ _} _.
Arguments length_ {K V _ _} _.

Section tracked_map.
Context {K V : Type} `{Countable K, !SizeOf V}.
Implicit Types m : TrackedMap K V.

Definition tm_default : TrackedMap K V := mkTrackedMap ∅ 0 0.

Definition tm_len m : N := Z.to_N (Z.max (length_ m) 0).
Definition tm_bytes m : N := Z.to_N (Z.max (bytes m) 0).

Definition tm_get (k : K) m : option V := index m !! k.
Definition tm_contains_key (k : K) m : bool := bool_decide (is_Some (index m !! k)).

(** [TrackedMapWriteAccess::insert]; the previous value is returned. *)
Definition tm_insert (k : K) (v : V) m : TrackedMap K V * option V :=
  let grown_bytes := wrap_isize (bytes m + wrap_isize (Z.of_N (size_of v))) in
  let grown_length := wrap_isize (length_ m + 1) in
  let old := index m !! k in
  match old with
  | Some old_val =>
      (mkTrackedMap (<[k := v]> (index m))
         (wrap_isize (grown_bytes - wrap_isize (Z.of_N (size_of old_val))))
         (wrap_isize (grown_length - 1)), old)
  | None => (mkTrackedMap (<[k := v]> (index m)) grown_bytes grown_length, old)
  end.

Definition tm_remove (k : K) m : TrackedMap K V * option V :=
  match index m !! k with
  | Some val =>
      (mkTrackedMap (delete k (index m))
         (wrap_isize (bytes m - wrap_isize (Z.of_N (size_of val)))) (wrap_isize (length_ m - 1)),
       Some val)
  | None => (m, None)
  end.

(** A change through the reference that [get_mut] returns; the counters are left alone. *)
Definition tm_alter (f : V -> V) (k : K) m : TrackedMap K V :=
  mkTrackedMap (alter f k (index m)) (bytes m) (length_ m).
End tracked_map.
