(* ===== verification/PoolFuture.v ===== *)
(** * The transaction pool: the future queue

    Model of [client/transaction-pool/src/graph/future.rs]: the transactions that wait for tags that
    no transaction of the ready queue provides. *)

From S2P Require Import Prelude PoolTypes.

(** Transaction with partially satisfied dependencies. *)
Record WaitingTransaction (Hash Ex : Type) : Type := mkWaiting {
  transaction : Transaction Hash Ex;
  missing_tags : gset Tag;
  imported_at : Instant
}.
Arguments mkWaiting {Hash Ex} _ _ _.
Arguments transaction {Hash Ex} _.
Arguments missing_tags {Hash Ex} _.
Arguments imported_at {Hash Ex} _.

Record FutureTransactions (Hash Ex : Type) `{Countable Hash} : Type := mkFuture {
  wanted_tags : gmap Tag (gset Hash);
  waiting : gmap Hash (WaitingTransaction Hash Ex)
}.
Arguments mkFuture {Hash Ex _ _} _ _.
Arguments wanted_tags {Hash Ex _ _} _.
Arguments waiting {Hash Ex _ _} _.

Section model.
Context {P : Profile} {Hash Ex : Type} `{Iteration Hash, !Iteration Tag}.

Notation tx_t := (Transaction Hash Ex).
Notation waiting_t := (WaitingTransaction Hash Ex).
Notation future_t := (FutureTransactions Hash Ex).
Notation error := (Error Hash).
Implicit Types s : future_t.

(** ** Waiting transactions *)

(** [WaitingTransaction::new]; [now] is what [Instant::now] returns. *)
Definition waiting_new (now : Instant) (tx : tx_t) (provided : gmap Tag Hash)
    (recently_pruned : list (gset Tag)) : waiting_t :=
  let is_provided tag :=
    bool_decide (is_Some (provided !! tag)) ||
    existsb (fun x : gset Tag => bool_decide (tag ∈ x)) recently_pruned in
  mkWaiting tx (list_to_set (List.filter (fun tag => negb (is_provided tag)) (requires tx))) now.

Definition satisfy_tag (tag : Tag) (tx : waiting_t) : waiting_t :=
  mkWaiting (transaction tx) (missing_tags tx ∖ {[tag]}) (imported_at tx).

Definition is_ready (tx : waiting_t) : bool := bool_decide (missing_tags tx = ∅).

(** ** The queue *)

Definition future_default : future_t := mkFuture ∅ ∅.

Definition want (h : Hash) (tag : Tag) (wanted : gmap Tag (gset Hash)) : gmap Tag (gset Hash) :=
  <[tag := {[h]} ∪ default ∅ (wanted !! tag)]> wanted.

(** [FutureTransactions::import] *)
Definition future_import (tx : waiting_t) : M future_t error unit :=
  let* _ := lift (assert (negb (is_ready tx))) in
  let* s := get_state in
  let* _ := lift (assert (bool_decide (waiting s !! hash (transaction tx) = None))) in
  let wanted := foldl (fun w tag => want (hash (transaction tx)) tag w) (wanted_tags s)
                  (iterate (missing_tags tx)) in
  put_state (mkFuture wanted (<[hash (transaction tx) := tx]> (waiting s))).

Definition future_contains (h : Hash) s : bool := bool_decide (is_Some (waiting s !! h)).

Definition future_by_hashes (hashes : list Hash) s : list (option tx_t) :=
  map (fun h => transaction <$> waiting s !! h) hashes.

(** The loop on the missing tags in [remove]. *)
Definition unwant (h : Hash) (wanted : gmap Tag (gset Hash)) (tag : Tag)
  : gmap Tag (gset Hash) :=
  match wanted !! tag with
  | Some hashes =>
      if decide (hashes ∖ {[h]} = ∅) then delete tag wanted
      else <[tag := hashes ∖ {[h]}]> wanted
  | None => wanted
  end.

Definition remove_one (h : Hash) '((s, removed) : future_t * list tx_t) : future_t * list tx_t :=
  match waiting s !! h with
  | Some waiting_tx =>
      (mkFuture (foldl (unwant h) (wanted_tags s) (iterate (missing_tags waiting_tx)))
         (delete h (waiting s)),
       removed ++ [transaction waiting_tx])
  | None => (s, removed)
  end.

(** [FutureTransactions::remove] *)
Definition future_remove (hashes : list Hash) s : future_t * list tx_t :=
  foldl (fun acc h => remove_one h acc) (s, []) hashes.

(** [FutureTransactions::prune_tags] *)
Definition future_prune_tags (tags : list Tag) s : future_t * list tx_t :=
  let pruned :=
    omap (fun tx : waiting_t =>
            if existsb (fun tag => bool_decide (tag ∈ tags)) (provides (transaction tx))
            then Some (hash (transaction tx)) else None) (values (waiting s)) in
  future_remove pruned s.

(** The two loops of [satisfy_tags]. *)
Definition satisfy_one (tag : Tag) (h : Hash) (became_ready : list waiting_t)
  : M future_t error (list waiting_t) :=
  let* s := get_state in
  let* tx := lift (expect (waiting s !! h)) in
  let tx' := satisfy_tag tag tx in
  if is_ready tx' then
    let* _ := put_state (mkFuture (wanted_tags s) (delete h (waiting s))) in
    ret (became_ready ++ [tx'])
  else
    let* _ := put_state (mkFuture (wanted_tags s) (<[h := tx']> (waiting s))) in
    ret became_ready.

Definition satisfy_one_tag (tag : Tag) (became_ready : list waiting_t)
  : M future_t error (list waiting_t) :=
  let* s := get_state in
  match wanted_tags s !! tag with
  | Some hashes =>
      let* _ := put_state (mkFuture (delete tag (wanted_tags s)) (waiting s)) in
      for_fold (satisfy_one tag) (iterate hashes) became_ready
  | None => ret became_ready
  end.

Definition satisfy_tags (tags : list Tag) : M future_t error (list waiting_t) :=
  for_fold satisfy_one_tag tags [].

Definition future_fold {R} (f : option R -> waiting_t -> option R) s : option R :=
  foldl f None (values (waiting s)).

Definition future_all s : list tx_t := map transaction (values (waiting s)).

Definition future_clear s : future_t * list tx_t :=
  (future_default, map transaction (values (waiting s))).

Definition future_len s : N := N.of_nat (size (waiting s)).

Definition future_bytes s : outcome error N :=
  foldl (fun acc tx => let! acc := acc in add_usize acc (tx_bytes (transaction tx)))
    (Ok 0%N) (values (waiting s)).
End model.
