(* ===== verification/PoolReady.v ===== *)
(** * The transaction pool: the ready queue

    Model of [client/transaction-pool/src/graph/ready.rs]: the transactions whose requirements are
    met, with the graph of who unlocks whom, and the iterator that yields them in the order in
    which they can go into a block. *)

From S2P Require Import Prelude PoolTypes PoolFuture.

(** ** Data *)

Record TransactionRef (Hash Ex : Type) : Type := mkRef {
  ref_transaction : Transaction Hash Ex;
  ref_insertion_id : N
}.
Arguments mkRef {Hash Ex} _ _.
Arguments ref_transaction {Hash Ex} _.
Arguments ref_insertion_id {Hash Ex} _.

Record ReadyTx (Hash Ex : Type) : Type := mkReadyTx {
  tx_ref : TransactionRef Hash Ex;
  unlocks : list Hash;
  requires_offset : nat
}.
Arguments mkReadyTx {Hash Ex} _ _ _.
Arguments tx_ref {Hash Ex} _.
Arguments unlocks {Hash Ex} _.
Arguments requires_offset {Hash Ex} _.

(** The transaction of an entry. *)
Notation tx_of r := (ref_transaction (tx_ref r)).

#[export] Instance ReadyTx_size {Hash Ex} : SizeOf (ReadyTx Hash Ex) := fun r => tx_bytes (tx_of r).

Record ReadyTransactions (Hash Ex : Type) `{Countable Hash} : Type := mkReady {
  insertion_id : N;
  provided_tags : gmap Tag Hash;
  ready : TrackedMap Hash (ReadyTx Hash Ex);
  best : list (TransactionRef Hash Ex)
}.
Arguments mkReady {Hash Ex _ _} _ _ _ _.
Arguments insertion_id {Hash Ex _ _} _.
Arguments provided_tags {Hash Ex _ _} _.
Arguments ready {Hash Ex _ _} _.
Arguments best {Hash Ex _ _} _.

Record BestIterator (Hash Ex : Type) `{Countable Hash} : Type := mkBestIterator {
  bi_all : gmap Hash (ReadyTx Hash Ex);
  bi_awaiting : gmap Hash (nat * TransactionRef Hash Ex);
  bi_best : list (TransactionRef Hash Ex);
  bi_invalid : gset Hash
}.
Arguments mkBestIterator {Hash Ex _ _} _ _ _ _.
Arguments bi_all {Hash Ex _ _} _.
Arguments bi_awaiting {Hash Ex _ _} _.
Arguments bi_best {Hash Ex _ _} _.
Arguments bi_invalid {Hash Ex _ _} _.

(** [Ord for TransactionRef] *)
Definition cmp_ref {Hash Ex} (a b : TransactionRef Hash Ex) : comparison :=
  match (priority (ref_transaction a) ?= priority (ref_transaction b))%N with
  | Eq =>
      match (valid_till (ref_transaction b) ?= valid_till (ref_transaction a))%N with
      | Eq => (ref_insertion_id b ?= ref_insertion_id a)%N
      | c => c
      end
  | c => c
  end.

Section model.
Context {P : Profile} {Hash Ex : Type} `{Iteration Hash, !Iteration Tag}.

Notation tx_t := (Transaction Hash Ex).
Notation waiting_t := (WaitingTransaction Hash Ex).
Notation entry := (ReadyTx Hash Ex).
Notation ready_t := (ReadyTransactions Hash Ex).
Notation error := (Error Hash).
Implicit Types s : ready_t.

Definition ready_default : ready_t := mkReady 0 ∅ tm_default [].

Definition set_insertion_id (i : N) s : ready_t := mkReady i (provided_tags s) (ready s) (best s).
Definition set_provided_tags (p : gmap Tag Hash) s : ready_t :=
  mkReady (insertion_id s) p (ready s) (best s).
Definition set_ready (r : TrackedMap Hash entry) s : ready_t :=
  mkReady (insertion_id s) (provided_tags s) r (best s).
Definition set_best (b : list (TransactionRef Hash Ex)) s : ready_t :=
  mkReady (insertion_id s) (provided_tags s) (ready s) b.

Definition map_unlocks (f : list Hash -> list Hash) (r : entry) : entry :=
  mkReadyTx (tx_ref r) (f (unlocks r)) (requires_offset r).

(** [remove_item], with [Vec::swap_remove]. *)
Definition remove_item (v : list Hash) (item : Hash) : list Hash :=
  match list_find (fun i => i = item) v with
  | Some (idx, _) =>
      match pop v with
      | Some (l, front) => if decide (idx = length front) then front else <[idx := l]> front
      | None => v
      end
  | None => v
  end.

(** ** Removal *)

(** The sum of the lengths of the lists of an entry, over the entries of the queue: it
    bounds the rounds of the loops below. *)
Definition total (f : entry -> nat) (m : gmap Hash entry) : nat :=
  map_fold (fun _ r n => f r + n) 0 m.

(** The loop of [remove_subtree_with_tag_filter] that removes a transaction from the lists of
    those that unlock it. *)
Definition unlink (h : Hash) (tags : list Tag) (s : ready_t) : ready_t :=
  foldl (fun s tag =>
           match provided_tags s !! tag with
           | Some h' => set_ready (tm_alter (map_unlocks (fun u => remove_item u h)) h' (ready s)) s
           | None => s
           end) s tags.

Definition remove_subtree_round (filter : option (gset Tag))
    '((to_remove, removed) : list Hash * list tx_t)
  : M ready_t error (control (list Hash * list tx_t) (list tx_t)) :=
  match pop to_remove with
  | None => ret (Break removed)
  | Some (tx_hash, to_remove) =>
      let* s := get_state in
      let '(ready', old) := tm_remove tx_hash (ready s) in
      match old with
      | None => ret (Continue (to_remove, removed))
      | Some tx =>
          let invalidated :=
            List.filter (fun tag =>
              match filter with Some f => negb (bool_decide (tag ∈ f)) | None => true end)
              (provides (tx_of tx)) in
          let removed_some_tags := negb (bool_decide (invalidated = [])) in
          let s1 := set_provided_tags (foldl (fun p tag => delete tag p) (provided_tags s) invalidated)
                      (set_ready ready' s) in
          let s2 := unlink tx_hash (requires (tx_of tx)) s1 in
          let s3 := set_best (btree_remove cmp_ref (tx_ref tx) (best s2)) s2 in
          let* _ := put_state s3 in
          ret (Continue (if removed_some_tags then to_remove ++ unlocks tx else to_remove,
                         removed ++ [tx_of tx]))
      end
  end.

Definition remove_subtree_with_tag_filter (to_remove : list Hash) (filter : option (gset Tag))
  : M ready_t error (list tx_t) :=
  let* s := get_state in
  loopM (S (length to_remove + total (fun r => length (unlocks r)) (index (ready s))))
    (remove_subtree_round filter) (to_remove, []).

Definition ready_remove_subtree (hashes : list Hash) : M ready_t error (list tx_t) :=
  remove_subtree_with_tag_filter hashes None.

(** [find_previous] *)
Definition find_previous (h : Hash) (tag : Tag) (s : ready_t) : ready_t * option (list Tag) :=
  match provided_tags s !! tag with
  | None => (s, None)
  | Some prev_hash =>
      match index (ready s) !! prev_hash with
      | None => (s, None)
      | Some tx2 =>
          let s' := set_ready (tm_alter (map_unlocks (fun u => remove_item u h)) prev_hash (ready s)) s in
          (s', if decide (remove_item (unlocks tx2) h = []) then Some (provides (tx_of tx2)) else None)
      end
  end.

Definition prune_previous (h : Hash) (tags : list Tag) (s : ready_t) (to_remove : list Tag)
  : ready_t * list Tag :=
  foldl (fun '(s, to_remove) tag =>
           let '(s', tags_to_remove) := find_previous h tag s in
           (s', to_remove ++ default [] tags_to_remove)) (s, to_remove) tags.

(** A transaction got unlocked by one that is pruned. *)
Definition unlock (h : Hash) (s : ready_t) : ready_t :=
  match index (ready s) !! h with
  | None => s
  | Some tx =>
      let offset := S (requires_offset tx) in
      let s' := set_ready (tm_alter (fun r => mkReadyTx (tx_ref r) (unlocks r) offset) h (ready s)) s in
      if decide (offset = length (requires (tx_of tx)))
      then set_best (btree_insert cmp_ref (tx_ref tx) (best s')) s' else s'
  end.

(** The other tags of a pruned transaction; the assertion is the last one of [prune_tags]. *)
Definition clear_tag (current_tag : Tag) (h : Hash) (tag : Tag) : M ready_t error unit :=
  let* s := get_state in
  let* _ := put_state (set_provided_tags (delete tag (provided_tags s)) s) in
  lift (assert (bool_decide (provided_tags s !! tag = (if decide (current_tag = tag) then None else Some h)))).

Definition prune_round '((to_remove, removed) : list Tag * list tx_t)
  : M ready_t error (control (list Tag * list tx_t) (list tx_t)) :=
  match pop to_remove with
  | None => ret (Break removed)
  | Some (tag, to_remove) =>
      let* s := get_state in
      match provided_tags s !! tag with
      | None => ret (Continue (to_remove, removed))
      | Some h =>
          let s := set_provided_tags (delete tag (provided_tags s)) s in
          let '(ready', res) := tm_remove h (ready s) in
          match res with
          | None => let* _ := put_state s in ret (Continue (to_remove, removed))
          | Some entry =>
              let tx := tx_of entry in
              let s := set_best (btree_remove cmp_ref (tx_ref entry) (best s)) (set_ready ready' s) in
              let '(s, to_remove) := prune_previous (hash tx) (requires tx) s to_remove in
              let* _ := put_state (foldl (fun s h => unlock h s) s (unlocks entry)) in
              let* _ := for_each (clear_tag tag (hash tx)) (provides tx) in
              ret (Continue (to_remove, removed ++ [tx]))
          end
      end
  end.

(** [ReadyTransactions::prune_tags] *)
Definition ready_prune_tags (tag : Tag) : M ready_t error (list tx_t) :=
  let* s := get_state in
  loopM (3 + total (fun r => length (requires (tx_of r))) (index (ready s)) *
             total (fun r => length (provides (tx_of r))) (index (ready s)))
    prune_round ([tag], []).

(** ** Import *)

Definition replace_previous (tx : tx_t) : M ready_t error (list tx_t * list Hash) :=
  let* s := get_state in
  let replace_hashes : gset Hash :=
    list_to_set (omap (fun tag => provided_tags s !! tag) (provides tx)) in
  if decide (replace_hashes = ∅) then ret ([], []) else
  let entries := omap (fun h => tm_get h (ready s)) (iterate replace_hashes) in
  let old_priority := foldl (fun n r => saturating_add_u64 n (priority (tx_of r))) 0%N entries in
  if (priority tx <=? old_priority)%N then throw (TooLowPriority old_priority (priority tx)) else
  let unlocks := foldl (fun l r => l ++ unlocks r) [] entries in
  let* removed := remove_subtree_with_tag_filter (iterate replace_hashes)
                    (Some (list_to_set (provides tx))) in
  ret (removed, unlocks).

(** The loop on the required tags: it links the transaction to those that unlock it. *)
Definition link (h : Hash) (tag : Tag) '((goes_to_best, requires_offset) : bool * nat)
  : M ready_t error (bool * nat) :=
  let* s := get_state in
  match provided_tags s !! tag with
  | Some other =>
      let* _ := lift (expect (index (ready s) !! other)) in
      let* _ := put_state (set_ready (tm_alter (map_unlocks (fun u => u ++ [h])) other (ready s)) s) in
      ret (false, requires_offset)
  | None => ret (goes_to_best, S requires_offset)
  end.

(** [ReadyTransactions::import] *)
Definition ready_import (tx : waiting_t) : M ready_t error (list tx_t) :=
  let h := hash (transaction tx) in
  let transaction := transaction tx in
  let* _ := lift (assert (is_ready tx)) in
  let* s := get_state in
  let* _ := lift (assert (negb (tm_contains_key h (ready s)))) in
  let* id := lift (add_u64 (insertion_id s) 1) in
  let* _ := put_state (set_insertion_id id s) in
  let* '(replaced, unlocks) := replace_previous transaction in
  let* '(goes_to_best, requires_offset) := for_fold (link h) (requires transaction) (true, 0) in
  let* _ := modify_state (fun s =>
    set_provided_tags (foldl (fun p tag => <[tag := h]> p) (provided_tags s) (provides transaction)) s) in
  let transaction := mkRef transaction id in
  let* _ := modify_state (fun s =>
    if goes_to_best : bool then set_best (btree_insert cmp_ref transaction (best s)) s else s) in
  let* _ := modify_state (fun s =>
    set_ready (tm_insert h (mkReadyTx transaction unlocks requires_offset) (ready s)).1 s) in
  ret replaced.

(** ** Reading *)

Definition ready_fold {R} (f : R -> entry -> R) (init : R) s : R :=
  foldl f init (values (index (ready s))).

Definition ready_contains (h : Hash) s : bool := tm_contains_key h (ready s).

Definition ready_by_hashes (hashes : list Hash) s : list (option tx_t) :=
  map (fun h => (fun r => tx_of r) <$> tm_get h (ready s)) hashes.

Definition ready_by_hash (h : Hash) s : option tx_t :=
  match ready_by_hashes [h] s with o :: _ => o | [] => None end.

Definition ready_len s : N := tm_len (ready s).
Definition ready_bytes s : N := tm_bytes (ready s).

(** ** The iterator *)

Notation iter_t := (BestIterator Hash Ex).

(** [ReadyTransactions::get] *)
Definition ready_get s : iter_t := mkBestIterator (index (ready s)) ∅ (best s) ∅.

Definition best_or_awaiting (satisfied : nat) (r : TransactionRef Hash Ex) (b : iter_t) : iter_t :=
  if length (requires (ref_transaction r)) <=? satisfied
  then mkBestIterator (bi_all b) (bi_awaiting b) (btree_insert cmp_ref r (bi_best b)) (bi_invalid b)
  else mkBestIterator (bi_all b) (<[hash (ref_transaction r) := (satisfied, r)]> (bi_awaiting b))
         (bi_best b) (bi_invalid b).

Definition report_invalid (tx : tx_t) (b : iter_t) : iter_t :=
  match bi_all b !! hash tx with
  | Some to_report =>
      mkBestIterator (bi_all b) (bi_awaiting b) (bi_best b)
        (foldl (fun i h => {[h]} ∪ i) (bi_invalid b) (unlocks to_report))
  | None => b
  end.

(** The body of the loop on [unlocks] in [next]. *)
Definition release_one (b : iter_t) (h : Hash) : iter_t :=
  match bi_awaiting b !! h with
  | Some (satisfied, r) =>
      best_or_awaiting (S satisfied) r
        (mkBestIterator (bi_all b) (delete h (bi_awaiting b)) (bi_best b) (bi_invalid b))
  | None =>
      match bi_all b !! h with
      | Some next => best_or_awaiting (S (requires_offset next)) (tx_ref next) b
      | None => b
      end
  end.

Definition next_round (b : iter_t) : iter_t * control unit (option tx_t) :=
  match last (bi_best b) with
  | None => (b, Break None)
  | Some best =>
      match btree_take cmp_ref best (bi_best b) with
      | None => (b, Break None)
      | Some best =>
          let b := mkBestIterator (bi_all b) (bi_awaiting b) (btree_remove cmp_ref best (bi_best b))
                     (bi_invalid b) in
          let tx_hash := hash (ref_transaction best) in
          if decide (tx_hash ∈ bi_invalid b) then (b, Continue tt) else
          match bi_all b !! tx_hash with
          | None => (b, Continue tt)
          | Some r => (foldl release_one b (unlocks r), Break (Some (ref_transaction best)))
          end
      end
  end.

(** [Iterator::next] *)
Definition next : M iter_t error (option tx_t) := fun b =>
  loopM (S (length (bi_best b))) (fun _ b => let '(b', c) := next_round b in (b', Ok c)) tt b.
End model.
