(* ===== verification/BasePool.v ===== *)
(** * The transaction pool: the base pool

    Model of [client/transaction-pool/src/graph/base_pool.rs]: a transaction goes to the ready
    queue when the tags it requires are provided there or were pruned recently, and to the future
    queue otherwise, from where it is promoted once they are provided. *)

From S2P Require Import Prelude PoolTypes PoolFuture PoolReady.

(** ** Data *)

(** Successful import result. *)
Inductive Imported (Hash Ex : Type) : Type :=
| ImportedReady (h : Hash) (promoted failed : list Hash) (removed : list (Transaction Hash Ex))
| ImportedFuture (h : Hash).
Arguments ImportedReady {Hash Ex} h promoted failed removed.
Arguments ImportedFuture {Hash Ex} h.

Definition imported_hash {Hash Ex} (i : Imported Hash Ex) : Hash :=
  match i with ImportedReady h _ _ _ | ImportedFuture h => h end.

(** Status of pruning the queue. *)
Record PruneStatus (Hash Ex : Type) : Type := mkPruneStatus {
  ps_promoted : list (Imported Hash Ex);
  ps_failed : list Hash;
  ps_pruned : list (Transaction Hash Ex)
}.
Arguments mkPruneStatus {Hash Ex} _ _ _.
Arguments ps_promoted {Hash Ex} _.
Arguments ps_failed {Hash Ex} _.
Arguments ps_pruned {Hash Ex} _.

Definition RECENTLY_PRUNED_TAGS : nat := 2.

Record BasePool (Hash Ex : Type) `{Countable Hash} : Type := mkBasePool {
  reject_future_transactions : bool;
  future : FutureTransactions Hash Ex;
  ready_queue : ReadyTransactions Hash Ex;
  recently_pruned : list (gset Tag);
  recently_pruned_index : nat
}.
Arguments mkBasePool {Hash Ex _ _} _ _ _ _ _.
Arguments reject_future_transactions {Hash Ex _ _} _.
Arguments future {Hash Ex _ _} _.
Arguments ready_queue {Hash Ex _ _} _.
Arguments recently_pruned {Hash Ex _ _} _.
Arguments recently_pruned_index {Hash Ex _ _} _.

Record PoolStatus : Type := mkPoolStatus {
  ps_ready : N;
  ps_ready_bytes : N;
  ps_future : N;
  ps_future_bytes : N
}.

(** Queue limits *)
Record Limit : Type := mkLimit {
  limit_count : N;
  limit_total_bytes : N
}.

Definition is_exceeded (l : Limit) (count bytes : N) : bool :=
  (limit_count l <? count)%N || (limit_total_bytes l <? bytes)%N.

Section model.
Context {P : Profile} {Hash Ex : Type} `{Iteration Hash, !Iteration Tag}.

Notation tx_t := (Transaction Hash Ex).
Notation waiting_t := (WaitingTransaction Hash Ex).
Notation ref_t := (TransactionRef Hash Ex).
Notation pool := (BasePool Hash Ex).
Notation error := (Error Hash).
Implicit Types s : pool.

Definition set_future (f : FutureTransactions Hash Ex) s : pool :=
  mkBasePool (reject_future_transactions s) f (ready_queue s) (recently_pruned s)
    (recently_pruned_index s).
Definition set_ready_queue (r : ReadyTransactions Hash Ex) s : pool :=
  mkBasePool (reject_future_transactions s) (future s) r (recently_pruned s)
    (recently_pruned_index s).

(** A call of a method of one of the queues. *)
Definition on_future {A} (m : M (FutureTransactions Hash Ex) error A) : M pool error A := fun s =>
  let '(f, o) := m (future s) in (set_future f s, o).
Definition on_ready {A} (m : M (ReadyTransactions Hash Ex) error A) : M pool error A := fun s =>
  let '(r, o) := m (ready_queue s) in (set_ready_queue r s, o).

(** [BasePool::new] *)
Definition base_pool_new (reject : bool) : pool :=
  mkBasePool reject future_default ready_default (replicate RECENTLY_PRUNED_TAGS ∅) 0.

Definition clear_recently_pruned s : pool :=
  mkBasePool (reject_future_transactions s) (future s) (ready_queue s)
    (replicate RECENTLY_PRUNED_TAGS ∅) 0.

Definition set_reject (b : bool) s : pool :=
  mkBasePool b (future s) (ready_queue s) (recently_pruned s) (recently_pruned_index s).

(** The closure returns a value of its own type, an error included, after which the flag is restored. *)
Definition with_futures_enabled {E A} (closure : bool -> M pool E A) : M pool E A := fun s =>
  let previous := reject_future_transactions s in
  match closure previous (set_reject false s) with
  | (s', Ok a) => (set_reject previous s', Ok a)
  | (s', Err e) => (set_reject previous s', Err e)
  | (s', Panic) => (s', Panic)
  | (s', Diverge) => (s', Diverge)
  end.

Definition is_imported (h : Hash) s : bool :=
  future_contains h (future s) || ready_contains h (ready_queue s).

(** ** Import *)

(** The variables of the loop of [import_to_ready]. *)
Record ImportState : Type := mkImportState {
  promoted : list Hash;
  failed : list Hash;
  removed : list tx_t;
  first : bool;
  to_import : list waiting_t
}.

Definition import_round (l : ImportState) : M pool error (control ImportState ImportState) :=
  match pop (to_import l) with
  | None => ret (Break l)
  | Some (tx, to_import) =>
      let* unlocked := on_future (satisfy_tags (provides (transaction tx))) in
      let to_import := to_import ++ unlocked in
      let current_hash := hash (transaction tx) in
      let* res := caught (on_ready (ready_import tx)) in
      match res with
      | inr replaced =>
          let promoted := if first l then promoted l else promoted l ++ [current_hash] in
          let promoted :=
            List.filter (fun h => forallb (fun tx => bool_decide (h <> hash tx)) replaced) promoted in
          ret (Continue (mkImportState promoted (failed l) (removed l ++ replaced) false to_import))
      | inl (TooLowPriority old new) =>
          if first l then throw (TooLowPriority old new) else
          ret (Continue (mkImportState
            (List.filter (fun h => bool_decide (h <> current_hash)) (promoted l)) (failed l)
            (removed l ++ [transaction tx]) false to_import))
      | inl e =>
          if first l then throw e else
          ret (Continue (mkImportState (promoted l) (failed l ++ [current_hash]) (removed l) false
            to_import))
      end
  end.

Definition import_to_ready (tx : waiting_t) : M pool error (Imported Hash Ex) :=
  let tx_hash := hash (transaction tx) in
  let* s := get_state in
  let* l := loopM (2 + size (waiting (future s))) import_round (mkImportState [] [] [] true [tx]) in
  if existsb (fun tx => bool_decide (hash tx = tx_hash)) (removed l) then
    let* _ := on_ready (ready_remove_subtree (promoted l)) in
    throw CycleDetected
  else ret (ImportedReady tx_hash (promoted l) (failed l) (removed l)).

(** [BasePool::import]; [now] is what [Instant::now] returns. *)
Definition import (now : Instant) (tx : tx_t) : M pool error (Imported Hash Ex) :=
  let* s := get_state in
  if is_imported (hash tx) s then throw (AlreadyImported (hash tx)) else
  let tx := waiting_new now tx (provided_tags (ready_queue s)) (recently_pruned s) in
  if is_ready tx then import_to_ready tx else
  if reject_future_transactions s then throw RejectedFutureTransaction else
  let h := hash (transaction tx) in
  let* _ := on_future (future_import tx) in
  ret (ImportedFuture h).

(** ** Reading *)

(** [BasePool::ready] and [BasePool::futures] *)
Definition pool_ready s : BestIterator Hash Ex := ready_get (ready_queue s).
Definition pool_futures s : list tx_t := future_all (future s).

Definition by_hashes (hashes : list Hash) s : list (option tx_t) :=
  zip_with (fun a b => match a with Some x => Some x | None => b end)
    (ready_by_hashes hashes (ready_queue s)) (future_by_hashes hashes (future s)).

Definition pool_ready_by_hash (h : Hash) s : option tx_t := ready_by_hash h (ready_queue s).

Definition status s : outcome error PoolStatus :=
  let! fb := future_bytes (future s) in
  Ok (mkPoolStatus (ready_len (ready_queue s)) (ready_bytes (ready_queue s)) (future_len (future s)) fb).

(** ** Removal *)

(** [BasePool::remove_subtree] *)
Definition remove_subtree (hashes : list Hash) : M pool error (list tx_t) :=
  let* removed := on_ready (ready_remove_subtree hashes) in
  let* s := get_state in
  let '(f, more) := future_remove hashes (future s) in
  let* _ := put_state (set_future f s) in
  ret (removed ++ more).

Definition clear_future : M pool error (list tx_t) :=
  let* s := get_state in
  let '(f, removed) := future_clear (future s) in
  let* _ := put_state (set_future f s) in
  ret removed.

(** The two folds of [enforce_limits] that look for the worst transaction. *)
Definition worse_ready (worst : option ref_t) (current : ReadyTx Hash Ex) : option ref_t :=
  let transaction := tx_ref current in
  match worst with
  | None => Some transaction
  | Some worst =>
      Some (match (priority (ref_transaction worst) ?= priority (ref_transaction transaction))%N with
            | Lt => worst
            | Eq => if (ref_insertion_id transaction <? ref_insertion_id worst)%N then transaction else worst
            | Gt => transaction
            end)
  end.

Definition worse_future (worst : option waiting_t) (current : waiting_t) : option waiting_t :=
  match worst with
  | None => Some current
  | Some worst =>
      Some (match timestamp (source (transaction worst)), timestamp (source (transaction current)) with
            | Some worst_timestamp, Some current_timestamp =>
                if (current_timestamp <? worst_timestamp)%N then current else worst
            | _, _ => if (imported_at current <? imported_at worst)%N then current else worst
            end)
  end.

Definition limit_ready_round (limit : Limit) (removed : list tx_t)
  : M pool error (control (list tx_t) (list tx_t)) :=
  let* s := get_state in
  if is_exceeded limit (ready_len (ready_queue s)) (ready_bytes (ready_queue s)) then
    match ready_fold worse_ready None (ready_queue s) with
    | Some worst =>
        let* more := remove_subtree [hash (ref_transaction worst)] in
        ret (Continue (removed ++ more))
    | None => ret (Break removed)
    end
  else ret (Break removed).

Definition limit_future_round (limit : Limit) (removed : list tx_t)
  : M pool error (control (list tx_t) (list tx_t)) :=
  let* s := get_state in
  let* bytes := lift (future_bytes (future s)) in
  if is_exceeded limit (future_len (future s)) bytes then
    match future_fold worse_future (future s) with
    | Some worst =>
        let* more := remove_subtree [hash (transaction worst)] in
        ret (Continue (removed ++ more))
    | None => ret (Break removed)
    end
  else ret (Break removed).

Definition enforce_limits (ready_limit future_limit : Limit) : M pool error (list tx_t) :=
  let* s := get_state in
  let* removed := loopM (S (size (index (ready (ready_queue s))))) (limit_ready_round ready_limit) [] in
  loopM (S (size (waiting (future s)))) (limit_future_round future_limit) removed.

(** ** Pruning *)

(** The first loop of [prune_tags]: [i] is the slot of the tags pruned now. *)
Definition prune_one (i : nat) (tag : Tag) '((to_import, pruned) : list waiting_t * list tx_t)
  : M pool error (list waiting_t * list tx_t) :=
  let* unlocked := on_future (satisfy_tags [tag]) in
  let* more := on_ready (ready_prune_tags tag) in
  let* _ := modify_state (fun s =>
    mkBasePool (reject_future_transactions s) (future s) (ready_queue s)
      (alter (fun x : gset Tag => {[tag]} ∪ x) i (recently_pruned s)) (recently_pruned_index s)) in
  ret (to_import ++ unlocked, pruned ++ more).

Definition promote_one (tx : waiting_t) '((promoted, failed) : list (Imported Hash Ex) * list Hash)
  : M pool error (list (Imported Hash Ex) * list Hash) :=
  let tx_hash := hash (transaction tx) in
  let* res := caught (import_to_ready tx) in
  match res with
  | inr res => ret (promoted ++ [res], failed)
  | inl _ => ret (promoted, failed ++ [tx_hash])
  end.

(** [BasePool::prune_tags] *)
Definition prune_tags (tags : list Tag) : M pool error (PruneStatus Hash Ex) :=
  let* s := get_state in
  let i := recently_pruned_index s in
  let* _ := lift (expect (recently_pruned s !! i)) in
  let* _ := put_state (mkBasePool (reject_future_transactions s) (future s) (ready_queue s)
    (<[i := ∅]> (recently_pruned s)) ((i + 1) mod RECENTLY_PRUNED_TAGS)) in
  let* s := get_state in
  let '(f, futures_removed) := future_prune_tags tags (future s) in
  let* _ := put_state (set_future f s) in
  let* '(to_import, pruned) := for_fold (prune_one i) tags ([], []) in
  let* '(promoted, failed) := for_fold promote_one to_import ([], map hash futures_removed) in
  ret (mkPruneStatus promoted failed pruned).
End model.
