(* ===== verification/PoolGraph.v ===== *)
(** * The transaction pool: the graph of ready transactions

    The invariant of the ready queue and what its operations share. An entry lists the
    transactions that it unlocks, once for every required tag that it provides; the offset of an
    entry counts its required tags that have no such link. The transactions are those of a scheme
    in which the tags that a transaction provides are its slot ([Slots]). *)

From S2P Require Import Prelude PoolTypes PoolFuture PoolReady.

(** ** Vectors *)

Lemma pop_nil {A} : pop (A := A) [] = None.
Proof. done. Qed.

Lemma pop_snoc {A} (l : list A) x : pop (l ++ [x]) = Some (x, l).
Proof. unfold pop. by rewrite last_snoc, removelast_last. Qed.

Lemma pop_cases {A} (v : list A) : (v = [] /\ pop v = None) \/ exists l x, v = l ++ [x] /\ pop v = Some (x, l).
Proof.
  destruct v as [|x v] using rev_ind; [by left|]. right. exists v, x. by rewrite pop_snoc.
Qed.

Lemma filter_length_le {A} (f g : A -> bool) (l : list A) :
  (forall x, x ∈ l -> f x = true -> g x = true) -> length (List.filter f l) <= length (List.filter g l).
Proof.
  induction l as [|x l IH]; intros Hfg; simpl; [done|].
  assert (length (List.filter f l) <= length (List.filter g l)) by (apply IH; set_solver).
  destruct (f x) eqn:Hf; [rewrite (Hfg x) by set_solver; simpl; lia|].
  destruct (g x); simpl; lia.
Qed.

(** How often an element is listed. *)
Definition times {A} `{EqDecision A} (x : A) (l : list A) : nat :=
  length (List.filter (fun y => bool_decide (y = x)) l).

Section times.
Context {A : Type} `{EqDecision A}.
Implicit Types l : list A.

Lemma times_cons x y l : times x (y :: l) = (if decide (y = x) then 1 else 0) + times x l.
Proof. unfold times. simpl. case_bool_decide; case_decide; done. Qed.

Lemma times_app x l k : times x (l ++ k) = times x l + times x k.
Proof. unfold times. by rewrite List.filter_app, length_app. Qed.

Lemma times_perm x l k : l ≡ₚ k -> times x l = times x k.
Proof. intros Hp. unfold times. by rewrite (filter_perm _ _ _ Hp). Qed.

Lemma times_pos x l : 0 < times x l <-> x ∈ l.
Proof.
  induction l as [|y l IH]; [split; [by cbn; lia|by intros ?%elem_of_nil]|].
  rewrite times_cons, elem_of_cons. case_decide; [subst; split; [by left|lia]|].
  rewrite IH. naive_solver.
Qed.

Lemma times_zero x l : times x l = 0 <-> x ∉ l.
Proof. rewrite <-times_pos. lia. Qed.

(** The elements other than one of them. *)
Definition without (x : A) l : list A := List.filter (fun y => negb (bool_decide (y = x))) l.

Lemma times_without x y l : times y (without x l) = if decide (y = x) then 0 else times y l.
Proof.
  induction l as [|z l IH]; [by case_decide|]. unfold without in *. simpl.
  case_bool_decide; simpl; rewrite ?times_cons, IH; repeat case_decide; subst; by try lia.
Qed.

Lemma elem_of_without x y l : y ∈ without x l <-> y ∈ l /\ y <> x.
Proof. rewrite <-!times_pos, times_without. case_decide; naive_solver lia. Qed.

Lemma without_id x l : x ∉ l -> without x l = l.
Proof. intros Hx. apply filter_all. intros y Hy. by case_bool_decide; subst. Qed.
End times.

Lemma perm_times {A} `{EqDecision A} (l k : list A) : (forall x, times x l = times x k) -> l ≡ₚ k.
Proof.
  revert k. induction l as [|y l IH]; intros k Hk.
  - destruct k as [|z k]; [done|]. specialize (Hk z). rewrite times_cons in Hk. by case_decide.
  - assert (y ∈ k) as Hy by (apply times_pos; rewrite <-Hk, times_cons; case_decide; [lia|done]).
    apply elem_of_Permutation in Hy as [k' Hk']. rewrite Hk'. f_equiv. apply IH. intros x.
    specialize (Hk x). rewrite (times_perm _ _ _ Hk'), !times_cons in Hk. case_decide; lia.
Qed.

Section remove_item.
Context {Hash : Type} `{EqDecision Hash}.

Lemma remove_item_absent (v : list Hash) h : h ∉ v -> remove_item v h = v.
Proof.
  intros Hh. unfold remove_item. destruct (list_find _ v) as [[i x]|] eqn:Hf; [|done].
  apply list_find_Some in Hf as (Hx & -> & _). by apply list_elem_of_lookup_2 in Hx.
Qed.

(** [remove_item] removes one occurrence, in another order. *)
Lemma remove_item_perm (v : list Hash) h : h ∈ v -> v ≡ₚ h :: remove_item v h.
Proof.
  intros Hh. unfold remove_item. destruct (list_find _ v) as [[i x]|] eqn:Hf.
  2: { by apply list_find_None, Forall_forall with (x := h) in Hf. }
  apply list_find_Some in Hf as (Hx & -> & _).
  destruct (pop_cases v) as [[-> _]|(f & y & -> & ->)]; [done|]. simpl.
  case_decide as Hi.
  - subst i. rewrite lookup_app_r, Nat.sub_diag in Hx by lia. simplify_eq/=.
    by rewrite Permutation_app_comm.
  - rewrite lookup_app_l in Hx.
    2: { apply lookup_lt_Some in Hx. rewrite length_app in Hx. simpl in Hx. lia. }
    rewrite Permutation_app_comm. simpl. apply list_elem_of_split_length in Hx as (a & b & -> & ->).
    rewrite insert_app_r_alt by lia. rewrite Nat.sub_diag. simpl.
    by rewrite <-!Permutation_middle, Permutation_swap.
Qed.

Lemma times_remove_item (v : list Hash) h x :
  times x (remove_item v h) = times x v - (if decide (x = h) then 1 else 0).
Proof.
  destruct (decide (h ∈ v)) as [Hh|Hh].
  - rewrite (times_perm x _ _ (remove_item_perm v h Hh)), times_cons. repeat case_decide; subst; by try lia.
  - rewrite remove_item_absent by done. case_decide as Hx; [|lia]. subst.
    apply times_zero in Hh. lia.
Qed.

Lemma times_remove_items (v : list Hash) h x n :
  times x (Nat.iter n (fun u => remove_item u h) v) = times x v - (if decide (x = h) then n else 0).
Proof.
  induction n as [|n IH]; simpl; [by case_decide; lia|]. rewrite times_remove_item, IH. case_decide; lia.
Qed.

Lemma remove_items_perm (v : list Hash) h n :
  times h v <= n -> Nat.iter n (fun u => remove_item u h) v ≡ₚ without h v.
Proof.
  intros Hn. apply perm_times. intros x. rewrite times_remove_items, times_without.
  case_decide; subst; lia.
Qed.
End remove_item.

(** ** Ordered sets of references *)

Section refs.
Context {Hash Ex : Type}.
Implicit Types (a b c : TransactionRef Hash Ex) (l : list (TransactionRef Hash Ex)).

Definition ref_lt a b : Prop := cmp_ref a b = Lt.

Lemma cmp_ref_id a b : cmp_ref a b = Eq -> ref_insertion_id a = ref_insertion_id b.
Proof.
  unfold cmp_ref. intros Hc. repeat case_match; simplify_eq.
  symmetry. by apply N.compare_eq_iff.
Qed.

Lemma cmp_ref_refl a : cmp_ref a a = Eq.
Proof. unfold cmp_ref. by rewrite !N.compare_refl. Qed.

Lemma cmp_ref_antisym a b : cmp_ref b a = CompOpp (cmp_ref a b).
Proof.
  unfold cmp_ref. rewrite (N.compare_antisym (priority (ref_transaction a))).
  rewrite (N.compare_antisym (valid_till (ref_transaction b))).
  rewrite (N.compare_antisym (ref_insertion_id b)).
  by repeat case_match; simplify_eq/=.
Qed.

Lemma ref_lt_spec a b : ref_lt a b <->
  (priority (ref_transaction a) < priority (ref_transaction b))%N \/
  priority (ref_transaction a) = priority (ref_transaction b) /\
    ((valid_till (ref_transaction b) < valid_till (ref_transaction a))%N \/
     valid_till (ref_transaction b) = valid_till (ref_transaction a) /\
       (ref_insertion_id b < ref_insertion_id a)%N).
Proof.
  unfold ref_lt, cmp_ref.
  destruct (N.compare_spec (priority (ref_transaction a)) (priority (ref_transaction b)));
    destruct (N.compare_spec (valid_till (ref_transaction b)) (valid_till (ref_transaction a)));
    rewrite ?N.compare_lt_iff; naive_solver lia.
Qed.

#[export] Instance ref_lt_trans : Transitive ref_lt.
Proof. intros a b c. rewrite !ref_lt_spec. lia. Qed.

Lemma ref_lt_irrefl a : ~ ref_lt a a.
Proof. unfold ref_lt. by rewrite cmp_ref_refl. Qed.

(** Insertion ids tell the references of a list, and [a], apart. *)
Definition told_apart a l : Prop := forall b, b ∈ l -> ref_insertion_id b = ref_insertion_id a -> b = a.

Lemma btree_insert_elem a l b : told_apart a l -> b ∈ btree_insert cmp_ref a l <-> b = a \/ b ∈ l.
Proof.
  induction l as [|c l IH]; intros Hapart; simpl; [rewrite list_elem_of_singleton; set_solver|].
  assert (told_apart a l) as Hl by (intros d Hd; apply Hapart; by right).
  destruct (cmp_ref a c) eqn:Hc.
  - apply cmp_ref_id in Hc. assert (c = a) as -> by (apply Hapart; [by left|done]). set_solver.
  - by rewrite elem_of_cons.
  - rewrite !elem_of_cons, IH by done. tauto.
Qed.

Lemma sorted_cons_lt a l : StronglySorted ref_lt (a :: l) -> forall b, b ∈ l -> ref_lt a b.
Proof. intros Hs b Hb. apply StronglySorted_inv in Hs as [_ Hall]. rewrite Forall_forall in Hall. auto. Qed.

Lemma sorted_cons a l : StronglySorted ref_lt (a :: l) <->
  StronglySorted ref_lt l /\ forall b, b ∈ l -> ref_lt a b.
Proof.
  split; [|intros [? ?]; constructor; [done|by apply Forall_forall]].
  intros Hs. split; [by apply StronglySorted_inv in Hs as [? _]|by apply sorted_cons_lt].
Qed.

Lemma btree_insert_sorted a l :
  told_apart a l -> StronglySorted ref_lt l -> StronglySorted ref_lt (btree_insert cmp_ref a l).
Proof.
  induction l as [|c l IH]; intros Hapart Hs; simpl; [apply sorted_cons; split; [constructor|by intros ? ?%elem_of_nil]|].
  assert (told_apart a l) as Hl by (intros d Hd; apply Hapart; by right).
  destruct (cmp_ref a c) eqn:Hc; [done| |].
  - apply sorted_cons. split; [done|]. intros b [->|Hb]%elem_of_cons; [done|].
    etrans; [exact Hc|]. by apply (sorted_cons_lt c l).
  - apply sorted_cons in Hs as [Hs Hlt]. apply sorted_cons. split; [by apply IH|].
    intros b Hb. rewrite btree_insert_elem in Hb by done. destruct Hb as [->|Hb]; [|auto]. unfold ref_lt. rewrite cmp_ref_antisym, Hc. done.
Qed.

Lemma btree_remove_elem a l b :
  told_apart a l -> StronglySorted ref_lt l -> b ∈ btree_remove cmp_ref a l <-> b ∈ l /\ b <> a.
Proof.
  induction l as [|c l IH]; intros Hapart Hs; simpl; [set_solver|].
  assert (told_apart a l) as Hl by (intros d Hd; apply Hapart; by right).
  apply sorted_cons in Hs as [Hs Hlt].
  destruct (cmp_ref a c) eqn:Hc.
  - apply cmp_ref_id in Hc. assert (c = a) as -> by (apply Hapart; [by left|done]).
    rewrite elem_of_cons. split; [|naive_solver]. intros Hb. split; [by right|]. intros ->.
    by apply (ref_lt_irrefl a), Hlt.
  - split; [|naive_solver]. intros Hb. split; [done|]. intros ->. apply (ref_lt_irrefl a).
    apply elem_of_cons in Hb as [->|Hb]; [done|]. etrans; [exact Hc|auto].
  - rewrite !elem_of_cons, IH by done. split; [|naive_solver]. intros [->|[? ?]]; [|naive_solver].
    split; [by left|]. intros ->. by rewrite cmp_ref_refl in Hc.
Qed.

Lemma btree_remove_sublist a l : btree_remove cmp_ref a l `sublist_of` l.
Proof. induction l as [|c l IH]; simpl; [done|]. case_match; [by constructor|done|by constructor]. Qed.

Lemma btree_remove_sorted a l :
  StronglySorted ref_lt l -> StronglySorted ref_lt (btree_remove cmp_ref a l).
Proof.
  induction l as [|c l IH]; intros Hs; simpl; [done|].
  apply sorted_cons in Hs as [Hs Hlt]. destruct (cmp_ref a c); [done|by apply sorted_cons|].
  apply sorted_cons. split; [auto|]. intros b Hb. apply Hlt.
  by eapply elem_of_sublist, btree_remove_sublist.
Qed.

(** The greatest element is taken out. *)
Lemma btree_take_last l a : StronglySorted ref_lt (l ++ [a]) ->
  btree_take cmp_ref a (l ++ [a]) = Some a /\ btree_remove cmp_ref a (l ++ [a]) = l.
Proof.
  induction l as [|c l IH]; intros Hs; simpl; [by rewrite cmp_ref_refl|].
  change (c :: l ++ [a]) with (c :: (l ++ [a])) in Hs. apply sorted_cons in Hs as [Hs Hlt].
  assert (ref_lt c a) as Hc by (apply Hlt; set_solver).
  rewrite cmp_ref_antisym. unfold ref_lt in Hc. rewrite Hc. simpl.
  destruct (IH Hs) as [-> ->]. done.
Qed.
End refs.

(** ** Sums over the entries *)

Section totals.
Context {Hash Ex : Type} `{Countable Hash}.
Notation entry := (ReadyTx Hash Ex).
Implicit Types (m : gmap Hash entry) (f g : entry -> nat).

Lemma total_empty f : total f ∅ = 0.
Proof. apply map_fold_empty. Qed.

Lemma total_insert f m h r : m !! h = None -> total f (<[h := r]> m) = f r + total f m.
Proof. intros Hh. unfold total. rewrite map_fold_insert_L; [done|intros; lia|done]. Qed.

Lemma total_delete f m h r : m !! h = Some r -> total f m = f r + total f (delete h m).
Proof. intros Hh. unfold total. rewrite (map_fold_delete_L _ _ h r m); [done|intros; lia|done]. Qed.

Lemma total_fmap f m : total f m = map_fold (fun _ n k => n + k) 0 (f <$> m).
Proof. unfold total. by rewrite map_fold_fmap. Qed.

(** The sum depends only on the summands. *)
Lemma total_ext f g m m' : (forall h, f <$> m !! h = g <$> m' !! h) -> total f m = total g m'.
Proof. intros Heq. rewrite !total_fmap. f_equal. apply map_eq. intros h. by rewrite !lookup_fmap. Qed.

Lemma total_le f g m m' :
  (forall h r', m' !! h = Some r' -> exists r, m !! h = Some r /\ f r' <= g r) -> total f m' <= total g m.
Proof.
  revert m. induction m' as [|h r' m' Hh IH] using map_ind; intros m Hle; [rewrite total_empty; lia|].
  destruct (Hle h r') as (r & Hr & Hfr); [by rewrite lookup_insert_eq|].
  rewrite total_insert, (total_delete g m h r Hr) by done. apply Nat.add_le_mono; [done|].
  apply IH. intros h1 r1 Hr1. assert (h1 <> h) as Hne by congruence. rewrite lookup_delete_ne by done.
  apply Hle. by rewrite lookup_insert_ne.
Qed.

Lemma total_lookup f m h r : m !! h = Some r -> f r <= total f m.
Proof. intros Hh. rewrite (total_delete f m h r Hh). lia. Qed.

Lemma total_alter f (c : entry -> entry) m h r :
  m !! h = Some r -> total f (alter c h m) + f r = total f m + f (c r).
Proof.
  intros Hr. rewrite (total_delete f m h r Hr), (total_delete f (alter c h m) h (c r)).
  2: { by rewrite lookup_alter_eq, Hr. }
  replace (delete h (alter c h m)) with (delete h m); [lia|].
  apply map_eq. intros h'. destruct (decide (h' = h)) as [->|Hne]; [by rewrite !lookup_delete_eq|].
  rewrite !lookup_delete_ne, lookup_alter_ne; done.
Qed.

Lemma total_zero f m : total f m = 0 <-> forall h r, m !! h = Some r -> f r = 0.
Proof.
  split; [intros Ht h r Hr; apply (total_lookup f) in Hr; lia|].
  induction m as [|h r m Hh IH] using map_ind; intros Hz; [apply total_empty|].
  rewrite total_insert by done. rewrite (Hz h r) by (by rewrite lookup_insert_eq). rewrite IH; [done|].
  intros h' r' Hr. apply (Hz h'). rewrite lookup_insert_ne by congruence. done.
Qed.
End totals.

(** ** The invariant *)

(** A scheme of tags in which a slot is the set of tags that a transaction provides, as the pool uses
    them to tell that two transactions occupy the same slot: slots that share a tag are
    equal. Tags are ranked, and a transaction requires tags below those it provides, as
    the nonces of an account do. *)
Class Slots {Hash Ex : Type} (U : Transaction Hash Ex -> Prop) : Type := {
  rank : Tag -> nat;
  slots_nodup : forall tx, U tx -> NoDup (provides tx);
  slots_same : forall tx tx' t, U tx -> U tx' -> t ∈ provides tx -> t ∈ provides tx' ->
    forall t', t' ∈ provides tx -> t' ∈ provides tx';
  slots_rank : forall tx r p, U tx -> r ∈ requires tx -> p ∈ provides tx -> rank r < rank p
}.

Section invariant.
Context {Hash Ex : Type} `{Countable Hash}.
Context (U : Transaction Hash Ex -> Prop).
Notation entry := (ReadyTx Hash Ex).
Implicit Types (m : gmap Hash entry) (r : entry) (W : Hash -> Prop).

(** The links to a transaction, and those it can have from an entry. *)
Definition links (h : Hash) m : nat := total (fun r => times h (unlocks r)) m.
Definition needs r r' : nat :=
  length (List.filter (fun t => bool_decide (t ∈ provides (tx_of r))) (requires (tx_of r'))).

(** The graph, where the transactions of [W] may have lost links. *)
Record graph_ok W m : Prop := {
  go_key : forall h r, m !! h = Some r -> hash (tx_of r) = h;
  go_known : forall h r, m !! h = Some r -> U (tx_of r);
  go_inj : forall h h' r r', m !! h = Some r -> m !! h' = Some r' ->
    ref_insertion_id (tx_ref r) = ref_insertion_id (tx_ref r') -> h = h';
  go_links : forall h r, m !! h = Some r -> ~ W h ->
    requires_offset r + links h m = length (requires (tx_of r));
  go_edges : forall h r h', m !! h = Some r -> h' ∈ unlocks r ->
    exists r', m !! h' = Some r' /\ times h' (unlocks r) <= needs r r'
}.

(** The map of tags is that of the entries. *)
Definition tags_ok (pt : gmap Tag Hash) m : Prop :=
  forall t h, pt !! t = Some h <-> exists r, m !! h = Some r /\ t ∈ provides (tx_of r).

(** The best transactions are those with no link. *)
Definition best_ok (b : list (TransactionRef Hash Ex)) m : Prop :=
  StronglySorted ref_lt b /\
  forall x, x ∈ b <->
    exists h r, m !! h = Some r /\ tx_ref r = x /\ requires_offset r = length (requires (tx_of r)).

(** The counters of the map are exact up to wrapping. *)
Definition bytes_of m : Z := map_fold (fun _ r n => (Z.of_N (size_of r) + n)%Z) 0%Z m.
Definition counted (tm : TrackedMap Hash entry) : Prop :=
  length_ tm = wrap_isize (Z.of_nat (size (index tm))) /\ bytes tm = wrap_isize (bytes_of (index tm)).

Record queue_ok W (s : ReadyTransactions Hash Ex) : Prop := {
  ro_graph : graph_ok W (index (ready s));
  ro_tags : tags_ok (provided_tags s) (index (ready s));
  ro_best : best_ok (best s) (index (ready s));
  ro_ids : forall h r, index (ready s) !! h = Some r ->
    (ref_insertion_id (tx_ref r) <= insertion_id s)%N;
  ro_counted : counted (ready s)
}.

(** The ready queue between two operations. *)
Definition ready_ok : ReadyTransactions Hash Ex -> Prop := queue_ok (fun _ => False).

(** The transactions that an operation took out of the queue. *)
Definition taken_out m m' (removed : list (Transaction Hash Ex)) : Prop :=
  NoDup (map hash removed) /\
  forall tx, tx ∈ removed <-> exists h r, m !! h = Some r /\ m' !! h = None /\ tx_of r = tx.

(** ** Counters *)

Lemma wrap_isize_add a b : wrap_isize (wrap_isize a + wrap_isize b) = wrap_isize (a + b).
Proof.
  unfold wrap_isize. f_equal.
  replace (_ + _ + 2 ^ 63)%Z with
    ((a + 2 ^ 63) mod 2 ^ 64 + (b + 2 ^ 63) mod 2 ^ 64 - 2 ^ 63)%Z by lia.
  rewrite <-Zminus_mod_idemp_l, <-Zplus_mod, Zminus_mod_idemp_l. f_equal. lia.
Qed.

Lemma wrap_isize_sub a b : wrap_isize (wrap_isize a - wrap_isize b) = wrap_isize (a - b).
Proof.
  unfold wrap_isize. f_equal.
  replace (_ - _ + 2 ^ 63)%Z with
    ((a + 2 ^ 63) mod 2 ^ 64 - (b + 2 ^ 63) mod 2 ^ 64 + 2 ^ 63)%Z by lia.
  rewrite <-Zplus_mod_idemp_l, <-Zminus_mod, Zplus_mod_idemp_l. f_equal. lia.
Qed.

Lemma wrap_isize_small z : (- 2 ^ 63 <= z < 2 ^ 63)%Z -> wrap_isize z = z.
Proof. intros Hz. unfold wrap_isize. rewrite Z.mod_small by lia. lia. Qed.

Lemma bytes_of_insert m h r : m !! h = None ->
  bytes_of (<[h := r]> m) = (Z.of_N (size_of r) + bytes_of m)%Z.
Proof. intros Hh. unfold bytes_of. rewrite map_fold_insert_L; [done|intros; lia|done]. Qed.

Lemma bytes_of_delete m h r : m !! h = Some r ->
  bytes_of m = (Z.of_N (size_of r) + bytes_of (delete h m))%Z.
Proof. intros Hh. unfold bytes_of. rewrite (map_fold_delete_L _ _ h r m); [done|intros; lia|done]. Qed.

Lemma bytes_of_ext m m' : (forall h, size_of <$> m !! h = size_of <$> m' !! h) -> bytes_of m = bytes_of m'.
Proof.
  intros Heq.
  assert (forall k : gmap Hash entry,
    bytes_of k = map_fold (fun _ b n => (Z.of_N b + n)%Z) 0%Z (size_of <$> k)) as Hk.
  { intros k. unfold bytes_of. by rewrite map_fold_fmap. }
  rewrite !Hk. f_equal. apply map_eq. intros h. rewrite !lookup_fmap. apply Heq.
Qed.

Lemma size_of_ext m m' : (forall h, is_Some (m !! h) <-> is_Some (m' !! h)) -> size m = size m'.
Proof. intros Heq. rewrite <-!size_dom. f_equal. apply set_eq. intros h. by rewrite !elem_of_dom. Qed.

Lemma tm_insert_counted tm h r : index tm !! h = None -> counted tm -> counted (tm_insert h r tm).1.
Proof.
  intros Hh [Hl Hb]. unfold tm_insert, counted. rewrite Hh. simpl. rewrite Hl, Hb. split.
  - rewrite map_size_insert_None by done. change 1%Z with (wrap_isize 1). rewrite wrap_isize_add. f_equal. lia.
  - rewrite wrap_isize_add, bytes_of_insert by done. f_equal. lia.
Qed.

Lemma tm_remove_counted tm h r : index tm !! h = Some r -> counted tm -> counted (tm_remove h tm).1.
Proof.
  intros Hh [Hl Hb]. unfold tm_remove, counted. rewrite Hh. simpl. rewrite Hl, Hb. split.
  - rewrite map_size_delete_Some by by eexists. change 1%Z with (wrap_isize 1). rewrite wrap_isize_sub. f_equal.
    assert (size (index tm) <> 0) by (intros Hz; apply map_size_empty_inv in Hz; by rewrite Hz in Hh). lia.
  - rewrite wrap_isize_sub. f_equal. rewrite (bytes_of_delete _ _ _ Hh). lia.
Qed.

Lemma tm_alter_counted tm h f : (forall r, size_of (f r) = size_of r) -> counted tm -> counted (tm_alter f h tm).
Proof.
  intros Hf [Hl Hb]. unfold counted, tm_alter. simpl. rewrite Hl, Hb. split; f_equal; [f_equal|].
  - apply size_of_ext. intros h'. rewrite lookup_alter. case_decide; [|done]. subst. by rewrite fmap_is_Some.
  - apply bytes_of_ext. intros h'. rewrite lookup_alter. case_decide; [|done]. subst.
    destruct (_ !! _); simpl; by rewrite ?Hf.
Qed.
End invariant.
