(* ===== verification/PoolRemove.v ===== *)
(** * The transaction pool: removal from the ready queue

    Detaching a transaction from those that unlock it, and the removal of a transaction with
    everything that depends on it. *)

From S2P Require Import Prelude PoolTypes PoolFuture PoolReady PoolGraph.

(** ** Detaching a transaction *)

Section detach.
Context {Hash Ex : Type} `{Countable Hash}.
Notation entry := (ReadyTx Hash Ex).
Implicit Types (m : gmap Hash entry) (r : entry) (s : ReadyTransactions Hash Ex).

(** An entry that no longer unlocks [h]. *)
Definition trimmed (h : Hash) r r' : Prop :=
  tx_ref r' = tx_ref r /\ requires_offset r' = requires_offset r /\ unlocks r' ≡ₚ without h (unlocks r).

Record detached (h : Hash) m m' : Prop := {
  dt_gone : m' !! h = None;
  dt_kept : forall h' r, m !! h' = Some r -> h' <> h -> exists r', m' !! h' = Some r' /\ trimmed h r r';
  dt_from : forall h' r', m' !! h' = Some r' -> h' <> h /\ exists r, m !! h' = Some r /\ trimmed h r r'
}.

Definition trim (h : Hash) (n : nat) : entry -> entry :=
  map_unlocks (fun u => Nat.iter n (fun u => remove_item u h) u).

Definition provided_by (pt : gmap Tag Hash) (h : Hash) (tags : list Tag) : nat :=
  length (List.filter (fun t => bool_decide (pt !! t = Some h)) tags).

Lemma trim_trim h n r : trim h n (map_unlocks (fun u => remove_item u h) r) = trim h (S n) r.
Proof. unfold trim, map_unlocks. cbn [tx_ref unlocks requires_offset]. by rewrite Nat.iter_succ_r. Qed.

Lemma unlink_spec h tags s : let s' := unlink h tags s in
  insertion_id s' = insertion_id s /\ provided_tags s' = provided_tags s /\ best s' = best s /\
  (counted (ready s) -> counted (ready s')) /\
  forall h', index (ready s') !! h' = trim h (provided_by (provided_tags s) h' tags) <$> index (ready s) !! h'.
Proof.
  revert s. induction tags as [|t tags IH]; intros s; simpl.
  - split_and!; [done..|]. intros h'. destruct (_ !! h') as [[? ? ?]|]; done.
  - unfold provided_by in *. destruct (provided_tags s !! t) as [h1|] eqn:Ht.
    2: { destruct (IH s) as (-> & -> & -> & ? & Hl). split_and!; [done..|]. intros h'. simpl.
         rewrite bool_decide_eq_false_2 by congruence. apply Hl. }
    destruct (IH (set_ready (tm_alter (map_unlocks (fun u => remove_item u h)) h1 (ready s)) s))
      as (-> & -> & -> & Hc & Hl). simpl in *. split_and!; [done..| |].
    + intros Hs. by apply Hc, tm_alter_counted.
    + intros h'. rewrite Hl, lookup_alter. simpl. case_bool_decide as Hh; simplify_eq.
      * rewrite decide_True by done. rewrite <-option_fmap_compose. destruct (index (ready s) !! _) as [r|]; [|done].
        simpl. by rewrite trim_trim.
      * rewrite decide_False by congruence. done.
Qed.

(** Removing an entry and unlinking it detaches it, if the map of tags knows the tags of the
    others. *)
Lemma unlink_detached U W m h r s s' :
  graph_ok U W m -> m !! h = Some r -> index (ready s) = delete h m ->
  (forall h' r' t, m !! h' = Some r' -> h' <> h -> t ∈ provides (tx_of r') -> provided_tags s !! t = Some h') ->
  s' = unlink h (requires (tx_of r)) s ->
  detached h m (index (ready s')).
Proof.
  intros Hg Hr Hs Hpt ->. destruct (unlink_spec h (requires (tx_of r)) s) as (_ & _ & _ & _ & Hl).
  rewrite Hs in Hl.
  assert (forall h' r', m !! h' = Some r' -> h' <> h ->
    trimmed h r' (trim h (provided_by (provided_tags s) h' (requires (tx_of r))) r')) as Htrim.
  { intros h' r' Hr' Hne. split; [done|]. split; [done|]. simpl. apply remove_items_perm.
    destruct (decide (h ∈ unlocks r')) as [Hin|Hin]; [|apply times_zero in Hin; lia].
    destruct (go_edges _ _ _ Hg h' r' h Hr' Hin) as (r1 & Hr1 & Hle). simplify_eq.
    etrans; [exact Hle|]. apply filter_length_le. intros t _ Ht%bool_decide_eq_true.
    apply bool_decide_eq_true. eauto. }
  split.
  - by rewrite Hl, lookup_delete_eq.
  - intros h' r' Hr' Hne. rewrite Hl, lookup_delete_ne, Hr' by done. eexists. split; [done|]. by apply Htrim.
  - intros h' r'. rewrite Hl. destruct (decide (h' = h)) as [->|Hne]; [by rewrite lookup_delete_eq|].
    rewrite lookup_delete_ne by done. destruct (m !! h') as [r1|] eqn:Hr1; [|done].
    intros Heq. simplify_eq/=. split; [done|]. exists r1. split; [done|]. by apply Htrim.
Qed.

Lemma detached_links U W h m m' r h' :
  graph_ok U W m -> m !! h = Some r -> detached h m m' -> h' <> h ->
  links h' m = times h' (unlocks r) + links h' m'.
Proof.
  intros Hg Hr Hd Hne. unfold links. rewrite (total_delete _ m h r Hr). f_equal.
  apply total_ext. intros h1. destruct (decide (h1 = h)) as [->|Hh1].
  { by rewrite lookup_delete_eq, (dt_gone _ _ _ Hd). }
  rewrite lookup_delete_ne by done. destruct (m !! h1) as [r1|] eqn:Hr1.
  - destruct (dt_kept _ _ _ Hd h1 r1 Hr1 Hh1) as (r2 & -> & _ & _ & Hu). simpl. f_equal.
    rewrite (times_perm _ _ _ Hu), times_without. by rewrite decide_False.
  - destruct (m' !! h1) as [r2|] eqn:Hr2; [|done].
    apply (dt_from _ _ _ Hd) in Hr2 as (_ & r1 & ? & _). congruence.
Qed.

(** What is left of the graph, if the links that a transaction has lost are accounted for. *)
Lemma detached_graph U W W' h m m' r :
  graph_ok U W m -> m !! h = Some r -> detached h m m' ->
  (forall h', ~ W' h' -> h' <> h -> ~ W h' /\ h' ∉ unlocks r) ->
  graph_ok U W' m'.
Proof.
  intros Hg Hr Hd HW. split.
  - intros h1 r1 (_ & r0 & Hr0 & Hx & _)%(dt_from _ _ _ Hd). rewrite Hx. by apply (go_key _ _ _ Hg).
  - intros h1 r1 (_ & r0 & Hr0 & Hx & _)%(dt_from _ _ _ Hd). rewrite Hx. by apply (go_known _ _ _ Hg h1).
  - intros h1 h2 r1 r2 (_ & r0 & Hr0 & Hx & _)%(dt_from _ _ _ Hd) (_ & r3 & Hr3 & Hx3 & _)%(dt_from _ _ _ Hd).
    rewrite Hx, Hx3. by apply (go_inj _ _ _ Hg).
  - intros h1 r1 (Hne & r0 & Hr0 & Hx & Ho & _)%(dt_from _ _ _ Hd) Hw. destruct (HW h1 Hw Hne) as [Hw0 Hu].
    rewrite Hx, Ho, <-(go_links _ _ _ Hg h1 r0 Hr0 Hw0), (detached_links U W h m m' r h1) by done.
    apply times_zero in Hu. lia.
  - intros h1 r1 h2 (Hne & r0 & Hr0 & Hx & Ho & Hu)%(dt_from _ _ _ Hd) Hin.
    assert (h2 ∈ without h (unlocks r0)) as Hin0 by by rewrite <-Hu.
    apply elem_of_without in Hin0 as [Hin0 Hne2].
    destruct (go_edges _ _ _ Hg h1 r0 h2 Hr0 Hin0) as (r2 & Hr2 & Hle).
    destruct (dt_kept _ _ _ Hd h2 r2 Hr2 Hne2) as (r2' & Hr2' & Hx2 & _). exists r2'. split; [done|].
    unfold needs in *. rewrite Hx, Hx2, (times_perm _ _ _ Hu), times_without. by rewrite decide_False.
Qed.

Lemma detached_size h m m' : detached h m m' -> forall h', is_Some (m' !! h') <-> h' <> h /\ is_Some (m !! h').
Proof.
  intros Hd h'. split.
  - intros [r (Hne & r0 & -> & _)%(dt_from _ _ _ Hd)]. split; [done|by eexists].
  - intros [Hne [r (r' & -> & _)%(dt_kept _ _ _ Hd)]]; [by eexists|done].
Qed.

Lemma detached_none h m m' : detached h m m' -> forall h', m' !! h' = None <-> h' = h \/ m !! h' = None.
Proof.
  intros Hd h'. rewrite !eq_None_not_Some, (detached_size _ _ _ Hd). destruct (decide (h' = h)); naive_solver.
Qed.

(** A transaction never unlocks itself. *)
Lemma no_self_link U `{!Slots U} W m h r : graph_ok U W m -> m !! h = Some r -> h ∉ unlocks r.
Proof.
  intros Hg Hr Hin. destruct (go_edges _ _ _ Hg h r h Hr Hin) as (r' & Hr' & Hle). simplify_eq.
  apply times_pos in Hin. assert (0 < needs r r) as Hn by lia. unfold needs in Hn.
  destruct (List.filter _ _) as [|t l] eqn:Hf; [simpl in Hn; lia|].
  assert (t ∈ List.filter (fun t => bool_decide (t ∈ provides (tx_of r))) (requires (tx_of r))) as Ht
    by (rewrite Hf; by left).
  apply elem_of_filter_true in Ht as [Htr Htp]. apply bool_decide_eq_true in Htp.
  pose proof (slots_rank _ t t (go_known _ _ _ Hg h r Hr) Htr Htp). lia.
Qed.

Lemma told_apart_best U W m b h r : graph_ok U W m -> best_ok b m -> m !! h = Some r -> told_apart (tx_ref r) b.
Proof.
  intros Hg [_ Hb] Hr x (h' & r' & Hr' & <- & _)%Hb Hid.
  assert (h' = h) as -> by by apply (go_inj _ _ _ Hg h' h r' r). congruence.
Qed.

Lemma detached_best U W m m' b h r :
  graph_ok U W m -> m !! h = Some r -> detached h m m' -> best_ok b m ->
  best_ok (btree_remove cmp_ref (tx_ref r) b) m'.
Proof.
  intros Hg Hr Hd Hb. pose proof (told_apart_best _ _ _ _ _ _ Hg Hb Hr) as Hapart. destruct Hb as [Hs Hb].
  split; [by apply btree_remove_sorted|]. intros x. rewrite btree_remove_elem, Hb by done. split.
  - intros [(h1 & r1 & Hr1 & <- & Ho) Hne]. destruct (decide (h1 = h)) as [->|Hh]; [naive_solver|].
    destruct (dt_kept _ _ _ Hd h1 r1 Hr1 Hh) as (r2 & Hr2 & Hx & Ho2 & _). exists h1, r2. by rewrite Hx, Ho2.
  - intros (h1 & r1 & (Hne & r0 & Hr0 & Hx & Ho & _)%(dt_from _ _ _ Hd) & <- & Hoff). split.
    + exists h1, r0. by rewrite Hx, Ho in *.
    + intros Heq. apply Hne. apply (go_inj _ _ _ Hg h1 h r0 r Hr0 Hr). by rewrite <-Heq, Hx.
Qed.
End detach.

(** ** Removing a subtree *)

Lemma delete_tags_lookup {A} (tags : list Tag) (pt : gmap Tag A) t :
  foldl (fun p t => delete t p) pt tags !! t = if decide (t ∈ tags) then None else pt !! t.
Proof.
  revert pt. induction tags as [|t' tags IH]; intros pt; simpl; [done|]. rewrite IH.
  destruct (decide (t ∈ tags)); [by rewrite decide_True by by right|].
  destruct (decide (t = t')) as [->|Hne].
  - by rewrite lookup_delete_eq, decide_True by by left.
  - rewrite lookup_delete_ne, decide_False by (by rewrite ?elem_of_cons; naive_solver). done.
Qed.

Section remove.
Context {Hash Ex : Type} `{Countable Hash}.
Context (U : Transaction Hash Ex -> Prop) `{!Slots U}.
Notation entry := (ReadyTx Hash Ex).
Notation tx_t := (Transaction Hash Ex).
Implicit Types (m : gmap Hash entry) (r : entry) (s : ReadyTransactions Hash Ex).

(** The state after one transaction has been removed, with its tags. *)
Definition removed_one (h : Hash) r s : ReadyTransactions Hash Ex :=
  let s1 := set_provided_tags (foldl (fun p t => delete t p) (provided_tags s) (provides (tx_of r)))
              (set_ready (tm_remove h (ready s)).1 s) in
  let s2 := unlink h (requires (tx_of r)) s1 in
  set_best (btree_remove cmp_ref (tx_ref r) (best s2)) s2.

Lemma tm_remove_index (tm : TrackedMap Hash entry) h : index (tm_remove h tm).1 = delete h (index tm).
Proof. unfold tm_remove. destruct (index tm !! h) eqn:Hh; [done|]. by rewrite delete_id. Qed.

Lemma tm_remove_old (tm : TrackedMap Hash entry) h r : index tm !! h = Some r -> (tm_remove h tm).2 = Some r.
Proof. unfold tm_remove. by intros ->. Qed.

Lemma detached_tags h m m' r pt pt' :
  tags_ok pt m -> m !! h = Some r -> detached h m m' ->
  (forall t, pt' !! t = if decide (t ∈ provides (tx_of r)) then None else pt !! t) ->
  tags_ok pt' m'.
Proof.
  intros Ht Hr Hd Hpt t h'. rewrite Hpt. split.
  - case_decide as Hin; [done|]. intros (r1 & Hr1 & Htr)%Ht.
    assert (h' <> h) as Hne by naive_solver.
    destruct (dt_kept _ _ _ Hd h' r1 Hr1 Hne) as (r2 & Hr2 & Hx & _). exists r2. by rewrite Hx.
  - intros (r2 & (Hne & r1 & Hr1 & Hx & _)%(dt_from _ _ _ Hd) & Hin). rewrite Hx in Hin.
    assert (pt !! t = Some h') as Hth by (apply Ht; by exists r1).
    rewrite decide_False; [done|]. intros Hin'.
    assert (pt !! t = Some h) by (apply Ht; by exists r). congruence.
Qed.

Lemma removed_one_ok W W' s h r :
  queue_ok U W s -> index (ready s) !! h = Some r ->
  (forall h', ~ W' h' -> h' <> h -> ~ W h' /\ h' ∉ unlocks r) ->
  queue_ok U W' (removed_one h r s) /\
  detached h (index (ready s)) (index (ready (removed_one h r s))) /\
  insertion_id (removed_one h r s) = insertion_id s.
Proof.
  intros Hq Hr HW. destruct Hq as [Hg Ht Hb Hi Hc]. unfold removed_one.
  set (s1 := set_provided_tags _ _).
  assert (forall t, provided_tags s1 !! t =
    if decide (t ∈ provides (tx_of r)) then None else provided_tags s !! t) as Hpt
    by apply delete_tags_lookup.
  assert (detached h (index (ready s)) (index (ready (unlink h (requires (tx_of r)) s1)))) as Hd.
  { eapply (unlink_detached U W _ h r s1); [done|done|apply tm_remove_index| |done].
    intros h' r' t Hr' Hne Hin. rewrite Hpt.
    assert (provided_tags s !! t = Some h') as Hth by (apply Ht; by exists r'). rewrite decide_False; [done|].
    intros Hin'. assert (provided_tags s !! t = Some h) by (apply Ht; by exists r). congruence. }
  destruct (unlink_spec h (requires (tx_of r)) s1) as (Hid & Hptu & Hbu & Hcu & _).
  split; [|split; [done|exact Hid]]. split; simpl.
  - by eapply detached_graph.
  - rewrite Hptu. by eapply detached_tags.
  - rewrite Hbu. by eapply detached_best.
  - intros h1 r1 (_ & r0 & Hr0 & Hx & _)%(dt_from _ _ _ Hd). rewrite Hid, Hx. by eapply Hi.
  - apply Hcu. by eapply tm_remove_counted.
Qed.

(** Who unlocks whom. *)
Definition unlocks_in m (h h' : Hash) : Prop := exists r, m !! h = Some r /\ h' ∈ unlocks r.

(** The entries that are left, with the links between them. *)
Definition survives m m' : Prop := forall h r', m' !! h = Some r' ->
  exists r, m !! h = Some r /\ tx_ref r' = tx_ref r /\
    unlocks r' ≡ₚ List.filter (fun h => bool_decide (is_Some (m' !! h))) (unlocks r).

Record subtree_removed (hashes : list Hash) m m' (removed : list tx_t) : Prop := {
  sr_kept : survives m m';
  sr_gone : forall h, is_Some (m !! h) ->
    (m' !! h = None <-> exists h0, h0 ∈ hashes /\ rtc (unlocks_in m) h0 h);
  sr_removed : taken_out m m' removed
}.

Lemma survives_refl s : ready_ok U s -> survives (index (ready s)) (index (ready s)).
Proof.
  intros Hq h r Hr. exists r. split_and!; [done..|]. rewrite filter_all; [done|].
  intros h' Hh'. apply bool_decide_eq_true.
  destruct (go_edges _ _ _ (ro_graph _ _ _ Hq) h r h' Hr Hh') as (r' & Hr' & _). by eexists.
Qed.

(** One entry is taken out, and the others no longer unlock it. *)
Record dropped (h : Hash) m m' : Prop := {
  dr_gone : forall h', m' !! h' = None <-> h' = h \/ m !! h' = None;
  dr_from : forall h' r', m' !! h' = Some r' -> exists r, m !! h' = Some r /\ tx_ref r' = tx_ref r /\
    unlocks r' ≡ₚ without h (unlocks r)
}.

Lemma detached_dropped h m m' : detached h m m' -> dropped h m m'.
Proof.
  intros Hd. split; [by apply detached_none|].
  intros h' r' (_ & r & Hr & Hx & _ & Hu)%(dt_from _ _ _ Hd). by exists r.
Qed.

Lemma survives_dropped m m1 m2 h : survives m m1 -> dropped h m1 m2 -> survives m m2.
Proof.
  intros Hs [Hgone Hfrom] h' r2 (r1 & Hr1 & Hx & Hu)%Hfrom.
  destruct (Hs h' r1 Hr1) as (r & Hr & Hx1 & Hu1). exists r.
  split_and!; [done|congruence|]. rewrite Hu. unfold without.
  rewrite (filter_perm _ _ _ Hu1). rewrite filter_filter_and. erewrite filter_ext_elem; [done|]. intros h1 _.
  assert (is_Some (m2 !! h1) <-> h1 <> h /\ is_Some (m1 !! h1)) as Hsz
    by (rewrite <-!not_eq_None_Some, Hgone; naive_solver).
  repeat case_bool_decide; simpl; naive_solver.
Qed.

Lemma survives_none m m' h : survives m m' -> m !! h = None -> m' !! h = None.
Proof.
  intros Hs Hh. destruct (m' !! h) as [r|] eqn:Hr; [|done].
  apply Hs in Hr as (r0 & Hr0 & _). congruence.
Qed.

Lemma taken_out_refl m : taken_out m m [].
Proof. split; [constructor|]. intros tx. split; [by intros ?%elem_of_nil|]. intros (h & r & ? & ? & _). congruence. Qed.

(** The entries of [m1] are among those of [m]. *)
Definition among m m1 : Prop := forall h r1, m1 !! h = Some r1 -> exists r, m !! h = Some r /\ tx_ref r1 = tx_ref r.

Lemma survives_among m m1 : survives m m1 -> among m m1.
Proof. intros Hs h r1 (r & Hr & Hx & _)%Hs. by exists r. Qed.

Lemma taken_out_step m m1 m2 h r removed :
  (forall h r, m !! h = Some r -> hash (tx_of r) = h) ->
  among m m1 -> m1 !! h = Some r -> (forall h', m2 !! h' = None <-> h' = h \/ m1 !! h' = None) ->
  taken_out m m1 removed -> taken_out m m2 (removed ++ [tx_of r]).
Proof.
  intros Hkey Hs Hr Hd [Hnd Hel]. destruct (Hs h r Hr) as (r0 & Hr0 & Hx). split.
  - rewrite map_app. apply NoDup_app. split_and!; [done| |apply NoDup_singleton].
    intros h' (tx & -> & Htx)%list_elem_of_fmap Hh. apply list_elem_of_singleton in Hh.
    apply Hel in Htx as (h1 & r1 & Hr1 & Hn1 & <-). rewrite Hx, (Hkey _ _ Hr1), (Hkey _ _ Hr0) in Hh.
    congruence.
  - intros tx. rewrite elem_of_app, list_elem_of_singleton, Hel. split.
    + intros [(h1 & r1 & Hr1 & Hn1 & Htx)| ->]; [exists h1, r1; rewrite Hd; auto|].
      exists h, r0. rewrite Hx, Hd. auto.
    + intros (h1 & r1 & Hr1 & Hn2 & <-). apply Hd in Hn2 as [->|Hn]; [right; congruence|left; by exists h1, r1].
Qed.

(** What holds in the loop, with [m] the entries at its start. *)
Record removing (hashes : list Hash) m (to_remove : list Hash) (removed : list tx_t) s : Prop := {
  rm_queue : queue_ok U (fun h => h ∈ to_remove) s;
  rm_kept : survives m (index (ready s));
  rm_removed : taken_out m (index (ready s)) removed;
  rm_reach : forall h, h ∈ to_remove -> exists h0, h0 ∈ hashes /\ rtc (unlocks_in m) h0 h;
  rm_gone : forall h, is_Some (m !! h) -> index (ready s) !! h = None ->
    exists h0, h0 ∈ hashes /\ rtc (unlocks_in m) h0 h;
  rm_roots : forall h, h ∈ hashes -> h ∈ to_remove \/ index (ready s) !! h = None;
  rm_closed : forall h h', index (ready s) !! h = None -> unlocks_in m h h' ->
    h' ∈ to_remove \/ index (ready s) !! h' = None
}.

Lemma removing_done hashes m removed s :
  removing hashes m [] removed s -> subtree_removed hashes m (index (ready s)) removed.
Proof.
  intros Hr. destruct Hr as [_ Hk Ht _ Hg Hroots Hcl]. split; [done| |done].
  intros h Hh. split; [auto|]. intros (h0 & Hin & Hrt).
  assert (index (ready s) !! h0 = None) as H0 by (destruct (Hroots h0 Hin) as [?%elem_of_nil|]; done).
  clear Hin Hh. induction Hrt as [|h0 h1 h Hstep _ IH]; [done|]. apply IH.
  destruct (Hcl h0 h1 H0 Hstep) as [?%elem_of_nil|]; done.
Qed.

Lemma queue_ok_weaken W W' s :
  (forall h, is_Some (index (ready s) !! h) -> ~ W' h -> ~ W h) -> queue_ok U W s -> queue_ok U W' s.
Proof.
  intros HW [[Hk Hu Hi Hl He] ? ? ? ?]. split; [|done..]. split; [done..| |done].
  intros h r Hr Hw. apply Hl; [done|]. apply HW; [by eexists|done].
Qed.

Lemma removing_skip hashes m to_remove removed s h :
  index (ready s) !! h = None ->
  removing hashes m (to_remove ++ [h]) removed s -> removing hashes m to_remove removed s.
Proof.
  intros Hh [Hq Hk Ht Hre Hg Hro Hcl]. split; [|done|done| |done| |].
  - eapply queue_ok_weaken; [|done]. intros h' [r Hr] Hw. simpl. rewrite elem_of_app, list_elem_of_singleton.
    intros [?| ->]; [done|congruence].
  - intros h' Hh'. apply Hre, elem_of_app. by left.
  - intros h' [[?| ->%list_elem_of_singleton]%elem_of_app|?]%Hro; auto.
  - intros h1 h2 H1 H2. destruct (Hcl h1 h2 H1 H2) as [[?| ->%list_elem_of_singleton]%elem_of_app|?]; auto.
Qed.

(** A transaction without tags unlocks nothing. *)
Lemma no_tags_no_links W m h r : graph_ok U W m -> m !! h = Some r -> provides (tx_of r) = [] -> unlocks r = [].
Proof.
  intros Hg Hr Hp. destruct (unlocks r) as [|h' u] eqn:Hu; [done|].
  assert (h' ∈ unlocks r) as Hin by (rewrite Hu; by left).
  destruct (go_edges _ _ _ Hg h r h' Hr Hin) as (r' & _ & Hle). apply times_pos in Hin.
  unfold needs in Hle. rewrite filter_none in Hle; [simpl in Hle; lia|].
  intros t _. apply bool_decide_eq_false. rewrite Hp. apply not_elem_of_nil.
Qed.

Lemma removing_step hashes m to_remove removed s h r :
  (forall h r, m !! h = Some r -> hash (tx_of r) = h) ->
  index (ready s) !! h = Some r ->
  removing hashes m (to_remove ++ [h]) removed s ->
  removing hashes m (to_remove ++ unlocks r) (removed ++ [tx_of r]) (removed_one h r s) /\
  insertion_id (removed_one h r s) = insertion_id s /\
  total (fun r => length (unlocks r)) (index (ready (removed_one h r s))) + length (unlocks r) <=
  total (fun r => length (unlocks r)) (index (ready s)).
Proof.
  intros Hkey Hr [Hq Hk Ht Hre Hg Hro Hcl].
  destruct (Hk h r Hr) as (r0 & Hr0 & _ & Hu).
  assert (forall h', h' ∈ unlocks r -> unlocks_in m h h') as Hun.
  { intros h' Hin. exists r0. split; [done|]. rewrite Hu in Hin. by apply elem_of_filter_true in Hin as [? _]. }
  destruct (Hre h) as (h0 & Hh0 & Hpath); [set_solver|].
  destruct (removed_one_ok (fun h' => h' ∈ to_remove ++ [h]) (fun h' => h' ∈ to_remove ++ unlocks r) s h r)
    as (Hq' & Hd & Hid); [done|done|set_solver|].
  split_and!; [split|done|].
  - done.
  - by eapply survives_dropped, detached_dropped.
  - eapply taken_out_step; eauto using survives_among. by apply detached_none.
  - intros h' [Hh'|Hh']%elem_of_app; [apply Hre; set_solver|]. exists h0. split; [done|].
    eapply rtc_r; [done|]. by apply Hun.
  - intros h' Hh' [->|Hn]%(detached_none _ _ _ Hd); [by exists h0|auto].
  - intros h'. rewrite (detached_none _ _ _ Hd). intros [Hin|Hn]%Hro; [set_solver|auto].
  - intros h1 h2. rewrite !(detached_none _ _ _ Hd). intros [->|Hn] Hst.
    + destruct Hst as (r1 & Hr1 & Hin). simplify_eq.
      destruct (index (ready s) !! h2) eqn:H2; [left|auto]. apply elem_of_app. right. rewrite Hu.
      apply elem_of_filter_true. split; [done|]. apply bool_decide_eq_true. by eexists.
    + destruct (Hcl h1 h2 Hn Hst) as [Hin|]; [set_solver|auto].
  - rewrite (total_delete _ _ h r Hr). rewrite Nat.add_comm. apply Nat.add_le_mono_l. apply total_le.
    intros h1 r1 (Hne & r2 & Hr2 & _ & _ & Hu2)%(dt_from _ _ _ Hd). exists r2. rewrite lookup_delete_ne by done.
    split; [done|]. rewrite Hu2. apply sublist_length, filter_sublist.
Qed.

Lemma removing_start s hashes : ready_ok U s -> removing hashes (index (ready s)) hashes [] s.
Proof.
  intros Hok. split.
  - by eapply queue_ok_weaken; [|exact Hok]; naive_solver.
  - by apply survives_refl.
  - apply taken_out_refl.
  - intros h Hh. by exists h.
  - intros h [r ?] ?. congruence.
  - auto.
  - intros h h' Hn (r & ? & _). congruence.
Qed.

(** [remove_subtree] returns; it removes exactly the transactions that are reachable from the given ones along the links. *)
Lemma ready_remove_subtree_ok s hashes : ready_ok U s ->
  postM (ready_remove_subtree hashes) s
    (fun removed s' => ready_ok U s' /\ insertion_id s' = insertion_id s /\
       subtree_removed hashes (index (ready s)) (index (ready s')) removed) (fun _ _ => False).
Proof.
  intros Hok. set (m := index (ready s)).
  assert (forall h r, m !! h = Some r -> hash (tx_of r) = h) as Hkey by apply (go_key _ _ _ (ro_graph _ _ _ Hok)).
  unfold ready_remove_subtree, remove_subtree_with_tag_filter. rewrite postM_get. fold m.
  refine (loopM_post _ (fun '(to_remove, removed) s' =>
      insertion_id s' = insertion_id s /\ removing hashes m to_remove removed s')
    (fun '(to_remove, _) s' => length to_remove + total (fun r => length (unlocks r)) (index (ready s')))
    _ _ _ _ (hashes, []) s _ _); [|split; [done|by apply removing_start]|fold m; lia].
  intros [to_remove removed] s' [Hid Hrm]. unfold remove_subtree_round.
  destruct (pop_cases to_remove) as [[-> ->]|(l & h & -> & ->)].
  { unfold postM. simpl. split_and!; [|done|by apply removing_done].
    eapply queue_ok_weaken; [|apply Hrm]. intros h _ _. by intros ?%elem_of_nil. }
  rewrite postM_get. destruct (index (ready s') !! h) as [r|] eqn:Hr.
  2: { unfold tm_remove. rewrite Hr. unfold postM. simpl. rewrite length_app. simpl. split; [|lia].
       split; [done|]. by eapply removing_skip. }
  destruct (removing_step hashes m l removed s' h r Hkey Hr Hrm) as (Hrm' & Hid' & Hle).
  rewrite (surjective_pairing (tm_remove h (ready s'))), (tm_remove_old _ _ _ Hr), filter_all by done.
  assert ((if negb (bool_decide (provides (tx_of r) = [])) then l ++ unlocks r else l) = l ++ unlocks r) as Hl.
  { case_bool_decide as Hp; [|done]. simpl.
    by rewrite (no_tags_no_links _ _ _ _ (ro_graph _ _ _ (rm_queue _ _ _ _ _ Hrm)) Hr Hp), app_nil_r. }
  rewrite Hl, postM_put. change (set_best _ _) with (removed_one h r s').
  unfold postM, ret. rewrite !length_app. simpl (length [_]). split; [|lia]. split; [congruence|done].
Qed.
End remove.
