(* ===== verification/PoolImport.v ===== *)
(** * The transaction pool: import to the ready queue

    What [import] of the ready queue does for transactions of a scheme of slots: the transaction in
    the same slot, if there is one, is replaced or wins; all other transactions stay, with their
    links. *)

From S2P Require Import Prelude PoolTypes PoolFuture PoolReady PoolGraph PoolRemove.

Section import.
Context {P : Profile} {Hash Ex : Type} `{Iteration Hash, !Iteration Tag}.
Context (U : Transaction Hash Ex -> Prop) `{!Slots U}.
Notation entry := (ReadyTx Hash Ex).
Notation tx_t := (Transaction Hash Ex).
Implicit Types (m : gmap Hash entry) (r : entry) (s : ReadyTransactions Hash Ex) (tx : tx_t).

(** ** The slot *)

Definition same_slot tx tx' : Prop := exists t, t ∈ provides tx /\ t ∈ provides tx'.

(** A slot is free, or one transaction occupies it. *)
Lemma slot_cases s tx : ready_ok U s -> U tx ->
  (forall t, t ∈ provides tx -> provided_tags s !! t = None) \/
  exists h r, index (ready s) !! h = Some r /\ same_slot tx (tx_of r) /\
    (forall t, t ∈ provides tx <-> t ∈ provides (tx_of r)) /\
    (forall t, t ∈ provides tx -> provided_tags s !! t = Some h).
Proof.
  intros Hok Hu.
  destruct (decide (Exists (fun t => is_Some (provided_tags s !! t)) (provides tx))) as [He|Hn].
  - right. apply Exists_exists in He as (t & Ht & [h Hh]). pose proof Hh as (r & Hr & Htr)%(ro_tags _ _ _ Hok).
    assert (U (tx_of r)) as Hur by by apply (go_known _ _ _ (ro_graph _ _ _ Hok) h).
    assert (forall t', t' ∈ provides tx <-> t' ∈ provides (tx_of r)) as Hsame
      by (intros t'; split; by apply (slots_same _ _ t)).
    exists h, r. split_and!; [done|by exists t|done|]. intros t' Ht'. apply (ro_tags _ _ _ Hok).
    exists r. split; [done|]. by apply Hsame.
  - left. intros t Ht. apply eq_None_not_Some. intros Hs. apply Hn, Exists_exists. by exists t.
Qed.

(** The queue once the slot of [tx] is vacated, with [us] the transactions that lost a link
    from it. *)
Record vacated tx (us : list Hash) s : Prop := {
  va_graph : graph_ok U (fun h => h ∈ us) (index (ready s));
  va_links : forall h r, index (ready s) !! h = Some r ->
    requires_offset r + links h (index (ready s)) + times h us = length (requires (tx_of r));
  va_us : forall h, h ∈ us -> exists r, index (ready s) !! h = Some r /\
    times h us <= length (List.filter (fun t => bool_decide (t ∈ provides tx)) (requires (tx_of r)));
  va_tags : forall t h, t ∉ provides tx ->
    (provided_tags s !! t = Some h <-> exists r, index (ready s) !! h = Some r /\ t ∈ provides (tx_of r));
  va_free : forall h r t, index (ready s) !! h = Some r -> t ∈ provides tx -> t ∉ provides (tx_of r);
  va_best : best_ok (best s) (index (ready s));
  va_counted : counted (ready s)
}.

Lemma vacated_free s tx : ready_ok U s -> (forall t, t ∈ provides tx -> provided_tags s !! t = None) ->
  vacated tx [] s.
Proof.
  intros Hok Hfree. destruct Hok as [Hg Ht Hb Hi Hc]. split; [..|done|done].
  - destruct Hg as [? ? ? Hl ?]. split; [done..| |done]. intros h r Hr _. apply Hl; [done|by intros []].
  - intros h r Hr. rewrite Nat.add_0_r. apply (go_links _ _ _ Hg); [done|by intros []].
  - by intros h ?%elem_of_nil.
  - intros t h _. apply Ht.
  - intros h r t Hr Hin Hin'. assert (provided_tags s !! t = Some h) by (apply Ht; by exists r).
    rewrite Hfree in *; done.
Qed.

(** The occupant is removed alone. *)
Definition evicted (h : Hash) r s : ReadyTransactions Hash Ex :=
  let s2 := unlink h (requires (tx_of r)) (set_provided_tags (provided_tags s) (set_ready (tm_remove h (ready s)).1 s)) in
  set_best (btree_remove cmp_ref (tx_ref r) (best s2)) s2.

Lemma vacated_evicted s tx h r :
  ready_ok U s -> index (ready s) !! h = Some r ->
  (forall t, t ∈ provides tx <-> t ∈ provides (tx_of r)) ->
  vacated tx (unlocks r) (evicted h r s) /\ detached h (index (ready s)) (index (ready (evicted h r s))) /\
  insertion_id (evicted h r s) = insertion_id s /\ provided_tags (evicted h r s) = provided_tags s.
Proof.
  intros [Hg Ht Hb Hi Hc] Hr Hslot. unfold evicted. set (s1 := set_provided_tags _ _).
  destruct (unlink_spec h (requires (tx_of r)) s1) as (Hid & Hpt & Hbu & Hcu & _).
  assert (detached h (index (ready s)) (index (ready (unlink h (requires (tx_of r)) s1)))) as Hd.
  { eapply (unlink_detached U _ _ h r s1); [done|done|apply tm_remove_index| |done].
    intros h' r' t Hr' _ Hin. apply Ht. by exists r'. }
  pose proof (no_self_link U _ _ _ _ Hg Hr) as Hself.
  split; [|split_and!; [done|exact Hid|exact Hpt]]. split; simpl.
  - eapply detached_graph; [done..|]. naive_solver.
  - intros h1 r1 (Hne & r0 & Hr0 & Hx & Ho & _)%(dt_from _ _ _ Hd). rewrite Hx, Ho.
    rewrite <-(go_links _ _ _ Hg h1 r0 Hr0) by naive_solver.
    rewrite (detached_links U _ h _ _ r h1 Hg Hr Hd Hne). lia.
  - intros h1 Hin. destruct (go_edges _ _ _ Hg h r h1 Hr Hin) as (r1 & Hr1 & Hle).
    assert (h1 <> h) as Hne by (by intros ->).
    destruct (dt_kept _ _ _ Hd h1 r1 Hr1 Hne) as (r2 & Hr2 & Hx & _). exists r2. split; [done|].
    rewrite Hx. etrans; [exact Hle|]. apply filter_length_le. intros t _.
    rewrite !bool_decide_eq_true. apply Hslot.
  - rewrite Hpt. intros t h1 Hnot. simpl. rewrite (Ht t h1). split.
    + intros (r1 & Hr1 & Htr). assert (h1 <> h) as Hne by (intros ->; simplify_eq; by apply Hnot, Hslot).
      destruct (dt_kept _ _ _ Hd h1 r1 Hr1 Hne) as (r2 & Hr2 & Hx & _). exists r2. by rewrite Hx.
    + intros (r2 & (_ & r1 & Hr1 & Hx & _)%(dt_from _ _ _ Hd) & Htr). exists r1. by rewrite <-Hx.
  - intros h1 r1 t (Hne & r0 & Hr0 & Hx & _)%(dt_from _ _ _ Hd) Hin. rewrite Hx. intros Hin'.
    assert (provided_tags s !! t = Some h1) by (apply Ht; by exists r0).
    assert (provided_tags s !! t = Some h) by (apply Ht; exists r; split; [done|by apply Hslot]). congruence.
  - rewrite Hbu. by eapply detached_best.
  - apply Hcu. by eapply tm_remove_counted.
Qed.

(** ** Replacement *)

Lemma replace_free s tx : (forall t, t ∈ provides tx -> provided_tags s !! t = None) ->
  replace_previous tx s = (s, Ok ([], [])).
Proof.
  intros Hfree. unfold replace_previous. rewrite bindM_get.
  replace (omap _ (provides tx)) with (@nil Hash); [by rewrite decide_True|].
  induction (provides tx) as [|t l IH]; [done|]. simpl. rewrite Hfree by by left. apply IH. set_solver.
Qed.

Lemma iterate_singleton {A} `{Iteration A} (x : A) : iterate {[x]} = [x].
Proof.
  pose proof (iterate_elements {[x]}) as Hp. rewrite elements_singleton in Hp.
  by apply Permutation_singleton_r in Hp.
Qed.

Lemma occupant_singleton s tx h : provides tx <> [] ->
  (forall t, t ∈ provides tx -> provided_tags s !! t = Some h) ->
  list_to_set (omap (fun t => provided_tags s !! t) (provides tx)) = ({[h]} : gset Hash).
Proof.
  intros Hne Hall. apply set_eq. intros x. rewrite elem_of_list_to_set, elem_of_singleton, list_elem_of_omap.
  split; [intros (t & Ht & Hx); rewrite (Hall t Ht) in Hx; congruence|].
  intros ->. destruct (provides tx) as [|t l]; [done|]. exists t. split; [by left|apply Hall; by left].
Qed.

Lemma remove_occupant s tx h r :
  index (ready s) !! h = Some r -> (forall t, t ∈ provides tx <-> t ∈ provides (tx_of r)) ->
  remove_subtree_with_tag_filter [h] (Some (list_to_set (provides tx))) s = (evicted h r s, Ok [tx_of r]).
Proof.
  intros Hr Hslot.
  assert (remove_subtree_round (Some (list_to_set (provides tx))) ([h], []) s =
    (evicted h r s, Ok (Continue ([], [tx_of r])))) as Hround.
  { unfold remove_subtree_round. change (pop [h]) with (Some (h, @nil Hash)). cbv iota beta. rewrite bindM_get.
    rewrite (surjective_pairing (tm_remove h (ready s))), (tm_remove_old _ _ _ Hr), filter_none; [done|].
    intros t Ht. rewrite bool_decide_eq_true_2; [done|]. by apply elem_of_list_to_set, Hslot. }
  unfold remove_subtree_with_tag_filter. rewrite bindM_get. simpl (length [h] + _). cbn [loopM].
  by rewrite (bindM_ok _ _ _ _ _ Hround).
Qed.

Lemma replace_occupied s tx h r :
  index (ready s) !! h = Some r -> same_slot tx (tx_of r) ->
  (forall t, t ∈ provides tx <-> t ∈ provides (tx_of r)) ->
  (forall t, t ∈ provides tx -> provided_tags s !! t = Some h) ->
  replace_previous tx s =
    if (priority tx <=? saturating_add_u64 0 (priority (tx_of r)))%N
    then (s, Err (TooLowPriority (saturating_add_u64 0 (priority (tx_of r))) (priority tx)))
    else (evicted h r s, Ok ([tx_of r], unlocks r)).
Proof.
  intros Hr (t0 & Ht0 & _) Hslot Hall. unfold replace_previous. rewrite bindM_get.
  rewrite (occupant_singleton s tx h) by (done || by intros Hnil; rewrite Hnil in Ht0; apply elem_of_nil in Ht0).
  rewrite decide_False by set_solver. rewrite iterate_singleton. unfold tm_get. simpl. rewrite Hr. simpl.
  case_match; [done|]. by rewrite (bindM_ok _ _ _ _ _ (remove_occupant s tx h r Hr Hslot)).
Qed.

(** ** Links *)

Definition linked (h : Hash) (n : nat) : entry -> entry := map_unlocks (fun u => u ++ replicate n h).

Definition unprovided (pt : gmap Tag Hash) (tags : list Tag) : nat :=
  length (List.filter (fun t => bool_decide (pt !! t = None)) tags).

Lemma linked_linked h n r : linked h n (map_unlocks (fun u => u ++ [h]) r) = linked h (S n) r.
Proof. unfold linked, map_unlocks. simpl. by rewrite <-app_assoc. Qed.

Lemma times_replicate {A} `{EqDecision A} (x : A) n : times x (replicate n x) = n.
Proof. induction n as [|n IH]; [done|]. simpl. rewrite times_cons, IH. by rewrite decide_True. Qed.

Lemma times_replicate_ne {A} `{EqDecision A} (x y : A) n : x <> y -> times x (replicate n y) = 0.
Proof. intros Hne. induction n as [|n IH]; [done|]. simpl. rewrite times_cons, IH. by rewrite decide_False. Qed.

Lemma unprovided_cons pt t tags :
  unprovided pt (t :: tags) = (if pt !! t is Some _ then 0 else 1) + unprovided pt tags.
Proof. unfold unprovided. simpl. case_bool_decide; destruct (pt !! t); done. Qed.

Lemma unprovided_le pt tags : unprovided pt tags <= length tags.
Proof. apply sublist_length, filter_sublist. Qed.

Lemma provided_by_cons (pt : gmap Tag Hash) h t tags :
  provided_by pt h (t :: tags) = (if decide (pt !! t = Some h) then 1 else 0) + provided_by pt h tags.
Proof. unfold provided_by. simpl. case_bool_decide; case_decide; done. Qed.

(** The loop on the required tags. *)
Lemma link_spec h tags s g o :
  (forall t h', t ∈ tags -> provided_tags s !! t = Some h' -> is_Some (index (ready s) !! h')) ->
  exists s', for_fold (link h) tags (g, o) s =
    (s', Ok (g && (unprovided (provided_tags s) tags =? length tags), o + unprovided (provided_tags s) tags)) /\
  insertion_id s' = insertion_id s /\ provided_tags s' = provided_tags s /\ best s' = best s /\
  (counted (ready s) -> counted (ready s')) /\
  (forall h', index (ready s') !! h' = linked h (provided_by (provided_tags s) h' tags) <$> index (ready s) !! h') /\
  links h (index (ready s')) + unprovided (provided_tags s) tags = links h (index (ready s)) + length tags.
Proof.
  revert s g o. induction tags as [|t tags IH]; intros s g o Hex.
  { exists s. simpl. rewrite andb_true_r, Nat.add_0_r. split_and!; try done. intros h'.
    destruct (_ !! h') as [[? u ?]|]; [|done]. unfold linked, map_unlocks. simpl. by rewrite app_nil_r. }
  cbn [for_fold]. rewrite unprovided_cons. destruct (provided_tags s !! t) as [h1|] eqn:Ht.
  - destruct (Hex t h1) as [r1 Hr1]; [by left|done|].
    set (s1 := set_ready (tm_alter (map_unlocks (fun u => u ++ [h])) h1 (ready s)) s).
    assert (link h t (g, o) s = (s1, Ok (false, o))) as Hl.
    { unfold link. rewrite bindM_get, Ht, Hr1. done. }
    rewrite (bindM_ok _ _ _ _ _ Hl). destruct (IH s1 false o) as (s' & -> & Hid & Hpt & Hb & Hc & Hidx & Hn).
    { intros t' h' Ht' Hh'. simpl. rewrite lookup_alter. case_decide; [|apply (Hex t'); [by right|done]].
      subst. by rewrite Hr1. }
    pose proof (unprovided_le (provided_tags s) tags) as Hle. exists s'. cbn in Hid, Hpt, Hb, Hn.
    split_and!; try done.
    + rewrite andb_false_l. do 3 f_equal. symmetry. apply andb_false_iff. right. apply Nat.eqb_neq. simpl. lia.
    + intros Hs. by apply Hc, tm_alter_counted.
    + intros h'. rewrite Hidx, provided_by_cons. simpl. rewrite lookup_alter, Ht.
      destruct (decide (h1 = h')) as [->|Hne].
      * rewrite decide_True by done. rewrite <-option_fmap_compose. destruct (index (ready s) !! _) as [r|]; [|done].
        simpl. by rewrite linked_linked.
      * rewrite decide_False by congruence. done.
    + unfold links in *. pose proof (total_alter (fun r => times h (unlocks r)) (map_unlocks (fun u => u ++ [h])) _ _ _ Hr1) as Ht1.
      simpl in Ht1. rewrite times_app, times_cons, decide_True in Ht1 by done. cbn in Ht1. simpl. lia.
  - assert (link h t (g, o) s = (s, Ok (g, S o))) as Hl by (unfold link; by rewrite bindM_get, Ht).
    rewrite (bindM_ok _ _ _ _ _ Hl). destruct (IH s g (S o)) as (s' & -> & Hid & Hpt & Hb & Hc & Hidx & Hn).
    { intros t' h' Ht'. apply Hex. by right. }
    exists s'. split_and!; try done.
    + by rewrite Nat.add_succ_r.
    + intros h'. rewrite provided_by_cons, Ht. rewrite decide_False by done. apply Hidx.
    + simpl. lia.
Qed.

(** ** The new entry *)

Lemma insert_tags_lookup (tags : list Tag) (pt : gmap Tag Hash) h t :
  foldl (fun p t => <[t := h]> p) pt tags !! t = if decide (t ∈ tags) then Some h else pt !! t.
Proof.
  revert pt. induction tags as [|t' tags IH]; intros pt; simpl; [done|]. rewrite IH.
  destruct (decide (t ∈ tags)); [by rewrite decide_True by by right|].
  destruct (decide (t = t')) as [->|Hne].
  - by rewrite lookup_insert_eq, decide_True by by left.
  - rewrite lookup_insert_ne, decide_False by (by rewrite ?elem_of_cons; naive_solver). done.
Qed.

Lemma requires_not_provided tx t : U tx -> t ∈ requires tx -> t ∉ provides tx.
Proof. intros Hu Hr Hp. pose proof (slots_rank tx t t Hu Hr Hp). lia. Qed.

Section entered.
Context (tx : tx_t) (us : list Hash) (s1 : ReadyTransactions Hash Ex) (id : N).
Context (Hu : U tx) (Hva : vacated tx us s1) (Hnew : index (ready s1) !! hash tx = None).
Context (Hids : forall h r, index (ready s1) !! h = Some r -> (ref_insertion_id (tx_ref r) < id)%N).
Let m1 := index (ready s1).
Let pt := provided_tags s1.
Context (m2 : gmap Hash entry).
Context (Hm2 : forall h, m2 !! h = linked (hash tx) (provided_by pt h (requires tx)) <$> m1 !! h).
Context (Hlinks : links (hash tx) m2 + unprovided pt (requires tx) = links (hash tx) m1 + length (requires tx)).
Let r_new := mkReadyTx (mkRef tx id) us (unprovided pt (requires tx)).
Let m3 := <[hash tx := r_new]> m2.

Lemma new_absent : m2 !! hash tx = None.
Proof. rewrite Hm2. unfold m1. by rewrite Hnew. Qed.

Lemma new_not_unlocked h r : m1 !! h = Some r -> hash tx ∉ unlocks r.
Proof.
  intros Hr Hin. destruct (go_edges _ _ _ (va_graph _ _ _ Hva) h r _ Hr Hin) as (r' & Hr' & _). congruence.
Qed.

Lemma new_not_lost : hash tx ∉ us.
Proof. intros (r & Hr & _)%(va_us _ _ _ Hva). congruence. Qed.

Lemma entered_lookup h r : m3 !! h = Some r ->
  (h = hash tx /\ r = r_new) \/
  (h <> hash tx /\ exists r1, m1 !! h = Some r1 /\ r = linked (hash tx) (provided_by pt h (requires tx)) r1).
Proof.
  unfold m3. destruct (decide (h = hash tx)) as [->|Hne].
  - rewrite lookup_insert_eq. intros. left. by simplify_eq.
  - rewrite lookup_insert_ne, Hm2 by done. intros (r1 & -> & Hr1)%fmap_Some. right. eauto.
Qed.

Lemma entered_kept h r1 : m1 !! h = Some r1 ->
  m3 !! h = Some (linked (hash tx) (provided_by pt h (requires tx)) r1).
Proof.
  intros Hr. unfold m3. rewrite lookup_insert_ne by (unfold m1 in Hr; congruence). by rewrite Hm2, Hr.
Qed.

Lemma entered_links h : h <> hash tx -> links h m3 = times h us + links h m1.
Proof.
  intros Hne. unfold links, m3. rewrite total_insert by apply new_absent. simpl. f_equal.
  apply total_ext. intros h'. rewrite Hm2. destruct (m1 !! h') as [r|]; [|done]. simpl. f_equal.
  rewrite times_app, times_replicate_ne by done. lia.
Qed.

Lemma entered_graph : graph_ok U (fun _ => False) m3.
Proof.
  split.
  - intros h r [[-> ->]|(_ & r1 & Hr1 & ->)]%entered_lookup; [done|]. simpl. by apply (go_key _ _ _ (va_graph _ _ _ Hva)).
  - intros h r [[-> ->]|(_ & r1 & Hr1 & ->)]%entered_lookup; [done|]. simpl. by apply (go_known _ _ _ (va_graph _ _ _ Hva) h).
  - intros h h' r r' [[-> ->]|(_ & r1 & Hr1 & ->)]%entered_lookup [[-> ->]|(_ & r2 & Hr2 & ->)]%entered_lookup Hid; simpl in Hid.
    + done.
    + apply Hids in Hr2. lia.
    + apply Hids in Hr1. lia.
    + by apply (go_inj _ _ _ (va_graph _ _ _ Hva) h h' r1 r2).
  - intros h r [[-> ->]|(Hne & r1 & Hr1 & ->)]%entered_lookup _; simpl.
    + unfold links, m3. rewrite total_insert by apply new_absent. simpl.
      rewrite (proj2 (times_zero _ _) new_not_lost). fold (links (hash tx) m2).
      enough (links (hash tx) m1 = 0) by lia. apply total_zero. intros h r Hr.
      by eapply times_zero, new_not_unlocked.
    + rewrite entered_links by done. pose proof (va_links _ _ _ Hva h r1 Hr1) as Hl. fold m1 in Hl. lia.
  - intros h r h' [[-> ->]|(Hne & r1 & Hr1 & ->)]%entered_lookup Hin; simpl in Hin.
    + destruct (va_us _ _ _ Hva h' Hin) as (r' & Hr' & Hle). eexists. split; [by apply entered_kept|]. done.
    + apply elem_of_app in Hin. simpl. rewrite times_app. destruct (decide (h' = hash tx)) as [->|Hne'].
      * exists r_new. split; [unfold m3; by rewrite lookup_insert_eq|].
        rewrite times_replicate. rewrite (proj2 (times_zero _ _)) by by eapply new_not_unlocked.
        apply filter_length_le. intros t Ht. rewrite !bool_decide_eq_true. simpl. intros Hpt.
        apply (va_tags _ _ _ Hva) in Hpt as (r2 & ? & ?); [|by apply requires_not_provided]. unfold m1 in *. congruence.
      * destruct Hin as [Hin|Hin]; [|by apply elem_of_replicate in Hin as [? _]].
        destruct (go_edges _ _ _ (va_graph _ _ _ Hva) h r1 h' Hr1 Hin) as (r' & Hr' & Hle).
        eexists. split; [by apply entered_kept|]. rewrite times_replicate_ne by done. rewrite Nat.add_0_r. done.
Qed.

Lemma entered_tags pt' : (forall t, pt' !! t = if decide (t ∈ provides tx) then Some (hash tx) else pt !! t) ->
  tags_ok pt' m3.
Proof.
  intros Hpt t h. rewrite Hpt. case_decide as Hin.
  - split; [intros; simplify_eq; exists r_new; split; [apply lookup_insert_eq|done]|].
    intros (r & [[-> ->]|(Hne & r1 & Hr1 & ->)]%entered_lookup & Htr); [done|]. by apply (va_free _ _ _ Hva h r1 t) in Hr1.
  - unfold pt. rewrite (va_tags _ _ _ Hva) by done. split.
    + intros (r & Hr & Htr). eexists. split; [by apply entered_kept|done].
    + intros (r & [[-> ->]|(Hne & r1 & Hr1 & ->)]%entered_lookup & Htr); [done|]. by exists r1.
Qed.

Lemma entered_best b : b = (if unprovided pt (requires tx) =? length (requires tx)
    then btree_insert cmp_ref (mkRef tx id) (best s1) else best s1) ->
  best_ok b m3.
Proof.
  intros ->. destruct (va_best _ _ _ Hva) as [Hs Hb].
  assert (told_apart (mkRef tx id) (best s1)) as Hapart.
  { intros x (h & r & Hr & <- & _)%Hb Hid. simpl in Hid. apply Hids in Hr. lia. }
  assert (forall x, (exists h r, m3 !! h = Some r /\ tx_ref r = x /\ requires_offset r = length (requires (tx_of r))) <->
    (x = mkRef tx id /\ unprovided pt (requires tx) = length (requires tx)) \/ x ∈ best s1) as Hsem.
  { intros x. rewrite Hb. split.
    - intros (h & r & [[-> ->]|(Hne & r1 & Hr1 & ->)]%entered_lookup & <- & Ho); [by left|]. right. by exists h, r1.
    - intros [[-> Ho]|(h & r & Hr & <- & Ho)].
      + exists (hash tx), r_new. split_and!; [apply lookup_insert_eq|done|done].
      + exists h. eexists. split; [by apply entered_kept|done]. }
  case_match eqn:Hn.
  - apply Nat.eqb_eq in Hn. split; [by apply btree_insert_sorted|]. intros x.
    rewrite btree_insert_elem, Hsem by done. naive_solver.
  - apply Nat.eqb_neq in Hn. split; [done|]. intros x. rewrite Hsem. naive_solver.
Qed.
End entered.

(** ** The operation *)

(** The queue after [tx] entered it with insertion id [id]. *)
Record entered tx (id : N) (replaced : list tx_t) s s' : Prop := {
  en_ok : ready_ok U s';
  en_id : insertion_id s' = id;
  en_tags : forall t, provided_tags s' !! t =
    if decide (t ∈ provides tx) then Some (hash tx) else provided_tags s !! t;
  en_new : exists us, index (ready s') !! hash tx =
    Some (mkReadyTx (mkRef tx id) us (unprovided (provided_tags s) (requires tx)));
  en_kept : forall h r, index (ready s) !! h = Some r -> tx_of r ∉ replaced ->
    exists r', index (ready s') !! h = Some r' /\ tx_ref r' = tx_ref r /\ requires_offset r' = requires_offset r;
  en_from : forall h r', index (ready s') !! h = Some r' -> h <> hash tx ->
    exists r, index (ready s) !! h = Some r /\ tx_of r ∉ replaced /\ tx_ref r' = tx_ref r;
  en_replaced : forall tx', tx' ∈ replaced <->
    exists h r, index (ready s) !! h = Some r /\ tx_of r = tx' /\ same_slot tx tx';
  en_one : length replaced <= 1
}.

(** The last part of [import], once the slot is vacated. *)
Lemma enter_tail s s1 tx id us replaced :
  U tx -> vacated tx us s1 -> index (ready s1) !! hash tx = None -> insertion_id s1 = id ->
  (forall h r, index (ready s1) !! h = Some r -> (ref_insertion_id (tx_ref r) < id)%N) ->
  provided_tags s1 = provided_tags s ->
  (forall h r, index (ready s) !! h = Some r -> tx_of r ∉ replaced ->
    exists r', index (ready s1) !! h = Some r' /\ tx_ref r' = tx_ref r /\ requires_offset r' = requires_offset r) ->
  (forall h r', index (ready s1) !! h = Some r' ->
    exists r, index (ready s) !! h = Some r /\ tx_of r ∉ replaced /\ tx_ref r' = tx_ref r) ->
  (forall tx', tx' ∈ replaced <->
    exists h r, index (ready s) !! h = Some r /\ tx_of r = tx' /\ same_slot tx tx') ->
  length replaced <= 1 ->
  exists s', (let* '(goes_to_best, requires_offset) := for_fold (link (hash tx)) (requires tx) (true, 0) in
    let* _ := modify_state (fun s =>
      set_provided_tags (foldl (fun p tag => <[tag := hash tx]> p) (provided_tags s) (provides tx)) s) in
    let* _ := modify_state (fun s =>
      if goes_to_best : bool then set_best (btree_insert cmp_ref (mkRef tx id) (best s)) s else s) in
    let* _ := modify_state (fun s =>
      set_ready (tm_insert (hash tx) (mkReadyTx (mkRef tx id) us requires_offset) (ready s)).1 s) in
    ret replaced) s1 = (s', Ok (E := Error Hash) replaced) /\ entered tx id replaced s s'.
Proof.
  intros Hu Hva Hnew Hid Hids Hpt Hkept Hfrom Hrep Hone.
  destruct (link_spec (hash tx) (requires tx) s1 true 0) as (s2 & Hl & Hid2 & Hpt2 & Hb2 & Hc2 & Hm2 & Hn2).
  { intros t h Ht Hh. apply (va_tags _ _ _ Hva) in Hh as (r & Hr & _); [by eexists|by apply requires_not_provided]. }
  rewrite (bindM_ok _ _ _ _ _ Hl). cbn [andb]. rewrite !bindM_modify. eexists. split; [reflexivity|].
  assert (index (ready s2) !! hash tx = None) as Hnew2 by by rewrite Hm2, Hnew.
  set (off := 0 + unprovided (provided_tags s1) (requires tx)).
  set (sb := if _ =? _ then _ else _).
  assert (ready sb = ready s2) as Hrb by (unfold sb; by case_match).
  assert (insertion_id sb = insertion_id s2) as Hib by (unfold sb; by case_match).
  assert (forall t, provided_tags sb !! t = if decide (t ∈ provides tx) then Some (hash tx) else provided_tags s1 !! t) as Hpb.
  { intros t. rewrite <-Hpt2, <-insert_tags_lookup. unfold sb. by case_match. }
  assert (best sb = if unprovided (provided_tags s1) (requires tx) =? length (requires tx)
    then btree_insert cmp_ref (mkRef tx id) (best s1) else best s1) as Hbb.
  { unfold sb. rewrite <-Hb2. by case_match. }
  assert (index (tm_insert (hash tx) (mkReadyTx (mkRef tx id) us off) (ready s2)).1 =
    <[hash tx := mkReadyTx (mkRef tx id) us off]> (index (ready s2))) as Hidx.
  { unfold tm_insert. by rewrite Hnew2. }
  clearbody sb. rewrite Hrb.
  split; simpl; rewrite ?Hidx.
  - split; simpl; rewrite ?Hidx.
    + by eapply entered_graph.
    + by eapply entered_tags.
    + by eapply entered_best.
    + intros h r Hr. rewrite Hib, Hid2, Hid. eapply entered_lookup in Hr as [[-> ->]|(_ & r1 & Hr1 & ->)]; [done| |done].
      simpl. apply Hids in Hr1. lia.
    + apply tm_insert_counted; [done|]. apply Hc2, Hva.
  - congruence.
  - intros t. by rewrite Hpb, Hpt.
  - exists us. by rewrite lookup_insert_eq, <-Hpt.
  - intros h r Hr Hnot. destruct (Hkept h r Hr Hnot) as (r1 & Hr1 & ? & ?). eexists.
    split; [by eapply entered_kept|]. done.
  - intros h r Hr Hne. eapply entered_lookup in Hr as [[-> ->]|(_ & r1 & Hr1 & ->)]; [done| |done].
    simpl. by apply Hfrom.
  - done.
  - done.
Qed.

(** [import] returns: the transaction is refused for the one in its slot, or enters. *)
Lemma ready_import_ok s w : let tx := transaction w in
  ready_ok U s -> U tx -> is_ready w = true -> index (ready s) !! hash tx = None -> (insertion_id s < u64_MAX)%N ->
  (exists h r, let old := saturating_add_u64 0 (priority (tx_of r)) in
     index (ready s) !! h = Some r /\ same_slot tx (tx_of r) /\
     (forall t, t ∈ provides tx -> provided_tags s !! t = Some h) /\ (priority tx <= old)%N /\
     ready_import w s = (set_insertion_id (insertion_id s + 1) s, Err (TooLowPriority old (priority tx)))) \/
  (exists replaced s', ready_import w s = (s', Ok replaced) /\ entered tx (insertion_id s + 1) replaced s s' /\
     forall tx', tx' ∈ replaced -> (saturating_add_u64 0 (priority tx') < priority tx)%N).
Proof.
  intros tx Hok Hu Hready Hnew Hmax. unfold ready_import. fold tx.
  rewrite (bindM_lift _ _ _ tt) by by rewrite Hready. rewrite bindM_get.
  rewrite (bindM_lift _ _ _ tt) by (unfold tm_contains_key; by rewrite Hnew).
  rewrite (bindM_lift _ _ _ (insertion_id s + 1)%N) by (apply add_u64_eq; lia). rewrite bindM_put.
  set (s0 := set_insertion_id (insertion_id s + 1) s).
  assert (forall h r, index (ready s0) !! h = Some r -> (ref_insertion_id (tx_ref r) < insertion_id s + 1)%N) as Hids
    by (intros h r Hr; apply (ro_ids _ _ _ Hok) in Hr; lia).
  assert (ready_ok U s0) as Hok0.
  { destruct Hok as [? ? ? Hi ?]. split; [done..| |done]. simpl. intros h r Hr. apply Hids in Hr. lia. }
  destruct (slot_cases s0 tx Hok0 Hu) as [Hfree|(h & r & Hr & Hss & Hslot & Hall)].
  - right. rewrite (bindM_ok _ _ _ _ _ (replace_free s0 tx Hfree)).
    destruct (enter_tail s s0 tx (insertion_id s + 1) [] []) as (s' & Hs' & Hen); try done.
    + by apply vacated_free.
    + intros h r Hr _. by exists r.
    + intros h r Hr. exists r. split_and!; [done|apply not_elem_of_nil|done].
    + intros tx'. split; [by intros ?%elem_of_nil|]. intros (h & r & Hr & <- & t & Ht & Ht').
      assert (provided_tags s0 !! t = Some h) as Hth by (apply (ro_tags _ _ _ Hok0); by exists r).
      by rewrite Hfree in Hth.
    + simpl. lia.
    + exists [], s'. split_and!; [done|done|]. by intros tx' ?%elem_of_nil.
  - pose proof (replace_occupied s0 tx h r Hr Hss Hslot Hall) as Hrp.
    destruct (priority tx <=? _)%N eqn:Hprio.
    { left. exists h, r. apply N.leb_le in Hprio. split_and!; [done..|]. by rewrite (bindM_err _ _ _ _ _ Hrp). }
    right. apply N.leb_gt in Hprio. rewrite (bindM_ok _ _ _ _ _ Hrp).
    destruct (vacated_evicted s0 tx h r Hok0 Hr Hslot) as (Hva & Hd & Hid & Hpt).
    destruct (enter_tail s (evicted h r s0) tx (insertion_id s + 1) (unlocks r) [tx_of r]) as (s' & Hs' & Hen); try done.
    + apply eq_None_not_Some. rewrite (detached_size _ _ _ Hd). intros [_ [r' Hr']]. simpl in Hr'. congruence.
    + intros h1 r1 (_ & r0 & Hr0 & -> & _)%(dt_from _ _ _ Hd). by eapply Hids.
    + intros h1 r1 Hr1 Hnot. destruct (dt_kept _ _ _ Hd h1 r1 Hr1) as (r2 & Hr2 & ? & ? & _); [|by exists r2].
      intros ->. simpl in Hr. simplify_eq. by apply Hnot, list_elem_of_singleton.
    + intros h1 r1 (Hne & r0 & Hr0 & Hx & _)%(dt_from _ _ _ Hd). exists r0. split_and!; [done| |done].
      rewrite list_elem_of_singleton. intros Heq. apply Hne.
      rewrite <-(go_key _ _ _ (ro_graph _ _ _ Hok0) h1 r0 Hr0), <-(go_key _ _ _ (ro_graph _ _ _ Hok0) h r Hr). congruence.
    + intros tx'. rewrite list_elem_of_singleton. split; [intros ->; by exists h, r|].
      intros (h1 & r1 & Hr1 & <- & t & Ht & Ht').
      assert (provided_tags s0 !! t = Some h1) as Hth by (apply (ro_tags _ _ _ Hok0); by exists r1).
      rewrite (Hall t Ht) in Hth. simplify_eq. simpl in Hr. congruence.
    + exists [tx_of r], s'. split_and!; [done|done|]. by intros tx' ->%list_elem_of_singleton.
Qed.
End import.
