(* ===== verification/PoolPrune.v ===== *)
(** * The transaction pool: pruning the ready queue

    What [prune_tags] of the ready queue does: the transaction that provides a tag leaves the
    queue, with the transactions before it that nothing else waits for, and those that it
    unlocks stay. *)

From S2P Require Import Prelude PoolTypes PoolFuture PoolReady PoolGraph PoolRemove.

Section prune.
Context {Hash Ex : Type} `{Countable Hash}.
Context (U : Transaction Hash Ex -> Prop) `{!Slots U}.
Notation entry := (ReadyTx Hash Ex).
Notation tx_t := (Transaction Hash Ex).
Implicit Types (m : gmap Hash entry) (r : entry) (s : ReadyTransactions Hash Ex) (tx : tx_t).

(** ** The transactions before *)

Lemma find_previous_state h tag s : (find_previous h tag s).1 = unlink h [tag] s.
Proof.
  unfold find_previous. simpl. destruct (provided_tags s !! tag) as [h'|]; [|done].
  destruct (index (ready s) !! h') as [r|] eqn:Hr; [done|]. simpl.
  destruct s as [i pt [m b l] bs]. unfold set_ready, tm_alter. simpl in *. do 2 f_equal.
  apply map_eq. intros h1. rewrite lookup_alter. case_decide; [subst; by rewrite Hr|done].
Qed.

(** A transaction before [h]: one that provides a tag that it requires. *)
Definition before m (h' h : Hash) : Prop := exists r' r t, m !! h' = Some r' /\ m !! h = Some r /\
  t ∈ provides (tx_of r') /\ t ∈ requires (tx_of r).

Definition tags_of m : nat := total (fun r => length (provides (tx_of r))) m.

Lemma prune_previous_spec h tags s w : let '(s', w') := prune_previous h tags s w in
  s' = unlink h tags s /\
  exists more, w' = w ++ more /\ length more <= length tags * tags_of (index (ready s)) /\
    forall t, t ∈ more -> exists t' h' r', t' ∈ tags /\ provided_tags s !! t' = Some h' /\
      index (ready s) !! h' = Some r' /\ t ∈ provides (tx_of r').
Proof.
  revert s w. induction tags as [|t tags IH]; intros s w; simpl.
  { split; [done|]. exists []. rewrite app_nil_r. split_and!; [done|done|]. by intros t ?%elem_of_nil. }
  unfold prune_previous in *. simpl. destruct (find_previous h t s) as [s1 o] eqn:Hf.
  pose proof (find_previous_state h t s) as Hs1. rewrite Hf in Hs1. simpl in Hs1.
  specialize (IH s1 (w ++ default [] o)). destruct (foldl _ _ tags) as [s' w'].
  destruct IH as (-> & more & -> & Hlen & Hmore). split; [by rewrite Hs1|].
  exists (default [] o ++ more). rewrite app_assoc. split; [done|].
  assert (forall h', index (ready s1) !! h' =
    trim h (provided_by (provided_tags s) h' [t]) <$> index (ready s) !! h') as Hidx.
  { pose proof (unlink_spec h [t] s) as (_ & _ & _ & _ & Hl). simpl in Hl. rewrite Hs1. apply Hl. }
  assert (provided_tags s1 = provided_tags s) as Hpt.
  { rewrite Hs1. by case_match. }
  assert (tags_of (index (ready s1)) = tags_of (index (ready s))) as Htags.
  { apply total_ext. intros h'. rewrite Hidx. by destruct (_ !! h'). }
  assert (forall t', t' ∈ default [] o -> exists h' r', provided_tags s !! t = Some h' /\
    index (ready s) !! h' = Some r' /\ provides (tx_of r') = default [] o) as Ho.
  { intros t' Ht'. unfold find_previous in Hf. destruct (provided_tags s !! t) as [h'|] eqn:Hp; simplify_eq; [|by apply elem_of_nil in Ht'].
    destruct (index (ready s) !! h') as [r'|] eqn:Hr'; simplify_eq; [|by apply elem_of_nil in Ht'].
    case_decide; [|by apply elem_of_nil in Ht']. by exists h', r'. }
  split.
  - rewrite length_app. apply Nat.add_le_mono; [|by rewrite <-Htags].
    destruct (default [] o) as [|t' l] eqn:Hd; [simpl; lia|].
    destruct (Ho t') as (h' & r' & _ & Hr' & <-); [by left|].
    by apply (total_lookup (fun r => length (provides (tx_of r)))) in Hr'.
  - intros t' [Ht'|Ht']%elem_of_app.
    + destruct (Ho t' Ht') as (h' & r' & ? & ? & Hp). exists t, h', r'. rewrite Hp. set_solver.
    + destruct (Hmore t' Ht') as (t1 & h' & r' & Ht1 & Hh' & Hr' & Hp). rewrite Hpt in Hh'.
      rewrite Hidx in Hr'. apply fmap_Some in Hr' as (r0 & Hr0 & ->). exists t1, h', r0. set_solver.
Qed.

(** ** The transactions unlocked *)

Definition bumped (n : nat) r : entry := mkReadyTx (tx_ref r) (unlocks r) (requires_offset r + n).

Lemma bump_zero r : bumped 0 r = r.
Proof. destruct r. unfold bumped. simpl. by rewrite Nat.add_0_r. Qed.

Definition told_apart_in m : Prop := forall h h' r r', m !! h = Some r -> m !! h' = Some r' ->
  ref_insertion_id (tx_ref r) = ref_insertion_id (tx_ref r') -> h = h'.

Lemma unlock_spec h s : told_apart_in (index (ready s)) -> best_ok (best s) (index (ready s)) ->
  (forall r, index (ready s) !! h = Some r -> requires_offset r < length (requires (tx_of r))) ->
  let s' := unlock h s in
  insertion_id s' = insertion_id s /\ provided_tags s' = provided_tags s /\
  (counted (ready s) -> counted (ready s')) /\ best_ok (best s') (index (ready s')) /\
  forall h', index (ready s') !! h' = bumped (if decide (h = h') then 1 else 0) <$> index (ready s) !! h'.
Proof.
  intros Hinj [Hs Hb] Hlt. unfold unlock. destruct (index (ready s) !! h) as [r|] eqn:Hr; simpl.
  2: { split_and!; [done..|]. intros h'. case_decide; [subst; by rewrite Hr|].
       destruct (_ !! h'); [simpl; by rewrite bump_zero|done]. }
  set (tm := tm_alter _ h (ready s)).
  assert (counted (ready s) -> counted tm) as Hc by (by apply tm_alter_counted).
  assert (forall h', index tm !! h' = bumped (if decide (h = h') then 1 else 0) <$> index (ready s) !! h') as Hl.
  { intros h'. simpl. rewrite lookup_alter. case_decide.
    - subst. rewrite Hr. simpl. unfold bumped. by rewrite Nat.add_1_r.
    - destruct (_ !! h'); [simpl; by rewrite bump_zero|done]. }
  assert (forall x, (exists h' r', index tm !! h' = Some r' /\ tx_ref r' = x /\
      requires_offset r' = length (requires (tx_of r'))) <->
    (x = tx_ref r /\ S (requires_offset r) = length (requires (tx_of r))) \/ x ∈ best s) as Hsem.
  { intros x. rewrite Hb. specialize (Hlt r eq_refl). split.
    - intros (h' & r' & Hr' & <- & Ho). rewrite Hl in Hr'. apply fmap_Some in Hr' as (r0 & Hr0 & ->).
      case_decide; simplify_eq; simpl in *; [left; split; [done|lia]|]. right. exists h', r0. rewrite Nat.add_0_r in Ho. done.
    - intros [[-> Ho]|(h' & r' & Hr' & <- & Ho)].
      + exists h, (bumped 1 r). rewrite Hl, Hr, decide_True by done. simpl. split_and!; [done|done|lia].
      + exists h', (bumped 0 r'). rewrite Hl, Hr', decide_False by (intros ->; simplify_eq; lia). simpl. split_and!; [done|done|lia]. }
  case_decide as Ho; simpl; (split_and!; [done|done|done| |exact Hl]); (split; [|intros x; etrans; [|symmetry; apply Hsem]]).
  - apply btree_insert_sorted; [|done]. intros x (h' & r' & Hr' & <- & _)%Hb Hid.
    assert (h' = h) as -> by by apply (Hinj h' h r' r). congruence.
  - rewrite btree_insert_elem; [naive_solver|]. intros y (h' & r' & Hr' & <- & _)%Hb Hid.
    assert (h' = h) as -> by by apply (Hinj h' h r' r). congruence.
  - done.
  - naive_solver.
Qed.

(** The loop on the transactions that a pruned one unlocks. *)
Lemma unlock_all_spec us s : told_apart_in (index (ready s)) -> best_ok (best s) (index (ready s)) ->
  (forall h r, index (ready s) !! h = Some r -> requires_offset r + times h us <= length (requires (tx_of r))) ->
  let s' := foldl (fun s h => unlock h s) s us in
  insertion_id s' = insertion_id s /\ provided_tags s' = provided_tags s /\
  (counted (ready s) -> counted (ready s')) /\ best_ok (best s') (index (ready s')) /\
  forall h', index (ready s') !! h' = bumped (times h' us) <$> index (ready s) !! h'.
Proof.
  revert s. induction us as [|h us IH]; intros s Hinj Hb Hle; simpl.
  { split_and!; [done..|]. intros h'. destruct (_ !! h'); [simpl; by rewrite bump_zero|done]. }
  destruct (unlock_spec h s Hinj Hb) as (Hid & Hpt & Hc & Hb1 & Hl).
  { intros r Hr. specialize (Hle h r Hr). rewrite times_cons, decide_True in Hle by done. lia. }
  destruct (IH (unlock h s)) as (Hid' & Hpt' & Hc' & Hb' & Hl').
  - intros h1 h2 r1 r2. rewrite !Hl. intros (r3 & H3 & ->)%fmap_Some (r4 & H4 & ->)%fmap_Some. by apply (Hinj _ _ r3 r4).
  - done.
  - intros h1 r1. rewrite Hl. intros (r3 & H3 & ->)%fmap_Some. specialize (Hle h1 r3 H3). rewrite times_cons in Hle.
    simpl. case_decide; simpl; lia.
  - split_and!; [congruence|congruence|auto|done|]. intros h'. rewrite Hl', Hl, <-option_fmap_compose.
    destruct (index (ready s) !! h') as [r|]; [|done]. simpl. f_equal. unfold bumped. simpl. f_equal. rewrite times_cons. lia.
Qed.

(** ** The tags *)

Lemma clear_tags_spec (tag : Tag) h tags s : NoDup tags ->
  (forall t, t ∈ tags -> provided_tags s !! t = if decide (tag = t) then None else Some h) ->
  for_each (clear_tag tag h) tags s =
    (set_provided_tags (foldl (fun p t => delete t p) (provided_tags s) tags) s, Ok tt).
Proof.
  revert s. induction tags as [|t tags IH]; intros s Hnd Hall; simpl; [by destruct s|].
  apply NoDup_cons in Hnd as [Hnot Hnd].
  assert (clear_tag tag h t s = (set_provided_tags (delete t (provided_tags s)) s, Ok tt)) as Hc.
  { unfold clear_tag. rewrite bindM_get, bindM_put. rewrite bool_decide_eq_true_2; [done|]. apply Hall. by left. }
  rewrite (bindM_ok _ _ _ _ _ Hc), IH; [done|done|]. intros t' Ht'. simpl.
  rewrite lookup_delete_ne by (by intros ->). apply Hall. by right.
Qed.

(** ** One round *)

(** The transactions that waited for a pruned one count it. *)
Lemma bumped_graph us m m' : graph_ok U (fun h => h ∈ us) m -> (forall h, m' !! h = bumped (times h us) <$> m !! h) ->
  (forall h r, m !! h = Some r -> requires_offset r + times h us + links h m = length (requires (tx_of r))) ->
  graph_ok U (fun _ => False) m'.
Proof.
  intros Hg Hl Hoff. assert (forall h, links h m' = links h m) as Hlk.
  { intros h. apply total_ext. intros h1. rewrite Hl. by destruct (m !! h1). }
  split; intros h1; [intros r1|intros r1|intros h2 r1 r2|intros r1|intros r1 h2]; rewrite ?Hl, ?Hlk.
  - intros (r3 & Hr3 & ->)%fmap_Some. simpl. by apply (go_key _ _ _ Hg).
  - intros (r3 & Hr3 & ->)%fmap_Some. simpl. by apply (go_known _ _ _ Hg h1).
  - intros (r3 & Hr3 & ->)%fmap_Some (r4 & Hr4 & ->)%fmap_Some. simpl. by apply (go_inj _ _ _ Hg h1 h2 r3 r4).
  - intros (r3 & Hr3 & ->)%fmap_Some _. simpl. by apply Hoff.
  - intros (r3 & Hr3 & ->)%fmap_Some Hin. destruct (go_edges _ _ _ Hg h1 r3 h2 Hr3 Hin) as (r4 & Hr4 & Hle).
    rewrite Hr4. eexists. by split.
Qed.

Lemma prune_entry_ok s t h r s1 s2 :
  ready_ok U s -> index (ready s) !! h = Some r -> t ∈ provides (tx_of r) ->
  s1 = set_best (btree_remove cmp_ref (tx_ref r) (best s))
         (set_ready (tm_remove h (ready s)).1 (set_provided_tags (delete t (provided_tags s)) s)) ->
  s2 = foldl (fun s h => unlock h s) (unlink h (requires (tx_of r)) s1) (unlocks r) ->
  exists s', for_each (clear_tag t h) (provides (tx_of r)) s2 = (s', Ok tt) /\ ready_ok U s' /\
    insertion_id s' = insertion_id s /\ dropped h (index (ready s)) (index (ready s')).
Proof.
  intros [Hg Ht Hb Hi Hc] Hr Htr -> ->. set (s1 := set_best _ _).
  destruct (unlink_spec h (requires (tx_of r)) s1) as (Hid & Hpt & Hbu & Hcu & _).
  assert (detached h (index (ready s)) (index (ready (unlink h (requires (tx_of r)) s1)))) as Hd.
  { eapply (unlink_detached U _ _ h r s1); [done|done|apply tm_remove_index| |done].
    intros h' r' t' Hr' Hne Hin. simpl. rewrite lookup_delete_ne; [apply Ht; by exists r'|].
    intros ->. apply Hne. assert (provided_tags s !! t' = Some h') as H1 by (apply Ht; by exists r').
    assert (provided_tags s !! t' = Some h) as H2 by (apply Ht; by exists r). congruence. }
  set (s2 := unlink _ _ _) in *. set (m2 := index (ready s2)) in *.
  assert (graph_ok U (fun h' => h' ∈ unlocks r) m2) as Hg2 by (eapply detached_graph; [done..|naive_solver]).
  assert (forall h' r', m2 !! h' = Some r' ->
    requires_offset r' + times h' (unlocks r) + links h' m2 = length (requires (tx_of r'))) as Hoff.
  { intros h' r' (Hne & r0 & Hr0 & Hx & Ho & _)%(dt_from _ _ _ Hd). rewrite Hx, Ho.
    rewrite <-(go_links _ _ _ Hg h' r0 Hr0) by naive_solver.
    rewrite (detached_links U _ h _ _ r h' Hg Hr Hd Hne). lia. }
  destruct (unlock_all_spec (unlocks r) s2) as (Hid3 & Hpt3 & Hc3 & Hb3 & Hl3).
  { intros h1 h2 r1 r2. apply (go_inj _ _ _ Hg2). }
  { rewrite Hbu. exact (detached_best U _ _ _ _ _ _ Hg Hr Hd Hb). }
  { intros h' r' Hr'. specialize (Hoff h' r' Hr'). lia. }
  set (s3 := foldl _ _ _) in *. simpl in Hpt.
  eexists. split; [apply clear_tags_spec|].
  { by eapply (slots_nodup (U := U)), (go_known _ _ _ Hg h). }
  { intros t' Ht'. rewrite Hpt3, Hpt, lookup_delete. case_decide; [done|]. apply Ht. by exists r. }
  split_and!; [|simpl; by rewrite Hid3, Hid|].
  2: { simpl. split.
       - intros h'. rewrite Hl3, fmap_None. apply (detached_none _ _ _ Hd).
       - intros h' r'. rewrite Hl3. intros (r1 & (_ & r0 & Hr0 & Hx & _ & Hu)%(dt_from _ _ _ Hd) & ->)%fmap_Some. by exists r0. }
  split; simpl.
  - by apply (bumped_graph (unlocks r) m2).
  - assert (tags_ok (foldl (fun p t => delete t p) (provided_tags s3) (provides (tx_of r))) m2) as Ht2.
    { eapply (detached_tags h _ m2 r); [done..|]. intros t'. rewrite delete_tags_lookup, Hpt3, Hpt. case_decide as Hin; [done|].
         rewrite lookup_delete_ne; [done|]. by intros ->. }
    intros t' h'. rewrite (Ht2 t' h'), Hl3. fold m2. split.
    + intros (r1 & -> & Hin). eexists. by split.
    + intros (r1 & (r3 & -> & ->)%fmap_Some & Hin). by exists r3.
  - done.
  - intros h1 r1. rewrite Hl3. intros (r3 & (_ & r0 & Hr0 & Hx & _)%(dt_from _ _ _ Hd) & ->)%fmap_Some.
    simpl. rewrite Hid3, Hid, Hx. by eapply Hi.
  - apply Hc3, Hcu. by eapply tm_remove_counted.
Qed.

Lemma prune_round_ok s t h to_remove removed :
  ready_ok U s -> provided_tags s !! t = Some h ->
  exists r more s', index (ready s) !! h = Some r /\
    prune_round (to_remove ++ [t], removed) s = (s', Ok (Continue (to_remove ++ more, removed ++ [tx_of r]))) /\
    ready_ok U s' /\ insertion_id s' = insertion_id s /\ dropped h (index (ready s)) (index (ready s')) /\
    length more <= length (requires (tx_of r)) * tags_of (index (ready s)) /\
    forall t', t' ∈ more -> exists h' r', index (ready s) !! h' = Some r' /\ t' ∈ provides (tx_of r') /\
      before (index (ready s)) h' h.
Proof.
  intros Hok Hh. pose proof Hh as (r & Hr & Htr)%(ro_tags _ _ _ Hok).
  pose proof (go_key _ _ _ (ro_graph _ _ _ Hok) h r Hr) as Hkey.
  set (s1 := set_best (btree_remove cmp_ref (tx_ref r) (best s))
         (set_ready (tm_remove h (ready s)).1 (set_provided_tags (delete t (provided_tags s)) s))).
  pose proof (prune_previous_spec h (requires (tx_of r)) s1 to_remove) as Hprev.
  destruct (prune_previous h (requires (tx_of r)) s1 to_remove) as [s2 w] eqn:Hpp.
  destruct Hprev as (-> & more & -> & Hlen & Hmore).
  destruct (prune_entry_ok s t h r s1 _ Hok Hr Htr eq_refl eq_refl) as (s' & Hclear & Hok' & Hid & Hdr).
  exists r, more, s'. split_and!; try done.
  - unfold prune_round. rewrite pop_snoc, bindM_get, Hh.
    change (best (set_provided_tags (delete t (provided_tags s)) s)) with (best s).
    change (ready (set_provided_tags (delete t (provided_tags s)) s)) with (ready s).
    rewrite (surjective_pairing (tm_remove h (ready s))), (tm_remove_old _ h r Hr), Hkey. fold s1.
    rewrite Hpp, bindM_put. by rewrite (bindM_ok _ _ _ _ _ Hclear).
  - etrans; [exact Hlen|]. apply Nat.mul_le_mono_l. unfold s1. simpl. rewrite tm_remove_index. apply total_le.
    intros h1 r1 [_ Hr1]%lookup_delete_Some. by exists r1.
  - intros t' Ht'. destruct (Hmore t' Ht') as (t1 & h' & r' & Ht1 & Hh' & Hr' & Hin). unfold s1 in Hh', Hr'. simpl in Hh', Hr'.
    rewrite tm_remove_index in Hr'. apply lookup_delete_Some in Hr' as [Hne Hr'].
    apply lookup_delete_Some in Hh' as [_ Hh']. exists h', r'. split_and!; [done|done|].
    apply (ro_tags _ _ _ Hok) in Hh' as (r2 & Hr2 & Ht2). exists r', r, t1.
    split_and!; [done|done|congruence|done].
Qed.

(** ** The operation *)

Record tag_pruned (tag : Tag) s s' (removed : list tx_t) : Prop := {
  tp_kept : survives (index (ready s)) (index (ready s'));
  tp_removed : taken_out (index (ready s)) (index (ready s')) removed;
  tp_tag : provided_tags s' !! tag = None;
  tp_before : forall h, is_Some (index (ready s) !! h) -> index (ready s') !! h = None ->
    exists h0, provided_tags s !! tag = Some h0 /\ rtc (before (index (ready s))) h h0
}.

(** What holds in the loop, with [s0] the queue at its start. *)
Record pruning (tag : Tag) s0 (to_remove : list Tag) (removed : list tx_t) s : Prop := {
  pg_ok : ready_ok U s;
  pg_id : insertion_id s = insertion_id s0;
  pg_kept : survives (index (ready s0)) (index (ready s));
  pg_removed : taken_out (index (ready s0)) (index (ready s)) removed;
  pg_tag : tag ∈ to_remove \/ provided_tags s !! tag = None;
  pg_list : forall t h, t ∈ to_remove -> provided_tags s0 !! t = Some h ->
    exists h0, provided_tags s0 !! tag = Some h0 /\ rtc (before (index (ready s0))) h h0;
  pg_before : forall h, is_Some (index (ready s0) !! h) -> index (ready s) !! h = None ->
    exists h0, provided_tags s0 !! tag = Some h0 /\ rtc (before (index (ready s0))) h h0
}.

Lemma among_tags s0 s t h : ready_ok U s0 -> ready_ok U s -> among (index (ready s0)) (index (ready s)) ->
  provided_tags s !! t = Some h -> provided_tags s0 !! t = Some h.
Proof.
  intros H0 Hs Ha (r & Hr & Ht)%(ro_tags _ _ _ Hs). apply Ha in Hr as (r0 & Hr0 & Hx).
  apply (ro_tags _ _ _ H0). exists r0. by rewrite <-Hx.
Qed.

Lemma pruning_step tag s0 to_remove removed s t h r more s' :
  ready_ok U s0 -> pruning tag s0 (to_remove ++ [t]) removed s -> provided_tags s !! t = Some h ->
  index (ready s) !! h = Some r -> ready_ok U s' -> insertion_id s' = insertion_id s ->
  dropped h (index (ready s)) (index (ready s')) ->
  (forall t', t' ∈ more -> exists h' r', index (ready s) !! h' = Some r' /\ t' ∈ provides (tx_of r') /\
      before (index (ready s)) h' h) ->
  pruning tag s0 (to_remove ++ more) (removed ++ [tx_of r]) s'.
Proof.
  intros H0 [Hok Hid Hk Hr Ht Hl Hb] Hh Hrh Hok' Hid' Hd Hmore.
  pose proof (survives_among _ _ Hk) as Ha.
  pose proof (survives_dropped _ _ _ _ Hk Hd) as Hk'.
  destruct (Hl t h) as (h0 & Hh0 & Hpath); [set_solver|exact (among_tags s0 s t h H0 Hok Ha Hh)|].
  split.
  - done.
  - congruence.
  - done.
  - eapply taken_out_step; [apply (go_key _ _ _ (ro_graph _ _ _ H0))|done..|apply Hd|done].
  - destruct (provided_tags s' !! tag) as [h1|] eqn:Htag; [left|by right].
    destruct Ht as [Ht|Ht].
    + apply elem_of_app in Ht as [Ht| ->%list_elem_of_singleton]; [set_solver|]. exfalso.
      pose proof Htag as (r1 & Hr1 & _)%(ro_tags _ _ _ Hok').
      assert (among (index (ready s)) (index (ready s'))) as Ha' by (intros h2 r2 (r3 & ? & ? & _)%(dr_from _ _ _ Hd); eauto).
      apply (among_tags s s' t h1 Hok Hok' Ha') in Htag. simplify_eq.
      assert (index (ready s') !! h = None) by (apply (dr_gone _ _ _ Hd); by left). congruence.
    + exfalso. assert (among (index (ready s)) (index (ready s'))) as Ha' by (intros h2 r2 (r3 & ? & ? & _)%(dr_from _ _ _ Hd); eauto).
      apply (among_tags s s' tag h1 Hok Hok' Ha') in Htag. congruence.
  - intros t' h' [Ht'|Ht']%elem_of_app Hh'; [apply (Hl t'); [set_solver|done]|].
    destruct (Hmore t' Ht') as (h1 & r1 & Hr1 & Hin & r2 & r3 & t2 & Hr2 & Hr3 & Hp & Hq). exists h0. split; [done|].
    assert (provided_tags s0 !! t' = Some h1) as Ht1.
    { apply (among_tags s0 s t' h1 H0 Hok Ha). apply (ro_tags _ _ _ Hok). by exists r1. }
    assert (h1 = h') as -> by congruence. eapply rtc_l; [|done].
    apply Ha in Hr2 as (r2' & Hr2' & Hx2). apply Ha in Hr3 as (r3' & Hr3' & Hx3).
    exists r2', r3', t2. rewrite <-Hx2, <-Hx3. done.
  - intros h1 Hh1 [->|Hn]%(dr_gone _ _ _ Hd); [by exists h0|auto].
Qed.

Lemma pruning_skip tag s0 to_remove removed s t :
  pruning tag s0 (to_remove ++ [t]) removed s -> provided_tags s !! t = None ->
  pruning tag s0 to_remove removed s.
Proof.
  intros [Hok Hid Hk Hr Ht Hl Hb] Hn. split; [done..| | |done].
  - destruct Ht as [[Ht| ->%list_elem_of_singleton]%elem_of_app|Ht]; auto.
  - intros t' h Ht'. apply Hl. set_solver.
Qed.

(** [prune_tags] returns, without a failed assertion. The transaction that provides the tag is
    removed, and only transactions before it. *)
Lemma ready_prune_tags_ok s tag : ready_ok U s ->
  postM (ready_prune_tags tag) s
    (fun removed s' => ready_ok U s' /\ insertion_id s' = insertion_id s /\ tag_pruned tag s s' removed)
    (fun _ _ => False).
Proof.
  intros Hok. unfold ready_prune_tags. rewrite postM_get.
  set (Rs := fun m => total (fun r => length (requires (tx_of r))) m).
  fold (tags_of (index (ready s))).
  refine (loopM_post _ (fun '(to_remove, removed) s' => pruning tag s to_remove removed s')
    (fun '(to_remove, _) s' => length to_remove + Rs (index (ready s')) * tags_of (index (ready s)))
    _ _ _ _ ([tag], []) s _ _).
  - intros [to_remove removed] s' Hpg. destruct (pop_cases to_remove) as [[-> Hpop]|(l & t & -> & Hpop)].
    { unfold prune_round. rewrite Hpop. unfold postM. simpl. destruct Hpg as [Hok' Hid Hk Hr Ht Hl Hb].
      split_and!; [done..|]. split; [done..| |done]. by destruct Ht as [?%elem_of_nil|]. }
    destruct (provided_tags s' !! t) as [h|] eqn:Hh.
    2: { unfold prune_round. rewrite Hpop, postM_get, Hh. unfold postM. simpl. rewrite length_app. simpl.
         split; [by eapply pruning_skip|lia]. }
    destruct (prune_round_ok s' t h l removed (pg_ok _ _ _ _ _ Hpg) Hh)
      as (r & more & s'' & Hr & Hround & Hok'' & Hid & Hd & Hlen & Hmore).
    unfold postM. rewrite Hround. split; [by eapply pruning_step|]. rewrite !length_app. simpl.
    assert (Rs (index (ready s'')) + length (requires (tx_of r)) <= Rs (index (ready s'))) as HR.
    { unfold Rs. rewrite (total_delete _ (index (ready s')) h r Hr), Nat.add_comm. apply Nat.add_le_mono_l, total_le.
      intros h1 r1 Hr1. pose proof Hr1 as (r2 & Hr2 & Hx & _)%(dr_from _ _ _ Hd). exists r2. rewrite Hx. split; [|done].
      apply lookup_delete_Some. split; [|done]. intros <-.
      assert (index (ready s'') !! h = None) by (apply (dr_gone _ _ _ Hd); by left). congruence. }
    assert (tags_of (index (ready s')) <= tags_of (index (ready s))) as HT.
    { apply total_le. intros h1 r1 (r2 & Hr2 & Hx)%(survives_among _ _ (pg_kept _ _ _ _ _ Hpg)). exists r2. by rewrite Hx. }
    nia.
  - split; [done|done|by apply (survives_refl U)|apply taken_out_refl|left; by left| |].
    + intros t h ->%list_elem_of_singleton Hh. by exists h.
    + intros h [r Hr] Hn. congruence.
  - simpl. fold Rs. unfold Rs. lia.
Qed.
End prune.
