(* ===== verification/PoolBest.v ===== *)
(** * The transaction pool: the order of the ready transactions

    What the iterator over the ready queue yields: every transaction after the ones that
    unlock it, always the best of those that can come next, and none that depends on a
    transaction that was reported invalid. *)

From S2P Require Import Prelude PoolTypes PoolFuture PoolReady PoolGraph PoolRemove.

Section iterator.
Context {Hash Ex : Type} `{Countable Hash}.
Context (U : Transaction Hash Ex -> Prop) `{!Slots U}.
Notation entry := (ReadyTx Hash Ex).
Notation tx_t := (Transaction Hash Ex).
Notation iter_t := (BestIterator Hash Ex).
Context (m : gmap Hash entry) (Hgraph : graph_ok U (fun _ => False) m).
Implicit Types (r : entry) (b : iter_t) (rest : gmap Hash entry) (rel gone : list Hash).

(** The requirements of an entry that are met once the links [rel] are released. *)
Definition met (r : entry) (h : Hash) rel : nat := requires_offset r + times h rel.
Definition wanted_by (r : entry) : nat := length (requires (tx_of r)).

(** What is tracked: [rest] are the entries that have not been returned, [rel] the released links
    of the others, [todo] those still to release, and [gone] what has left [bi_best]. *)
Record releasing rest rel (todo : list Hash) gone b : Prop := {
  rl_all : bi_all b = m;
  rl_count : forall h, times h rel + times h todo + links h rest = links h m;
  rl_gone : forall h r, h ∈ gone -> m !! h = Some r -> met r h rel = wanted_by r;
  rl_awaiting : forall h, bi_awaiting b !! h =
    r ← m !! h; if decide (0 < times h rel /\ met r h rel < wanted_by r)
                then Some (met r h rel, tx_ref r) else None;
  rl_sorted : StronglySorted ref_lt (bi_best b);
  rl_best : forall x, x ∈ bi_best b <->
    exists h r, m !! h = Some r /\ tx_ref r = x /\ h ∉ gone /\ met r h rel = wanted_by r
}.

(** The state of the iterator between two calls. *)
Record iter_inv rest rel gone b : Prop := {
  ii_rel : releasing rest rel [] gone b;
  ii_rest : forall h r, rest !! h = Some r -> m !! h = Some r;
  ii_done : forall h, is_Some (m !! h) -> rest !! h = None -> h ∈ gone;
  ii_skipped : forall h, h ∈ gone -> rest !! h = None \/ h ∈ bi_invalid b
}.

Lemma releasing_bound rest rel todo gone b h r : releasing rest rel todo gone b -> m !! h = Some r ->
  met r h rel + times h todo + links h rest = wanted_by r.
Proof.
  intros Hi Hr. unfold met, wanted_by. rewrite <-(go_links _ _ _ Hgraph h r Hr) by naive_solver.
  rewrite <-(rl_count _ _ _ _ _ Hi h). lia.
Qed.

Lemma best_apart rest rel todo gone b h r :
  releasing rest rel todo gone b -> m !! h = Some r -> told_apart (tx_ref r) (bi_best b).
Proof.
  intros Hi Hr x (h' & r' & Hr' & <- & _)%(rl_best _ _ _ _ _ Hi) Hid.
  assert (h' = h) as -> by by apply (go_inj _ _ _ Hgraph h' h r' r). congruence.
Qed.

(** ** Releasing a link *)

Lemma times_snoc {A} `{EqDecision A} (x y : A) l : times x (l ++ [y]) = times x l + if decide (y = x) then 1 else 0.
Proof. rewrite times_app, times_cons. cbn. lia. Qed.

(** What [release_one] does to an entry of the queue. *)
Lemma release_one_eq rest rel todo gone b h r :
  releasing rest rel (h :: todo) gone b -> m !! h = Some r ->
  release_one b h =
    best_or_awaiting (S (met r h rel)) (tx_ref r)
      (mkBestIterator m (delete h (bi_awaiting b)) (bi_best b) (bi_invalid b)).
Proof.
  intros Hi Hr. pose proof (releasing_bound _ _ _ _ _ _ _ Hi Hr) as Hb. rewrite times_cons, decide_True in Hb by done.
  unfold release_one. rewrite (rl_awaiting _ _ _ _ _ Hi h), (rl_all _ _ _ _ _ Hi), Hr. cbn [mbind option_bind].
  destruct (decide _) as [Hd|Hd]; [done|].
  assert (times h rel = 0) as Hz by lia. unfold met in *. rewrite Hz, Nat.add_0_r.
  rewrite delete_id; [by destruct b; destruct Hi; simplify_eq/=|].
  rewrite (rl_awaiting _ _ _ _ _ Hi h), Hr. cbn [mbind option_bind]. rewrite decide_False; [done|]. unfold met. lia.
Qed.

Lemma release_link_ok rest rel todo gone b h r :
  releasing rest rel (h :: todo) gone b -> m !! h = Some r ->
  releasing rest (rel ++ [h]) todo gone (release_one b h) /\ bi_invalid (release_one b h) = bi_invalid b.
Proof.
  intros Hi Hr. pose proof (releasing_bound _ _ _ _ _ _ _ Hi Hr) as Hb. rewrite times_cons, decide_True in Hb by done.
  assert (h ∉ gone) as Hng by (intros Hg; pose proof (rl_gone _ _ _ _ _ Hi h r Hg Hr); lia).
  assert (hash (ref_transaction (tx_ref r)) = h) as Hkey by by apply (go_key _ _ _ Hgraph).
  assert (forall h', h' <> h -> times h' (rel ++ [h]) = times h' rel) as Hne
    by (intros h' ?; rewrite times_snoc, decide_False by done; lia).
  assert (times h (rel ++ [h]) = S (times h rel)) as Heq by (rewrite times_snoc, decide_True by done; lia).
  rewrite (release_one_eq _ _ _ _ _ _ _ Hi Hr). unfold best_or_awaiting. simpl. fold (wanted_by r).
  split; [|by case_match].
  assert (forall h', times h' (rel ++ [h]) + times h' todo + links h' rest = links h' m) as Hcount.
  { intros h'. pose proof (rl_count _ _ _ _ _ Hi h') as Hc. rewrite times_cons in Hc. rewrite times_snoc. case_decide; lia. }
  assert (forall h' r', h' ∈ gone -> m !! h' = Some r' -> met r' h' (rel ++ [h]) = wanted_by r') as Hgone.
  { intros h' r' Hg Hr'. unfold met. rewrite Hne by (by intros ->). by apply (rl_gone _ _ _ _ _ Hi). }
  assert (met r h (rel ++ [h]) = S (met r h rel)) as Hmet by (unfold met; lia).
  assert (forall h', h' <> h -> bi_awaiting b !! h' =
    r ← m !! h'; if decide (0 < times h' (rel ++ [h]) /\ met r h' (rel ++ [h]) < wanted_by r)
                 then Some (met r h' (rel ++ [h]), tx_ref r) else None) as Haw.
  { intros h' Hn. rewrite (rl_awaiting _ _ _ _ _ Hi h'). destruct (m !! h'); [|done]. cbn. unfold met. by rewrite Hne. }
  assert (forall x, (exists h' r', m !! h' = Some r' /\ tx_ref r' = x /\ h' ∉ gone /\ met r' h' (rel ++ [h]) = wanted_by r') <->
    (x = tx_ref r /\ S (met r h rel) = wanted_by r) \/ x ∈ bi_best b) as Hbest.
  { intros x. rewrite (rl_best _ _ _ _ _ Hi). split.
    - intros (h' & r' & Hr' & <- & Hg' & Hm'). destruct (decide (h' = h)) as [->|Hn]; [left; simplify_eq; split; [done|lia]|].
      right. exists h', r'. unfold met in *. by rewrite Hne in Hm'.
    - intros [[-> Hm']|(h' & r' & Hr' & <- & Hg' & Hm')]; [exists h, r; split_and!; [done..|lia]|].
      exists h', r'. split_and!; [done..|]. unfold met in *. rewrite Hne; [done|]. intros ->. simplify_eq. lia. }
  destruct (wanted_by r <=? S (met r h rel)) eqn:Hw.
  - apply Nat.leb_le in Hw. split; simpl; try done.
    + intros h'. destruct (decide (h' = h)) as [->|Hn]; [|by rewrite lookup_delete_ne, Haw].
      rewrite lookup_delete_eq, Hr. cbn [mbind option_bind]. rewrite decide_False; [done|lia].
    + apply btree_insert_sorted; [by eapply best_apart|apply Hi].
    + intros x. rewrite Hbest, btree_insert_elem by by eapply best_apart. naive_solver lia.
  - apply Nat.leb_gt in Hw. split; simpl; try done.
    + intros h'. rewrite Hkey. destruct (decide (h' = h)) as [->|Hn].
      * rewrite lookup_insert_eq, Hr. cbn [mbind option_bind]. rewrite decide_True by lia. by rewrite Hmet.
      * by rewrite lookup_insert_ne, lookup_delete_ne, Haw.
    + apply Hi.
    + intros x. rewrite Hbest. naive_solver lia.
Qed.

Lemma release_all rest rel todo gone b :
  (forall h, h ∈ todo -> is_Some (m !! h)) ->
  releasing rest rel todo gone b ->
  releasing rest (rel ++ todo) [] gone (foldl release_one b todo) /\
  bi_invalid (foldl release_one b todo) = bi_invalid b.
Proof.
  revert rel b. induction todo as [|h todo IH]; intros rel b Hin Hi; simpl; [by rewrite app_nil_r|].
  destruct (Hin h) as [r Hr]; [by left|]. destruct (release_link_ok _ _ _ _ _ _ _ Hi Hr) as [Hi' Hinv].
  destruct (IH (rel ++ [h]) (release_one b h)) as [Hi'' Hinv'']; [intros h' ?; apply Hin; by right|done|].
  rewrite <-app_assoc in Hi''. split; [done|congruence].
Qed.

(** ** The next transaction *)

(** What can be returned, and what is returned then. *)
Definition available rel gone b (h : Hash) r : Prop :=
  m !! h = Some r /\ h ∉ gone /\ h ∉ bi_invalid b /\ met r h rel = wanted_by r.

Definition next_ok rest rel gone b (o : option tx_t) b' : Prop :=
  bi_invalid b' = bi_invalid b /\
  match o with
  | None => exists gone', iter_inv rest rel gone' b' /\ (forall h, h ∈ gone -> h ∈ gone') /\ bi_best b' = [] /\
      (forall h r, ~ available rel gone b h r)
  | Some tx => exists r gone', rest !! hash tx = Some r /\ tx_of r = tx /\ available rel gone b (hash tx) r /\
      (forall h' r', available rel gone b h' r' -> h' <> hash tx -> ref_lt (tx_ref r') (tx_ref r)) /\
      iter_inv (delete (hash tx) rest) (rel ++ unlocks r) gone' b' /\ (forall h, h ∈ gone -> h ∈ gone')
  end.

Lemma sorted_last_lt (l : list (TransactionRef Hash Ex)) x y :
  StronglySorted ref_lt (l ++ [x]) -> y ∈ l -> ref_lt y x.
Proof.
  induction l as [|z l IH]; intros Hs Hy; [by apply elem_of_nil in Hy|].
  change ((z :: l) ++ [x]) with (z :: (l ++ [x])) in Hs. apply sorted_cons in Hs as [Hs Hlt].
  apply elem_of_cons in Hy as [->|Hy]; [apply Hlt; set_solver|auto].
Qed.

Lemma sorted_front (l : list (TransactionRef Hash Ex)) x : StronglySorted ref_lt (l ++ [x]) -> StronglySorted ref_lt l.
Proof.
  induction l as [|z l IH]; intros Hs; [constructor|].
  change ((z :: l) ++ [x]) with (z :: (l ++ [x])) in Hs. apply sorted_cons in Hs as [Hs Hlt].
  apply sorted_cons. split; [auto|]. intros y Hy. apply Hlt. set_solver.
Qed.

(** The best transaction leaves [bi_best]. *)
Lemma take_best rest rel gone b l x : releasing rest rel [] gone b -> bi_best b = l ++ [x] ->
  exists h r, m !! h = Some r /\ tx_ref r = x /\ h ∉ gone /\ met r h rel = wanted_by r /\
    releasing rest rel [] (h :: gone) (mkBestIterator (bi_all b) (bi_awaiting b) l (bi_invalid b)).
Proof.
  intros Hi Hb. pose proof (rl_sorted _ _ _ _ _ Hi) as Hs. rewrite Hb in Hs.
  destruct (proj1 (rl_best _ _ _ _ _ Hi x)) as (h & r & Hr & Hx & Hg & Hm); [rewrite Hb; set_solver|].
  exists h, r. split_and!; [done..|]. split; simpl; try apply Hi.
  - intros h' r' [->|Hg']%elem_of_cons Hr'; [congruence|by apply (rl_gone _ _ _ _ _ Hi)].
  - by eapply sorted_front.
  - intros y. split.
    + intros Hy. destruct (proj1 (rl_best _ _ _ _ _ Hi y)) as (h' & r' & Hr' & Hy' & Hg' & Hm'); [rewrite Hb; set_solver|].
      exists h', r'. split_and!; [done..| |done]. intros [->|?]%elem_of_cons; [|done]. simplify_eq.
      by apply (ref_lt_irrefl (tx_ref r)), (sorted_last_lt l).
    + intros (h' & r' & Hr' & <- & Hg' & Hm'). assert (tx_ref r' ∈ bi_best b) as Hin.
      { apply (rl_best _ _ _ _ _ Hi). exists h', r'. set_solver. }
      rewrite Hb in Hin. apply elem_of_app in Hin as [?|Heq%list_elem_of_singleton]; [done|]. exfalso. apply Hg'.
      assert (h' = h) as ->; [|by left]. apply (go_inj _ _ _ Hgraph h' h r' r); [done..|]. by rewrite Heq, Hx.
Qed.

Lemma next_round_spec rest rel gone b : iter_inv rest rel gone b ->
  match next_round b with
  | (b', Break o) => next_ok rest rel gone b o b'
  | (b', Continue _) => exists h, h ∈ bi_invalid b /\ iter_inv rest rel (h :: gone) b' /\
      bi_invalid b' = bi_invalid b /\ length (bi_best b) = S (length (bi_best b'))
  end.
Proof.
  intros Hi. pose proof (ii_rel _ _ _ _ Hi) as Hrel. unfold next_round.
  destruct (pop_cases (bi_best b)) as [[Hb _]|(l & x & Hb & _)]; rewrite Hb.
  { simpl. split; [done|]. exists gone. split_and!; [done|done|done|]. intros h r (Hr & Hg & _ & Hm).
    assert (tx_ref r ∈ bi_best b) as Hin by (apply (rl_best _ _ _ _ _ Hrel); by exists h, r).
    rewrite Hb in Hin. by apply elem_of_nil in Hin. }
  pose proof (rl_sorted _ _ _ _ _ Hrel) as Hs. rewrite Hb in Hs.
  destruct (btree_take_last l x Hs) as [Htake Hremove]. rewrite last_snoc, Htake, Hremove.
  destruct (take_best _ _ _ _ _ _ Hrel Hb) as (h & r & Hr & Hx & Hg & Hm & Hrel').
  assert (hash (ref_transaction x) = h) as Hh by (rewrite <-Hx; by apply (go_key _ _ _ Hgraph)).
  set (b1 := mkBestIterator _ _ _ _) in *. cbn [bi_invalid bi_all].
  rewrite Hh. destruct (decide (h ∈ bi_invalid b1)) as [Hinv|Hinv].
  { exists h. split_and!; [done| |done|rewrite length_app, Nat.add_1_r; done].
    split; [done|apply Hi|intros h' Hm' Hr'; right; by apply (ii_done _ _ _ _ Hi)|].
    intros h' [->|Hg']%elem_of_cons; [by right|]. by apply (ii_skipped _ _ _ _ Hi). }
  change (bi_all b1) with (bi_all b). rewrite (rl_all _ _ _ _ _ Hrel), Hr.
  assert (rest !! h = Some r) as Hrest.
  { destruct (rest !! h) as [r'|] eqn:Hr'; [apply (ii_rest _ _ _ _ Hi) in Hr'; congruence|].
    exfalso. by apply Hg, (ii_done _ _ _ _ Hi). }
  destruct (release_all (delete h rest) rel (unlocks r) (h :: gone) b1) as [Hrel'' Hinv''].
  { intros h' Hin. destruct (go_edges _ _ _ Hgraph h r h' Hr Hin) as (r' & ? & _). by eexists. }
  { destruct Hrel'. split; try done. intros h'. rewrite <-(rl_count _ _ _ _ _ Hrel h').
    change (times h' []) with 0. unfold links. rewrite (total_delete _ rest h r Hrest). lia. }
  split; [done|]. exists r, (h :: gone). rewrite Hh. split_and!.
  - done.
  - by rewrite <-Hx.
  - by split_and!.
  - intros h' r' (Hr' & Hg' & _ & Hm') Hne. rewrite Hx. apply (sorted_last_lt l); [done|].
    assert (tx_ref r' ∈ bi_best b) as Hin by (apply (rl_best _ _ _ _ _ Hrel); by exists h', r').
    rewrite Hb in Hin. apply elem_of_app in Hin as [?|Heq%list_elem_of_singleton]; [done|].
    exfalso. apply Hne. apply (go_inj _ _ _ Hgraph h' h r' r); [done..|]. by rewrite Heq, Hx.
  - split; [done| | |].
    + intros h' r' [_ Hr']%lookup_delete_Some. by apply (ii_rest _ _ _ _ Hi).
    + intros h' Hm'. rewrite lookup_delete_None. intros [<-|Hn]; [by left|right; by apply (ii_done _ _ _ _ Hi)].
    + rewrite Hinv''. intros h' [->|Hg']%elem_of_cons; [left; apply lookup_delete_eq|].
      rewrite lookup_delete_None. destruct (ii_skipped _ _ _ _ Hi h' Hg'); auto.
  - intros h' ?. by right.
Qed.

(** [next] returns. *)
Lemma next_spec rest rel gone b : iter_inv rest rel gone b ->
  exists b' o, next b = (b', Ok o) /\ next_ok rest rel gone b o b'.
Proof.
  intros Hi. apply (postM_returns (loopM (S (length (bi_best b)))
    (fun _ b => let '(b', c) := next_round b in (b', Ok c)) tt) b (fun o b' => next_ok rest rel gone b o b')).
  refine (loopM_post _ (fun _ b' => bi_invalid b' = bi_invalid b /\ exists gone', iter_inv rest rel gone' b' /\
      (forall h, h ∈ gone -> h ∈ gone') /\ (forall h, h ∈ gone' -> h ∈ gone \/ h ∈ bi_invalid b))
    (fun _ b' => length (bi_best b')) _ _ _ _ tt b _ _).
  - intros _ b1 (Hinv & gone1 & Hi1 & Hsub & Hsup). pose proof (next_round_spec _ _ _ _ Hi1) as Hround. unfold postM.
    assert (forall h r, available rel gone b h r -> available rel gone1 b1 h r) as Hav.
    { intros h r (? & ? & ? & ?). split_and!; try done; [|by rewrite Hinv]. intros [?|?]%Hsup; done. }
    destruct (next_round b1) as [b2 [u|o]].
    + destruct Hround as (h & Hh & Hi2 & Hinv2 & Hlen). split; [|lia]. split; [congruence|].
      exists (h :: gone1). split; [done|]. rewrite Hinv in Hh. set_solver.
    + destruct Hround as [Hinv2 Ho]. split; [congruence|]. destruct o as [tx|].
      * destruct Ho as (r & gone2 & Hr & Hx & Ha & Hbest & Hi2 & Hsub2). exists r, gone2. split_and!; try done.
        -- destruct Ha as (? & ? & ? & ?). split_and!; try done; [auto|by rewrite <-Hinv].
        -- intros h' r' Ha'. by apply Hbest, Hav.
        -- auto.
      * destruct Ho as (gone2 & Hi2 & Hsub2 & Hb & Hno). exists gone2. split_and!; [done|auto|done|].
        intros h r Ha. by apply (Hno h r), Hav.
  - split; [done|]. exists gone. auto.
  - lia.
Qed.

(** ** Sequences of calls *)

Inductive iter_op : Type :=
| Next
| Report (tx : tx_t).

(** The transactions that a sequence of calls returns. *)
Fixpoint iter_run (ops : list iter_op) : M iter_t (Error Hash) (list tx_t) :=
  match ops with
  | [] => ret []
  | Next :: ops =>
      let* o := next in
      let* out := iter_run ops in
      ret (option_list o ++ out)
  | Report tx :: ops =>
      let* _ := modify_state (report_invalid tx) in
      iter_run ops
  end.

(** The links of returned transactions. *)
Definition links_of (out : list tx_t) : list Hash :=
  concat (map (fun tx => default [] (unlocks <$> m !! hash tx)) out).

Lemma links_of_app l k : links_of (l ++ k) = links_of l ++ links_of k.
Proof. unfold links_of. by rewrite map_app, concat_app. Qed.

Lemma report_invalid_spec tx b : bi_all b = m ->
  bi_invalid (report_invalid tx b) = list_to_set (default [] (unlocks <$> m !! hash tx)) ∪ bi_invalid b.
Proof.
  intros Hall. unfold report_invalid. rewrite Hall. destruct (m !! hash tx) as [r|]; simpl; [|set_solver].
  generalize (bi_invalid b). induction (unlocks r) as [|h u IH]; intros i; simpl; [set_solver|]. rewrite IH. set_solver.
Qed.

Lemma report_inv rest rel gone b tx : iter_inv rest rel gone b -> iter_inv rest rel gone (report_invalid tx b).
Proof.
  intros Hi. pose proof (report_invalid_spec tx b (rl_all _ _ _ _ _ (ii_rel _ _ _ _ Hi))) as Hinv.
  destruct Hi as [Hrel Hr Hd Hs]. split; [|done|done|rewrite Hinv; set_solver].
  unfold report_invalid in *. case_match; [|done]. by destruct Hrel.
Qed.

(** What was returned has left [rest]. *)
Record returned rest (out : list tx_t) rest' : Prop := {
  rt_nodup : NoDup (map hash out);
  rt_from : forall tx, tx ∈ out -> exists r, rest !! hash tx = Some r /\ tx_of r = tx;
  rt_rest : forall h, rest' !! h = if decide (h ∈ map hash out) then None else rest !! h
}.

Lemma returned_nil rest : returned rest [] rest.
Proof. split; [constructor|by intros tx ?%elem_of_nil|]. intros h. by rewrite decide_False by apply not_elem_of_nil. Qed.

Lemma returned_cons rest tx r out rest' : rest !! hash tx = Some r -> tx_of r = tx ->
  returned (delete (hash tx) rest) out rest' -> returned rest (tx :: out) rest'.
Proof.
  intros Hr Hx [Hnd Hfrom Hrest]. split.
  - simpl. constructor; [|done]. intros (tx' & Heq & Hin)%list_elem_of_fmap.
    destruct (Hfrom tx' Hin) as (r' & Hr' & _). by rewrite <-Heq, lookup_delete_eq in Hr'.
  - intros tx' [->|Hin]%elem_of_cons; [by exists r|]. destruct (Hfrom tx' Hin) as (r' & [_ Hr']%lookup_delete_Some & ?). by exists r'.
  - intros h. rewrite Hrest. simpl. destruct (decide (h ∈ map hash out)); [by rewrite decide_True by by right|].
    destruct (decide (h = hash tx)) as [->|Hne]; [by rewrite lookup_delete_eq, decide_True by by left|].
    rewrite lookup_delete_ne, decide_False by (done || set_solver). done.
Qed.

(** The state and the output after any sequence of calls. *)
Lemma iter_run_ok ops rest rel gone b : iter_inv rest rel gone b ->
  exists b' out rest' gone', iter_run ops b = (b', Ok out) /\ iter_inv rest' (rel ++ links_of out) gone' b' /\
    returned rest out rest' /\ bi_invalid b ⊆ bi_invalid b'.
Proof.
  revert rest rel gone b. induction ops as [|[|tx] ops IH]; intros rest rel gone b Hi.
  - exists b, [], rest, gone. rewrite app_nil_r. split_and!; [done|done|apply returned_nil|done].
  - destruct (next_spec _ _ _ _ Hi) as (b1 & o & Hn & Hinv & Ho). cbn [iter_run]. rewrite (bindM_ok _ _ _ _ _ Hn).
    destruct o as [tx|].
    + destruct Ho as (r & gone1 & Hr & Hx & Ha & _ & Hi1 & _).
      destruct (IH _ _ _ _ Hi1) as (b' & out & rest' & gone' & Hrun & Hi' & Hret & Hsub).
      rewrite (bindM_ok _ _ _ _ _ Hrun). exists b', (tx :: out), rest', gone'. split_and!; [done| |by eapply returned_cons|set_solver].
      change (tx :: out) with ([tx] ++ out). rewrite links_of_app, app_assoc.
      replace (links_of [tx]) with (unlocks r); [done|]. unfold links_of. simpl.
      by rewrite (ii_rest _ _ _ _ Hi _ _ Hr), app_nil_r.
    + destruct Ho as (gone1 & Hi1 & _). destruct (IH _ _ _ _ Hi1) as (b' & out & rest' & gone' & Hrun & Hi' & Hret & Hsub).
      rewrite (bindM_ok _ _ _ _ _ Hrun). exists b', out, rest', gone'. split_and!; [done..|set_solver].
  - cbn [iter_run]. rewrite bindM_modify. destruct (IH _ _ _ _ (report_inv _ _ _ _ tx Hi)) as (b' & out & rest' & gone' & Hrun & Hi' & Hret & Hsub).
    exists b', out, rest', gone'. split_and!; [done..|].
    rewrite (report_invalid_spec tx b (rl_all _ _ _ _ _ (ii_rel _ _ _ _ Hi))) in Hsub. set_solver.
Qed.

(** ** What is not returned *)

(** A link from an entry that has not been returned keeps a transaction back. *)
Lemma link_blocks rest rel gone b h h' r : iter_inv rest rel gone b -> rest !! h = Some r -> h' ∈ unlocks r ->
  exists r', rest !! h' = Some r' /\ met r' h' rel < wanted_by r'.
Proof.
  intros Hi Hr Hin. pose proof (ii_rel _ _ _ _ Hi) as Hrel.
  destruct (go_edges _ _ _ Hgraph h r h' (ii_rest _ _ _ _ Hi _ _ Hr) Hin) as (r' & Hr' & _).
  assert (met r' h' rel < wanted_by r') as Hlt.
  { pose proof (releasing_bound _ _ _ _ _ _ _ Hrel Hr') as Hb. apply times_pos in Hin.
    apply (total_lookup (fun r => times h' (unlocks r))) in Hr. unfold links in Hb. simpl in Hr. lia. }
  exists r'. split; [|done]. destruct (rest !! h') as [r1|] eqn:Hr1.
  - apply (ii_rest _ _ _ _ Hi) in Hr1. congruence.
  - exfalso. assert (h' ∈ gone) as Hg by (apply (ii_done _ _ _ _ Hi); [by eexists|done]).
    pose proof (rl_gone _ _ _ _ _ Hrel h' r' Hg Hr'). lia.
Qed.

(** Nothing that depends on an invalid transaction is available. *)
Lemma invalid_blocks rest rel gone b h h' r : iter_inv rest rel gone b ->
  h ∈ bi_invalid b -> rest !! h = Some r -> rtc (unlocks_in m) h h' ->
  is_Some (rest !! h') /\ forall r', ~ available rel gone b h' r'.
Proof.
  intros Hi Hinv Hr Hpath. revert h' Hpath.
  apply rtc_ind_r; [|intros h' h'' _ (r1 & Hr1 & Hin) [[r' Hr'] _]].
  - split; [by eexists|]. by intros r' (_ & _ & ? & _).
  - pose proof (ii_rest _ _ _ _ Hi _ _ Hr'). simplify_eq.
    destruct (link_blocks _ _ _ _ _ _ _ Hi Hr' Hin) as (r2 & Hr2 & Hlt). split; [by eexists|].
    intros r3 (Hr3 & _ & _ & Hm). apply (ii_rest _ _ _ _ Hi) in Hr2. simplify_eq. lia.
Qed.

Lemma invalid_never_returned ops rest rel gone b h h' r : iter_inv rest rel gone b ->
  h ∈ bi_invalid b -> rest !! h = Some r -> rtc (unlocks_in m) h h' ->
  exists b' out, iter_run ops b = (b', Ok out) /\ h' ∉ map hash out.
Proof.
  intros Hi Hinv Hr Hpath. revert rest rel gone b Hi Hinv Hr.
  induction ops as [|[|tx] ops IH]; intros rest rel gone b Hi Hinv Hr.
  - exists b, []. split; [done|]. apply not_elem_of_nil.
  - destruct (invalid_blocks _ _ _ _ _ _ _ Hi Hinv Hr Hpath) as [_ Hno].
    destruct (invalid_blocks _ _ _ _ _ _ _ Hi Hinv Hr (rtc_refl _ h)) as [_ Hno0].
    destruct (next_spec _ _ _ _ Hi) as (b1 & o & Hn & Hinv1 & Ho). cbn [iter_run]. rewrite (bindM_ok _ _ _ _ _ Hn).
    destruct o as [tx|].
    + destruct Ho as (r1 & gone1 & Hr1 & Hx & Ha & _ & Hi1 & _).
      assert (h <> hash tx) as Hne by (intros ->; by apply (Hno0 r1)).
      assert (h' <> hash tx) as Hne' by (intros ->; by apply (Hno r1)).
      destruct (IH _ _ _ _ Hi1) as (b' & out & Hrun & Hnot); [by rewrite Hinv1|by rewrite lookup_delete_ne|].
      rewrite (bindM_ok _ _ _ _ _ Hrun). exists b', (tx :: out). split; [done|]. simpl. set_solver.
    + destruct Ho as (gone1 & Hi1 & _). destruct (IH _ _ _ _ Hi1) as (b' & out & Hrun & Hnot); [by rewrite Hinv1|done|].
      rewrite (bindM_ok _ _ _ _ _ Hrun). by exists b', out.
  - cbn [iter_run]. rewrite bindM_modify. apply (IH rest rel gone); [by apply report_inv| |done].
    rewrite (report_invalid_spec tx b (rl_all _ _ _ _ _ (ii_rel _ _ _ _ Hi))). set_solver.
Qed.

(** When nothing is left to return, what remains depends on an invalid transaction. *)
Lemma link_tag h r h' : m !! h = Some r -> h' ∈ unlocks r ->
  exists r' t, m !! h' = Some r' /\ t ∈ provides (tx_of r) /\ t ∈ requires (tx_of r').
Proof.
  intros Hr Hin. destruct (go_edges _ _ _ Hgraph h r h' Hr Hin) as (r' & Hr' & Hle). apply times_pos in Hin.
  unfold needs in Hle. destruct (List.filter _ _) as [|t l] eqn:Hf; [simpl in Hle; lia|].
  assert (t ∈ List.filter (fun t => bool_decide (t ∈ provides (tx_of r))) (requires (tx_of r'))) as Ht
    by (rewrite Hf; by left).
  apply elem_of_filter_true in Ht as [Htr Htp]. apply bool_decide_eq_true in Htp. by exists r', t.
Qed.

Definition held_back rest b (h : Hash) : Prop :=
  exists h0, h0 ∈ bi_invalid b /\ is_Some (rest !! h0) /\ rtc (unlocks_in m) h0 h.

Lemma stuck_step rest rel gone b h r : iter_inv rest rel gone b -> bi_best b = [] -> rest !! h = Some r ->
  held_back rest b h \/ exists h' r', rest !! h' = Some r' /\ h ∈ unlocks r'.
Proof.
  intros Hi Hb Hr. pose proof (ii_rel _ _ _ _ Hi) as Hrel. pose proof (ii_rest _ _ _ _ Hi _ _ Hr) as Hm.
  destruct (decide (h ∈ gone)) as [Hg|Hg].
  - left. destruct (ii_skipped _ _ _ _ Hi h Hg); [congruence|]. exists h. split_and!; [done|by eexists|done].
  - right. pose proof (releasing_bound _ _ _ _ _ _ _ Hrel Hm) as Hbound. change (times h []) with 0 in Hbound.
    destruct (decide (links h rest = 0)) as [Hz|Hz].
    + exfalso. assert (tx_ref r ∈ bi_best b) as Hin; [|rewrite Hb in Hin; by apply elem_of_nil in Hin].
      apply (rl_best _ _ _ _ _ Hrel). exists h, r. split_and!; [done..|lia].
    + destruct (decide (map_Exists (fun _ r' => h ∈ unlocks r') rest)) as [He|Hne].
      * destruct He as (h' & r' & ? & ?). eauto.
      * exfalso. apply Hz, total_zero. intros h' r' Hr'. apply times_zero. intros Hin. apply Hne. by exists h', r'.
Qed.

Lemma stuck_held_back rest rel gone b h r : iter_inv rest rel gone b -> bi_best b = [] -> rest !! h = Some r ->
  held_back rest b h.
Proof.
  intros Hi Hb.
  assert (forall n h r t, rest !! h = Some r -> t ∈ provides (tx_of r) -> rank t < n -> held_back rest b h) as Hn.
  { induction n as [|n IH]; [lia|]. intros h' r' t Hr' Ht Hlt.
    destruct (stuck_step _ _ _ _ _ _ Hi Hb Hr') as [?|(h1 & r1 & Hr1 & Hin)]; [done|].
    pose proof (ii_rest _ _ _ _ Hi _ _ Hr1) as Hm1. pose proof (ii_rest _ _ _ _ Hi _ _ Hr') as Hm'.
    destruct (link_tag _ _ _ Hm1 Hin) as (r2 & t1 & Hr2 & Ht1 & Ht2). simplify_eq.
    pose proof (slots_rank _ t1 t (go_known _ _ _ Hgraph _ _ Hm') Ht2 Ht).
    destruct (IH h1 r1 t1 Hr1 Ht1) as (h0 & ? & ? & ?); [lia|]. exists h0. split_and!; [done..|].
    eapply rtc_r; [done|]. by exists r1. }
  intros Hr. destruct (stuck_step _ _ _ _ _ _ Hi Hb Hr) as [?|(h1 & r1 & Hr1 & Hin)]; [done|].
  pose proof (ii_rest _ _ _ _ Hi _ _ Hr1) as Hm1. destruct (link_tag _ _ _ Hm1 Hin) as (r2 & t1 & _ & Ht1 & _).
  destruct (Hn (S (rank t1)) h1 r1 t1 Hr1 Ht1) as (h0 & ? & ? & ?); [lia|]. exists h0. split_and!; [done..|].
  eapply rtc_r; [done|]. by exists r1.
Qed.

(** ** The order *)

(** The next transaction after [before]: all its links are released, and it is better than
    every other transaction of which this holds. *)
Definition best_next (before : list tx_t) tx : Prop := exists r,
  m !! hash tx = Some r /\ tx_of r = tx /\ met r (hash tx) (links_of before) = wanted_by r /\
  forall h' r', m !! h' = Some r' -> h' ∉ map hash before -> h' <> hash tx ->
    met r' h' (links_of before) = wanted_by r' -> ref_lt (tx_ref r') (tx_ref r).

Fixpoint best_first (before out : list tx_t) : Prop :=
  match out with
  | [] => True
  | tx :: out => best_next before tx /\ best_first (before ++ [tx]) out
  end.

Lemma best_first_split before out : best_first before out ->
  forall l tx l', out = l ++ tx :: l' -> best_next (before ++ l) tx.
Proof.
  revert before. induction out as [|tx0 out IH]; intros before Hb l tx l' Heq; [by destruct l|].
  destruct Hb as [Hn Hb]. destruct l as [|tx1 l]; simplify_eq/=; [by rewrite app_nil_r|].
  change (tx1 :: l) with ([tx1] ++ l). rewrite app_assoc. by eapply IH.
Qed.

Lemma next_drained rest rel gone b : iter_inv rest rel gone b -> rest = ∅ ->
  exists b', next b = (b', Ok None) /\ exists gone', iter_inv rest rel gone' b'.
Proof.
  intros Hi ->. destruct (next_spec _ _ _ _ Hi) as (b' & [tx|] & Hn & _ & Ho).
  - by destruct Ho as (r & _ & ? & _).
  - exists b'. split; [done|]. destruct Ho as (gone' & ? & _). eauto.
Qed.

(** Calling [next] as often as there are transactions left returns all of them. *)
Lemma drain_ok n before rest gone b : iter_inv rest (links_of before) gone b -> bi_invalid b = ∅ ->
  (forall h, is_Some (m !! h) -> rest !! h = None -> h ∈ map hash before) -> size rest <= n ->
  exists b' out, iter_run (replicate n Next) b = (b', Ok out) /\ best_first before out /\ returned rest out ∅ /\
    exists gone', iter_inv ∅ (links_of (before ++ out)) gone' b'.
Proof.
  revert before rest gone b. induction n as [|n IH]; intros before rest gone b Hi Hinv Hbef Hsz.
  { assert (rest = ∅) as -> by (apply map_size_empty_inv; lia). exists b, []. rewrite app_nil_r.
    split_and!; [done|done|apply returned_nil|eauto]. }
  cbn [replicate iter_run].
  assert (forall h, h ∈ gone -> rest !! h = None) as Hgone
    by (intros h Hg; destruct (ii_skipped _ _ _ _ Hi h Hg); [done|set_solver]).
  destruct (next_spec _ _ _ _ Hi) as (b1 & o & Hn & Hinv1 & Ho). rewrite (bindM_ok _ _ _ _ _ Hn).
  destruct o as [tx|].
  - destruct Ho as (r & gone1 & Hr & Hx & Ha & Hbest & Hi1 & _). pose proof (ii_rest _ _ _ _ Hi _ _ Hr) as Hm.
    destruct (IH (before ++ [tx]) (delete (hash tx) rest) gone1 b1) as (b' & out & Hrun & Hbf & Hret & Hend).
    + rewrite links_of_app. unfold links_of at 2. simpl. rewrite Hm, app_nil_r. done.
    + congruence.
    + intros h Hh. rewrite lookup_delete_None, map_app, elem_of_app. intros [<-|Hn1]; [right; by left|left; auto].
    + rewrite map_size_delete_Some by by eexists. lia.
    + rewrite (bindM_ok _ _ _ _ _ Hrun). exists b', (tx :: out). rewrite <-app_assoc in Hend.
      split_and!; [done| |by eapply returned_cons|done]. split; [|done]. exists r. split_and!; [done..|apply Ha|].
      intros h' r' Hr' Hnot Hne Hmet. apply (Hbest h' r'); [|done]. split_and!; [done| |rewrite Hinv; set_solver|done].
      intros Hg. by apply Hnot, Hbef; [eexists|apply Hgone].
  - destruct Ho as (gone1 & Hi1 & _ & Hb1 & _).
    assert (rest = ∅) as ->.
    { apply map_eq. intros h. rewrite lookup_empty. destruct (rest !! h) as [r|] eqn:Hr; [|done].
      destruct (stuck_held_back _ _ _ _ _ _ Hi1 Hb1 Hr) as (h0 & Hh0 & _). rewrite Hinv1, Hinv in Hh0. set_solver. }
    destruct (IH before ∅ gone1 b1) as (b' & out & Hrun & Hbf & Hret & Hend); [done|congruence|done|by rewrite map_size_empty; lia|].
    rewrite (bindM_ok _ _ _ _ _ Hrun). by exists b', out.
Qed.

(** The tags that a transaction requires and none of [before] provides. *)
Definition missing_before (before : list tx_t) (tx : tx_t) : nat :=
  length (List.filter (fun t => negb (existsb (fun tx' => bool_decide (t ∈ provides tx')) before)) (requires tx)).

Lemma filter_negb_length {A} (f : A -> bool) (l : list A) :
  length (List.filter f l) + length (List.filter (fun x => negb (f x)) l) = length l.
Proof. induction l as [|x l IH]; simpl; [done|]. destruct (f x); simpl; lia. Qed.

Lemma filter_or_length {A} (f g : A -> bool) (l : list A) : (forall x, x ∈ l -> f x = true -> g x = false) ->
  length (List.filter (fun x => f x || g x) l) = length (List.filter f l) + length (List.filter g l).
Proof.
  induction l as [|x l IH]; intros Hd; simpl; [done|]. specialize (IH ltac:(set_solver)).
  destruct (f x) eqn:Hf; [rewrite (Hd x) by set_solver; simpl; lia|]. destruct (g x); simpl; lia.
Qed.

Lemma needs_covered before h r : (forall t h1 h2 r1 r2, m !! h1 = Some r1 -> m !! h2 = Some r2 ->
    t ∈ provides (tx_of r1) -> t ∈ provides (tx_of r2) -> h1 = h2) ->
  NoDup (map hash before) -> (forall tx, tx ∈ before -> exists r, m !! hash tx = Some r /\ tx_of r = tx) ->
  m !! h = Some r ->
  times h (links_of before) <=
    length (List.filter (fun t => existsb (fun tx => bool_decide (t ∈ provides tx)) before) (requires (tx_of r))).
Proof.
  intros Huniq Hnd Hfrom Hr. induction before as [|tx before IH]; [cbn; lia|].
  simpl in Hnd. apply NoDup_cons in Hnd as [Hnot Hnd]. specialize (IH Hnd ltac:(set_solver)).
  destruct (Hfrom tx) as (r1 & Hr1 & Hx1); [by left|].
  change (tx :: before) with ([tx] ++ before) at 1. rewrite links_of_app, times_app. simpl existsb.
  rewrite filter_or_length.
  - apply Nat.add_le_mono; [|done]. unfold links_of. simpl. rewrite Hr1, app_nil_r. simpl.
    destruct (decide (h ∈ unlocks r1)) as [Hin|Hin]; [|apply times_zero in Hin; lia].
    destruct (go_edges _ _ _ Hgraph _ _ _ Hr1 Hin) as (r2 & Hr2 & Hle). simplify_eq. exact Hle.
  - intros t _ Ht%bool_decide_eq_true. apply existsb_false. intros tx' Htx'. apply bool_decide_eq_false. intros Ht'.
    destruct (Hfrom tx') as (r2 & Hr2 & Hx2); [by right|]. apply Hnot.
    assert (hash tx = hash tx') as -> by (apply (Huniq t _ _ r1 r2); congruence).
    by apply list_elem_of_fmap_2.
Qed.

Lemma best_next_missing before tx : (forall t h1 h2 r1 r2, m !! h1 = Some r1 -> m !! h2 = Some r2 ->
    t ∈ provides (tx_of r1) -> t ∈ provides (tx_of r2) -> h1 = h2) ->
  NoDup (map hash before) -> (forall tx, tx ∈ before -> exists r, m !! hash tx = Some r /\ tx_of r = tx) ->
  best_next before tx -> exists r, m !! hash tx = Some r /\ missing_before before tx <= requires_offset r.
Proof.
  intros Huniq Hnd Hfrom (r & Hr & Hx & Hmet & _). exists r. split; [done|].
  pose proof (needs_covered before _ _ Huniq Hnd Hfrom Hr) as Hle.
  pose proof (filter_negb_length (fun t => existsb (fun tx => bool_decide (t ∈ provides tx)) before) (requires (tx_of r))) as Hn.
  unfold met, wanted_by in Hmet. unfold missing_before. rewrite <-Hx. lia.
Qed.
End iterator.

Arguments Next {Hash Ex}.
Arguments Report {Hash Ex} tx.

Section queue.
Context {Hash Ex : Type} `{Countable Hash}.
Context (U : Transaction Hash Ex -> Prop) `{!Slots U}.
Implicit Types s : ReadyTransactions Hash Ex.

Lemma iter_start s : ready_ok U s -> iter_inv (index (ready s)) (index (ready s)) [] [] (ready_get s).
Proof.
  intros [Hg Ht [Hs Hb] Hi Hc]. split; [|done| |by intros h ?%elem_of_nil].
  - split; simpl; try done.
    + by intros h r ?%elem_of_nil.
    + intros h. rewrite lookup_empty. by destruct (_ !! h).
    + intros x. rewrite Hb. unfold met, wanted_by. cbn. setoid_rewrite Nat.add_0_r. set_solver.
  - intros h [r Hr]. congruence.
Qed.
End queue.
