(* ===== verification/PoolOrder.v ===== *)
(** * The transaction pool: the order of the ready transactions

    A direct definition of the order in which the ready transactions are to be taken: of those
    whose links are all released, the best one, again and again.  [BestIterator] maintains a
    sorted set and a map of counters instead; it returns the same list. *)

From S2P Require Import Prelude PoolTypes PoolReady PoolGraph PoolRemove PoolBest.

Section order.
Context {Hash Ex : Type} `{Countable Hash}.
Notation entry := (ReadyTx Hash Ex).
Notation tx_t := (Transaction Hash Ex).
Implicit Types (m : gmap Hash entry) (r : entry) (before out : list tx_t).

Definition eligible m before r : bool :=
  bool_decide (hash (tx_of r) ∉ map hash before) &&
  (requires_offset r + times (hash (tx_of r)) (links_of m before) =? length (requires (tx_of r))).

Definition better r (acc : option entry) : option entry :=
  match acc with
  | None => Some r
  | Some r' => match cmp_ref (tx_ref r) (tx_ref r') with Gt => Some r | _ => Some r' end
  end.

Definition best_eligible m before : option entry :=
  foldr better None (List.filter (eligible m before) (map snd (map_to_list m))).

Fixpoint best_order m (n : nat) before : list tx_t :=
  match n with
  | 0 => []
  | S n =>
      match best_eligible m before with
      | None => []
      | Some r => tx_of r :: best_order m n (before ++ [tx_of r])
      end
  end.

Lemma best_of_list (l : list entry) : match foldr better None l with
  | None => l = []
  | Some r => r ∈ l /\ forall r', r' ∈ l -> ~ ref_lt (tx_ref r) (tx_ref r')
  end.
Proof.
  induction l as [|x l IH]; [done|]. simpl. destruct (foldr better None l) as [y|]; simpl.
  - destruct IH as [Hy Hmax]. pose proof (cmp_ref_antisym (tx_ref x) (tx_ref y)) as Ha. unfold ref_lt in *.
    destruct (cmp_ref (tx_ref x) (tx_ref y)) eqn:Hc; simpl in Ha; (split; [set_solver|]).
    1, 2: intros r' [->|Hr']%elem_of_cons; [congruence|by apply Hmax].
    intros r' [->|Hr']%elem_of_cons; [by rewrite cmp_ref_refl|]. intros Hlt. apply (Hmax r' Hr').
    exact (ref_lt_trans (tx_ref y) (tx_ref x) (tx_ref r') Ha Hlt).
  - subst l. split; [by left|]. intros r' ->%list_elem_of_singleton. apply ref_lt_irrefl.
Qed.

Lemma eligible_elem m before r : (forall h r, m !! h = Some r -> hash (tx_of r) = h) ->
  r ∈ List.filter (eligible m before) (map snd (map_to_list m)) <->
  m !! hash (tx_of r) = Some r /\ hash (tx_of r) ∉ map hash before /\
    met r (hash (tx_of r)) (links_of m before) = wanted_by r.
Proof.
  intros Hk. rewrite elem_of_filter_true. unfold eligible. rewrite andb_true_iff, bool_decide_eq_true, Nat.eqb_eq.
  rewrite list_elem_of_fmap. unfold met, wanted_by. split.
  - intros [([h r'] & -> & Hm%elem_of_map_to_list) [? ?]]. simpl in *. by rewrite (Hk _ _ Hm) in *.
  - intros (Hm & ? & ?). split; [|done]. exists (hash (tx_of r), r). split; [done|]. by apply elem_of_map_to_list.
Qed.

Lemma best_next_eligible m before tx : (forall h r, m !! h = Some r -> hash (tx_of r) = h) ->
  hash tx ∉ map hash before -> best_next m before tx -> exists r, best_eligible m before = Some r /\ tx_of r = tx.
Proof.
  intros Hk Hnot (r & Hr & Hx & Hmet & Hmax). exists r. split; [|done]. unfold best_eligible.
  pose proof (best_of_list (List.filter (eligible m before) (map snd (map_to_list m)))) as Hb.
  assert (r ∈ List.filter (eligible m before) (map snd (map_to_list m))) as Hin
    by (apply eligible_elem; [done|]; by rewrite Hx).
  destruct (foldr better None _) as [r'|]; [|rewrite Hb in Hin; by apply elem_of_nil in Hin].
  destruct Hb as [Hin' Hb]. apply eligible_elem in Hin' as (Hm' & Hn' & Hmet'); [|done].
  destruct (decide (hash (tx_of r') = hash tx)) as [He|Hne]; [congruence|].
  exfalso. apply (Hb r Hin). by apply (Hmax (hash (tx_of r')) r').
Qed.

Lemma best_first_order m before out : (forall h r, m !! h = Some r -> hash (tx_of r) = h) ->
  NoDup (map hash (before ++ out)) -> best_first m before out -> best_order m (length out) before = out.
Proof.
  intros Hk. revert before. induction out as [|tx out IH]; intros before Hnd Hb; [done|]. destruct Hb as [Hnext Hb].
  assert (hash tx ∉ map hash before) as Hnot.
  { rewrite map_app in Hnd. apply NoDup_app in Hnd as (_ & Hd & _). intros Hin. apply (Hd _ Hin). by left. }
  destruct (best_next_eligible m before tx Hk Hnot Hnext) as (r & Hr & Hx). simpl. rewrite Hr, Hx. f_equal.
  apply IH; [by rewrite <-app_assoc|done].
Qed.

(** Once nothing is left, everything has been returned. *)
Lemma returned_all m out : returned m out ∅ ->
  (forall tx, tx ∈ out <-> exists h r, m !! h = Some r /\ tx_of r = tx) /\ length out = size m.
Proof.
  intros [Hnd Hfrom Hrest].
  assert (forall h r, m !! h = Some r -> exists tx, tx ∈ out /\ hash tx = h /\ tx_of r = tx) as Hall.
  { intros h r Hr. specialize (Hrest h). rewrite lookup_empty in Hrest. case_decide as Hd; [|congruence].
    apply list_elem_of_fmap in Hd as (tx & -> & Htx). exists tx. split_and!; [done..|].
    destruct (Hfrom tx Htx) as (r' & Hr' & <-). congruence. }
  split.
  - intros tx. split; [intros Htx; destruct (Hfrom tx Htx) as (r & ? & ?); by exists (hash tx), r|].
    intros (h & r & Hr & <-). destruct (Hall h r Hr) as (tx & ? & _ & ->). done.
  - rewrite <-(length_map hash), <-size_dom, <-(size_list_to_set (C := gset Hash) (map hash out)) by done.
    f_equal. apply leibniz_equiv. intros h. rewrite elem_of_list_to_set, elem_of_dom. split.
    + intros (tx & -> & Htx)%list_elem_of_fmap. destruct (Hfrom tx Htx) as (r & ? & _). by eexists.
    + intros [r Hr]. destruct (Hall h r Hr) as (tx & Htx & <- & _). by apply list_elem_of_fmap_2.
Qed.

Lemma tags_unique (pt : gmap Tag Hash) m : tags_ok pt m ->
  forall t h1 h2 r1 r2, m !! h1 = Some r1 -> m !! h2 = Some r2 ->
    t ∈ provides (tx_of r1) -> t ∈ provides (tx_of r2) -> h1 = h2.
Proof.
  intros Ht t h1 h2 r1 r2 H1 H2 Ht1 Ht2.
  assert (pt !! t = Some h1) by (apply Ht; eauto). assert (pt !! t = Some h2) by (apply Ht; eauto). congruence.
Qed.
End order.
