(* ===== verification/PoolFutureSpec.v ===== *)
(** * The transaction pool: correctness of the future queue

    The invariant of the future queue: the map of wanted tags is the inverse of the missing tags of
    the waiting transactions. Every operation keeps it; [satisfy_tags] hands out exactly the
    transactions that miss no other tag. *)

From S2P Require Import Prelude PoolTypes PoolFuture.

Section future.
Context {P : Profile} {Hash Ex : Type} `{Iteration Hash, !Iteration Tag}.
Context (U : Transaction Hash Ex -> Prop).
Notation tx_t := (Transaction Hash Ex).
Notation waiting_t := (WaitingTransaction Hash Ex).
Notation future_t := (FutureTransactions Hash Ex).
Implicit Types (f : future_t) (w : waiting_t).

Definition wanted_in (wanted : gmap Tag (gset Hash)) (t : Tag) (h : Hash) : Prop :=
  exists hs, wanted !! t = Some hs /\ h ∈ hs.

Record future_ok f : Prop := {
  fu_key : forall h w, waiting f !! h = Some w -> hash (transaction w) = h;
  fu_known : forall h w, waiting f !! h = Some w -> U (transaction w);
  fu_missing : forall h w, waiting f !! h = Some w -> missing_tags w <> ∅;
  fu_required : forall h w t, waiting f !! h = Some w -> t ∈ missing_tags w -> t ∈ requires (transaction w);
  fu_wanted : forall t h, wanted_in (wanted_tags f) t h <-> exists w, waiting f !! h = Some w /\ t ∈ missing_tags w
}.

Lemma future_default_ok : future_ok future_default.
Proof. split; try done. intros t h. split; [by intros (hs & ? & _)|by intros (w & ? & _)]. Qed.

Lemma elem_of_iterate {A} `{Iteration A} (X : gset A) x : x ∈ iterate X <-> x ∈ X.
Proof. rewrite iterate_elements. apply elem_of_elements. Qed.

Lemma NoDup_iterate {A} `{Iteration A} (X : gset A) : NoDup (iterate X).
Proof. rewrite iterate_elements. apply NoDup_elements. Qed.

Lemma wanted_in_alt (wanted : gmap Tag (gset Hash)) t h : wanted_in wanted t h <-> h ∈ default ∅ (wanted !! t).
Proof.
  unfold wanted_in. destruct (wanted !! t) as [hs|]; simpl; [naive_solver|].
  split; [by intros (? & ? & _)|set_solver].
Qed.

(** ** Import *)

Lemma want_all h tags wanted t h' :
  wanted_in (foldl (fun wd tag => want h tag wd) wanted tags) t h' <-> wanted_in wanted t h' \/ (h' = h /\ t ∈ tags).
Proof.
  revert wanted. induction tags as [|t0 tags IH]; intros wanted; simpl; [set_solver|]. rewrite IH.
  assert (wanted_in (want h t0 wanted) t h' <-> wanted_in wanted t h' \/ (h' = h /\ t = t0)) as Hw.
  { rewrite !wanted_in_alt. unfold want. destruct (decide (t = t0)) as [->|Hne].
    - rewrite lookup_insert_eq. simpl. set_solver.
    - rewrite lookup_insert_ne by done. naive_solver. }
  rewrite Hw. set_solver.
Qed.

Lemma future_import_ok f w : future_ok f -> U (transaction w) -> is_ready w = false ->
  (forall t, t ∈ missing_tags w -> t ∈ requires (transaction w)) ->
  waiting f !! hash (transaction w) = None ->
  exists f', future_import w f = (f', Ok tt) /\ future_ok f' /\
    waiting f' = <[hash (transaction w) := w]> (waiting f) /\
    forall t h, wanted_in (wanted_tags f') t h <->
      wanted_in (wanted_tags f) t h \/ (h = hash (transaction w) /\ t ∈ missing_tags w).
Proof.
  intros Hf Hu Hready Hreq Hnew. unfold future_import. rewrite Hready.
  rewrite (bindM_lift _ _ _ tt) by done. rewrite bindM_get, (bindM_lift _ _ _ tt) by by rewrite bool_decide_eq_true_2.
  eexists. split; [reflexivity|].
  assert (forall t h, wanted_in (foldl (fun wd tag => want (hash (transaction w)) tag wd) (wanted_tags f)
      (iterate (missing_tags w))) t h <->
    wanted_in (wanted_tags f) t h \/ (h = hash (transaction w) /\ t ∈ missing_tags w)) as Hw
    by (intros t h; by rewrite want_all, elem_of_iterate).
  split; [|done]. apply bool_decide_eq_false in Hready. destruct Hf as [Hk Hkn Hm Hr Hwant].
  split; simpl; try (intros h w'; destruct (decide (h = hash (transaction w))) as [->|Hne];
    [rewrite lookup_insert_eq|rewrite lookup_insert_ne by done]; intros; simplify_eq; eauto; fail).
  intros t h. rewrite Hw, Hwant. destruct (decide (h = hash (transaction w))) as [->|Hne].
  - rewrite lookup_insert_eq, Hnew. naive_solver.
  - rewrite lookup_insert_ne by done. naive_solver.
Qed.

(** ** Removal *)

Lemma unwant_spec h wanted t t' h' :
  wanted_in (unwant h wanted t') t h' <-> wanted_in wanted t h' /\ ~ (t = t' /\ h' = h).
Proof.
  rewrite !wanted_in_alt. unfold unwant. destruct (wanted !! t') as [hs|] eqn:Hhs.
  - destruct (decide (t = t')) as [->|Hne].
    + rewrite Hhs. simpl. case_decide; [rewrite lookup_delete_eq|rewrite lookup_insert_eq]; simpl; set_solver.
    + case_decide; [rewrite lookup_delete_ne by done|rewrite lookup_insert_ne by done]; naive_solver.
  - split; [|naive_solver]. intros Hin. split; [done|]. intros [-> ->]. rewrite Hhs in Hin. set_solver.
Qed.

Lemma unwant_all h tags wanted t h' :
  wanted_in (foldl (unwant h) wanted tags) t h' <-> wanted_in wanted t h' /\ ~ (t ∈ tags /\ h' = h).
Proof.
  revert wanted. induction tags as [|t0 tags IH]; intros wanted; simpl; [set_solver|]. rewrite IH, unwant_spec. set_solver.
Qed.

Lemma remove_one_ok f h removed : future_ok f -> let '(f', removed') := remove_one h (f, removed) in
  future_ok f' /\ waiting f' = delete h (waiting f) /\
  removed' = removed ++ option_list (transaction <$> waiting f !! h).
Proof.
  intros Hf. unfold remove_one. destruct (waiting f !! h) as [w|] eqn:Hw.
  2: { simpl. by rewrite delete_id, app_nil_r. }
  split; [|done]. destruct Hf as [Hk Hkn Hm Hr Hwant]. split; simpl.
  - intros h' w' [_ ?]%lookup_delete_Some. eauto.
  - intros h' w' [_ ?]%lookup_delete_Some. eauto.
  - intros h' w' [_ ?]%lookup_delete_Some. eauto.
  - intros h' w' t [_ ?]%lookup_delete_Some. eauto.
  - intros t h'. rewrite unwant_all, Hwant, elem_of_iterate. destruct (decide (h' = h)) as [->|Hne].
    + rewrite lookup_delete_eq, Hw. naive_solver.
    + rewrite lookup_delete_ne by done. naive_solver.
Qed.

(** [remove] takes out the given transactions. *)
Lemma future_remove_ok f hashes : future_ok f -> let '(f', removed) := future_remove hashes f in
  future_ok f' /\ (forall h, waiting f' !! h = if decide (h ∈ hashes) then None else waiting f !! h) /\
  NoDup (map hash removed) /\
  forall tx, tx ∈ removed <-> exists h w, h ∈ hashes /\ waiting f !! h = Some w /\ transaction w = tx.
Proof.
  intros Hf. unfold future_remove.
  assert (let '(f', removed) := foldl (fun acc h => remove_one h acc) (f, []) hashes in
    future_ok f' /\ (forall h, waiting f' !! h = if decide (h ∈ hashes) then None else waiting f !! h) /\
    exists hs, NoDup hs /\ removed = omap (fun h => transaction <$> waiting f !! h) hs /\
      forall h, h ∈ hs <-> h ∈ hashes /\ is_Some (waiting f !! h)) as Hall.
  { induction hashes as [|h hashes IH] using rev_ind.
    { cbn [foldl]. split_and!; [done|intros h; by rewrite decide_False by apply not_elem_of_nil|].
      exists []. split_and!; [constructor|done|set_solver]. }
    rewrite foldl_snoc. destruct (foldl _ _ hashes) as [f1 removed1]. destruct IH as (Hf1 & Hw1 & hs & Hnd & -> & Hhs).
    pose proof (remove_one_ok f1 h (omap (fun h => transaction <$> waiting f !! h) hs) Hf1) as Ho.
    destruct (remove_one h _) as [f2 removed2]. destruct Ho as (Hf2 & Hw2 & ->). split_and!; [done| |].
    - intros h'. rewrite Hw2. destruct (decide (h' = h)) as [->|Hne].
      + rewrite lookup_delete_eq, decide_True; [done|set_solver].
      + rewrite lookup_delete_ne, Hw1 by done. destruct (decide (h' ∈ hashes)); [rewrite decide_True by set_solver|rewrite decide_False by set_solver]; done.
    - rewrite Hw1. destruct (decide (h ∈ hashes)) as [Hin|Hin].
      + exists hs. simpl. rewrite app_nil_r. split_and!; [done|done|set_solver].
      + destruct (waiting f !! h) as [w|] eqn:Hw.
        * exists (hs ++ [h]). rewrite omap_app. simpl. rewrite Hw. split_and!; [|done|].
          -- apply NoDup_app. split_and!; [done| |apply NoDup_singleton]. intros h' ?%Hhs ->%list_elem_of_singleton. naive_solver.
          -- intros h'. rewrite !elem_of_app, list_elem_of_singleton, Hhs. naive_solver.
        * exists hs. simpl. rewrite app_nil_r. split_and!; [done|done|]. intros h'. rewrite Hhs, elem_of_app, list_elem_of_singleton.
          split; [naive_solver|]. intros [[?| ->] [w' Hw']]; [by split; [|eexists]|congruence]. }
  destruct (foldl _ _ hashes) as [f' removed]. destruct Hall as (Hf' & Hw & hs & Hnd & -> & Hhs). split_and!; [done|done| |].
  - assert (map hash (omap (fun h => transaction <$> waiting f !! h) hs) = hs) as ->; [|done].
    assert (forall h, h ∈ hs -> is_Some (waiting f !! h)) as Hsome by (intros h ?; by apply Hhs). clear Hnd Hhs.
    induction hs as [|h hs IH]; [done|]. simpl. destruct (Hsome h) as [w Hw']; [by left|]. rewrite Hw'. simpl.
    rewrite (fu_key _ Hf _ _ Hw'). f_equal. apply IH. intros; apply Hsome; by right.
  - intros tx. rewrite list_elem_of_omap. split.
    + intros (h & Hh & (w & Hw' & ->)%fmap_Some). exists h, w. split_and!; [by apply Hhs|done|done].
    + intros (h & w & Hh & Hw' & <-). exists h. rewrite Hw'. split; [|done]. apply Hhs. split; [done|by eexists].
Qed.

(** ** Satisfying tags *)

Definition less (T : gset Tag) w : waiting_t := mkWaiting (transaction w) (missing_tags w ∖ T) (imported_at w).

(** The tags [T] are satisfied: [rs] are the transactions that wait for nothing more. *)
Record satisfied (T : gset Tag) f f' (rs : list waiting_t) : Prop := {
  sf_waiting : forall h, waiting f' !! h =
    w ← waiting f !! h; if decide (missing_tags w ∖ T = ∅) then None else Some (less T w);
  sf_wanted : forall t, wanted_tags f' !! t = if decide (t ∈ T) then None else wanted_tags f !! t;
  sf_ready : forall w', w' ∈ rs <->
    exists h w, waiting f !! h = Some w /\ missing_tags w ∖ T = ∅ /\ w' = less T w;
  sf_nodup : NoDup (map (fun w => hash (transaction w)) rs)
}.

Lemma less_less T T' w : less T' (less T w) = less (T ∪ T') w.
Proof. unfold less. simpl. f_equal. set_solver. Qed.

Lemma less_none T w : (forall t, t ∈ missing_tags w -> t ∉ T) -> less T w = w.
Proof. intros Hn. destruct w as [tx mi at_]. unfold less. simpl in *. f_equal. set_solver. Qed.

Lemma satisfied_trans T1 T2 f f1 f2 rs1 rs2 : (forall h w, waiting f !! h = Some w -> hash (transaction w) = h) ->
  satisfied T1 f f1 rs1 -> satisfied T2 f1 f2 rs2 -> satisfied (T1 ∪ T2) f f2 (rs1 ++ rs2).
Proof.
  intros Hkey [Hw1 Ht1 Hr1 Hn1] [Hw2 Ht2 Hr2 Hn2].
  assert (forall w, missing_tags w ∖ T1 = ∅ -> missing_tags w ∖ (T1 ∪ T2) = ∅) as Hsub by set_solver.
  split.
  - intros h. rewrite Hw2, Hw1. destruct (waiting f !! h) as [w|]; [|done]. simpl.
    destruct (decide (missing_tags w ∖ T1 = ∅)) as [He|He]; simpl; [by rewrite decide_True by auto|].
    assert (missing_tags w ∖ T1 ∖ T2 = missing_tags w ∖ (T1 ∪ T2)) as -> by set_solver.
    case_decide; [done|]. by rewrite less_less.
  - intros t. rewrite Ht2, Ht1. repeat case_decide; set_solver.
  - intros w'. rewrite elem_of_app, Hr1, Hr2. split.
    + intros [(h & w & Hw & He & ->)|(h & w1 & Hw & He & ->)].
      * exists h, w. split_and!; [done|auto|]. unfold less. f_equal. set_solver.
      * rewrite Hw1 in Hw. destruct (waiting f !! h) as [w|] eqn:Hwf; [|done]. simpl in Hw. case_decide; simplify_eq.
        exists h, w. rewrite less_less. split_and!; [done|simpl in He; set_solver|done].
    + intros (h & w & Hw & He & ->). destruct (decide (missing_tags w ∖ T1 = ∅)) as [He1|He1].
      * left. exists h, w. split_and!; [done..|]. unfold less. f_equal. set_solver.
      * right. exists h, (less T1 w). rewrite Hw1, Hw. simpl. rewrite decide_False by done. rewrite less_less.
        split_and!; [done|set_solver|done].
  - rewrite map_app. apply NoDup_app. split_and!; [done| |done].
    intros h (w1 & -> & Hin1)%list_elem_of_fmap (w2 & Heq & Hin2)%list_elem_of_fmap.
    apply Hr1 in Hin1 as (h1 & w1' & Hwf1 & He1 & ->). apply Hr2 in Hin2 as (h2 & w2' & Hwf2 & He2 & ->).
    rewrite Hw1 in Hwf2. destruct (waiting f !! h2) as [w3|] eqn:Hwf3; [|done]. simpl in Hwf2. case_decide; simplify_eq.
    simpl in Heq. rewrite (Hkey _ _ Hwf1), (Hkey _ _ Hwf3) in Heq. congruence.
Qed.

(** What the inner loop hands out for a transaction. *)
Definition readied (t : Tag) f (h : Hash) : option waiting_t :=
  w ← waiting f !! h; if decide (missing_tags w ∖ {[t]} = ∅) then Some (less {[t]} w) else None.

Lemma omap_cons_eq {A B} (g : A -> option B) x l :
  omap g (x :: l) = option_list (g x) ++ omap g l.
Proof. simpl. by destruct (g x). Qed.

Lemma readied_nodup t f l : (forall h w, waiting f !! h = Some w -> hash (transaction w) = h) -> NoDup l ->
  NoDup (map (fun w => hash (transaction w)) (omap (readied t f) l)).
Proof.
  intros Hkey Hnd.
  assert (forall h w, readied t f h = Some w -> hash (transaction w) = h) as Hk.
  { intros h w. unfold readied. destruct (waiting f !! h) as [w1|] eqn:Hw1; [|done]. simpl. case_decide; [|done].
    intros [= <-]. simpl. eauto. }
  induction l as [|h l IH]; [constructor|]. apply NoDup_cons in Hnd as [Hnot Hnd].
  rewrite omap_cons_eq. destruct (readied t f h) as [w|] eqn:Hw; simpl; [|auto].
  apply NoDup_cons. split; [|auto]. intros (w' & Heq & Hw')%list_elem_of_fmap.
  apply list_elem_of_omap in Hw' as (h' & Hh' & Hw'). rewrite (Hk _ _ Hw), (Hk _ _ Hw') in Heq. congruence.
Qed.

(** The inner loop. *)
Lemma satisfy_all t l acc f : NoDup l -> (forall h, h ∈ l -> is_Some (waiting f !! h)) ->
  exists f', for_fold (satisfy_one t) l acc f =
    (f', Ok (acc ++ omap (readied t f) l)) /\
  wanted_tags f' = wanted_tags f /\
  forall h, waiting f' !! h = if decide (h ∈ l)
    then w ← waiting f !! h; if decide (missing_tags w ∖ {[t]} = ∅) then None else Some (less {[t]} w)
    else waiting f !! h.
Proof.
  revert acc f. induction l as [|h l IH]; intros acc f Hnd Hex.
  { exists f. rewrite app_nil_r. split_and!; [done..|]. intros h. by rewrite decide_False by apply not_elem_of_nil. }
  apply NoDup_cons in Hnd as [Hnot Hnd]. destruct (Hex h) as [w Hw]; [by left|]. cbn [for_fold].
  set (f1 := mkFuture (wanted_tags f)
    (if decide (missing_tags w ∖ {[t]} = ∅) then delete h (waiting f) else <[h := less {[t]} w]> (waiting f))).
  set (acc1 := acc ++ if decide (missing_tags w ∖ {[t]} = ∅) then [less {[t]} w] else []).
  assert (satisfy_one t h acc f = (f1, Ok acc1)) as Hstep.
  { unfold satisfy_one. rewrite bindM_get, Hw. rewrite (bindM_lift _ _ _ w) by done. unfold is_ready, satisfy_tag.
    unfold f1, acc1. simpl. case_bool_decide; case_decide; try done. by rewrite app_nil_r. }
  rewrite (bindM_ok _ _ _ _ _ Hstep).
  assert (forall h', h' <> h -> waiting f1 !! h' = waiting f !! h') as Hne.
  { intros h' Hn. unfold f1. simpl. case_decide; [by rewrite lookup_delete_ne|by rewrite lookup_insert_ne]. }
  destruct (IH acc1 f1 Hnd) as (f' & -> & Hwant & Hwait).
  { intros h' Hh'. rewrite Hne by (by intros ->). apply Hex. by right. }
  exists f'. split_and!; [|done|].
  - do 2 f_equal. rewrite omap_cons_eq. unfold acc1, readied at 2. rewrite Hw, <-app_assoc. simpl. do 2 f_equal; [by case_decide|].
    clear -Hne Hnot. induction l as [|h' l IH]; [done|]. apply not_elem_of_cons in Hnot as [? ?].
    rewrite !omap_cons_eq. unfold readied at 1 3. rewrite Hne by done. f_equal. auto.
  - intros h'. rewrite Hwait. destruct (decide (h' = h)) as [->|Hn].
    + rewrite decide_False, decide_True by (done || by left). rewrite Hw. unfold f1. simpl.
      case_decide; [by rewrite lookup_delete_eq|by rewrite lookup_insert_eq].
    + rewrite Hne by done. destruct (decide (h' ∈ l)); [by rewrite decide_True by by right|].
      rewrite decide_False; [done|]. set_solver.
Qed.

Lemma satisfied_refl f : future_ok f -> satisfied ∅ f f [].
Proof.
  intros Hf. assert (forall w, missing_tags w ∖ ∅ = missing_tags w) as Hd by set_solver. split.
  - intros h. destruct (waiting f !! h) as [w|] eqn:Hw; [|done]. simpl. rewrite Hd, decide_False by by eapply fu_missing.
    by rewrite less_none by set_solver.
  - intros t. by rewrite decide_False by set_solver.
  - intros w'. split; [by intros ?%elem_of_nil|]. intros (h & w & Hw & He & _). rewrite Hd in He. by eapply fu_missing in Hw.
  - constructor.
Qed.

Lemma satisfied_ok T f f' rs : future_ok f -> satisfied T f f' rs -> future_ok f'.
Proof.
  intros [Hk Hkn Hm Hr Hwant] [Hw Ht _ _].
  assert (forall h w', waiting f' !! h = Some w' -> exists w, waiting f !! h = Some w /\ missing_tags w ∖ T <> ∅ /\ w' = less T w) as Hfrom.
  { intros h w'. rewrite Hw. destruct (waiting f !! h) as [w|]; [|done]. simpl. case_decide; [done|]. intros [= <-]. by exists w. }
  split.
  - intros h w' (w & Hwf & _ & ->)%Hfrom. simpl. eauto.
  - intros h w' (w & Hwf & _ & ->)%Hfrom. simpl. eauto.
  - by intros h w' (w & Hwf & ? & ->)%Hfrom.
  - intros h w' t (w & Hwf & _ & ->)%Hfrom. simpl. set_solver.
  - intros t h. rewrite wanted_in_alt, Ht. case_decide as Hin; simpl.
    + split; [set_solver|]. intros (w' & (w & Hwf & _ & ->)%Hfrom & Hm'). simpl in Hm'. set_solver.
    + rewrite <-wanted_in_alt, Hwant. split.
      * intros (w & Hwf & Hin'). exists (less T w). rewrite Hw, Hwf. simpl. rewrite decide_False by set_solver. set_solver.
      * intros (w' & (w & Hwf & _ & ->)%Hfrom & Hm'). exists w. simpl in Hm'. set_solver.
Qed.

Lemma satisfy_one_tag_ok t acc f : future_ok f ->
  exists f' rs, satisfy_one_tag t acc f = (f', Ok (acc ++ rs)) /\ satisfied {[t]} f f' rs.
Proof.
  intros Hf. unfold satisfy_one_tag. rewrite bindM_get. destruct (wanted_tags f !! t) as [hs|] eqn:Hhs.
  - assert (forall h, h ∈ hs <-> exists w, waiting f !! h = Some w /\ t ∈ missing_tags w) as Hin.
    { intros h. rewrite <-(fu_wanted _ Hf), wanted_in_alt, Hhs. done. }
    rewrite bindM_put.
    destruct (satisfy_all t (iterate hs) acc (mkFuture (delete t (wanted_tags f)) (waiting f))) as (f' & -> & Hwant & Hwait).
    { apply NoDup_iterate. }
    { intros h Hh%elem_of_iterate. apply Hin in Hh as (w & ? & _). by eexists. }
    eexists _, _. split; [reflexivity|]. simpl in *.
    assert (forall h w, waiting f !! h = Some w -> missing_tags w ∖ {[t]} = ∅ -> h ∈ hs) as Hlast.
    { intros h w Hw He. apply Hin. exists w. split; [done|]. pose proof (fu_missing _ Hf _ _ Hw).
      destruct (decide (t ∈ missing_tags w)); [done|]. set_solver. }
    split.
    + intros h. rewrite Hwait. destruct (decide (h ∈ iterate hs)) as [Hh|Hh]; [done|]. rewrite elem_of_iterate in Hh.
      destruct (waiting f !! h) as [w|] eqn:Hw; [|done]. simpl. rewrite decide_False by naive_solver.
      rewrite less_none; [done|]. intros t' Ht' ->%elem_of_singleton. apply Hh, Hin. by exists w.
    + intros t'. rewrite Hwant, lookup_delete. case_decide; subst; [by rewrite decide_True by set_solver|].
      by rewrite decide_False by set_solver.
    + intros w'. rewrite list_elem_of_omap. split.
      * unfold readied. simpl. intros (h & Hh & Hw'). destruct (waiting f !! h) as [w|] eqn:Hw; [|done].
        simpl in Hw'. case_decide; simplify_eq. eauto.
      * intros (h & w & Hw & He & ->). exists h. unfold readied. simpl. rewrite elem_of_iterate, Hw. simpl. rewrite decide_True by done. eauto.
    + apply readied_nodup; [apply Hf|apply NoDup_iterate].
  - exists f, []. rewrite app_nil_r. split; [done|].
    assert (forall h w, waiting f !! h = Some w -> t ∉ missing_tags w) as Hno.
    { intros h w Hw Ht. assert (wanted_in (wanted_tags f) t h) as (? & ? & _) by (apply (fu_wanted _ Hf); eauto). congruence. }
    split.
    + intros h. destruct (waiting f !! h) as [w|] eqn:Hw; [|done]. simpl. specialize (Hno h w Hw).
      pose proof (fu_missing _ Hf _ _ Hw). rewrite decide_False by set_solver. rewrite less_none; [done|]. set_solver.
    + intros t'. case_decide; [|done]. set_solver.
    + intros w'. split; [by intros ?%elem_of_nil|]. intros (h & w & Hw & He & _). specialize (Hno h w Hw).
      pose proof (fu_missing _ Hf _ _ Hw). set_solver.
    + constructor.
Qed.

(** [satisfy_tags] returns, and keeps the invariant. *)
Lemma satisfy_tags_ok tags f : future_ok f ->
  exists f' rs, satisfy_tags tags f = (f', Ok rs) /\ satisfied (list_to_set tags) f f' rs /\ future_ok f'.
Proof.
  intros Hf. unfold satisfy_tags.
  assert (forall T acc f1, future_ok f1 -> satisfied T f f1 acc ->
    exists f' rs, for_fold satisfy_one_tag tags acc f1 = (f', Ok rs) /\ satisfied (T ∪ list_to_set tags) f f' rs /\ future_ok f') as Hloop.
  { induction tags as [|t tags IH]; intros T acc f1 Hf1 Hs.
    - exists f1, acc. split_and!; [done| |done]. by replace (T ∪ list_to_set []) with T by set_solver.
    - cbn [for_fold]. destruct (satisfy_one_tag_ok t acc f1 Hf1) as (f2 & rs & Hstep & Hs2). rewrite (bindM_ok _ _ _ _ _ Hstep).
      destruct (IH (T ∪ {[t]}) (acc ++ rs) f2) as (f' & rs' & Hrun & Hs' & Hf'); [by eapply satisfied_ok|by eapply satisfied_trans; [apply Hf|..]|].
      exists f', rs'. split_and!; [done| |done]. by replace (T ∪ list_to_set (t :: tags)) with (T ∪ {[t]} ∪ list_to_set tags) by set_solver. }
  destruct (Hloop ∅ [] f Hf (satisfied_refl f Hf)) as (f' & rs & Hrun & Hs & Hf'). exists f', rs.
  split_and!; [done| |done]. by replace (list_to_set tags) with (∅ ∪ list_to_set tags : gset Tag) by set_solver.
Qed.
End future.
