(* ===== verification/PoolOps.v ===== *)
(** * The transaction pool: import to the pool

    The invariant of the base pool and the loop that imports a transaction to the ready queue,
    with the transactions of the future queue that it unlocks. *)

From S2P Require Import Prelude PoolTypes PoolFuture PoolReady BasePool.
From S2P Require Import PoolGraph PoolRemove PoolImport PoolFutureSpec.

Section pool.
Context {P : Profile} {Hash Ex : Type} `{Iteration Hash, !Iteration Tag}.
Context (U : Transaction Hash Ex -> Prop) `{!Slots U}.
Notation tx_t := (Transaction Hash Ex).
Notation waiting_t := (WaitingTransaction Hash Ex).
Notation pool := (BasePool Hash Ex).
Implicit Types (p : pool) (w : waiting_t) (tx : tx_t).

(** ** The invariant *)

Notation entries p := (index (ready (ready_queue p))).
Notation waits p := (waiting (future p)).

Record pool_ok p : Prop := {
  pk_ready : ready_ok U (ready_queue p);
  pk_future : future_ok U (future p);
  pk_apart : forall h, is_Some (waits p !! h) -> entries p !! h = None;
  pk_wanted : forall t h, wanted_in (wanted_tags (future p)) t h -> provided_tags (ready_queue p) !! t = None;
  pk_pruned : length (recently_pruned p) = RECENTLY_PRUNED_TAGS /\ recently_pruned_index p < RECENTLY_PRUNED_TAGS
}.

(** The transactions of the pool. *)
Definition in_ready p tx : Prop := exists h r, entries p !! h = Some r /\ tx_of r = tx.
Definition in_future p tx : Prop := exists h w, waits p !! h = Some w /\ transaction w = tx.
Definition held p tx : Prop := in_ready p tx \/ in_future p tx.
Definition has p (h : Hash) : Prop := is_Some (entries p !! h) \/ is_Some (waits p !! h).

(** Insertion ids that the transactions of the pool have used or may still use. *)
Definition used p : N := (insertion_id (ready_queue p) + N.of_nat (size (waits p)))%N.

Lemma held_has p tx : pool_ok p -> held p tx -> has p (hash tx).
Proof.
  intros Hok [(h & r & Hr & <-)|(h & w & Hw & <-)].
  - left. rewrite (go_key _ _ _ (ro_graph _ _ _ (pk_ready _ Hok)) _ _ Hr). by eexists.
  - right. rewrite (fu_key _ _ (pk_future _ Hok) _ _ Hw). by eexists.
Qed.

Lemma has_held p h : pool_ok p -> has p h -> exists tx, held p tx /\ hash tx = h.
Proof.
  intros Hok [[r Hr]|[w Hw]].
  - exists (tx_of r). split; [left; by exists h, r|]. by apply (go_key _ _ _ (ro_graph _ _ _ (pk_ready _ Hok))).
  - exists (transaction w). split; [right; by exists h, w|]. by apply (fu_key _ _ (pk_future _ Hok)).
Qed.

Lemma held_known p tx : pool_ok p -> held p tx -> U tx.
Proof.
  intros Hok [(h & r & Hr & <-)|(h & w & Hw & <-)].
  - by apply (go_known _ _ _ (ro_graph _ _ _ (pk_ready _ Hok)) h).
  - by apply (fu_known _ _ (pk_future _ Hok) h).
Qed.

(** A hash names one transaction of the pool. *)
Lemma held_hash p tx tx' : pool_ok p -> held p tx -> held p tx' -> hash tx = hash tx' -> tx = tx'.
Proof.
  intros Hok Ht Ht' Heq.
  pose proof (go_key _ _ _ (ro_graph _ _ _ (pk_ready _ Hok))) as Hk. pose proof (fu_key _ _ (pk_future _ Hok)) as Hf.
  destruct Ht as [(h & r & Hr & <-)|(h & w & Hw & <-)], Ht' as [(h' & r' & Hr' & <-)|(h' & w' & Hw' & <-)].
  - rewrite (Hk _ _ Hr), (Hk _ _ Hr') in Heq. congruence.
  - rewrite (Hk _ _ Hr), (Hf _ _ Hw') in Heq. subst. assert (is_Some (waits p !! h')) as Hs by by eexists.
    apply (pk_apart _ Hok) in Hs. congruence.
  - rewrite (Hf _ _ Hw), (Hk _ _ Hr') in Heq. subst. assert (is_Some (waits p !! h')) as Hs by by eexists.
    apply (pk_apart _ Hok) in Hs. congruence.
  - rewrite (Hf _ _ Hw), (Hf _ _ Hw') in Heq. congruence.
Qed.

(** ** The transactions that a tag unlocks *)

Lemma satisfied_size T f f' rs : future_ok U f -> satisfied T f f' rs ->
  size (waiting f') + length rs = size (waiting f).
Proof.
  intros Hf Hs. rewrite <-!size_dom.
  rewrite <-(length_map (fun w : waiting_t => hash (transaction w)) rs), <-(size_list_to_set (C := gset Hash)) by apply Hs.
  rewrite <-size_union.
  - f_equal. apply set_eq. intros h. rewrite elem_of_union, elem_of_list_to_set, !elem_of_dom. rewrite (sf_waiting _ _ _ _ Hs). split.
    + intros [Hh|(w' & -> & Hw')%list_elem_of_fmap]; [by destruct (waiting f !! h)|].
      apply (sf_ready _ _ _ _ Hs) in Hw' as (h' & w & Hw & _ & ->). simpl. rewrite (fu_key _ _ Hf _ _ Hw). by eexists.
    + intros [w Hw]. rewrite Hw. simpl. case_decide; [right|by left; eexists].
      apply list_elem_of_fmap. exists (less T w). rewrite (sf_ready _ _ _ _ Hs). split; [|eauto]. simpl. by rewrite (fu_key _ _ Hf _ _ Hw).
  - intros h Hd. rewrite elem_of_dom, (sf_waiting _ _ _ _ Hs) in Hd.
    rewrite elem_of_list_to_set. intros (w' & -> & Hw')%list_elem_of_fmap.
    apply (sf_ready _ _ _ _ Hs) in Hw' as (h' & w & Hw & He & ->). simpl in Hd. rewrite (fu_key _ _ Hf _ _ Hw), Hw in Hd.
    simpl in Hd. rewrite decide_True in Hd by done. by destruct Hd.
Qed.

(** Transactions taken from the future queue that are ready. *)
Record unlocked_ok p (tags : list Tag) (w' : waiting_t) : Prop := {
  ul_ready : is_ready w' = true;
  ul_known : U (transaction w');
  ul_from : in_future p (transaction w');
  ul_tag : exists t, t ∈ tags /\ t ∈ requires (transaction w')
}.

Lemma satisfied_unlocked p tags f' rs w' : pool_ok p -> satisfied (list_to_set tags) (future p) f' rs -> w' ∈ rs ->
  unlocked_ok p tags w'.
Proof.
  intros Hok Hs Hin. apply (sf_ready _ _ _ _ Hs) in Hin as (h & w0 & Hw & He & ->). pose proof (pk_future _ Hok) as Hf. split.
  - apply bool_decide_eq_true. done.
  - simpl. by eapply fu_known.
  - by exists h, w0.
  - destruct (set_choose_L (missing_tags w0)) as [t Ht]; [by eapply fu_missing|].
    exists t. split; [|by apply (fu_required _ _ Hf h w0)]. assert (t ∈ (list_to_set tags : gset Tag)) as Hl by set_solver.
    by apply elem_of_list_to_set in Hl.
Qed.

Lemma satisfied_held p p' T rs tx : pool_ok p -> satisfied T (future p) (future p') rs ->
  in_future p tx <-> in_future p' tx \/ tx ∈ map transaction rs.
Proof.
  intros Hok Hs. split.
  - intros (h & w & Hw & <-). destruct (decide (missing_tags w ∖ T = ∅)) as [He|He].
    + right. apply list_elem_of_fmap. exists (less T w). split; [done|]. apply (sf_ready _ _ _ _ Hs). eauto.
    + left. exists h, (less T w). split; [|done]. rewrite (sf_waiting _ _ _ _ Hs), Hw. simpl. by rewrite decide_False.
  - intros [(h & w' & Hw' & <-)|(w' & -> & Hw')%list_elem_of_fmap].
    + rewrite (sf_waiting _ _ _ _ Hs) in Hw'. destruct (waits p !! h) as [w|] eqn:Hw; [|done]. simpl in Hw'.
      case_decide; simplify_eq. by exists h, w.
    + apply (sf_ready _ _ _ _ Hs) in Hw' as (h & w & Hw & _ & ->). by exists h, w.
Qed.

Lemma satisfied_has p p' T rs h : satisfied T (future p) (future p') rs -> is_Some (waits p' !! h) -> is_Some (waits p !! h).
Proof. intros Hs. rewrite (sf_waiting _ _ _ _ Hs). by destruct (waits p !! h). Qed.

Lemma satisfied_out p p' T rs w' : pool_ok p -> satisfied T (future p) (future p') rs -> w' ∈ rs ->
  waits p' !! hash (transaction w') = None.
Proof.
  intros Hok Hs (h & w & Hw & He & ->)%(sf_ready _ _ _ _ Hs). simpl. rewrite (fu_key _ _ (pk_future _ Hok) _ _ Hw).
  rewrite (sf_waiting _ _ _ _ Hs), Hw. simpl. by rewrite decide_True.
Qed.

Lemma satisfied_wanted T (f f' : FutureTransactions Hash Ex) rs t h : satisfied T f f' rs ->
  wanted_in (wanted_tags f') t h -> wanted_in (wanted_tags f) t h /\ t ∉ T.
Proof. intros Hs. rewrite !wanted_in_alt, (sf_wanted _ _ _ _ Hs). case_decide; simpl; set_solver. Qed.

(** ** One transaction enters the ready queue *)

(** The pool after [w] was handed to the ready queue, with what it unlocked ([rs]) still to be imported. *)
Record stepped p w (rs : list waiting_t) p' : Prop := {
  st_ok : pool_ok p';
  st_id : insertion_id (ready_queue p') = (insertion_id (ready_queue p) + 1)%N;
  st_size : size (waits p') + length rs = size (waits p);
  st_rs : forall w', w' ∈ rs -> unlocked_ok p (provides (transaction w)) w' /\ ~ has p' (hash (transaction w'));
  st_nodup : NoDup (map (fun w => hash (transaction w)) rs);
  st_future : forall tx, in_future p tx <-> in_future p' tx \/ tx ∈ map transaction rs;
  st_flag : reject_future_transactions p' = reject_future_transactions p;
  st_recent : recently_pruned p' = recently_pruned p /\ recently_pruned_index p' = recently_pruned_index p
}.

Lemma unwanted_satisfied p f' rs tags : pool_ok p -> satisfied (list_to_set tags) (future p) f' rs ->
  (forall t, t ∈ tags -> is_Some (provided_tags (ready_queue p) !! t)) -> rs = [] /\ waiting f' = waits p.
Proof.
  intros Hok Hs Hprov.
  assert (forall h w t, waits p !! h = Some w -> t ∈ missing_tags w -> t ∉ (list_to_set tags : gset Tag)) as Hno.
  { intros h w t Hw Ht Hin%elem_of_list_to_set.
    assert (provided_tags (ready_queue p) !! t = None) as Hn.
    { apply (pk_wanted _ Hok t h), (fu_wanted _ _ (pk_future _ Hok)). eauto. }
    destruct (Hprov t Hin) as [? ?]. congruence. }
  assert (forall h w, waits p !! h = Some w -> missing_tags w ∖ list_to_set tags <> ∅) as Hne.
  { intros h w Hw He. apply (fu_missing _ _ (pk_future _ Hok) h w Hw). apply set_eq. intros t. rewrite elem_of_empty.
    split; [|done]. intros Ht. pose proof (Hno h w t Hw Ht). set_solver. }
  split.
  - destruct rs as [|w rs]; [done|]. exfalso. destruct (proj1 (sf_ready _ _ _ _ Hs w)) as (h & w0 & Hw & He & _); [by left|]. by eapply Hne.
  - apply map_eq. intros h. rewrite (sf_waiting _ _ _ _ Hs). destruct (waits p !! h) as [w|] eqn:Hw; [|done]. simpl.
    rewrite decide_False by by eapply Hne. by rewrite less_none by by eauto.
Qed.

Lemma promote_step p w : pool_ok p -> U (transaction w) -> is_ready w = true -> ~ has p (hash (transaction w)) ->
  (insertion_id (ready_queue p) < u64_MAX)%N ->
  exists f1 rs r2 o, let p1 := set_future f1 p in let p2 := set_ready_queue r2 p1 in
    on_future (satisfy_tags (provides (transaction w))) p = (p1, Ok rs) /\
    on_ready (ready_import w) p1 = (p2, o) /\
    match o with
    | Ok replaced => stepped p w rs p2 /\
        entered U (transaction w) (insertion_id (ready_queue p) + 1) replaced (ready_queue p) r2
    | Err e => stepped p w rs p2 /\ rs = [] /\ waiting f1 = waits p /\ index (ready r2) = entries p /\
        provided_tags r2 = provided_tags (ready_queue p) /\
        exists h r, entries p !! h = Some r /\ same_slot (transaction w) (tx_of r) /\
          e = TooLowPriority (saturating_add_u64 0 (priority (tx_of r))) (priority (transaction w)) /\
          (priority (transaction w) <= saturating_add_u64 0 (priority (tx_of r)))%N
    | _ => False
    end.
Proof.
  intros Hok Hu Hready Hnew Hmax.
  destruct (satisfy_tags_ok U (provides (transaction w)) (future p) (pk_future _ Hok)) as (f1 & rs & Hsat & Hs & Hf1).
  assert (entries p !! hash (transaction w) = None) as Hnr by (apply eq_None_not_Some; intros ?; apply Hnew; by left).
  assert (forall w', w' ∈ rs -> is_Some (waits p !! hash (transaction w'))) as Hrsw.
  { intros w' (h & w0 & Hw & _ & ->)%(sf_ready _ _ _ _ Hs). simpl. rewrite (fu_key _ _ (pk_future _ Hok) _ _ Hw). by eexists. }
  assert (forall r2, ready_ok U r2 -> insertion_id r2 = (insertion_id (ready_queue p) + 1)%N ->
    (forall h, is_Some (index (ready r2) !! h) -> h = hash (transaction w) \/ is_Some (entries p !! h)) ->
    (forall t h, provided_tags r2 !! t = Some h -> t ∈ provides (transaction w) \/ is_Some (provided_tags (ready_queue p) !! t)) ->
    stepped p w rs (set_ready_queue r2 (set_future f1 p))) as Hstepped.
  { intros r2 Hr2 Hid Hdom Htags.
    assert (forall h, is_Some (waits p !! h) -> index (ready r2) !! h = None) as Hapart.
    { intros h Hh. apply eq_None_not_Some. intros [->|[r Hr]]%Hdom; [apply Hnew; by right|].
      apply (pk_apart _ Hok) in Hh. congruence. }
    split; try done; simpl.
    - split; [done..| | |apply Hok]; simpl.
      + intros h Hh. apply Hapart. by apply (satisfied_has p (set_future f1 p) _ _ _ Hs).
      + intros t h [Hw Ht]%(satisfied_wanted _ _ _ _ _ _ Hs). apply eq_None_not_Some. intros [h' [Hin|[h2 Hp]]%Htags].
        * set_solver.
        * apply (pk_wanted _ Hok) in Hw. congruence.
    - by eapply satisfied_size; [apply Hok|].
    - intros w' Hin. split; [by eapply satisfied_unlocked|]. intros [[r Hr]|Hw]; simpl in *.
      + rewrite Hapart in Hr; [done|auto].
      + pose proof (satisfied_out p (set_future f1 p) _ _ _ Hok Hs Hin) as Hn. simpl in Hn. rewrite Hn in Hw. by destruct Hw.
    - apply Hs.
    - intros tx. apply (satisfied_held p (set_ready_queue r2 (set_future f1 p)) _ _ _ Hok Hs). }
  assert (on_future (satisfy_tags (provides (transaction w))) p = (set_future f1 p, Ok rs)) as Hon
    by (unfold on_future; by rewrite Hsat).
  destruct (ready_import_ok U (ready_queue p) w (pk_ready _ Hok) Hu Hready Hnr Hmax)
    as [(h & r & Hr & Hss & Hall & Hprio & Himp)|(replaced & r2 & Himp & Hen & _)].
  - exists f1, rs, (set_insertion_id (insertion_id (ready_queue p) + 1) (ready_queue p)), (Err (TooLowPriority (saturating_add_u64 0 (priority (tx_of r))) (priority (transaction w)))).
    cbv zeta. split; [done|]. split; [unfold on_ready; simpl; by rewrite Himp|].
    destruct (unwanted_satisfied p f1 rs _ Hok Hs) as [Hrs Hwf]; [intros t Ht; by rewrite Hall by done|].
    split_and!; [|done..|by exists h, r]. apply Hstepped; simpl; [|done|by right|by right].
    destruct (pk_ready _ Hok) as [? ? ? Hi ?]. split; [done..| |done]. simpl. intros h' r' Hr'. apply Hi in Hr'. lia.
  - exists f1, rs, r2, (Ok replaced). cbv zeta. split; [done|]. split; [unfold on_ready; simpl; by rewrite Himp|]. split; [|done].
    apply Hstepped; [apply Hen|apply Hen| |].
    + intros h [r' Hr']. destruct (decide (h = hash (transaction w))) as [|Hne]; [by left|right].
      destruct (en_from _ _ _ _ _ _ Hen h r' Hr' Hne) as (r & ? & _). by eexists.
    + intros t h. rewrite (en_tags _ _ _ _ _ _ Hen). case_decide; [by left|]. intros ->. right. by eexists.
Qed.

(** The entries after a transaction entered. *)
Lemma entered_ready p p' tx id replaced tx' : pool_ok p ->
  entered U tx id replaced (ready_queue p) (ready_queue p') -> entries p !! hash tx = None ->
  in_ready p tx' \/ tx' = tx <-> in_ready p' tx' \/ tx' ∈ replaced.
Proof.
  intros Hok Hen Hnew. split.
  - intros [(h & r & Hr & <-)| ->].
    + destruct (decide (Exists (fun t => t ∈ provides (tx_of r)) (provides tx))) as [Hs|Hs].
      { right. apply (en_replaced _ _ _ _ _ _ Hen). exists h, r. split_and!; [done..|]. by apply Exists_exists in Hs. }
      assert (tx_of r ∉ replaced) as Hnot.
      { intros (_ & _ & _ & _ & Hss)%(en_replaced _ _ _ _ _ _ Hen). by apply Hs, Exists_exists. }
      destruct (en_kept _ _ _ _ _ _ Hen h r Hr Hnot) as (r' & Hr' & Hx & _). left. exists h, r'. by rewrite Hx.
    + left. destruct (en_new _ _ _ _ _ _ Hen) as [us Hus]. by eexists _, _.
  - intros [(h & r' & Hr' & <-)|Hin].
    + destruct (decide (h = hash tx)) as [->|Hne].
      * right. destruct (en_new _ _ _ _ _ _ Hen) as [us Hus]. rewrite Hus in Hr'. by simplify_eq.
      * left. destruct (en_from _ _ _ _ _ _ Hen h r' Hr' Hne) as (r & Hr & _ & Hx). exists h, r. by rewrite Hx.
    + left. apply (en_replaced _ _ _ _ _ _ Hen) in Hin as (h & r & Hr & <- & _). by exists h, r.
Qed.

Lemma entered_entry p p' tx id replaced h : pool_ok p ->
  entered U tx id replaced (ready_queue p) (ready_queue p') -> entries p !! hash tx = None ->
  is_Some (entries p' !! h) <-> h = hash tx \/ (is_Some (entries p !! h) /\ h ∉ map hash replaced).
Proof.
  intros Hok Hen Hnew. pose proof (go_key _ _ _ (ro_graph _ _ _ (pk_ready _ Hok))) as Hk. split.
  - intros [r' Hr']. destruct (decide (h = hash tx)) as [|Hne]; [by left|right].
    destruct (en_from _ _ _ _ _ _ Hen h r' Hr' Hne) as (r & Hr & Hnot & Hx). split; [by eexists|].
    intros (tx1 & -> & Hin)%list_elem_of_fmap. apply Hnot.
    pose proof Hin as (h1 & r1 & Hr1 & <- & _)%(en_replaced _ _ _ _ _ _ Hen).
    rewrite (Hk _ _ Hr1) in Hr. by simplify_eq.
  - intros [->|[[r Hr] Hnot]].
    + destruct (en_new _ _ _ _ _ _ Hen) as [us Hus]. by eexists.
    + destruct (en_kept _ _ _ _ _ _ Hen h r Hr) as (r' & Hr' & _); [|by eexists].
      intros Hin. apply Hnot, list_elem_of_fmap. exists (tx_of r). split; [|done]. symmetry. by apply Hk.
Qed.

(** ** The loop of [import_to_ready] *)

Notation state := (ImportState (Hash := Hash) (Ex := Ex)).
Implicit Types l : state.

(** What holds in every round, from the pool [p0] and the transaction [w0]. *)
Record importing p0 w0 l p : Prop := {
  im_ok : pool_ok p;
  im_failed : failed l = [];
  im_used : (used p + N.of_nat (length (to_import l)) <= used p0 + 1)%N;
  im_todo : forall w, w ∈ to_import l ->
    is_ready w = true /\ U (transaction w) /\ ~ has p (hash (transaction w));
  im_todo_nodup : NoDup (map (fun w => hash (transaction w)) (to_import l));
  im_kept : forall tx, held p0 tx \/ tx = transaction w0 <->
    held p tx \/ tx ∈ map transaction (to_import l) \/ tx ∈ removed l;
  im_removed : forall tx, tx ∈ removed l ->
    ~ has p (hash tx) /\ hash tx ∉ map (fun w => hash (transaction w)) (to_import l);
  im_removed_nodup : NoDup (map hash (removed l));
  im_promoted : NoDup (promoted l) /\
    forall h, h ∈ promoted l <-> is_Some (waits p0 !! h) /\ is_Some (entries p !! h);
  im_future : forall tx, in_future p tx -> in_future p0 tx;
  im_flag : reject_future_transactions p = reject_future_transactions p0;
  im_recent : recently_pruned p = recently_pruned p0 /\ recently_pruned_index p = recently_pruned_index p0
}.

(** The smallest rank of the tags of a transaction. *)
Definition lowest tx (n : nat) : Prop :=
  (exists t, t ∈ provides tx /\ rank t = n) /\ forall t, t ∈ provides tx -> n <= rank t.

Lemma lowest_exists tx t : t ∈ provides tx -> exists n, lowest tx n.
Proof.
  unfold lowest. induction (provides tx) as [|t' ts IH] in t |- *; [by intros ?%elem_of_nil|]. intros _.
  destruct ts as [|t2 ts]; [exists (rank t'); split; [exists t'; split; [by left|done]|by intros t1 ->%list_elem_of_singleton]|].
  destruct (IH t2) as (n & (t1 & Ht1 & Hr1) & Hmin); [by left|].
  destruct (decide (rank t' <= n)).
  - exists (rank t'). split; [exists t'; split; [by left|done]|]. intros t3 [->|H3]%elem_of_cons; [done|]. specialize (Hmin t3 H3). lia.
  - exists n. split; [exists t1; split; [by right|done]|]. intros t3 [->|H3]%elem_of_cons; [lia|auto].
Qed.

(** A transaction that comes above [tx0]: it cannot be in its slot. *)
Definition above tx0 tx : Prop := exists n, lowest tx0 n /\ forall t, t ∈ provides tx -> n < rank t.

Lemma above_other_slot tx0 tx : U tx0 -> U tx -> above tx0 tx -> ~ same_slot tx tx0.
Proof.
  intros Hu0 Hu (n & ((t0 & Ht0 & Hr0) & _) & Habove) (t & Ht & Ht').
  pose proof (slots_same tx0 tx t Hu0 Hu Ht' Ht t0 Ht0) as Hin. specialize (Habove t0 Hin). lia.
Qed.

(** What comes after [tx0], or after a transaction above it, is above it. *)
Lemma above_next tx0 tx tx' t : U tx' -> t ∈ provides tx -> t ∈ requires tx' -> tx = tx0 \/ above tx0 tx -> above tx0 tx'.
Proof.
  intros Hu' Ht Ht' [->|(n & Hlow & Habove)].
  - destruct (lowest_exists tx0 t Ht) as [n Hlow]. exists n. split; [done|]. intros q Hq.
    pose proof (slots_rank tx' t q Hu' Ht' Hq). destruct Hlow as [_ Hmin]. specialize (Hmin t Ht). lia.
  - exists n. split; [done|]. intros q Hq. pose proof (slots_rank tx' t q Hu' Ht' Hq). specialize (Habove t Ht). lia.
Qed.

(** The stages: before the first round, and after it. *)
Definition stage p0 w0 l p : Prop :=
  if first l then to_import l = [w0] /\ p = p0 /\ removed l = [] /\ promoted l = []
  else in_ready p (transaction w0) /\
    forall w, w ∈ to_import l -> in_future p0 (transaction w) /\ above (transaction w0) (transaction w).

Lemma importing_start p w : pool_ok p -> U (transaction w) -> is_ready w = true -> ~ has p (hash (transaction w)) ->
  importing p w (mkImportState [] [] [] true [w]) p.
Proof.
  intros Hok Hu Hready Hnew. split; simpl; try done.
  - by intros w' ->%list_elem_of_singleton.
  - apply NoDup_singleton.
  - intros tx. rewrite list_elem_of_singleton, elem_of_nil. tauto.
  - by intros tx ?%elem_of_nil.
  - constructor.
  - split; [constructor|]. intros h. split; [by intros ?%elem_of_nil|]. intros [Hw [r Hr]]. apply (pk_apart _ Hok) in Hw. congruence.
Qed.

(** What waits after a step waited before, and so did what it unlocked; what it replaced was ready. *)
Lemma stepped_waits p w rs p2 h : pool_ok p -> stepped p w rs p2 -> is_Some (waits p2 !! h) -> is_Some (waits p !! h).
Proof.
  intros Hok Hst [w' Hw']. assert (in_future p (transaction w')) as (h' & w1 & Hw1 & Hx).
  { apply (st_future _ _ _ _ Hst). left. by exists h, w'. }
  pose proof (fu_key _ _ (pk_future _ (st_ok _ _ _ _ Hst)) _ _ Hw') as Hk.
  rewrite <-Hx, (fu_key _ _ (pk_future _ Hok) _ _ Hw1) in Hk. subst. by eexists.
Qed.

Lemma stepped_unlocked p w rs p2 w' : pool_ok p -> stepped p w rs p2 -> w' ∈ rs -> is_Some (waits p !! hash (transaction w')).
Proof.
  intros Hok Hst Hin. destruct (st_rs _ _ _ _ Hst w' Hin) as [[_ _ (h & w1 & Hw1 & Hx) _] _].
  rewrite <-Hx, (fu_key _ _ (pk_future _ Hok) _ _ Hw1). by eexists.
Qed.

Lemma replaced_entry p p2 tx id replaced tx' : pool_ok p -> entered U tx id replaced (ready_queue p) (ready_queue p2) ->
  tx' ∈ replaced -> is_Some (entries p !! hash tx').
Proof.
  intros Hok Hen (h & r & Hr & <- & _)%(en_replaced _ _ _ _ _ _ Hen).
  rewrite (go_key _ _ _ (ro_graph _ _ _ (pk_ready _ Hok)) _ _ Hr). by eexists.
Qed.

(** A round in which the transaction enters: the promoted transactions that were replaced are forgotten. *)
Lemma promoted_retained p0 p p2 w id replaced (before : list Hash) : pool_ok p ->
  entered U (transaction w) id replaced (ready_queue p) (ready_queue p2) -> entries p !! hash (transaction w) = None ->
  NoDup before ->
  (forall h, h ∈ before <-> is_Some (waits p0 !! h) /\ (is_Some (entries p !! h) \/ h = hash (transaction w))) ->
  let after := List.filter (fun h => forallb (fun tx => bool_decide (h <> hash tx)) replaced) before in
  NoDup after /\ forall h, h ∈ after <-> is_Some (waits p0 !! h) /\ is_Some (entries p2 !! h).
Proof.
  intros Hok Hen Hnr Hnd Hbefore. split; [by eapply sublist_NoDup, filter_sublist|]. intros h.
  rewrite elem_of_filter_true, Hbefore, (entered_entry p p2 (transaction w) id replaced h Hok Hen Hnr), forallb_forall.
  assert ((forall tx, In tx replaced -> bool_decide (h <> hash tx) = true) <-> h ∉ map hash replaced) as ->.
  { setoid_rewrite bool_decide_eq_true. setoid_rewrite <-list_elem_of_In. split.
    - intros Hall (tx & -> & Hin)%list_elem_of_fmap. by apply (Hall tx).
    - intros Hn tx Hin ->. apply Hn, list_elem_of_fmap. eauto. }
  split; [tauto|]. intros [Hw [->|[Hs Hn]]]; [|tauto]. split; [tauto|].
  intros (tx & Heq & Hin)%list_elem_of_fmap. apply (replaced_entry p p2 _ _ _ _ Hok Hen) in Hin. rewrite <-Heq, Hnr in Hin. by destruct Hin.
Qed.

(** What was replaced is not in the pool, and is not to be imported. *)
Lemma replaced_gone p0 w0 l p w todo replaced rs p2 tx :
  importing p0 w0 l p -> to_import l = todo ++ [w] -> stepped p w rs p2 ->
  entered U (transaction w) (insertion_id (ready_queue p) + 1) replaced (ready_queue p) (ready_queue p2) -> tx ∈ replaced ->
  ~ has p2 (hash tx) /\ hash tx ∉ map (fun w => hash (transaction w)) (todo ++ rs).
Proof.
  intros Him Hl Hst Hen Hin. destruct Him as [Hok _ _ Htodo _ _ _ _ _ _ _ _]. rewrite Hl in *.
  destruct (Htodo w) as (_ & _ & Hnew); [set_solver|].
  assert (entries p !! hash (transaction w) = None) as Hnr by (apply eq_None_not_Some; intros ?; apply Hnew; by left).
  assert (is_Some (entries p !! hash tx)) as Hs by (by eapply replaced_entry). split.
  - intros [Hent|Hw].
    + apply (proj1 (entered_entry p p2 _ _ _ _ Hok Hen Hnr)) in Hent as [Heq|[_ Hn]].
      * rewrite Heq, Hnr in Hs. by destruct Hs.
      * apply Hn, list_elem_of_fmap. eauto.
    + apply (stepped_waits p w rs p2 _ Hok Hst), (pk_apart _ Hok) in Hw. rewrite Hw in Hs. by destruct Hs.
  - rewrite map_app, not_elem_of_app. split; intros (w' & Heq & Hw')%list_elem_of_fmap.
    + destruct (Htodo w') as (_ & _ & Hn); [set_solver|]. apply Hn. left. by rewrite <-Heq.
    + apply (stepped_unlocked p w rs p2 _ Hok Hst), (pk_apart _ Hok) in Hw'. rewrite <-Heq in Hw'. rewrite Hw' in Hs. by destruct Hs.
Qed.

(** A round in which the transaction enters; [before] is what was promoted so far, with it. *)
Lemma importing_entered p0 w0 l p w todo replaced rs p2 before :
  importing p0 w0 l p -> to_import l = todo ++ [w] -> stepped p w rs p2 ->
  entered U (transaction w) (insertion_id (ready_queue p) + 1) replaced (ready_queue p) (ready_queue p2) ->
  NoDup before ->
  (forall h, h ∈ before <-> is_Some (waits p0 !! h) /\ (is_Some (entries p !! h) \/ h = hash (transaction w))) ->
  importing p0 w0 (mkImportState
    (List.filter (fun h => forallb (fun tx => bool_decide (h <> hash tx)) replaced) before)
    (failed l) (removed l ++ replaced) false (todo ++ rs)) p2.
Proof.
  intros Him Hl Hst Hen Hnd Hbefore. pose proof (fun tx => replaced_gone p0 w0 l p w todo replaced rs p2 tx Him Hl Hst Hen) as Hgone.
  destruct Him as [Hok Hf Hu Htodo Htn Hkept Hrem Hrn _ Hfut Hfl Hrec].
  rewrite Hl in *. pose proof (st_ok _ _ _ _ Hst) as Hok2.
  destruct (Htodo w) as (_ & _ & Hnew); [set_solver|].
  assert (entries p !! hash (transaction w) = None) as Hnr by (apply eq_None_not_Some; intros ?; apply Hnew; by left).
  assert (forall tx, in_ready p tx \/ tx = transaction w <-> in_ready p2 tx \/ tx ∈ replaced) as Hready
    by (intros tx; by eapply entered_ready).
  assert (forall h, is_Some (entries p2 !! h) <-> h = hash (transaction w) \/ (is_Some (entries p !! h) /\ h ∉ map hash replaced)) as Hent
    by (intros h; by eapply entered_entry).
  assert (forall tx, tx ∈ replaced -> is_Some (entries p !! hash tx)) as Hrepl by (intros tx; by eapply replaced_entry).
  assert (forall h, is_Some (waits p2 !! h) -> is_Some (waits p !! h)) as Hwaits by (intros h; by eapply stepped_waits).
  assert (forall h, has p2 h -> has p h \/ h = hash (transaction w)) as Hhas.
  { intros h [[->|[? _]]%Hent|?%Hwaits]; [by right|left; by left|left; by right]. }
  assert (forall w', w' ∈ rs -> is_Some (waits p !! hash (transaction w'))) as Hrs by (intros w'; by eapply stepped_unlocked).
  rewrite map_app in Htn. apply NoDup_app in Htn as (Htn & Hdis & _).
  split; simpl; try done.
  - unfold used in *. rewrite (st_id _ _ _ _ Hst). pose proof (st_size _ _ _ _ Hst).
    rewrite length_app in *. simpl in *. lia.
  - intros w' [Hin|Hin]%elem_of_app.
    + destruct (Htodo w') as (? & ? & Hn); [set_solver|]. split_and!; [done..|]. intros [?|Heq]%Hhas; [done|].
      apply (Hdis (hash (transaction w'))); [apply list_elem_of_fmap; eauto|]. rewrite Heq. by apply list_elem_of_singleton.
    + destruct (st_rs _ _ _ _ Hst w' Hin) as [[? ? _ _] ?]. done.
  - rewrite map_app. apply NoDup_app. split_and!; [done| |apply Hst].
    intros h (w1 & -> & H1)%list_elem_of_fmap (w2 & Heq & H2)%list_elem_of_fmap.
    destruct (Htodo w1) as (_ & _ & Hn); [set_solver|]. apply Hn. right. rewrite Heq. auto.
  - intros tx. rewrite Hkept, !map_app, !elem_of_app. simpl. rewrite list_elem_of_singleton.
    specialize (Hready tx). pose proof (st_future _ _ _ _ Hst tx). unfold held. tauto.
  - intros tx [Hin|Hin]%elem_of_app.
    + destruct (Hrem tx Hin) as [Hn Hnot]. rewrite map_app, not_elem_of_app in Hnot. destruct Hnot as [Hnot Hne].
      split.
      * intros [?|Heq]%Hhas; [done|]. apply Hne. rewrite Heq. by apply list_elem_of_singleton.
      * rewrite map_app, not_elem_of_app. split; [done|]. intros (w' & Heq & Hw')%list_elem_of_fmap. apply Hn. right. rewrite Heq. auto.
    + by apply Hgone.
  - rewrite map_app. apply NoDup_app. split_and!; [done| |].
    + intros h (tx1 & -> & H1)%list_elem_of_fmap (tx2 & Heq & H2)%list_elem_of_fmap.
      destruct (Hrem tx1 H1) as [Hn _]. apply Hn. left. rewrite Heq. auto.
    + pose proof (en_one _ _ _ _ _ _ Hen) as Hone. destruct replaced as [|tx1 [|]]; simpl in *; [constructor|apply NoDup_singleton|lia].
  - by apply (promoted_retained p0 p p2 w (insertion_id (ready_queue p) + 1) replaced before).
  - intros tx Hin. apply Hfut, (st_future _ _ _ _ Hst). by left.
  - rewrite <-Hfl. apply Hst.
  - destruct (st_recent _ _ _ _ Hst), Hrec. split; congruence.
Qed.

(** A later round in which the transaction is refused. *)
Lemma importing_refused p0 w0 l p w todo p2 :
  importing p0 w0 l p -> to_import l = todo ++ [w] -> stepped p w [] p2 ->
  waits p2 = waits p -> entries p2 = entries p ->
  importing p0 w0 (mkImportState
    (List.filter (fun h => bool_decide (h <> hash (transaction w))) (promoted l))
    (failed l) (removed l ++ [transaction w]) false (todo ++ [])) p2.
Proof.
  intros Him Hl Hst Hw He. destruct Him as [Hok Hf Hu Htodo Htn Hkept Hrem Hrn [Hpn Hp] Hfut Hfl Hrec].
  rewrite Hl in *. rewrite app_nil_r. destruct (Htodo w) as (_ & _ & Hnew); [set_solver|].
  assert (forall h, has p2 h <-> has p h) as Hhas by (intros h; unfold has; by rewrite Hw, He).
  assert (forall tx, held p2 tx <-> held p tx) as Hheld by (intros tx; unfold held, in_ready, in_future; by rewrite Hw, He).
  rewrite map_app in Htn. apply NoDup_app in Htn as (Htn & Hdis & _).
  split; simpl; try done.
  - apply Hst.
  - unfold used in *. rewrite (st_id _ _ _ _ Hst), Hw. rewrite length_app in Hu. simpl in Hu. lia.
  - intros w' Hin. rewrite Hhas. apply Htodo. set_solver.
  - intros tx. rewrite Hkept, Hheld, map_app, !elem_of_app. simpl. rewrite !list_elem_of_singleton. tauto.
  - intros tx. rewrite Hhas. intros [Hin|Hin]%elem_of_app.
    + destruct (Hrem tx Hin) as [Hn Hnot]. rewrite map_app, not_elem_of_app in Hnot. tauto.
    + apply list_elem_of_singleton in Hin as ->. split; [done|]. intros Hin. apply (Hdis _ Hin). by apply list_elem_of_singleton.
  - rewrite map_app. apply NoDup_app. split_and!; [done| |apply NoDup_singleton].
    intros h (tx1 & -> & H1)%list_elem_of_fmap Heq%list_elem_of_singleton. destruct (Hrem tx1 H1) as [_ Hnot].
    apply Hnot. rewrite map_app, elem_of_app, Heq. right. by left.
  - split; [by eapply sublist_NoDup, filter_sublist|]. intros h. rewrite elem_of_filter_true, Hp, He, bool_decide_eq_true.
    split; [tauto|]. intros [? Hs]. split; [done|]. intros ->. apply Hnew. by left.
  - intros tx. unfold in_future. rewrite Hw. apply Hfut.
  - rewrite <-Hfl. apply Hst.
  - destruct (st_recent _ _ _ _ Hst), Hrec. split; congruence.
Qed.

(** What [import_to_ready] leaves: everything of the pool, with the new transaction, is in the
    pool or was removed. *)
Record imported_ok p0 w0 (promoted : list Hash) (removed : list tx_t) p : Prop := {
  io_ok : pool_ok p;
  io_used : (used p <= used p0 + 1)%N;
  io_ready : in_ready p (transaction w0);
  io_kept : forall tx, held p0 tx \/ tx = transaction w0 <-> held p tx \/ tx ∈ removed;
  io_removed : forall tx, tx ∈ removed -> ~ has p (hash tx);
  io_nodup : NoDup (map hash removed);
  io_promoted : NoDup promoted /\ forall h, h ∈ promoted <-> is_Some (waits p0 !! h) /\ is_Some (entries p !! h);
  io_future : forall tx, in_future p tx -> in_future p0 tx;
  io_flag : reject_future_transactions p = reject_future_transactions p0;
  io_recent : recently_pruned p = recently_pruned p0 /\ recently_pruned_index p = recently_pruned_index p0
}.

(** A refused transaction leaves the pool as it was. *)
Record refused p0 w0 (e : Error Hash) p : Prop := {
  rf_ok : pool_ok p;
  rf_waits : waits p = waits p0;
  rf_entries : entries p = entries p0;
  rf_tags : provided_tags (ready_queue p) = provided_tags (ready_queue p0);
  rf_used : (used p <= used p0 + 1)%N;
  rf_flag : reject_future_transactions p = reject_future_transactions p0;
  rf_recent : recently_pruned p = recently_pruned p0 /\ recently_pruned_index p = recently_pruned_index p0;
  rf_why : exists h r, entries p0 !! h = Some r /\ same_slot (transaction w0) (tx_of r) /\
    e = TooLowPriority (saturating_add_u64 0 (priority (tx_of r))) (priority (transaction w0)) /\
    (priority (transaction w0) <= saturating_add_u64 0 (priority (tx_of r)))%N
}.

(** The round in which [w] enters keeps the invariant. *)
Lemma round_entered p0 w0 l p w todo replaced rs p2 before : U (transaction w0) ->
  importing p0 w0 l p -> to_import l = todo ++ [w] -> stepped p w rs p2 ->
  entered U (transaction w) (insertion_id (ready_queue p) + 1) replaced (ready_queue p) (ready_queue p2) ->
  NoDup before ->
  (forall h, h ∈ before <-> is_Some (waits p0 !! h) /\ (is_Some (entries p !! h) \/ h = hash (transaction w))) ->
  (forall w', w' ∈ todo -> in_future p0 (transaction w') /\ above (transaction w0) (transaction w')) ->
  (transaction w = transaction w0 \/ above (transaction w0) (transaction w)) ->
  in_ready p2 (transaction w0) ->
  let l' := mkImportState
    (List.filter (fun h => forallb (fun tx => bool_decide (h <> hash tx)) replaced) before)
    (failed l) (removed l ++ replaced) false (todo ++ rs) in
  (importing p0 w0 l' p2 /\ stage p0 w0 l' p2) /\
  length (to_import l') + size (waits p2) < length (to_import l) + size (waits p).
Proof.
  intros Hu0 Him Hl Hst Hen Hnd Hbefore Htodo Hab Hin. split; [split; [by eapply importing_entered|]|].
  - split; [done|]. simpl. intros w' [Hw'|Hw']%elem_of_app; [auto|].
    destruct (st_rs _ _ _ _ Hst w' Hw') as [[_ Hu' Hfrom (t & Ht & Ht')] _]. split; [by eapply im_future|].
    eapply above_next; done.
  - pose proof (st_size _ _ _ _ Hst). cbn [to_import]. rewrite Hl, !length_app. cbn [length]. lia.
Qed.

Lemma import_round_ok p0 w0 l p :
  pool_ok p0 -> U (transaction w0) -> ~ has p0 (hash (transaction w0)) -> (used p0 + 1 <= u64_MAX)%N ->
  importing p0 w0 l p -> stage p0 w0 l p ->
  postM (import_round l) p
    (fun c p' => match c with
                 | Continue l' => (importing p0 w0 l' p' /\ stage p0 w0 l' p') /\
                     length (to_import l') + size (waits p') < length (to_import l) + size (waits p)
                 | Break l' => l' = l /\ p' = p /\ to_import l = []
                 end)
    (fun e p' => refused p0 w0 e p').
Proof.
  intros Hok0 Hu0 Hnew0 Hmax Him Hstage. unfold import_round.
  destruct (pop_cases (to_import l)) as [[Hl ->]|(todo & w & Hl & ->)]; [done|].
  pose proof (im_ok _ _ _ _ Him) as Hok. pose proof (im_used _ _ _ _ Him) as Hused.
  destruct (im_todo _ _ _ _ Him w) as (Hready & Hu & Hnew); [rewrite Hl; set_solver|].
  destruct (promote_step p w Hok Hu Hready Hnew) as (f1 & rs & r2 & o & Hsat & Himp & Ho).
  { rewrite Hl, length_app in Hused. unfold used in *. simpl in Hused. lia. }
  set (p2 := set_ready_queue r2 (set_future f1 p)) in *.
  apply postM_bind. unfold postM at 1. rewrite Hsat. apply postM_bind. unfold postM at 1, caught. rewrite Himp.
  destruct o as [replaced|e| |]; [| |done..].
  - destruct Ho as [Hst Hen].
    unfold stage in Hstage. destruct (first l) eqn:Hfirst.
    + destruct Hstage as (Hl0 & -> & _ & Hprom). assert (todo = [] /\ w = w0) as [-> ->].
      { rewrite Hl0 in Hl. destruct todo as [|? []]; by simplify_eq/=. }
      rewrite Hprom. eapply (round_entered p0 w0 l p0 w0 []); [done..|constructor| |by intros w' ?%elem_of_nil|by left|].
      * intros h. split; [by intros ?%elem_of_nil|]. intros [Hw [[r Hr]| ->]]; [apply (pk_apart _ Hok) in Hw; congruence|].
        exfalso. apply Hnew. by right.
      * destruct (en_new _ _ _ _ _ _ Hen) as [us Hus]. by eexists _, _.
    + destruct Hstage as [Hin Htodo]. destruct (Htodo w) as [Hwf Hab]; [rewrite Hl; set_solver|].
      assert (is_Some (waits p0 !! hash (transaction w))) as Hw0.
      { destruct Hwf as (h & w1 & Hw1 & <-). rewrite (fu_key _ _ (pk_future _ Hok0) _ _ Hw1). by eexists. }
      destruct (im_promoted _ _ _ _ Him) as [Hpn Hp]. eapply (round_entered p0 w0 l p w todo); [done..| | | |by right|].
      * apply NoDup_app. split_and!; [done| |apply NoDup_singleton]. intros h [_ ?]%Hp ->%list_elem_of_singleton. apply Hnew. by left.
      * intros h. rewrite elem_of_app, list_elem_of_singleton, Hp. naive_solver.
      * intros w' Hw'. apply Htodo. rewrite Hl. set_solver.
      * assert (in_ready p2 (transaction w0) \/ transaction w0 ∈ replaced) as [?|Hrep]; [|done|].
        { eapply (entered_ready p p2); [done|exact Hen| |by left]. apply eq_None_not_Some. intros ?. apply Hnew. by left. }
        apply (en_replaced _ _ _ _ _ _ Hen) in Hrep as (_ & _ & _ & _ & Hss). exfalso.
        exact (above_other_slot _ _ Hu0 Hu Hab Hss).
  - destruct Ho as (Hst & -> & Hwf & He & Hpt & h & r & Hr & Hss & -> & Hprio). unfold stage in Hstage.
    destruct (first l) eqn:Hfirst.
    + destruct Hstage as (Hl0 & -> & _ & _). assert (w = w0) as ->.
      { rewrite Hl0 in Hl. destruct todo as [|? []]; by simplify_eq/=. }
      split; [apply Hst|done..| | | |by exists h, r].
      * unfold used. rewrite (st_id _ _ _ _ Hst). simpl. rewrite Hwf. lia.
      * apply Hst.
      * apply Hst.
    + destruct Hstage as [Hin Htodo]. split; [split; [by eapply importing_refused|]|].
      * split; [|simpl; rewrite app_nil_r; intros w' Hw'; apply Htodo; rewrite Hl; set_solver].
        destruct Hin as (h' & r' & Hr' & Hx). exists h', r'. simpl. by rewrite He.
      * simpl. rewrite Hl, app_nil_r, length_app, Hwf. simpl. lia.
Qed.

(** [import_to_ready] returns: it never detects a cycle, loses nothing, and refuses a
    transaction only for a better one in its slot. *)
Lemma import_to_ready_ok p w : pool_ok p -> U (transaction w) -> is_ready w = true ->
  ~ has p (hash (transaction w)) -> (used p + 1 <= u64_MAX)%N ->
  postM (import_to_ready w) p
    (fun i p' => exists promoted removed, i = ImportedReady (hash (transaction w)) promoted [] removed /\
       imported_ok p w promoted removed p')
    (fun e p' => refused p w e p').
Proof.
  intros Hok Hu Hready Hnew Hmax. unfold import_to_ready. rewrite postM_get. apply postM_bind.
  eapply (postM_mono _ _ (fun l p' => (importing p w l p' /\ stage p w l p') /\ to_import l = [])).
  - refine (loopM_post _ (fun l p' => importing p w l p' /\ stage p w l p')
      (fun l p' => length (to_import l) + size (waits p')) _ _ _ _ (mkImportState [] [] [] true [w]) p _ _).
    + intros l p' [Him Hst]. eapply postM_mono; [by apply (import_round_ok p w)| |done].
      intros [l'|l'] p2; [done|]. intros (-> & -> & Hl). done.
    + split; [by apply importing_start|]. by split_and!.
    + simpl. lia.
  - intros l p' [[Him Hst] Hl]. unfold stage in Hst.
    destruct (first l); [destruct Hst as (Hl' & _); congruence|]. destruct Hst as [Hin _].
    assert (forall tx, tx ∈ removed l -> hash tx <> hash (transaction w)) as Hne.
    { intros tx Htx Heq. destruct (im_removed _ _ _ _ Him tx Htx) as [Hn _]. apply Hn. rewrite Heq.
      apply held_has; [apply Him|by left]. }
    assert (existsb (fun tx => bool_decide (hash tx = hash (transaction w))) (removed l) = false) as ->.
    { apply existsb_false. intros tx Htx. apply bool_decide_eq_false. auto. }
    exists (promoted l), (removed l). rewrite (im_failed _ _ _ _ Him). split; [done|].
    destruct Him as [Hok' Hf Hus Htodo Htn Hkept Hrem Hrn Hp Hfut Hfl Hrec]. rewrite Hl in *. split; try done.
    + simpl in Hus. lia.
    + intros tx. rewrite Hkept. simpl. rewrite elem_of_nil. tauto.
    + intros tx Htx. by apply Hrem.
  - done.
Qed.
End pool.
