(* ===== verification/PoolRequests.v ===== *)
(** * The transaction pool: the operations of the pool

    The effect of every operation of the base pool on a pool that satisfies the invariant: which
    transactions it holds afterwards, and which it reports as removed. *)

From S2P Require Import Prelude PoolTypes PoolFuture PoolReady BasePool.
From S2P Require Import PoolGraph PoolRemove PoolImport PoolPrune PoolFutureSpec PoolOps.

Section requests.
Context {P : Profile} {Hash Ex : Type} `{Iteration Hash, !Iteration Tag}.
Context (U : Transaction Hash Ex -> Prop) `{!Slots U}.
Notation tx_t := (Transaction Hash Ex).
Notation waiting_t := (WaitingTransaction Hash Ex).
Notation pool := (BasePool Hash Ex).
Notation entries p := (index (ready (ready_queue p))).
Notation waits p := (waiting (future p)).
Implicit Types (p : pool) (w : waiting_t) (tx : tx_t).

(** ** Import *)

(** A tag that the pool counts as satisfied. *)
Definition satisfied_tag p (t : Tag) : Prop :=
  is_Some (provided_tags (ready_queue p) !! t) \/ exists x, x ∈ recently_pruned p /\ t ∈ x.

Lemma waiting_new_missing p now tx t :
  t ∈ missing_tags (waiting_new now tx (provided_tags (ready_queue p)) (recently_pruned p)) <->
  t ∈ requires tx /\ ~ satisfied_tag p t.
Proof.
  unfold waiting_new, satisfied_tag. simpl. rewrite elem_of_list_to_set, elem_of_filter_true, negb_true_iff, orb_false_iff.
  rewrite bool_decide_eq_false, existsb_false. setoid_rewrite bool_decide_eq_false. naive_solver.
Qed.

Lemma is_imported_spec h p : is_imported h p = true <-> has p h.
Proof.
  unfold is_imported, future_contains, ready_contains, tm_contains_key, has.
  rewrite orb_true_iff, !bool_decide_eq_true. tauto.
Qed.

(** The pool after [w] went to the future queue. *)
Record queued p w p' : Prop := {
  qu_ok : pool_ok U p';
  qu_waits : waits p' = <[hash (transaction w) := w]> (waits p);
  qu_ready : ready_queue p' = ready_queue p;
  qu_used : (used p' = used p + 1)%N
}.

Lemma queue_ok_future p w : pool_ok U p -> U (transaction w) -> is_ready w = false ->
  (forall t, t ∈ missing_tags w -> t ∈ requires (transaction w) /\ provided_tags (ready_queue p) !! t = None) ->
  ~ has p (hash (transaction w)) ->
  exists p', on_future (future_import w) p = (p', Ok tt) /\ queued p w p' /\
    reject_future_transactions p' = reject_future_transactions p /\
    recently_pruned p' = recently_pruned p /\ recently_pruned_index p' = recently_pruned_index p.
Proof.
  intros Hok Hu Hready Hmiss Hnew.
  assert (waits p !! hash (transaction w) = None) as Hnw by (apply eq_None_not_Some; intros ?; apply Hnew; by right).
  destruct (future_import_ok U (future p) w (pk_future _ _ Hok) Hu Hready) as (f' & Himp & Hf' & Hw & Hwant); [naive_solver|done|].
  exists (set_future f' p). split; [unfold on_future; by rewrite Himp|]. split; [|done]. split; [|done|done|].
  - split; simpl; [apply Hok|done| | |apply Hok].
    + rewrite Hw. intros h. destruct (decide (h = hash (transaction w))) as [->|Hne].
      * intros _. apply eq_None_not_Some. intros ?. apply Hnew. by left.
      * rewrite lookup_insert_ne by done. apply (pk_apart _ _ Hok).
    + intros t h. rewrite Hwant. intros [?|[_ ?]]; [by eapply (pk_wanted _ _ Hok)|]. by apply Hmiss.
  - unfold used. simpl. rewrite Hw, map_size_insert_None by done. lia.
Qed.

(** What [import] does, on each of its branches. *)
Definition import_result p now tx (o : outcome (Error Hash) (Imported Hash Ex)) p' : Prop :=
  let w := waiting_new now tx (provided_tags (ready_queue p)) (recently_pruned p) in
  match o with
  | Ok (ImportedReady h promoted failed removed) => h = hash tx /\ failed = [] /\ ~ has p (hash tx) /\
      (forall t, t ∈ requires tx -> satisfied_tag p t) /\ imported_ok U p w promoted removed p'
  | Ok (ImportedFuture h) => h = hash tx /\ ~ has p (hash tx) /\ reject_future_transactions p = false /\
      (exists t, t ∈ requires tx /\ ~ satisfied_tag p t) /\ queued p w p'
  | Err (AlreadyImported h) => h = hash tx /\ has p (hash tx) /\ p' = p
  | Err RejectedFutureTransaction => reject_future_transactions p = true /\ ~ has p (hash tx) /\
      (exists t, t ∈ requires tx /\ ~ satisfied_tag p t) /\ p' = p
  | Err e => ~ has p (hash tx) /\ (forall t, t ∈ requires tx -> satisfied_tag p t) /\ refused U p w e p'
  | Panic | Diverge => False
  end.

Lemma pool_import_ok p now tx : pool_ok U p -> U tx -> (used p + 1 <= u64_MAX)%N ->
  let '(p', o) := import now tx p in import_result p now tx o p' /\ pool_ok U p' /\ (used p' <= used p + 1)%N.
Proof.
  intros Hok Hu Hmax. unfold import. rewrite bindM_get. destruct (is_imported (hash tx) p) eqn:Himp.
  { apply is_imported_spec in Himp. simpl. split_and!; [done..|lia]. }
  assert (~ has p (hash tx)) as Hnew by (rewrite <-is_imported_spec; congruence).
  set (w := waiting_new _ _ _ _). destruct (is_ready w) eqn:Hready.
  - pose proof (import_to_ready_ok U p w Hok Hu Hready Hnew Hmax) as Hpost. unfold postM in Hpost.
    destruct (import_to_ready w p) as [p' o]. apply bool_decide_eq_true in Hready.
    assert (forall t, t ∈ requires tx -> satisfied_tag p t) as Hsat.
    { intros t Ht. destruct (decide (t ∈ missing_tags w)) as [Hm|Hm]; [rewrite Hready in Hm; set_solver|].
      unfold w in Hm. rewrite waiting_new_missing in Hm. unfold satisfied_tag in *.
      destruct (provided_tags (ready_queue p) !! t); [left; by eexists|right].
      destruct (decide (Exists (fun x : gset Tag => t ∈ x) (recently_pruned p))) as [He|He]; [by apply Exists_exists in He|].
      exfalso. apply Hm. split; [done|]. intros [?%is_Some_None|?]; [done|]. by apply He, Exists_exists. }
    destruct o as [i|e| |]; [| |done..].
    + destruct Hpost as (promoted & removed & -> & Hio). split; [by split_and!|]. split; apply Hio.
    + split; [|split; apply Hpost]. pose proof (rf_why _ _ _ _ _ Hpost) as (h & r & _ & _ & -> & _). by split_and!.
  - assert (exists t, t ∈ requires tx /\ ~ satisfied_tag p t) as Hmiss.
    { apply bool_decide_eq_false in Hready. destruct (set_choose_L (missing_tags w) Hready) as [t Ht].
      unfold w in Ht. apply waiting_new_missing in Ht. eauto. }
    destruct (reject_future_transactions p) eqn:Hrej; [simpl; split_and!; [done..|lia]|].
    destruct (queue_ok_future p w Hok Hu Hready) as (p' & Hq & Hqu & _); [|done|].
    { intros t [Ht Hs]%waiting_new_missing. split; [done|]. apply eq_None_not_Some. intros ?. apply Hs. by left. }
    rewrite (bindM_ok _ _ _ _ _ Hq). simpl. split_and!; try done; [apply Hqu|]. rewrite (qu_used _ _ _ Hqu). lia.
Qed.

(** ** Removal *)

(** The pool [p] without the transactions [removed]. *)
Record without_txs p (removed : list tx_t) p' : Prop := {
  wo_ok : pool_ok U p';
  wo_kept : forall tx, held p tx <-> held p' tx \/ tx ∈ removed;
  wo_removed : forall tx, tx ∈ removed -> ~ has p' (hash tx);
  wo_nodup : NoDup (map hash removed);
  wo_ready : forall tx, in_ready p' tx -> in_ready p tx;
  wo_future : forall tx, in_future p' tx -> in_future p tx;
  wo_id : insertion_id (ready_queue p') = insertion_id (ready_queue p);
  wo_flag : reject_future_transactions p' = reject_future_transactions p;
  wo_recent : recently_pruned p' = recently_pruned p /\ recently_pruned_index p' = recently_pruned_index p
}.

Lemma without_refl p : pool_ok U p -> without_txs p [] p.
Proof.
  intros Hok. split; try done; [|by intros tx ?%elem_of_nil|constructor].
  intros tx. rewrite elem_of_nil. tauto.
Qed.

Lemma without_has p removed p' h : pool_ok U p -> without_txs p removed p' -> has p' h -> has p h.
Proof.
  intros Hok Hwo Hh. destruct (has_held U p' h (wo_ok _ _ _ Hwo) Hh) as (tx & Htx & <-).
  apply (held_has U); [done|]. apply (wo_kept _ _ _ Hwo). by left.
Qed.

Lemma without_trans p p1 p2 r1 r2 : pool_ok U p -> without_txs p r1 p1 -> without_txs p1 r2 p2 -> without_txs p (r1 ++ r2) p2.
Proof.
  intros Hok H1 H2. pose proof (wo_ok _ _ _ H1) as Hok1. split.
  - apply H2.
  - intros tx. rewrite (wo_kept _ _ _ H1), (wo_kept _ _ _ H2), elem_of_app. tauto.
  - intros tx [Hin|Hin]%elem_of_app; [|by apply (wo_removed _ _ _ H2)].
    intros Hh. apply (wo_removed _ _ _ H1 tx Hin). by apply (without_has p1 r2 p2).
  - rewrite map_app. apply NoDup_app. split_and!; [apply H1| |apply H2].
    intros h (tx1 & -> & Hin1)%list_elem_of_fmap (tx2 & Heq & Hin2)%list_elem_of_fmap.
    apply (wo_removed _ _ _ H1 tx1 Hin1). rewrite Heq. apply (held_has U); [done|]. apply (wo_kept _ _ _ H2). by right.
  - intros tx Hin. by apply (wo_ready _ _ _ H1), (wo_ready _ _ _ H2).
  - intros tx Hin. by apply (wo_future _ _ _ H1), (wo_future _ _ _ H2).
  - by rewrite (wo_id _ _ _ H2), (wo_id _ _ _ H1).
  - by rewrite (wo_flag _ _ _ H2), (wo_flag _ _ _ H1).
  - destruct (wo_recent _ _ _ H1), (wo_recent _ _ _ H2). split; congruence.
Qed.

(** Fewer entries in the ready queue. *)
Lemma fewer_ready p r2 removed : pool_ok U p -> ready_ok U r2 -> insertion_id r2 = insertion_id (ready_queue p) ->
  among (entries p) (index (ready r2)) -> taken_out (entries p) (index (ready r2)) removed ->
  without_txs p removed (set_ready_queue r2 p).
Proof.
  intros Hok Hr2 Hid Ha [Hnd Hout]. set (p2 := set_ready_queue r2 p).
  assert (pool_ok U p2) as Hok2.
  { split; simpl; [done|apply Hok| | |apply Hok].
    - intros h Hh. destruct (index (ready r2) !! h) as [r|] eqn:Hr; [|done].
      apply Ha in Hr as (r0 & Hr0 & _). apply (pk_apart _ _ Hok) in Hh. congruence.
    - intros t h Hw. apply eq_None_not_Some. intros [h' Hh'].
      apply (among_tags U (ready_queue p) r2 t h' (pk_ready _ _ Hok) Hr2 Ha) in Hh'.
      apply (pk_wanted _ _ Hok) in Hw. congruence. }
  split; try done.
  - intros tx. rewrite Hout. unfold held, in_ready. simpl. split.
    + intros [(h & r & Hr & <-)|?]; [|auto]. destruct (index (ready r2) !! h) as [r'|] eqn:Hr'.
      * left. left. exists h, r'. split; [done|]. apply Ha in Hr' as (r0 & Hr0 & Hx). rewrite Hx. congruence.
      * right. by exists h, r.
    + intros [[(h & r' & Hr' & <-)|?]|(h & r & Hr & _ & <-)]; [|auto|left; by exists h, r].
      left. apply Ha in Hr' as (r0 & Hr0 & Hx). exists h, r0. by rewrite Hx.
  - intros tx (h & r & Hr & Hn & <-)%Hout. rewrite (go_key _ _ _ (ro_graph _ _ _ (pk_ready _ _ Hok)) _ _ Hr).
    intros [[? ?]|Hw]; simpl in *; [congruence|]. apply (pk_apart _ _ Hok) in Hw. congruence.
  - intros tx (h & r' & Hr' & <-). simpl in Hr'. apply Ha in Hr' as (r0 & Hr0 & Hx). exists h, r0. by rewrite Hx.
Qed.

(** Fewer transactions in the future queue. *)
Lemma fewer_waiting p f2 removed (hashes : list Hash) : pool_ok U p -> future_ok U f2 ->
  (forall h, waiting f2 !! h = if decide (h ∈ hashes) then None else waits p !! h) -> NoDup (map hash removed) ->
  (forall tx, tx ∈ removed <-> exists h w, h ∈ hashes /\ waits p !! h = Some w /\ transaction w = tx) ->
  without_txs p removed (set_future f2 p).
Proof.
  intros Hok Hf2 Hw Hnd Hout. set (p2 := set_future f2 p).
  assert (forall h w, waiting f2 !! h = Some w -> waits p !! h = Some w /\ h ∉ hashes) as Hfrom
    by (intros h w; rewrite Hw; case_decide; done).
  assert (pool_ok U p2) as Hok2.
  { split; simpl; [apply Hok|done| | |apply Hok].
    - intros h [w [Hw' _]%Hfrom]. apply (pk_apart _ _ Hok). by eexists.
    - intros t h (w & [Hw' _]%Hfrom & Ht)%(fu_wanted _ _ Hf2). apply (pk_wanted _ _ Hok t h), (fu_wanted _ _ (pk_future _ _ Hok)). eauto. }
  split; try done.
  - intros tx. rewrite Hout. unfold held, in_future. simpl. split.
    + intros [?|(h & w & Hw' & <-)]; [auto|]. destruct (decide (h ∈ hashes)) as [Hin|Hin]; [right; eauto|].
      left. right. exists h, w. by rewrite Hw, decide_False.
    + intros [[?|(h & w & [Hw' _]%Hfrom & <-)]|(h & w & _ & Hw' & <-)]; [auto|right; eauto|right; eauto].
  - intros tx (h & w & Hin & Hw' & <-)%Hout. rewrite (fu_key _ _ (pk_future _ _ Hok) _ _ Hw').
    intros [[r Hr]|[w2 Hw2]]; simpl in *; [|by apply Hfrom in Hw2 as [_ ?]].
    assert (is_Some (waits p !! h)) as Hs by by eexists. apply (pk_apart _ _ Hok) in Hs. congruence.
  - intros tx (h & w & [Hw' _]%Hfrom & <-). by exists h, w.
Qed.

(** [remove_subtree] removes the given transactions, and those of the ready queue that depend on them. *)
Lemma remove_subtree_ok p hashes : pool_ok U p ->
  postM (remove_subtree hashes) p (fun removed p' => without_txs p removed p' /\
    (forall tx, tx ∈ removed <-> held p tx /\
       exists h, h ∈ hashes /\ (h = hash tx \/ (in_ready p tx /\ rtc (unlocks_in (entries p)) h (hash tx)))))
    (fun _ _ => False).
Proof.
  intros Hok. unfold remove_subtree. apply postM_bind.
  pose proof (ready_remove_subtree_ok U (ready_queue p) hashes (pk_ready _ _ Hok)) as Hr. unfold postM in Hr.
  unfold postM at 1, on_ready. destruct (ready_remove_subtree hashes (ready_queue p)) as [r2 [removed|e| |]]; try done.
  destruct Hr as (Hr2 & Hid & Hsr). set (p1 := set_ready_queue r2 p).
  pose proof (fewer_ready p r2 removed Hok Hr2 Hid (survives_among _ _ (sr_kept _ _ _ _ Hsr)) (sr_removed _ _ _ _ Hsr)) as H1.
  fold p1 in H1. rewrite postM_get.
  pose proof (future_remove_ok U (future p1) hashes (pk_future _ _ (wo_ok _ _ _ H1))) as Hf.
  destruct (future_remove hashes (future p1)) as [f2 more]. destruct Hf as (Hf2 & Hw & Hnd & Hmore).
  unfold postM. simpl. pose proof (fewer_waiting p1 f2 more hashes (wo_ok _ _ _ H1) Hf2 Hw Hnd Hmore) as H2.
  split; [by eapply without_trans|].
  pose proof (go_key _ _ _ (ro_graph _ _ _ (pk_ready _ _ Hok))) as Hk.
  pose proof (fu_key _ _ (pk_future _ _ Hok)) as Hfk.
  intros tx. rewrite elem_of_app, Hmore. destruct (sr_removed _ _ _ _ Hsr) as [_ Hout]. rewrite Hout. split.
  - intros [(h & r & Hr & Hn & <-)|(h & w & Hin & Hw' & <-)].
    + apply (sr_gone _ _ _ _ Hsr) in Hn as (h0 & Hh0 & Hpath); [|by eexists]. rewrite (Hk _ _ Hr).
      split; [left; by exists h, r|]. exists h0. split; [done|]. right. split; [by exists h, r|done].
    + split; [right; by exists h, w|]. exists h. split; [done|]. left. symmetry. by apply Hfk.
  - intros [Hheld (h & Hin & Hor)]. destruct Hheld as [(h' & r & Hr & <-)|(h' & w & Hw' & <-)].
    + left. exists h', r. split_and!; [done| |done]. apply (sr_gone _ _ _ _ Hsr); [by eexists|]. exists h. split; [done|].
      rewrite (Hk _ _ Hr) in Hor. destruct Hor as [->|[_ ?]]; done.
    + right. exists h', w. split_and!; [|done|done]. rewrite (Hfk _ _ Hw') in Hor.
      destruct Hor as [->|[(h1 & r1 & Hr1 & Heq) _]]; [done|]. exfalso.
      assert (transaction w = tx_of r1) as Heq' by done. pose proof (Hk _ _ Hr1) as Hk1. rewrite Heq, (Hfk _ _ Hw') in Hk1. subst h1.
      assert (is_Some (waits p !! h')) as Hs by by eexists. apply (pk_apart _ _ Hok) in Hs. congruence.
Qed.

Lemma values_elem {A} (m : gmap Hash A) x : x ∈ values m <-> exists h, m !! h = Some x.
Proof.
  unfold values. rewrite list_elem_of_omap. setoid_rewrite (elem_of_iterate (dom m)). setoid_rewrite elem_of_dom.
  split; [intros (h & _ & ?); eauto|]. intros (h & Hh). exists h. split; [by eexists|done].
Qed.

Lemma values_keys {A} (key : A -> Hash) (m : gmap Hash A) :
  (forall h x, m !! h = Some x -> key x = h) -> map key (values m) = iterate (dom m).
Proof.
  intros Hkey. unfold values.
  assert (forall h, h ∈ iterate (dom m) -> is_Some (m !! h)) as Hin
    by (intros h Hh%elem_of_iterate; by apply elem_of_dom).
  induction (iterate (dom m)) as [|h l IH]; [done|]. rewrite omap_cons_eq. destruct (Hin h) as [x Hx]; [by left|].
  rewrite Hx. simpl. rewrite (Hkey _ _ Hx). f_equal. apply IH. intros; apply Hin; by right.
Qed.

Lemma clear_future_ok p : pool_ok U p ->
  postM clear_future p (fun removed p' => without_txs p removed p' /\ waits p' = ∅ /\
    forall tx, tx ∈ removed <-> in_future p tx) (fun _ _ => False).
Proof.
  intros Hok. unfold clear_future. rewrite postM_get. unfold postM. simpl.
  assert (forall tx, tx ∈ map transaction (values (waits p)) <-> in_future p tx) as Hin.
  { intros tx. rewrite list_elem_of_fmap. setoid_rewrite values_elem. unfold in_future. naive_solver. }
  split_and!; [|done|done]. apply (fewer_waiting p _ _ (iterate (dom (waits p)))); [done|apply future_default_ok| | |].
  - intros h. simpl. rewrite lookup_empty. case_decide as Hd; [done|]. rewrite elem_of_iterate, not_elem_of_dom in Hd. done.
  - rewrite map_map, (values_keys (fun w => hash (transaction w))) by apply (pk_future _ _ Hok). apply NoDup_iterate.
  - intros tx. rewrite Hin. unfold in_future. split; [|naive_solver]. intros (h & w & Hw & Hx). exists h, w.
    rewrite elem_of_iterate, elem_of_dom. split_and!; [by eexists|done|done].
Qed.
End requests.
