(* ===== verification/PoolLimits.v ===== *)
(** * The transaction pool: limits

    [enforce_limits] ends with both queues within their limits. The counters of the ready
    queue wrap around at the width of a pointer; they are exact for a queue that fits in memory. *)

From S2P Require Import Prelude PoolTypes PoolFuture PoolReady BasePool.
From S2P Require Import PoolGraph PoolRemove PoolImport PoolPrune PoolFutureSpec PoolOps PoolRequests.

Section limits.
Context {P : Profile} {Hash Ex : Type} `{Iteration Hash, !Iteration Tag}.
Context (U : Transaction Hash Ex -> Prop) `{!Slots U}.
Notation tx_t := (Transaction Hash Ex).
Notation pool := (BasePool Hash Ex).
Notation entries p := (index (ready (ready_queue p))).
Notation waits p := (waiting (future p)).
Implicit Types (p : pool) (tx : tx_t).

(** ** Sizes *)

Definition sum_bytes (l : list tx_t) : N := foldr (fun tx n => tx_bytes tx + n)%N 0%N l.

Definition future_txs p : list tx_t := map transaction (values (waits p)).

(** A pool whose sizes fit the machine. *)
Record fits_memory p : Prop := {
  fm_count : (Z.of_nat (size (entries p)) < 2 ^ 63)%Z;
  fm_bytes : (bytes_of (entries p) < 2 ^ 63)%Z;
  fm_future : (sum_bytes (future_txs p) <= usize_MAX)%N
}.

Lemma bytes_of_nonneg (m : gmap Hash (ReadyTx Hash Ex)) : (0 <= bytes_of m)%Z.
Proof.
  induction m as [|h r m Hh IH] using map_ind; [done|]. rewrite bytes_of_insert by done. lia.
Qed.

Lemma ready_len_ok p : pool_ok U p -> fits_memory p -> ready_len (ready_queue p) = N.of_nat (size (entries p)).
Proof.
  intros Hok Hfm. destruct (ro_counted _ _ _ (pk_ready _ _ Hok)) as [Hl _]. unfold ready_len, tm_len. rewrite Hl.
  rewrite wrap_isize_small by (pose proof (fm_count _ Hfm); lia). lia.
Qed.

Lemma ready_bytes_ok p : pool_ok U p -> fits_memory p -> ready_bytes (ready_queue p) = Z.to_N (bytes_of (entries p)).
Proof.
  intros Hok Hfm. destruct (ro_counted _ _ _ (pk_ready _ _ Hok)) as [_ Hb]. unfold ready_bytes, tm_bytes. rewrite Hb.
  pose proof (bytes_of_nonneg (entries p)). rewrite wrap_isize_small by (pose proof (fm_bytes _ Hfm); lia). lia.
Qed.

Lemma future_bytes_ok p : (sum_bytes (future_txs p) <= usize_MAX)%N ->
  future_bytes (future p) = Ok (sum_bytes (future_txs p)).
Proof.
  unfold future_bytes, future_txs.
  assert (forall (l : list (WaitingTransaction Hash Ex)) n, (n + sum_bytes (map transaction l) <= usize_MAX)%N ->
    foldl (fun acc w => let! acc := acc in add_usize acc (tx_bytes (transaction w))) (Ok (E := Error Hash) n) l =
    Ok (n + sum_bytes (map transaction l))%N) as Hl.
  { induction l as [|w l IH]; intros n Hn; simpl in *; [f_equal; lia|]. unfold add_usize at 2, overflowing.
    rewrite (proj2 (N.leb_le _ _)) by lia. rewrite IH by lia. f_equal. lia. }
  intros Hle. rewrite Hl; [done|lia].
Qed.

(** ** Fewer transactions are smaller *)

Lemma without_entry p removed p' h r' : pool_ok U p -> without_txs U p removed p' -> entries p' !! h = Some r' ->
  exists r, entries p !! h = Some r /\ tx_of r = tx_of r'.
Proof.
  intros Hok Hwo Hr'. destruct (wo_ready _ _ _ _ Hwo (tx_of r')) as (h1 & r & Hr & Hx); [by exists h, r'|].
  exists r. split; [|done]. pose proof (go_key _ _ _ (ro_graph _ _ _ (pk_ready _ _ Hok)) _ _ Hr) as Hk.
  rewrite Hx, (go_key _ _ _ (ro_graph _ _ _ (pk_ready _ _ (wo_ok _ _ _ _ Hwo))) _ _ Hr') in Hk. by subst.
Qed.

Lemma without_bytes p removed p' : pool_ok U p -> without_txs U p removed p' ->
  (bytes_of (entries p') <= bytes_of (entries p))%Z /\ size (entries p') <= size (entries p).
Proof.
  intros Hok Hwo.
  assert (forall m m' : gmap Hash (ReadyTx Hash Ex),
    (forall h r', m' !! h = Some r' -> exists r, m !! h = Some r /\ tx_of r = tx_of r') ->
    (bytes_of m' <= bytes_of m)%Z /\ size m' <= size m) as Hle.
  { intros m m'. revert m. induction m' as [|h r' m' Hh IH] using map_ind; intros m Hm.
    { rewrite map_size_empty. split; [apply bytes_of_nonneg|lia]. }
    destruct (Hm h r') as (r & Hr & Hx); [by rewrite lookup_insert_eq|].
    destruct (IH (delete h m)) as [Hb Hs].
    { intros h1 r1 Hr1. assert (h1 <> h) as Hne by congruence. rewrite lookup_delete_ne by done. apply Hm. by rewrite lookup_insert_ne. }
    rewrite bytes_of_insert, (bytes_of_delete m h r Hr), map_size_insert_None by done.
    rewrite map_size_delete_Some in Hs by by eexists. unfold size_of, ReadyTx_size. rewrite Hx.
    assert (size m <> 0) by (intros Hz; apply map_size_empty_inv in Hz; subst; by rewrite lookup_empty in Hr). lia. }
  apply Hle. intros h r'. by apply (without_entry p removed p').
Qed.

Lemma sum_bytes_perm l k : l ≡ₚ k -> sum_bytes l = sum_bytes k.
Proof. induction 1; simpl; lia. Qed.

Lemma sum_bytes_sub l k : NoDup l -> (forall tx, tx ∈ l -> tx ∈ k) -> (sum_bytes l <= sum_bytes k)%N.
Proof.
  intros Hnd Hsub. revert k Hsub. induction Hnd as [|tx l Hnot _ IH]; intros k Hsub; simpl; [lia|].
  assert (tx ∈ k) as [k' Hk']%elem_of_Permutation by (apply Hsub; by left). rewrite (sum_bytes_perm _ _ Hk'). simpl.
  apply N.add_le_mono_l, IH. intros tx' Hin. assert (tx' ∈ k) as Hk by (apply Hsub; by right).
  rewrite Hk' in Hk. apply elem_of_cons in Hk as [->|?]; done.
Qed.

Lemma future_txs_spec p : pool_ok U p -> NoDup (future_txs p) /\ forall tx, tx ∈ future_txs p <-> in_future p tx.
Proof.
  intros Hok. split.
  - apply (NoDup_fmap_1 hash). unfold future_txs. rewrite map_map, (values_keys (fun w => hash (transaction w))) by apply (pk_future _ _ Hok).
    apply NoDup_iterate.
  - intros tx. unfold future_txs, in_future. rewrite list_elem_of_fmap. setoid_rewrite values_elem. naive_solver.
Qed.

Lemma without_fits p removed p' : pool_ok U p -> without_txs U p removed p' -> fits_memory p -> fits_memory p'.
Proof.
  intros Hok Hwo [Hc Hb Hf]. destruct (without_bytes p removed p' Hok Hwo) as [Hb' Hs']. split; [lia|lia|].
  etrans; [|exact Hf]. destruct (future_txs_spec p Hok) as [_ Hin].
  destruct (future_txs_spec p' (wo_ok _ _ _ _ Hwo)) as [Hnd Hin']. apply sum_bytes_sub; [done|].
  intros tx Htx%Hin'. by apply Hin, (wo_future _ _ _ _ Hwo).
Qed.

(** ** The worst transaction *)

(** [a] goes before [b]: it has a lower priority, or the same and is older. *)
Definition not_better (a b : TransactionRef Hash Ex) : Prop :=
  (priority (ref_transaction a) < priority (ref_transaction b))%N \/
  (priority (ref_transaction a) = priority (ref_transaction b) /\ (ref_insertion_id a <= ref_insertion_id b)%N).

Lemma worse_ready_fold l a : exists x, foldl worse_ready (Some a) l = Some x /\ (x = a \/ x ∈ map tx_ref l) /\
  not_better x a /\ forall r, r ∈ l -> not_better x (tx_ref r).
Proof.
  revert a. induction l as [|r l IH]; intros a; simpl.
  { exists a. split_and!; [done|by left|right; lia|]. by intros r ?%elem_of_nil. }
  set (a' := match _ with Lt => _ | Eq => _ | Gt => _ end).
  assert ((a' = a \/ a' = tx_ref r) /\ not_better a' a /\ not_better a' (tx_ref r)) as (Hor & Ha & Hr).
  { unfold a', not_better. destruct (N.compare_spec (priority (ref_transaction a)) (priority (ref_transaction (tx_ref r)))).
    - destruct (N.ltb_spec (ref_insertion_id (tx_ref r)) (ref_insertion_id a)); naive_solver lia.
    - naive_solver lia.
    - naive_solver lia. }
  destruct (IH a') as (x & Hx & Hin & Hxa & Hall). exists x. unfold not_better in *. split_and!; [done|set_solver|lia|].
  intros r' [->|Hr']%elem_of_cons; [lia|auto].
Qed.

Lemma worst_ready p : entries p <> ∅ ->
  exists h r, ready_fold worse_ready None (ready_queue p) = Some (tx_ref r) /\ entries p !! h = Some r /\
    forall h' r', entries p !! h' = Some r' -> not_better (tx_ref r) (tx_ref r').
Proof.
  intros Hne. unfold ready_fold.
  assert (forall r, r ∈ values (entries p) <-> exists h, entries p !! h = Some r) as Hv by apply values_elem.
  destruct (values (entries p)) as [|r0 l].
  { exfalso. apply Hne, map_eq. intros h. rewrite lookup_empty. destruct (entries p !! h) as [r|] eqn:Hr; [|done].
    assert (r ∈ []) as Hin by (apply Hv; eauto). by apply elem_of_nil in Hin. }
  simpl. destruct (worse_ready_fold l (tx_ref r0)) as (x & Hx & Hin & H0' & Hall).
  assert (exists r, r ∈ r0 :: l /\ tx_ref r = x) as (r & Hr & <-).
  { destruct Hin as [->|(r & -> & Hr)%list_elem_of_fmap]; [exists r0|exists r]; split; try done; set_solver. }
  apply Hv in Hr as [h Hh]. exists h, r. split_and!; [done..|]. intros h' r' Hr'.
  assert (r' ∈ r0 :: l) as [->|?]%elem_of_cons by (apply Hv; eauto); auto.
Qed.

Lemma worst_future p : waits p <> ∅ -> exists h w, future_fold worse_future (future p) = Some w /\ waits p !! h = Some w.
Proof.
  intros Hne. unfold future_fold.
  assert (forall w, w ∈ values (waits p) <-> exists h, waits p !! h = Some w) as Hv by apply values_elem.
  assert (forall (l : list (WaitingTransaction Hash Ex)) w0, exists w, foldl worse_future (Some w0) l = Some w /\ w ∈ w0 :: l) as Hfold.
  { induction l as [|w1 l IH]; intros w0; simpl; [exists w0; split; [done|by left]|].
    destruct (IH (match timestamp (source (transaction w0)), timestamp (source (transaction w1)) with
      | Some a, Some b => if (b <? a)%N then w1 else w0
      | _, _ => if (imported_at w1 <? imported_at w0)%N then w1 else w0 end)) as (w & Hw & Hin).
    exists w. split; [done|]. repeat case_match; set_solver. }
  destruct (values (waits p)) as [|w0 l].
  { exfalso. apply Hne, map_eq. intros h. rewrite lookup_empty. destruct (waits p !! h) as [w|] eqn:Hw; [|done].
    assert (w ∈ []) as Hin by (apply Hv; eauto). by apply elem_of_nil in Hin. }
  simpl. destruct (Hfold l w0) as (w & Hw & Hin). apply Hv in Hin as [h Hh]. eauto.
Qed.

(** ** The loops *)

Definition ready_within (l : Limit) p : Prop :=
  (N.of_nat (size (entries p)) <= limit_count l)%N /\ (bytes_of (entries p) <= Z.of_N (limit_total_bytes l))%Z.
Definition future_within (l : Limit) p : Prop :=
  (N.of_nat (size (waits p)) <= limit_count l)%N /\ (sum_bytes (future_txs p) <= limit_total_bytes l)%N.

Lemma ready_exceeded l p : pool_ok U p -> fits_memory p ->
  is_exceeded l (ready_len (ready_queue p)) (ready_bytes (ready_queue p)) = false <-> ready_within l p.
Proof.
  intros Hok Hfm. unfold is_exceeded, ready_within. rewrite ready_len_ok, ready_bytes_ok by done.
  pose proof (bytes_of_nonneg (entries p)). rewrite orb_false_iff, !N.ltb_ge. lia.
Qed.

Lemma future_exceeded l p : is_exceeded l (future_len (future p)) (sum_bytes (future_txs p)) = false <-> future_within l p.
Proof. unfold is_exceeded, future_within, future_len. by rewrite orb_false_iff, !N.ltb_ge. Qed.

(** Removing a transaction with its subtree takes it out of the pool. *)
Lemma remove_one_subtree p tx : pool_ok U p -> held p tx ->
  postM (remove_subtree [hash tx]) p (fun removed p' => without_txs U p removed p' /\ tx ∈ removed) (fun _ _ => False).
Proof.
  intros Hok Hheld. eapply postM_mono; [by apply (remove_subtree_ok U p)| |done].
  intros removed p' [Hwo Hrem]. split; [done|]. apply Hrem. split; [done|]. exists (hash tx). split; [by left|by left].
Qed.

Lemma entry_smaller p p' h : pool_ok U p -> (forall h r', entries p' !! h = Some r' -> is_Some (entries p !! h)) ->
  is_Some (entries p !! h) -> entries p' !! h = None -> size (entries p') < size (entries p).
Proof.
  intros Hok Hsub Hh Hn. rewrite <-!size_dom. apply subset_size. split.
  - intros h'. rewrite !elem_of_dom. intros [r' Hr']. eauto.
  - intros Hall. apply elem_of_dom in Hh. apply Hall in Hh. apply elem_of_dom in Hh as [? ?]. congruence.
Qed.

Lemma wait_smaller p p' h : (forall h w', waits p' !! h = Some w' -> is_Some (waits p !! h)) ->
  is_Some (waits p !! h) -> waits p' !! h = None -> size (waits p') < size (waits p).
Proof.
  intros Hsub Hh Hn. rewrite <-!size_dom. apply subset_size. split.
  - intros h'. rewrite !elem_of_dom. intros [w' Hw']. eauto.
  - intros Hall. apply elem_of_dom in Hh. apply Hall in Hh. apply elem_of_dom in Hh as [? ?]. congruence.
Qed.

Lemma limit_ready_loop l p n removed0 p0 : pool_ok U p0 -> without_txs U p0 removed0 p -> fits_memory p -> size (entries p) < n ->
  postM (loopM n (limit_ready_round l) removed0) p (fun removed p' => without_txs U p0 removed p' /\ fits_memory p' /\ ready_within l p')
    (fun _ _ => False).
Proof.
  intros Hok0 Hwo Hfm Hn.
  refine (loopM_post _ (fun removed p' => without_txs U p0 removed p' /\ fits_memory p')
    (fun _ p' => size (entries p')) _ _ _ n removed0 p _ _); [|done|done].
  clear p Hwo Hfm Hn. intros removed p [Hwo Hfm]. pose proof (wo_ok _ _ _ _ Hwo) as Hok. unfold limit_ready_round. rewrite postM_get.
  destruct (is_exceeded _ _ _) eqn:Hex.
  2: { unfold postM. simpl. split_and!; [done|done|]. by apply ready_exceeded. }
  assert (entries p <> ∅) as Hne.
  { intros He. assert (ready_within l p) as Hw by (split; rewrite He; [rewrite map_size_empty; lia|unfold bytes_of; rewrite map_fold_empty; lia]).
    apply ready_exceeded in Hw; [congruence|done..]. }
  destruct (worst_ready p Hne) as (h & r & -> & Hr & _). apply postM_bind.
  eapply postM_mono; [apply (remove_one_subtree p (tx_of r)); [done|left; by exists h, r]| |done].
  intros more p' [Hwo' Hin]. unfold postM. simpl. split; [split; [by eapply without_trans|by eapply without_fits]|].
  apply (entry_smaller p p' h Hok); [|by eexists|].
  - intros h' r' Hr'. destruct (without_entry p more p' h' r' Hok Hwo' Hr') as (r1 & ? & _). by eexists.
  - pose proof (wo_removed _ _ _ _ Hwo' _ Hin) as Hn. rewrite (go_key _ _ _ (ro_graph _ _ _ (pk_ready _ _ Hok)) _ _ Hr) in Hn.
    apply eq_None_not_Some. intros ?. apply Hn. by left.
Qed.

Lemma limit_future_loop l lr p n removed0 p0 : pool_ok U p0 -> without_txs U p0 removed0 p -> fits_memory p -> ready_within lr p ->
  size (waits p) < n ->
  postM (loopM n (limit_future_round l) removed0) p
    (fun removed p' => without_txs U p0 removed p' /\ ready_within lr p' /\ future_within l p') (fun _ _ => False).
Proof.
  intros Hok0 Hwo Hfm Hlr Hn.
  refine (loopM_post _ (fun removed p' => without_txs U p0 removed p' /\ fits_memory p' /\ ready_within lr p')
    (fun _ p' => size (waits p')) _ _ _ n removed0 p _ _); [|done|done].
  clear p Hwo Hfm Hn Hlr. intros removed p (Hwo & Hfm & Hlr). pose proof (wo_ok _ _ _ _ Hwo) as Hok. unfold limit_future_round.
  rewrite postM_get. rewrite (postM_lift _ _ _ _ _ _ (future_bytes_ok p (fm_future _ Hfm))).
  destruct (is_exceeded _ _ _) eqn:Hex.
  2: { unfold postM. simpl. split_and!; [done|done|]. by apply future_exceeded. }
  assert (waits p <> ∅) as Hne.
  { intros He. assert (future_within l p) as Hw.
    { unfold future_within, future_txs, values. rewrite He, dom_empty_L.
      assert (iterate (∅ : gset Hash) = []) as ->; [|rewrite map_size_empty; simpl; lia].
      apply Permutation_nil_r. by rewrite iterate_elements, elements_empty. }
    apply future_exceeded in Hw. congruence. }
  destruct (worst_future p Hne) as (h & w & -> & Hw). apply postM_bind.
  eapply postM_mono; [apply (remove_one_subtree p (transaction w)); [done|right; by exists h, w]| |done].
  intros more p' [Hwo' Hin]. unfold postM. simpl. split; [split_and!; [by eapply without_trans|by eapply without_fits|]|].
  - destruct (without_bytes p more p' Hok Hwo'), Hlr. split; lia.
  - apply (wait_smaller p p' h); [|by eexists|].
    + intros h' w' Hw'. destruct (wo_future _ _ _ _ Hwo' (transaction w')) as (h1 & w1 & Hw1 & Hx); [by exists h', w'|].
      pose proof (fu_key _ _ (pk_future _ _ Hok) _ _ Hw1) as Hk.
      rewrite Hx, (fu_key _ _ (pk_future _ _ (wo_ok _ _ _ _ Hwo')) _ _ Hw') in Hk. subst. by eexists.
    + pose proof (wo_removed _ _ _ _ Hwo' _ Hin) as Hn. rewrite (fu_key _ _ (pk_future _ _ Hok) _ _ Hw) in Hn.
      apply eq_None_not_Some. intros ?. apply Hn. by right.
Qed.

(** [enforce_limits] returns, with both queues within their limits. *)
Lemma enforce_limits_ok p lr lf : pool_ok U p -> fits_memory p ->
  postM (enforce_limits lr lf) p
    (fun removed p' => without_txs U p removed p' /\ ready_within lr p' /\ future_within lf p') (fun _ _ => False).
Proof.
  intros Hok Hfm. unfold enforce_limits. rewrite postM_get. apply postM_bind.
  eapply postM_mono; [apply (limit_ready_loop lr p _ [] p Hok (without_refl U p Hok) Hfm); lia| |done].
  intros removed p1 (Hwo & Hfm1 & Hlr). apply (limit_future_loop lf lr); [done..|].
  apply Nat.lt_succ_r. rewrite <-!size_dom. apply subseteq_size. intros h. rewrite !elem_of_dom. intros [w Hw].
  destruct (wo_future _ _ _ _ Hwo (transaction w)) as (h1 & w1 & Hw1 & Hx); [by exists h, w|].
  pose proof (fu_key _ _ (pk_future _ _ Hok) _ _ Hw1) as Hk.
  rewrite Hx, (fu_key _ _ (pk_future _ _ (wo_ok _ _ _ _ Hwo)) _ _ Hw) in Hk. subst. by eexists.
Qed.
End limits.
