(* ===== verification/PoolPruneTags.v ===== *)
(** * The transaction pool: pruning

    What [prune_tags] of the base pool does when a block included the transactions that provide the
    given tags: nothing in the pool provides them afterwards, the transactions that waited
    only for them are promoted, and every transaction that left the pool is reported. *)

From S2P Require Import Prelude PoolTypes PoolFuture PoolReady BasePool.
From S2P Require Import PoolGraph PoolRemove PoolImport PoolPrune PoolFutureSpec PoolOps PoolRequests.

Section prune.
Context {P : Profile} {Hash Ex : Type} `{Iteration Hash, !Iteration Tag}.
Context (U : Transaction Hash Ex -> Prop) `{!Slots U}.
Notation tx_t := (Transaction Hash Ex).
Notation waiting_t := (WaitingTransaction Hash Ex).
Notation pool := (BasePool Hash Ex).
Notation entries p := (index (ready (ready_queue p))).
Notation waits p := (waiting (future p)).
Notation hash_of w := (hash (transaction w)).
Implicit Types (p : pool) (w : waiting_t) (tx : tx_t).

(** ** Conservation *)

(** The transactions of [p0] are in [p], wait to be imported ([todo]) or left the pool ([out]). *)
Record balance p0 (todo : list waiting_t) (out : list tx_t) p : Prop := {
  ba_ok : pool_ok U p;
  ba_used : (used p + N.of_nat (length todo) <= used p0)%N;
  ba_todo : forall w, w ∈ todo -> is_ready w = true /\ U (transaction w) /\ ~ has p (hash_of w);
  ba_todo_nodup : NoDup (map (fun w => hash_of w) todo);
  ba_kept : forall tx, held p0 tx <-> held p tx \/ tx ∈ map transaction todo \/ tx ∈ out;
  ba_out : forall tx, tx ∈ out -> ~ has p (hash tx) /\ hash tx ∉ map (fun w => hash_of w) todo;
  ba_out_nodup : NoDup (map hash out);
  ba_future : forall tx, in_future p tx \/ tx ∈ map transaction todo -> in_future p0 tx;
  ba_flag : reject_future_transactions p = reject_future_transactions p0
}.

Lemma balance_refl p : pool_ok U p -> balance p [] [] p.
Proof.
  intros Hok. split; try done; simpl; try (by intros ? ?%elem_of_nil); try apply NoDup_nil_2.
  - lia.
  - intros tx. rewrite elem_of_nil. tauto.
  - intros tx [?|?%elem_of_nil]; done.
Qed.

(** Transactions of the pool leave it. *)
Lemma balance_without p0 todo out p removed p' : balance p0 todo out p -> without_txs U p removed p' ->
  balance p0 todo (out ++ removed) p'.
Proof.
  intros [Hok Hus Htodo Htn Hkept Hout Hon Hfut Hfl] Hwo.
  assert (forall h, has p' h -> has p h) as Hhas by (intros h; by apply (without_has U p removed p')).
  assert (forall tx, tx ∈ removed -> has p (hash tx)) as Hin.
  { intros tx Htx. apply (held_has U); [done|]. apply (wo_kept _ _ _ _ Hwo). by right. }
  split; try done.
  - apply Hwo.
  - enough (used p' <= used p)%N by lia. unfold used. rewrite (wo_id _ _ _ _ Hwo).
    enough (size (waits p') <= size (waits p)) by lia. rewrite <-!size_dom. apply subseteq_size. intros h.
    rewrite !elem_of_dom. intros Hw. destruct (Hhas h (or_intror Hw)) as [[r Hr]|?]; [|done].
    destruct Hw as [w Hw]. destruct (wo_future _ _ _ _ Hwo (transaction w)) as (h1 & w1 & Hw1 & Hx); [by exists h, w|].
    pose proof (fu_key _ _ (pk_future _ _ Hok) _ _ Hw1) as Hk.
    rewrite Hx, (fu_key _ _ (pk_future _ _ (wo_ok _ _ _ _ Hwo)) _ _ Hw) in Hk. subst. by eexists.
  - intros w Hw. destruct (Htodo w Hw) as (? & ? & Hn). split_and!; [done..|]. by intros ?%Hhas.
  - intros tx. rewrite Hkept, (wo_kept _ _ _ _ Hwo), elem_of_app. tauto.
  - intros tx [Htx|Htx]%elem_of_app.
    + destruct (Hout tx Htx) as [Hn ?]. split; [by intros ?%Hhas|done].
    + split; [by apply (wo_removed _ _ _ _ Hwo)|]. intros (w & Heq & Hw)%list_elem_of_fmap.
      destruct (Htodo w Hw) as (_ & _ & Hn). apply Hn. rewrite <-Heq. auto.
  - rewrite map_app. apply NoDup_app. split_and!; [done| |apply Hwo].
    intros h (tx1 & -> & H1)%list_elem_of_fmap (tx2 & Heq & H2)%list_elem_of_fmap.
    destruct (Hout tx1 H1) as [Hn _]. apply Hn. rewrite Heq. auto.
  - intros tx [Hf|Hin']; apply Hfut; [left; by apply (wo_future _ _ _ _ Hwo)|by right].
  - rewrite (wo_flag _ _ _ _ Hwo). done.
Qed.

(** Transactions of the future queue become ready. *)
Lemma balance_satisfied p0 todo out p T f' rs : balance p0 todo out p -> satisfied T (future p) f' rs -> future_ok U f' ->
  balance p0 (todo ++ rs) out (set_future f' p).
Proof.
  intros [Hok Hus Htodo Htn Hkept Hout Hon Hfut Hfl] Hs Hf'. set (p' := set_future f' p).
  assert (forall h, has p' h -> has p h) as Hhas.
  { intros h [?|Hw]; [by left|right]. by apply (satisfied_has p p' _ _ _ Hs). }
  assert (forall w, w ∈ rs -> is_Some (waits p !! hash_of w) /\ U (transaction w) /\ is_ready w = true) as Hrs.
  { intros w (h & w0 & Hw & He & ->)%(sf_ready _ _ _ _ Hs). simpl. rewrite (fu_key _ _ (pk_future _ _ Hok) _ _ Hw).
    split_and!; [by eexists|by eapply fu_known; [apply Hok|]|by apply bool_decide_eq_true]. }
  assert (pool_ok U p') as Hok'.
  { split; [apply Hok|done| | |apply Hok]; simpl.
    - intros h Hw. apply (pk_apart _ _ Hok). by apply (satisfied_has p p' _ _ _ Hs).
    - intros t h [Hw _]%(satisfied_wanted _ _ _ _ _ _ Hs). by apply (pk_wanted _ _ Hok t h). }
  split; try done.
  - pose proof (satisfied_size U T (future p) f' rs (pk_future _ _ Hok) Hs). unfold used in *. simpl. rewrite length_app. lia.
  - intros w [Hw|Hw]%elem_of_app.
    + destruct (Htodo w Hw) as (? & ? & Hn). split_and!; [done..|]. by intros ?%Hhas.
    + destruct (Hrs w Hw) as (Hsome & ? & ?). split_and!; [done..|]. intros [[r Hr]|Hw'].
      * apply (pk_apart _ _ Hok) in Hsome. simpl in Hr. congruence.
      * rewrite (satisfied_out U p p' _ _ _ Hok Hs Hw) in Hw'. by destruct Hw'.
  - rewrite map_app. apply NoDup_app. split_and!; [done| |apply Hs].
    intros h (w1 & -> & H1)%list_elem_of_fmap (w2 & Heq & H2)%list_elem_of_fmap.
    destruct (Htodo w1 H1) as (_ & _ & Hn). apply Hn. right. rewrite Heq. by apply Hrs.
  - intros tx. rewrite Hkept, map_app, elem_of_app. unfold held. rewrite (satisfied_held U p p' T rs tx Hok Hs).
    change (in_ready p' tx) with (in_ready p tx). tauto.
  - intros tx Htx. destruct (Hout tx Htx) as [Hn Hnot]. split; [by intros ?%Hhas|].
    rewrite map_app, not_elem_of_app. split; [done|]. intros (w & Heq & Hw)%list_elem_of_fmap.
    apply Hn. right. rewrite Heq. by apply Hrs.
  - intros tx. rewrite map_app, elem_of_app. intros [Hf|[Hf|Hf]]; apply Hfut; [left|by right|left];
      apply (satisfied_held U p p' T rs tx Hok Hs); auto.
Qed.

(** A transaction that waits to be imported is imported, or refused. *)
Lemma balance_imported p0 w todo out p promoted removed p' : balance p0 (w :: todo) out p ->
  imported_ok U p w promoted removed p' -> balance p0 todo (out ++ removed) p'.
Proof.
  intros [Hok Hus Htodo Htn Hkept Hout Hon Hfut Hfl] Hio. simpl in Htn. apply NoDup_cons in Htn as [Hnot Htn].
  destruct (Htodo w) as (_ & _ & Hnew); [by left|].
  assert (forall h, has p' h -> has p h \/ h = hash_of w) as Hhas.
  { intros h Hh. destruct (has_held U p' h (io_ok _ _ _ _ _ _ Hio) Hh) as (tx & Htx & <-).
    assert (held p tx \/ tx = transaction w) as [?| ->]; [|left; by apply (held_has U)|by right].
    apply (io_kept _ _ _ _ _ _ Hio). by left. }
  assert (forall tx, tx ∈ removed -> has p (hash tx)) as Hrem.
  { intros tx Htx. assert (held p tx \/ tx = transaction w) as [?| ->]; [|by apply (held_has U)|].
    - apply (io_kept _ _ _ _ _ _ Hio). by right.
    - exfalso. apply (io_removed _ _ _ _ _ _ Hio _ Htx). apply (held_has U); [apply Hio|left; apply Hio]. }
  split; try done.
  - apply Hio.
  - pose proof (io_used _ _ _ _ _ _ Hio). simpl in Hus. lia.
  - intros w' Hw'. destruct (Htodo w') as (? & ? & Hn); [by right|]. split_and!; [done..|]. intros [?|Heq]%Hhas; [done|].
    apply Hnot, list_elem_of_fmap. exists w'. by rewrite Heq.
  - intros tx. rewrite Hkept. simpl. rewrite elem_of_cons, elem_of_app. pose proof (io_kept _ _ _ _ _ _ Hio tx). tauto.
  - intros tx [Htx|Htx]%elem_of_app.
    + destruct (Hout tx Htx) as [Hn Hn']. simpl in Hn'. apply not_elem_of_cons in Hn' as [Hne ?]. split; [|done].
      by intros [?|?]%Hhas.
    + split; [by apply (io_removed _ _ _ _ _ _ Hio)|]. intros (w' & Heq & Hw')%list_elem_of_fmap.
      destruct (Htodo w') as (_ & _ & Hn); [by right|]. apply Hn. rewrite <-Heq. auto.
  - rewrite map_app. apply NoDup_app. split_and!; [done| |apply Hio].
    intros h (tx1 & -> & H1)%list_elem_of_fmap (tx2 & Heq & H2)%list_elem_of_fmap.
    destruct (Hout tx1 H1) as [Hn _]. apply Hn. rewrite Heq. auto.
  - intros tx [Hf|Hf]; apply Hfut; [left; by apply (io_future _ _ _ _ _ _ Hio)|right; by right].
  - rewrite (io_flag _ _ _ _ _ _ Hio). done.
Qed.

Lemma balance_refused p0 w todo out p e p' : balance p0 (w :: todo) out p ->
  refused U p w e p' -> balance p0 todo (out ++ [transaction w]) p'.
Proof.
  intros [Hok Hus Htodo Htn Hkept Hout Hon Hfut Hfl] Hrf. simpl in Htn. apply NoDup_cons in Htn as [Hnot Htn].
  assert (forall h, has p' h <-> has p h) as Hhas by (intros h; unfold has; by rewrite (rf_waits _ _ _ _ _ Hrf), (rf_entries _ _ _ _ _ Hrf)).
  assert (forall tx, held p' tx <-> held p tx) as Hheld
    by (intros tx; unfold held, in_ready, in_future; by rewrite (rf_waits _ _ _ _ _ Hrf), (rf_entries _ _ _ _ _ Hrf)).
  split; try done.
  - apply Hrf.
  - pose proof (rf_used _ _ _ _ _ Hrf). simpl in Hus. lia.
  - intros w' Hw'. rewrite Hhas. apply Htodo. by right.
  - intros tx. rewrite Hkept, Hheld. simpl. rewrite elem_of_cons, elem_of_app, list_elem_of_singleton. tauto.
  - intros tx. rewrite Hhas. intros [Htx| ->%list_elem_of_singleton]%elem_of_app.
    + destruct (Hout tx Htx) as [Hn Hn']. simpl in Hn'. by apply not_elem_of_cons in Hn' as [_ ?].
    + split; [|done]. by destruct (Htodo w) as (_ & _ & ?); [by left|].
  - rewrite map_app. apply NoDup_app. split_and!; [done| |apply NoDup_singleton].
    intros h (tx1 & -> & H1)%list_elem_of_fmap Heq%list_elem_of_singleton.
    destruct (Hout tx1 H1) as [_ Hn']. simpl in Hn'. apply not_elem_of_cons in Hn' as [Hne _]. done.
  - intros tx [Hf|Hf]; apply Hfut; [left; unfold in_future in *; by rewrite (rf_waits _ _ _ _ _ Hrf) in Hf|right; by right].
  - rewrite (rf_flag _ _ _ _ _ Hrf). done.
Qed.
Lemma balance_same p0 todo out p p' : balance p0 todo out p -> future p' = future p -> ready_queue p' = ready_queue p ->
  reject_future_transactions p' = reject_future_transactions p ->
  length (recently_pruned p') = RECENTLY_PRUNED_TAGS /\ recently_pruned_index p' < RECENTLY_PRUNED_TAGS ->
  balance p0 todo out p'.
Proof.
  destruct p as [fl f r rp i], p' as [fl' f' r' rp' i']. simpl.
  intros [Hok Hus Htodo Htn Hkept Hout Hon Hfut Hfl] -> -> -> Hl. destruct Hok. by split; [split|..].
Qed.

(** ** Marking the tags *)

(** Pruning has dealt with the tags [done], first for the future queue ([gone]) and then for the
    ready queue ([pruned]). *)
Record marking p0 (i : nat) (gone : list tx_t) (done : list Tag) (todo : list waiting_t) (pruned : list tx_t) p : Prop := {
  mk_balance : balance p0 todo (gone ++ pruned) p;
  mk_among : among (entries p0) (entries p);
  mk_clean : forall tx t, in_ready p tx -> t ∈ done -> t ∉ provides tx;
  mk_waits : forall h w, waits p !! h = Some w -> exists w0, waits p0 !! h = Some w0 /\ w = less (list_to_set done) w0;
  mk_pruned : forall tx, tx ∈ pruned -> in_ready p0 tx /\ exists t h0, t ∈ done /\
    provided_tags (ready_queue p0) !! t = Some h0 /\ rtc (before (entries p0)) (hash tx) h0;
  mk_recent : recently_pruned p = <[i := list_to_set done]> (recently_pruned p0) /\
    recently_pruned_index p = (recently_pruned_index p0 + 1) mod RECENTLY_PRUNED_TAGS
}.

Lemma among_before (m m1 : gmap Hash (ReadyTx Hash Ex)) h h0 : among m m1 -> rtc (before m1) h h0 -> rtc (before m) h h0.
Proof.
  intros Ha. apply rtc_subrel. intros x y (r' & r & t & Hr' & Hr & Ht & Ht').
  apply Ha in Hr' as (q' & Hq' & Hx'), Hr as (q & Hq & Hx). exists q', q, t. by rewrite <-Hx, <-Hx'.
Qed.

(** The state [prune_one] leaves: the future queue, the ready queue and the list of the pruned tags. *)
Definition marked (i : nat) (tag : Tag) (f : FutureTransactions Hash Ex) (r : ReadyTransactions Hash Ex) p : pool :=
  mkBasePool (reject_future_transactions p) f r
    (alter (fun x : gset Tag => {[tag]} ∪ x) i (recently_pruned p)) (recently_pruned_index p).

Lemma marking_next p0 i gone tags todo pruned p tag f1 rs r2 more : i < RECENTLY_PRUNED_TAGS -> pool_ok U p0 ->
  marking p0 i gone tags todo pruned p ->
  satisfied {[tag]} (future p) f1 rs -> future_ok U f1 ->
  ready_ok U r2 -> insertion_id r2 = insertion_id (ready_queue p) -> tag_pruned tag (ready_queue p) r2 more ->
  marking p0 i gone (tags ++ [tag]) (todo ++ rs) (pruned ++ more) (marked i tag f1 r2 p).
Proof.
  intros Hi Hok0 [Hbal Ham Hcl Hw Hpr [Hrec Hidx]] Hs Hf1 Hr2 Hid Htp.
  pose proof (balance_satisfied _ _ _ _ _ _ _ Hbal Hs Hf1) as H1.
  pose proof (survives_among _ _ (tp_kept _ _ _ _ Htp)) as Ham2.
  pose proof (fewer_ready U _ r2 more (ba_ok _ _ _ _ H1) Hr2 Hid Ham2 (tp_removed _ _ _ _ Htp)) as H2.
  pose proof (balance_without _ _ _ _ _ _ H1 H2) as H3. rewrite <-app_assoc in H3.
  pose proof (ba_ok _ _ _ _ Hbal) as Hok. destruct (pk_pruned _ _ Hok) as [Hlen Hlt].
  split; simpl.
  - eapply balance_same; [exact H3|done..|]. simpl. by rewrite length_alter.
  - intros h r (r1 & Hr1 & Hx)%Ham2. apply Ham in Hr1 as (q & Hq & Hx'). exists q. split; [done|]. by rewrite Hx.
  - intros tx t Hin [Ht| ->%list_elem_of_singleton]%elem_of_app.
    + apply Hcl; [|done]. by apply (wo_ready _ _ _ _ H2).
    + intros Hp. destruct Hin as (h & r & Hr & <-). pose proof (tp_tag _ _ _ _ Htp) as Hno.
      assert (provided_tags r2 !! tag = Some h) by (apply (ro_tags _ _ _ Hr2); by exists r). congruence.
  - intros h w. rewrite (sf_waiting _ _ _ _ Hs). destruct (waits p !! h) as [w1|] eqn:Hw1; [|done]. simpl.
    case_decide; [done|]. intros [= <-]. destruct (Hw _ _ Hw1) as (w0 & Hw0 & ->). exists w0. split; [done|].
    rewrite less_less, list_to_set_app_L. simpl. by rewrite union_empty_r_L.
  - intros tx [Htx|Htx]%elem_of_app.
    + destruct (Hpr tx Htx) as (? & t & h0 & ? & ?). split; [done|]. exists t, h0. split; [|done]. apply elem_of_app. by left.
    + apply (tp_removed _ _ _ _ Htp) in Htx as (h & r & Hr & Hn & <-).
      destruct (tp_before _ _ _ _ Htp h) as (h0 & Hh0 & Hpath); [by eexists|done|].
      pose proof (go_key _ _ _ (ro_graph _ _ _ (pk_ready _ _ Hok)) _ _ Hr) as Hk. rewrite Hk.
      destruct (Ham _ _ Hr) as (q & Hq & Hx). split; [exists h, q; by rewrite <-Hx|].
      exists tag, h0. split_and!; [apply elem_of_app; right; by apply list_elem_of_singleton|
        by apply (among_tags U _ _ _ _ (pk_ready _ _ Hok0) (pk_ready _ _ Hok) Ham)|by eapply among_before].
  - split; [|done]. rewrite Hrec. apply list_eq. intros j. rewrite list_to_set_app_L. simpl. rewrite union_empty_r_L.
    destruct (decide (j = i)) as [->|]; [|by rewrite list_lookup_alter_ne, !list_lookup_insert_ne by congruence].
    assert (i < length (recently_pruned p0)) by (destruct (pk_pruned _ _ Hok0) as [-> _]; done).
    rewrite list_lookup_alter, !list_lookup_insert_eq by done. rewrite decide_True by done. simpl. f_equal. apply union_comm_L.
Qed.

Lemma prune_tag_ok p0 i gone tags todo pruned p tag : i < RECENTLY_PRUNED_TAGS -> pool_ok U p0 ->
  marking p0 i gone tags todo pruned p ->
  postM (prune_one i tag (todo, pruned)) p
    (fun '(todo', pruned') p' => marking p0 i gone (tags ++ [tag]) todo' pruned' p') (fun _ _ => False).
Proof.
  intros Hi Hok0 Hm. pose proof (ba_ok _ _ _ _ (mk_balance _ _ _ _ _ _ _ Hm)) as Hok.
  destruct (satisfy_tags_ok U [tag] (future p) (pk_future _ _ Hok)) as (f1 & rs & Heq & Hs & Hf1).
  assert (list_to_set [tag] = ({[tag]} : gset Tag)) as Hset by (simpl; apply union_empty_r_L). rewrite Hset in Hs.
  pose proof (ready_prune_tags_ok U (ready_queue p) tag (pk_ready _ _ Hok)) as Hr.
  apply postM_returns in Hr as (r2 & more & Heq2 & Hr2 & Hid & Htp).
  unfold prune_one, bindM, on_future, on_ready, postM. rewrite Heq. cbn [ready_queue set_future]. rewrite Heq2.
  exact (marking_next _ _ _ _ _ _ _ _ _ _ _ _ Hi Hok0 Hm Hs Hf1 Hr2 Hid Htp).
Qed.

Lemma prune_all_ok p0 i gone more tags todo pruned p : i < RECENTLY_PRUNED_TAGS -> pool_ok U p0 ->
  marking p0 i gone tags todo pruned p ->
  postM (for_fold (prune_one i) more (todo, pruned)) p
    (fun '(todo', pruned') p' => marking p0 i gone (tags ++ more) todo' pruned' p') (fun _ _ => False).
Proof.
  intros Hi Hok0. revert tags todo pruned p. induction more as [|tag more IH]; intros tags todo pruned p Hm.
  - rewrite app_nil_r. exact Hm.
  - cbn [for_fold]. apply postM_bind. eapply postM_mono; [by apply prune_tag_ok| |done].
    intros [todo' pruned'] p' Hm'. rewrite cons_middle, app_assoc. by apply IH.
Qed.
(** ** Promoting *)

Definition removed_by (i : Imported Hash Ex) : list tx_t :=
  match i with ImportedReady _ _ _ removed => removed | ImportedFuture _ => [] end.

(** The transactions [todo] that waited for the tags have been imported ([more]) or refused ([lost]);
    [dropped] are those that left the pool on the way. *)
Record promoting p0 todo out p (more : list (Imported Hash Ex)) (lost dropped : list tx_t) p' : Prop := {
  po_balance : balance p0 [] (out ++ dropped) p';
  po_more : forall i, i ∈ more -> exists w, w ∈ todo /\ imported_hash i = hash_of w;
  po_todo : forall w, w ∈ todo -> transaction w ∈ lost \/ exists i, i ∈ more /\ imported_hash i = hash_of w;
  po_lost : forall tx, tx ∈ lost -> tx ∈ map transaction todo;
  po_dropped : forall tx, tx ∈ dropped <-> tx ∈ lost \/ exists i, i ∈ more /\ tx ∈ removed_by i;
  po_future : forall tx, in_future p' tx -> in_future p tx;
  po_recent : recently_pruned p' = recently_pruned p /\ recently_pruned_index p' = recently_pruned_index p
}.

Lemma promoting_imported p0 w todo out p p1 pr removed more lost dropped p' :
  imported_ok U p w pr removed p1 -> promoting p0 todo (out ++ removed) p1 more lost dropped p' ->
  promoting p0 (w :: todo) out p (ImportedReady (hash_of w) pr [] removed :: more) lost (removed ++ dropped) p'.
Proof.
  intros Hio [Hb Hm Ht Hl Hd Hf Hrec]. split.
  - by rewrite app_assoc.
  - intros i [->|Hin]%elem_of_cons; [exists w; split; [by left|done]|].
    destruct (Hm i Hin) as (w' & ? & ?). exists w'. split; [by right|done].
  - intros w' [->|Hin]%elem_of_cons; [right; eexists; split; [by left|done]|].
    destruct (Ht w' Hin) as [?|(i & ? & ?)]; [by left|right; exists i; split; [by right|done]].
  - intros tx Htx. right. by apply Hl.
  - intros tx. rewrite elem_of_app, Hd. setoid_rewrite elem_of_cons. naive_solver.
  - intros tx ?%Hf. by apply (io_future _ _ _ _ _ _ Hio).
  - destruct (io_recent _ _ _ _ _ _ Hio), Hrec. split; congruence.
Qed.

Lemma promoting_refused p0 w todo out p e p1 more lost dropped p' :
  refused U p w e p1 -> promoting p0 todo (out ++ [transaction w]) p1 more lost dropped p' ->
  promoting p0 (w :: todo) out p more (transaction w :: lost) (transaction w :: dropped) p'.
Proof.
  intros Hrf [Hb Hm Ht Hl Hd Hf Hrec]. split.
  - by rewrite cons_middle, app_assoc.
  - intros i Hin. destruct (Hm i Hin) as (w' & ? & ?). exists w'. split; [by right|done].
  - intros w' [->|Hin]%elem_of_cons; [left; by left|].
    destruct (Ht w' Hin) as [?|(i & ? & ?)]; [left; by right|right; by exists i].
  - simpl. intros tx [->|Htx]%elem_of_cons; [by left|right; by apply Hl].
  - intros tx. rewrite !elem_of_cons, Hd. naive_solver.
  - intros tx ?%Hf. unfold in_future in *. by rewrite <-(rf_waits _ _ _ _ _ Hrf).
  - destruct (rf_recent _ _ _ _ _ Hrf), Hrec. split; congruence.
Qed.

Lemma promote_all_ok p0 todo : (used p0 <= u64_MAX)%N -> forall out promoted failed p, balance p0 todo out p ->
  postM (for_fold promote_one todo (promoted, failed)) p
    (fun '(promoted', failed') p' => exists more lost dropped,
       promoted' = promoted ++ more /\ failed' = failed ++ map hash lost /\ promoting p0 todo out p more lost dropped p')
    (fun _ _ => False).
Proof.
  intros Hcap. induction todo as [|w todo IH]; intros out promoted failed p Hb.
  - exists [], [], []. simpl. rewrite !app_nil_r. split_and!; [done..|].
    split; rewrite ?app_nil_r; try done; try (by intros ? ?%elem_of_nil).
    intros tx. rewrite elem_of_nil. split; [done|]. by intros [|(i & ?%elem_of_nil & _)].
  - cbn [for_fold]. apply postM_bind. destruct (ba_todo _ _ _ _ Hb w) as (Hr & Hu & Hn); [by left|].
    pose proof (import_to_ready_ok U p w (ba_ok _ _ _ _ Hb) Hu Hr Hn) as Hi.
    assert (used p + 1 <= u64_MAX)%N as Hroom by (pose proof (ba_used _ _ _ _ Hb) as Hc; simpl in Hc; lia).
    specialize (Hi Hroom). unfold postM in Hi. unfold postM at 1, promote_one, caught, bindM.
    destruct (import_to_ready w p) as [p1 [i|e| |]]; try done; cbn [ret].
    + destruct Hi as (pr & removed & -> & Hio).
      eapply postM_mono; [eapply IH; by eapply balance_imported| |done].
      intros [promoted' failed'] p' (more & lost & dropped & -> & -> & Hp).
      eexists _, lost, _. rewrite <-app_assoc. split_and!; [done..|]. by eapply promoting_imported.
    + eapply postM_mono; [eapply IH; by eapply balance_refused| |done].
      intros [promoted' failed'] p' (more & lost & dropped & -> & -> & Hp).
      eexists more, (transaction w :: lost), _. rewrite <-app_assoc. split_and!; [done..|]. by eapply promoting_refused.
Qed.
(** ** [prune_tags] *)

(** The future queue loses the transactions that provide one of the tags. *)
Lemma future_prune_tags_ok p tags : pool_ok U p -> let '(f', gone) := future_prune_tags tags (future p) in
  without_txs U p gone (set_future f' p) /\
  (forall h w, waiting f' !! h = Some w -> waits p !! h = Some w) /\
  (forall tx, tx ∈ gone <-> in_future p tx /\ exists t, t ∈ tags /\ t ∈ provides tx).
Proof.
  intros Hok. unfold future_prune_tags. set (hs := omap _ _).
  assert (forall h, h ∈ hs <-> exists w, waits p !! h = Some w /\ exists t, t ∈ tags /\ t ∈ provides (transaction w)) as Hhs.
  { intros h. unfold hs. rewrite list_elem_of_omap. split.
    - intros (w & (h' & Hw)%values_elem & Hc). destruct (existsb _ _) eqn:He; [|done]. injection Hc as <-.
      rewrite (fu_key _ _ (pk_future _ _ Hok) _ _ Hw). exists w. split; [done|].
      apply existsb_exists in He as (t & Ht & Hb). exists t. split; [by apply bool_decide_eq_true in Hb|by apply list_elem_of_In].
    - intros (w & Hw & t & Ht & Hp). exists w. split; [apply values_elem; by exists h|].
      assert (existsb (fun tag => bool_decide (tag ∈ tags)) (provides (transaction w)) = true) as ->.
      { apply existsb_exists. exists t. split; [by apply list_elem_of_In|by apply bool_decide_eq_true]. }
      by rewrite (fu_key _ _ (pk_future _ _ Hok) _ _ Hw). }
  pose proof (future_remove_ok U (future p) hs (pk_future _ _ Hok)) as Hr.
  destruct (future_remove hs (future p)) as [f' gone]. destruct Hr as (Hf' & Hw & Hnd & Hgone). split_and!.
  - by eapply fewer_waiting.
  - intros h w. rewrite Hw. by case_decide.
  - intros tx. rewrite Hgone. split.
    + intros (h & w & Hin & Hl & <-). split; [by exists h, w|].
      apply Hhs in Hin as (w' & Hw' & Hex). by assert (w' = w) as -> by congruence.
    + intros [(h & w & Hl & <-) Hex]. exists h, w. split_and!; [|done..]. apply Hhs. by exists w.
Qed.

Record tags_pruned p0 (tags : list Tag) (res : PruneStatus Hash Ex) p : Prop := {
  pt_ok : pool_ok U p;
  pt_used : (used p <= used p0)%N;
  pt_none : forall tx t, held p tx -> t ∈ tags -> t ∉ provides tx;
  pt_kept : forall tx, held p0 tx -> held p tx \/ tx ∈ ps_pruned res \/ hash tx ∈ ps_failed res \/
    exists i, i ∈ ps_promoted res /\ tx ∈ removed_by i;
  pt_held : forall tx, held p tx -> held p0 tx;
  pt_pruned : forall tx, tx ∈ ps_pruned res -> in_ready p0 tx /\ ~ has p (hash tx) /\ exists t h0, t ∈ tags /\
    provided_tags (ready_queue p0) !! t = Some h0 /\ rtc (before (entries p0)) (hash tx) h0;
  pt_failed : forall h, h ∈ ps_failed res -> is_Some (waits p0 !! h) /\ ~ has p h;
  pt_promoted : forall i, i ∈ ps_promoted res -> is_Some (waits p0 !! imported_hash i);
  pt_future : forall tx, in_future p tx -> exists h w, waits p0 !! h = Some w /\ transaction w = tx /\
    exists t, t ∈ missing_tags w /\ t ∉ tags;
  pt_flag : reject_future_transactions p = reject_future_transactions p0;
  pt_recent : recently_pruned p = <[recently_pruned_index p0 := list_to_set tags]> (recently_pruned p0) /\
    recently_pruned_index p = (recently_pruned_index p0 + 1) mod RECENTLY_PRUNED_TAGS
}.
Lemma marking_start p f' gone : pool_ok U p -> without_txs U p gone (set_future f' p) ->
  (forall h w, waiting f' !! h = Some w -> waits p !! h = Some w) ->
  marking p (recently_pruned_index p) gone [] [] []
    (mkBasePool (reject_future_transactions p) f' (ready_queue p)
       (<[recently_pruned_index p := ∅]> (recently_pruned p)) ((recently_pruned_index p + 1) mod RECENTLY_PRUNED_TAGS)).
Proof.
  intros Hok Hwo Hw. destruct (pk_pruned _ _ Hok) as [Hlen Hlt]. split;
    cbn [future ready_queue recently_pruned recently_pruned_index]; try done; try (by intros ? ?%elem_of_nil).
  - rewrite app_nil_r. eapply (balance_same p [] gone (set_future f' p)); [|done..|].
    + by apply (balance_without _ _ [] p), Hwo; apply balance_refl.
    + cbn [recently_pruned recently_pruned_index]. rewrite length_insert. split; [done|]. by apply Nat.mod_upper_bound.
  - intros h r Hr. by exists r.
  - intros tx t _ Ht%elem_of_nil. done.
  - intros h w Hl. exists w. split; [by apply Hw|]. symmetry. apply (less_none U). set_solver.
Qed.

Lemma tags_pruned_intro p0 tags gone todo pruned p more lost dropped p' : pool_ok U p0 ->
  (forall tx, tx ∈ gone <-> in_future p0 tx /\ exists t, t ∈ tags /\ t ∈ provides tx) ->
  marking p0 (recently_pruned_index p0) gone tags todo pruned p ->
  promoting p0 todo (gone ++ pruned) p more lost dropped p' ->
  tags_pruned p0 tags (mkPruneStatus more (map hash gone ++ map hash lost) pruned) p'.
Proof.
  intros Hok0 Hgone [Hb Ham Hcl Hw Hpr [Hrec Hidx]] [Hb' Hm Ht Hl Hd Hf [Hrec' Hidx']].
  assert (forall tx, tx ∈ gone \/ tx ∈ pruned \/ tx ∈ dropped -> ~ has p' (hash tx)) as Hout.
  { intros tx Htx. apply (ba_out _ _ _ _ Hb'). rewrite !elem_of_app. tauto. }
  assert (forall tx, in_future p0 tx -> is_Some (waits p0 !! hash tx)) as Hkey.
  { intros tx (h & w & Hwh & <-). rewrite (fu_key _ _ (pk_future _ _ Hok0) _ _ Hwh). by eexists. }
  split; cbn [ps_promoted ps_failed ps_pruned]; try done.
  - apply Hb'.
  - pose proof (ba_used _ _ _ _ Hb') as Hu. simpl in Hu. lia.
  - intros tx t Hheld Htag Hp. pose proof (held_has U p' tx (ba_ok _ _ _ _ Hb') Hheld) as Hhas.
    assert (~ in_future p0 tx) as Hnf by (intros Hin; apply (Hout tx); [left; apply Hgone; eauto|done]).
    assert (held p0 tx) as Hh0 by (apply (ba_kept _ _ _ _ Hb'); by left).
    apply (ba_kept _ _ _ _ Hb) in Hh0 as [[Hr|Hw']|[Hin|[Hin|Hin]%elem_of_app]].
    + by apply (Hcl tx t).
    + apply Hnf, (ba_future _ _ _ _ Hb). by left.
    + apply Hnf, (ba_future _ _ _ _ Hb). by right.
    + apply (Hout tx); auto.
    + apply (Hout tx); auto.
  - intros tx [?|[[]%elem_of_nil|Hin]]%(ba_kept _ _ _ _ Hb'); [by left|]. rewrite !elem_of_app, Hd in Hin. right.
    rewrite elem_of_app. destruct Hin as [[?|?]|[?|?]]; auto; right; left; [left|right]; by apply list_elem_of_fmap_2.
  - intros tx Hheld. apply (ba_kept _ _ _ _ Hb'). by left.
  - intros tx Htx. destruct (Hpr tx Htx). split_and!; [done|apply Hout; auto|done].
  - intros h [(tx & -> & Htx)%list_elem_of_fmap|(tx & -> & Htx)%list_elem_of_fmap]%elem_of_app.
    + split; [by apply Hkey, Hgone|apply Hout; auto].
    + split; [apply Hkey, (ba_future _ _ _ _ Hb); right; by apply Hl|apply Hout; right; right; apply Hd; by left].
  - intros i Hi. destruct (Hm i Hi) as (w & Hin & ->). apply Hkey, (ba_future _ _ _ _ Hb). right. by apply list_elem_of_fmap_2.
  - intros tx (h & w & Hwh & <-)%Hf. pose proof (fu_missing _ _ (pk_future _ _ (ba_ok _ _ _ _ Hb)) _ _ Hwh) as Hne.
    destruct (Hw _ _ Hwh) as (w0 & Hw0 & ->). exists h, w0. split_and!; [done..|].
    simpl in Hne. apply set_choose_L in Hne as [t Hin]. exists t. set_solver.
  - rewrite (ba_flag _ _ _ _ Hb'). done.
  - split; congruence.
Qed.

Lemma prune_tags_ok p tags : pool_ok U p -> (used p <= u64_MAX)%N ->
  postM (prune_tags tags) p (tags_pruned p tags) (fun _ _ => False).
Proof.
  intros Hok Hcap. destruct (pk_pruned _ _ Hok) as [Hlen Hlt]. unfold prune_tags. rewrite postM_get.
  destruct (lookup_lt_is_Some_2 (recently_pruned p) (recently_pruned_index p)) as [x Hx]; [by rewrite Hlen|].
  rewrite (postM_lift _ _ _ x) by (by rewrite Hx). rewrite postM_put, postM_get. cbn [future].
  pose proof (future_prune_tags_ok p tags Hok) as Hfp. destruct (future_prune_tags tags (future p)) as [f' gone].
  destruct Hfp as (Hwo & Hsub & Hgone). rewrite postM_put.
  pose proof (marking_start p f' gone Hok Hwo Hsub) as Hm. apply postM_bind.
  eapply postM_mono; [by apply (prune_all_ok p _ gone tags [] [] []); [..|exact Hm]| |done].
  intros [todo pruned] p2 Hm2. simpl in Hm2. apply postM_bind.
  eapply postM_mono; [by eapply promote_all_ok; [|apply Hm2]| |done].
  intros [promoted failed] p' (more & lost & dropped & -> & -> & Hp). by eapply tags_pruned_intro.
Qed.
End prune.
