(* ===== verification/PoolSpec.v ===== *)
(** * The transaction pool: the requests its owner makes

    Sequences of requests to a base pool, from an empty one: none of them panics and the pool
    stays well formed.  The theorems about each operation are stated for the pools that such
    sequences reach. *)

From S2P Require Import Prelude PoolTypes PoolFuture PoolReady BasePool.
From S2P Require Import PoolGraph PoolRemove PoolImport PoolPrune PoolBest PoolOrder PoolFutureSpec.
From S2P Require Import PoolOps PoolRequests PoolLimits PoolPruneTags.

Section spec.
Context {P : Profile} {Hash Ex : Type} `{Iteration Hash, !Iteration Tag}.
Notation tx_t := (Transaction Hash Ex).
Notation pool := (BasePool Hash Ex).
Notation entries p := (index (ready (ready_queue p))).
Notation waits p := (waiting (future p)).
Implicit Types (p : pool) (tx : tx_t).

(** ** Requests *)

Inductive Request : Type :=
| Import (now : Instant) (tx : tx_t)
| ImportFutureEnabled (now : Instant) (tx : tx_t)
| RemoveSubtree (hashes : list Hash)
| PruneTags (tags : list Tag)
| EnforceLimits (ready future : Limit)
| ClearFuture
| ClearRecentlyPruned.

(** A request, its result dropped; an error is a result as well. *)
Definition execute (r : Request) : M pool (Error Hash) unit :=
  match r with
  | Import now tx => let* _ := caught (import now tx) in ret tt
  | ImportFutureEnabled now tx => let* _ := caught (with_futures_enabled (fun _ => import now tx)) in ret tt
  | RemoveSubtree hashes => let* _ := remove_subtree hashes in ret tt
  | PruneTags tags => let* _ := prune_tags tags in ret tt
  | EnforceLimits lr lf => let* _ := enforce_limits lr lf in ret tt
  | ClearFuture => let* _ := clear_future in ret tt
  | ClearRecentlyPruned => modify_state clear_recently_pruned
  end.

Definition run (rs : list Request) : M pool (Error Hash) unit := for_each execute rs.

Definition imported (r : Request) : list tx_t :=
  match r with Import _ tx | ImportFutureEnabled _ tx => [tx] | _ => [] end.

Definition imports (rs : list Request) : list tx_t := concat (map imported rs).

Context (U : tx_t -> Prop) `{!Slots U}.

(** The transactions imported are known, and neither their number nor the sum of their sizes
    exceeds what an [isize] holds. *)
Definition admissible (l : list tx_t) : Prop :=
  (forall tx, tx ∈ l -> U tx) /\ (Z.of_nat (length l) < 2 ^ 63)%Z /\ (Z.of_N (sum_bytes l) < 2 ^ 63)%Z.

(** What holds of a pool after importing the transactions [l]. *)
Record holds_among (l : list tx_t) p : Prop := {
  ha_ok : pool_ok U p;
  ha_used : (used p <= N.of_nat (length l))%N;
  ha_from : forall tx, held p tx -> tx ∈ l
}.

Lemma new_holds reject : holds_among [] (base_pool_new reject : pool).
Proof.
  split; [|done|].
  - split; simpl; [|apply future_default_ok| |by intros t h (x & Hx & _)|split; [done|unfold RECENTLY_PRUNED_TAGS; lia]].
    + split; [split|..]; simpl; try done.
      * intros t h. rewrite lookup_empty. naive_solver.
      * split; [constructor|]. intros x. rewrite elem_of_nil. naive_solver.
    + done.
  - by intros tx [(h & r & ? & _)|(h & w & ? & _)].
Qed.

Lemma holds_app l k p : holds_among l p -> holds_among (l ++ k) p.
Proof.
  intros [Hok Hus Hfrom]. split; [done| |].
  - rewrite length_app. lia.
  - intros tx Htx. apply elem_of_app. left. by apply Hfrom.
Qed.

Lemma without_used p removed p' : without_txs U p removed p' -> pool_ok U p -> (used p' <= used p)%N.
Proof.
  intros Hwo Hok. pose proof (balance_without U p [] [] p removed p' (balance_refl U p Hok) Hwo) as Hb.
  pose proof (ba_used _ _ _ _ _ Hb) as Hu. simpl in Hu. lia.
Qed.

Lemma without_holds l p removed p' : holds_among l p -> without_txs U p removed p' -> holds_among l p'.
Proof.
  intros [Hok Hus Hfrom] Hwo. split; [apply Hwo| |].
  - pose proof (without_used _ _ _ Hwo Hok). lia.
  - intros tx Htx. apply Hfrom, (wo_kept _ _ _ _ Hwo). by left.
Qed.

Lemma pruned_holds l p tags res p' : holds_among l p -> tags_pruned U p tags res p' -> holds_among l p'.
Proof.
  intros [Hok Hus Hfrom] Ht. split; [apply Ht| |].
  - pose proof (pt_used _ _ _ _ _ Ht). lia.
  - intros tx Htx. apply Hfrom. by apply (pt_held _ _ _ _ _ Ht).
Qed.

(** Everything in the pool after an import was in it before or is the transaction imported. *)
Lemma import_held p now tx o p' : pool_ok U p -> import_result U p now tx o p' -> forall tx', held p' tx' -> held p tx' \/ tx' = tx.
Proof.
  intros Hok Hres tx' Htx'. unfold import_result in Hres.
  set (w := waiting_new _ _ _ _) in *. assert (transaction w = tx) as Hw by done.
  assert (forall e, refused U p w e p' -> held p tx' \/ tx' = tx) as Hrf.
  { intros e He. left. unfold held, in_ready, in_future in *. by rewrite <-(rf_waits _ _ _ _ _ He), <-(rf_entries _ _ _ _ _ He). }
  destruct o as [[h promoted fl removed|h]|[]| |]; try done.
  - destruct Hres as (_ & _ & _ & _ & Hio). apply (io_kept _ _ _ _ _ _ Hio). by left.
  - destruct Hres as (_ & _ & _ & _ & [_ Hws Hrq _]). destruct Htx' as [Hr|(h' & w' & Hw' & <-)].
    + left. left. unfold in_ready in *. by rewrite Hrq in Hr.
    + rewrite Hws, lookup_insert_Some in Hw'. destruct Hw' as [[_ <-]|[_ Hw']]; [by right|left; right; by exists h', w'].
  - destruct Hres as (_ & _ & ->). by left.
  - destruct Hres as (_ & _ & Hres). by eapply Hrf.
  - destruct Hres as (_ & _ & Hres). by eapply Hrf.
  - destruct Hres as (_ & _ & _ & ->). by left.
Qed.

Lemma import_holds l p now tx : holds_among l p -> admissible (l ++ [tx]) ->
  exists p' o, import now tx p = (p', o) /\ import_result U p now tx o p' /\ holds_among (l ++ [tx]) p'.
Proof.
  intros [Hok Hus Hfrom] (HU & Hlen & _). rewrite length_app in Hlen. simpl in Hlen.
  assert (used p + 1 <= u64_MAX)%N as Hroom by (unfold u64_MAX; lia).
  assert (U tx) as Hu by (apply HU, elem_of_app; right; by left).
  pose proof (pool_import_ok U p now tx Hok Hu Hroom) as Hi. destruct (import now tx p) as [p' o].
  destruct Hi as (Hres & Hok' & Hus'). exists p', o. split_and!; [done..|]. split; [done| |].
  - rewrite length_app. simpl. lia.
  - intros tx' Htx'. apply elem_of_app. destruct (import_held _ _ _ _ _ Hok Hres _ Htx') as [?| ->]; [left; auto|right; by left].
Qed.

Lemma reject_holds l b p : holds_among l p -> holds_among l (set_reject b p).
Proof. intros [Hok Hus Hfrom]. destruct Hok. by split. Qed.

Lemma cleared_holds l p : holds_among l p -> holds_among l (clear_recently_pruned p).
Proof.
  intros [Hok Hus Hfrom]. destruct Hok. split; [|done..]. split; try done. split; [done|].
  simpl. unfold RECENTLY_PRUNED_TAGS. lia.
Qed.

Lemma admissible_app l k : admissible (l ++ k) -> admissible l.
Proof.
  intros (HU & Hlen & Hsum). split_and!.
  - intros tx Htx. apply HU, elem_of_app. by left.
  - rewrite length_app in Hlen. lia.
  - assert (forall a b : list tx_t, sum_bytes (a ++ b) = (sum_bytes a + sum_bytes b)%N) as Happ.
    { intros a b. induction a as [|x a IH]; simpl; [done|]. rewrite IH. lia. }
    rewrite Happ in Hsum. lia.
Qed.

(** The transactions of the ready queue, as a list. *)
Definition ready_txs p : list tx_t := map (fun kv => tx_of kv.2) (map_to_list (entries p)).

Lemma ready_txs_ok p : pool_ok U p -> NoDup (ready_txs p) /\ (forall tx, tx ∈ ready_txs p <-> in_ready p tx).
Proof.
  intros Hok. pose proof (go_key _ _ _ (ro_graph _ _ _ (pk_ready _ _ Hok))) as Hk. unfold ready_txs. split.
  - apply (NoDup_fmap_1 hash). rewrite map_map. rewrite (map_ext_in _ fst); [apply NoDup_fst_map_to_list|].
    intros [h r] Hin. simpl. apply Hk. by apply elem_of_map_to_list, list_elem_of_In.
  - intros tx. rewrite list_elem_of_fmap. split.
    + intros ([h r] & -> & Hin%elem_of_map_to_list). by exists h, r.
    + intros (h & r & Hr & <-). exists (h, r). split; [done|]. by apply elem_of_map_to_list.
Qed.

Lemma ready_txs_bytes p : bytes_of (entries p) = Z.of_N (sum_bytes (ready_txs p)).
Proof.
  unfold bytes_of, ready_txs. rewrite map_fold_foldr. induction (map_to_list (entries p)) as [|[h r] l IH]; simpl; [done|].
  rewrite IH. unfold size_of, ReadyTx_size. lia.
Qed.

Lemma holds_fits l p : holds_among l p -> admissible l -> fits_memory p.
Proof.
  intros [Hok Hus Hfrom] (_ & Hlen & Hsum). destruct (ready_txs_ok p Hok) as [Hnd Hin].
  destruct (future_txs_spec U p Hok) as [Hndf Hinf]. split.
  - assert (length (ready_txs p) <= length l) as Hle.
    { apply submseteq_length, NoDup_submseteq; [done|]. intros tx ?%Hin. apply Hfrom. by left. }
    unfold ready_txs in Hle. rewrite length_map, length_map_to_list in Hle. lia.
  - rewrite ready_txs_bytes. assert (sum_bytes (ready_txs p) <= sum_bytes l)%N; [|lia].
    apply sum_bytes_sub; [done|]. intros tx ?%Hin. apply Hfrom. by left.
  - assert (sum_bytes (future_txs p) <= sum_bytes l)%N; [|unfold usize_MAX, u64_MAX in *; lia].
    apply sum_bytes_sub; [done|]. intros tx ?%Hinf. apply Hfrom. by right.
Qed.

Lemma request_ok r l p : holds_among l p -> admissible (l ++ imported r) ->
  exists p', execute r p = (p', Ok tt) /\ holds_among (l ++ imported r) p'.
Proof.
  intros Hh Ha. destruct r as [now tx|now tx|hs|tags|lr lf| |]; cbn [execute imported] in *.
  - destruct (import_holds l p now tx Hh Ha) as (p' & o & Heq & Hres & Hh'). exists p'. split; [|done].
    unfold bindM, caught. rewrite Heq. by destruct o; [| |done|done].
  - destruct (import_holds l (set_reject false p) now tx (reject_holds _ _ _ Hh) Ha) as (p' & o & Heq & Hres & Hh').
    exists (set_reject (reject_future_transactions p) p'). split; [|by apply reject_holds].
    unfold bindM, caught, with_futures_enabled. rewrite Heq. by destruct o; [| |done|done].
  - rewrite app_nil_r in *. destruct (postM_returns _ _ _ (remove_subtree_ok U p hs (ha_ok _ _ Hh))) as (p' & a & Heq & Hwo & _).
    exists p'. rewrite (bindM_ok _ _ _ _ _ Heq). split; [done|]. by eapply without_holds.
  - rewrite app_nil_r in *. assert (used p <= u64_MAX)%N as Hroom
      by (destruct Ha as (_ & Hlen & _); pose proof (ha_used _ _ Hh); unfold u64_MAX; lia).
    destruct (postM_returns _ _ _ (prune_tags_ok U p tags (ha_ok _ _ Hh) Hroom)) as (p' & a & Heq & Ht).
    exists p'. rewrite (bindM_ok _ _ _ _ _ Heq). split; [done|]. by eapply pruned_holds.
  - rewrite app_nil_r in *.
    destruct (postM_returns _ _ _ (enforce_limits_ok U p lr lf (ha_ok _ _ Hh) (holds_fits _ _ Hh Ha))) as (p' & a & Heq & Hwo & _).
    exists p'. rewrite (bindM_ok _ _ _ _ _ Heq). split; [done|]. by eapply without_holds.
  - rewrite app_nil_r in *. destruct (postM_returns _ _ _ (clear_future_ok U p (ha_ok _ _ Hh))) as (p' & a & Heq & Hwo & _).
    exists p'. rewrite (bindM_ok _ _ _ _ _ Heq). split; [done|]. by eapply without_holds.
  - rewrite app_nil_r in *. eexists. split; [done|]. by apply cleared_holds.
Qed.

Lemma run_ok rs l p : holds_among l p -> admissible (l ++ imports rs) ->
  exists p', run rs p = (p', Ok tt) /\ holds_among (l ++ imports rs) p'.
Proof.
  revert l p. induction rs as [|r rs IH]; intros l p Hh Ha.
  - exists p. unfold imports. simpl. rewrite app_nil_r. done.
  - unfold imports in *. cbn [map concat] in *. rewrite app_assoc in *.
    destruct (request_ok r l p Hh (admissible_app _ _ Ha)) as (p1 & Heq & Hh1).
    destruct (IH (l ++ imported r) p1 Hh1 Ha) as (p' & Hrun & Hh'). exists p'. split; [|done].
    unfold run in *. cbn [for_each]. by rewrite (bindM_ok _ _ _ _ _ Heq).
Qed.

(** The pools that admissible requests reach from an empty one. *)
Definition reachable p : Prop := exists reject rs, admissible (imports rs) /\ run rs (base_pool_new reject) = (p, Ok tt).

Lemma reachable_holds p : reachable p -> exists l, holds_among l p /\ admissible l.
Proof.
  intros (reject & rs & Ha & Hrun). destruct (run_ok rs [] _ (new_holds reject) Ha) as (p' & Hrun' & Hh).
  rewrite Hrun in Hrun'. injection Hrun' as <-. by exists (imports rs).
Qed.
End spec.
