(* ===== verification/PoolCorrect.v ===== *)
(** * The transaction pool: theorems

    The properties of the base pool and of its iterator over the ready transactions, for the
    pools that sequences of requests reach, and what goes wrong outside of the hypotheses under
    which they hold. *)

From S2P Require Import Prelude PoolTypes PoolFuture PoolReady BasePool.
From S2P Require Import PoolGraph PoolRemove PoolImport PoolPrune PoolBest PoolOrder PoolFutureSpec.
From S2P Require Import PoolOps PoolRequests PoolLimits PoolPruneTags PoolSpec.

Section properties.
Context {P : Profile} {Hash Ex : Type} `{Iteration Hash, !Iteration Tag}.
Context (U : Transaction Hash Ex -> Prop) `{!Slots U}.
Notation tx_t := (Transaction Hash Ex).
Notation pool := (BasePool Hash Ex).
Notation entries p := (index (ready (ready_queue p))).
Notation waits p := (waiting (future p)).
Implicit Types (p : pool) (tx : tx_t).






End properties.

(** ** Accounts and nonces *)

(** The transactions of accounts that number them: one provides the tag of its account and
    number and requires tags of smaller numbers of the same account. *)
Definition nonce_tx {Hash Ex} (tx : Transaction Hash Ex) : Prop :=
  exists account nonce : N, provides tx = [[account; nonce]] /\
    forall t, t ∈ requires tx -> exists k, t = [account; k] /\ (k < nonce)%N.

Definition nonce_rank (t : Tag) : nat :=
  match t with [_; n] => N.to_nat n | _ => 0 end.

#[export] Instance nonce_slots {Hash Ex} : Slots (nonce_tx (Hash := Hash) (Ex := Ex)).
Proof.
  refine {| rank := nonce_rank |}.
  - intros tx (a & n & -> & _). apply NoDup_singleton.
  - intros tx tx' t (a & n & -> & _) (a' & n' & -> & _) ->%list_elem_of_singleton Heq%list_elem_of_singleton t' ->%list_elem_of_singleton.
    rewrite Heq. by left.
  - intros tx r q (a & n & -> & Hreq) (k & -> & Hlt)%Hreq ->%list_elem_of_singleton. simpl. lia.
Qed.

Module Example.
Definition in_order {A} `{Countable A} : Iteration A :=
  {| iterate := elements; iterate_elements := fun X => Permutation_refl _ |}.
#[local] Existing Instance in_order.
#[local] Existing Instance debug.

Definition tx_with (h prio : N) (req prov : list Tag) : Transaction N unit :=
  mkTransaction tt 10%N h prio 100%N req prov true (mkTimedTransactionSource Local None).

(** Transaction [h] of an account, with a number and a priority. *)
Definition numbered (h account nonce prio : N) : Transaction N unit :=
  tx_with h prio (if (nonce =? 0)%N then [] else [[account; (nonce - 1)%N]]) [[account; nonce]].

Definition requests : list (Request (Hash := N) (Ex := unit)) :=
  [Import 0 (numbered 12 1 2 9); Import 0 (numbered 10 1 0 5); Import 0 (numbered 20 2 0 7);
   Import 0 (numbered 11 1 1 1); Import 0 (numbered 31 3 1 3); Import 0 (numbered 21 2 1 8)]%N.

Definition example_pool : BasePool N unit := (run requests (base_pool_new false)).1.

Lemma numbered_known h a n prio : nonce_tx (numbered h a n prio).
Proof.
  exists a, n. split; [done|]. unfold numbered, tx_with. simpl. intros t. destruct (N.eqb_spec n 0); [by intros ?%elem_of_nil|].
  intros ->%list_elem_of_singleton. eexists. split; [done|]. lia.
Qed.

Lemma requests_admissible : admissible nonce_tx (imports requests).
Proof.
  split; [|by split; vm_compute]. intros tx Htx.
  repeat (apply elem_of_cons in Htx as [->|Htx]; [apply numbered_known|]). by apply elem_of_nil in Htx.
Qed.

Lemma example_reachable : reachable nonce_tx example_pool.
Proof. exists false, requests. split; [exact requests_admissible|by vm_compute]. Qed.







(** ** Outside of the hypotheses *)

(** Transactions whose tags are not of this form (slots that overlap, tags required and
    provided across slots, repeated tags) break what the theorems above show. *)

Definition a : Tag := [1%N].
Definition b : Tag := [2%N].
Definition c : Tag := [3%N].
Definition x : Tag := [4%N].

Definition import_all (txs : list (Transaction N unit)) : M (BasePool N unit) (Error N) (list (Error N + Imported N unit)) :=
  for_fold (fun tx acc => let* res := caught (import 0%N tx) in ret (acc ++ [res])) txs [].

Definition after_imports (txs : list (Transaction N unit)) : BasePool N unit := (import_all txs (base_pool_new false)).1.

(** The hashes of the transactions that [n] calls of [next] return. *)
Definition drain_hashes (n : nat) (p : BasePool N unit) : list N :=
  match (iter_run (replicate n Next) (pool_ready p)).2 with Ok out => map hash out | _ => [] end.

Definition partly_replaced : list (Transaction N unit) :=
  [tx_with 1 1 [] [a; b]; tx_with 3 1 [] [c]; tx_with 2 1 [a; c] [x]; tx_with 4 5 [] [a]; tx_with 2 9 [a; c] [x]]%N.


(** An import that is refused loses the future transactions it would have unlocked.
    Transaction 2 waits for the tag [b]; transaction 3, which provides [a] and [b], is refused
    because 1 provides [a] with a higher priority; 2 is then in neither queue and nothing reports it. *)
Theorem refused_import_loses_future :
  is_imported 2%N (after_imports [tx_with 1 5 [] [a]; tx_with 2 1 [b] [x]]%N) = true /\
  (import_all [tx_with 1 5 [] [a]; tx_with 2 1 [b] [x]; tx_with 3 1 [] [a; b]]%N (base_pool_new false)).2 =
    Ok [inr (ImportedReady 1%N [] [] []); inr (ImportedFuture 2%N); inl (TooLowPriority 5%N 1%N)] /\
  is_imported 2%N (after_imports [tx_with 1 5 [] [a]; tx_with 2 1 [b] [x]; tx_with 3 1 [] [a; b]]%N) = false.
Proof. by vm_compute. Qed.

(** A transaction replaces the one it depends on, through another tag, and is returned although
    nothing provides what it requires. *)
Example own_dependency_replaced :
  drain_hashes 2 (after_imports [tx_with 1 1 [] [a; b]; tx_with 2 10 [a] [b]]%N) = [2%N].
Proof. by vm_compute. Qed.

(** With one tag both required and provided, linking it to the transaction it replaced panics. *)
Example replaced_provider_panics :
  (import_all [tx_with 1 1 [] [a]; tx_with 2 10 [a] [a]]%N (base_pool_new false)).2 = Panic.
Proof. by vm_compute. Qed.

(** A cycle that a replacement closes is not detected: both transactions stay in the ready queue and are never returned. *)
Example cycle_not_detected :
  let p := after_imports [tx_with 1 1 [] [a]; tx_with 2 1 [a] [b]; tx_with 3 10 [b] [a]]%N in
  status p = Ok (mkPoolStatus 2 20 0 0) /\ drain_hashes 5 p = [].
Proof. by vm_compute. Qed.

(** A tag provided twice makes pruning panic. *)
Example repeated_tag_panics :
  (prune_tags [b] (after_imports [tx_with 1 5 [] [a; a; b]]%N)).2 = Panic.
Proof. by vm_compute. Qed.
End Example.
