(* ===== verification/BlockTree.v ===== *)
(** * The tree of headers

    Model of [substrate/primitives/blockchain/src/header_metadata.rs] (metadata of headers with links
    to ancestors, the lowest common ancestor of two blocks, and the route between them), of the
    metadata a database serves from its cache ([header_metadata] of [BlockchainDb] in
    [substrate/client/db/src/lib.rs]), and of [utils::is_descendent_of] in
    [substrate/client/api/src/lib.rs], which the fork trees are asked with.  The cache is an LRU map of
    another crate: class [LruMap] says that it may forget. *)

From S2P Require Import Prelude.

Record Header (H : Type) : Type := mkHeader {
  hd_hash : H;
  hd_number : N;
  hd_parent_hash : H;
  hd_state_root : H
}.
Arguments mkHeader {H} _ _ _ _.
Arguments hd_hash {H} _.
Arguments hd_number {H} _.
Arguments hd_parent_hash {H} _.
Arguments hd_state_root {H} _.

Record HashAndNumber (H : Type) : Type := mkHashAndNumber {
  hn_number : N;
  hn_hash : H
}.
Arguments mkHashAndNumber {H} _ _.
Arguments hn_number {H} _.
Arguments hn_hash {H} _.

Record CachedHeaderMetadata (H : Type) : Type := mkMetadata {
  md_hash : H;
  md_number : N;
  md_parent : H;
  md_state_root : H;
  md_ancestor : H
}.
Arguments mkMetadata {H} _ _ _ _ _.
Arguments md_hash {H} _.
Arguments md_number {H} _.
Arguments md_parent {H} _.
Arguments md_state_root {H} _.
Arguments md_ancestor {H} _.

(** The errors a lookup ends with: an unknown block, a header that is missing on a walk, or an error of the storage. *)
Inductive BlockchainError (H E : Type) : Type :=
| UnknownBlock (h : H)
| MissingHeader (h : H)
| Backend (e : E).
Arguments UnknownBlock {H E} h.
Arguments MissingHeader {H E} h.
Arguments Backend {H E} e.

(** [LruMap] of [schnellru], seen through the entries it holds: reading returns the entry and
    moves it to the front, inserting may evict others. *)
Class LruMap (H V C : Type) `{Countable H} : Type := {
  lru_get : H -> C -> C * option V;
  lru_insert : H -> V -> C -> C;
  lru_remove : H -> C -> C;
  lru_contents : C -> gmap H V;
  lru_get_value : forall h c, (lru_get h c).2 = lru_contents c !! h;
  lru_get_contents : forall h c, lru_contents (lru_get h c).1 = lru_contents c;
  lru_insert_contents : forall h v c, lru_contents (lru_insert h v c) ⊆ <[h := v]> (lru_contents c);
  lru_remove_contents : forall h c, lru_contents (lru_remove h c) ⊆ delete h (lru_contents c)
}.

(** [From<&Header> for CachedHeaderMetadata] *)
Definition metadata_from {H} (h : Header H) : CachedHeaderMetadata H :=
  mkMetadata (hd_hash h) (hd_number h) (hd_parent_hash h) (hd_state_root h) (hd_parent_hash h).

Definition set_ancestor {H} (a : H) (m : CachedHeaderMetadata H) : CachedHeaderMetadata H :=
  mkMetadata (md_hash m) (md_number m) (md_parent m) (md_state_root m) a.

(** ** The route between two blocks *)

Record TreeRoute (H : Type) : Type := mkTreeRoute {
  route : list (HashAndNumber H);
  pivot : nat
}.
Arguments mkTreeRoute {H} _ _.
Arguments route {H} _.
Arguments pivot {H} _.

Section tree_route.
Context {H E : Type}.
Implicit Types t : TreeRoute H.

(** [TreeRoute::new]; the error is a text with the two numbers. *)
Definition tree_route_new (r : list (HashAndNumber H)) (p : nat) : outcome (nat * nat) (TreeRoute H) :=
  if p <? length r then Ok (mkTreeRoute r p) else Err (p, length r).

(** A range of a slice panics when it ends before it starts or after the slice. *)
Definition retracted t : outcome E (list (HashAndNumber H)) :=
  if pivot t <=? length (route t) then Ok (take (pivot t) (route t)) else Panic.

Definition into_retracted t : list (HashAndNumber H) := take (pivot t) (route t).

Definition common_block t : outcome E (HashAndNumber H) := expect (route t !! pivot t).

Definition enacted t : outcome E (list (HashAndNumber H)) :=
  if pivot t + 1 <=? length (route t) then Ok (drop (pivot t + 1) (route t)) else Panic.

Definition route_last t : option (HashAndNumber H) := last (route t).
End tree_route.

Section model.
Context {P : Profile} {H E C : Type} `{LruMap H (CachedHeaderMetadata H) C}.
Notation metadata := (CachedHeaderMetadata H).
Notation error := (BlockchainError H E).

(** [HeaderBackend::header]: what the database has for a hash. *)
Context (header : H -> E + option (Header H)).

(** ** The cache and the database *)

Definition cached_metadata (h : H) : M C error (option metadata) := fun c =>
  let '(c', o) := lru_get h c in (c', Ok o).

Definition insert_header_metadata (h : H) (m : metadata) : M C error unit := modify_state (lru_insert h m).

Definition remove_header_metadata (h : H) : M C error unit := modify_state (lru_remove h).

(** [BlockchainDb::header_metadata] *)
Definition header_metadata (h : H) : M C error metadata :=
  let* cached := cached_metadata h in
  match cached with
  | Some m => ret m
  | None =>
      match header h with
      | inl e => throw (Backend e)
      | inr None => throw (UnknownBlock h)
      | inr (Some hd) =>
          let m := metadata_from hd in
          let* _ := insert_header_metadata (md_hash m) m in
          ret m
      end
  end.

(** ** [lowest_common_ancestor] *)

(** A round of the loops over ancestor links: not below [limit]. *)
Definition climb (limit : N) (m : metadata) : M C error (control metadata metadata) :=
  if (limit <? md_number m)%N then
    let* ancestor := header_metadata (md_ancestor m) in
    if (limit <=? md_number ancestor)%N then ret (Continue ancestor) else ret (Break m)
  else ret (Break m).

(** A round of the loop over parent links. *)
Definition meet (ms : metadata * metadata) : M C error (control (metadata * metadata) (metadata * metadata)) :=
  let '(one, two) := ms in
  if decide (md_hash one = md_hash two) then ret (Break (one, two))
  else if (md_number two <? md_number one)%N then
    let* one := header_metadata (md_parent one) in ret (Continue (one, two))
  else
    let* two := header_metadata (md_parent two) in ret (Continue (one, two)).

(** The cached link of [orig] is moved to the ancestor that was found. *)
Definition update_ancestor (orig found : metadata) : M C error unit :=
  if (md_number found <? md_number orig)%N
  then insert_header_metadata (md_hash orig) (set_ancestor (md_hash found) orig) else ret tt.

(** Every round of a loop goes to a smaller number. *)
Definition lowest_common_ancestor (id_one id_two : H) : M C error (HashAndNumber H) :=
  let* one := header_metadata id_one in
  if decide (md_parent one = id_two) then
    let* n := lift (sub_u32 (md_number one) 1) in ret (mkHashAndNumber n id_two)
  else
  let* two := header_metadata id_two in
  if decide (md_parent two = id_one) then ret (mkHashAndNumber (md_number one) id_one)
  else
  let* one' := loopM (S (N.to_nat (md_number one))) (climb (md_number two)) one in
  let* two' := loopM (S (N.to_nat (md_number two))) (climb (md_number one')) two in
  let* '(found, _) := loopM (S (N.to_nat (md_number one' + md_number two'))) meet (one', two') in
  let* _ := update_ancestor one found in
  let* _ := update_ancestor two found in
  ret (mkHashAndNumber (md_number found) (md_hash found)).

(** ** [tree_route] *)

Definition entry_of (m : metadata) : HashAndNumber H := mkHashAndNumber (md_number m) (md_hash m).

(** A round of the loops that bring the two blocks to one number. *)
Definition descend (limit : N) (s : metadata * list (HashAndNumber H))
  : M C error (control (metadata * list (HashAndNumber H)) (metadata * list (HashAndNumber H))) :=
  let '(m, branch) := s in
  if (limit <? md_number m)%N then
    let branch := branch ++ [entry_of m] in
    let* m := header_metadata (md_parent m) in
    ret (Continue (m, branch))
  else ret (Break (m, branch)).

Definition descend_both (s : (metadata * list (HashAndNumber H)) * (metadata * list (HashAndNumber H)))
  : M C error (control ((metadata * list (HashAndNumber H)) * (metadata * list (HashAndNumber H)))
                       ((metadata * list (HashAndNumber H)) * (metadata * list (HashAndNumber H)))) :=
  let '((to, to_branch), (from, from_branch)) := s in
  if decide (md_hash to = md_hash from) then ret (Break s)
  else
    let to_branch := to_branch ++ [entry_of to] in
    let* to := header_metadata (md_parent to) in
    let from_branch := from_branch ++ [entry_of from] in
    let* from := header_metadata (md_parent from) in
    ret (Continue ((to, to_branch), (from, from_branch))).

Definition tree_route (from to : H) : M C error (TreeRoute H) :=
  let* from := header_metadata from in
  let* to := header_metadata to in
  let* to_s := loopM (S (N.to_nat (md_number to))) (descend (md_number from)) (to, []) in
  let* from_s := loopM (S (N.to_nat (md_number from))) (descend (md_number to_s.1)) (from, []) in
  let* '((to, to_branch), (_, from_branch)) :=
    loopM (S (N.to_nat (md_number to_s.1))) descend_both (to_s, from_s) in
  ret (mkTreeRoute (from_branch ++ [entry_of to] ++ rev to_branch) (length from_branch)).

(** ** [is_descendent_of] *)

(** [utils::is_descendent_of] applied to a client and [current], and the function it returns to
    [base] and [hash]. *)
Definition is_descendent_of (current : option (H * H)) (base hash : H) : M C error bool :=
  let below hash :=
    let* ancestor := lowest_common_ancestor hash base in
    ret (bool_decide (hn_hash ancestor = base)) in
  if decide (base = hash) then ret false else
  match current with
  | Some (current_hash, current_parent_hash) =>
      if decide (base = current_hash) then ret false
      else if decide (hash = current_hash) then
        if decide (base = current_parent_hash) then ret true else below current_parent_hash
      else below hash
  | None => below hash
  end.
End model.
