(* ===== verification/BlockTreeSpec.v ===== *)
(** * The tree of headers: theorems

    For a database whose headers form a tree, whatever the cache has kept: the lowest common
    ancestor is that, the route between two blocks is the path in the tree, and
    [is_descendent_of] answers with an ancestry the fork trees can be used with. *)

From S2P Require Import Prelude ForkTree ForkTreeSpec BlockTree.

Section tree.
Context {H E : Type} `{Countable H}.
Implicit Types (a b c h : H) (header : H -> E + option (Header H)).

(** The headers of a database form a tree above one genesis block; the parent hash of the
    genesis block is not that of a block. *)
Record tree_ok header : Prop := {
  tr_hash : forall h hd, header h = inr (Some hd) -> hd_hash hd = h;
  tr_parent : forall h hd, header h = inr (Some hd) -> hd_number hd <> 0%N ->
    exists pd, header (hd_parent_hash hd) = inr (Some pd) /\ hd_number hd = (hd_number pd + 1)%N;
  tr_genesis : forall h h' hd hd', header h = inr (Some hd) -> header h' = inr (Some hd') ->
    hd_number hd = 0%N -> hd_number hd' = 0%N -> h = h';
  tr_first : forall h hd, header h = inr (Some hd) -> hd_number hd = 0%N ->
    forall hd', header (hd_parent_hash hd) <> inr (Some hd');
  tr_width : forall h hd, header h = inr (Some hd) -> (hd_number hd <= u32_MAX)%N
}.

Section header.
Context (header : H -> E + option (Header H)).

(** The number of a block, and the block [k] steps above it. *)
Definition known h : bool := match header h with inr (Some _) => true | _ => false end.

Definition height h : nat := match header h with inr (Some hd) => N.to_nat (hd_number hd) | _ => 0 end.

Definition parent h : option H :=
  match header h with
  | inr (Some hd) => if (hd_number hd =? 0)%N then None else Some (hd_parent_hash hd)
  | _ => None
  end.

Fixpoint up (k : nat) h : option H :=
  match k with
  | 0 => Some h
  | S k => parent h ≫= up k
  end.

(** [a] is a strict ancestor of [b]. *)
Definition ancestor a b : bool :=
  known a && known b && (height a <? height b) && bool_decide (up (height b - height a) b = Some a).

Context (Hok : tree_ok header).

Lemma known_header h : known h = true -> exists hd, header h = inr (Some hd).
Proof. unfold known. destruct (header h) as [|[hd|]]; try done. eauto. Qed.

Lemma parent_known h a : known h = true -> parent h = Some a -> known a = true /\ height h = S (height a).
Proof.
  intros (hd & Hh)%known_header. unfold parent, known, height. rewrite Hh. destruct (N.eqb_spec (hd_number hd) 0) as [|Hne]; [done|].
  intros [= <-]. destruct (tr_parent _ Hok _ _ Hh Hne) as (pd & -> & ->). split; [done|]. lia.
Qed.

Lemma parent_exists h : known h = true -> 0 < height h -> is_Some (parent h).
Proof.
  intros (hd & Hh)%known_header. unfold parent, height. rewrite Hh. destruct (N.eqb_spec (hd_number hd) 0) as [->|]; [simpl; lia|by eexists].
Qed.

Lemma up_add j k h : up (j + k) h = up j h ≫= up k.
Proof. revert h. induction j as [|j IH]; intros h; [done|]. simpl. destruct (parent h); [apply IH|done]. Qed.

Lemma up_known k h a : known h = true -> up k h = Some a -> known a = true /\ height h = k + height a.
Proof.
  revert h. induction k as [|k IH]; intros h Hh; simpl; [by intros [= <-]|].
  destruct (parent h) as [p|] eqn:Hp; [|done]. simpl. intros Hup. destruct (parent_known h p Hh Hp) as [Hk Hn].
  destruct (IH p Hk Hup) as [? ?]. split; [done|]. lia.
Qed.

Lemma up_exists k h : known h = true -> k <= height h -> is_Some (up k h).
Proof.
  revert h. induction k as [|k IH]; intros h Hh Hle; simpl; [by eexists|].
  destruct (parent_exists h Hh) as [p Hp]; [lia|]. rewrite Hp. simpl.
  destruct (parent_known h p Hh Hp) as [Hk Hn]. apply IH; [done|lia].
Qed.

Lemma up_root h : known h = true -> forall g, known g = true -> height g = 0 -> up (height h) h = Some g.
Proof.
  intros Hh g Hg Hz. destruct (up_exists (height h) h Hh) as [a Ha]; [done|]. rewrite Ha. f_equal.
  destruct (up_known _ _ _ Hh Ha) as [Hk Hn]. apply known_header in Hk as (hd & Hhd), Hg as (gd & Hgd).
  unfold height in Hz, Hn. rewrite Hgd in Hz. rewrite Hhd in Hn.
  apply (tr_genesis _ Hok a g hd gd Hhd Hgd); [|lia]. assert (height h = height h + N.to_nat (hd_number hd)) by done. lia.
Qed.

Lemma ancestor_spec a b : ancestor a b = true <->
  known a = true /\ known b = true /\ exists k, 0 < k /\ up k b = Some a.
Proof.
  unfold ancestor. rewrite !andb_true_iff, Nat.ltb_lt, bool_decide_eq_true. split.
  - intros [[[Ha Hb] Hlt] Hup]. split_and!; [done..|]. exists (height b - height a). split; [lia|done].
  - intros (Ha & Hb & k & Hpos & Hup). destruct (up_known k b a Hb Hup) as [_ Hn]. split_and!; [done|done|lia|].
    by replace (height b - height a) with k by lia.
Qed.

(** What the fork trees ask of an ancestry. *)
#[export] Instance tree_ancestry : Ancestry ancestor (fun h => N.of_nat (height h)).
Proof.
  split.
  - intros a b c (Ha & Hb & j & Hj & Hab)%ancestor_spec (_ & Hc & k & Hk & Hbc)%ancestor_spec.
    apply ancestor_spec. split_and!; [done..|]. exists (k + j). split; [lia|]. by rewrite up_add, Hbc.
  - intros a b c (Ha & Hc & j & Hj & Hac)%ancestor_spec (Hb & _ & k & Hk & Hbc)%ancestor_spec.
    rewrite !ancestor_spec. destruct (decide (j = k)) as [->|Hne]; [left; congruence|right].
    destruct (decide (j < k)).
    + right. split_and!; [done..|]. exists (k - j). split; [lia|].
      replace k with (j + (k - j)) in Hbc by lia. by rewrite up_add, Hac in Hbc.
    + left. split_and!; [done..|]. exists (j - k). split; [lia|].
      replace j with (k + (j - k)) in Hac by lia. by rewrite up_add, Hbc in Hac.
  - intros a b (Ha & Hb & k & Hk & Hup)%ancestor_spec. destruct (up_known k b a Hb Hup). lia.
Qed.
End header.
End tree.

(** ** A block that is not in the database yet *)

Section extended.
Context {H : Type} `{!EqDecision H} (anc : H -> H -> bool) (number : H -> N) `{!Ancestry anc number}.

(** The ancestry with a block [current] on top of its parent. *)
Definition extended (current : option (H * H)) (a b : H) : bool :=
  match current with
  | None => anc a b
  | Some (cur, par) =>
      if decide (a = cur) then false
      else if decide (b = cur) then bool_decide (a = par) || anc a par else anc a b
  end.

Definition extended_number (current : option (H * H)) (h : H) : N :=
  match current with
  | None => number h
  | Some (cur, par) => if decide (h = cur) then (number par + 1)%N else number h
  end.

#[export] Instance extended_ancestry current : Ancestry (extended current) (extended_number current).
Proof.
  destruct current as [[cur par]|]; [|done].
  assert (forall a, bool_decide (a = par) || anc a par = true <-> a = par \/ anc a par = true) as Hor
    by (intros a; by rewrite orb_true_iff, bool_decide_eq_true).
  split; unfold extended, extended_number.
  - intros a b c. destruct (decide (a = cur)), (decide (b = cur)), (decide (c = cur)); try done; [|by apply anc_trans]. rewrite !Hor.
    intros Hab [->|Hb]; right; [done|by eapply anc_trans].
  - intros a b c. destruct (decide (a = cur)), (decide (b = cur)), (decide (c = cur)); try done; [|by apply anc_chain]. rewrite !Hor.
    intros [->|Ha] [->|Hb]; auto. by eapply anc_chain.
  - intros a b. destruct (decide (a = cur)), (decide (b = cur)); try done; [|by apply anc_height]. rewrite Hor.
    intros [->|Ha%anc_height]; lia.
Qed.
End extended.

(** ** Reading metadata *)

Section cache.
Context {P : Profile} {H E C : Type} `{LruMap H (CachedHeaderMetadata H) C}.
Context (header : H -> E + option (Header H)) (Hok : tree_ok header).
Notation metadata := (CachedHeaderMetadata H).
Notation error := (BlockchainError H E).
Notation known := (known header).
Notation height := (height header).
Notation up := (up header).
Implicit Types (a b h : H) (m : metadata) (c : C).

(** Metadata that tells the truth: the link to an ancestor leads to one. *)
Record metadata_ok h m : Prop := {
  mo_known : known h = true;
  mo_hash : md_hash m = h;
  mo_number : md_number m = N.of_nat (height h);
  mo_parent : 0 < height h -> up 1 h = Some (md_parent m);
  mo_first : height h = 0 -> known (md_parent m) = false;
  mo_ancestor : 0 < height h -> exists k, 0 < k /\ up k h = Some (md_ancestor m)
}.

Definition cache_ok c : Prop := forall h m, lru_contents c !! h = Some m -> metadata_ok h m.

Lemma metadata_from_ok h hd : header h = inr (Some hd) -> metadata_ok h (metadata_from hd).
Proof.
  intros Hh. assert (known h = true) as Hk by (unfold BlockTreeSpec.known; by rewrite Hh).
  assert (height h = N.to_nat (hd_number hd)) as Hn by (unfold BlockTreeSpec.height; by rewrite Hh).
  assert (0 < height h -> up 1 h = Some (hd_parent_hash hd)) as Hp.
  { intros Hpos. simpl. unfold parent. rewrite Hh. destruct (N.eqb_spec (hd_number hd) 0) as [Hz|]; [|done].
    rewrite Hn, Hz in Hpos. simpl in Hpos. lia. }
  split; simpl; [done|by apply (tr_hash _ Hok)|lia|done| |].
  - intros Hz. assert (hd_number hd = 0%N) as Hz' by lia. pose proof (tr_first _ Hok _ _ Hh Hz') as Hf. unfold BlockTreeSpec.known.
    destruct (header (hd_parent_hash hd)) as [|[hd'|]] eqn:Hp'; try done. by destruct (Hf hd').
  - intros Hpos. exists 1. split; [lia|auto].
Qed.

(** A block whose metadata names a block as its parent is not the first one. *)
Lemma parent_of_known h m b : metadata_ok h m -> md_parent m = b -> known b = true -> 0 < height h.
Proof. intros Hm <- Hk. destruct (decide (height h = 0)) as [Hz|]; [|lia]. apply (mo_first _ _ Hm) in Hz. congruence. Qed.

Lemma cache_insert_ok h m c : cache_ok c -> metadata_ok h m -> cache_ok (lru_insert h m c).
Proof.
  intros Hc Hm h' m' Hl. pose proof (lookup_weaken _ _ _ _ Hl (lru_insert_contents h m c)) as Hin.
  apply lookup_insert_Some in Hin as [[<- <-]|[_ Hin]]; [done|by apply Hc].
Qed.

Lemma cache_remove_ok h c : cache_ok c -> cache_ok (lru_remove h c).
Proof.
  intros Hc h' m' Hl. pose proof (lookup_weaken _ _ _ _ Hl (lru_remove_contents h c)) as Hin.
  apply lookup_delete_Some in Hin as [_ Hin]. by apply Hc.
Qed.

Lemma header_metadata_ok h c : cache_ok c -> known h = true ->
  postM (header_metadata header h) c (fun m c' => metadata_ok h m /\ cache_ok c') (fun _ _ => False).
Proof.
  intros Hc (hd & Hh)%known_header. unfold header_metadata, cached_metadata, postM, bindM.
  pose proof (lru_get_value h c) as Hv. pose proof (lru_get_contents h c) as Hcon.
  destruct (lru_get h c) as [c1 o]. simpl in Hv, Hcon.
  assert (cache_ok c1) as Hc1 by (intros h' m'; rewrite Hcon; apply Hc).
  destruct o as [m|]; simpl; [split; [by apply Hc|done]|].
  rewrite Hh. simpl. pose proof (metadata_from_ok h hd Hh) as Hm. split; [done|].
  rewrite (tr_hash _ Hok _ _ Hh). by apply cache_insert_ok.
Qed.

(** ** The lowest common ancestor *)

(** [m] is the metadata of a block at or above [a]. *)
Definition above_of a m : Prop := exists k, metadata_ok (md_hash m) m /\ up k a = Some (md_hash m).

Lemma above_refl a m : metadata_ok a m -> above_of a m.
Proof. intros Hm. exists 0. pose proof (mo_hash _ _ Hm) as Hh. rewrite Hh. done. Qed.

(** No common ancestor of [a] and [b] is higher than [n]. *)
Definition meet_below a b (n : nat) : Prop :=
  forall i j x, up i a = Some x -> up j b = Some x -> height x <= n.

(** [x] is the lowest common ancestor of [a] and [b], which may be one of them. *)
Definition lca a b x : Prop :=
  (exists i, up i a = Some x) /\ (exists j, up j b = Some x) /\ meet_below a b (height x).

Lemma climb_ok a limit m c : known a = true -> cache_ok c -> above_of a m ->
  postM (climb header (N.of_nat limit) m) c
    (fun r c' => cache_ok c' /\ match r with
       | Continue m' => above_of a m' /\ limit <= height (md_hash m') < height (md_hash m)
       | Break m' => m' = m
       end) (fun _ _ => False).
Proof.
  intros Ha Hc (k & Hm & Hup). unfold climb. rewrite (mo_number _ _ Hm).
  destruct (N.ltb_spec (N.of_nat limit) (N.of_nat (height (md_hash m)))) as [Hlt|]; [|done].
  destruct (mo_ancestor _ _ Hm) as (j & Hj & Hanc); [lia|].
  pose proof (up_known header Hok j _ _ (mo_known _ _ Hm) Hanc) as [Hk Hn].
  apply postM_bind. eapply postM_mono; [by apply header_metadata_ok| |done].
  intros m' c' [Hm' Hc']. pose proof (mo_hash _ _ Hm') as Hh'. rewrite (mo_number _ _ Hm').
  destruct (N.leb_spec (N.of_nat limit) (N.of_nat (height (md_ancestor m)))); [|done].
  split; [done|]. rewrite Hh'. split; [|lia]. exists (k + j). rewrite Hh'. split; [done|]. by rewrite up_add, Hup.
Qed.

Lemma climb_loop a limit m c : known a = true -> cache_ok c -> above_of a m ->
  postM (loopM (S (N.to_nat (md_number m))) (climb header (N.of_nat limit)) m) c
    (fun m' c' => cache_ok c' /\ above_of a m' /\ limit `min` height (md_hash m) <= height (md_hash m')) (fun _ _ => False).
Proof.
  intros Ha Hc Hm.
  refine (loopM_post _ (fun m' c' => cache_ok c' /\ above_of a m' /\ limit `min` height (md_hash m) <= height (md_hash m'))
    (fun m _ => height (md_hash m)) _ _ _ _ m c _ _); [|by split_and!; [..|lia]|destruct Hm as (k & Hm & _); rewrite (mo_number _ _ Hm); lia].
  intros m1 c1 (Hc1 & Hm1 & Hle). eapply postM_mono; [by apply (climb_ok a)| |done].
  intros [m'|m'] c' [Hc' Hr]; simpl in *; [|by subst]. destruct Hr as [? ?]. split_and!; [done|done|lia|lia].
Qed.

(** ** Parent links *)

Lemma parent_metadata a m c : known a = true -> cache_ok c -> above_of a m -> 0 < height (md_hash m) ->
  postM (header_metadata header (md_parent m)) c
    (fun m' c' => cache_ok c' /\ above_of a m' /\ S (height (md_hash m')) = height (md_hash m) /\
       up 1 (md_hash m) = Some (md_hash m')) (fun _ _ => False).
Proof.
  intros Ha Hc (k & Hm & Hup) Hpos. pose proof (mo_parent _ _ Hm Hpos) as Hp.
  pose proof (up_known header Hok 1 _ _ (mo_known _ _ Hm) Hp) as [Hk Hn].
  eapply postM_mono; [by apply header_metadata_ok| |done]. intros m' c' [Hm' Hc']. pose proof (mo_hash _ _ Hm') as Hh'.
  split; [done|]. rewrite Hh'. split_and!; [|lia|done]. exists (k + 1). rewrite Hh'. split; [done|]. by rewrite up_add, Hup.
Qed.

(** Two different blocks of one height are above every common ancestor. *)
Lemma meet_lower a b i j x y : known a = true -> known b = true -> up i a = Some x -> up j b = Some y -> x <> y ->
  height x = height y -> meet_below a b (height x) -> 0 < height x /\ meet_below a b (height x - 1).
Proof.
  intros Ha Hb Hx Hy Hne Heq Hmb. pose proof (up_known header Hok i a x Ha Hx) as [Hkx Hnx].
  pose proof (up_known header Hok j b y Hb Hy) as [Hky Hny]. split.
  - destruct (decide (height x = 0)) as [Hz|]; [|lia]. exfalso. apply Hne.
    assert (up (height x) x = Some y) as Hr by (apply (up_root header Hok x Hkx y Hky); lia). rewrite Hz in Hr. by injection Hr.
  - intros i' j' z Hz Hz'. pose proof (Hmb i' j' z Hz Hz') as Hle.
    pose proof (up_known header Hok i' a z Ha Hz) as [_ Hnz]. pose proof (up_known header Hok j' b z Hb Hz') as [_ Hnz'].
    destruct (decide (height z = height x)) as [He|]; [|lia]. exfalso. apply Hne.
    assert (i' = i) as -> by lia. assert (j' = j) as -> by lia. congruence.
Qed.

(** What holds of the two blocks in every round. *)
Definition meeting a b (ms : metadata * metadata) c : Prop :=
  cache_ok c /\ above_of a ms.1 /\ above_of b ms.2 /\
  meet_below a b (height (md_hash ms.1) `min` height (md_hash ms.2)).

Lemma meet_ok a b ms c : known a = true -> known b = true -> meeting a b ms c ->
  postM (meet header ms) c
    (fun r c' => match r with
       | Continue ms' => meeting a b ms' c' /\
           height (md_hash ms'.1) + height (md_hash ms'.2) < height (md_hash ms.1) + height (md_hash ms.2)
       | Break ms' => ms' = ms /\ c' = c /\ md_hash ms.1 = md_hash ms.2
       end) (fun _ _ => False).
Proof.
  destruct ms as [one two]. intros Ha Hb (Hc & Hone & Htwo & Hmb). simpl in *. unfold meet.
  destruct (decide (md_hash one = md_hash two)) as [|Hne]; [done|].
  pose proof Hone as (i & Hm1 & Hup1). pose proof Htwo as (j & Hm2 & Hup2). rewrite (mo_number _ _ Hm1), (mo_number _ _ Hm2).
  destruct (N.ltb_spec (N.of_nat (height (md_hash two))) (N.of_nat (height (md_hash one)))) as [Hlt|Hge]; apply postM_bind.
  - eapply postM_mono; [by apply (parent_metadata a); [..|lia]| |done]. intros one' c' (Hc' & Hone' & Hn & _).
    unfold postM, meeting. simpl. split_and!; [done..| |lia]. intros i' j' z Hz Hz'. specialize (Hmb i' j' z Hz Hz'). lia.
  - assert (0 < height (md_hash two) /\ meet_below a b (height (md_hash one) `min` (height (md_hash two) - 1))) as [Hpos Hmb'].
    { destruct (decide (height (md_hash one) = height (md_hash two))) as [He|].
      - destruct (meet_lower a b i j _ _ Ha Hb Hup1 Hup2 Hne He) as [? Hl]; [by rewrite He, Nat.min_id in *|]. split; [lia|].
        intros i' j' z Hz Hz'. specialize (Hl i' j' z Hz Hz'). lia.
      - split; [lia|]. intros i' j' z Hz Hz'. specialize (Hmb i' j' z Hz Hz'). lia. }
    eapply postM_mono; [by apply (parent_metadata b)| |done]. intros two' c' (Hc' & Htwo' & Hn & _).
    unfold postM, meeting. simpl. split_and!; [done..| |lia]. intros i' j' z Hz Hz'. specialize (Hmb' i' j' z Hz Hz'). lia.
Qed.

Lemma meet_loop a b one two c : known a = true -> known b = true -> meeting a b (one, two) c ->
  postM (loopM (S (N.to_nat (md_number one + md_number two))) (meet header) (one, two)) c
    (fun ms c' => cache_ok c' /\ metadata_ok (md_hash ms.1) ms.1 /\ lca a b (md_hash ms.1)) (fun _ _ => False).
Proof.
  intros Ha Hb Hmt.
  refine (loopM_post _ (meeting a b) (fun ms _ => height (md_hash ms.1) + height (md_hash ms.2)) _ _ _ _ (one, two) c _ _);
    [|done|destruct Hmt as (_ & (i & Hm1 & _) & (j & Hm2 & _) & _); simpl in *; rewrite (mo_number _ _ Hm1), (mo_number _ _ Hm2); lia].
  intros ms c' Hms. eapply postM_mono; [by apply (meet_ok a b)| |done].
  intros [ms'|ms'] c'' Hr; [done|]. destruct Hr as (-> & -> & Heq). destruct Hms as (Hc & (i & Hm1 & Hup1) & (j & Hm2 & Hup2) & Hmb).
  split_and!; [done|done|]. rewrite <-Heq, Nat.min_id in Hmb. split_and!; [by exists i|exists j; congruence|done].
Qed.

(** ** [lowest_common_ancestor] *)

Lemma update_ancestor_ok a orig found k c : cache_ok c -> metadata_ok a orig -> metadata_ok (md_hash found) found ->
  up k a = Some (md_hash found) ->
  postM (update_ancestor (E := E) orig found) c (fun _ c' => cache_ok c') (fun _ _ => False).
Proof.
  intros Hc Hm Hf Hup. unfold update_ancestor. rewrite (mo_number _ _ Hm), (mo_number _ _ Hf).
  destruct (N.ltb_spec (N.of_nat (height (md_hash found))) (N.of_nat (height a))) as [Hlt|]; [|done].
  pose proof (up_known header Hok k a _ (mo_known _ _ Hm) Hup) as [_ Hn]. unfold postM. simpl.
  rewrite (mo_hash _ _ Hm). apply cache_insert_ok; [done|]. destruct Hm. split; simpl; try done.
  intros _. exists k. split; [lia|done].
Qed.

Lemma lca_above a b k : known a = true -> up k a = Some b -> lca a b b.
Proof.
  intros Ha Hup. split_and!; [by exists k|by exists 0|]. intros i j x _ Hx.
  pose proof (up_known header Hok k a b Ha Hup) as [Hb _]. pose proof (up_known header Hok j b x Hb Hx) as [_ Hn]. lia.
Qed.

Lemma lca_sym a b x : lca a b x -> lca b a x.
Proof. intros (? & ? & Hm). split_and!; [done..|]. intros i j z Hi Hj. by apply (Hm j i). Qed.

Lemma lca_unique a b x y : known a = true -> lca a b x -> lca a b y -> x = y.
Proof.
  intros Ha ((i & Hi) & (j & Hj) & Hm) ((i' & Hi') & (j' & Hj') & Hm').
  pose proof (Hm _ _ _ Hi' Hj'). pose proof (Hm' _ _ _ Hi Hj).
  pose proof (up_known header Hok i a x Ha Hi) as [_ Hn]. pose proof (up_known header Hok i' a y Ha Hi') as [_ Hn'].
  assert (i = i') as -> by lia. congruence.
Qed.

Lemma lowest_common_ancestor_ok a b c : known a = true -> known b = true -> cache_ok c ->
  postM (lowest_common_ancestor header a b) c
    (fun r c' => cache_ok c' /\ lca a b (hn_hash r) /\ hn_number r = N.of_nat (height (hn_hash r))) (fun _ _ => False).
Proof.
  intros Ha Hb Hc. unfold lowest_common_ancestor. apply postM_bind.
  eapply postM_mono; [by apply header_metadata_ok| |done]. intros one c1 [Hone Hc1].
  pose proof (mo_hash _ _ Hone) as Hh1. pose proof (mo_number _ _ Hone) as Hn1.
  destruct (decide (md_parent one = b)) as [Hpar|_].
  { assert (0 < height a) as Hpos by by eapply parent_of_known.
    pose proof (mo_parent _ _ Hone Hpos) as Hup. rewrite Hpar in Hup.
    pose proof (up_known header Hok 1 a b Ha Hup) as [_ Hn]. rewrite Hn1.
    rewrite (postM_lift _ _ _ (N.of_nat (height b))); [|unfold sub_u32; rewrite (proj2 (N.leb_le _ _)) by lia; f_equal; lia].
    split_and!; [done|by eapply lca_above|done]. }
  apply postM_bind. eapply postM_mono; [by apply header_metadata_ok| |done]. intros two c2 [Htwo Hc2].
  pose proof (mo_hash _ _ Htwo) as Hh2. pose proof (mo_number _ _ Htwo) as Hn2.
  destruct (decide (md_parent two = a)) as [Hpar|_].
  { assert (0 < height b) as Hpos by by eapply parent_of_known.
    pose proof (mo_parent _ _ Htwo Hpos) as Hup. rewrite Hpar in Hup.
    split_and!; [done|by eapply lca_sym, lca_above|done]. }
  apply postM_bind. rewrite Hn2. eapply postM_mono; [by apply (climb_loop a); [..|apply above_refl]| |done].
  intros one' c3 (Hc3 & Hab1 & Hmin1). pose proof Hab1 as (i & Hm1 & Hup1). rewrite (mo_number _ _ Hm1).
  apply postM_bind. rewrite <-Hn2. eapply postM_mono; [by apply (climb_loop b); [..|apply above_refl]| |done].
  intros two' c4 (Hc4 & Hab2 & Hmin2). apply postM_bind. rewrite <-(mo_number _ _ Hm1).
  eapply postM_mono; [apply (meet_loop a b); [done..|]| |done].
  { split_and!; [done..|]. simpl. intros i' j' z Hz Hz'. rewrite Hh1 in Hmin1. rewrite Hh2 in Hmin2.
    pose proof (up_known header Hok i' a z Ha Hz) as [_ ?]. pose proof (up_known header Hok j' b z Hb Hz') as [_ ?]. lia. }
  intros [found two''] c5 (Hc5 & Hf & Hlca). simpl in Hf, Hlca. pose proof Hlca as ((k1 & Hk1) & (k2 & Hk2) & _).
  apply postM_bind. eapply postM_mono; [by eapply update_ancestor_ok| |done]. intros [] c6 Hc6.
  apply postM_bind. eapply postM_mono; [by eapply update_ancestor_ok| |done]. intros [] c7 Hc7.
  split_and!; [done|done|apply Hf].
Qed.

(** ** [tree_route] *)

(** The blocks from [b] up to, and without, the one [k] steps above it. *)
Fixpoint line (k : nat) b : list (HashAndNumber H) :=
  match k with
  | 0 => []
  | S k => mkHashAndNumber (N.of_nat (height b)) b :: from_option (line k) [] (parent header b)
  end.

Lemma line_snoc k b x : up k b = Some x -> line (S k) b = line k b ++ [mkHashAndNumber (N.of_nat (height x)) x].
Proof.
  revert b. induction k as [|k IH]; intros b Hup; [injection Hup as <-; simpl; by destruct (parent header b)|].
  change (line (S (S k)) b) with (mkHashAndNumber (N.of_nat (height b)) b :: from_option (line (S k)) [] (parent header b)).
  change (line (S k) b) with (mkHashAndNumber (N.of_nat (height b)) b :: from_option (line k) [] (parent header b)).
  simpl in Hup. destruct (parent header b) as [p|]; [|done]. cbn [from_option]. by rewrite (IH p Hup).
Qed.

Lemma line_length k b x : known b = true -> up k b = Some x -> length (line k b) = k.
Proof.
  revert b. induction k as [|k IH]; intros b Hb Hup; [done|]. simpl in *.
  destruct (parent header b) as [p|] eqn:Hp; [|done]. simpl in *. f_equal. apply IH; [|done].
  by apply (parent_known header Hok b p Hb Hp).
Qed.

(** A walk up from [b]: the blocks behind it are in the list. *)
Definition walked b (s : metadata * list (HashAndNumber H)) : Prop := exists k,
  metadata_ok (md_hash s.1) s.1 /\ up k b = Some (md_hash s.1) /\ s.2 = line k b.

Lemma walked_above b s : walked b s -> above_of b s.1.
Proof. intros (k & ? & ? & _). by exists k. Qed.

Lemma walked_step b m branch c : known b = true -> cache_ok c -> walked b (m, branch) -> 0 < height (md_hash m) ->
  postM (header_metadata header (md_parent m)) c
    (fun m' c' => cache_ok c' /\ walked b (m', branch ++ [entry_of m]) /\ S (height (md_hash m')) = height (md_hash m))
    (fun _ _ => False).
Proof.
  intros Hb Hc (k & Hm & Hup & Hbr) Hpos. simpl in *.
  eapply postM_mono; [apply (parent_metadata b m c Hb Hc); [by exists k|done]| |done].
  intros m' c' (Hc' & (k' & Hm' & Hup') & Hn & Hone). split_and!; [done| |done]. exists (S k). cbn [fst snd]. split_and!; [done| |].
  - replace (S k) with (k + 1) by lia. rewrite up_add, Hup. exact Hone.
  - subst branch. pose proof (line_snoc k b _ Hup) as Hl. unfold entry_of. rewrite (mo_number _ _ Hm). symmetry. exact Hl.
Qed.

Lemma descend_loop b limit m branch c : known b = true -> cache_ok c -> walked b (m, branch) ->
  postM (loopM (S (N.to_nat (md_number m))) (descend header (N.of_nat limit)) (m, branch)) c
    (fun s c' => cache_ok c' /\ walked b s /\ height (md_hash s.1) = limit `min` height (md_hash m)) (fun _ _ => False).
Proof.
  intros Hb Hc Hw.
  refine (loopM_post _ (fun s c' => cache_ok c' /\ walked b s /\
      limit `min` height (md_hash m) <= height (md_hash s.1) <= height (md_hash m))
    (fun s _ => height (md_hash s.1)) _ _ _ _ (m, branch) c _ _);
    [|split_and!; [done..|simpl; lia|simpl; lia]|destruct Hw as (k & Hm & _); simpl in *; rewrite (mo_number _ _ Hm); lia].
  intros [m1 br1] c1 (Hc1 & Hw1 & Hle). pose proof Hw1 as (k & Hm1 & _ & _). simpl in Hm1, Hle. unfold descend.
  rewrite (mo_number _ _ Hm1). destruct (N.ltb_spec (N.of_nat limit) (N.of_nat (height (md_hash m1)))) as [Hlt|].
  - apply postM_bind. eapply postM_mono; [by apply (walked_step b); [..|lia]| |done]. intros m2 c2 (Hc2 & Hw2 & Hn).
    unfold postM. simpl. split_and!; [done|done|lia|lia|lia].
  - unfold postM. simpl. split_and!; [done|done|lia].
Qed.

Definition walking_both from to (s : (metadata * list (HashAndNumber H)) * (metadata * list (HashAndNumber H))) c : Prop :=
  cache_ok c /\ walked to s.1 /\ walked from s.2 /\ height (md_hash s.1.1) = height (md_hash s.2.1) /\
  meet_below to from (height (md_hash s.1.1)).

Lemma descend_both_loop from to s c : known from = true -> known to = true -> walking_both from to s c ->
  postM (loopM (S (N.to_nat (md_number s.1.1))) (descend_both header) s) c
    (fun s' c' => cache_ok c' /\ walked to s'.1 /\ walked from s'.2 /\ md_hash s'.1.1 = md_hash s'.2.1 /\
       meet_below to from (height (md_hash s'.1.1))) (fun _ _ => False).
Proof.
  intros Hf Ht Hs.
  refine (loopM_post _ (walking_both from to) (fun s _ => height (md_hash s.1.1)) _ _ _ _ s c _ _);
    [|done|destruct Hs as (_ & (k & Hm & _) & _); rewrite (mo_number _ _ Hm); lia].
  clear s c Hs. intros [[t tb] [f fb]] c (Hc & Hwt & Hwf & Heq & Hmb). simpl in Heq, Hmb. unfold descend_both.
  destruct (decide (md_hash t = md_hash f)) as [|Hne]; [done|].
  pose proof Hwt as (i & _ & Hi & _). pose proof Hwf as (j & _ & Hj & _). simpl in Hi, Hj.
  destruct (meet_lower to from i j _ _ Ht Hf Hi Hj Hne Heq Hmb) as [Hpos Hmb'].
  apply postM_bind. eapply postM_mono; [by apply (walked_step to)| |done]. intros t' c1 (Hc1 & Hwt' & Hn).
  apply postM_bind. eapply postM_mono; [by apply (walked_step from); [..|lia]| |done]. intros f' c2 (Hc2 & Hwf' & Hn').
  unfold postM, walking_both. simpl. split_and!; [done..|lia| |lia].
  by replace (height (md_hash t')) with (height (md_hash t) - 1) by lia.
Qed.

(** The route goes from [from] up to the lowest common ancestor and down to [to]. *)
Definition route_ok from to (r : TreeRoute H) : Prop := exists i j x,
  lca from to x /\ up i from = Some x /\ up j to = Some x /\ pivot r = i /\
  route r = line i from ++ [mkHashAndNumber (N.of_nat (height x)) x] ++ rev (line j to).

Lemma tree_route_ok from to c : known from = true -> known to = true -> cache_ok c ->
  postM (tree_route header from to) c (fun r c' => cache_ok c' /\ route_ok from to r) (fun _ _ => False).
Proof.
  intros Hf Ht Hc. unfold tree_route.
  apply postM_bind. eapply postM_mono; [by apply header_metadata_ok| |done]. intros mf c1 [Hmf Hc1].
  apply postM_bind. eapply postM_mono; [by apply header_metadata_ok| |done]. intros mt c2 [Hmt Hc2].
  assert (forall b m, metadata_ok b m -> walked b (m, [])) as Hstart.
  { intros b m Hm. exists 0. simpl. rewrite (mo_hash _ _ Hm). done. }
  apply postM_bind. rewrite (mo_number _ _ Hmf). eapply postM_mono; [by apply (descend_loop to); [..|apply Hstart]| |done].
  intros st c3 (Hc3 & Hwt & Hnt). pose proof Hwt as (k & Hmt' & _). rewrite (mo_hash _ _ Hmt) in Hnt. rewrite (mo_number _ _ Hmt').
  apply postM_bind. rewrite <-(mo_number _ _ Hmf). eapply postM_mono; [by apply (descend_loop from); [..|apply Hstart]| |done].
  intros sf c4 (Hc4 & Hwf & Hnf). rewrite (mo_hash _ _ Hmf) in Hnf. apply postM_bind. rewrite <-(mo_number _ _ Hmt').
  eapply postM_mono; [apply (descend_both_loop from to (st, sf)); [done..|]| |done].
  { split_and!; [done..|simpl; lia|]. simpl. intros i j z Hz Hz'. pose proof (up_known header Hok i to z Ht Hz) as [_ ?].
    pose proof (up_known header Hok j from z Hf Hz') as [_ ?]. lia. }
  intros [[t tb] [f fb]] c5 (Hc5 & (j & Hmj & Hj & Htb) & (i & Hmi & Hi & Hfb) & Heq & Hmb). simpl in *. subst tb fb.
  unfold postM. simpl. split; [done|]. exists i, j, (md_hash t). assert (length (line i from) = i) as Hlen by by eapply line_length.
  split_and!; [|congruence|done|done|].
  - split_and!; [exists i; congruence|by exists j|]. intros i' j' z Hz Hz'. by apply (Hmb j' i').
  - simpl. unfold entry_of. by rewrite (mo_number _ _ Hmj).
Qed.

(** ** [is_descendent_of] *)

Lemma ancestor_lca a b x : known a = true -> known b = true -> a <> b -> lca a b x ->
  bool_decide (x = b) = ancestor header b a.
Proof.
  intros Ha Hb Hne Hl. apply eq_iff_eq_true. rewrite bool_decide_eq_true, (ancestor_spec header Hok). split.
  - intros ->. destruct Hl as ((i & Hi) & _ & _). split_and!; [done..|]. exists i. split; [|done].
    destruct i as [|i]; [|lia]. injection Hi as Hi. done.
  - intros (_ & _ & k & _ & Hk). apply (lca_unique a b); [done..|]. by eapply lca_above.
Qed.

(** The blocks a query may be about: those of the database, and the current one on top of a known parent. *)
Definition askable (current : option (H * H)) h : Prop :=
  match current with
  | Some (cur, par) => if decide (h = cur) then known par = true else known h = true
  | None => known h = true
  end.

Lemma is_descendent_of_ok current base h c : askable current base -> askable current h -> cache_ok c ->
  postM (BlockTree.is_descendent_of header current base h) c
    (fun r c' => cache_ok c' /\ r = extended (ancestor header) current base h) (fun _ _ => False).
Proof.
  intros Hb Hh Hc. pose proof (tree_ancestry header Hok) as Hanc. unfold BlockTree.is_descendent_of.
  assert (forall x, known base = true -> known x = true -> base <> x ->
    postM (let* r := lowest_common_ancestor header x base in ret (bool_decide (hn_hash r = base))) c
      (fun r c' => cache_ok c' /\ r = ancestor header base x) (fun _ _ => False)) as Hbelow.
  { intros x Hkb Hkx Hne. apply postM_bind. eapply postM_mono; [by apply lowest_common_ancestor_ok| |done].
    intros r c' (Hc' & Hl & _). split; [done|]. by apply ancestor_lca. }
  destruct (decide (base = h)) as [->|Hne].
  { split; [done|]. symmetry. apply (anc_irrefl (extended (ancestor header) current) (extended_number _ current)). }
  unfold askable in Hb, Hh. destruct current as [[cur par]|]; simpl; [|by apply Hbelow].
  destruct (decide (base = cur)) as [->|Hcb]; [done|]. destruct (decide (h = cur)) as [->|Hch]; [|by apply Hbelow].
  destruct (decide (base = par)) as [->|Hbp]; [split; [done|]; by rewrite bool_decide_true|].
  rewrite bool_decide_false by done. by apply Hbelow.
Qed.
End cache.

(** ** Sequences of queries *)

Section queries.
Context {P : Profile} {H E C : Type} `{LruMap H (CachedHeaderMetadata H) C}.
Context (header : H -> E + option (Header H)).
Notation known := (known header).

Inductive Query : Type :=
| Metadata (h : H)
| Lca (a b : H)
| Route (from to : H)
| Descendent (current : option (H * H)) (base h : H)
| Forget (h : H).

(** A query, for its effect on the cache. *)
Definition ask (q : Query) : M C (BlockchainError H E) unit :=
  match q with
  | Metadata h => let* _ := header_metadata header h in ret tt
  | Lca a b => let* _ := lowest_common_ancestor header a b in ret tt
  | Route from to => let* _ := tree_route header from to in ret tt
  | Descendent current base h => let* _ := BlockTree.is_descendent_of header current base h in ret tt
  | Forget h => remove_header_metadata h
  end.

(** A query about known blocks. *)
Definition permitted (q : Query) : Prop :=
  match q with
  | Metadata h => known h = true
  | Lca a b | Route a b => known a = true /\ known b = true
  | Descendent current base h => askable header current base /\ askable header current h
  | Forget _ => True
  end.

Context (Hok : tree_ok header).

Lemma ask_ok q c : permitted q -> cache_ok header c ->
  postM (ask q) c (fun _ c' => cache_ok header c') (fun _ _ => False).
Proof.
  intros Hq Hc. destruct q as [h|a b|a b|cur base h|h]; cbn [ask permitted] in *.
  - apply postM_bind. eapply postM_mono; [by apply header_metadata_ok| |done]. by intros m c' [_ ?].
  - apply postM_bind. destruct Hq. eapply postM_mono; [by apply lowest_common_ancestor_ok| |done]. by intros m c' [? _].
  - apply postM_bind. destruct Hq. eapply postM_mono; [by apply tree_route_ok| |done]. by intros m c' [? _].
  - apply postM_bind. destruct Hq. eapply postM_mono; [by apply is_descendent_of_ok| |done]. by intros m c' [? _].
  - by apply cache_remove_ok.
Qed.

(** The caches that permitted queries leave, starting with an empty one. *)
Definition cache_reached (c : C) : Prop := exists qs c0,
  lru_contents c0 = ∅ /\ (forall q, q ∈ qs -> permitted q) /\ for_each ask qs c0 = (c, Ok tt).

Lemma cache_reached_ok c : cache_reached c -> cache_ok header c.
Proof.
  intros (qs & c0 & Hempty & Hqs & Hrun).
  assert (cache_ok header c0) as Hc0 by (intros h m; by rewrite Hempty, lookup_empty). clear Hempty.
  revert c0 Hqs Hrun Hc0. induction qs as [|q qs IH]; intros c0 Hqs Hrun Hc0; cbn [for_each] in Hrun; [by injection Hrun as <-|].
  destruct (postM_returns _ _ _ (ask_ok q c0 (Hqs q ltac:(by left)) Hc0)) as (c1 & [] & Heq & Hc1).
  rewrite (bindM_ok _ _ _ _ _ Heq) in Hrun. eapply IH; [|done|done]. intros q' Hq'. apply Hqs. by right.
Qed.

(** C31: the function the fork trees are asked with implements the ancestry of the tree of headers,
    with the current block on top of its parent, whatever was asked before and whatever the cache has
    evicted; and this ancestry has what the fork trees rely on. *)
Theorem is_descendent_of_correct current base h c : cache_reached c ->
  askable header current base -> askable header current h ->
  (exists c', BlockTree.is_descendent_of header current base h c = (c', Ok (extended (ancestor header) current base h)) /\
     cache_ok header c') /\
  Ancestry (extended (ancestor header) current) (extended_number (fun h => N.of_nat (height header h)) current).
Proof.
  intros Hc Hb Hh. split; [|apply extended_ancestry; by apply tree_ancestry].
  destruct (postM_returns _ _ _ (is_descendent_of_ok header Hok current base h c Hb Hh (cache_reached_ok c Hc)))
    as (c' & r & Heq & Hc' & ->). by exists c'.
Qed.

(** The lowest common ancestor of two blocks, computed over the links of cached metadata, is one
    that is an ancestor of both or one of them and above no other such block; the call ends,
    and the links it leaves in the cache lead to ancestors. *)
Theorem lowest_common_ancestor_correct a b c : cache_reached c -> known a = true -> known b = true ->
  exists r c', lowest_common_ancestor header a b c = (c', Ok r) /\ lca header a b (hn_hash r) /\
    hn_number r = N.of_nat (height header (hn_hash r)) /\ cache_ok header c'.
Proof.
  intros Hc Ha Hb.
  destruct (postM_returns _ _ _ (lowest_common_ancestor_ok header Hok a b c Ha Hb (cache_reached_ok c Hc)))
    as (c' & r & Heq & ? & ? & ?). by exists r, c'.
Qed.

(** C32: the route between two blocks: the blocks from the first up to the lowest common ancestor are
    retracted, in this order, and those below it down to the second are enacted; the parts of the
    result are what their names say and none of the accessors panics. *)
Theorem tree_route_correct from to c : cache_reached c -> known from = true -> known to = true ->
  exists r c' i j x, tree_route header from to c = (c', Ok r) /\ cache_ok header c' /\
    lca header from to x /\ up header i from = Some x /\ up header j to = Some x /\
    retracted (E := E) r = Ok (line header i from) /\
    common_block (E := E) r = Ok (mkHashAndNumber (N.of_nat (height header x)) x) /\
    enacted (E := E) r = Ok (rev (line header j to)).
Proof.
  intros Hc Hf Ht.
  destruct (postM_returns _ _ _ (tree_route_ok header Hok from to c Hf Ht (cache_reached_ok c Hc)))
    as (c' & r & Heq & Hc' & i & j & x & Hl & Hi & Hj & Hp & Hr).
  exists r, c', i, j, x. split_and!; [done..| | |]; unfold retracted, common_block, enacted; rewrite Hp, Hr;
    pose proof (line_length header Hok i from x Hf Hi) as Hlen.
  - rewrite length_app, Hlen, (proj2 (Nat.leb_le _ _)) by lia. by rewrite take_app_length'.
  - rewrite lookup_app_r, Hlen, Nat.sub_diag by lia. done.
  - rewrite length_app, Hlen. simpl. rewrite (proj2 (Nat.leb_le _ _)) by lia.
    rewrite drop_app_ge, Hlen by lia. by replace (i + 1 - i) with 1 by lia.
Qed.
End queries.

(** ** An LRU map *)

Section lru.
Context {H V : Type} `{Countable H}.
Implicit Types c : list (H * V).

Definition others (h : H) c : list (H * V) := List.filter (fun kv => bool_decide (kv.1 <> h)) c.

Lemma others_lookup h c k : (list_to_map (others h c) : gmap H V) !! k = if decide (k = h) then None else (list_to_map c : gmap H V) !! k.
Proof.
  induction c as [|[h' v] c IH]; [by destruct (decide (k = h))|]. unfold others in *. simpl. destruct (decide (h' = h)) as [->|Hne].
  - rewrite bool_decide_false by naive_solver. rewrite IH. case_decide; [done|]. by rewrite lookup_insert_ne.
  - rewrite bool_decide_true by done. simpl. destruct (decide (k = h')) as [->|Hk].
    + rewrite lookup_insert_eq, lookup_insert_eq. by rewrite decide_False.
    + by rewrite !lookup_insert_ne.
Qed.

Lemma take_contents n c : (list_to_map (take n c) : gmap H V) ⊆ list_to_map c.
Proof.
  revert c. induction n as [|n IH]; intros [|[h v] c]; simpl; [done|apply map_empty_subseteq|done|]. by apply insert_mono.
Qed.

(** The entries, the most recently used first, and no more than [cap] of them. *)
#[refine] Instance recent_first (cap : nat) : LruMap H V (list (H * V)) := {
  lru_get h c := match (list_to_map c : gmap H V) !! h with
                 | Some v => ((h, v) :: others h c, Some v)
                 | None => (c, None)
                 end;
  lru_insert h v c := take cap ((h, v) :: others h c);
  lru_remove h c := others h c;
  lru_contents c := list_to_map c
}.
Proof.
  - intros h c. by destruct (_ !! h).
  - intros h c. destruct (_ !! h) as [v|] eqn:Hv; [|done]. simpl. apply map_eq. intros k. rewrite lookup_insert, others_lookup.
    case_decide as Hk; [by subst|]. by rewrite decide_False by done.
  - intros h v c. etrans; [apply take_contents|]. simpl. apply map_subseteq_spec. intros k w. rewrite !lookup_insert, others_lookup.
    case_decide; [done|]. by rewrite decide_False by done.
  - intros h c. apply map_subseteq_spec. intros k w. rewrite others_lookup, lookup_delete. by repeat case_decide.
Defined.
End lru.

(** ** A tree of seven blocks *)

Module TreeExample.
Definition blocks : list (N * Header N) :=
  [(1, mkHeader 1 0 100 0); (2, mkHeader 2 1 1 0); (3, mkHeader 3 2 2 0); (4, mkHeader 4 3 3 0);
   (5, mkHeader 5 2 2 0); (6, mkHeader 6 3 5 0); (7, mkHeader 7 4 6 0)]%N.

Definition block_header (h : N) : unit + option (Header N) := inr ((list_to_map blocks : gmap N (Header N)) !! h).

Lemma block_cases h hd : block_header h = inr (Some hd) -> (h, hd) ∈ blocks.
Proof. intros [= Hl]. by apply elem_of_list_to_map_2. Qed.

Ltac each_block Hin := repeat (apply elem_of_cons in Hin as [[= -> ->]|Hin]); [..|by apply elem_of_nil in Hin].

Lemma blocks_ok : tree_ok block_header.
Proof.
  split.
  - intros h hd Hin%block_cases. unfold blocks in Hin. by each_block Hin.
  - intros h hd Hin%block_cases Hne. unfold blocks in Hin. each_block Hin; [done|..]; eexists; (split; [vm_compute; reflexivity|done]).
  - intros h h' hd hd' H1%block_cases H2%block_cases Hz Hz'. unfold blocks in H1, H2. each_block H1; try done; each_block H2; done.
  - intros h hd Hin%block_cases Hz hd'. unfold blocks in Hin. each_block Hin; done.
  - intros h hd Hin%block_cases. unfold blocks in Hin. by each_block Hin.
Qed.

#[local] Existing Instance debug.
#[local] Instance small_cache : LruMap N (CachedHeaderMetadata N) (list (N * CachedHeaderMetadata N)) := recent_first 3.

(** Four queries that leave links from 7 to 1 and from 4 to 2 behind. *)
Definition asked : list (Query (H := N)) := [Lca 7 1; Lca 4 7; Route 4 5; Forget 3]%N.

Definition warm : list (N * CachedHeaderMetadata N) := (for_each (ask block_header) asked []).1.

Lemma warm_reached : cache_reached block_header warm.
Proof.
  exists asked, []. split_and!; [done| |by vm_compute]. intros q Hq. unfold asked in Hq.
  repeat (apply elem_of_cons in Hq as [->|Hq]; [by vm_compute|]). by apply elem_of_nil in Hq.
Qed.

Lemma is_descendent_of_correct_witness :
  extended (ancestor block_header) (Some (9, 4)%N) 2%N 9%N = true /\
  exists c', BlockTree.is_descendent_of block_header (Some (9, 4)%N) 2%N 9%N warm = (c', Ok true) /\ cache_ok block_header c'.
Proof.
  split; [by vm_compute|].
  destruct (is_descendent_of_correct block_header blocks_ok (Some (9, 4)%N) 2%N 9%N warm warm_reached) as [(c' & Heq & Hc) _];
    [reflexivity|reflexivity|].
  exists c'. split; [exact Heq|exact Hc].
Defined.

Lemma tree_route_correct_witness :
  exists r c', tree_route block_header 4%N 7%N warm = (c', Ok r) /\ cache_ok block_header c' /\
    map hn_hash (into_retracted r) = [4; 3]%N /\ route_last r = Some (mkHashAndNumber 4%N 7%N).
Proof.
  destruct (tree_route_correct block_header blocks_ok 4%N 7%N warm warm_reached) as (r & c' & i & j & x & Heq & Hc & _);
    [reflexivity|reflexivity|].
  exists r, c'. split; [exact Heq|]. split; [exact Hc|].
  assert ((tree_route block_header 4%N 7%N warm).2 = Ok r) as Hr by (rewrite Heq; reflexivity).
  vm_compute in Hr. injection Hr as <-. split; reflexivity.
Defined.
End TreeExample.
