(* ===== verification/Epochs.v ===== *)
(** * Epoch changes

    Model of [substrate/client/consensus/epochs/src/lib.rs]: the epochs that blocks on the various forks
    have announced.  The headers of the epochs (the slots they start and end with) are in a fork
    tree, their data in a map beside it.  Slots are numbers, hashes are byte strings; the closures that
    tell the ancestry of blocks come from a builder that is a parameter. *)

From S2P Require Import Prelude ForkTree.

Definition Slot : Type := N.
Definition BlockHash : Type := list N.

(** The trait [Epoch], for a type [E] of epochs and [D] of descriptors of the next one. *)
Class Epoch (E D : Type) : Type := {
  start_slot : E -> Slot;
  end_slot : E -> Slot;
  increment : E -> D -> E
}.

Record EpochHeader : Type := mkEpochHeader {
  eh_start_slot : Slot;
  eh_end_slot : Slot
}.

Inductive EpochIdentifierPosition : Type :=
| Genesis0
| Genesis1
| Regular.

#[export] Instance position_eq_dec : EqDecision EpochIdentifierPosition.
Proof. solve_decision. Defined.

Record EpochIdentifier : Type := mkEpochIdentifier {
  ei_position : EpochIdentifierPosition;
  ei_hash : BlockHash;
  ei_number : N
}.

Inductive ViableEpochDescriptor : Type :=
| UnimportedGenesisAt (slot : Slot)
| SignaledAt (id : EpochIdentifier) (header : EpochHeader).

(** [ViableEpochDescriptor::start_slot] *)
Definition descriptor_start_slot (d : ViableEpochDescriptor) : Slot :=
  match d with
  | UnimportedGenesisAt slot => slot
  | SignaledAt _ header => eh_start_slot header
  end.

Inductive PersistedEpochHeader : Type :=
| GenesisHeader (epoch_0 epoch_1 : EpochHeader)
| RegularHeader (epoch_n : EpochHeader).

(** [PersistedEpochHeader::map]: the header of another type of epochs with the same slots. *)
Definition map_header (h : PersistedEpochHeader) : PersistedEpochHeader :=
  match h with
  | GenesisHeader e0 e1 =>
      GenesisHeader (mkEpochHeader (eh_start_slot e0) (eh_end_slot e0)) (mkEpochHeader (eh_start_slot e1) (eh_end_slot e1))
  | RegularHeader en => RegularHeader (mkEpochHeader (eh_start_slot en) (eh_end_slot en))
  end.

(** [fake_head_hash]: the first bit of the parent's hash is flipped; an empty hash is an index out of range. *)
Definition fake_head_hash {X} (parent_hash : BlockHash) : outcome X BlockHash :=
  match parent_hash with
  | [] => Panic
  | b :: bytes => Ok (N.lxor b 128 :: bytes)
  end.

(** An epoch that can be used, as it is or as it will be imported with the first block. *)
Inductive ViableEpoch (E : Type) : Type :=
| UnimportedGenesis (e : E)
| Signaled (e : E).
Arguments UnimportedGenesis {E} e.
Arguments Signaled {E} e.

Inductive PersistedEpoch (E : Type) : Type :=
| GenesisEpoch (epoch_0 epoch_1 : E)
| RegularEpoch (epoch_n : E).
Arguments GenesisEpoch {E} epoch_0 epoch_1.
Arguments RegularEpoch {E} epoch_n.

Record IncrementedEpoch (E : Type) : Type := mkIncrementedEpoch {
  persisted : PersistedEpoch E
}.
Arguments mkIncrementedEpoch {E} _.
Arguments persisted {E} _.

Record EpochChanges (E : Type) : Type := mkEpochChanges {
  inner : ForkTree BlockHash PersistedEpochHeader;
  epochs : gmap (BlockHash * N) (PersistedEpoch E)
}.
Arguments mkEpochChanges {E} _ _.
Arguments inner {E} _.
Arguments epochs {E} _.

Section model.
Context {P : Profile} {E D : Type} `{!Epoch E D}.
Notation changes := (EpochChanges E).

(** [From<&E> for EpochHeader] *)
Definition header_of (e : E) : EpochHeader := mkEpochHeader (start_slot e) (end_slot e).

(** [ViableEpoch::as_ref], and [into_cloned_inner], which clones it *)
Definition viable_epoch_ref (v : ViableEpoch E) : E :=
  match v with UnimportedGenesis e | Signaled e => e end.

(** [ViableEpoch::increment] *)
Definition viable_increment (v : ViableEpoch E) (next_descriptor : D) : IncrementedEpoch E :=
  let next := increment (viable_epoch_ref v) next_descriptor in
  mkIncrementedEpoch
    match v with
    | UnimportedGenesis epoch_0 => GenesisEpoch epoch_0 next
    | Signaled _ => RegularEpoch next
    end.

(** [IncrementedEpoch::as_ref] *)
Definition incremented_ref (i : IncrementedEpoch E) : E :=
  match persisted i with GenesisEpoch _ e | RegularEpoch e => e end.

Definition is_genesis (p : PersistedEpoch E) : bool :=
  match p with GenesisEpoch _ _ => true | RegularEpoch _ => false end.

(** [From<&PersistedEpoch<E>> for PersistedEpochHeader<E>] *)
Definition persisted_header (p : PersistedEpoch E) : PersistedEpochHeader :=
  match p with
  | GenesisEpoch epoch_0 epoch_1 => GenesisHeader (header_of epoch_0) (header_of epoch_1)
  | RegularEpoch epoch_n => RegularHeader (header_of epoch_n)
  end.

(** [EpochChanges::new] *)
Definition epoch_changes_new : changes := mkEpochChanges ForkTree.new ∅.

Definition set_inner (t : ForkTree BlockHash PersistedEpochHeader) (s : changes) : changes := mkEpochChanges t (epochs s).
Definition set_epochs (m : gmap (BlockHash * N) (PersistedEpoch E)) (s : changes) : changes := mkEpochChanges (inner s) m.

(** A call of a method of the fork tree. *)
Definition on_inner {X A} (m : M (ForkTree BlockHash PersistedEpochHeader) X A) : M changes X A := fun s =>
  let '(t, o) := m (inner s) in (set_inner t s, o).

(** [EpochChanges::rebalance] *)
Definition epochs_rebalance {X} : M changes X unit := on_inner rebalance.

(** [EpochChanges::epoch] *)
Definition epoch (id : EpochIdentifier) (s : changes) : option E :=
  v ← epochs s !! (ei_hash id, ei_number id);
  match v with
  | GenesisEpoch epoch_0 epoch_1 =>
      if decide (ei_position id = Genesis0) then Some epoch_0
      else if decide (ei_position id = Genesis1) then Some epoch_1 else None
  | RegularEpoch epoch_n => if decide (ei_position id = Regular) then Some epoch_n else None
  end.

(** [EpochChanges::viable_epoch] *)
Definition viable_epoch (d : ViableEpochDescriptor) (make_genesis : Slot -> E) (s : changes) : option (ViableEpoch E) :=
  match d with
  | UnimportedGenesisAt slot => Some (UnimportedGenesis (make_genesis slot))
  | SignaledAt id _ => Signaled <$> epoch id s
  end.

(** [EpochChanges::epoch_mut] with what the caller does to the epoch. *)
Definition epoch_mut (id : EpochIdentifier) (f : E -> E) (s : changes) : changes :=
  set_epochs (alter (fun v =>
    match v with
    | GenesisEpoch epoch_0 epoch_1 =>
        if decide (ei_position id = Genesis0) then GenesisEpoch (f epoch_0) epoch_1
        else if decide (ei_position id = Genesis1) then GenesisEpoch epoch_0 (f epoch_1) else v
    | RegularEpoch epoch_n => if decide (ei_position id = Regular) then RegularEpoch (f epoch_n) else v
    end) (ei_hash id, ei_number id) (epochs s)) s.

(** [EpochChanges::viable_epoch_mut] with what the caller does to the epoch: that of the genesis
    block is not in the tree yet, and the change is to the caller's own. *)
Definition viable_epoch_mut (d : ViableEpochDescriptor) (make_genesis : Slot -> E) (f : E -> E) (s : changes)
  : changes * option (ViableEpoch E) :=
  match d with
  | UnimportedGenesisAt slot => (s, Some (UnimportedGenesis (f (make_genesis slot))))
  | SignaledAt id _ => (epoch_mut id f s, Signaled ∘ f <$> epoch id s)
  end.

(** [EpochChanges::epoch_data] *)
Definition epoch_data (d : ViableEpochDescriptor) (make_genesis : Slot -> E) (s : changes) : option E :=
  match d with
  | UnimportedGenesisAt slot => Some (make_genesis slot)
  | SignaledAt id _ => epoch id s
  end.

Section builder.
Context {X : Type}.

(** [IsDescendentOfBuilder::build_is_descendent_of] *)
Context (build_is_descendent_of : option (BlockHash * BlockHash) -> BlockHash -> BlockHash -> X + bool).
Notation error := (Error X).

(** The predicate of [prune_finalized]. *)
Definition live_at (slot : Slot) (h : PersistedEpochHeader) : bool :=
  match h with
  | GenesisHeader _ epoch_1 => (eh_start_slot epoch_1 <=? slot)%N
  | RegularHeader epoch_n => (eh_start_slot epoch_n <=? slot)%N
  end.

(** [EpochChanges::prune_finalized] *)
Definition prune_finalized (h : BlockHash) (num : N) (slot : Slot) : M changes error unit :=
  let is_descendent_of := build_is_descendent_of None in
  let* removed := on_inner (prune is_descendent_of h num (live_at slot)) in
  modify_state (fun s => set_epochs (foldl (fun m '(h, n, _) => delete (h, n) m) (epochs s) (removed_iter removed)) s).

(** The predicate of [epoch_descriptor_for_child_of]. *)
Definition started_at (slot : Slot) (h : PersistedEpochHeader) : bool :=
  match h with
  | GenesisHeader epoch_0 _ => (eh_start_slot epoch_0 <=? slot)%N
  | RegularHeader epoch_n => (eh_start_slot epoch_n <=? slot)%N
  end.

(** Which of the epochs of a node is meant at a slot. *)
Definition descriptor_of (slot : Slot) (n : Node BlockHash PersistedEpochHeader) : ViableEpochDescriptor :=
  let '(position, header) :=
    match data n with
    | GenesisHeader epoch_0 epoch_1 =>
        if (eh_start_slot epoch_1 <=? slot)%N then (Genesis1, epoch_1) else (Genesis0, epoch_0)
    | RegularHeader epoch_n => (Regular, epoch_n)
    end in
  SignaledAt (mkEpochIdentifier position (hash n) (number n)) header.

(** [EpochChanges::epoch_descriptor_for_child_of] *)
Definition epoch_descriptor_for_child_of (parent_hash : BlockHash) (parent_number : N) (slot : Slot) (s : changes)
  : outcome error (option ViableEpochDescriptor) :=
  if (parent_number =? 0)%N then Ok (Some (UnimportedGenesisAt slot)) else
  let! fake := fake_head_hash parent_hash in
  let is_descendent_of := build_is_descendent_of (Some (fake, parent_hash)) in
  let! child_number := add_u32 parent_number 1 in
  let! n := find_node_where is_descendent_of fake child_number (started_at slot) (inner s) in
  Ok (descriptor_of slot <$> n).

(** [EpochChanges::epoch_data_for_child_of] *)
Definition epoch_data_for_child_of (parent_hash : BlockHash) (parent_number : N) (slot : Slot) (make_genesis : Slot -> E) (s : changes)
  : outcome error (option E) :=
  let! d := epoch_descriptor_for_child_of parent_hash parent_number slot s in
  Ok (d ≫= fun d => epoch_data d make_genesis s).

(** [EpochChanges::import] *)
Definition epochs_import (h : BlockHash) (num : N) (parent_hash : BlockHash) (e : IncrementedEpoch E) : M changes error unit :=
  let is_descendent_of := build_is_descendent_of (Some (h, parent_hash)) in
  let e := persisted e in
  let header := persisted_header e in
  let* res := caught (on_inner (import is_descendent_of h num header)) in
  match res with
  | inr _ | inl Duplicate => modify_state (fun s => set_epochs (<[(h, num) := e]> (epochs s)) s)
  | inl e => throw e
  end.

(** [EpochChanges::reset]; what the imports return is dropped. *)
Definition epochs_reset (parent_hash h : BlockHash) (num : N) (current next : E) : M changes error unit :=
  let* _ := put_state epoch_changes_new in
  let p := RegularEpoch current in
  let* parent_number := lift (sub_u32 num 1) in
  let* _ := caught (on_inner (import (fun _ _ => @inr X bool false) parent_hash parent_number (persisted_header p))) in
  let* parent_number := lift (sub_u32 num 1) in
  let* _ := modify_state (fun s => set_epochs (<[(parent_hash, parent_number) := p]> (epochs s)) s) in
  let p := RegularEpoch next in
  let* _ := caught (on_inner (import (fun _ _ => @inr X bool true) h num (persisted_header p))) in
  modify_state (fun s => set_epochs (<[(h, num) := p]> (epochs s)) s).

(** The answer, or [false] when there is an error. *)
Definition descendent_or_default (a b : BlockHash) : bool :=
  match build_is_descendent_of None a b with inr d => d | inl _ => false end.

(** The filter of [revert]. *)
Definition epochs_revert_filter (h : BlockHash) (num : N) (node_hash : BlockHash) (node_num : N) (_ : PersistedEpochHeader) : FilterAction :=
  if (node_num <=? num)%N && (descendent_or_default node_hash h || bool_decide (node_hash = h)) then KeepNode
  else if (num <? node_num)%N && descendent_or_default h node_hash then Remove
  else KeepTree.

(** [EpochChanges::revert] *)
Definition epochs_revert (h : BlockHash) (num : N) : M changes error unit :=
  let* removed := on_inner (drain_filter (epochs_revert_filter h num)) in
  modify_state (fun s => set_epochs (foldl (fun m '(h, n, _) => delete (h, n) m) (epochs s) (removed_iter removed)) s).
End builder.
End model.

(** [PersistedEpoch::map] and [EpochChanges::map], with a function that only looks at its arguments. *)
Definition map_persisted {E F} (f : BlockHash -> N -> E -> F) (h : BlockHash) (n : N) (p : PersistedEpoch E) : PersistedEpoch F :=
  match p with
  | GenesisEpoch epoch_0 epoch_1 => GenesisEpoch (f h n epoch_0) (f h n epoch_1)
  | RegularEpoch epoch_n => RegularEpoch (f h n epoch_n)
  end.

Definition epochs_map {E F X} (f : BlockHash -> N -> E -> F) (s : EpochChanges E) : outcome X (EpochChanges F) :=
  let! x := map_tree (fun st _ _ header => (st, map_header header)) tt (inner s) in
  Ok (mkEpochChanges x.2 (map_imap (fun '(h, n) p => Some (map_persisted f h n p)) (epochs s))).
