(* ===== verification/EpochsSpec.v ===== *)
(** * Correctness of the epoch changes

    Blocks are related by an [Ancestry], and the closures that the builder hands out tell it, with the block
    that is imported or asked about on top of its parent ([BlockTreeSpec] shows that the closures of the client do).
    [epochs_ok] is the invariant: the fork tree is well formed, and the map has the epochs of
    exactly the nodes of the tree. *)

From S2P Require Import Prelude ForkTree ForkTreeLoops ForkTreeSpec ForkTreeBranch ForkTreeRevert BlockTreeSpec Epochs.

Lemma NoDup_map_elem {A B} (f : A -> B) (l : list A) x y : NoDup (map f l) -> x ∈ l -> y ∈ l -> f x = f y -> x = y.
Proof.
  induction l as [|z l IH]; simpl; [by intros _ ?%elem_of_nil|]. intros [Hnot Hnd]%NoDup_cons Hx Hy Heq.
  apply elem_of_cons in Hx as [->|Hx], Hy as [->|Hy]; [done| | |by apply IH].
  - destruct Hnot. rewrite Heq. by apply list_elem_of_fmap_2.
  - destruct Hnot. rewrite <-Heq. by apply list_elem_of_fmap_2.
Qed.

(** ** Closures that agree on the block in question *)

Lemma loop_ext {E L A} (body body' : L -> outcome E (control L A)) fuel l :
  (forall l, body l = body' l) -> loop fuel body l = loop fuel body' l.
Proof.
  intros Hb. revert l. induction fuel as [|fuel IH]; intros l; [done|]. simpl. rewrite Hb.
  destruct (body' l) as [[]| | |]; simpl; auto.
Qed.

Section agree.
Context {H : Type} `{!EqDecision H} {V X : Type} (f g : H -> H -> X + bool) (h : H).
Context (Hfg : forall a, f a h = g a h).
Implicit Types (l : list (Node H V)) (t : ForkTree H V).

Lemma find_outer_agree num (predicate : V -> bool) i l : find_outer f h num predicate i l = find_outer g h num predicate i l.
Proof.
  revert i. induction l as [|r l IH]; intros i; [done|]. cbn [find_outer]. rewrite IH.
  rewrite (loop_ext (find_inner_body f h num predicate) (find_inner_body g h num predicate)); [done|].
  intros [[|[n j] stack] d]; [done|]. unfold find_inner_body, descends. by rewrite Hfg.
Qed.

Lemma find_node_where_agree num (predicate : V -> bool) t :
  find_node_where f h num predicate t = find_node_where g h num predicate t.
Proof. unfold find_node_where, find_node_index_where. by rewrite find_outer_agree. Qed.

Lemma import_agree num (d : V) t : import f h num d t = import g h num d t.
Proof. unfold import, find_node_where_mut, find_node_index_where. rewrite !bindM_get. by rewrite find_outer_agree. Qed.
End agree.

(** ** The invariant *)

Section spec.
Context {P : Profile} {E D X : Type} `{!Epoch E D}.
Context (anc : BlockHash -> BlockHash -> bool) (height : BlockHash -> N) `{!Ancestry anc height}.
Notation changes := (EpochChanges E).
Notation hdr := PersistedEpochHeader.
Notation tree_entries s := (entries (roots (inner s))).
Implicit Types (s : changes) (h par : BlockHash) (n : Node BlockHash hdr).

(** The closures that the builder hands out. *)
Definition builder (current : option (BlockHash * BlockHash)) (a b : BlockHash) : X + bool :=
  inr (extended anc current a b).

(** The first epoch does not start after the second one. *)
Definition header_ordered (d : hdr) : Prop :=
  match d with GenesisHeader e0 e1 => (eh_start_slot e0 <= eh_start_slot e1)%N | RegularHeader _ => True end.

Record epochs_ok s : Prop := {
  eo_tree : wf anc height (inner s);
  eo_unfinalized : best_finalized_number (inner s) = None;
  eo_epoch : forall h num d, (h, num, d) ∈ tree_entries s ->
    exists p, epochs s !! (h, num) = Some p /\ persisted_header p = d;
  eo_node : forall h num p, epochs s !! (h, num) = Some p -> (h, num, persisted_header p) ∈ tree_entries s;
  eo_ordered : forall h num d, (h, num, d) ∈ tree_entries s -> header_ordered d
}.

Lemma new_ok : epochs_ok epoch_changes_new.
Proof.
  split; simpl; [by split; constructor|done|by intros h num d ?%elem_of_nil| |by intros h num d ?%elem_of_nil].
  intros h num p. by rewrite lookup_empty.
Qed.

Lemma entry_node s h num d : (h, num, d) ∈ tree_entries s -> exists n, n ∈ nodes (roots (inner s)) /\ node_entry n = (h, num, d).
Proof. unfold entries. intros (n & Heq & Hn)%list_elem_of_fmap. by exists n. Qed.

Lemma node_in s n : n ∈ nodes (roots (inner s)) -> (hash n, number n, data n) ∈ tree_entries s.
Proof. intros Hn. change (hash n, number n, data n) with (node_entry n). unfold entries. by apply list_elem_of_fmap_2. Qed.

(** A block is in the tree with one number and one header. *)
Lemma entry_unique s h num num' d d' : epochs_ok s -> (h, num, d) ∈ tree_entries s -> (h, num', d') ∈ tree_entries s ->
  num = num' /\ d = d'.
Proof.
  intros Hok H1 H2. pose proof (wf_NoDup anc height _ (eo_tree _ Hok)) as Hnd. rewrite <-entries_hashes in Hnd.
  unfold entry_hash in Hnd. assert ((h, num, d) = (h, num', d')) as [= -> ->]; [|done].
  by apply (NoDup_map_elem _ _ _ _ Hnd).
Qed.

(** Keys taken out of the map. *)
Lemma foldl_delete (l : list (BlockHash * N * hdr)) (m : gmap (BlockHash * N) (PersistedEpoch E)) k :
  foldl (fun m '(h, n, _) => delete (h, n) m) m l !! k = if decide (k ∈ map fst l) then None else m !! k.
Proof.
  revert m. induction l as [|[[h n] d] l IH]; intros m; [by rewrite decide_False by apply not_elem_of_nil|].
  cbn [foldl map fst]. rewrite IH. destruct (decide (k ∈ map fst l)) as [Hin|Hnot].
  - by rewrite decide_True by (by right).
  - destruct (decide (k = (h, n))) as [->|Hne].
    + rewrite lookup_delete_eq. by rewrite decide_True by (by left).
    + rewrite lookup_delete_ne by done. by rewrite decide_False by (by intros [?|?]%elem_of_cons).
Qed.

(** The nodes for which [keep] does not hold are taken out of the tree, and their epochs of the map. *)
Lemma epochs_drained_ok s t' removed (keep : BlockHash * N * hdr -> bool) : epochs_ok s -> wf anc height t' ->
  best_finalized_number t' = best_finalized_number (inner s) ->
  entries (roots t') ≡ₚ List.filter keep (tree_entries s) ->
  removed ≡ₚ List.filter (fun e => negb (keep e)) (tree_entries s) ->
  let s' := mkEpochChanges t' (foldl (fun m '(h, n, _) => delete (h, n) m) (epochs s) removed) in
  epochs_ok s' /\ (forall h num d, (h, num, d) ∈ tree_entries s' <-> (h, num, d) ∈ tree_entries s /\ keep (h, num, d) = true) /\
  (forall h num d, (h, num, d) ∈ tree_entries s' -> epochs s' !! (h, num) = epochs s !! (h, num)).
Proof.
  intros Hok Hwf Hbest Hk Hr s'.
  assert (forall e, e ∈ tree_entries s' <-> e ∈ tree_entries s /\ keep e = true) as Hin
    by (intros e; simpl; by rewrite Hk, elem_of_filter_true).
  assert (forall h num d, (h, num, d) ∈ tree_entries s' -> epochs s' !! (h, num) = epochs s !! (h, num)) as Hsame.
  { intros h num d [He Hke]%Hin. simpl. rewrite foldl_delete, decide_False; [done|].
    intros ([[h' num'] d'] & [= <- <-] & Hrem)%list_elem_of_fmap. rewrite Hr, elem_of_filter_true in Hrem. destruct Hrem as [He' Hn].
    destruct (entry_unique s h num num d d' Hok He He') as [_ <-]. by rewrite Hke in Hn. }
  split_and!; [|intros h num d; apply Hin|done]. split; [done|by simpl; rewrite Hbest, (eo_unfinalized _ Hok)| | |].
  - intros h num d He. rewrite (Hsame h num d He). apply Hin in He as [He _]. by apply (eo_epoch _ Hok).
  - intros h num p Hp. simpl in Hp. rewrite foldl_delete in Hp. case_decide as Hd; [done|].
    pose proof (eo_node _ Hok _ _ _ Hp) as He. apply Hin. split; [done|].
    destruct (keep (h, num, persisted_header p)) eqn:Hke; [done|]. exfalso. apply Hd.
    apply list_elem_of_fmap. exists (h, num, persisted_header p). split; [done|]. rewrite Hr. apply elem_of_filter_true.
    by rewrite Hke.
  - intros h num d [He _]%Hin. by apply (eo_ordered _ Hok h num).
Qed.

(** ** The operations *)

(** What a block's import adds to the tree; the block is on top of its parent. *)
Definition on_top h par : Prop := forall x, anc x h = bool_decide (x = par) || anc x par.

Lemma epochs_import_ok s h par e : epochs_ok s -> on_top h par ->
  (forall n, n ∈ nodes (roots (inner s)) -> anc h (hash n) = false) ->
  header_ordered (persisted_header (persisted e)) ->
  (forall d, (h, height h, d) ∈ tree_entries s -> d = persisted_header (persisted e)) ->
  match epochs_import builder h (height h) par e s with
  | (s', Ok _) => epochs_ok s' /\ epochs s' = <[(h, height h) := persisted e]> (epochs s) /\
      (forall x, x ∈ tree_entries s' <-> x = (h, height h, persisted_header (persisted e)) \/ x ∈ tree_entries s)
  | _ => False
  end.
Proof.
  intros Hok Htop Hnew Hord Hdup. unfold epochs_import, caught, on_inner, bindM.
  rewrite (import_agree _ (ForkTreeSpec.is_descendent_of anc) h).
  2: { intros a. unfold builder, ForkTreeSpec.is_descendent_of, extended. f_equal.
       destruct (decide (a = h)) as [->|]; [symmetry; by apply (anc_irrefl _ height)|].
       rewrite decide_True by done. by rewrite Htop. }
  pose proof (import_ok (E := X) anc height h (persisted_header (persisted e)) (inner s) (eo_tree _ Hok) Hnew) as Hi.
  assert (forall t', wf anc height t' -> best_finalized_number t' = best_finalized_number (inner s) -> (forall x, x ∈ entries (roots t') <-> x = (h, height h, persisted_header (persisted e)) \/ x ∈ tree_entries s) ->
    epochs_ok (mkEpochChanges t' (<[(h, height h) := persisted e]> (epochs s)))) as Hput.
  { intros t' Hwf Hbest Hin. split; simpl; [done|by rewrite Hbest, (eo_unfinalized _ Hok)| | |].
    - intros h' num' d' [[= -> -> ->]|He]%Hin; [exists (persisted e); by rewrite lookup_insert_eq|].
      destruct (decide ((h', num') = (h, height h))) as [[= -> ->]|Hne].
      + exists (persisted e). rewrite lookup_insert_eq. split; [done|]. symmetry. by apply Hdup.
      + rewrite lookup_insert_ne by done. by apply (eo_epoch _ Hok).
    - intros h' num' p. rewrite lookup_insert_Some. intros [[[= <- <-] <-]|[_ Hp]]; apply Hin; [by left|right]. by apply (eo_node _ Hok).
    - intros h' num' d' [[= -> -> ->]|He]%Hin; [done|]. by apply (eo_ordered _ Hok h' num'). }
  destruct (import _ h (height h) _ (inner s)) as [t' [b|[]| |]]; try done; cbn [ret throw modify_state set_inner set_epochs inner epochs].
  - destruct Hi as (_ & _ & Hwf & Hbest & Hperm & _).
    assert (forall x, x ∈ entries (roots t') <-> x = (h, height h, persisted_header (persisted e)) \/ x ∈ tree_entries s) as Hin
      by (intros x; unfold entries; rewrite Hperm; apply elem_of_cons).
    split_and!; [by apply Hput|done|done].
  - destruct Hi as (-> & _ & Hmem). apply list_elem_of_fmap in Hmem as (n & Hh & Hn).
    pose proof (node_in s n Hn) as He. rewrite <-Hh, (wf_number _ _ _ (wf_nodes _ _ _ _ (eo_tree _ Hok) Hn)), <-Hh in He.
    pose proof (Hdup _ He) as Hd. rewrite Hd in He.
    assert (forall x, x ∈ entries (roots (inner s)) <-> x = (h, height h, persisted_header (persisted e)) \/ x ∈ tree_entries s) as Hin
      by (intros x; split; [by right|by intros [->|]]).
    split_and!; [exact (Hput (inner s) (eo_tree _ Hok) eq_refl Hin)|done|done].
  - destruct Hi as [_ (best & Hbest & _)]. by rewrite (eo_unfinalized _ Hok) in Hbest.
Qed.

Lemma prune_finalized_ok s h slot : epochs_ok s ->
  exists s', prune_finalized builder h (height h) slot s = (s', Ok tt) /\ epochs_ok s' /\
    (forall h num d, (h, num, d) ∈ tree_entries s' -> (h, num, d) ∈ tree_entries s /\ epochs s' !! (h, num) = epochs s !! (h, num)) /\
    match find_node_where (E := X) (ForkTreeSpec.is_descendent_of anc) h (height h) (live_at slot) (inner s) with
    | Ok (Some n0) => forall x num d, (x, num, d) ∈ tree_entries s' <-> (x, num, d) ∈ tree_entries s /\ survives anc h n0 x = true
    | _ => s' = s
    end.
Proof.
  intros Hok. unfold prune_finalized, on_inner, bindM. change (builder None) with (ForkTreeSpec.is_descendent_of (E := X) anc).
  pose proof (prune_correct (E := X) anc height h (live_at slot) (inner s) (eo_tree _ Hok)) as Hp.
  destruct (prune _ h (height h) (live_at slot) (inner s)) as [t' [removed| | |]]; try done.
  destruct Hp as (Hwf & Hbest & Hp). set (m := foldl (fun m '(h, n, _) => delete (h, n) m) (epochs s) (removed_iter removed)).
  exists (mkEpochChanges t' m). split; [done|].
  destruct (find_node_where _ _ _ _ _) as [[n0|]| | |].
  2-5: destruct Hp as [-> ->]; assert (mkEpochChanges (inner s) m = s) as -> by (by destruct s); by split_and!.
  destruct Hp as [Hkept Hrem].
  destruct (epochs_drained_ok s t' _ (fun e => survives anc h n0 (entry_hash e)) Hok Hwf Hbest Hkept Hrem) as (Hok' & Hin & Hsame).
  split_and!; [done| |done]. intros x num d Hx. split; [by apply Hin in Hx as [? _]|by eapply Hsame].
Qed.

Lemma epochs_revert_filter_ok h n : wf_node anc height n ->
  epochs_revert_filter builder h (height h) (hash n) (number n) (data n) =
  if at_or_above anc h (hash n) then KeepNode else if anc h (hash n) then Remove else KeepTree.
Proof.
  intros Hn. unfold epochs_revert_filter, descendent_or_default. simpl. rewrite (wf_number _ _ _ Hn).
  rewrite (orb_comm (anc (hash n) h)). fold (at_or_above anc h (hash n)).
  destruct (at_or_above anc h (hash n)) eqn:Ha.
  - by pose proof (at_or_above_height anc height h _ Ha) as ->%N.leb_le.
  - rewrite andb_false_r. destruct (anc h (hash n)) eqn:Hb; [|by rewrite andb_false_r].
    by pose proof (anc_height _ _ Hb) as ->%N.ltb_lt.
Qed.

Lemma epochs_revert_ok s h : epochs_ok s -> (N.of_nat (length (tree_entries s)) < usize_MAX)%N ->
  exists s', epochs_revert (X := X) builder h (height h) s = (s', Ok tt) /\ epochs_ok s' /\
    (forall x num d, (x, num, d) ∈ tree_entries s' <-> (x, num, d) ∈ tree_entries s /\ anc h x = false) /\
    (forall x num d, (x, num, d) ∈ tree_entries s' -> epochs s' !! (x, num) = epochs s !! (x, num)).
Proof.
  intros Hok Hsize. unfold epochs_revert, on_inner, bindM.
  destruct (drain_revert_ok anc height h _ (epochs_revert_filter_ok h) (E := Error X) (inner s) (eo_tree _ Hok))
    as (t' & removed & Hdrain & Hwf & Hbest & Hkept & Hrem); [unfold iter; by rewrite node_iter_nodes|].
  rewrite Hdrain. exists (mkEpochChanges t' (foldl (fun m '(h, n, _) => delete (h, n) m) (epochs s) (removed_iter removed))).
  split; [done|]. destruct (epochs_drained_ok s t' _ (not_after anc h) Hok Hwf Hbest Hkept Hrem) as (Hok' & Hin & Hsame).
  split_and!; [done| |done]. intros x num d. rewrite Hin. unfold not_after. simpl. by rewrite negb_true_iff.
Qed.

Lemma epochs_rebalance_ok s : epochs_ok s ->
  exists s', epochs_rebalance (X := Error X) s = (s', Ok tt) /\ epochs_ok s' /\ epochs s' = epochs s /\ tree_entries s' ≡ₚ tree_entries s.
Proof.
  intros Hok. unfold epochs_rebalance, on_inner. rewrite rebalance_eq. eexists. split; [done|].
  set (s' := set_inner _ s). assert (tree_entries s' ≡ₚ tree_entries s) as Hperm by apply balance_forest_entries.
  split_and!; [|done|done]. split; [apply wf_balance_forest, Hok|apply Hok|..].
  - intros h num d. rewrite Hperm. apply (eo_epoch _ Hok).
  - intros h num p Hp. rewrite Hperm. by apply (eo_node _ Hok).
  - intros h num d. rewrite Hperm. apply (eo_ordered _ Hok).
Qed.

(** A change of the data of an epoch that leaves its slots. *)
Lemma epoch_mut_ok s id f : epochs_ok s -> (forall e, header_of (f e) = header_of e) ->
  epochs_ok (epoch_mut id f s) /\ tree_entries (epoch_mut id f s) = tree_entries s.
Proof.
  intros Hok Hf. split; [|done]. unfold epoch_mut. set (g := fun v => _).
  assert (forall v, persisted_header (g v) = persisted_header v) as Hg.
  { intros [e0 e1|e]; unfold g; repeat case_decide; simpl; by rewrite ?Hf. }
  split; simpl; [apply Hok|apply Hok| | |apply Hok].
  - intros h num d He. destruct (eo_epoch _ Hok h num d He) as (p & Hp & <-). destruct (decide ((ei_hash id, ei_number id) = (h, num))) as [Heq|Hne].
    + exists (g p). by rewrite Heq, lookup_alter_eq, Hp.
    + exists p. by rewrite lookup_alter_ne.
  - intros h num p. destruct (decide ((ei_hash id, ei_number id) = (h, num))) as [Heq|Hne].
    + rewrite Heq, lookup_alter_eq, fmap_Some. intros (v & Hv & ->). rewrite Hg. by apply (eo_node _ Hok).
    + rewrite lookup_alter_ne by done. apply (eo_node _ Hok).
Qed.

Lemma import_first (f : BlockHash -> BlockHash -> X + bool) h num (d : hdr) :
  import f h num d ForkTree.new = (mkForkTree [mkNode h num d []] None, Ok true).
Proof. reflexivity. Qed.

Lemma import_second par h num num' (d d' : hdr) : (num < num')%N ->
  import (fun _ _ => @inr X bool true) h num' d' (mkForkTree [mkNode par num d []] None) =
  (mkForkTree [mkNode par num d [mkNode h num' d' []]] None, Ok false).
Proof.
  intros Hlt. unfold import, find_node_where_mut, find_node_index_where. rewrite bindM_get. cbn [roots find_outer number].
  rewrite (proj2 (N.leb_gt num' num) Hlt). reflexivity.
Qed.

Lemma epochs_reset_ok s par h (cur next : E) : anc par h = true -> height h = (height par + 1)%N ->
  exists s', epochs_reset (X := X) par h (height h) cur next s = (s', Ok tt) /\ epochs_ok s' /\
    tree_entries s' = [(par, height par, RegularHeader (header_of cur)); (h, height h, RegularHeader (header_of next))].
Proof.
  intros Hanc Hnum. assert (par <> h) as Hne by (intros ->; by rewrite (anc_irrefl _ height) in Hanc).
  assert (sub_u32 (E := Error X) (height h) 1 = Ok (height par)) as Hsub
    by (unfold sub_u32; rewrite (proj2 (N.leb_le _ _)) by lia; f_equal; lia).
  unfold epochs_reset. rewrite bindM_put, (bindM_lift _ _ _ _ Hsub).
  unfold bindM at 1, caught at 1, on_inner at 1. cbn [inner epoch_changes_new]. rewrite import_first.
  rewrite (bindM_lift _ _ _ _ Hsub), bindM_modify. unfold bindM, caught, on_inner. cbn [inner set_epochs set_inner].
  rewrite import_second by lia. eexists. split; [done|].
  split; [|done]. split; simpl.
  - split; [by repeat constructor|]. apply Forall_singleton. constructor; simpl; [done|by apply Forall_singleton|by repeat constructor|].
    apply Forall_singleton. constructor; simpl; [done|constructor..].
  - done.
  - intros x num d [[= -> -> ->]|[[= -> -> ->]|?%elem_of_nil]%elem_of_cons]%elem_of_cons; [| |done].
    + exists (RegularEpoch cur). rewrite lookup_insert_ne by (intros [= ? ?]; congruence). by rewrite lookup_insert_eq.
    + exists (RegularEpoch next). by rewrite lookup_insert_eq.
  - intros x num p. rewrite lookup_insert_Some. intros [[[= <- <-] <-]|[_ Hp]]; [by right; left|].
    rewrite lookup_insert_Some in Hp. destruct Hp as [[[= <- <-] <-]|[_ Hp]]; [by left|by rewrite lookup_empty in Hp].
  - intros x num d [[= -> -> ->]|[[= -> -> ->]|?%elem_of_nil]%elem_of_cons]%elem_of_cons; done.
Qed.
End spec.
