(* ===== verification/EpochsCorrect.v ===== *)
(** * The epochs of the blocks to come: theorems

    Which epoch the child of a block belongs to, what finalization may forget, and that the calls
    on the epoch changes keep the tree and the map together. *)

From S2P Require Import Prelude ForkTree ForkTreeLoops ForkTreeSpec ForkTreeBranch ForkTreeRevert BlockTreeSpec Epochs EpochsSpec.

(** ** A tree under an ancestry with one more block *)

Lemma ForallOrdPairs_impl {A} (R R' : A -> A -> Prop) (l : list A) :
  (forall a b, a ∈ l -> b ∈ l -> R a b -> R' a b) -> ForallOrdPairs R l -> ForallOrdPairs R' l.
Proof.
  intros Himpl Hl. induction Hl as [|a l Ha Hl IH]; constructor.
  - rewrite Forall_forall in Ha. apply Forall_forall. intros b Hb. apply Himpl; [by left|by right|by apply Ha].
  - apply IH. intros x y Hx Hy. apply Himpl; by right.
Qed.

Section more.
Context {H V : Type} `{!EqDecision H} (anc : H -> H -> bool) (height : H -> N) `{!Ancestry anc height} (cur par : H).
Implicit Types (n : Node H V) (l : list (Node H V)).
Notation anc' := (extended anc (Some (cur, par))).
Notation height' := (extended_number height (Some (cur, par))).

Lemma extended_same a b : a <> cur -> b <> cur -> anc' a b = anc a b.
Proof. intros Ha Hb. unfold extended. by rewrite !decide_False. Qed.

Lemma extended_top a : a <> cur -> anc' a cur = at_or_above anc par a.
Proof. intros Ha. unfold extended. by rewrite decide_False, decide_True. Qed.

Lemma siblings_extended (hs : list H) : (forall a, a ∈ hs -> a <> cur) ->
  ForallOrdPairs (unrelated anc) hs -> ForallOrdPairs (unrelated anc') hs.
Proof.
  intros Hne. apply ForallOrdPairs_impl. intros a b Ha Hb (? & ? & ?). unfold unrelated. rewrite !extended_same by auto. done.
Qed.

Lemma wf_node_extended n : wf_node anc height n -> (forall m, m ∈ nodes [n] -> hash m <> cur) -> wf_node anc' height' n.
Proof.
  tree_induction n. intros Hn Hne. rewrite nodes_cons in Hne. simpl in Hne. rewrite app_nil_r in Hne.
  inversion Hn as [? Hnum Hc Hs Hw]; subst. simpl in *. rewrite Forall_forall in Hc. rewrite Forall_forall in Hw.
  assert (forall c, c ∈ l -> hash c <> cur) as Hcur by (intros c Hc'; apply Hne; right; by apply nodes_root).
  pose proof (Hne _ ltac:(by left)) as Hroot. constructor; cbn [hash number children].
  - rewrite Hnum. unfold extended_number. by rewrite decide_False.
  - apply Forall_forall. intros c Hcl. rewrite extended_same; [by apply Hc|done|by apply Hcur].
  - apply siblings_extended; [|done]. intros a (c & -> & Hcl)%list_elem_of_fmap. by apply Hcur.
  - apply Forall_forall. intros c Hcl. apply IHl; [done|by apply Hw|]. intros m Hm. apply Hne. right.
    apply elem_of_nodes in Hm as (r & ->%list_elem_of_singleton & Hm). apply elem_of_nodes. by exists c.
Qed.

Lemma wf_extended (t : ForkTree H V) : wf anc height t -> (forall m, m ∈ nodes (roots t) -> hash m <> cur) -> wf anc' height' t.
Proof.
  intros [Hs Hw] Hne. split.
  - apply siblings_extended; [|done]. intros a (c & -> & Hc)%list_elem_of_fmap. by apply Hne, nodes_root.
  - rewrite Forall_forall in Hw. apply Forall_forall. intros n Hn. apply wf_node_extended; [by apply Hw|].
    intros m Hm. apply Hne. apply elem_of_nodes in Hm as (r & ->%list_elem_of_singleton & Hm). apply elem_of_nodes. by exists n.
Qed.
End more.

Section descriptor.
Context {P : Profile} {E D X : Type} `{!Epoch E D}.
Context (anc : BlockHash -> BlockHash -> bool) (height : BlockHash -> N) `{!Ancestry anc height}.
Notation changes := (EpochChanges E).
Notation hdr := PersistedEpochHeader.
Notation tree_entries s := (entries (roots (inner s))).
Notation build := (builder (X := X) anc).
Notation ok := (epochs_ok anc height).
Implicit Types (s : changes) (h par : BlockHash) (n : Node BlockHash hdr) (slot : Slot).

(** ** The epochs of a node *)

Definition header_at (d : hdr) (position : EpochIdentifierPosition) : option EpochHeader :=
  match d, position with
  | GenesisHeader e0 _, Genesis0 => Some e0
  | GenesisHeader _ e1, Genesis1 => Some e1
  | RegularHeader e, Regular => Some e
  | _, _ => None
  end.

Lemma epoch_header s h num p position : epochs s !! (h, num) = Some p ->
  header_of <$> epoch (mkEpochIdentifier position h num) s = header_at (persisted_header p) position.
Proof. intros Hp. unfold epoch. simpl. rewrite Hp. by destruct p, position. Qed.

(** An epoch in the map is that of a node; a node with an epoch that has started is found. *)
Lemma epoch_node s id e : ok s -> epoch id s = Some e ->
  exists d, (ei_hash id, ei_number id, d) ∈ tree_entries s /\ header_at d (ei_position id) = Some (header_of e).
Proof.
  intros Hok He. destruct id as [position h num]. simpl. pose proof He as He'. unfold epoch in He'. simpl in He'.
  destruct (epochs s !! (h, num)) as [p|] eqn:Hp; [|done]. exists (persisted_header p).
  split; [by apply (eo_node _ _ _ Hok)|]. by rewrite <-(epoch_header s h num p position Hp), He.
Qed.

Lemma node_epoch s h num d position hd : ok s -> (h, num, d) ∈ tree_entries s -> header_at d position = Some hd ->
  exists e, epoch (mkEpochIdentifier position h num) s = Some e /\ header_of e = hd.
Proof.
  intros Hok Hin Hd. destruct (eo_epoch _ _ _ Hok _ _ _ Hin) as (p & Hp & <-).
  rewrite <-(epoch_header s h num p position Hp) in Hd. by apply fmap_Some in Hd as (e & ? & ->); eauto.
Qed.

Lemma header_started d position hd slot : header_ordered d -> header_at d position = Some hd ->
  (eh_start_slot hd <= slot)%N -> started_at slot d = true.
Proof. destruct d, position; try done; intros Hord [= <-] Hle; apply N.leb_le; simpl in Hord; lia. Qed.

Lemma live_started d slot slot' : header_ordered d -> live_at slot d = true -> (slot <= slot')%N -> started_at slot' d = true.
Proof. destruct d; simpl; rewrite ?N.leb_le; lia. Qed.

(** The descriptor of a node that has started is of its last epoch that has. *)
Lemma descriptor_of_ok slot n : started_at slot (data n) = true -> header_ordered (data n) ->
  exists position hd, descriptor_of slot n = SignaledAt (mkEpochIdentifier position (hash n) (number n)) hd /\
    header_at (data n) position = Some hd /\ (eh_start_slot hd <= slot)%N /\
    forall position' hd', header_at (data n) position' = Some hd' -> (eh_start_slot hd' <= slot)%N ->
      (eh_start_slot hd' <= eh_start_slot hd)%N.
Proof.
  unfold descriptor_of. destruct (data n) as [e0 e1|e]; simpl; rewrite N.leb_le; intros Hs Hord.
  - destruct (N.leb_spec (eh_start_slot e1) slot); eexists _, _; (split; [done|]); (split; [done|]); (split; [done|]);
      intros [] hd'; try done; intros [= <-]; lia.
  - eexists _, _. split_and!; [done|done|done|]. intros [] hd'; try done. by intros [= <-].
Qed.

Lemma descriptor_of_entry slot n n' : node_entry n = node_entry n' -> descriptor_of slot n = descriptor_of slot n'.
Proof. unfold node_entry, descriptor_of. by intros [= -> -> ->]. Qed.

(** ** The search *)

(** The block has a hash, the one made up for its child is not in the tree, and the child has a number. *)
Definition queryable s par : Prop :=
  (height par < u32_MAX)%N /\
  exists fake, fake_head_hash (X := Error X) par = Ok fake /\ forall n, n ∈ nodes (roots (inner s)) -> hash n <> fake.

(** The deepest node at or above the block with an epoch that has started. *)
Record found s par slot n : Prop := {
  fo_node : n ∈ nodes (roots (inner s));
  fo_above : at_or_above anc par (hash n) = true;
  fo_started : started_at slot (data n) = true;
  fo_last : forall m, m ∈ nodes (roots (inner s)) -> at_or_above anc par (hash m) = true -> started_at slot (data m) = true ->
    m = n \/ anc (hash m) (hash n) = true
}.

Lemma search_found s par slot : ok s -> queryable s par -> height par <> 0%N ->
  (exists n, found s par slot n /\ epoch_descriptor_for_child_of build par (height par) slot s = Ok (Some (descriptor_of slot n))) \/
  ((forall n, n ∈ nodes (roots (inner s)) -> at_or_above anc par (hash n) = true -> started_at slot (data n) = false) /\
   epoch_descriptor_for_child_of build par (height par) slot s = Ok None).
Proof.
  intros Hok (Hmax & fake & Hfake & Hnot) Hne. unfold epoch_descriptor_for_child_of.
  rewrite (proj2 (N.eqb_neq _ _) Hne), Hfake. cbn [bind].
  rewrite add_u32_eq by lia. cbn [bind]. change (build (Some (fake, par))) with (ForkTreeSpec.is_descendent_of (E := X) (extended anc (Some (fake, par)))).
  pose proof (find_node_where_correct (E := X) (extended anc (Some (fake, par))) (extended_number height (Some (fake, par)))
    fake (started_at slot) (inner s) (wf_extended anc height fake par _ (eo_tree _ _ _ Hok) Hnot)) as Hfind.
  unfold extended_number at 1 in Hfind. rewrite decide_True in Hfind by done.
  destruct (find_node_where _ fake _ _ _) as [[n|]| | |]; try done; cbn [bind]; [left|right].
  - destruct Hfind as (Hn & Ha & Hs & Hlast). exists n. split; [|done]. rewrite extended_top in Ha by auto.
    split; [done|done|done|]. intros m Hm Hma Hms. rewrite <-(extended_same anc fake par) by auto.
    apply Hlast; [done| |done]. by rewrite extended_top by auto.
  - split; [|done]. intros n Hn Ha. apply Hfind; [done|]. by rewrite extended_top by auto.
Qed.

(** C28: which epoch the child of a block is in.  On top of the genesis block it is the epoch that
    has yet to be made.  Otherwise it is an epoch announced at the block or at one of its ancestors, that has
    started by the slot of the child, and the last such: every other epoch announced at or above the
    block that has started is of an earlier block or, announced with it, has not started later.  There is
    none only if no epoch announced at or above the block has started.  The search neither fails nor panics. *)
Theorem descriptor_correct s par slot : ok s -> queryable s par ->
  match epoch_descriptor_for_child_of build par (height par) slot s with
  | Ok (Some (UnimportedGenesisAt slot')) => height par = 0%N /\ slot' = slot
  | Ok (Some (SignaledAt id hd)) => height par <> 0%N /\
      exists e, epoch id s = Some e /\ header_of e = hd /\ at_or_above anc par (ei_hash id) = true /\ (start_slot e <= slot)%N /\
        forall id' e', epoch id' s = Some e' -> at_or_above anc par (ei_hash id') = true -> (start_slot e' <= slot)%N ->
          anc (ei_hash id') (ei_hash id) = true \/ ei_hash id' = ei_hash id /\ (start_slot e' <= start_slot e)%N
  | Ok None => height par <> 0%N /\
      forall id' e', epoch id' s = Some e' -> at_or_above anc par (ei_hash id') = true -> (slot < start_slot e')%N
  | _ => False
  end.
Proof.
  intros Hok Hq. destruct (decide (height par = 0%N)) as [Hz|Hne].
  { unfold epoch_descriptor_for_child_of. by rewrite Hz. }
  assert (forall id' e', epoch id' s = Some e' -> (start_slot e' <= slot)%N ->
    exists m, m ∈ nodes (roots (inner s)) /\ hash m = ei_hash id' /\ started_at slot (data m) = true /\
      header_at (data m) (ei_position id') = Some (header_of e')) as Hall.
  { intros id' e' He' Hle. destruct (epoch_node s id' e' Hok He') as (d & Hin & Hd).
    pose proof (header_started d _ _ slot (eo_ordered _ _ _ Hok _ _ _ Hin) Hd Hle) as Hst.
    destruct (entry_node s _ _ _ Hin) as (m & Hm & [= Hh _ Hdm]). exists m. by rewrite Hh, Hdm. }
  destruct (search_found s par slot Hok Hq Hne) as [(n & [Hn Ha Hs Hlast] & ->)|[Hnone ->]].
  - pose proof (eo_ordered _ _ _ Hok _ _ _ (node_in s n Hn)) as Hord.
    destruct (descriptor_of_ok slot n Hs Hord) as (position & hd & -> & Hat & Hle & Hmax).
    destruct (node_epoch s _ _ _ position hd Hok (node_in s n Hn) Hat) as (e & He & <-).
    split; [done|]. exists e. split_and!; [done..|]. intros id' e' He' Ha' Hle'.
    destruct (Hall id' e' He' Hle') as (m & Hm & Hh & Hst & Hhd). rewrite <-Hh in Ha'. rewrite <-Hh.
    destruct (Hlast m Hm Ha' Hst) as [->|]; [right|by left]. split; [done|]. exact (Hmax _ _ Hhd Hle').
  - split; [done|]. intros id' e' He' Ha'. apply N.lt_nge. intros Hle.
    destruct (Hall id' e' He' Hle) as (m & Hm & Hh & Hst & _). rewrite <-Hh in Ha'. by rewrite (Hnone m Hm Ha') in Hst.
Qed.

(** ** What a smaller tree finds *)

Lemma at_or_above_cases h x : at_or_above anc h x = true <-> x = h \/ anc x h = true.
Proof. unfold at_or_above. by rewrite orb_true_iff, bool_decide_eq_true. Qed.

Lemma found_unique s par slot n n' : found s par slot n -> found s par slot n' -> n = n'.
Proof.
  intros [Hn Ha Hs Hlast] [Hn' Ha' Hs' Hlast']. destruct (Hlast n' Hn' Ha' Hs') as [->|H1]; [done|].
  destruct (Hlast' n Hn Ha Hs) as [->|H2]; [done|]. pose proof (anc_trans _ _ _ H1 H2) as Hcyc. by rewrite (anc_irrefl _ height) in Hcyc.
Qed.

Lemma found_descriptor s par slot n : ok s -> queryable s par -> height par <> 0%N -> found s par slot n ->
  epoch_descriptor_for_child_of build par (height par) slot s = Ok (Some (descriptor_of slot n)).
Proof.
  intros Hok Hq Hne Hn. destruct (search_found s par slot Hok Hq Hne) as [(n' & Hn' & ->)|[Hnone _]].
  - by rewrite (found_unique s par slot n n').
  - destruct Hn as [Hn Ha Hs _]. by rewrite (Hnone n Hn Ha) in Hs.
Qed.

Definition subtree s' s : Prop := forall x num d, (x, num, d) ∈ tree_entries s' -> (x, num, d) ∈ tree_entries s.

Lemma queryable_sub s s' par : subtree s' s -> queryable s par -> queryable s' par.
Proof.
  intros Hsub (Hmax & fake & Hfake & Hnot). split; [done|]. exists fake. split; [done|]. intros n Hn.
  destruct (entry_node s _ _ _ (Hsub _ _ _ (node_in s' n Hn))) as (m & Hm & [= <- _ _]). by apply Hnot.
Qed.

(** What is found and kept is found again. *)
Lemma found_kept s s' par slot n : ok s' -> subtree s' s -> found s par slot n -> (hash n, number n, data n) ∈ tree_entries s' ->
  exists n', found s' par slot n' /\ node_entry n' = node_entry n.
Proof.
  intros Hok' Hsub [Hn Ha Hs Hlast] Hin. destruct (entry_node s' _ _ _ Hin) as (n' & Hn' & Heq).
  exists n'. split; [|done]. injection Heq as Hh Hnum Hd. split; [done|by rewrite Hh|by rewrite Hd|].
  intros m Hm Hma Hms. destruct (entry_node s _ _ _ (Hsub _ _ _ (node_in s' m Hm))) as (m2 & Hm2 & [= Hh2 _ Hd2]).
  rewrite <-Hh2 in Hma. rewrite <-Hd2 in Hms. destruct (Hlast m2 Hm2 Hma Hms) as [->|Hanc]; [left|right; congruence].
  apply (NoDup_map_elem hash (nodes (roots (inner s')))); [|done|done|congruence]. apply (wf_NoDup anc height), Hok'.
Qed.

Lemma descriptor_data s s' slot n make_genesis : epochs s' !! (hash n, number n) = epochs s !! (hash n, number n) ->
  epoch_data (descriptor_of slot n) make_genesis s' = epoch_data (descriptor_of slot n) make_genesis s.
Proof.
  intros Heq. unfold descriptor_of. destruct (data n); [destruct (_ <=? _)%N|]; simpl; unfold epoch; simpl; by rewrite Heq.
Qed.

(** What is found after a finalized block is on its branch, at or below the node that becomes the root. *)
Lemma found_survives s fin slot par slot' n0 : ok s -> queryable s par -> height par <> 0%N ->
  at_or_above anc par fin = true -> (slot <= slot')%N ->
  n0 ∈ nodes (roots (inner s)) -> anc (hash n0) fin = true -> live_at slot (data n0) = true ->
  exists n, found s par slot' n /\ survives anc fin n0 (hash n) = true.
Proof.
  intros Hok Hq Hne Hfin Hslot Hn0 Hanc Hlive.
  pose proof (live_started _ _ slot' (eo_ordered _ _ _ Hok _ _ _ (node_in s n0 Hn0)) Hlive Hslot) as Hst.
  assert (at_or_above anc par (hash n0) = true) as Ha0.
  { apply at_or_above_cases in Hfin as [->|Hfin]; apply at_or_above_cases; right; [done|by eapply anc_trans]. }
  destruct (search_found s par slot' Hok Hq Hne) as [(n & Hn & _)|[Hnone _]]; [|by rewrite (Hnone n0 Hn0 Ha0) in Hst].
  exists n. split; [done|]. destruct Hn as [Hn Ha _ Hlast]. unfold survives. apply andb_true_iff. split.
  - apply orb_true_iff. rewrite bool_decide_eq_true. destruct (Hlast n0 Hn0 Ha0 Hst) as [->|]; auto.
  - destruct (on_branch anc fin (hash n)) eqn:Hbr; [done|]. apply on_branch_false in Hbr.
    by destruct (at_or_above_related anc height par (hash n) fin Ha Hfin).
Qed.

(** C29: finalization forgets nothing that is needed.  After the epochs are pruned for a finalized block and
    its slot, the child of that block or of any block after it, at that slot or later, is told the same
    epoch as before, in the same place and with the same data. *)
Theorem prune_finalized_preserves s fin slot par slot' make_genesis :
  ok s -> queryable s par -> at_or_above anc par fin = true -> (slot <= slot')%N ->
  exists s', prune_finalized build fin (height fin) slot s = (s', Ok tt) /\
    epoch_descriptor_for_child_of build par (height par) slot' s' = epoch_descriptor_for_child_of build par (height par) slot' s /\
    epoch_data_for_child_of build par (height par) slot' make_genesis s' = epoch_data_for_child_of build par (height par) slot' make_genesis s.
Proof.
  intros Hok Hq Hfin Hslot. destruct (prune_finalized_ok (X := X) anc height s fin slot Hok) as (s' & Hp & Hok' & Hsub & Hkept).
  exists s'. split; [done|]. destruct (decide (height par = 0%N)) as [Hz|Hne].
  { by unfold epoch_data_for_child_of, epoch_descriptor_for_child_of; rewrite Hz. }
  pose proof (find_node_where_correct (E := X) anc height fin (live_at slot) (inner s) (eo_tree _ _ _ Hok)) as Hlive.
  destruct (find_node_where _ fin _ _ _) as [[n0|]| | |]; [|by rewrite Hkept..].
  destruct Hlive as (Hn0 & Hanc & Hl & _). destruct (found_survives s fin slot par slot' n0) as (n & Hf & Hs); [done..|].
  assert ((hash n, number n, data n) ∈ tree_entries s') as Hin by (apply Hkept; split; [apply node_in, Hf|done]).
  assert (subtree s' s) as Hsub' by (intros x num d Hx; by apply Hsub).
  destruct (found_kept s s' par slot' n Hok' Hsub' Hf Hin) as (n' & Hf' & Heq).
  unfold epoch_data_for_child_of. rewrite (found_descriptor s par slot' n Hok Hq Hne Hf).
  rewrite (found_descriptor s' par slot' n' Hok' (queryable_sub s s' par Hsub' Hq) Hne Hf'), (descriptor_of_entry slot' n' n Heq).
  split; [done|]. cbn [bind]. f_equal. apply (descriptor_data s s' slot' n), (Hsub _ _ _ Hin).
Qed.

(** The hash made up for the child of a block is not that of the block. *)
Lemma fake_fresh h fake : fake_head_hash (X := Error X) h = Ok fake -> fake <> h.
Proof.
  destruct h as [|b bytes]; [done|]. intros [= <-] [= Heq]. apply (f_equal (N.lxor b)) in Heq.
  by rewrite N.lxor_nilpotent, <-N.lxor_assoc, N.lxor_nilpotent in Heq.
Qed.

Lemma queryable_import s s' h (d : hdr) : (forall x, x ∈ tree_entries s' <-> x = (h, height h, d) \/ x ∈ tree_entries s) ->
  queryable s h -> queryable s' h.
Proof.
  intros Hin (Hmax & fake & Hfake & Hnot). split; [done|]. exists fake. split; [done|]. intros n Hn.
  destruct (proj1 (Hin _) (node_in s' n Hn)) as [[= -> _ _]|Hs]; [by apply not_eq_sym, fake_fresh|].
  destruct (entry_node s _ _ _ Hs) as (m & Hm & [= <- _ _]). by apply Hnot.
Qed.

(** An epoch that was announced is the one the next blocks are in.  After the import of an epoch change with a
    block on top of its parent, the child of the block is told the epoch that was announced, once it has
    started: the second one when the first epoch of the chain was announced with it. *)
Theorem import_then_found s h par e slot make_genesis :
  ok s -> on_top anc h par -> (forall n, n ∈ nodes (roots (inner s)) -> anc h (hash n) = false) ->
  header_ordered (persisted_header (persisted e)) ->
  (forall d, (h, height h, d) ∈ tree_entries s -> d = persisted_header (persisted e)) ->
  (start_slot (incremented_ref e) <= slot)%N -> queryable s h ->
  exists s', epochs_import build h (height h) par e s = (s', Ok tt) /\
    epoch_descriptor_for_child_of build h (height h) slot s' =
      Ok (Some (SignaledAt (mkEpochIdentifier (if is_genesis (persisted e) then Genesis1 else Regular) h (height h)) (header_of (incremented_ref e)))) /\
    epoch_data_for_child_of build h (height h) slot make_genesis s' = Ok (Some (incremented_ref e)).
Proof.
  intros Hok Htop Hnew Hord Hdup Hslot Hq. pose proof (epochs_import_ok (X := X) anc height s h par e Hok Htop Hnew Hord Hdup) as Hi.
  destruct (epochs_import _ _ _ _ _ _) as [s' [[]| | |]]; try done. destruct Hi as (Hok' & Hmap & Hin).
  exists s'. split; [done|]. assert (height h <> 0%N) as Hne.
  { assert (anc par h = true) as Hph%anc_height by (rewrite Htop; by rewrite bool_decide_true); lia. }
  destruct (entry_node s' h (height h) (persisted_header (persisted e))) as (n & Hn & Heq); [apply Hin; by left|].
  injection Heq as Hh Hnum Hd. assert (found s' h slot n) as Hf.
  { split; [done|by apply at_or_above_cases; left| |].
    - rewrite Hd. unfold incremented_ref in Hslot. destruct (persisted e); apply N.leb_le; simpl in *; lia.
    - intros m Hm [Hmh|Hmh]%at_or_above_cases _; [left|right; by rewrite Hh].
      apply (NoDup_map_elem hash (nodes (roots (inner s')))); [|done|done|congruence]. apply (wf_NoDup anc height), Hok'. }
  unfold epoch_data_for_child_of. rewrite (found_descriptor s' h slot n Hok' (queryable_import s s' h _ Hin Hq) Hne Hf).
  assert (descriptor_of slot n = SignaledAt (mkEpochIdentifier (if is_genesis (persisted e) then Genesis1 else Regular) h (height h))
    (header_of (incremented_ref e))) as ->.
  { unfold descriptor_of, incremented_ref in *. rewrite Hd, Hh, Hnum. destruct (persisted e); [|done].
    simpl in *. by rewrite (proj2 (N.leb_le _ _) Hslot). }
  split; [done|]. cbn [bind]. f_equal. simpl. unfold epoch, incremented_ref. simpl. rewrite Hmap, lookup_insert_eq. by destruct (persisted e).
Qed.
End descriptor.

(** ** Runs of calls *)

Section runs.
Context {P : Profile} {E D X : Type} `{!Epoch E D}.
Context (anc : BlockHash -> BlockHash -> bool) (height : BlockHash -> N) `{!Ancestry anc height}.
Notation changes := (EpochChanges E).
Notation tree_entries s := (entries (roots (inner s))).
Notation build := (builder (X := X) anc).

(** The calls that change the state. *)
Inductive Call : Type :=
| ImportCall (h par : BlockHash) (e : IncrementedEpoch E)
| PruneCall (h : BlockHash) (slot : Slot)
| RevertCall (h : BlockHash)
| ResetCall (par h : BlockHash) (current next : E)
| RebalanceCall
| ChangeCall (d : ViableEpochDescriptor) (make_genesis : Slot -> E) (f : E -> E).

Definition perform (c : Call) : M changes (Error X) unit :=
  match c with
  | ImportCall h par e => epochs_import build h (height h) par e
  | PruneCall h slot => prune_finalized build h (height h) slot
  | RevertCall h => epochs_revert build h (height h)
  | ResetCall par h current next => epochs_reset par h (height h) current next
  | RebalanceCall => epochs_rebalance
  | ChangeCall d make_genesis f => modify_state (fun s => (viable_epoch_mut d make_genesis f s).1)
  end.

(** A block is imported on top of its parent and before its descendants; when it is imported again, with
    the same slots. A reset is to a block and its parent; a change of an epoch leaves its slots. *)
Definition permitted (s : changes) (c : Call) : Prop :=
  match c with
  | ImportCall h par e => on_top anc h par /\ (forall n, n ∈ nodes (roots (inner s)) -> anc h (hash n) = false) /\
      header_ordered (persisted_header (persisted e)) /\
      forall d, (h, height h, d) ∈ tree_entries s -> d = persisted_header (persisted e)
  | PruneCall _ _ | RebalanceCall => True
  | RevertCall _ => (N.of_nat (length (tree_entries s)) < usize_MAX)%N
  | ResetCall par h _ _ => anc par h = true /\ height h = (height par + 1)%N
  | ChangeCall _ _ f => forall e, header_of (f e) = header_of e
  end.

Inductive reached : changes -> Prop :=
| reached_new : reached epoch_changes_new
| reached_call s c s' o : reached s -> permitted s c -> perform c s = (s', o) -> reached s'.

Lemma perform_ok s c : epochs_ok anc height s -> permitted s c -> exists s', perform c s = (s', Ok tt) /\ epochs_ok anc height s'.
Proof.
  intros Hok. destruct c as [h par e|h slot|h|par h cur next| |d mk f]; simpl.
  - intros (Htop & Hnew & Hord & Hdup). pose proof (epochs_import_ok (X := X) anc height s h par e Hok Htop Hnew Hord Hdup) as Hi.
    destruct (epochs_import _ _ _ _ _ _) as [s' [[]| | |]]; try done. exists s'. split; [done|apply Hi].
  - intros _. destruct (prune_finalized_ok (X := X) anc height s h slot Hok) as (s' & ? & ? & _). by exists s'.
  - intros Hsize. destruct (epochs_revert_ok (X := X) anc height s h Hok Hsize) as (s' & ? & ? & _). by exists s'.
  - intros [Hanc Hh]. destruct (epochs_reset_ok (X := X) anc height s par h cur next Hanc Hh) as (s' & ? & ? & _). by exists s'.
  - intros _. destruct (epochs_rebalance_ok (X := X) anc height s Hok) as (s' & ? & ? & _). by exists s'.
  - intros Hf. eexists. split; [done|]. destruct d; [done|]. by apply (epoch_mut_ok anc height).
Qed.

Lemma reached_ok s : reached s -> epochs_ok anc height s.
Proof.
  induction 1 as [|s c s' o _ Hok Hc Heq]; [apply new_ok|]. destruct (perform_ok s c Hok Hc) as (s2 & Heq' & Hok').
  rewrite Heq' in Heq. by injection Heq as <- _.
Qed.

(** C30: the tree of slots and the map of epochs stay together.  Whatever permitted calls are made, starting from no epoch
    changes, each of them returns without an error or a panic, the tree stays a tree of blocks, and the map
    has an epoch for exactly the blocks of the tree, with the slots that the tree has for it. *)
Theorem epochs_consistent s : reached s ->
  wf anc height (inner s) /\
  (forall h num d, (h, num, d) ∈ tree_entries s <-> exists p, epochs s !! (h, num) = Some p /\ persisted_header p = d) /\
  (forall c, permitted s c -> exists s', perform c s = (s', Ok tt) /\ reached s').
Proof.
  intros Hr. pose proof (reached_ok s Hr) as Hok. split_and!; [apply Hok| |].
  - intros h num d. split; [by apply Hok|]. intros (p & Hp & <-). by apply Hok.
  - intros c Hc. destruct (perform_ok s c Hok Hc) as (s' & Heq & _). exists s'. split; [done|]. by eapply reached_call.
Qed.
End runs.

(** ** Another type of epochs *)

Lemma map_header_id d : map_header d = d.
Proof. by destruct d as [[] []|[]]. Qed.

Lemma map_node_id {H V} (g : H -> N -> V -> V) (n : Node H V) : (forall h num d, g h num d = d) -> map_node g n = n.
Proof.
  intros Hg. tree_induction n. simpl. rewrite Hg. f_equal. induction l as [|c l IH]; [done|]. simpl. f_equal.
  - apply IHl. by left.
  - apply IH. intros x Hx. apply IHl. by right.
Qed.

(** The tree stays as it is, and every epoch is the one that the function makes of it. *)
Lemma epochs_map_ok {E F X} (f : BlockHash -> N -> E -> F) (s : EpochChanges E) :
  (N.of_nat (length (node_iter (inner s))) < usize_MAX)%N ->
  exists s', epochs_map (X := X) f s = Ok s' /\ inner s' = inner s /\
    forall id, epoch id s' = f (ei_hash id) (ei_number id) <$> epoch id s.
Proof.
  intros Hsize. unfold epochs_map.
  rewrite (map_correct (fun _ _ d => map_header d)) by done. cbn [bind]. eexists. split; [done|]. simpl. split.
  - destruct (inner s) as [rs best]. simpl. f_equal. rewrite <-(map_id rs) at 2. apply map_ext. intros n. apply map_node_id. intros _ _. apply map_header_id.
  - intros [position h num]. unfold epoch. simpl. rewrite map_lookup_imap. destruct (epochs s !! (h, num)) as [[]|]; [..|done]; by destruct position.
Qed.

(** ** A chain with two forks *)

Module EpochsExample.

(** Blocks are named by the branch that leads to them, the first block after the genesis block being [[1]]. *)
Definition branch (h : BlockHash) : list nat := map N.to_nat h.
Definition before (a b : BlockHash) : bool := strict_prefix (branch a) (branch b).
Definition depth (h : BlockHash) : N := branch_height (branch h).

#[export] Instance before_ancestry : Ancestry before depth.
Proof.
  split; unfold before, depth.
  - intros a b c. apply anc_trans.
  - intros a b c Ha Hb. destruct (anc_chain _ _ _ Ha Hb) as [Heq|Hab]; [left|by right].
    unfold branch in Heq. by apply (list_fmap_eq_inj N.to_nat) in Heq; [|intros ? ? ?%N2Nat.inj].
  - intros a b. apply anc_height.
Qed.

(** Epochs of ten slots, with the data the last block announced. *)
#[export] Instance tens : Epoch (N * nat) nat := {|
  start_slot := fst;
  end_slot e := (fst e + 10)%N;
  increment e d := ((fst e + 10)%N, d)
|}.

#[local] Existing Instance debug.
Notation changes := (EpochChanges (N * nat)).
Notation build := (builder (X := unit) before).

Definition genesis_change : IncrementedEpoch (N * nat) := viable_increment (UnimportedGenesis (5%N, 0)) 7.

Definition calls : list (Call (E := N * nat)) :=
  [ImportCall [1%N] [] genesis_change;
   ImportCall [1%N; 2%N] [1%N] (mkIncrementedEpoch (RegularEpoch (25%N, 9)));
   ImportCall [1%N; 3%N] [1%N] (mkIncrementedEpoch (RegularEpoch (26%N, 8)));
   RebalanceCall].

Definition sample : changes := foldl (fun s c => (perform (X := unit) before depth c s).1) epoch_changes_new calls.

Lemma on_top_branch (h : BlockHash) (x : N) : on_top before (h ++ [x]) h.
Proof.
  unfold on_top, before, branch. induction h as [|y h IH]; intros [|z a]; simpl; [done| |done|].
  - destruct a; simpl; by rewrite ?andb_false_r.
  - rewrite IH. destruct (Nat.eqb_spec (N.to_nat z) (N.to_nat y)) as [->%N2Nat.inj|Hne]; simpl.
    + f_equal. apply bool_decide_ext. split; [by intros ->|by intros [= ->]].
    + rewrite bool_decide_false; [done|]. by intros [= -> _].
Qed.

Lemma sample_reached : reached (X := unit) before depth sample.
Proof.
  repeat (eapply reached_call; [| |apply surjective_pairing]); [apply reached_new|..|done].
  all: split_and!; [first [exact (on_top_branch [] 1) | exact (on_top_branch [1%N] 2) | exact (on_top_branch [1%N] 3)]|apply Forall_forall; vm_compute; repeat constructor|try done; simpl; lia|].
  all: intros d Hin; refine (proj1 (Forall_forall (fun e => e.1 = (_, _) -> e.2 = _) _) _ _ Hin eq_refl).
  all: vm_compute; repeat (constructor; try discriminate).
Qed.

Lemma sample_queryable h : h ∈ [[1%N; 2%N]; [1%N; 2%N; 4%N]] -> queryable (X := unit) depth sample h.
Proof.
  intros [->|[->|?%elem_of_nil]%elem_of_cons]%elem_of_cons; [| |done].
  all: split; [done|eexists; split; [reflexivity|apply Forall_forall; vm_compute; repeat (constructor; try discriminate)]].
Qed.

(** The epoch announced second with the first block goes on until that of the fork starts. *)
Lemma descriptor_correct_witness :
  epoch_descriptor_for_child_of build [1%N; 2%N] 2 20%N sample =
    Ok (Some (SignaledAt (mkEpochIdentifier Genesis1 [1%N] 1) (mkEpochHeader 15%N 25%N))) /\
  forall id' e', epoch id' sample = Some e' -> at_or_above before [1%N; 2%N] (ei_hash id') = true -> (start_slot e' <= 20)%N ->
    before (ei_hash id') [1%N] = true \/ ei_hash id' = [1%N] /\ (start_slot e' <= 15)%N.
Proof.
  pose proof (descriptor_correct (X := unit) before depth sample [1%N; 2%N] 20%N (reached_ok _ _ _ sample_reached) (sample_queryable _ ltac:(by left))) as Hd.
  assert (epoch_descriptor_for_child_of build [1%N; 2%N] 2 20%N sample =
    Ok (Some (SignaledAt (mkEpochIdentifier Genesis1 [1%N] 1) (mkEpochHeader 15%N 25%N)))) as Heq by (vm_compute; reflexivity).
  split; [done|]. change (depth [1%N; 2%N]) with 2%N in Hd. rewrite Heq in Hd. destruct Hd as (_ & [start d] & _ & Hhd & _ & _ & Hlast).
  injection Hhd as -> _. exact Hlast.
Defined.

(** Finalizing [[1; 2]] at slot 25 forgets the other fork; the blocks that follow do not notice. *)
Lemma prune_finalized_preserves_witness :
  exists s', prune_finalized build [1%N; 2%N] 2 25%N sample = (s', Ok tt) /\ s' <> sample /\
    epoch_data_for_child_of build [1%N; 2%N; 4%N] 3 27%N (fun slot => (slot, 0)) s' = Ok (Some (25%N, 9)).
Proof.
  destruct (prune_finalized_preserves (X := unit) before depth sample [1%N; 2%N] 25%N [1%N; 2%N; 4%N] 27%N (fun slot => (slot, 0))
    (reached_ok _ _ _ sample_reached) (sample_queryable _ ltac:(by right; left)) eq_refl ltac:(done)) as (s' & Hp & _ & Hd).
  exists s'. split; [exact Hp|]. split.
  - intros ->. vm_compute in Hp. discriminate Hp.
  - etrans; [exact Hd|]. vm_compute. reflexivity.
Defined.

Lemma epochs_consistent_witness :
  wf before depth (inner sample) /\
  exists s', perform (X := unit) before depth (RevertCall [1%N]) sample = (s', Ok tt) /\ map entry_hash (entries (roots (inner s'))) = [[1%N]].
Proof.
  destruct (epochs_consistent (X := unit) before depth sample sample_reached) as (Hwf & _ & Hcall). split; [exact Hwf|].
  destruct (Hcall (RevertCall [1%N])) as (s' & Heq & _); [by vm_compute|]. exists s'. split; [exact Heq|].
  vm_compute in Heq. injection Heq as <-. reflexivity.
Defined.

(** A block that is imported again with other slots is in the map with those, and in the tree with the old ones: the
    slots a block is announced with have to be a function of the block. *)
Example duplicate_with_other_slots :
  let '(s', o) := epochs_import build [1%N; 2%N] 2 [1%N] (mkIncrementedEpoch (RegularEpoch (28%N, 9))) sample in
  o = Ok tt /\ epoch_descriptor_for_child_of build [1%N; 2%N] 2 26%N s' =
    Ok (Some (SignaledAt (mkEpochIdentifier Regular [1%N; 2%N] 2) (mkEpochHeader 25%N 35%N))) /\
  epoch (mkEpochIdentifier Regular [1%N; 2%N] 2) s' = Some (28%N, 9).
Proof. vm_compute. done. Qed.
End EpochsExample.
