(* ===== verification/Leaves.v ===== *)
(** * The leaves of the block tree

    Model of [substrate/client/api/src/leaves.rs]: the blocks without children, kept by number in a
    [BTreeMap] with the highest number first, and the means to take back what was done to it.  A map is a
    [gmap] that is iterated in the order of its keys; the codec of the database is a parameter. *)

From S2P Require Import Prelude.

Record LeafSetItem (H : Type) : Type := mkLeafSetItem {
  li_hash : H;
  li_number : N
}.
Arguments mkLeafSetItem {H} _ _.
Arguments li_hash {H} _.
Arguments li_number {H} _.

Record ImportOutcome (H : Type) : Type := mkImportOutcome {
  io_inserted : LeafSetItem H;
  io_removed : option H
}.
Arguments mkImportOutcome {H} _ _.
Arguments io_inserted {H} _.
Arguments io_removed {H} _.

Record RemoveOutcome (H : Type) : Type := mkRemoveOutcome {
  ro_inserted : option H;
  ro_removed : LeafSetItem H
}.
Arguments mkRemoveOutcome {H} _ _.
Arguments ro_inserted {H} _.
Arguments ro_removed {H} _.

(** [FinalizationOutcome]: what its iterator returns. *)
Definition FinalizationOutcome (H : Type) : Type := list (N * H).

Record LeafSet (H : Type) : Type := mkLeafSet {
  storage : gmap N (list H)
}.
Arguments mkLeafSet {H} _.
Arguments storage {H} _.

Section model.
Context {P : Profile} {H : Type} `{!EqDecision H} {E : Type}.
Notation leaves := (LeafSet H).

(** The entries of the map in the order of [Reverse<N>]. *)
Definition levels (s : leaves) : list (N * list H) :=
  sort_by (fun x y => (y.1 <=? x.1)%N) (map_to_list (storage s)).

Definition leaf_set_new : leaves := mkLeafSet ∅.

Definition insert_leaf (num : N) (h : H) : M leaves E unit :=
  modify_state (fun s => mkLeafSet (<[num := default [] (storage s !! num) ++ [h]]> (storage s))).

Definition remove_leaf (num : N) (h : H) : M leaves E bool := fun s =>
  match storage s !! num with
  | None => (s, Ok false)
  | Some hashes =>
      let found := existsb (fun x => bool_decide (x = h)) hashes in
      let hashes := List.filter (fun x => bool_decide (x <> h)) hashes in
      let s := mkLeafSet (<[num := hashes]> (storage s)) in
      (if found && (length hashes =? 0) then mkLeafSet (delete num (storage s)) else s, Ok found)
  end.

(** [LeafSet::import] *)
Definition leaves_import (h : H) (num : N) (parent_hash : H) : M leaves E (ImportOutcome H) :=
  let* removed :=
    if (num =? 0)%N then ret None else
    let* parent_number := lift (sub_u32 num 1) in
    let* removed := remove_leaf parent_number parent_hash in
    ret (if removed then Some parent_hash else None) in
  let* _ := insert_leaf num h in
  ret (mkImportOutcome (mkLeafSetItem h num) removed).

(** [LeafSet::remove] *)
Definition leaves_remove (h : H) (num : N) (parent_hash : option H) : M leaves E (option (RemoveOutcome H)) :=
  let* removed := remove_leaf num h in
  if negb removed then ret None else
  let* inserted :=
    match parent_hash with
    | Some parent_hash =>
        if (num =? 0)%N then ret None else
        let* parent_number := lift (sub_u32 num 1) in
        let* _ := insert_leaf parent_number parent_hash in
        ret (Some parent_hash)
    | None => ret None
    end in
  ret (Some (mkRemoveOutcome inserted (mkLeafSetItem h num))).

Definition remove_displaced_leaves (displaced_leaves : FinalizationOutcome H) : M leaves E unit :=
  for_each (fun '(num, h) => let* _ := remove_leaf num h in ret tt) displaced_leaves.

(** All leaves, the highest first. *)
Definition leaf_items (s : leaves) : list (H * N) := flat_map (fun '(num, hashes) => map (fun h => (h, num)) hashes) (levels s).

(** [LeafSet::contains] *)
Definition leaves_contains (num : N) (h : H) (s : leaves) : bool :=
  match storage s !! num with
  | Some hashes => existsb (fun x => bool_decide (x = h)) hashes
  | None => false
  end.

(** [LeafSet::revert] *)
Definition leaves_revert (best_hash : H) (best_number : N) : M leaves E (list (H * N)) :=
  let* s := get_state in
  let items := leaf_items s in
  let* _ := for_each (fun '(h, num) =>
    if (best_number <? num)%N then
      let* removed := remove_leaf num h in
      if removed then ret tt else lift Panic
    else ret tt) items in
  let* s := get_state in
  let* _ := if leaves_contains best_number best_hash s then ret tt else insert_leaf best_number best_hash in
  ret (List.filter (fun '(_, num) => (best_number <? num)%N) items).

Definition leaf_hashes (s : leaves) : list H := flat_map snd (levels s).

(** [LeafSet::count] *)
Definition leaves_count (s : leaves) : nat := list_sum (map (fun level => length level.2) (levels s)).

Definition highest_leaf (s : leaves) : option (N * list H) := head (levels s).

(** ** [Undo] *)

Definition undo_import (outcome : ImportOutcome H) : M leaves E unit :=
  let* _ :=
    match io_removed outcome with
    | Some removed_hash =>
        let* removed_number := lift (sub_u32 (li_number (io_inserted outcome)) 1) in
        insert_leaf removed_number removed_hash
    | None => ret tt
    end in
  let* _ := remove_leaf (li_number (io_inserted outcome)) (li_hash (io_inserted outcome)) in
  ret tt.

Definition undo_remove (outcome : RemoveOutcome H) : M leaves E unit :=
  let* _ :=
    match ro_inserted outcome with
    | Some inserted_hash =>
        let* inserted_number := lift (sub_u32 (li_number (ro_removed outcome)) 1) in
        let* _ := remove_leaf inserted_number inserted_hash in
        ret tt
    | None => ret tt
    end in
  insert_leaf (li_number (ro_removed outcome)) (li_hash (ro_removed outcome)).

Definition undo_finalization (outcome : FinalizationOutcome H) : M leaves E unit :=
  for_each (fun '(num, h) => insert_leaf num h) outcome.
End model.

(** ** The database *)

(** Decoding the stored leaves failed. *)
Inductive LeavesError : Type :=
| ErrorDecodingLeaves.

Section database.
Context {H Bytes : Type} `{!EqDecision H}.
Context (encode : list (N * list H) -> Bytes) (decode : Bytes -> option (list (N * list H))).

(** [read_from_db], with what the database has under the key. *)
Definition read_from_db (value : option Bytes) : outcome LeavesError (LeafSet H) :=
  match value with
  | None => Ok leaf_set_new
  | Some bytes =>
      match decode bytes with
      | Some vals => Ok (mkLeafSet (foldl (fun m '(num, hashes) => <[num := hashes]> m) ∅ vals))
      | None => Err ErrorDecodingLeaves
      end
  end.

(** [prepare_transaction]: the value that the transaction sets. *)
Definition prepare_transaction (s : LeafSet H) : Bytes := encode (levels s).
End database.
