(* ===== verification/LeavesSpec.v ===== *)
(** * The leaf set: theorems

    The set holds the blocks of the tree that have no child, whatever blocks are imported, removed or
    displaced by finalization; the highest come first; and what was done can be taken back. Two sets with the
    same leaves are equivalent: an undone call may leave the leaves of one number in another order. *)

From S2P Require Import Prelude Leaves.

Section sets.
Context {P : Profile} {H : Type} `{!EqDecision H} {E : Type}.
Implicit Types (s : LeafSet H) (h x : H) (num m : N).

(** The leaves with a number. *)
Definition level s num : list H := default [] (storage s !! num).

Definition leaf s num h : Prop := h ∈ level s num.

(** No number has an empty list, and no leaf is there twice. *)
Definition leaves_ok s : Prop := forall num l, storage s !! num = Some l -> l <> [] /\ NoDup l.

Lemma level_NoDup s num : leaves_ok s -> NoDup (level s num).
Proof. intros Hok. unfold level. destruct (storage s !! num) as [l|] eqn:Hl; [by apply (Hok num)|constructor]. Qed.

Lemma contains_leaf s num h : leaves_contains num h s = true <-> leaf s num h.
Proof.
  unfold leaves_contains, leaf, level. destruct (storage s !! num) as [l|]; simpl.
  - rewrite existsb_true. split; [by intros (x & Hx & ->%bool_decide_eq_true)|]. intros Hh. exists h. by rewrite bool_decide_true.
  - split; [done|by intros ?%elem_of_nil].
Qed.

Lemma contains_not_leaf s num h : leaves_contains num h s = false <-> ~ leaf s num h.
Proof. rewrite <-contains_leaf. by destruct (leaves_contains num h s). Qed.

(** ** Sets with the same leaves *)

#[export] Instance leaves_equiv : Equiv (LeafSet H) := fun s s' => forall num, level s num ≡ₚ level s' num.

#[export] Instance leaves_equivalence : Equivalence (≡@{LeafSet H}).
Proof.
  split.
  - by intros s num.
  - intros s s' Hs num. by rewrite (Hs num).
  - intros s1 s2 s3 H1 H2 num. by rewrite (H1 num).
Qed.

#[export] Instance leaf_proper : Proper ((≡) ==> (=) ==> (=) ==> iff) leaf.
Proof. intros s s' Hs num ? <- h ? <-. unfold leaf. by rewrite (Hs num). Qed.

Lemma same_leaves s s' : leaves_ok s -> leaves_ok s' -> (forall num h, leaf s num h <-> leaf s' num h) -> s ≡ s'.
Proof. intros Hok Hok' Hl num. apply NoDup_Permutation; [by apply level_NoDup..|]. intros h. apply Hl. Qed.

(** ** The operations *)

Lemma new_leaves : leaves_ok leaf_set_new /\ forall num h, ~ leaf (leaf_set_new (H := H)) num h.
Proof.
  split; [intros num l; simpl; by rewrite lookup_empty|]. intros num h. unfold leaf, level. simpl. rewrite lookup_empty. by intros ?%elem_of_nil.
Qed.

Lemma level_insert s num l m : level (mkLeafSet (<[num := l]> (storage s))) m = if decide (m = num) then l else level s m.
Proof. unfold level. simpl. rewrite lookup_insert. destruct (decide (num = m)), (decide (m = num)); by simplify_eq. Qed.

Lemma insert_leaf_ok s num h : leaves_ok s -> ~ leaf s num h ->
  exists s', insert_leaf (E := E) num h s = (s', Ok tt) /\ leaves_ok s' /\
    forall m x, leaf s' m x <-> leaf s m x \/ m = num /\ x = h.
Proof.
  intros Hok Hnot. eexists. split; [done|]. fold (level s num). split.
  - intros m l. simpl. rewrite lookup_insert_Some. intros [[-> <-]|[_ Hl]]; [|by apply (Hok m)].
    split; [by destruct (level s m)|]. apply NoDup_app. split_and!; [by apply level_NoDup| |apply NoDup_singleton].
    by intros x Hx ->%list_elem_of_singleton.
  - intros m x. unfold leaf. rewrite level_insert. case_decide as Hm; [subst|naive_solver].
    rewrite elem_of_app, list_elem_of_singleton. naive_solver.
Qed.

Lemma remove_leaf_ok s num h : leaves_ok s ->
  exists s', remove_leaf (E := E) num h s = (s', Ok (leaves_contains num h s)) /\ leaves_ok s' /\
    forall m x, leaf s' m x <-> leaf s m x /\ ~ (m = num /\ x = h).
Proof.
  intros Hok. unfold remove_leaf, leaves_contains. destruct (storage s !! num) as [l|] eqn:Hl.
  2: { exists s. split_and!; [done..|]. intros m x. split; [|by intros [? _]]. intros Hx. split; [done|]. intros [-> ->].
       unfold leaf, level in Hx. rewrite Hl in Hx. by apply elem_of_nil in Hx. }
  set (found := existsb _ l). set (l' := List.filter _ l).
  assert (forall x, x ∈ l' <-> x ∈ l /\ x <> h) as Hin
    by (intros x; unfold l'; rewrite elem_of_filter_true; by rewrite bool_decide_eq_true).
  eexists. split; [done|]. destruct (found && (length l' =? 0)) eqn:He; (split; [intros m k|intros m x; unfold leaf]); simpl.
  - rewrite lookup_delete_Some, lookup_insert_Some. intros [Hne [[? _]|[_ Hk]]]; [done|]. by apply (Hok m).
  - unfold level at 1. simpl. apply andb_true_iff in He as [_ Hnil%Nat.eqb_eq%nil_length_inv].
    destruct (decide (m = num)) as [->|Hne]; [rewrite lookup_delete_eq|rewrite lookup_delete_ne, lookup_insert_ne by done; fold (level s m); naive_solver].
    unfold level. rewrite Hl. simpl. specialize (Hin x). rewrite Hnil in Hin. naive_solver.
  - rewrite lookup_insert_Some. intros [[<- <-]|[_ Hk]]; [|by apply (Hok m)]. split.
    + intros Hnil. rewrite Hnil, andb_true_r in He. destruct (Hok num l Hl) as [Hne _]. destruct l as [|y l]; [done|].
      assert (y ∈ l') as Hy; [|rewrite Hnil in Hy; by apply elem_of_nil in Hy]. apply Hin. split; [by left|]. intros ->.
      simpl in found. unfold found in He. by rewrite bool_decide_true in He.
    + apply NoDup_ListNoDup, List.NoDup_filter, NoDup_ListNoDup. by apply (Hok num).
  - rewrite level_insert. destruct (decide (m = num)) as [->|Hne]; [|naive_solver]. unfold level. rewrite Hl. simpl. rewrite Hin. naive_solver.
Qed.

(** A number below one that is not zero. *)
Lemma parent_number num : num <> 0%N -> sub_u32 (E := E) num 1 = Ok (num - 1)%N.
Proof. intros Hne. apply sub_u32_eq. lia. Qed.

Lemma leaves_import_ok s h num par : leaves_ok s -> ~ leaf s num h ->
  exists s' removed, leaves_import (E := E) h num par s = (s', Ok (mkImportOutcome (mkLeafSetItem h num) removed)) /\ leaves_ok s' /\
    (removed = Some par /\ num <> 0%N /\ leaf s (num - 1) par \/ removed = None /\ (num <> 0%N -> ~ leaf s (num - 1) par)) /\
    forall m x, leaf s' m x <-> leaf s m x /\ ~ (num <> 0%N /\ m = (num - 1)%N /\ x = par) \/ m = num /\ x = h.
Proof.
  intros Hok Hnot. unfold leaves_import. destruct (N.eqb_spec num 0) as [Hz|Hne].
  - destruct (insert_leaf_ok s num h Hok Hnot) as (s' & Heq & Hok' & Hl). exists s', None. unfold bindM, ret at 1. rewrite Heq.
    split_and!; [done|done|right; done|]. intros m x. rewrite Hl. naive_solver.
  - unfold bindM, lift. rewrite parent_number by done.
    destruct (remove_leaf_ok s (num - 1) par Hok) as (s1 & -> & Hok1 & Hl1). cbn [ret].
    destruct (insert_leaf_ok s1 num h Hok1) as (s2 & -> & Hok2 & Hl2); [rewrite Hl1; naive_solver|].
    eexists s2, _. split; [done|]. split; [done|]. split.
    + destruct (leaves_contains (num - 1) par s) eqn:Hc; [left; by apply contains_leaf in Hc|right; by apply contains_not_leaf in Hc].
    + intros m x. rewrite Hl2, Hl1. naive_solver.
Qed.

(** The parent that a call of [remove] adds. *)
Definition added (num : N) (parent_hash : option H) : option H := if (num =? 0)%N then None else parent_hash.

Lemma leaves_remove_ok s h num parent_hash : leaves_ok s -> leaf s num h ->
  (forall par, added num parent_hash = Some par -> ~ leaf s (num - 1) par) ->
  exists s', leaves_remove (E := E) h num parent_hash s = (s', Ok (Some (mkRemoveOutcome (added num parent_hash) (mkLeafSetItem h num)))) /\
    leaves_ok s' /\ forall m x, leaf s' m x <-> leaf s m x /\ ~ (m = num /\ x = h) \/ (m = num - 1)%N /\ added num parent_hash = Some x.
Proof.
  intros Hok Hleaf Hadd. unfold leaves_remove, bindM. destruct (remove_leaf_ok s num h Hok) as (s1 & -> & Hok1 & Hl1).
  rewrite (proj2 (contains_leaf s num h) Hleaf). cbn [negb]. unfold added in *. destruct parent_hash as [par|].
  2: { exists s1. destruct (num =? 0)%N; (split; [done|]); (split; [done|]); intros m x; rewrite Hl1; (split; [by left|by intros [?|[_ ?]]]). }
  destruct (N.eqb_spec num 0) as [Hz|Hne].
  { exists s1. split; [done|]. split; [done|]. intros m x. rewrite Hl1. naive_solver. }
  unfold lift. rewrite parent_number by done.
  destruct (insert_leaf_ok s1 (num - 1) par Hok1) as (s2 & -> & Hok2 & Hl2); [rewrite Hl1; naive_solver|].
  exists s2. split; [done|]. split; [done|]. intros m x. rewrite Hl2, Hl1. naive_solver.
Qed.

Lemma remove_displaced_ok s (displaced : list (N * H)) : leaves_ok s ->
  exists s', remove_displaced_leaves (E := E) displaced s = (s', Ok tt) /\ leaves_ok s' /\
    forall m x, leaf s' m x <-> leaf s m x /\ (m, x) ∉ displaced.
Proof.
  unfold remove_displaced_leaves. revert s. induction displaced as [|[num h] displaced IH]; intros s Hok; cbn [for_each].
  { exists s. split_and!; [done..|]. intros m x. split; [|by intros [? _]]. intros Hx. split; [done|apply not_elem_of_nil]. }
  unfold bindM at 1 2. destruct (remove_leaf_ok s num h Hok) as (s1 & -> & Hok1 & Hl1). cbn [ret].
  destruct (IH s1 Hok1) as (s' & -> & Hok' & Hl). exists s'. split_and!; [done..|]. intros m x. rewrite Hl, Hl1, not_elem_of_cons. naive_solver.
Qed.

(** ** Taking back *)

Lemma undo_import_ok s h num par : leaves_ok s -> ~ leaf s num h ->
  exists s' outcome s'', leaves_import (E := E) h num par s = (s', Ok outcome) /\ undo_import (E := E) outcome s' = (s'', Ok tt) /\ s'' ≡ s.
Proof.
  intros Hok Hnot. destruct (leaves_import_ok s h num par Hok Hnot) as (s1 & removed & Heq & Hok1 & Hrem & Hl1).
  eexists s1, (mkImportOutcome (mkLeafSetItem h num) removed). rewrite Heq. unfold undo_import, bindM. cbn [io_removed io_inserted li_number li_hash].
  destruct Hrem as [(-> & Hne & Hpar)|[-> Hpar]].
  - unfold lift. rewrite parent_number by done. destruct (insert_leaf_ok s1 (num - 1) par Hok1) as (s2 & -> & Hok2 & Hl2).
    { rewrite Hl1. assert (num - 1 <> num)%N by lia. naive_solver. }
    destruct (remove_leaf_ok s2 num h Hok2) as (s3 & -> & Hok3 & Hl3). eexists. split_and!; [done..|]. apply same_leaves; [done..|].
    intros m x. rewrite Hl3, Hl2, Hl1. assert (num - 1 <> num)%N by lia.
    destruct (decide (m = (num - 1)%N)) as [->|], (decide (x = par)) as [->|]; naive_solver.
  - cbn [ret]. destruct (remove_leaf_ok s1 num h Hok1) as (s3 & -> & Hok3 & Hl3). eexists. split_and!; [done..|]. apply same_leaves; [done..|].
    intros m x. rewrite Hl3, Hl1. split; [naive_solver|]. intros Hx. split; [left; split; [done|]|naive_solver].
    intros (Hne & -> & ->). by apply Hpar.
Qed.

Lemma undo_remove_ok s h num parent_hash : leaves_ok s -> leaf s num h ->
  (forall par, added num parent_hash = Some par -> ~ leaf s (num - 1) par) ->
  exists s' outcome s'', leaves_remove (E := E) h num parent_hash s = (s', Ok (Some outcome)) /\
    undo_remove (E := E) outcome s' = (s'', Ok tt) /\ s'' ≡ s.
Proof.
  intros Hok Hleaf Hadd. destruct (leaves_remove_ok s h num parent_hash Hok Hleaf Hadd) as (s1 & Heq & Hok1 & Hl1).
  eexists s1, (mkRemoveOutcome (added num parent_hash) (mkLeafSetItem h num)). rewrite Heq. unfold undo_remove, bindM. cbn [ro_inserted ro_removed li_number li_hash].
  destruct (added num parent_hash) as [par|] eqn:Ha.
  - assert (num <> 0%N) as Hne by (unfold added in Ha; by destruct (N.eqb_spec num 0)).
    unfold lift. rewrite parent_number by done. destruct (remove_leaf_ok s1 (num - 1) par Hok1) as (s2 & -> & Hok2 & Hl2). cbn [ret].
    assert (num - 1 <> num)%N as Hlt by lia. specialize (Hadd par eq_refl).
    destruct (insert_leaf_ok s2 num h Hok2) as (s3 & -> & Hok3 & Hl3); [rewrite Hl2, Hl1; naive_solver|].
    eexists. split_and!; [done..|]. apply same_leaves; [done..|]. intros m x. rewrite Hl3, Hl2, Hl1.
    destruct (decide (m = num)) as [->|], (decide (x = h)) as [->|]; naive_solver.
  - cbn [ret]. destruct (insert_leaf_ok s1 num h Hok1) as (s3 & -> & Hok3 & Hl3); [rewrite Hl1; naive_solver|].
    eexists. split_and!; [done..|]. apply same_leaves; [done..|]. intros m x. rewrite Hl3, Hl1.
    destruct (decide (m = num)) as [->|], (decide (x = h)) as [->|]; naive_solver.
Qed.

Lemma undo_finalization_ok s (displaced : list (N * H)) : leaves_ok s -> NoDup displaced -> (forall num h, (num, h) ∈ displaced -> ~ leaf s num h) ->
  exists s', undo_finalization (E := E) displaced s = (s', Ok tt) /\ leaves_ok s' /\
    forall m x, leaf s' m x <-> leaf s m x \/ (m, x) ∈ displaced.
Proof.
  unfold undo_finalization. revert s. induction displaced as [|[num h] displaced IH]; intros s Hok Hnd Hnot; cbn [for_each].
  { exists s. split_and!; [done..|]. intros m x. split; [by left|]. by intros [?|?%elem_of_nil]. }
  apply NoDup_cons in Hnd as [Hni Hnd]. unfold bindM. destruct (insert_leaf_ok s num h Hok) as (s1 & -> & Hok1 & Hl1); [apply Hnot; by left|].
  destruct (IH s1 Hok1 Hnd) as (s' & -> & Hok' & Hl).
  { intros m x Hin. rewrite Hl1. intros [Hx|[-> ->]]; [|done]. apply (Hnot m x); [by right|done]. }
  exists s'. split_and!; [done..|]. intros m x. rewrite Hl, Hl1, elem_of_cons. naive_solver.
Qed.

(** ** The order of the leaves *)

Lemma elem_of_levels s num l : (num, l) ∈ levels s <-> storage s !! num = Some l.
Proof. unfold levels. by rewrite sort_by_perm, elem_of_map_to_list. Qed.

Lemma levels_NoDup s : NoDup (map fst (levels s)).
Proof. unfold levels. rewrite sort_by_perm. apply NoDup_fst_map_to_list. Qed.

Lemma levels_sorted s : StronglySorted (fun x y : N * list H => (y.1 <= x.1)%N) (levels s).
Proof.
  apply Sorted_StronglySorted; [intros x y z; lia|].
  eapply Sorted_ind; [constructor| |apply (sort_by_sorted (fun x y : N * list H => (y.1 <=? x.1)%N))].
  - intros x l _ IH Hhd. constructor; [done|]. destruct Hhd as [|y l' Hy]; constructor. by apply N.leb_le.
  - intros x y. rewrite N.leb_gt, N.leb_le. lia.
Qed.

Lemma elem_of_items s num h : (h, num) ∈ leaf_items s <-> leaf s num h.
Proof.
  unfold leaf_items, leaf, level. rewrite list_elem_of_In, in_flat_map. setoid_rewrite <-list_elem_of_In. split.
  - intros ([n l] & Hin%elem_of_levels & (x & [= -> ->] & Hx)%list_elem_of_fmap). by rewrite Hin.
  - destruct (storage s !! num) as [l|] eqn:Hl; simpl; [|by intros ?%elem_of_nil]. intros Hx. exists (num, l).
    split; [by apply elem_of_levels|]. by apply (list_elem_of_fmap_2 (fun h => (h, num))).
Qed.

Lemma items_sorted s : StronglySorted (fun x y : H * N => (y.2 <= x.2)%N) (leaf_items s).
Proof.
  unfold leaf_items. induction (levels_sorted s) as [|[n l] ls Hls IH Hall]; simpl; [constructor|].
  rewrite Forall_forall in Hall.
  assert (forall y, y ∈ flat_map (fun '(num, hashes) => map (fun h => (h, num)) hashes) ls -> (y.2 <= n)%N) as Hle.
  { intros y. rewrite list_elem_of_In, in_flat_map. intros ([n' l'] & Hin & Hy). rewrite <-list_elem_of_In in Hin. rewrite <-list_elem_of_In in Hy.
    apply list_elem_of_fmap in Hy as (x & -> & _). by apply (Hall _ Hin). }
  clear Hall. induction l as [|h l IHl]; simpl; [done|]. constructor; [done|]. apply Forall_forall. intros y [Hy|Hy]%elem_of_app; [|by apply Hle].
  by apply list_elem_of_fmap in Hy as (x & -> & _).
Qed.

Lemma items_NoDup s : leaves_ok s -> NoDup (leaf_items s).
Proof.
  intros Hok. unfold leaf_items. assert (forall n l, (n, l) ∈ levels s -> NoDup l) as Hnd by (intros n l Hin%elem_of_levels; by apply (Hok n)).
  pose proof (levels_NoDup s) as Hkeys. induction (levels s) as [|[n l] ls IH]; simpl; [constructor|].
  simpl in Hkeys. apply NoDup_cons in Hkeys as [Hn Hkeys]. apply NoDup_app. split_and!.
  - apply NoDup_fmap_2; [by intros ? ? [= ->]|]. apply (Hnd n). by left.
  - intros [h m] (x & [= -> ->] & _)%list_elem_of_fmap Hin. rewrite list_elem_of_In, in_flat_map in Hin.
    destruct Hin as ([n' l'] & Hin & Hy). rewrite <-list_elem_of_In in Hin. rewrite <-list_elem_of_In in Hy. apply list_elem_of_fmap in Hy as (y & [= -> ->] & _).
    apply Hn. by apply (list_elem_of_fmap_2 fst) in Hin.
  - apply IH; [|done]. intros n' l' Hin. apply (Hnd n'). by right.
Qed.

Lemma hashes_items s : leaf_hashes s = map fst (leaf_items s).
Proof.
  unfold leaf_hashes, leaf_items. induction (levels s) as [|[n l] ls IH]; simpl; [done|]. rewrite map_app, map_map, map_id. by f_equal.
Qed.

Lemma count_items s : leaves_count s = length (leaf_items s).
Proof.
  unfold leaves_count, leaf_items. induction (levels s) as [|[n l] ls IH]; simpl; [done|]. by rewrite length_app, length_map, IH.
Qed.

Lemma highest_ok s : leaves_ok s ->
  match highest_leaf s with
  | Some (num, l) => l = level s num /\ l <> [] /\ forall m x, leaf s m x -> (m <= num)%N
  | None => forall m x, ~ leaf s m x
  end.
Proof.
  intros Hok. unfold highest_leaf. pose proof (levels_sorted s) as Hs. destruct (levels s) as [|[num l] ls] eqn:Hl; simpl.
  - intros m x. rewrite <-elem_of_items. unfold leaf_items. rewrite Hl. by intros ?%elem_of_nil.
  - assert (storage s !! num = Some l) as Hlk by (apply elem_of_levels; rewrite Hl; by left). unfold level. rewrite Hlk.
    split_and!; [done|by apply (Hok num)|]. intros m x. unfold leaf, level. destruct (storage s !! m) as [l'|] eqn:Hm; [|by intros ?%elem_of_nil].
    intros _. apply elem_of_levels in Hm. rewrite Hl in Hm. apply StronglySorted_inv in Hs as [_ Hs].
    apply elem_of_cons in Hm as [[= -> ->]|Hm]; [done|]. rewrite Forall_forall in Hs. by apply (Hs (m, l')).
Qed.

(** ** Reverting *)

Lemma revert_loop s best (items : list (H * N)) : leaves_ok s -> NoDup items -> (forall h num, (h, num) ∈ items -> leaf s num h) ->
  exists s', for_each (fun '(h, num) =>
      if (best <? num)%N then let* removed := remove_leaf (E := E) num h in if removed then ret tt else lift Panic else ret tt) items s = (s', Ok tt) /\
    leaves_ok s' /\ forall m x, leaf s' m x <-> leaf s m x /\ ~ ((x, m) ∈ items /\ (best < m)%N).
Proof.
  revert s. induction items as [|[h num] items IH]; intros s Hok Hnd Hin; cbn [for_each].
  { exists s. split_and!; [done..|]. intros m x. split; [|by intros [? _]]. intros Hx. split; [done|]. by intros [?%elem_of_nil _]. }
  apply NoDup_cons in Hnd as [Hni Hnd]. unfold bindM at 1. destruct (N.ltb_spec best num) as [Hlt|Hge].
  - unfold bindM at 1. destruct (remove_leaf_ok s num h Hok) as (s1 & -> & Hok1 & Hl1).
    rewrite (proj2 (contains_leaf s num h)) by (apply Hin; by left). cbn [ret].
    destruct (IH s1 Hok1 Hnd) as (s' & -> & Hok' & Hl).
    { intros x m Hx. rewrite Hl1. split; [apply Hin; by right|]. by intros [-> ->]. }
    exists s'. split_and!; [done..|]. intros m x. rewrite Hl, Hl1, elem_of_cons. naive_solver.
  - cbn [ret]. destruct (IH s Hok Hnd) as (s' & -> & Hok' & Hl); [intros x m Hx; apply Hin; by right|].
    exists s'. split_and!; [done..|]. intros m x. rewrite Hl, elem_of_cons. split; [|naive_solver].
    intros [Hx Hnot]. split; [done|]. intros [[[= -> ->]|Hi] Hlt]; [lia|naive_solver].
Qed.

Lemma leaves_revert_ok s best_hash best : leaves_ok s ->
  exists s', leaves_revert (E := E) best_hash best s = (s', Ok (List.filter (fun '(_, num) => (best <? num)%N) (leaf_items s))) /\ leaves_ok s' /\
    forall m x, leaf s' m x <-> leaf s m x /\ (m <= best)%N \/ m = best /\ x = best_hash.
Proof.
  intros Hok. unfold leaves_revert. rewrite bindM_get.
  destruct (revert_loop s best (leaf_items s) Hok (items_NoDup s Hok)) as (s1 & Heq & Hok1 & Hl1); [intros h num; apply elem_of_items|].
  rewrite (bindM_ok _ _ _ _ _ Heq), bindM_get.
  assert (forall m x, leaf s1 m x <-> leaf s m x /\ (m <= best)%N) as Hl.
  { intros m x. rewrite Hl1, elem_of_items. rewrite <-N.nlt_ge. naive_solver. }
  destruct (leaves_contains best best_hash s1) eqn:Hc.
  - apply contains_leaf in Hc. exists s1. split_and!; [done..|]. intros m x. rewrite <-Hl. naive_solver.
  - apply contains_not_leaf in Hc. destruct (insert_leaf_ok s1 best best_hash Hok1 Hc) as (s2 & Heq2 & Hok2 & Hl2).
    rewrite (bindM_ok _ _ _ _ _ Heq2). exists s2. split_and!; [done..|]. intros m x. by rewrite Hl2, Hl.
Qed.
End sets.

(** ** The tree whose leaves they are *)

Section tree.
Context {P : Profile} {H : Type} `{Countable H} {E : Type}.
Implicit Types (s : LeafSet H) (h x par : H) (num m : N).

(** The blocks of the tree, with their numbers and parents. *)
Notation blocks := (gmap H (N * H)).
Implicit Types b : blocks.

Definition child_of b par x : Prop := exists m, b !! x = Some (m, par) /\ m <> 0%N.

Definition childless b num h : Prop := (exists par, b !! h = Some (num, par)) /\ forall x, ~ child_of b h x.

(** Parents that are in the tree have the number before. *)
Definition numbered b : Prop := forall x m par np gp, b !! x = Some (m, par) -> m <> 0%N -> b !! par = Some (np, gp) -> np = (m - 1)%N.

(** A new block is imported before its children. *)
Definition importable b h num par : Prop :=
  b !! h = None /\ (forall x, ~ child_of b h x) /\
  (num <> 0%N -> par <> h /\ forall np gp, b !! par = Some (np, gp) -> np = (num - 1)%N).

(** A leaf is removed; its parent is named if it is in the tree and has no other child. *)
Definition removable b h num par (parent_hash : option H) : Prop :=
  b !! h = Some (num, par) /\ (forall x, ~ child_of b h x) /\
  (num <> 0%N -> match parent_hash with
     | Some p => p = par /\ is_Some (b !! par) /\ forall x, child_of b par x -> x = h
     | None => b !! par = None \/ exists x, child_of b par x /\ x <> h
     end).

(** Branches are displaced as a whole: the descendants of a block with it, and not the only branch that goes on
    from a block that stays. *)
Record displaceable b (gone : gset H) (displaced : list (N * H)) : Prop := {
  di_leaves : forall num h, (num, h) ∈ displaced <-> childless b num h /\ h ∈ gone;
  di_below : forall par x, child_of b par x -> par ∈ gone -> x ∈ gone;
  di_kept : forall par x, is_Some (b !! par) -> par ∉ gone -> child_of b par x -> exists y, child_of b par y /\ y ∉ gone
}.

Definition without (gone : gset H) b : blocks := filter (fun '(h, _) => h ∉ gone) b.

(** The trees and leaf sets that calls lead to. *)
Inductive tracked : blocks -> LeafSet H -> Prop :=
| tracked_new : tracked ∅ leaf_set_new
| tracked_import b s h num par s' o : tracked b s -> importable b h num par ->
    leaves_import (E := E) h num par s = (s', o) -> tracked (<[h := (num, par)]> b) s'
| tracked_remove b s h num par parent_hash s' o : tracked b s -> removable b h num par parent_hash ->
    leaves_remove (E := E) h num parent_hash s = (s', o) -> tracked (delete h b) s'
| tracked_displaced b s gone displaced s' o : tracked b s -> displaceable b gone displaced ->
    remove_displaced_leaves (E := E) displaced s = (s', o) -> tracked (without gone b) s'.

Definition tracks b s : Prop := leaves_ok s /\ numbered b /\ forall num h, leaf s num h <-> childless b num h.

Lemma child_insert b h num par p x : child_of (<[h := (num, par)]> b) p x <-> x = h /\ p = par /\ num <> 0%N \/ x <> h /\ child_of b p x.
Proof.
  unfold child_of. destruct (decide (x = h)) as [->|Hne].
  - rewrite lookup_insert_eq. naive_solver.
  - rewrite lookup_insert_ne by done. naive_solver.
Qed.

Lemma tracks_import b s h num par : tracks b s -> importable b h num par ->
  exists s' out, leaves_import (E := E) h num par s = (s', Ok out) /\ tracks (<[h := (num, par)]> b) s'.
Proof.
  intros (Hok & Hnum & Hl) (Hnew & Hnc & Hpar).
  destruct (leaves_import_ok (E := E) s h num par Hok) as (s' & removed & Heq & Hok' & _ & Hl'); [rewrite Hl; intros [[p Hp] _]; congruence|].
  eexists s', _. split; [done|]. split_and!; [done| |].
  - intros x m p np gp. rewrite !lookup_insert. destruct (decide (h = x)) as [<-|Hx]; [intros [= <- <-] Hm|intros Hx' Hm];
      (destruct (decide (h = _)) as [<-|Hp]; [intros [= <- <-]|intros Hp']).
    + by destruct (Hpar Hm).
    + destruct (Hpar Hm) as [_ Hn]. by apply (Hn np gp).
    + destruct (Hnc x). by exists m.
    + by eapply (Hnum x m).
  - intros m x. rewrite Hl', Hl. unfold childless. setoid_rewrite child_insert. destruct (decide (x = h)) as [->|Hne].
    + rewrite lookup_insert_eq. split; [|intros [[p [= -> ->]] _]; by right]. intros [[[[p Hp] _] _]|[-> _]]; [congruence|].
      split; [by exists par|]. intros y [(-> & -> & Hz)|[_ Hc]]; [by destruct (Hpar Hz)|by apply (Hnc y)].
    + rewrite lookup_insert_ne by done. split.
      * intros [[[Hx Hc] Hnot]|[_ ?]]; [|done]. split; [done|]. intros y [(-> & -> & Hz)|[_ Hy]]; [|by apply (Hc y)].
        destruct Hx as [p Hx]. destruct (Hpar Hz) as [_ Hn]. apply Hnot. split_and!; [done|by eapply Hn|done].
      * intros [Hx Hc]. left. split; [split; [done|]|].
        -- intros y Hy. apply (Hc y). right. split; [|done]. intros ->. destruct Hy as (k & Hk & _). congruence.
        -- intros (Hz & _ & ->). apply (Hc h). by left.
Qed.

Lemma child_delete b h p x : child_of (delete h b) p x <-> x <> h /\ child_of b p x.
Proof.
  unfold child_of. destruct (decide (x = h)) as [->|Hne].
  - rewrite lookup_delete_eq. naive_solver.
  - rewrite lookup_delete_ne by done. naive_solver.
Qed.

Lemma tracks_remove b s h num par parent_hash : tracks b s -> removable b h num par parent_hash ->
  exists s' out, leaves_remove (E := E) h num parent_hash s = (s', Ok (Some out)) /\ tracks (delete h b) s'.
Proof.
  intros (Hok & Hnum & Hl) (Hh & Hnc & Harg).
  assert (forall p, added num parent_hash = Some p -> p = par /\ child_of b par h /\ is_Some (b !! par) /\ forall x, child_of b par x -> x = h) as Hadd.
  { unfold added. intros p Hp. destruct (N.eqb_spec num 0) as [|Hz]; [done|]. rewrite Hp in Harg. destruct (Harg Hz) as (-> & ? & ?).
    split_and!; [done|by exists num|done..]. }
  destruct (leaves_remove_ok (E := E) s h num parent_hash Hok) as (s' & Heq & Hok' & Hl').
  { rewrite Hl. split; [by exists par|done]. }
  { intros p Hp. destruct (Hadd p Hp) as (-> & Hc & _). rewrite Hl. intros [_ Hno]. by apply (Hno h). }
  eexists s', _. split; [done|]. split_and!; [done| |].
  - intros x m p np gp [_ Hx]%lookup_delete_Some Hm [_ Hp]%lookup_delete_Some. by eapply (Hnum x m p).
  - intros m x. rewrite Hl', Hl. unfold childless. setoid_rewrite child_delete. split.
    + intros [[[[p Hp] Hc] Hne]|[-> Hp]].
      * assert (x <> h) as Hxh by (intros ->; apply Hne; split; [congruence|done]).
        split; [exists p; by rewrite lookup_delete_ne|]. intros y [_ Hy]. by apply (Hc y).
      * destruct (Hadd x Hp) as (-> & (k & Hk & Hkz) & [[np gp] Hpar] & Honly). rewrite Hh in Hk. injection Hk as <-.
        assert (par <> h) as Hph by (intros ->; by apply (Hnc h); exists num). pose proof (Hnum _ _ _ _ _ Hh Hkz Hpar) as ->.
        split; [exists gp; by rewrite lookup_delete_ne|]. intros y [Hy Hyc]. by apply Hy, Honly.
    + intros [[p [Hxh Hp]%lookup_delete_Some] Hc]. destruct (decide (par = x /\ num <> 0%N)) as [[<- Hkz]|Hch].
      * right. specialize (Harg Hkz).
        split; [by eapply Hnum|]. unfold added. rewrite (proj2 (N.eqb_neq _ _) Hkz). destruct parent_hash as [p'|]; [by destruct Harg as [-> _]|].
        destruct Harg as [Hn|(y & Hy & Hyh)]; [congruence|]. by destruct (Hc y).
      * left. split; [|naive_solver]. split; [by exists p|]. intros y Hy. apply (Hc y). split; [|done]. intros ->.
        destruct Hy as (k & Hk & Hkz). rewrite Hh in Hk. injection Hk as <- ->. by apply Hch.
Qed.

Lemma without_lookup gone b x v : without gone b !! x = Some v <-> b !! x = Some v /\ x ∉ gone.
Proof. unfold without. by rewrite map_lookup_filter_Some. Qed.

Lemma child_without gone b p x : child_of (without gone b) p x <-> child_of b p x /\ x ∉ gone.
Proof. unfold child_of. setoid_rewrite without_lookup. naive_solver. Qed.

Lemma tracks_displaced b s gone displaced : tracks b s -> displaceable b gone displaced ->
  exists s', remove_displaced_leaves (E := E) displaced s = (s', Ok tt) /\ tracks (without gone b) s'.
Proof.
  intros (Hok & Hnum & Hl) [Hd Hbelow Hkept]. destruct (remove_displaced_ok (E := E) s displaced Hok) as (s' & Heq & Hok' & Hl').
  exists s'. split; [done|]. split_and!; [done| |].
  - intros x m p np gp [Hx _]%without_lookup Hm [Hp _]%without_lookup. by eapply (Hnum x m p).
  - intros m x. rewrite Hl', Hl, Hd. unfold childless at 3. setoid_rewrite without_lookup. setoid_rewrite child_without. split.
    + intros [Hx Hnot]. assert (x ∉ gone) as Hg by naive_solver. destruct Hx as [[p Hp] Hc]. split; [by exists p|]. intros y [Hy _]. by apply (Hc y).
    + intros [(p & Hp & Hg) Hc]. split; [|naive_solver]. split; [by exists p|]. intros y Hy.
      destruct (Hkept x y) as (z & Hz & Hzg); [by eexists|done|done|]. by apply (Hc z).
Qed.

Lemma tracked_ok b s : tracked b s -> tracks b s.
Proof.
  induction 1 as [|b s h num par s' o _ IH Hi Heq|b s h num par arg s' o _ IH Hr Heq|b s gone displaced s' o _ IH Hd Heq].
  - destruct (new_leaves (H := H)) as [Hok Hno]. split_and!; [done|intros x m p np gp; by rewrite lookup_empty|].
    intros num h. split; [by intros ?%Hno|]. intros [[p Hp] _]. by rewrite lookup_empty in Hp.
  - destruct (tracks_import b s h num par IH Hi) as (s2 & out & Heq' & Ht). rewrite Heq' in Heq. by injection Heq as <- _.
  - destruct (tracks_remove b s h num par arg IH Hr) as (s2 & out & Heq' & Ht). rewrite Heq' in Heq. by injection Heq as <- _.
  - destruct (tracks_displaced b s gone displaced IH Hd) as (s2 & Heq' & Ht). rewrite Heq' in Heq. by injection Heq as <- _.
Qed.

Definition number_of b h : N := from_option fst 0%N (b !! h).

Lemma hashes_sorted b s : tracks b s -> StronglySorted (fun x y => (number_of b y <= number_of b x)%N) (leaf_hashes s).
Proof.
  intros (_ & _ & Hl). rewrite hashes_items.
  assert (forall h num, (h, num) ∈ leaf_items s -> number_of b h = num) as Hn.
  { intros h num Hin%elem_of_items%Hl. destruct Hin as [[par Hp] _]. unfold number_of. by rewrite Hp. }
  induction (items_sorted s) as [|[h num] l Hs IH Hall]; simpl; [constructor|]. constructor.
  - apply IH. intros x m Hin. apply Hn. by right.
  - rewrite Forall_forall in Hall. apply Forall_forall. intros y ([x m] & -> & Hin)%list_elem_of_fmap. simpl.
    rewrite (Hn x m), (Hn h num) by (by constructor). by apply (Hall (x, m)).
Qed.

(** C25: the leaf set holds the leaves of the tree.  Whatever blocks are imported before their children, removed as
    leaves, or displaced branch by branch, every call returns, the set contains exactly the blocks without a child,
    [hashes] lists each of them once and the highest first, [count] is their number, and [highest_leaf] names the
    greatest number of a leaf and all leaves with it. *)
Theorem leaf_set_refines b s : tracked b s ->
  (forall num h, leaves_contains num h s = true <-> childless b num h) /\
  (forall h, h ∈ leaf_hashes s <-> exists num, childless b num h) /\ NoDup (leaf_hashes s) /\ leaves_count s = length (leaf_hashes s) /\
  StronglySorted (fun x y => (number_of b y <= number_of b x)%N) (leaf_hashes s) /\
  match highest_leaf s with
  | Some (num, l) => l <> [] /\ (forall h, h ∈ l <-> childless b num h) /\ forall m x, childless b m x -> (m <= num)%N
  | None => forall m x, ~ childless b m x
  end /\
  (forall h num par, importable b h num par -> exists s' out, leaves_import (E := E) h num par s = (s', Ok out)) /\
  (forall h num par arg, removable b h num par arg -> exists s' out, leaves_remove (E := E) h num arg s = (s', Ok (Some out))) /\
  (forall displaced, exists s', remove_displaced_leaves (E := E) displaced s = (s', Ok tt)).
Proof.
  intros Hb. pose proof (tracked_ok b s Hb) as Ht. pose proof Ht as (Hok & Hnum & Hl). split_and!.
  - intros num h. by rewrite contains_leaf, Hl.
  - intros h. rewrite hashes_items. setoid_rewrite <-Hl. setoid_rewrite <-elem_of_items. rewrite list_elem_of_fmap. split.
    + intros ([h' num] & -> & Hin). by exists num.
    + intros [num Hin]. by exists (h, num).
  - rewrite hashes_items. apply NoDup_fmap_fst; [|by apply items_NoDup]. intros h m m'. rewrite !elem_of_items, !Hl.
    intros [[p Hp] _] [[p' Hp'] _]. congruence.
  - by rewrite hashes_items, length_map, count_items.
  - by apply hashes_sorted.
  - pose proof (highest_ok s Hok) as Hh. destruct (highest_leaf s) as [[num l]|]; [|by setoid_rewrite <-Hl].
    destruct Hh as (-> & Hne & Hmax). split_and!; [done|intros h; apply Hl|]. intros m x Hx. apply (Hmax m x). by apply Hl.
  - intros h num par Hi. destruct (tracks_import b s h num par Ht Hi) as (s' & out & ? & _). by exists s', out.
  - intros h num par arg Hr. destruct (tracks_remove b s h num par arg Ht Hr) as (s' & out & ? & _). by exists s', out.
  - intros displaced. destruct (remove_displaced_ok (E := E) s displaced Hok) as (s' & ? & _). by exists s'.
Qed.

(** C37: what was done to the leaf set can be taken back.  Undoing an import, a removal or a finalization leaves a set
    with the leaves there were before the call; no call panics. *)
Theorem undo_correct b s : tracked b s ->
  (forall h num par, importable b h num par ->
     exists s' outcome s'', leaves_import (E := E) h num par s = (s', Ok outcome) /\ undo_import (E := E) outcome s' = (s'', Ok tt) /\ s'' ≡ s) /\
  (forall h num par arg, removable b h num par arg ->
     exists s' outcome s'', leaves_remove (E := E) h num arg s = (s', Ok (Some outcome)) /\ undo_remove (E := E) outcome s' = (s'', Ok tt) /\ s'' ≡ s) /\
  (forall gone displaced, displaceable b gone displaced -> NoDup displaced ->
     exists s' s'', remove_displaced_leaves (E := E) displaced s = (s', Ok tt) /\ undo_finalization (E := E) displaced s' = (s'', Ok tt) /\ s'' ≡ s).
Proof.
  intros Hb. pose proof (tracked_ok b s Hb) as (Hok & Hnum & Hl). split_and!.
  - intros h num par (Hnew & _). apply undo_import_ok; [done|]. rewrite Hl. intros [[p Hp] _]. congruence.
  - intros h num par arg (Hh & Hnc & Harg). apply undo_remove_ok; [done|rewrite Hl; split; [by exists par|done]|].
    unfold added. intros p Hp. destruct (N.eqb_spec num 0) as [|Hz]; [done|]. subst arg. destruct (Harg Hz) as (-> & _). rewrite Hl.
    intros [_ Hno]. apply (Hno h). by exists num.
  - intros gone displaced [Hd _ _] Hnd. destruct (remove_displaced_ok (E := E) s displaced Hok) as (s1 & -> & Hok1 & Hl1).
    destruct (undo_finalization_ok (E := E) s1 displaced Hok1 Hnd) as (s2 & Heq & Hok2 & Hl2); [intros num h Hin; rewrite Hl1; naive_solver|].
    exists s1, s2. split_and!; [done..|]. apply same_leaves; [done..|]. intros m x. rewrite Hl2, Hl1.
    split; [|destruct (decide ((m, x) ∈ displaced)); naive_solver]. intros [[? _]|Hin]; [done|]. apply Hl, Hd, Hin.
Qed.
End tree.

(** ** The database *)

Section database.
Context {H Bytes : Type} `{!EqDecision H}.

Lemma foldl_insert_map {V} (m : gmap N V) (l : list (N * V)) : NoDup (map fst l) ->
  foldl (fun m '(num, v) => <[num := v]> m) m l = list_to_map l ∪ m.
Proof.
  revert m. induction l as [|[num v] l IH]; intros m; simpl; [by rewrite (left_id_L ∅ (∪))|]. intros [Hn Hnd]%NoDup_cons.
  rewrite IH, <-insert_union_l, insert_union_r by (done || by apply not_elem_of_list_to_map_1). done.
Qed.

(** What was written is read again, in a database that returns what it was given. *)
Lemma stored_leaves_ok (encode : list (N * list H) -> Bytes) decode (s : LeafSet H) : (forall vals, decode (encode vals) = Some vals) ->
  read_from_db decode (Some (prepare_transaction encode s)) = Ok s.
Proof.
  intros Hcodec. unfold read_from_db, prepare_transaction. rewrite Hcodec, foldl_insert_map by apply levels_NoDup.
  rewrite (right_id_L ∅ (∪)). do 2 f_equal. destruct s as [m]. simpl. f_equal.
  rewrite <-(list_to_map_to_list m) at 2. apply list_to_map_proper; [apply levels_NoDup|]. apply sort_by_perm.
Qed.
End database.
