(* ===== verification/BlockBackend.v ===== *)
(** * Forks of the block tree

    Model of the methods that [substrate/primitives/blockchain/src/backend.rs] gives every backend: which
    leaves and blocks are displaced when a block is finalized, the longest chain that contains a block, and the
    blocks of forks.  The leaves, the genesis block and the finalized block are what the database answers;
    [le] is the order of hashes. The last definition is the part of the finalization in [substrate/client/db/src/lib.rs]
    that drops the displaced leaves. *)

From S2P Require Import Prelude BlockTree Leaves.

Record MinimalBlockMetadata (H : Type) : Type := mkMinimal {
  mb_number : N;
  mb_hash : H;
  mb_parent : H
}.
Arguments mkMinimal {H} _ _ _.
Arguments mb_number {H} _.
Arguments mb_hash {H} _.
Arguments mb_parent {H} _.

(** [From<&CachedHeaderMetadata> for MinimalBlockMetadata] *)
Definition minimal_of {H} (m : CachedHeaderMetadata H) : MinimalBlockMetadata H :=
  mkMinimal (md_number m) (md_hash m) (md_parent m).

Record DisplacedLeavesAfterFinalization (H : Type) : Type := mkDisplaced {
  displaced_leaves : list (N * H);
  displaced_blocks : list H
}.
Arguments mkDisplaced {H} _ _.
Arguments displaced_leaves {H} _.
Arguments displaced_blocks {H} _.

(** [Vec::dedup] *)
Fixpoint dedup {H} `{!EqDecision H} (l : list H) : list H :=
  match l with
  | [] => []
  | x :: l' =>
      match dedup l' with
      | y :: k => if decide (x = y) then y :: k else x :: y :: k
      | [] => [x]
      end
  end.

(** What a walk down from a leaf finds: the leaf is an ancestor of the finalized block, it is on a branch of
    its own, or there are blocks missing. *)
Inductive Verdict (H : Type) : Type :=
| FinalizedAncestor
| DisplacedBranch (blocks : list H)
| AncestryGap.
Arguments FinalizedAncestor {H}.
Arguments DisplacedBranch {H} blocks.
Arguments AncestryGap {H}.

Section model.
Context {P : Profile} {H E C : Type} `{LruMap H (CachedHeaderMetadata H) C}.
Context (header : H -> E + option (Header H)) (leaves : E + list H) (genesis_hash : H) (le : H -> H -> bool).
Notation minimal := (MinimalBlockMetadata H).
Notation error := (BlockchainError H E).

(** ** [displaced_leaves_after_finalizing] *)

(** A round of the loop that goes down to the number of the finalized block. *)
Definition collect (finalized_number : N) (st : minimal * list H * gmap H minimal)
  : M C error (control (minimal * list H * gmap H minimal) (minimal * list H * gmap H minimal)) :=
  let '(current, candidates, local_cache) := st in
  if (finalized_number <? mb_number current)%N then
    let candidates := candidates ++ [mb_hash current] in
    let parent_hash := mb_parent current in
    match local_cache !! parent_hash with
    | Some m => ret (Continue (m, candidates, local_cache))
    | None =>
        let* m := header_metadata header parent_hash in
        ret (Continue (minimal_of m, candidates, <[parent_hash := minimal_of m]> local_cache))
    end
  else ret (Break st).

(** The block at a distance from the finalized one, from the chain that was read so far (the
    finalized block is the last one of it) or from the database. *)
Definition finalized_block_at (distance : N) (chain : list minimal) : M C error (option (minimal * list minimal)) :=
  match rev chain !! N.to_nat distance with
  | Some m => ret (Some (m, chain))
  | None =>
      let* to_fetch := lift (expect (head chain)) in
      let* res := caught (header_metadata header (mb_parent to_fetch)) in
      match res with
      | inr m => ret (Some (minimal_of m, minimal_of m :: chain))
      | inl (UnknownBlock _) => ret None
      | inl e => throw e
      end
  end.

(** A round of the loop over the distances; the range computes the next one before it returns one. *)
Definition search_chain (st : N * minimal * list H * list minimal)
  : M C error (control (N * minimal * list H * list minimal) (Verdict H * list minimal)) :=
  let '(distance, current, candidates, chain) := st in
  let* next := lift (add_u32 distance 1) in
  let* found := finalized_block_at distance chain in
  match found with
  | None => ret (Break (AncestryGap, chain))
  | Some (block, chain) =>
      if decide (mb_hash current = mb_hash block) then ret (Break (FinalizedAncestor, chain))
      else if (mb_number current <=? mb_number block)%N then ret (Continue (next, current, candidates, chain))
      else
        let parent_hash := mb_parent current in
        if decide (mb_hash block = parent_hash) then ret (Break (DisplacedBranch candidates, chain))
        else
          let* m := header_metadata header parent_hash in
          ret (Continue (next, minimal_of m, candidates ++ [parent_hash], chain))
  end.

(** What is kept from leaf to leaf. *)
Record Progress : Type := mkProgress {
  finalized_chain : list minimal;
  local_cache : gmap H minimal;
  so_far : DisplacedLeavesAfterFinalization H
}.

Definition add_leaf (number : N) (leaf : H) (blocks : list H) (r : DisplacedLeavesAfterFinalization H) : DisplacedLeavesAfterFinalization H :=
  mkDisplaced (displaced_leaves r ++ [(number, leaf)]) (displaced_blocks r ++ blocks).

(** The body of the loop over the leaves. *)
Definition handle_leaf (finalized_hash : H) (finalized_number : N) (leaf : H) (p : Progress) : M C error Progress :=
  let* m := header_metadata header leaf in
  let current := minimal_of m in
  let leaf_number := mb_number current in
  if decide (leaf = genesis_hash)
  then ret (mkProgress (finalized_chain p) (local_cache p) (add_leaf leaf_number leaf [] (so_far p)))
  else
  let* '(current, candidates, cache) :=
    loopM (S (N.to_nat leaf_number)) (collect finalized_number) (current, [], local_cache p) in
  if decide (mb_hash current = finalized_hash) then ret (mkProgress (finalized_chain p) cache (so_far p))
  else
  let candidates := candidates ++ [mb_hash current] in
  let* '(verdict, chain) :=
    loopM (S (N.to_nat finalized_number)) search_chain (1%N, current, candidates, finalized_chain p) in
  ret (mkProgress chain cache
    match verdict with
    | FinalizedAncestor => add_leaf leaf_number leaf [] (so_far p)
    | DisplacedBranch blocks => add_leaf leaf_number leaf blocks (so_far p)
    | AncestryGap => so_far p
    end).

Definition displaced_leaves_after_finalizing (finalized_hash : H) (finalized_number : N) (finalized_parent : H)
  : M C error (DisplacedLeavesAfterFinalization H) :=
  if (finalized_number =? 0)%N then ret (mkDisplaced [] []) else
  let* ls := match leaves with inl e => throw (Backend e) | inr ls => ret ls end in
  let start := mkProgress [mkMinimal finalized_number finalized_hash finalized_parent] ∅ (mkDisplaced [] []) in
  let* p := for_fold (handle_leaf finalized_hash finalized_number) ls start in
  ret (mkDisplaced (displaced_leaves (so_far p)) (dedup (sort_by le (displaced_blocks (so_far p))))).

(** [DisplacedLeavesAfterFinalization::hashes] *)
Definition displaced_hashes (r : DisplacedLeavesAfterFinalization H) : list H := map snd (displaced_leaves r).

(** ** [longest_containing] *)

(** A round of the walk down from a leaf: whether it comes to the base. *)
Definition walk_down (base : H) (base_number : N) (current : H) : outcome error (control H bool) :=
  if decide (current = base) then Ok (Break true) else
  match header current with
  | inl e => Err (Backend e)
  | inr None => Err (MissingHeader current)
  | inr (Some hd) => if (hd_number hd <? base_number)%N then Ok (Break false) else Ok (Continue (hd_parent_hash hd))
  end.

(** Every round of a walk goes to a smaller number. *)
Definition walk_fuel (leaf : H) : nat :=
  match header leaf with inr (Some hd) => S (S (N.to_nat (hd_number hd))) | _ => 1 end.

Fixpoint first_containing (base : H) (base_number : N) (ls : list H) : outcome error (option H) :=
  match ls with
  | [] => Ok None
  | leaf :: ls' =>
      let! found := loop (walk_fuel leaf) (walk_down base base_number) leaf in
      if (found : bool) then Ok (Some leaf) else first_containing base base_number ls'
  end.

Definition longest_containing (finalized_number : N) (base : H) : outcome error (option H) :=
  match header base with
  | inl e => Err (Backend e)
  | inr None => Ok None
  | inr (Some base_header) =>
      if (hd_number base_header <? finalized_number)%N then Ok None else
      match leaves with
      | inl e => Err (Backend e)
      | inr ls => first_containing base (hd_number base_header) ls
      end
  end.

(** ** [expand_forks] *)

(** The body of the loop; a route that cannot be computed is skipped. *)
Definition expand_fork (finalized_hash fork_head : H) (expanded_forks : gset H) : M C error (gset H) :=
  let* res := caught (E := error) (tree_route header fork_head finalized_hash) in
  match res with
  | inr r => let* blocks := lift (retracted r) in ret (foldl (fun s b => {[hn_hash b]} ∪ s) expanded_forks blocks)
  | inl _ => ret expanded_forks
  end.

Definition expand_forks (finalized_hash : H) (fork_heads : list H) : M C error (gset H) :=
  for_fold (expand_fork finalized_hash) fork_heads ∅.
End model.

(** ** Finalization *)

(** The part of [Backend::note_finalized] that removes displaced leaves: the metadata cache and the leaf set
    are the state, and the leaves are those of the set. *)
Definition drop_displaced_leaves {P : Profile} {H E C : Type} `{LruMap H (CachedHeaderMetadata H) C}
    (header : H -> E + option (Header H)) (genesis_hash : H) (le : H -> H -> bool) (f_hash : H) (f_num : N) (f_parent : H)
  : M (C * LeafSet H) (BlockchainError H E) unit := fun '(c, s) =>
  match displaced_leaves_after_finalizing header (inr (leaf_hashes s)) genesis_hash le f_hash f_num f_parent c with
  | (c', Ok new_displaced) => let '(s', o) := remove_displaced_leaves (displaced_leaves new_displaced) s in ((c', s'), o)
  | (c', Err e) => ((c', s), Err e)
  | (c', Panic) => ((c', s), Panic)
  | (c', Diverge) => ((c', s), Diverge)
  end.
