(* ===== verification/BlockBackendSpec.v ===== *)
(** * Forks of the block tree: theorems

    For a database whose headers form a tree: what is displaced by a finalized block is exactly what
    is on other branches, the longest chain through a block is found, and the leaf set is left with
    the leaves that may still become final. *)

From S2P Require Import Prelude ForkTreeSpec ForkTreeBranch BlockTree BlockTreeSpec Leaves LeavesSpec BlockBackend.

(** ** Sorted lists without repetition *)

Section dedup.
Context {H : Type} `{!EqDecision H}.
Implicit Types l : list H.

Lemma elem_of_dedup x l : x ∈ dedup l <-> x ∈ l.
Proof.
  induction l as [|y l IH]; [done|]. simpl. rewrite (elem_of_cons l), <-IH. destruct (dedup l) as [|z k].
  - rewrite list_elem_of_singleton, elem_of_nil. naive_solver.
  - destruct (decide (y = z)) as [->|]; rewrite !elem_of_cons; naive_solver.
Qed.

Lemma dedup_sorted (R : H -> H -> Prop) `{!AntiSymm (=) R} l : StronglySorted R l -> StronglySorted (fun x y => R x y /\ x <> y) (dedup l).
Proof.
  induction 1 as [|x l Hl IH Hall]; simpl; [constructor|]. rewrite Forall_forall in Hall.
  assert (forall y, y ∈ dedup l -> R x y) as Hx by (intros y Hy; by apply Hall, elem_of_dedup).
  destruct (dedup l) as [|z k]; [by repeat constructor|]. destruct (decide (x = z)) as [->|Hne]; [done|].
  constructor; [done|]. apply StronglySorted_inv in IH as [_ Hz]. rewrite Forall_forall in Hz.
  apply Forall_forall. intros y Hy. split; [by apply Hx|]. intros ->. apply elem_of_cons in Hy as [->|Hy]; [done|].
  destruct (Hz y Hy) as [Hzy _]. apply Hne. apply (anti_symm R); [|done]. apply Hx. by left.
Qed.
End dedup.

(** The first element that passes comes before the others that do. *)
Lemma find_first {A} (R : A -> A -> Prop) (f : A -> bool) (l : list A) x : StronglySorted R l -> List.find f l = Some x ->
  forall y, y ∈ l -> f y = true -> y = x \/ R x y.
Proof.
  induction 1 as [|z l Hl IH Hall]; simpl; [done|]. rewrite Forall_forall in Hall. destruct (f z) eqn:Hz.
  - intros [= <-] y [->|Hy]%elem_of_cons _; [by left|right; by apply Hall].
  - intros Hf y [->|Hy]%elem_of_cons Hfy; [congruence|by apply IH].
Qed.

(** The order of hashes, [Ord] of the hash type. *)
Class HashOrder {H} (le : H -> H -> bool) : Prop := {
  le_total x y : le x y = false -> le y x = true;
  le_trans x y z : le x y = true -> le y z = true -> le x z = true;
  le_anti x y : le x y = true -> le y x = true -> x = y
}.

#[export] Instance hash_order_anti {H} (le : H -> H -> bool) `{!HashOrder le} : AntiSymm (=) (fun x y => le x y = true).
Proof. intros x y. apply le_anti. Qed.

#[export] Instance number_order : HashOrder N.leb.
Proof. split; intros x y; rewrite ?N.leb_le, ?N.leb_gt; [lia|intros z; rewrite ?N.leb_le; lia|lia]. Qed.

Lemma postM_caught {S E E' A} (m : M S E A) s Q :
  postM m s Q (fun _ _ => False) -> postM (caught (E' := E') m) s (fun r s' => exists a, r = inr a /\ Q a s') (fun _ _ => False).
Proof. unfold postM, caught. destruct (m s) as [s' []]; naive_solver. Qed.

Section chain.
Context {P : Profile} {H E C : Type} `{LruMap H (CachedHeaderMetadata H) C}.
Context (header : H -> E + option (Header H)) (Hok : tree_ok header).
Notation minimal := (MinimalBlockMetadata H).
Notation error := (BlockchainError H E).
Notation known := (known header).
Notation height := (height header).
Notation up := (up header).
Notation cache_ok := (cache_ok header).
Implicit Types (a b h leaf fin : H) (m : minimal) (c : C).

(** [x] is the block [h] or above it. *)
Definition on_chain h x : bool := at_or_above (ancestor header) h x.

Lemma on_chain_up h x : known h = true -> on_chain h x = true <-> exists i, up i h = Some x.
Proof.
  intros Hh. unfold on_chain, at_or_above. rewrite orb_true_iff, bool_decide_eq_true, (ancestor_spec header Hok). split.
  - intros [->|(_ & _ & k & _ & Hk)]; [by exists 0|by exists k].
  - intros [[|i] Hi]; [left; by injection Hi|right]. split_and!; [by apply (up_known header Hok _ h x Hh Hi)|done|]. exists (S i). split; [lia|done].
Qed.

Lemma on_chain_trans h x y : known h = true -> on_chain h x = true -> on_chain x y = true -> on_chain h y = true.
Proof.
  intros Hh Hx Hy. apply on_chain_up in Hx as [i Hi]; [|done]. pose proof (up_known header Hok i h x Hh Hi) as [Hk _].
  apply on_chain_up in Hy as [j Hj]; [|done]. apply on_chain_up; [done|]. exists (i + j). by rewrite up_add, Hi.
Qed.

(** ** Metadata *)

Record minimal_ok m : Prop := {
  mi_known : known (mb_hash m) = true;
  mi_number : mb_number m = N.of_nat (height (mb_hash m));
  mi_parent : 0 < height (mb_hash m) -> up 1 (mb_hash m) = Some (mb_parent m)
}.

(** The block [k] steps above [h]. *)
Definition at_step h k m : Prop := minimal_ok m /\ up k h = Some (mb_hash m).

Lemma at_step_height h k m : known h = true -> at_step h k m -> height h = k + height (mb_hash m).
Proof. intros Hh [_ Hk]. by apply (up_known header Hok k h _ Hh Hk). Qed.

Lemma read_minimal h c : cache_ok c -> known h = true ->
  postM (header_metadata header h) c (fun md c' => cache_ok c' /\ at_step h 0 (minimal_of md)) (fun _ _ => False).
Proof.
  intros Hc Hh. eapply postM_mono; [by apply header_metadata_ok| |done]. intros m c' [Hm Hc']. split; [done|].
  pose proof (mo_hash _ _ _ Hm) as Hmh. split; [split; simpl; rewrite Hmh; apply Hm|]. simpl. by rewrite Hmh.
Qed.

(** The parent of a block that is not the first one. *)
Lemma parent_step h k m : known h = true -> at_step h k m -> 0 < height (mb_hash m) ->
  known (mb_parent m) = true /\ up (S k) h = Some (mb_parent m).
Proof.
  intros Hh [Hm Hk] Hpos. pose proof (mi_parent _ Hm Hpos) as Hp. split; [by apply (up_known header Hok 1 _ _ (mi_known _ Hm) Hp)|].
  replace (S k) with (k + 1) by lia. by rewrite up_add, Hk.
Qed.

Lemma next_step h k x m : up k h = Some x -> at_step x 0 m -> at_step h k m.
Proof. intros Hk [Hm [= Hx]]. split; [done|]. congruence. Qed.

Definition local_ok (lc : gmap H minimal) : Prop := forall h m, lc !! h = Some m -> at_step h 0 m.

(** The hashes of the [k] blocks from [h] upwards. *)
Definition trail h k : list H := map hn_hash (line header k h).

Lemma trail_snoc h k x : up k h = Some x -> trail h (S k) = trail h k ++ [x].
Proof. intros Hk. unfold trail. by rewrite (line_snoc header k h x Hk), map_app. Qed.

Lemma elem_of_trail h k y x : up k h = Some y -> x ∈ trail h k <-> exists i, i < k /\ up i h = Some x.
Proof.
  revert y. induction k as [|k IH]; intros y Hy.
  { split; [by intros ?%elem_of_nil|intros (i & ? & _); lia]. }
  replace (S k) with (k + 1) in Hy by lia. rewrite up_add in Hy. destruct (up k h) as [z|] eqn:Hz; [|done].
  rewrite (trail_snoc h k z Hz), elem_of_app, list_elem_of_singleton, (IH z eq_refl). split.
  - intros [(i & ? & ?)| ->]; [exists i; split; [lia|done]|exists k; split; [lia|done]].
  - intros (i & Hi & Hx). destruct (decide (i = k)) as [->|]; [right; congruence|left]. exists i. split; [lia|done].
Qed.

(** ** Down to the number of the finalized block *)

Definition collected leaf n (st : minimal * list H * gmap H minimal) c : Prop :=
  cache_ok c /\ local_ok st.2 /\ exists k, at_step leaf k st.1.1 /\ st.1.2 = trail leaf k /\ k <= height leaf - n.

Lemma collect_ok leaf n m lc c : known leaf = true -> cache_ok c -> local_ok lc -> at_step leaf 0 m ->
  postM (loopM (S (N.to_nat (mb_number m))) (collect header (N.of_nat n)) (m, [], lc)) c
    (fun st c' => cache_ok c' /\ local_ok st.2 /\ at_step leaf (height leaf - n) st.1.1 /\ st.1.2 = trail leaf (height leaf - n)) (fun _ _ => False).
Proof.
  intros Hleaf Hc Hlc Hm.
  refine (loopM_post _ (collected leaf n) (fun st _ => height (mb_hash st.1.1)) _ _ _ _ (m, [], lc) c _ _);
    [|by split_and!; [..|exists 0; split_and!; [..|lia]]|simpl; destruct Hm as [Hm _]; rewrite (mi_number _ Hm); lia].
  clear m lc c Hc Hlc Hm. intros [[m cands] lc] c (Hc & Hlc & k & Hm & Hcands & Hle). simpl in *.
  pose proof (at_step_height leaf k m Hleaf Hm) as Hh. rewrite (mi_number _ (proj1 Hm)).
  destruct (N.ltb_spec (N.of_nat n) (N.of_nat (height (mb_hash m)))) as [Hlt|Hge].
  - destruct (parent_step leaf k m Hleaf Hm) as [Hkp Hup]; [lia|].
    assert (forall m', at_step (mb_parent m) 0 m' -> at_step leaf (S k) m' /\ height (mb_hash m') < height (mb_hash m)) as Hnext.
    { intros m' Hm'. pose proof (next_step leaf (S k) _ _ Hup Hm') as Hs. split; [done|].
      pose proof (at_step_height leaf (S k) m' Hleaf Hs). lia. }
    assert (cands ++ [mb_hash m] = trail leaf (S k)) as -> by (subst cands; symmetry; by apply trail_snoc, Hm).
    destruct (lc !! mb_parent m) as [m'|] eqn:Hl.
    + destruct (Hnext m' (Hlc _ _ Hl)). unfold postM. simpl. split; [|done]. split_and!; [done..|]. exists (S k). split_and!; [done|done|lia].
    + apply postM_bind. eapply postM_mono; [by apply read_minimal| |done]. intros m' c' [Hc' Hm'].
      assert (local_ok (<[mb_parent m := minimal_of m']> lc)) as Hlc'
        by (intros h m2; rewrite lookup_insert_Some; intros [[<- <-]|[_ ?]]; [done|by apply Hlc]).
      destruct (Hnext _ Hm'). unfold postM. simpl. split; [|done]. split_and!; [done..|]. exists (S k). split_and!; [done|done|lia].
  - unfold postM. simpl. assert (k = height leaf - n) as <- by lia. done.
Qed.

(** ** Along the chain of the finalized block *)

(** The finalized block is the last one, and every block has its parent before it. *)
Definition chain_ok fin (chain : list minimal) : Prop :=
  chain <> [] /\ forall i m, rev chain !! i = Some m -> at_step fin i m.

Lemma finalized_block_ok fin d chain c : known fin = true -> cache_ok c -> chain_ok fin chain ->
  0 < d -> d <= height fin -> d <= length chain ->
  postM (finalized_block_at header (N.of_nat d) chain) c
    (fun r c' => cache_ok c' /\ exists m chain', r = Some (m, chain') /\ at_step fin d m /\ chain_ok fin chain' /\ d < length chain')
    (fun _ _ => False).
Proof.
  intros Hfin Hc [Hne Hchain] Hpos Hd Hlen. unfold finalized_block_at. rewrite Nat2N.id.
  destruct (rev chain !! d) as [m|] eqn:Hl.
  { split; [done|]. exists m, chain. split_and!; [done|by apply Hchain|done..|]. apply lookup_lt_Some in Hl. by rewrite length_rev in Hl. }
  apply lookup_ge_None in Hl. rewrite length_rev in Hl. destruct chain as [|t chain]; [done|]. simpl in Hl, Hlen.
  assert (rev (t :: chain) !! length chain = Some t) as Ht
    by (simpl; rewrite lookup_app_r, length_rev, Nat.sub_diag by (rewrite length_rev; lia); done).
  pose proof (Hchain _ _ Ht) as Hs. pose proof (at_step_height fin _ t Hfin Hs) as Hh.
  destruct (parent_step fin (length chain) t Hfin Hs) as [Hk Hup]; [lia|]. assert (S (length chain) = d) as Heq by lia. rewrite Heq in Hup.
  cbn [head]. rewrite (postM_lift (expect (Some t)) _ _ t) by done. apply postM_bind.
  eapply postM_mono; [apply postM_caught; by apply read_minimal| |done]. intros r c' (md & -> & Hc' & Hm).
  pose proof (next_step fin d _ _ Hup Hm) as Hmd. split; [done|]. exists (minimal_of md), (minimal_of md :: t :: chain).
  split_and!; [done|done| |simpl; lia]. split; [done|]. intros i m. change (rev (minimal_of md :: t :: chain)) with (rev (t :: chain) ++ [minimal_of md]).
  rewrite lookup_snoc_Some. intros [[_ Hi]|[Hi <-]]; [by apply Hchain|]. rewrite length_rev in Hi. simpl in Hi. by rewrite Hi, Heq.
Qed.

(** What holds of the walk from a leaf before the round for the distance [d]. *)
Record searching leaf fin d m (cands : list H) (chain : list minimal) c k : Prop := {
  se_cache : cache_ok c;
  se_chain : chain_ok fin chain;
  se_distance : 0 < d <= height fin;
  se_length : d <= length chain;
  se_step : at_step leaf k m;
  se_cands : cands = trail leaf (S k);
  se_height : height (mb_hash m) <= height fin - (d - 1);
  se_other : height (mb_hash m) = height fin - (d - 1) -> up (d - 1) fin <> Some (mb_hash m);
  se_moved : k = 0 \/ height (mb_hash m) = height fin - (d - 1)
}.

Definition verdict_ok leaf fin (v : Verdict H) : Prop :=
  match v with
  | FinalizedAncestor => on_chain fin leaf = true
  | DisplacedBranch blocks => exists k x y, blocks = trail leaf (S k) /\ up k leaf = Some x /\ on_chain fin x = false /\
      up (S k) leaf = Some y /\ on_chain fin y = true
  | AncestryGap => False
  end.

(** Two blocks of one number at the start of the chain are one. *)
Lemma first_block a b : known a = true -> known b = true -> height a = 0 -> height b = 0 -> a = b.
Proof. intros Ha Hb Hza Hzb. pose proof (up_root header Hok a Ha b Hb Hzb) as Hu. rewrite Hza in Hu. by injection Hu. Qed.

Lemma search_round leaf fin d m cands chain c k : known leaf = true -> known fin = true -> (N.of_nat (height fin) < u32_MAX)%N ->
  searching leaf fin d m cands chain c k ->
  postM (search_chain header (N.of_nat d, m, cands, chain)) c
    (fun r c' => match r with
       | Continue (d', m', cands', chain') => d' = N.of_nat (S d) /\ exists k', searching leaf fin (S d) m' cands' chain' c' k'
       | Break (v, chain') => cache_ok c' /\ chain_ok fin chain' /\ verdict_ok leaf fin v
       end) (fun _ _ => False).
Proof.
  intros Hleaf Hfin Hmax [Hc Hch Hd Hlen Hs Hcands Hle Hother Hmoved]. unfold search_chain.
  rewrite (postM_lift _ _ _ (N.of_nat (S d))) by (rewrite add_u32_eq by lia; f_equal; lia).
  apply postM_bind. eapply postM_mono; [by apply finalized_block_ok; destruct Hd| |done].
  intros r c1 (Hc1 & block & chain1 & -> & Hb & Hch1 & Hlen1).
  pose proof (at_step_height fin d block Hfin Hb) as Hhb. destruct Hb as [Hbm Hbu].
  pose proof (at_step_height leaf k m Hleaf Hs) as Hhm.
  assert (mb_hash m <> mb_hash block -> height (mb_hash m) <= height (mb_hash block) -> 0 < height (mb_hash block)) as Hpos.
  { intros Hne Hl. destruct (decide (height (mb_hash block) = 0)); [|lia]. destruct Hne. apply first_block; [apply Hs|apply Hbm|lia|lia]. }
  destruct (decide (mb_hash m = mb_hash block)) as [Heq|Hne].
  { assert (k = 0) as -> by (destruct Hmoved; [done|rewrite Heq in *; lia]). split_and!; [done..|]. apply on_chain_up; [done|].
    exists d. destruct Hs as [_ [= Hl]]. congruence. }
  rewrite (mi_number _ (proj1 Hs)), (mi_number _ Hbm).
  destruct (N.leb_spec (N.of_nat (height (mb_hash m))) (N.of_nat (height (mb_hash block)))) as [Hl|Hg].
  { split; [done|]. exists k. specialize (Hpos Hne ltac:(lia)). split; try done; [lia|lia|intros _; rewrite Nat.sub_succ, Nat.sub_0_r; congruence|].
    destruct Hmoved; [by left|lia]. }
  assert (height (mb_hash m) = height fin - (d - 1)) as Hhe by lia. specialize (Hother Hhe).
  destruct (parent_step leaf k m Hleaf Hs) as [Hkp Hup]; [lia|].
  destruct (decide (mb_hash block = mb_parent m)) as [Hp|Hp].
  - split_and!; [done..|]. exists k, (mb_hash m), (mb_hash block). split_and!; [done|apply Hs| |congruence|apply on_chain_up; [done|by exists d]].
    destruct (on_chain fin (mb_hash m)) eqn:Hon; [|done]. apply on_chain_up in Hon as [i Hi]; [|done].
    pose proof (up_known header Hok i fin _ Hfin Hi) as [_ Hni]. assert (i = d - 1) as -> by lia. congruence.
  - apply postM_bind. eapply postM_mono; [by apply read_minimal| |done]. intros md c2 [Hc2 Hm2].
    pose proof (next_step leaf (S k) _ _ Hup Hm2) as Hs2. pose proof (at_step_height leaf (S k) _ Hleaf Hs2) as Hh2.
    assert (mb_hash (minimal_of md) = mb_parent m) as Hmh by (destruct Hm2 as [_ [= ?]]; done).
    split; [done|]. exists (S k). assert (0 < height (mb_hash block)) as Hpb.
    { destruct (decide (height (mb_hash block) = 0)); [|lia]. destruct Hp. rewrite <-Hmh. apply first_block; [apply Hbm|apply Hs2|lia|lia]. }
    split; try done; [lia| |lia|intros _; rewrite Nat.sub_succ, Nat.sub_0_r; congruence|right; lia].
    rewrite (trail_snoc leaf (S k) _ Hup). by subst cands.
Qed.

Lemma search_chain_loop leaf fin m cands chain c k : known leaf = true -> known fin = true -> (N.of_nat (height fin) < u32_MAX)%N ->
  searching leaf fin 1 m cands chain c k ->
  postM (loopM (S (height fin)) (search_chain header) (1%N, m, cands, chain)) c
    (fun r c' => cache_ok c' /\ chain_ok fin r.2 /\ verdict_ok leaf fin r.1) (fun _ _ => False).
Proof.
  intros Hleaf Hfin Hmax Hs.
  refine (loopM_post _ (fun st c => exists d k, st.1.1.1 = N.of_nat d /\ searching leaf fin d st.1.1.2 st.1.2 st.2 c k)
    (fun st _ => height fin - N.to_nat st.1.1.1) _ _ _ _ (1%N, m, cands, chain) c _ _); [|by exists 1, k|simpl; lia].
  clear m cands chain c k Hs. intros [[[d' m] cands] chain] c (d & k & Hd & Hs). simpl in Hd, Hs. subst d'.
  eapply postM_mono; [by apply (search_round leaf fin d m cands chain c k)| |done].
  intros [[[[d' m'] cands'] chain']|[v chain']] c' Hr; [|done]. destruct Hr as (-> & k' & Hs'). split; [by exists (S d), k'|].
  cbn [fst]. rewrite !Nat2N.id. pose proof (se_distance _ _ _ _ _ _ _ _ Hs'). lia.
Qed.

(** ** The longest chain *)

Lemma walk_down_ok leaf base : known leaf = true -> known base = true ->
  post (loop (walk_fuel header leaf) (walk_down header base (N.of_nat (height base))) leaf)
    (fun r => r = on_chain leaf base) (fun _ => False).
Proof.
  intros Hleaf Hbase.
  refine (loop_post _ (fun x => exists k, up k leaf = Some x /\ forall i, i < k -> up i leaf <> Some base) height _ _ _ _ leaf _ _).
  2: { exists 0. split; [done|lia]. }
  2: { unfold walk_fuel. destruct (known_header header leaf Hleaf) as [hd Hhd]. unfold BlockTreeSpec.height. rewrite Hhd. lia. }
  intros x (k & Hk & Hbefore). pose proof (up_known header Hok k leaf x Hleaf Hk) as [Hkx Hnx]. unfold walk_down.
  destruct (decide (x = base)) as [->|Hne].
  { simpl. symmetry. apply on_chain_up; [done|]. by exists k. }
  assert (forall i, i < S k -> up i leaf <> Some base) as Hbefore'.
  { intros i Hi. destruct (decide (i = k)) as [->|]; [congruence|]. apply Hbefore. lia. }
  destruct (known_header header x Hkx) as [hd Hhd]. rewrite Hhd.
  assert (hd_number hd = N.of_nat (height x)) as Hn by (unfold BlockTreeSpec.height; rewrite Hhd; lia).
  destruct (N.ltb_spec (hd_number hd) (N.of_nat (height base))) as [Hlt|Hge]; simpl.
  - destruct (on_chain leaf base) eqn:Hon; [|done]. apply on_chain_up in Hon as [i Hi]; [|done]. exfalso.
    pose proof (up_known header Hok i leaf base Hleaf Hi) as [_ ?]. apply (Hbefore' i); [lia|done].
  - assert (0 < height x) as Hpos.
    { destruct (decide (height x = 0)); [|lia]. destruct Hne. apply first_block; [done..|lia|lia]. }
    pose proof (metadata_from_ok header Hok x hd Hhd) as Hmd. pose proof (mo_parent _ _ _ Hmd Hpos) as Hp. simpl in Hp.
    assert (up (S k) leaf = Some (hd_parent_hash hd)) as Hup by (replace (S k) with (k + 1) by lia; by rewrite up_add, Hk).
    split; [by exists (S k)|]. pose proof (up_known header Hok (S k) leaf _ Hleaf Hup) as [_ ?]. lia.
Qed.

Lemma first_containing_ok base ls : known base = true -> (forall leaf, leaf ∈ ls -> known leaf = true) ->
  first_containing header base (N.of_nat (height base)) ls = Ok (List.find (fun leaf => on_chain leaf base) ls).
Proof.
  intros Hbase. induction ls as [|leaf ls IH]; intros Hls; [done|]. cbn [first_containing List.find].
  pose proof (walk_down_ok leaf base (Hls leaf ltac:(by left)) Hbase) as Hw.
  destruct (loop _ _ _) as [r| | |]; try done. simpl in Hw. subst r. cbn [bind].
  destruct (on_chain leaf base); [done|]. apply IH. intros x Hx. apply Hls. by right.
Qed.

Lemma longest_containing_ok fn base ls : (forall e, header base <> inl e) -> (forall leaf, leaf ∈ ls -> known leaf = true) ->
  longest_containing header (inr ls) fn base =
  Ok (if known base && (fn <=? N.of_nat (height base))%N then List.find (fun leaf => on_chain leaf base) ls else None).
Proof.
  intros Herr Hls. unfold longest_containing. destruct (known base) eqn:Hk.
  - destruct (known_header header base Hk) as [hd Hhd]. rewrite Hhd.
    assert (hd_number hd = N.of_nat (height base)) as -> by (unfold BlockTreeSpec.height; rewrite Hhd; lia). simpl.
    rewrite N.leb_antisym. destruct (N.of_nat (height base) <? fn)%N; [done|]. by apply first_containing_ok.
  - unfold BlockTreeSpec.known in Hk. destruct (header base) as [e|[hd|]] eqn:Hh; [by destruct (Herr e)|done|done].
Qed.

(** ** Forks *)

(** The blocks that go with a leaf or the head of a fork: those on its chain that are not on that of the finalized block. *)
Definition goes_with fin leaf b : Prop := on_chain leaf b = true /\ on_chain fin b = false.

Lemma retracted_blocks head fin r : known head = true -> known fin = true -> route_ok header head fin r ->
  exists blocks, retracted (E := error) r = Ok blocks /\ forall b, b ∈ map hn_hash blocks <-> goes_with fin head b.
Proof.
  intros Hhead Hfin (i & j & x & (_ & _ & Hmeet) & Hi & Hj & Hp & Hr). exists (line header i head).
  pose proof (line_length header Hok i head x Hhead Hi) as Hlen. split.
  { unfold retracted. rewrite Hp, Hr, length_app, Hlen, (proj2 (Nat.leb_le _ _)) by lia. by rewrite take_app_length'. }
  intros b. change (map hn_hash (line header i head)) with (trail head i). rewrite (elem_of_trail head i x b Hi). unfold goes_with. split.
  - intros (k & Hk & Hb). split; [apply on_chain_up; [done|by exists k]|]. destruct (on_chain fin b) eqn:Hon; [|done].
    apply on_chain_up in Hon as [j' Hj']; [|done]. pose proof (Hmeet _ _ _ Hb Hj').
    pose proof (up_known header Hok k head b Hhead Hb) as [_ ?]. pose proof (up_known header Hok i head x Hhead Hi) as [_ ?]. lia.
  - intros [Hb Hnb]. apply on_chain_up in Hb as [k Hk]; [|done]. exists k. split; [|done].
    destruct (decide (k < i)) as [|Hge]; [done|]. exfalso. assert (on_chain fin b = true); [|congruence].
    apply on_chain_up; [done|]. exists (j + (k - i)). rewrite up_add, Hj. replace k with (i + (k - i)) in Hk by lia. by rewrite up_add, Hi in Hk.
Qed.

Lemma foldl_union (blocks : list (HashAndNumber H)) (s0 : gset H) b :
  b ∈ foldl (fun s x => {[hn_hash x]} ∪ s) s0 blocks <-> b ∈ s0 \/ b ∈ map hn_hash blocks.
Proof.
  revert s0. induction blocks as [|x blocks IH]; intros s0; simpl; [|rewrite IH]; set_solver.
Qed.

Lemma expand_forks_ok fin heads c : known fin = true -> (forall head, head ∈ heads -> known head = true) -> cache_ok c ->
  postM (expand_forks header fin heads) c
    (fun r c' => cache_ok c' /\ forall b, b ∈ r <-> exists head, head ∈ heads /\ goes_with fin head b) (fun _ _ => False).
Proof.
  intros Hfin Hheads Hc. unfold expand_forks.
  enough (forall s0 : gset H, postM (for_fold (expand_fork header fin) heads s0) c
    (fun r c' => cache_ok c' /\ forall b, b ∈ r <-> b ∈ s0 \/ exists head, head ∈ heads /\ goes_with fin head b) (fun _ _ => False)) as Hall.
  { eapply postM_mono; [apply Hall| |done]. intros r c' [Hc' Hr]. split; [done|]. intros b. rewrite Hr. set_solver. }
  revert c Hc. induction heads as [|head heads IH]; intros c Hc s0; cbn [for_fold].
  { split; [done|]. set_solver. }
  unfold expand_fork at 1. apply postM_bind, postM_bind. assert (known head = true) as Hk by (apply Hheads; by left).
  eapply postM_mono; [apply postM_caught; by apply tree_route_ok| |done]. intros res c1 (r & -> & Hc1 & Hr).
  destruct (retracted_blocks head fin r Hk Hfin Hr) as (blocks & Hret & Hblocks). rewrite (postM_lift _ _ _ _ _ _ Hret). eapply postM_intro; [done|].
  eapply postM_mono; [apply IH; [intros x Hx; apply Hheads; by right|done]| |done]. intros res c2 [Hc2 Hres]. split; [done|].
  intros b. rewrite Hres, foldl_union, Hblocks. set_solver.
Qed.
(** ** Every leaf *)

Context (genesis_hash : H) (Hgenesis : known genesis_hash = true /\ height genesis_hash = 0).

(** A leaf that stays: the finalized block is the leaf or above it. *)
Definition stays fin leaf : bool := on_chain leaf fin.

Definition progress_ok fin (p : Progress (H := H)) : Prop := chain_ok fin (finalized_chain p) /\ local_ok (local_cache p).

Lemma verdict_blocks leaf fin k x y : known leaf = true -> known fin = true -> up k leaf = Some x -> on_chain fin x = false ->
  up (S k) leaf = Some y -> on_chain fin y = true -> forall b, b ∈ trail leaf (S k) <-> goes_with fin leaf b.
Proof.
  intros Hleaf Hfin Hx Hnx Hy Hoy b. rewrite (elem_of_trail leaf (S k) y b Hy). unfold goes_with. split.
  - intros (i & Hi & Hb). split; [apply on_chain_up; [done|by exists i]|]. destruct (on_chain fin b) eqn:Hon; [|done].
    rewrite <-Hnx. symmetry. apply (on_chain_trans fin b x); [done..|]. apply on_chain_up; [by apply (up_known header Hok i leaf b)|].
    exists (k - i). replace k with (i + (k - i)) in Hx by lia. by rewrite up_add, Hb in Hx.
  - intros [Hb Hnb]. apply on_chain_up in Hb as [i Hi]; [|done]. exists i. split; [|done].
    destruct (decide (i < S k)) as [|Hge]; [done|]. exfalso. assert (on_chain fin b = true); [|congruence].
    apply (on_chain_trans fin y b); [done..|]. apply on_chain_up; [by apply (up_known header Hok (S k) leaf y)|].
    exists (i - S k). replace i with (S k + (i - S k)) in Hi by lia. by rewrite up_add, Hy in Hi.
Qed.

Lemma handle_leaf_ok fin leaf p c : known leaf = true -> known fin = true -> 0 < height fin -> (N.of_nat (height fin) < u32_MAX)%N ->
  cache_ok c -> progress_ok fin p ->
  postM (handle_leaf header genesis_hash fin (N.of_nat (height fin)) leaf p) c
    (fun p' c' => cache_ok c' /\ progress_ok fin p' /\
       if stays fin leaf then so_far p' = so_far p
       else exists blocks, so_far p' = add_leaf (N.of_nat (height leaf)) leaf blocks (so_far p) /\ forall b, b ∈ blocks <-> goes_with fin leaf b)
    (fun _ _ => False).
Proof.
  intros Hleaf Hfin Hpos Hmax Hc [Hch Hlc]. destruct Hgenesis as [Hgk Hgh]. unfold handle_leaf, stays. apply postM_bind.
  eapply postM_mono; [by apply read_minimal| |done]. intros md c1 [Hc1 Hm].
  assert (mb_number (minimal_of md) = N.of_nat (height leaf)) as Hnum by (destruct Hm as [Hm [= Hh]]; rewrite (mi_number _ Hm), Hh; done).
  destruct (decide (leaf = genesis_hash)) as [Hg|Hg].
  { rewrite Hnum. subst leaf. split_and!; [done..|]. cbn [so_far]. destruct (on_chain genesis_hash fin) eqn:Hon.
    - apply on_chain_up in Hon as [i Hi]; [|done]. pose proof (up_known header Hok i _ _ Hgk Hi) as [_ ?]. lia.
    - exists []. split; [done|]. intros b. split; [by intros ?%elem_of_nil|]. intros [Hb Hnb].
      apply on_chain_up in Hb as [i Hi]; [|done]. pose proof (up_known header Hok i _ _ Hgk Hi) as [Hkb ?].
      rewrite (proj2 (on_chain_up fin b Hfin)) in Hnb; [done|]. exists (height fin). apply (up_root header Hok fin Hfin b Hkb). lia. }
  apply postM_bind. eapply postM_mono; [by apply (collect_ok leaf (height fin))| |done].
  intros [[m cands] lc] c2 (Hc2 & Hlc2 & Hs & Hcands). cbn [fst snd] in *. subst cands. set (k := height leaf - height fin) in *.
  pose proof (at_step_height leaf k m Hleaf Hs) as Hh.
  assert (on_chain leaf fin = bool_decide (mb_hash m = fin)) as ->.
  { apply eq_iff_eq_true. rewrite bool_decide_eq_true, on_chain_up by done. split.
    - intros [i Hi]. pose proof (up_known header Hok i leaf fin Hleaf Hi) as [_ ?]. assert (i = k) as -> by lia. destruct Hs as [_ Hs]. congruence.
    - intros <-. exists k. apply Hs. }
  destruct (decide (mb_hash m = fin)) as [Hf|Hf]; [rewrite bool_decide_true by done|rewrite bool_decide_false by done].
  { by split_and!. }
  rewrite Nat2N.id. rewrite <-(trail_snoc leaf k) by apply Hs. apply postM_bind.
  eapply postM_mono; [apply (search_chain_loop leaf fin m _ _ _ k); [done..|]| |done].
  { split; [done..|lia| |done|done|lia| |].
    - destruct Hch as [Hne _]. destruct (finalized_chain p); [done|]. simpl. lia.
    - intros _ [= ?]. congruence.
    - unfold k in *. lia. }
  intros [v chain] c3 (Hc3 & Hch3 & Hv). cbn [fst snd] in *. split_and!; [done..|]. cbn [so_far]. rewrite Hnum. destruct v as [|blocks|]; [| |done].
  - exists []. split; [done|]. intros b. split; [by intros ?%elem_of_nil|]. intros [Hb Hnb]. simpl in Hv.
    by rewrite (on_chain_trans fin leaf b Hfin Hv Hb) in Hnb.
  - exists blocks. split; [done|]. destruct Hv as (k' & x & y & -> & Hx & Hnx & Hy & Hoy). by apply (verdict_blocks leaf fin k' x y).
Qed.

Lemma all_leaves_ok fin ls p c : known fin = true -> 0 < height fin -> (N.of_nat (height fin) < u32_MAX)%N -> (forall leaf, leaf ∈ ls -> known leaf = true) ->
  cache_ok c -> progress_ok fin p ->
  postM (for_fold (handle_leaf header genesis_hash fin (N.of_nat (height fin))) ls p) c
    (fun p' c' => cache_ok c' /\
       displaced_leaves (so_far p') = displaced_leaves (so_far p) ++
         map (fun leaf => (N.of_nat (height leaf), leaf)) (List.filter (fun leaf => negb (stays fin leaf)) ls) /\
       forall b, b ∈ displaced_blocks (so_far p') <-> b ∈ displaced_blocks (so_far p) \/
         exists leaf, leaf ∈ ls /\ stays fin leaf = false /\ goes_with fin leaf b) (fun _ _ => False).
Proof.
  intros Hfin Hpos Hmax. revert p c. induction ls as [|leaf ls IH]; intros p c Hls Hc Hp; cbn [for_fold].
  { split_and!; [done|simpl; by rewrite app_nil_r|]. intros b. split; [by left|]. by intros [?|(? & ?%elem_of_nil & _)]. }
  apply postM_bind. eapply postM_mono; [by apply handle_leaf_ok; [apply Hls; by left|..]| |done]. intros p1 c1 (Hc1 & Hp1 & Hr).
  eapply postM_mono; [apply IH; [intros x Hx; apply Hls; by right|done..]| |done]. intros p2 c2 (Hc2 & Hl2 & Hb2). split; [done|].
  setoid_rewrite elem_of_cons. cbn [List.filter]. destruct (stays fin leaf) eqn:Hst; cbn [negb].
  - rewrite Hr in Hl2, Hb2. split; [done|]. intros b. rewrite Hb2. split; [naive_solver|].
    intros [?|(x & [->|Hx] & Hsx & Hg)]; [by left|congruence|right; by exists x].
  - destruct Hr as (blocks & Hr & Hblocks). rewrite Hr in Hl2, Hb2. simpl in Hl2, Hb2. split; [by rewrite Hl2, <-app_assoc|].
    intros b. rewrite Hb2, elem_of_app, Hblocks. naive_solver.
Qed.

Context (le : H -> H -> bool) `{!HashOrder le}.

Lemma displaced_ok fin par ls c : known fin = true -> (0 < height fin -> up 1 fin = Some par) -> (N.of_nat (height fin) < u32_MAX)%N ->
  (forall leaf, leaf ∈ ls -> known leaf = true) -> cache_ok c ->
  postM (displaced_leaves_after_finalizing header (inr ls) genesis_hash le fin (N.of_nat (height fin)) par) c
    (fun r c' => cache_ok c' /\
       displaced_leaves r = map (fun leaf => (N.of_nat (height leaf), leaf)) (List.filter (fun leaf => negb (stays fin leaf)) ls) /\
       StronglySorted (fun x y => le x y = true /\ x <> y) (displaced_blocks r) /\
       forall b, b ∈ displaced_blocks r <-> exists leaf, leaf ∈ ls /\ stays fin leaf = false /\ goes_with fin leaf b) (fun _ _ => False).
Proof.
  intros Hfin Hpar Hmax Hls Hc. unfold displaced_leaves_after_finalizing.
  destruct (N.eqb_spec (N.of_nat (height fin)) 0) as [Hz|Hnz].
  - assert (forall leaf, leaf ∈ ls -> stays fin leaf = true) as Hstay.
    { intros leaf Hl. unfold stays. apply on_chain_up; [by apply Hls|]. exists (height leaf).
      apply (up_root header Hok leaf (Hls _ Hl) fin Hfin). lia. }
    split_and!; [done| |constructor|].
    + clear Hls. induction ls as [|x l IH]; [done|]. simpl. rewrite (Hstay x) by (by left). apply IH. intros y Hy. apply Hstay. by right.
    + intros b. split; [by intros ?%elem_of_nil|]. intros (leaf & Hl & Hns & _). by rewrite (Hstay leaf Hl) in Hns.
  - apply postM_bind. change (postM (ret ls) c) with (postM (E := error) (ret ls) c). unfold postM at 1. cbn [ret].
    apply postM_bind. eapply postM_mono; [apply (all_leaves_ok fin ls); [done|lia|done|done|done|]| |done].
    { split; [|by intros h m; cbn [local_cache]; rewrite lookup_empty]. split; [done|]. intros [|i] m; [|done]. intros [= <-].
      split; [split|]; simpl; [done..| |done]. intros Hp. by rewrite <-Hpar. }
    intros p c1 (Hc1 & Hl1 & Hb1). cbn [so_far displaced_leaves displaced_blocks] in *. split_and!; [done|done| |].
    + cbn [displaced_blocks]. apply (dedup_sorted (fun x y => le x y = true)).
      apply Sorted_StronglySorted; [intros x y z; apply le_trans|apply sort_by_sorted, le_total].
    + intros b. cbn [displaced_blocks]. rewrite elem_of_dedup, sort_by_perm, Hb1. split; [|by right]. by intros [?%elem_of_nil|].
Qed.

(** With all leaves of the tree, these are the blocks on other branches. *)
Lemma displaced_unrelated fin (ls : list H) b : known fin = true -> (forall leaf, leaf ∈ ls -> known leaf = true) ->
  (forall x, known x = true -> exists leaf, leaf ∈ ls /\ on_chain leaf x = true) ->
  (exists leaf, leaf ∈ ls /\ stays fin leaf = false /\ goes_with fin leaf b) <-> known b = true /\ unrelated (ancestor header) b fin.
Proof.
  intros Hfin Hls Hcover. pose proof (tree_ancestry header Hok) as Hanc. unfold stays, goes_with, unrelated. split.
  - intros (leaf & Hl & Hns & Hb & Hnb). pose proof (proj1 (on_chain_up leaf b (Hls _ Hl)) Hb) as [i Hi].
    split; [by apply (up_known header Hok i leaf b (Hls _ Hl))|]. unfold on_chain, at_or_above in Hnb. apply orb_false_iff in Hnb as [Hne%bool_decide_eq_false Hnb].
    split_and!; [done|done|]. destruct (ancestor header fin b) eqn:Ha; [|done]. rewrite <-Hns. symmetry.
    apply (on_chain_trans leaf b fin); [by apply Hls|done|]. unfold on_chain, at_or_above. by rewrite Ha, orb_true_r.
  - intros (Hkb & Hne & Hbf & Hfb). destruct (Hcover b Hkb) as (leaf & Hl & Hb). exists leaf.
    assert (on_chain fin b = false) as Hnb by (unfold on_chain, at_or_above; by rewrite bool_decide_false, Hbf).
    split_and!; [done| |done|done]. destruct (on_chain leaf fin) eqn:Hf; [|done]. exfalso.
    apply (at_or_above_related (ancestor header) (fun h => N.of_nat (height h)) leaf b fin Hb Hf). by split.
Qed.
End chain.

(** ** Theorems *)

Section theorems.
Context {P : Profile} {H E C : Type} `{LruMap H (CachedHeaderMetadata H) C}.
Context (header : H -> E + option (Header H)) (Hok : tree_ok header).
Notation known := (known header).
Notation height := (height header).
Notation on_chain := (on_chain header).
Notation ancestor := (ancestor header).

(** The blocks of a leaf set are in the database. *)
Definition stored (b : gmap H (N * H)) : Prop := forall h num par, b !! h = Some (num, par) -> known h = true /\ num = N.of_nat (height h).

Lemma stored_leaves b s : stored b -> tracks b s -> forall leaf, leaf ∈ leaf_hashes s -> known leaf = true /\ childless b (N.of_nat (height leaf)) leaf.
Proof.
  intros Hst (_ & _ & Hl) leaf. rewrite hashes_items. intros ([h num] & -> & Hin%elem_of_items%Hl)%list_elem_of_fmap. simpl.
  pose proof Hin as [[par Hp] _]. destruct (Hst _ _ _ Hp) as [Hk ->]. done.
Qed.

(** The longest chain through a block.  With the leaves of the leaf set, the result is the highest leaf whose chain
    contains the block; there is none only for a block that is not known, that is below the finalized number, or that is on no chain to a leaf. *)
Theorem longest_containing_correct b s fn base :
  tracked (E := BlockchainError H E) b s -> stored b -> (forall e, header base <> inl e) ->
  match longest_containing header (inr (leaf_hashes s)) fn base with
  | Ok (Some leaf) => known base = true /\ (fn <= N.of_nat (height base))%N /\ childless b (N.of_nat (height leaf)) leaf /\ on_chain leaf base = true /\
      forall num leaf', childless b num leaf' -> on_chain leaf' base = true -> (num <= N.of_nat (height leaf))%N
  | Ok None => known base = true -> (fn <= N.of_nat (height base))%N -> forall num leaf', childless b num leaf' -> on_chain leaf' base = false
  | _ => False
  end.
Proof.
  intros Hb Hst Herr. pose proof (tracked_ok b s Hb) as Ht. pose proof (stored_leaves b s Hst Ht) as Hls.
  rewrite (longest_containing_ok header Hok fn base _ Herr (fun leaf Hin => proj1 (Hls leaf Hin))).
  assert (forall num leaf, childless b num leaf -> leaf ∈ leaf_hashes s /\ number_of b leaf = num) as Hin.
  { intros num leaf Hch. destruct Ht as (_ & _ & Hl). pose proof Hch as [[p Hp] _]. unfold number_of. rewrite Hp. split; [|done].
    rewrite hashes_items. apply list_elem_of_fmap. exists (leaf, num). split; [done|]. by apply elem_of_items, Hl. }
  destruct (known base) eqn:Hk; [|done]. simpl. destruct (N.leb_spec fn (N.of_nat (height base))) as [Hle|Hgt]; [|intros _ ?; lia].
  pose proof (hashes_sorted b s Ht) as Hsorted. clear Ht. destruct (List.find _ _) as [leaf|] eqn:Hf.
  - pose proof (find_some _ _ Hf) as [Hfl Hon]. rewrite <-list_elem_of_In in Hfl. destruct (Hls leaf Hfl) as [_ Hch].
    split_and!; [done..|]. intros num leaf' Hch' Hon'. destruct (Hin _ _ Hch) as [_ Hn]. destruct (Hin _ _ Hch') as [Hl' <-].
    rewrite <-Hn. by destruct (find_first _ _ _ _ Hsorted Hf leaf' Hl' Hon') as [->|].
  - intros _ _ num leaf Hch. apply (find_none _ _ Hf). apply list_elem_of_In. by apply (Hin num).
Qed.

Context (genesis_hash : H) (Hgenesis : known genesis_hash = true /\ height genesis_hash = 0).
Context (le : H -> H -> bool) `{!HashOrder le}.

(** C24: what a finalized block displaces.  With the leaves of the tree, the displaced leaves are those the finalized block
    is not at or above, in their order and with their numbers, and the displaced blocks are the blocks on branches without the
    finalized block, sorted and each of them once; when every block is below a leaf these are exactly the blocks
    that are neither ancestors nor descendants of it. The cache of metadata does not matter. *)
Theorem displaced_leaves_correct fin par ls c :
  cache_reached header c -> known fin = true -> (0 < height fin -> up header 1 fin = Some par) -> (N.of_nat (height fin) < u32_MAX)%N ->
  (forall leaf, leaf ∈ ls -> known leaf = true) ->
  exists r c', displaced_leaves_after_finalizing header (inr ls) genesis_hash le fin (N.of_nat (height fin)) par c = (c', Ok r) /\ cache_ok header c' /\
    displaced_leaves r = map (fun leaf => (N.of_nat (height leaf), leaf)) (List.filter (fun leaf => negb (on_chain leaf fin)) ls) /\
    StronglySorted (fun x y => le x y = true /\ x <> y) (displaced_blocks r) /\
    (forall b, b ∈ displaced_blocks r <->
       exists leaf, leaf ∈ ls /\ on_chain leaf fin = false /\ on_chain leaf b = true /\ on_chain fin b = false) /\
    ((forall x, known x = true -> exists leaf, leaf ∈ ls /\ on_chain leaf x = true) ->
       forall b, b ∈ displaced_blocks r <-> known b = true /\ unrelated ancestor b fin).
Proof.
  intros Hc Hfin Hpar Hmax Hls.
  destruct (postM_returns _ _ _ (displaced_ok header Hok genesis_hash Hgenesis le fin par ls c Hfin Hpar Hmax Hls (cache_reached_ok header Hok c Hc)))
    as (c' & r & Heq & Hc' & Hl & Hs & Hb). exists r, c'. split_and!; [done..|].
  intros Hcover b. rewrite Hb. by apply displaced_unrelated.
Qed.

(** C26: finalization and the leaf set.  After the leaves that a finalized block displaces are dropped, the leaf set contains
    exactly the leaves there were that are the finalized block or its descendants. *)
Theorem drop_displaced_leaves_correct b s fin par c :
  tracked (E := BlockchainError H E) b s -> stored b ->
  cache_reached header c -> known fin = true -> (0 < height fin -> up header 1 fin = Some par) -> (N.of_nat (height fin) < u32_MAX)%N ->
  exists c' s', drop_displaced_leaves header genesis_hash le fin (N.of_nat (height fin)) par (c, s) = ((c', s'), Ok tt) /\ cache_ok header c' /\
    forall num h, leaves_contains num h s' = true <-> childless b num h /\ (h = fin \/ ancestor fin h = true).
Proof.
  intros Hb Hst Hc Hfin Hpar Hmax. pose proof (tracked_ok b s Hb) as Ht. pose proof (stored_leaves b s Hst Ht) as Hls. pose proof Ht as (Hok' & _ & Hl).
  destruct (postM_returns _ _ _ (displaced_ok header Hok genesis_hash Hgenesis le fin par (leaf_hashes s) c Hfin Hpar Hmax
    (fun leaf Hin => proj1 (Hls leaf Hin)) (cache_reached_ok header Hok c Hc))) as (c' & r & Heq & Hc' & Hdl & _).
  unfold drop_displaced_leaves. rewrite Heq. destruct (remove_displaced_ok (E := BlockchainError H E) s (displaced_leaves r) Hok') as (s' & -> & _ & Hl').
  exists c', s'. split_and!; [done..|]. intros num h. rewrite contains_leaf, Hl', Hl, Hdl.
  assert (childless b num h -> ((num, h) ∈ map (fun leaf => (N.of_nat (height leaf), leaf)) (List.filter (fun leaf => negb (stays header fin leaf)) (leaf_hashes s)) <->
    on_chain h fin = false)) as Hin.
  { intros Hch. pose proof Hch as [[p Hp] _]. destruct (Hst _ _ _ Hp) as [_ Hn]. rewrite list_elem_of_fmap. unfold stays. split.
    - intros (leaf & [= _ ->] & [_ Hns%negb_true_iff]%elem_of_filter_true). done.
    - intros Hns. exists h. split; [by rewrite Hn|]. apply elem_of_filter_true. rewrite Hns. split; [|done].
      rewrite hashes_items. apply list_elem_of_fmap. exists (h, num). split; [done|]. by apply elem_of_items, Hl. }
  assert (on_chain h fin = true <-> h = fin \/ ancestor fin h = true) as Hon.
  { unfold BlockBackendSpec.on_chain, at_or_above. rewrite orb_true_iff, bool_decide_eq_true. naive_solver. }
  rewrite <-Hon. split.
  - intros [Hch Hnot]. split; [done|]. rewrite (Hin Hch) in Hnot. by destruct (on_chain h fin).
  - intros [Hch Hf]. split; [done|]. rewrite (Hin Hch), Hf. done.
Qed.
End theorems.

(** ** The tree of seven blocks again *)

Module ForksExample.
Import TreeExample.

#[local] Existing Instance debug.
#[local] Existing Instance small_cache.

Notation err := (BlockchainError N unit).

(** The blocks in the order of their import. *)
Definition order : list (N * N * N) := [(1, 0, 100); (2, 1, 1); (3, 2, 2); (5, 2, 2); (4, 3, 3); (6, 3, 5); (7, 4, 6)]%N.

Definition grown (l : list (N * N * N)) : gmap N (N * N) * LeafSet N :=
  foldl (fun '(b, s) '(h, num, par) => (<[h := (num, par)]> b, (leaves_import (E := err) h num par s).1)) (∅, leaf_set_new) l.

Definition seven : gmap N (N * N) := (grown order).1.
Definition seven_leaves : LeafSet N := (grown order).2.

(** Checks on all blocks of a tree. *)
Definition no_child (b : gmap N (N * N)) (h : N) : bool := forallb (fun '(_, (m, p)) => (m =? 0)%N || negb (p =? h)%N) (map_to_list b).

Lemma no_child_ok b h : no_child b h = true -> forall x, ~ child_of b h x.
Proof.
  unfold no_child. rewrite forallb_forall. intros Hall x (m & Hx & Hm). apply elem_of_map_to_list, list_elem_of_In in Hx.
  apply Hall in Hx. simpl in Hx. rewrite (proj2 (N.eqb_neq _ _) Hm), N.eqb_refl in Hx. done.
Qed.

Lemma grown_tracked l h num par : tracked (E := err) (grown l).1 (grown l).2 -> (grown l).1 !! h = None -> no_child (grown l).1 h = true ->
  (num = 0%N \/ par <> h /\ (grown l).1 !! par = Some ((num - 1)%N, snd (default (0, 0)%N ((grown l).1 !! par)))) ->
  tracked (E := err) (grown (l ++ [(h, num, par)])).1 (grown (l ++ [(h, num, par)])).2.
Proof.
  intros Ht Hnew Hnc Hpar. unfold grown in *. rewrite foldl_app. cbn [foldl]. destruct (foldl _ (∅, leaf_set_new) l) as [b s]. cbn [fst snd] in *.
  eapply tracked_import; [done| |apply surjective_pairing]. split_and!; [done|by apply no_child_ok|]. intros Hz.
  destruct Hpar as [?|[Hne Hp]]; [done|]. split; [done|]. intros np gp Hlk. rewrite Hlk in Hp. by injection Hp.
Qed.

Lemma seven_tracked : tracked (E := err) seven seven_leaves.
Proof.
  unfold seven, seven_leaves, order.
  do 7 (match goal with |- context [grown ?l] => let k := eval cbv in (removelast l) in let x := eval cbv in (List.last l (0, 0, 0)%N) in
          match x with (?h, ?num, ?par) => change l with (k ++ [(h, num, par)]) end end;
        apply grown_tracked; [|reflexivity|reflexivity|first [by left|right; by vm_compute]]).
  apply tracked_new.
Qed.

Lemma seven_stored : stored block_header seven.
Proof.
  intros h num par Hl. apply elem_of_map_to_list in Hl. revert h num par Hl.
  enough (Forall (fun '(h, (num, par)) => known block_header h = true /\ num = N.of_nat (height block_header h)) (map_to_list seven)) as Hall.
  { intros h num par Hl. rewrite Forall_forall in Hall. apply (Hall (h, (num, par)) Hl). }
  vm_compute. repeat constructor.
Qed.

Lemma leaf_set_refines_witness :
  leaf_hashes seven_leaves = [7; 4]%N /\ childless seven 3 4%N /\ highest_leaf seven_leaves = Some (4, [7])%N /\ forall m x, childless seven m x -> (m <= 4)%N.
Proof.
  destruct (leaf_set_refines seven seven_leaves seven_tracked) as (Hc & _ & _ & _ & _ & Hh & _).
  assert (highest_leaf seven_leaves = Some (4, [7])%N) as Heq by (vm_compute; reflexivity). rewrite Heq in Hh.
  split; [vm_compute; reflexivity|]. split; [apply Hc; vm_compute; reflexivity|]. split; [exact Heq|apply Hh].
Defined.

(** Block 8 on top of block 4 takes its place, and gives it back. *)
Lemma undo_correct_witness :
  exists s' outcome s'', leaves_import (E := err) 8%N 4 4%N seven_leaves = (s', Ok outcome) /\ io_removed outcome = Some 4%N /\
    undo_import (E := err) outcome s' = (s'', Ok tt) /\ s'' ≡ seven_leaves.
Proof.
  destruct (undo_correct seven seven_leaves seven_tracked) as (Hi & _).
  destruct (Hi 8%N 4%N 4%N) as (s' & outcome & s'' & Heq & Hundo & Hs).
  - split; [reflexivity|]. split; [apply no_child_ok; reflexivity|]. intros _. split; [discriminate|]. intros np gp Hl. vm_compute in Hl. by injection Hl as <-.
  - exists s', outcome, s''. split; [exact Heq|]. split; [|split; [exact Hundo|exact Hs]].
    vm_compute in Heq. injection Heq as _ <-. reflexivity.
Defined.

(** Finalizing block 3 displaces the branch of block 5. *)
Lemma displaced_leaves_correct_witness :
  exists r c', displaced_leaves_after_finalizing block_header (inr [7; 4]%N) 1%N N.leb 3%N 2 2%N warm = (c', Ok r) /\
    displaced_leaves r = [(4, 7)]%N /\ displaced_blocks r = [5; 6; 7]%N /\ cache_ok block_header c'.
Proof.
  destruct (displaced_leaves_correct block_header blocks_ok 1%N (conj eq_refl eq_refl) N.leb 3%N 2%N [7; 4]%N warm warm_reached)
    as (r & c' & Heq & Hc & Hl & _); [reflexivity|reflexivity|reflexivity| |].
  - apply Forall_forall. repeat constructor.
  - exists r, c'. split; [exact Heq|]. assert ((displaced_leaves_after_finalizing block_header (inr [7; 4]%N) 1%N N.leb 3%N 2 2%N warm).2 = Ok r) as Hr
      by (change 2%N with (N.of_nat (height block_header 3%N)) at 1; rewrite Heq; reflexivity).
    vm_compute in Hr. injection Hr as <-. split; [reflexivity|]. split; [reflexivity|exact Hc].
Defined.

Lemma drop_displaced_leaves_correct_witness :
  exists c' s', drop_displaced_leaves block_header 1%N N.leb 3%N 2 2%N (warm, seven_leaves) = ((c', s'), Ok tt) /\ leaf_hashes s' = [4]%N /\
    forall num h, leaves_contains num h s' = true <-> childless seven num h /\ (h = 3%N \/ ancestor block_header 3%N h = true).
Proof.
  destruct (drop_displaced_leaves_correct block_header blocks_ok 1%N (conj eq_refl eq_refl) N.leb seven seven_leaves 3%N 2%N warm
    seven_tracked seven_stored warm_reached) as (c' & s' & Heq & _ & Hl); [reflexivity|reflexivity|reflexivity|].
  exists c', s'. split; [exact Heq|]. split; [|exact Hl].
  assert ((drop_displaced_leaves block_header 1%N N.leb 3%N 2 2%N (warm, seven_leaves)).1.2 = s') as Hs
    by (change 2%N with (N.of_nat (height block_header 3%N)) at 1; rewrite Heq; reflexivity).
  rewrite <-Hs. vm_compute. reflexivity.
Defined.

End ForksExample.
